(* ===== verification/_CoqProject ===== *)
-Q . S2P
Prelude.v
Bytes.v
AppendFormat.v
AppendPacking.v
BTreeMap.v
IntervalIndex.v
Budget.v
Queue.v
ChunkIndex.v
StoreFormat.v
ManifestFormat.v
ManifestTree.v
ManifestEditor.v
ManifestEdit.v
ManifestEditorSpec.v
ManifestPrepared.v
Lru.v
Cache.v
Scheduler.v
Space.v
Segments.v
Staging.v
Fair.v
AppendLog.v
AppendWorld.v
AppendRecovery.v
AppendDurable.v
AppendFraming.v
AppendRead.v
Window.v
Inflight.v
InflightSound.v
InflightRecover.v
InflightFail.v
InflightLife.v
GuestRequest.v
Action.v
Admission.v
Frontier.v
FrontierOrder.v
FrontierCarrier.v
