(* ===== verification/Prelude.v ===== *)
(** * CAS: a verification development of the content-addressed block backend

    The program (under [src/crates/cas]) stores guest disk images.  A guest
    write is admitted against shared quotas, packed into a checksummed batch,
    appended to a per-image write-ahead log (WAL), published in sequence order
    to an interval index that reads consult, and made durable by fences.  In
    the background the log is compacted: its blocks become content-addressed
    chunks in a shared store, and a copy-on-write manifest tree maps image
    blocks to chunk hashes.  Reads that the log does not cover go through the
    manifest, a block cache and an IO scheduler.

    ** Files

    - [Prelude]: results with errors and panics, machine-width arithmetic, list
      helpers, the tactics and the hint database shared by every file.
    - [Bytes]: [core/src/encoding.rs]; byte slices, little-endian fields, the
      CRC-32 and BLAKE3 interfaces as classes, and a computable CRC instance.
    - [AppendFormat], [AppendPacking]: [core/src/append/format.rs]; the WAL's
      segment headers, batches, descriptors and fences, and the packer.
    - [BTreeMap], [IntervalIndex]: [core/src/append/index.rs]; the ordered map
      and the index of disjoint intervals over it.
    - [AppendLog], [AppendWorld]: [core/src/append.rs],
      [core/src/append/submission.rs], [core/src/append/rotation.rs]; the log's
      state machine, and the world of segment files and in-flight writes it
      runs in.
    - [AppendRecovery], [AppendDurable], [AppendFraming]:
      [core/src/append/recovery.rs], [core/src/append/segment.rs]; inspection and
      repair of segment files, the link between a running log, a crash and what
      recovery finds, and the framing of arbitrary files that inspection accepts.
    - [AppendRead]: [core/src/append/read.rs], [core/src/append/segment/pins.rs];
      read plans over the index, the pins they hold, and their execution.
    - [Window]: [daemon/src/local/window.rs]; the reservation of physical frames
      in the current segment before a write is admitted.
    - [Budget], [Queue]: [core/src/budget.rs], [core/src/budget/*.rs]; credits,
      leases, the fixed ring and the bounded channel.
    - [ChunkIndex], [StoreFormat]: [core/src/chunk_index.rs],
      [core/src/chunk.rs], [core/src/store/format.rs]; chunk addresses, the
      deduplication table with its marks, and the chunk batches.
    - [ManifestFormat], [ManifestTree]: [core/src/manifest/format.rs],
      [core/src/manifest/tree.rs] and [core/src/manifest/tree/]; pages, and
      lookups and walks over them.
    - [ManifestEditor], [ManifestEdit], [ManifestEditorSpec],
      [ManifestPrepared]: [core/src/manifest/tree/editor.rs]; the copy-on-write
      editor of the tree, the list of extents it is to produce, the
      specification of its recursive calls, and the prepared transaction.
    - [Lru], [Cache]: [core/src/cache/lru.rs], [core/src/cache.rs].
    - [Scheduler]: [core/src/scheduler.rs].
    - [Space], [Staging], [Segments]: [core/src/space.rs],
      [core/src/space/filesystem.rs], [core/src/space/staging.rs],
      [core/src/segments.rs]; the disk account, the WAL quotas and the segment
      tickets.
    - [Fair]: [daemon/src/local/host/fair.rs]; fair admission of requests.
    - [Inflight]: [daemon/src/inflight.rs], [daemon/src/inflight/layout.rs],
      [daemon/src/inflight/recovery.rs]; the shared region that keeps the
      ownership of guest requests across a restart of the daemon, every
      operation as the sequence of its stores.  [InflightSound] has its
      invariant and the operations under it, [InflightRecover] the scan and the
      reconciliation, [InflightFail] what happens when the backend fails (the
      FAILED mark, the retirement with IOERR) and [rebase_queue] of
      [daemon/src/backend/lifecycle.rs], [InflightLife] the region's life as a
      transition system.

    - [GuestRequest]: [daemon/src/request.rs] and [decode_chain] of
      [daemon/src/backend.rs]; the decoder of virtio-blk requests.
    - [Action]: actions that change a state and may fail, with their weakest
      preconditions.  [Admission]: [daemon/src/backend/admission.rs]; the heads
      of the queues that wait for storage.  [Frontier]:
      [daemon/src/backend/frontier.rs], [accept] of [daemon/src/backend.rs] and
      the replay's part in [daemon/src/backend/recovery.rs]; the discovered
      requests.  [FrontierOrder] has the order in which they are admitted,
      [FrontierCarrier] their agreement with the inflight region.

    ** How code becomes definitions

    A function is a definition of the same name, methods prefixed by their
    type: [Log::publish_append] is [Log_publish_append].  A struct is a record
    and a method on [&mut self] returns the new record.  [Result] is [result]:
    [Ok], [Err] with the error kind and message of the source, or [Panic] for a
    failed assertion, [expect], index or arithmetic check; so "does not panic"
    is a theorem, not an assumption.  Integers are [Z]; checked, saturating and
    wrapping operations take the width, and plain [+] and [-] are checked where
    the code could overflow.  Statistics that nothing reads are plain numbers.
    What the environment decides (an allocation under a budget, a filesystem
    observation, the outcome of a write, a third-party checksum) is an argument
    of the definition.  Code under a mutex is one step; owners of guards,
    permits, tickets and leases are explicit in the state of a step relation,
    whose reachable states are all interleavings.

    ** What the theorems show

    - Formats ([AppendFormat], [AppendPacking], [StoreFormat],
      [ManifestFormat], [Segments], [ChunkIndex]): encoders and decoders are
      inverse, decoders accept nothing else, and a batch that was packed by any
      sequence of calls is read back as packed.
    - The log ([IntervalIndex], [AppendWorld]): reads through the index give the
      published prefix under every interleaving of writes, publications, fences
      and rotations; publication is ordered and never stuck.
      A read plan captured at any moment returns the image of its capture,
      falling back to the manifest, whatever happens to the log afterwards, and
      gives its pins back ([AppendRead]).
    - Admission ([Window]): the window's account follows the log through every
      interleaving, and an admitted write always fits the segment and the index.
    - Recovery ([AppendRecovery], [AppendDurable], [AppendFraming]): inspection
      of any bytes ends without panic, and what it accepts is framed in the files
      batch after batch, from the manifest's base on; repair is a fixed point;
      and after a crash the durable prefix is recovered with its contents.  A
      crash may tear any write in flight to the current segment; the file that a
      rotation has begun to create and not installed is not among the files a
      crash leaves.
    - Lookup structures ([ManifestTree], [ChunkIndex], [Lru], [Queue], [Cache]):
      refinement of finite maps, lists and bounded sequences; lookups agree with
      walks; traversals of arbitrary (corrupt) pages terminate without panic.
    - The editor ([ManifestPrepared]): the prepared pages, written where they
      were allocated, hold exactly the edited extents; their number and bytes
      are within the limits.
    - Ownership of guest requests ([InflightLife]): admission and completion
      succeed where they should and hand over one descriptor at one store; a
      region left by a crash at any store, also by one during recovery, is
      accepted and replays exactly the requests the daemon owns, in order; once
      the backend has failed, the region is marked, only retirements with IOERR
      store to it, and recovery refuses it.  The guest's restart of a ring and
      its record in the region are one moment.
    - Guest requests ([GuestRequest]): the decoder depends on the bytes of a
      chain alone and never panics; a decoded request is within the image, has
      its payload in the right direction, and passes the region's validation.
    - The frontier ([FrontierOrder], [FrontierCarrier], [Admission]): a visit of
      a queue is a run of an abstract machine, whatever the rest of the backend
      answers; requests whose order can be observed are admitted in the order
      they were found; the oldest is never stuck behind another; the region
      agrees with the frontier, and a restart rebuilds it when the guest's chains
      still decode and their memory is granted; waits and tickets
      are accounted for.
    - Accounts ([Budget], [Space], [Staging]): conservation, bounds, all or
      nothing reservations, hysteresis of the gates.
    - Scheduling ([Scheduler], [Fair]): bounded waiting, work conservation, and
      safety of the turn protocol.

    ** Fuel

    Loops that are not structural carry fuel that is proved sufficient:
    [remove_covered] the number of entries, [get_loop] one step per level of
    the bounded height, [Tree_visit] the height, [make_room] and [Cache_clear]
    the number of cached blocks, [replay_loop] the blocks of the file, [visits] one visit per image and one
    more; the editor's recursion is bounded by [MAX_HEIGHT], the levels of a tree.

    ** Not modelled

    io_uring submission, sockets, eventfds and threads (only their effect as
    steps of the models), direct file IO beyond reads and writes of byte ranges,
    telemetry and reports, the preallocated node arena of the interval index,
    command line, test harnesses and vendored crates.  Live replay of the WAL, its
    compaction and reclamation, the manifest's files, the store's files and the
    catalog are direct IO around the modelled formats.  Of the inflight region,
    the mapping of the file and the memory budget of the scans are left out, and
    stores are taken in program order.  Of the backend, guest completions, the
    execution of requests, the serial queue path and the stages of attachment
    are behind the interface [Host] of [Frontier]; the frontier's theorems speak
    of its history of discoveries and admissions, which the code does not keep. *)
From stdpp Require Export base numbers list option strings gmap.
From Stdlib Require Export ZArith Lia.

#[export] Set Default Goal Selector "!".
#[export] Set Warnings "-clear-no-such-hyp".

Declare Scope cas_scope.
Delimit Scope cas_scope with cas.
#[global] Open Scope Z_scope.

(** ** Machine integers *)

(** The types [u8], [u16], [u32], [u64] and [usize] (64 bits on the supported
    targets) are integers of [Z] in [0, 2^w). *)
Definition fits (w : Z) (v : Z) : Prop := 0 ≤ v < 2 ^ w.

#[global] Instance fits_dec w v : Decision (fits w v).
Proof. unfold fits. apply _. Defined.

Definition u64_max : Z := 2 ^ 64 - 1.

(** [checked_add] and [checked_sub] of the integer types of width [w]. *)
Definition checked_add (w a b : Z) : option Z :=
  if decide (a + b < 2 ^ w) then Some (a + b) else None.

Definition checked_sub (a b : Z) : option Z :=
  if decide (b ≤ a) then Some (a - b) else None.

Definition checked_mul (w a b : Z) : option Z :=
  if decide (a * b < 2 ^ w) then Some (a * b) else None.

Definition saturating_add (w a b : Z) : Z := Z.min (a + b) (2 ^ w - 1).

Definition saturating_sub (a b : Z) : Z := Z.max (a - b) 0.

Definition wrapping_add (w a b : Z) : Z := (a + b) mod 2 ^ w.

Definition wrapping_sub (w a b : Z) : Z := (a - b) mod 2 ^ w.

(** [is_multiple_of] for a nonzero right operand. *)
Definition is_multiple_of (a b : Z) : bool := bool_decide (a mod b = 0).

Definition is_some_and {A} (o : option A) (p : A → bool) : bool :=
  match o with Some a => p a | None => false end.

Definition is_none_or {A} (o : option A) (p : A → bool) : bool :=
  match o with Some a => p a | None => true end.

(** ** Results *)

(** The [io::ErrorKind]s the code distinguishes; [FormatError] is the
    [append::format::Error::Invalid] variant and the [Log] kinds are the other
    variants of [append::Error]. *)
Inductive ErrorKind : Type :=
  | InvalidData
  | InvalidInput
  | OutOfMemory
  | WouldBlock
  | Interrupted
  | TimedOut
  | UnexpectedEof
  | Other
  | FormatError
  | LogFailed
  | LogExhausted
  | LogCapacity
  | LogPending
  | LogRollover
  | LogPrefix.

Record error : Type := Error { error_kind : ErrorKind; error_message : string }.

(** [Ok] and [Err] are the constructors of [Result]; [Panic] is a failed
    [assert!], [expect], slice bound or overflow check, which unwinds. *)
Inductive result (A : Type) : Type :=
  | Ok (a : A)
  | Err (e : error)
  | Panic.

Arguments Ok {A} a.
Arguments Err {A} e.
Arguments Panic {A}.

Definition result_bind {A B} (f : A → result B) (m : result A) : result B :=
  match m with
  | Ok a => f a
  | Err e => Err e
  | Panic => Panic
  end.

#[global] Instance result_mret : MRet result := @Ok.
#[global] Instance result_mbind : MBind result := @result_bind.

Definition invalid_data {A} (message : string) : result A := Err (Error InvalidData message).
Definition invalid_input {A} (message : string) : result A := Err (Error InvalidInput message).
Definition out_of_memory {A} (message : string) : result A := Err (Error OutOfMemory message).
Definition other {A} (message : string) : result A := Err (Error Other message).

(** [ok_or_else] on an option. *)
Definition ok_or {A} (e : error) (o : option A) : result A :=
  match o with Some a => Ok a | None => Err e end.

(** [expect] and [unwrap] on an option. *)
Definition expect {A} (o : option A) : result A :=
  match o with Some a => Ok a | None => Panic end.

Definition is_ok {A} (r : result A) : bool :=
  match r with Ok _ => true | _ => false end.

Definition unwrap_or {A} (d : A) (r : result A) : A :=
  match r with Ok a => a | _ => d end.

#[global] Instance ErrorKind_eq_dec : EqDecision ErrorKind.
Proof. solve_decision. Defined.

#[global] Instance error_eq_dec : EqDecision error.
Proof. solve_decision. Defined.

#[global] Instance result_eq_dec `{EqDecision A} : EqDecision (result A).
Proof. solve_decision. Defined.

(** ** Lists *)

(** Index of the first element satisfying [p] ([Iterator::position]). *)
Fixpoint position {A} (p : A → bool) (l : list A) : option nat :=
  match l with
  | [] => None
  | x :: l' => if p x then Some O else S <$> position p l'
  end.

(** First element satisfying [p] ([Iterator::find]). *)
Fixpoint find_first {A} (p : A → bool) (l : list A) : option A :=
  match l with
  | [] => None
  | x :: l' => if p x then Some x else find_first p l'
  end.

(** Apply [f] to the first element satisfying [p], if there is one. *)
Fixpoint update_first {A} (p : A → bool) (f : A → A) (l : list A) : list A :=
  match l with
  | [] => []
  | x :: l' => if p x then f x :: l' else x :: update_first p f l'
  end.

(** [Vec::swap_remove] and [Vec::remove] at an index in range. *)
Definition vec_remove {A} (i : nat) (l : list A) : list A := take i l ++ drop (S i) l.

Definition swap_remove {A} (i : nat) (l : list A) : list A :=
  match last l with
  | None => []
  | Some x => if decide (S i = length l) then take i l
              else <[i := x]> (take (pred (length l)) l)
  end.

Fixpoint sumZ (l : list Z) : Z :=
  match l with [] => 0 | x :: l' => x + sumZ l' end.

(** ** Automation *)

Create HintDb cas discriminated.

(** Split every boolean test, [decide] and [match] on a compound term that the
    goal or a hypothesis is stuck on. *)
Ltac split_if :=
  repeat match goal with
  | |- context [if decide ?P then _ else _] => destruct (decide P)
  | H : context [if decide ?P then _ else _] |- _ => destruct (decide P)
  end.

(** Prove a closed decidable proposition by evaluating its decision procedure. *)
Ltac decide_now := apply (bool_decide_unpack _); vm_compute; exact I.

(** Turn boolean facts into propositions. *)
Ltac breflect :=
  repeat match goal with
  | H : _ && _ = true |- _ => apply andb_true_iff in H; destruct H
  | H : _ || _ = false |- _ => apply orb_false_iff in H; destruct H
  | H : negb _ = true |- _ => apply negb_true_iff in H
  | H : negb _ = false |- _ => apply negb_false_iff in H
  | H : bool_decide _ = true |- _ => apply bool_decide_eq_true_1 in H
  | H : bool_decide _ = false |- _ => apply bool_decide_eq_false_1 in H
  | H : is_true (bool_decide _) |- _ => apply bool_decide_unpack in H
  end.

(** ** Lemmas *)

Lemma result_bind_ok {A B} (f : A → result B) (m : result A) (b : B) :
  m ≫= f = Ok b → ∃ a, m = Ok a ∧ f a = Ok b.
Proof. destruct m; cbn; intros H; [eauto | discriminate H | discriminate H]. Qed.

(** Invert a successful monadic computation in a hypothesis: each bind gives
    the result of its first component. *)
Ltac inv_ok :=
  repeat match goal with
  | H : Ok _ = Ok _ |- _ => injection H as H
  | H : Err _ = Ok _ |- _ => discriminate H
  | H : Panic = Ok _ |- _ => discriminate H
  | H : invalid_data _ = Ok _ |- _ => discriminate H
  | H : invalid_input _ = Ok _ |- _ => discriminate H
  | H : out_of_memory _ = Ok _ |- _ => discriminate H
  | H : other _ = Ok _ |- _ => discriminate H
  | H : (_ ≫= _) = Ok _ |- _ =>
      let a := fresh "a" in let Ha := fresh "Hok" in
      apply result_bind_ok in H; destruct H as [a [Ha H]]
  | H : ok_or _ ?o = Ok _ |- _ =>
      let E := fresh "Ho" in
      destruct o eqn:E; cbn [ok_or] in H; [|discriminate H]
  | H : mret _ = Ok _ |- _ => injection H as H
  end.

Lemma is_ok_unwrap {A} (d : A) (r : result A) : is_ok r = true → r = Ok (unwrap_or d r).
Proof. by destruct r. Qed.

Lemma pair_snd {A B} (p : A * B) (b : B) : p.2 = b → p = (p.1, b).
Proof. destruct p. by intros <-. Qed.

Lemma checked_add_Some w a b c :
  checked_add w a b = Some c ↔ c = a + b ∧ a + b < 2 ^ w.
Proof.
  unfold checked_add. destruct (decide _); split; intros H; [| | discriminate |].
  - injection H as <-. done.
  - by destruct H as [-> _].
  - lia.
Qed.

Lemma checked_add_None w a b : checked_add w a b = None ↔ 2 ^ w ≤ a + b.
Proof.
  unfold checked_add. destruct (decide _); split; intros H; [discriminate | exfalso | | done]; lia.
Qed.

Lemma checked_sub_Some a b c : checked_sub a b = Some c ↔ c = a - b ∧ b ≤ a.
Proof.
  unfold checked_sub. destruct (decide _); split; intros H; [| | discriminate |].
  - injection H as <-. done.
  - by destruct H as [-> _].
  - lia.
Qed.

Lemma is_multiple_of_spec a b : is_multiple_of a b = true ↔ a mod b = 0.
Proof. unfold is_multiple_of. rewrite bool_decide_eq_true. done. Qed.

Lemma find_first_Some {A} (p : A → bool) l x :
  find_first p l = Some x → x ∈ l ∧ p x = true.
Proof.
  induction l as [|y l IH]; cbn; [done|]. destruct (p y) eqn:E.
  - intros [= ->]. split; [left | done].
  - intros H. apply IH in H as [H1 H2]. split; [by right | done].
Qed.

Lemma find_first_None {A} (p : A → bool) l :
  find_first p l = None ↔ ∀ x, x ∈ l → p x = false.
Proof.
  induction l as [|y l IH]; cbn.
  - split; [intros _ x Hx; by apply elem_of_nil in Hx | done].
  - destruct (p y) eqn:E.
    + split; [done|]. intros H. specialize (H y ltac:(left)). congruence.
    + rewrite IH. split.
      * intros H x [->|Hx]%elem_of_cons; [done | by apply H].
      * intros H x Hx. apply H. by right.
Qed.

Lemma position_Some {A} (p : A → bool) l i :
  position p l = Some i → ∃ x, l !! i = Some x ∧ p x = true.
Proof.
  revert i. induction l as [|y l IH]; intros i; cbn; [done|].
  destruct (p y) eqn:E.
  - intros [= <-]. eauto.
  - destruct (position p l) as [j|] eqn:Hj; cbn; [|done].
    intros [= <-]. cbn. by apply IH.
Qed.

Lemma list_filter_iff_in {A} (P Q : A → Prop) `{!∀ x, Decision (P x), !∀ x, Decision (Q x)}
    (l : list A) :
  (∀ x, x ∈ l → P x ↔ Q x) → filter P l = filter Q l.
Proof.
  intros HPQ. induction l as [|a l IH]; [done|]. rewrite !filter_cons, IH.
  - apply decide_ext. apply HPQ. left.
  - intros x Hx. apply HPQ. by right.
Qed.

Lemma sumZ_app l k : sumZ (l ++ k) = sumZ l + sumZ k.
Proof. induction l as [|x l IH]; cbn; [lia | rewrite IH; lia]. Qed.

Lemma sumZ_fmap_insert {A} (f : A → Z) (l : list A) i x y :
  l !! i = Some x → sumZ (f <$> <[i := y]> l) = sumZ (f <$> l) - f x + f y.
Proof.
  revert i. induction l as [|z l IH]; intros [|i] H; [done..| |].
  - injection H as ->. cbn. lia.
  - change (<[S i := y]> (z :: l)) with (z :: <[i := y]> l). rewrite !fmap_cons. cbn [sumZ].
    rewrite (IH _ H). lia.
Qed.

Lemma sumZ_nonneg {A} (f : A → Z) (l : list A) : Forall (λ x, 0 ≤ f x) l → 0 ≤ sumZ (f <$> l).
Proof. induction 1; cbn; lia. Qed.

Lemma sumZ_fmap_lookup {A} (f : A → Z) (l : list A) i x :
  Forall (λ x, 0 ≤ f x) l → l !! i = Some x → f x ≤ sumZ (f <$> l).
Proof.
  intros Hl. revert i. induction Hl as [|z l Hz Hl IH]; intros [|i]; cbn; [done..| |].
  - intros [= ->]. pose proof (sumZ_nonneg f l Hl). lia.
  - intros H. specialize (IH _ H). lia.
Qed.

Lemma lookup_insert_cases {A} (l : list A) i j x y :
  <[i := x]> l !! j = Some y → (j = i ∧ y = x ∧ (i < length l)%nat) ∨ (j ≠ i ∧ l !! j = Some y).
Proof.
  intros H. destruct (decide (j = i)) as [->|].
  - apply list_lookup_insert_Some in H as [(_ & -> & ?)|[? _]]; [by left | done].
  - rewrite list_lookup_insert_ne in H by done. by right.
Qed.

Lemma checked_sub_fits a b : b ≤ a → checked_sub a b = Some (a - b).
Proof. intros. by apply checked_sub_Some. Qed.

Lemma checked_add_fits w a b : a + b < 2 ^ w → checked_add w a b = Some (a + b).
Proof. unfold checked_add. intros. by rewrite decide_True by lia. Qed.
