(* ===== verification/Bytes.v ===== *)
(** * Byte buffers and little-endian fields

    Models [crates/cas/core/src/encoding.rs], the slice operations the storage
    formats use, and the interface of the [crc32fast] and [blake3] crates.  A
    buffer is a list of byte values; every length-checked access of the source
    is a [slice] or a [splice] at a constant offset. *)
From S2P Require Import Prelude.

(** ** Constants of [lib.rs] *)

Definition BLOCK_SIZE : Z := 4096.
Definition MAX_REQUEST_BYTES : Z := 1024 * 1024.

(** ** Buffers *)

Abbreviation bytes := (list Z) (only parsing).

Definition blen (b : bytes) : Z := Z.of_nat (length b).

(** Every element is a [u8]. *)
Definition bytes_ok (b : bytes) : Prop := Forall (fits 8) b.

#[global] Instance bytes_ok_dec b : Decision (bytes_ok b).
Proof. unfold bytes_ok. apply _. Defined.

(** [b[off..off + len]], for a range inside the buffer. *)
Definition slice (off len : Z) (b : bytes) : bytes :=
  take (Z.to_nat len) (drop (Z.to_nat off) b).

(** [b[off..off + src.len()].copy_from_slice(src)], for a range inside the buffer. *)
Definition splice (off : Z) (src b : bytes) : bytes :=
  list_inserts (Z.to_nat off) src b.

Definition zeros (n : Z) : bytes := replicate (Z.to_nat n) 0.

(** [b.iter().all(|byte| *byte == 0)]. *)
Definition all_zero (b : bytes) : bool := forallb (λ x, bool_decide (x = 0)) b.

(** [b.as_chunks::<n>().0]: the whole [n]-byte chunks, in order. *)
Fixpoint as_chunks_go (count : nat) (n : Z) (b : bytes) : list bytes :=
  match count with
  | O => []
  | S c => slice 0 n b :: as_chunks_go c n (drop (Z.to_nat n) b)
  end.

Definition as_chunks (n : Z) (b : bytes) : list bytes :=
  as_chunks_go (Z.to_nat (blen b / n)) n b.

(** The bytes of an ASCII literal such as [b"CASSEG02"]. *)
Definition ascii_bytes (s : string) : bytes :=
  (λ a, Z.of_N (Ascii.N_of_ascii a)) <$> String.list_ascii_of_string s.

(** ** Little-endian integers *)

(** [to_le_bytes] of an [n]-byte integer. *)
Fixpoint le_encode (n : nat) (v : Z) : bytes :=
  match n with
  | O => []
  | S n' => v mod 256 :: le_encode n' (v / 256)
  end.

(** [from_le_bytes]. *)
Fixpoint le_decode (b : bytes) : Z :=
  match b with
  | [] => 0
  | x :: b' => x + 256 * le_decode b'
  end.

Definition u16_at (b : bytes) (offset : Z) : Z := le_decode (slice offset 2 b).
Definition u32_at (b : bytes) (offset : Z) : Z := le_decode (slice offset 4 b).
Definition u64_at (b : bytes) (offset : Z) : Z := le_decode (slice offset 8 b).

Definition put16 (b : bytes) (offset value : Z) : bytes := splice offset (le_encode 2 value) b.
Definition put32 (b : bytes) (offset value : Z) : bytes := splice offset (le_encode 4 value) b.
Definition put64 (b : bytes) (offset value : Z) : bytes := splice offset (le_encode 8 value) b.

(** [encoding::require] and [encoding::require_healthy]. *)
Definition require (condition : bool) (message : string) : result unit :=
  if condition then Ok tt else invalid_data message.

Definition require_healthy (failed : bool) (message : string) : result unit :=
  if failed then other message else Ok tt.

(** ** The [crc32fast] and [blake3] crates *)

(** The streaming hasher of [crc32fast]; [crc_range] is the type of
    [Hasher::finalize]. *)
Class Crc32 : Type := {
  crc_state : Type;
  crc_new : crc_state;
  crc_update : crc_state → bytes → crc_state;
  crc_finalize : crc_state → Z;
  crc_range : ∀ s, fits 32 (crc_finalize s);
}.

(** [crc32fast::hash], a shorthand for one [update]. *)
Definition crc_hash `{Crc32} (b : bytes) : Z := crc_finalize (crc_update crc_new b).

(** [blake3::hash(bytes).as_bytes()]; [blake3_shape] is its type [[u8; 32]]. *)
Class Blake3 : Type := {
  blake3_hash : bytes → bytes;
  blake3_shape : ∀ b, blen (blake3_hash b) = 32 ∧ bytes_ok (blake3_hash b);
}.

Definition checksum `{Crc32} (b : bytes) (field : Z) : Z :=
  let crc := crc_new in
  let crc := crc_update crc (slice 0 field b) in
  let crc := crc_update crc (zeros 4) in
  let crc := crc_update crc (drop (Z.to_nat (field + 4)) b) in
  crc_finalize crc.

(** A concrete CRC-32 (reflected polynomial 0xEDB88320), used to evaluate the
    model on concrete inputs. *)
Fixpoint crc_bits (n : nat) (c : Z) : Z :=
  match n with
  | O => c
  | S n' => crc_bits n' (if Z.odd c then Z.lxor (Z.shiftr c 1) 3988292384 else Z.shiftr c 1)
  end.

Definition crc_ieee_update (c : Z) (b : bytes) : Z :=
  fold_left (λ c x, crc_bits 8 (Z.lxor c x)) b c.

Definition crc_ieee_finalize (c : Z) : Z := Z.lxor c 4294967295 mod 2 ^ 32.

Lemma crc_ieee_range c : fits 32 (crc_ieee_finalize c).
Proof. unfold crc_ieee_finalize, fits. apply Z.mod_pos_bound. lia. Qed.

Definition crc_ieee : Crc32 := {|
  crc_state := Z;
  crc_new := 4294967295;
  crc_update := crc_ieee_update;
  crc_finalize := crc_ieee_finalize;
  crc_range := crc_ieee_range;
|}.

(** A second instance, additive, for runs of the model that only need some
    checksum. *)
Lemma crc_sum_range c : fits 32 (c mod 2 ^ 32).
Proof. unfold fits. apply Z.mod_pos_bound. lia. Qed.

Definition crc_sum : Crc32 := {|
  crc_state := Z;
  crc_new := 0;
  crc_update := λ c b, fold_left Z.add b c;
  crc_finalize := λ c, c mod 2 ^ 32;
  crc_range := crc_sum_range;
|}.

Arguments slice : simpl never.
Arguments splice : simpl never.
Arguments zeros : simpl never.
Arguments le_encode : simpl never.
Arguments le_decode : simpl never.
Arguments BLOCK_SIZE : simpl never.

(** ** Slices and splices *)

Lemma blen_nonneg b : 0 ≤ blen b.
Proof. unfold blen. lia. Qed.

Lemma blen_app a b : blen (a ++ b) = blen a + blen b.
Proof. unfold blen. rewrite length_app. lia. Qed.

Lemma blen_splice off src b : blen (splice off src b) = blen b.
Proof. unfold blen, splice. by rewrite length_inserts. Qed.

Lemma blen_zeros n : 0 ≤ n → blen (zeros n) = n.
Proof. intros. unfold blen, zeros. rewrite length_replicate. lia. Qed.

Lemma blen_slice off len b :
  0 ≤ off → 0 ≤ len → off + len ≤ blen b → blen (slice off len b) = len.
Proof. unfold blen, slice. intros. rewrite length_take, length_drop. lia. Qed.

Lemma blen_le_encode n v : blen (le_encode n v) = Z.of_nat n.
Proof.
  unfold blen. f_equal. revert v. induction n as [|n IH]; intros v; cbn; [done|].
  change (length (le_encode (S n) v)) with (S (length (le_encode n (v / 256)))).
  by rewrite IH.
Qed.

Lemma lookup_slice off len b (i : nat) :
  0 ≤ off → Z.of_nat i < len → slice off len b !! i = b !! (Z.to_nat off + i)%nat.
Proof. intros. unfold slice. rewrite lookup_take_lt by lia. by rewrite lookup_drop. Qed.

Lemma slice_ext off len (a b : bytes) :
  (∀ i, (Z.to_nat off ≤ i < Z.to_nat off + Z.to_nat len)%nat → a !! i = b !! i) →
  slice off len a = slice off len b.
Proof.
  intros H. apply list_eq. intros i. unfold slice.
  destruct (decide (i < Z.to_nat len)%nat) as [Hi|Hi].
  - rewrite !lookup_take_lt by done. rewrite !lookup_drop. apply H. lia.
  - by rewrite !lookup_take_ge by lia.
Qed.

Lemma slice_splice_ne off len off' src b :
  0 ≤ off → 0 ≤ off' → (off + len ≤ off' ∨ off' + blen src ≤ off) →
  slice off len (splice off' src b) = slice off len b.
Proof.
  intros H1 H2 H3. apply slice_ext. intros i Hi. unfold splice, blen in *.
  destruct H3 as [H3|H3].
  - apply list_lookup_inserts_lt. lia.
  - apply list_lookup_inserts_ge. lia.
Qed.

Lemma slice_splice_eq off len src b :
  0 ≤ off → blen src = len → off + len ≤ blen b → slice off len (splice off src b) = src.
Proof.
  intros H1 H2 H3. unfold blen in *. apply list_eq. intros i. unfold slice, splice.
  destruct (decide (i < Z.to_nat len)%nat) as [Hi|Hi].
  - rewrite lookup_take_lt by done. rewrite lookup_drop, list_lookup_inserts.
    + f_equal. lia.
    + lia.
    + lia.
  - rewrite lookup_take_ge by lia. symmetry. apply lookup_ge_None_2. lia.
Qed.

Lemma slice_slice off len off' len' b :
  0 ≤ off → 0 ≤ off' → off' + len' ≤ len →
  slice off' len' (slice off len b) = slice (off + off') len' b.
Proof.
  intros. apply list_eq. intros i.
  destruct (decide (Z.of_nat i < len')) as [Hi|Hi].
  - rewrite !lookup_slice by lia. f_equal. lia.
  - unfold slice. by rewrite !lookup_take_ge by lia.
Qed.

(** A write inside a slice. *)
Lemma slice_splice_in off len k src b :
  0 ≤ off → 0 ≤ k → k + blen src ≤ len → off + len ≤ blen b →
  slice off len (splice (off + k) src b) = splice k src (slice off len b).
Proof.
  intros H1 H2 H3 H4. apply list_eq. intros i.
  pose proof (blen_slice off len b H1 ltac:(pose proof (blen_nonneg src); lia) H4) as Hl.
  unfold blen in *. destruct (decide (Z.of_nat i < len)) as [Hi|Hi].
  2:{ rewrite !lookup_ge_None_2; [done | unfold splice; rewrite length_inserts; lia |].
      unfold slice. rewrite length_take. lia. }
  rewrite lookup_slice by lia. unfold splice.
  destruct (decide (i < Z.to_nat k)%nat).
  { rewrite !list_lookup_inserts_lt by lia. by rewrite lookup_slice by lia. }
  destruct (decide (Z.to_nat k + length src ≤ i)%nat).
  { rewrite !list_lookup_inserts_ge by lia. by rewrite lookup_slice by lia. }
  rewrite !list_lookup_inserts by lia. f_equal. lia.
Qed.

Lemma slice_zeros off len n :
  0 ≤ off → 0 ≤ len → off + len ≤ n → slice off len (zeros n) = zeros len.
Proof.
  intros. unfold slice, zeros. rewrite drop_replicate, take_replicate. f_equal. lia.
Qed.

Lemma slice_all b len : blen b = len → slice 0 len b = b.
Proof. intros <-. unfold slice, blen. rewrite Z2Nat.inj_0, drop_0. apply take_ge. lia. Qed.

Lemma slice_app_l off len a b :
  0 ≤ off → 0 ≤ len → off + len ≤ blen a → slice off len (a ++ b) = slice off len a.
Proof.
  intros. apply slice_ext. intros i Hi. apply lookup_app_l. unfold blen in *. lia.
Qed.

Lemma slice_app_r off len a b :
  blen a ≤ off → slice off len (a ++ b) = slice (off - blen a) len b.
Proof.
  intros. unfold slice, blen in *. f_equal. rewrite drop_app_ge by lia. f_equal. lia.
Qed.

Lemma drop_slice off b n :
  0 ≤ off ≤ n → blen b = n → drop (Z.to_nat off) b = slice off (n - off) b.
Proof.
  intros H <-. unfold slice, blen in *. symmetry. apply take_ge. rewrite length_drop. lia.
Qed.

Lemma slice_split off len k b :
  0 ≤ off → 0 ≤ k ≤ len → off + len ≤ blen b →
  slice off len b = slice off k b ++ slice (off + k) (len - k) b.
Proof.
  intros H1 H2 H3. unfold slice. rewrite Z2Nat.inj_add, <- drop_drop by lia.
  rewrite <- (take_drop (Z.to_nat k) (drop (Z.to_nat off) b)) at 1.
  unfold blen in *. rewrite take_app, take_take, length_take, length_drop.
  f_equal; [f_equal; lia|]. f_equal. lia.
Qed.

Lemma splice_slice_id off len b :
  0 ≤ off → 0 ≤ len → off + len ≤ blen b → splice off (slice off len b) b = b.
Proof.
  intros H1 H2 H3. apply list_eq. intros i. unfold splice.
  pose proof (blen_slice off len b H1 H2 H3) as Hl. unfold blen in *.
  destruct (decide (i < Z.to_nat off)%nat) as [Hi|Hi].
  { by rewrite list_lookup_inserts_lt by done. }
  destruct (decide (Z.to_nat off + length (slice off len b) ≤ i)%nat) as [Hj|Hj].
  { by rewrite list_lookup_inserts_ge by done. }
  rewrite list_lookup_inserts by lia. rewrite lookup_slice by lia. f_equal. lia.
Qed.

Lemma splice_splice_swap o1 s1 o2 s2 b :
  0 ≤ o1 → 0 ≤ o2 → o1 + blen s1 ≤ o2 ∨ o2 + blen s2 ≤ o1 →
  splice o1 s1 (splice o2 s2 b) = splice o2 s2 (splice o1 s1 b).
Proof.
  intros H1 H2 H3. apply list_eq. intros i. unfold splice, blen in *.
  assert (Hc : ∀ o (s : bytes), (i < o)%nat ∨ (o + length s ≤ i)%nat ∨
    (o ≤ i < o + length s)%nat) by lia.
  destruct (decide (length b ≤ i)%nat) as [Hb|Hb].
  { rewrite !lookup_ge_None_2; rewrite ?length_inserts; done. }
  destruct (Hc (Z.to_nat o1) s1) as [G1|[G1|G1]];
    destruct (Hc (Z.to_nat o2) s2) as [G2|[G2|G2]]; try lia;
    repeat first
      [ rewrite list_lookup_inserts_lt by lia
      | rewrite list_lookup_inserts_ge by lia
      | rewrite list_lookup_inserts by (rewrite ?length_inserts; lia) ]; done.
Qed.

Lemma splice_splice_same off s1 s2 b :
  0 ≤ off → blen s1 = blen s2 → splice off s1 (splice off s2 b) = splice off s1 b.
Proof.
  intros H1 H2. apply list_eq. intros i. unfold splice, blen in *.
  destruct (decide (length b ≤ i)%nat) as [Hb|Hb].
  { by rewrite !lookup_ge_None_2; rewrite ?length_inserts. }
  destruct (decide (i < Z.to_nat off)%nat).
  { by rewrite !list_lookup_inserts_lt by lia. }
  destruct (decide (Z.to_nat off + length s1 ≤ i)%nat).
  { by rewrite !list_lookup_inserts_ge by lia. }
  by rewrite !list_lookup_inserts by (rewrite ?length_inserts; lia).
Qed.

(** Two buffers that agree on two adjacent ranges agree on their union. *)
Lemma slice_join off k len a b :
  0 ≤ off → 0 ≤ k ≤ len → off + len ≤ blen a → off + len ≤ blen b →
  slice off k a = slice off k b → slice (off + k) (len - k) a = slice (off + k) (len - k) b →
  slice off len a = slice off len b.
Proof.
  intros. rewrite (slice_split off len k a), (slice_split off len k b) by lia. congruence.
Qed.

(** ** Zero bytes *)

Lemma all_zero_spec b : all_zero b = true ↔ b = zeros (blen b).
Proof.
  unfold all_zero, zeros, blen. rewrite Nat2Z.id. induction b as [|x b IH]; cbn; [done|].
  rewrite andb_true_iff, bool_decide_eq_true, IH. split.
  - intros [-> H]. f_equal. done.
  - intros [= -> H]. split; [done|]. congruence.
Qed.

Lemma all_zero_zeros n : all_zero (zeros n) = true.
Proof.
  apply all_zero_spec. unfold zeros, blen. by rewrite length_replicate, Nat2Z.id.
Qed.

Lemma all_zero_app a b : all_zero (a ++ b) = true ↔ all_zero a = true ∧ all_zero b = true.
Proof. unfold all_zero. by rewrite forallb_app, andb_true_iff. Qed.

(** ** Checks *)

Lemma require_bind {A} c m (k : result A) b : (require c m;; k) = Ok b ↔ c = true ∧ k = Ok b.
Proof. destruct c; cbn; split; [done | by intros [_ ?] | done | by intros [? _]]. Qed.

Lemma require_ok c m u : require c m = Ok u ↔ c = true.
Proof. destruct c; cbn; split; try done. by destruct u. Qed.

(** ** Little-endian fields *)

Lemma le_decode_encode n v : fits (8 * Z.of_nat n) v → le_decode (le_encode n v) = v.
Proof.
  revert v. induction n as [|n IH]; intros v [H1 H2].
  - change (le_decode (le_encode 0 v)) with 0. change (2 ^ (8 * Z.of_nat 0)) with 1 in H2. lia.
  - change (le_decode (le_encode (S n) v))
      with (v mod 256 + 256 * le_decode (le_encode n (v / 256))).
    rewrite IH; [pose proof (Z.div_mod v 256); lia|].
    replace (8 * Z.of_nat (S n)) with (8 * Z.of_nat n + 8) in H2 by lia.
    rewrite Z.pow_add_r in H2 by lia. change (2 ^ 8) with 256 in H2.
    split; [apply Z.div_pos; lia|]. apply Z.div_lt_upper_bound; lia.
Qed.

Lemma le_decode_range b : bytes_ok b → fits (8 * blen b) (le_decode b).
Proof.
  induction 1 as [|x b Hx Hb IH]; [by vm_compute|].
  change (le_decode (x :: b)) with (x + 256 * le_decode b).
  unfold fits, blen in *. cbn [length].
  replace (8 * Z.of_nat (S (length b))) with (8 * Z.of_nat (length b) + 8) by lia.
  rewrite Z.pow_add_r by lia. change (2 ^ 8) with 256 in *. lia.
Qed.

Lemma le_encode_decode b : bytes_ok b → le_encode (length b) (le_decode b) = b.
Proof.
  induction 1 as [|x b Hx Hb IH]; [done|]. unfold fits in Hx. change (2 ^ 8) with 256 in Hx.
  change (le_decode (x :: b)) with (x + 256 * le_decode b). cbn [length].
  change (le_encode (S (length b)) (x + 256 * le_decode b)) with
    ((x + 256 * le_decode b) mod 256 :: le_encode (length b) ((x + 256 * le_decode b) / 256)).
  replace ((x + 256 * le_decode b) mod 256) with x.
  2:{ rewrite Z.mul_comm, Z.mod_add by lia. symmetry. apply Z.mod_small. lia. }
  replace ((x + 256 * le_decode b) / 256) with (le_decode b); [by rewrite IH|].
  rewrite Z.mul_comm, Z.div_add by lia. rewrite Z.div_small by lia. lia.
Qed.

Lemma le_encode_ok n v : bytes_ok (le_encode n v).
Proof.
  revert v. induction n as [|n IH]; intros v; [constructor|].
  change (le_encode (S n) v) with (v mod 256 :: le_encode n (v / 256)).
  constructor; [|apply IH]. unfold fits. change (2 ^ 8) with 256. apply Z.mod_pos_bound. lia.
Qed.

Lemma le_encode_zero n : le_encode n 0 = zeros (Z.of_nat n).
Proof.
  unfold zeros. rewrite Nat2Z.id. induction n as [|n IH]; [done|].
  change (le_encode (S n) 0) with (0 :: le_encode n 0). by rewrite IH.
Qed.

Lemma le_decode_zeros n : le_decode (zeros n) = 0.
Proof.
  unfold zeros. induction (Z.to_nat n) as [|m IH]; [done|].
  change (le_decode (replicate (S m) 0)) with (0 + 256 * le_decode (replicate m 0)). lia.
Qed.

Lemma bytes_ok_slice off len b : bytes_ok b → bytes_ok (slice off len b).
Proof. intros H. unfold slice. by apply Forall_take, Forall_drop. Qed.

Lemma bytes_ok_zeros n : bytes_ok (zeros n).
Proof. unfold bytes_ok, zeros. apply Forall_replicate. unfold fits. lia. Qed.

Lemma bytes_ok_app a b : bytes_ok (a ++ b) ↔ bytes_ok a ∧ bytes_ok b.
Proof. apply Forall_app. Qed.

Lemma bytes_ok_splice off src b : bytes_ok src → bytes_ok b → bytes_ok (splice off src b).
Proof.
  intros H1 H2. apply Forall_lookup_2. intros i x Hx. unfold splice in Hx.
  apply list_lookup_inserts_Some in Hx as [[_ Hx]|(_ & _ & Hx)].
  - by eapply (Forall_lookup_1 _ b).
  - by eapply (Forall_lookup_1 _ src).
Qed.

(** A field that reads back as [v] holds the encoding of [v]. *)
Lemma slice_of_le n len off v b :
  len = Z.of_nat n → bytes_ok b → 0 ≤ off → off + len ≤ blen b →
  le_decode (slice off len b) = v → slice off len b = le_encode n v.
Proof.
  intros -> H1 H2 H3 <-. rewrite <- (le_encode_decode (slice off (Z.of_nat n) b)) at 1.
  - f_equal. pose proof (blen_slice off (Z.of_nat n) b H2 ltac:(lia) H3) as H4.
    unfold blen in H4. lia.
  - by apply bytes_ok_slice.
Qed.

Lemma le_encode_slice n len off b :
  len = Z.of_nat n → bytes_ok b → 0 ≤ off → off + len ≤ blen b →
  le_encode n (le_decode (slice off len b)) = slice off len b.
Proof. intros. symmetry. by apply slice_of_le. Qed.

(** ** Checksums *)

Lemma checksum_range `{Crc32} b field : fits 32 (checksum b field).
Proof. apply crc_range. Qed.

(** The checksum reads the field it is stored in as zero. *)
Lemma checksum_splice `{Crc32} src b field :
  0 ≤ field → blen src = 4 → checksum (splice field src b) field = checksum b field.
Proof.
  intros H1 H2. unfold checksum. f_equal. f_equal.
  - do 2 f_equal. apply slice_splice_ne; lia.
  - apply list_eq. intros i. rewrite !lookup_drop. unfold splice, blen in *.
    apply list_lookup_inserts_ge. lia.
Qed.

(** Storing the checksum in its field, starting from a buffer that is zero
    there, gives back a buffer whose checksum field is right. *)
Lemma put_checksum_id `{Crc32} b field :
  bytes_ok b → 0 ≤ field → field + 4 ≤ blen b → u32_at b field = checksum b field →
  put32 (splice field (zeros 4) b) field (checksum (splice field (zeros 4) b) field) = b.
Proof.
  intros Hb H1 H2 H3. rewrite checksum_splice by (rewrite ?blen_le_encode, ?blen_zeros by lia; lia). unfold put32.
  rewrite splice_splice_same by (rewrite ?blen_le_encode, ?blen_zeros by lia; lia). rewrite <- H3. unfold u32_at.
  rewrite (le_encode_slice 4) by done. apply splice_slice_id; lia.
Qed.

(** ** Chunks *)

Lemma as_chunks_go_lookup count n b i :
  0 ≤ n → (i < count)%nat →
  as_chunks_go count n b !! i = Some (slice (Z.of_nat i * n) n b).
Proof.
  intros Hn. revert b i. induction count as [|c IH]; intros b [|i] Hi; cbn; [lia|lia|done|].
  rewrite IH by lia. f_equal. unfold slice. rewrite drop_drop. do 2 f_equal. lia.
Qed.

Lemma length_as_chunks_go count n b : length (as_chunks_go count n b) = count.
Proof. revert b. induction count as [|c IH]; intros b; cbn; [done | by rewrite IH]. Qed.

Lemma as_chunks_lookup n off count b i :
  0 < n → 0 ≤ off → (i < count)%nat → off + n * Z.of_nat count ≤ blen b →
  as_chunks n (slice off (n * Z.of_nat count) b) !! i = Some (slice (off + Z.of_nat i * n) n b).
Proof.
  intros. unfold as_chunks. rewrite blen_slice by lia.
  rewrite Z.mul_comm, Z.div_mul, Nat2Z.id by lia.
  rewrite as_chunks_go_lookup by lia. f_equal. apply slice_slice; nia.
Qed.

Lemma length_as_chunks n off count b :
  0 < n → 0 ≤ off → off + n * Z.of_nat count ≤ blen b →
  length (as_chunks n (slice off (n * Z.of_nat count) b)) = count.
Proof.
  intros. unfold as_chunks. rewrite blen_slice by lia.
  rewrite length_as_chunks_go, Z.mul_comm, Z.div_mul by lia. apply Nat2Z.id.
Qed.

(** ** Automation for fixed layouts *)

(** Lengths of literals and of written buffers, extended by the files that
    declare a layout. *)
Create Rewrite HintDb blen.
#[export] Hint Rewrite blen_splice blen_le_encode : blen.

(** Discharge the side conditions of the slice lemmas by linear arithmetic. *)
Ltac blia :=
  repeat first
    [ progress autorewrite with blen | rewrite blen_zeros by lia
    | rewrite blen_slice by blia ];
  cbn [Z.of_nat Pos.of_succ_nat Pos.succ]; first [done | lia].

(** Versions of the slice lemmas for constant layouts, whose range conditions
    are decided by computation. *)
Lemma slice_splice_ne_c off len off' src n b :
  blen src = n →
  (0 <=? off) && (0 <=? off') && ((off + len <=? off') || (off' + n <=? off)) = true →
  slice off len (splice off' src b) = slice off len b.
Proof. intros <- H. apply slice_splice_ne; lia. Qed.

Lemma slice_splice_eq_c off len src b n :
  blen src = len → blen b = n → (0 <=? off) && (off + len <=? n) = true →
  slice off len (splice off src b) = src.
Proof. intros H1 <- H. apply slice_splice_eq; lia. Qed.

Lemma slice_zeros_c off len n :
  (0 <=? off) && (0 <=? len) && (off + len <=? n) = true → slice off len (zeros n) = zeros len.
Proof. intros H. apply slice_zeros; lia. Qed.

(** Compute the length of a buffer expression. *)
Ltac blen_of :=
  autorewrite with blen;
  first [ eassumption | reflexivity_blen ]
with reflexivity_blen :=
  first [ rewrite blen_zeros by (by vm_compute); reflexivity
        | rewrite blen_slice by blia; reflexivity
        | reflexivity ].

(** Read a field through a chain of writes. *)
Ltac read_field :=
  repeat match goal with
  | |- context [slice ?o ?l (splice ?o ?s ?b)] =>
      rewrite (slice_splice_eq_c o l s b _ ltac:(blen_of) ltac:(blen_of) eq_refl)
  | |- context [slice ?o ?l (splice ?o' ?s ?b)] =>
      rewrite (slice_splice_ne_c o l o' s _ b ltac:(blen_of) eq_refl)
  | |- context [slice ?o ?l (zeros ?n)] =>
      rewrite (slice_zeros_c o l n eq_refl)
  end.

(** Prove that two buffers agree on [off, off + len) by comparing the first
    [k] bytes and the rest. *)
Ltac cut_slices off k len :=
  apply (slice_join off k len); [lia | lia | blia | blia | |];
  let o := eval vm_compute in (off + k) in change (off + k) with o;
  let l := eval vm_compute in (len - k) in change (len - k) with l.
