(* ===== verification/AppendFormat.v ===== *)
(** * The staging write-ahead log: byte layout of segments and batches

    Models [crates/cas/core/src/append/format.rs]: the 4 KiB segment header,
    the batch header with its envelope and descriptor slots, the packing
    [Builder], sealing and fences.  The theorems show that sealing and decoding
    are inverse to each other, that the segment header has exactly one
    encoding, and what recovery may rely on once [Header_decode] has accepted a
    block. *)
From S2P Require Import Prelude Bytes.

Definition MAX_DESCRIPTORS : Z := 63.
Definition MAX_BATCH_BYTES : Z := BLOCK_SIZE + MAX_REQUEST_BYTES.
Definition ENVELOPE_BYTES : Z := 64.
Definition DESCRIPTOR_BYTES : Z := 64.

Definition SEGMENT_MAGIC : bytes := Eval vm_compute in ascii_bytes "CASSEG02".
Definition BATCH_MAGIC : bytes := Eval vm_compute in ascii_bytes "CASBAT02".

Definition require (condition : bool) (message : string) : result unit :=
  if condition then Ok tt else Err (Error FormatError message).

Definition valid_range (offset length image_bytes : Z) : bool :=
  bool_decide (length ≠ 0)
  && is_multiple_of offset BLOCK_SIZE
  && is_multiple_of length BLOCK_SIZE
  && is_some_and (checked_add 64 offset length) (λ last, bool_decide (last ≤ image_bytes)).

(** ** Segment header *)

Record SegmentHeader : Type := {
  sh_store : bytes;
  sh_image : bytes;
  sh_epoch : Z;
  sh_number : Z;
  sh_capacity : Z;
  sh_image_bytes : Z;
  sh_preceding_sequence : Z;
}.

(** The Rust types of the fields: two [[u8; 16]] and five [u64]. *)
Definition SegmentHeader_ok (h : SegmentHeader) : Prop :=
  blen (sh_store h) = 16 ∧ bytes_ok (sh_store h) ∧
  blen (sh_image h) = 16 ∧ bytes_ok (sh_image h) ∧
  fits 64 (sh_epoch h) ∧ fits 64 (sh_number h) ∧ fits 64 (sh_capacity h) ∧
  fits 64 (sh_image_bytes h) ∧ fits 64 (sh_preceding_sequence h).

#[global] Instance SegmentHeader_ok_dec h : Decision (SegmentHeader_ok h).
Proof. unfold SegmentHeader_ok. apply _. Defined.

Definition SegmentHeader_validate (h : SegmentHeader) : result unit :=
  require (bool_decide (sh_store h ≠ zeros 16) && bool_decide (sh_image h ≠ zeros 16))
    "empty identity";;
  require (bool_decide (sh_epoch h ≠ 0) && bool_decide (sh_number h ≠ 0))
    "empty epoch or segment number";;
  require (bool_decide (3 * BLOCK_SIZE ≤ sh_capacity h)
           && is_multiple_of (sh_capacity h) BLOCK_SIZE) "segment capacity";;
  require (bool_decide (sh_image_bytes h ≠ 0)
           && is_multiple_of (sh_image_bytes h) BLOCK_SIZE) "image capacity".

Definition SegmentHeader_encode `{Crc32} (h : SegmentHeader) : result bytes :=
  SegmentHeader_validate h;;
  let b := zeros BLOCK_SIZE in
  let b := splice 0 SEGMENT_MAGIC b in
  let b := put32 b 8 2 in
  let b := put32 b 12 BLOCK_SIZE in
  let b := splice 16 (sh_store h) b in
  let b := splice 32 (sh_image h) b in
  let b := put64 b 48 (sh_epoch h) in
  let b := put64 b 56 (sh_number h) in
  let b := put64 b 64 (sh_capacity h) in
  let b := put64 b 72 (sh_image_bytes h) in
  let b := put64 b 80 (sh_preceding_sequence h) in
  let b := put32 b 4092 (checksum b 4092) in
  Ok b.

Definition SegmentHeader_decode `{Crc32} (b : bytes) : result SegmentHeader :=
  require (bool_decide (blen b = BLOCK_SIZE)) "segment header length";;
  require (bool_decide (slice 0 8 b = SEGMENT_MAGIC) && bool_decide (u32_at b 8 = 2))
    "segment version";;
  require (bool_decide (u32_at b 12 = BLOCK_SIZE)) "segment header size";;
  require (all_zero (slice 88 4004 b)) "segment reserved bytes";;
  require (bool_decide (u32_at b 4092 = checksum b 4092)) "segment checksum";;
  let value := {|
    sh_store := slice 16 16 b;
    sh_image := slice 32 16 b;
    sh_epoch := u64_at b 48;
    sh_number := u64_at b 56;
    sh_capacity := u64_at b 64;
    sh_image_bytes := u64_at b 72;
    sh_preceding_sequence := u64_at b 80;
  |} in
  SegmentHeader_validate value;;
  Ok value.

(** ** Mutation descriptors *)

Record RequestId : Type := {
  id_serial : Z;
  id_attachment : Z;
  id_queue : Z;
  id_head : Z;
}.

Inductive Kind : Type := Write | Zero.

#[global] Instance Kind_eq_dec : EqDecision Kind.
Proof. solve_decision. Defined.

Definition Kind_code (k : Kind) : Z := match k with Write => 1 | Zero => 2 end.

Record Descriptor : Type := {
  d_id : RequestId;
  d_sequence : Z;
  d_offset : Z;
  d_length : Z;
  d_payload_offset : Z;
  d_payload_length : Z;
  d_payload_crc : Z;
  d_kind : Kind;
}.

Definition Descriptor_ok (d : Descriptor) : Prop :=
  fits 64 (id_serial (d_id d)) ∧ fits 64 (id_attachment (d_id d)) ∧
  fits 16 (id_queue (d_id d)) ∧ fits 16 (id_head (d_id d)) ∧
  fits 64 (d_sequence d) ∧ fits 64 (d_offset d) ∧ fits 64 (d_length d) ∧
  fits 32 (d_payload_offset d) ∧ fits 32 (d_payload_length d) ∧ fits 32 (d_payload_crc d).

Definition Descriptor_encode (d : Descriptor) (b : bytes) : bytes :=
  let b := put64 b 0 (id_serial (d_id d)) in
  let b := put64 b 8 (d_sequence d) in
  let b := put64 b 16 (id_attachment (d_id d)) in
  let b := put64 b 24 (d_offset d) in
  let b := put64 b 32 (d_length d) in
  let b := put32 b 40 (d_payload_offset d) in
  let b := put32 b 44 (d_payload_length d) in
  let b := put32 b 48 (d_payload_crc d) in
  let b := put16 b 52 (Kind_code (d_kind d)) in
  let b := put16 b 54 (id_queue (d_id d)) in
  put16 b 56 (id_head (d_id d)).

Definition Descriptor_decode (b : bytes) : Descriptor := {|
  d_id := {|
    id_serial := u64_at b 0;
    id_attachment := u64_at b 16;
    id_queue := u16_at b 54;
    id_head := u16_at b 56;
  |};
  d_sequence := u64_at b 8;
  d_offset := u64_at b 24;
  d_length := u64_at b 32;
  d_payload_offset := u32_at b 40;
  d_payload_length := u32_at b 44;
  d_payload_crc := u32_at b 48;
  d_kind := if bool_decide (u16_at b 52 = 1) then Write else Zero;
|}.

(** ** Batch envelope and header *)

Record Envelope : Type := {
  env_segment : Z;
  env_batch : Z;
  env_descriptors : Z;
  env_payload_bytes : Z;
  env_first : Z;
  env_last : Z;
  env_fence : bool;
}.

Definition Envelope_encode `{Crc32} (e : Envelope) (b : bytes) : bytes :=
  let b := splice 0 BATCH_MAGIC b in
  let b := put16 b 8 2 in
  let b := put16 b 10 (if env_fence e then 2 else 1) in
  let b := put16 b 12 (env_descriptors e) in
  let b := put64 b 16 (env_segment e) in
  let b := put64 b 24 (env_batch e) in
  let b := put32 b 32 (BLOCK_SIZE + env_payload_bytes e) in
  let b := put32 b 36 (env_payload_bytes e) in
  let b := put64 b 40 (env_first e) in
  let b := put64 b 48 (env_last e) in
  put32 b 56 (checksum b 56).

Record Header : Type := {
  hdr_envelope : Envelope;
  hdr_bytes : bytes;
}.

Definition tag_ok (v : Z) : bool := bool_decide (v = 1) || bool_decide (v = 2).

(** One iteration of the descriptor loop of [Header::decode]; the state is
    [(payload_end, previous_serial)]. *)
Definition check_slot (env : Envelope) (image_bytes index : Z) (slot : bytes)
    (st : Z * Z) : result (Z * Z) :=
  let '(payload_end, previous_serial) := st in
  require (tag_ok (u16_at slot 52)) "mutation kind";;
  require (all_zero (slice 58 6 slot)) "descriptor reserved bytes";;
  let descriptor := Descriptor_decode slot in
  require (bool_decide (d_sequence descriptor = env_first env + index)) "mutation sequence";;
  require (bool_decide (previous_serial < id_serial (d_id descriptor))
           && bool_decide (id_attachment (d_id descriptor) ≠ 0)) "request identity";;
  let previous_serial := id_serial (d_id descriptor) in
  require (valid_range (d_offset descriptor) (d_length descriptor) image_bytes) "logical range";;
  match d_kind descriptor with
  | Write =>
      require (bool_decide (d_length descriptor = d_payload_length descriptor)
               && bool_decide (d_payload_offset descriptor = payload_end)) "WRITE payload range";;
      let payload_end := payload_end + d_payload_length descriptor in
      require (bool_decide (payload_end ≤ env_payload_bytes env)) "payload exceeds batch";;
      Ok (payload_end, previous_serial)
  | Zero =>
      require (bool_decide (d_payload_offset descriptor = 0)
               && bool_decide (d_payload_length descriptor = 0)
               && bool_decide (d_payload_crc descriptor = 0)) "ZERO payload";;
      Ok (payload_end, previous_serial)
  end.

Fixpoint check_slots (env : Envelope) (image_bytes index : Z) (slots : list bytes)
    (st : Z * Z) : result (Z * Z) :=
  match slots with
  | [] => Ok st
  | slot :: slots' =>
      st' ← check_slot env image_bytes index slot st;
      check_slots env image_bytes (index + 1) slots' st'
  end.

Definition Header_decode `{Crc32} (b : bytes) (image_bytes : Z) : result Header :=
  require (bool_decide (blen b = BLOCK_SIZE)) "batch header length";;
  require (bool_decide (slice 0 8 b = BATCH_MAGIC) && bool_decide (u16_at b 8 = 2))
    "batch version";;
  require (tag_ok (u16_at b 10)) "batch kind";;
  require (bool_decide (u32_at b 56 = checksum b 56)) "batch checksum";;
  let env := {|
    env_segment := u64_at b 16;
    env_batch := u64_at b 24;
    env_descriptors := u16_at b 12;
    env_payload_bytes := u32_at b 36;
    env_first := u64_at b 40;
    env_last := u64_at b 48;
    env_fence := bool_decide (u16_at b 10 = 2);
  |} in
  require (bool_decide (env_segment env ≠ 0) && bool_decide (env_batch env ≠ 0))
    "batch identity";;
  require (bool_decide (env_descriptors env ≤ MAX_DESCRIPTORS)) "descriptor count";;
  require (bool_decide (env_payload_bytes env ≤ MAX_REQUEST_BYTES)
           && is_multiple_of (env_payload_bytes env) BLOCK_SIZE) "payload length";;
  require (bool_decide (u32_at b 32 = BLOCK_SIZE + env_payload_bytes env)) "batch length";;
  require (bool_decide (u16_at b 14 = 0) && bool_decide (u32_at b 60 = 0))
    "envelope reserved bytes";;
  let used := ENVELOPE_BYTES + DESCRIPTOR_BYTES * env_descriptors env in
  require (all_zero (drop (Z.to_nat used) b)) "unused descriptor bytes";;
  (if env_fence env then
     require (bool_decide (env_descriptors env = 0) && bool_decide (env_payload_bytes env = 0)
              && bool_decide (env_first env = env_last env)) "fence contents"
   else
     require (bool_decide (env_descriptors env ≠ 0) && bool_decide (env_first env ≠ 0)
              && bool_decide (checked_add 64 (env_first env) (env_descriptors env - 1)
                              = Some (env_last env))) "mutation bounds");;
  let header := {| hdr_envelope := env; hdr_bytes := b |} in
  let slots := as_chunks DESCRIPTOR_BYTES
                 (slice ENVELOPE_BYTES (DESCRIPTOR_BYTES * env_descriptors env) b) in
  st ← check_slots env image_bytes 0 slots (0, 0);
  require (bool_decide (st.1 = env_payload_bytes env)) "payload coverage";;
  Ok header.

Definition Header_descriptors (h : Header) : list Descriptor :=
  Descriptor_decode <$>
    as_chunks DESCRIPTOR_BYTES
      (slice ENVELOPE_BYTES (env_descriptors (hdr_envelope h) * DESCRIPTOR_BYTES) (hdr_bytes h)).

Definition Header_follows (h : Header) (segment : SegmentHeader)
    (batch preceding offset last : Z) : bool :=
  let envelope := hdr_envelope h in
  let length := BLOCK_SIZE + env_payload_bytes envelope in
  bool_decide (env_segment envelope = sh_number segment)
  && bool_decide (env_batch envelope = batch)
  && is_some_and (checked_add 64 offset length) (λ after,
       bool_decide (after ≤ last)
       && bool_decide (after ≤ sh_capacity segment)
       && (env_fence envelope
           || is_some_and (checked_add 64 after BLOCK_SIZE)
                (λ fenced, bool_decide (fenced ≤ sh_capacity segment))))
  && (if env_fence envelope then bool_decide (env_last envelope = preceding)
      else bool_decide (checked_add 64 preceding 1 = Some (env_first envelope))).

Fixpoint verify_descriptors `{Crc32} (ds : list Descriptor) (payload : bytes) : result unit :=
  match ds with
  | [] => Ok tt
  | d :: ds' =>
      (match d_kind d with
       | Write =>
           require (bool_decide
             (crc_hash (slice (d_payload_offset d) (d_payload_length d) payload) = d_payload_crc d))
             "payload checksum"
       | Zero => Ok tt
       end);;
      verify_descriptors ds' payload
  end.

Definition Header_verify_payload `{Crc32} (h : Header) (payload : bytes) : result unit :=
  require (bool_decide (blen payload = env_payload_bytes (hdr_envelope h)))
    "short batch payload";;
  verify_descriptors (Header_descriptors h) payload.

(** ** Packing *)

Record Builder : Type := {
  bd_buffer : bytes;
  bd_image_bytes : Z;
  bd_descriptors : Z;
  bd_payload_bytes : Z;
  bd_last_serial : Z;
}.

Definition Builder_new (image_bytes payload_capacity : Z) : result Builder :=
  require (bool_decide (image_bytes ≠ 0) && is_multiple_of image_bytes BLOCK_SIZE)
    "image capacity";;
  require (bool_decide (payload_capacity ≤ MAX_REQUEST_BYTES)
           && is_multiple_of payload_capacity BLOCK_SIZE) "packing capacity";;
  Ok {| bd_buffer := zeros (BLOCK_SIZE + payload_capacity);
        bd_image_bytes := image_bytes;
        bd_descriptors := 0;
        bd_payload_bytes := 0;
        bd_last_serial := 0 |}.

Definition Builder_allocation_bytes (s : Builder) : Z := blen (bd_buffer s).

Definition Builder_admit (s : Builder) (id : RequestId) (offset length payload : Z)
    : result unit :=
  require (bool_decide (bd_descriptors s < MAX_DESCRIPTORS)) "full descriptor batch";;
  require (bool_decide (bd_last_serial s < id_serial id) && bool_decide (id_attachment id ≠ 0))
    "request identity";;
  require (valid_range offset length (bd_image_bytes s)) "logical range";;
  require (bool_decide (payload ≤ Builder_allocation_bytes s - BLOCK_SIZE - bd_payload_bytes s))
    "full payload batch".

Definition Builder_push (s : Builder) (d : Descriptor) : Builder :=
  let start := ENVELOPE_BYTES + bd_descriptors s * DESCRIPTOR_BYTES in
  {| bd_buffer :=
       splice start (Descriptor_encode d (slice start DESCRIPTOR_BYTES (bd_buffer s)))
         (bd_buffer s);
     bd_image_bytes := bd_image_bytes s;
     bd_descriptors := bd_descriptors s + 1;
     bd_payload_bytes := bd_payload_bytes s;
     bd_last_serial := id_serial (d_id d) |}.

Definition Builder_set_buffer (s : Builder) (b : bytes) : Builder :=
  {| bd_buffer := b;
     bd_image_bytes := bd_image_bytes s;
     bd_descriptors := bd_descriptors s;
     bd_payload_bytes := bd_payload_bytes s;
     bd_last_serial := bd_last_serial s |}.

(** [gather] fills the destination slice it is given; what it wrote stays in
    the buffer when it fails. *)
Definition Builder_write `{Crc32} (s : Builder) (id : RequestId) (offset length : Z)
    (gather : bytes → bytes * result unit) : Builder * result unit :=
  match Builder_admit s id offset length length with
  | Ok _ =>
      let start := BLOCK_SIZE + bd_payload_bytes s in
      let '(destination, gathered) := gather (slice start length (bd_buffer s)) in
      let s := Builder_set_buffer s (splice start destination (bd_buffer s)) in
      match gathered with
      | Ok _ =>
          let descriptor := {|
            d_id := id;
            d_sequence := 0;
            d_offset := offset;
            d_length := length;
            d_payload_offset := bd_payload_bytes s;
            d_payload_length := length;
            d_payload_crc := crc_hash destination;
            d_kind := Write;
          |} in
          let s := Builder_push s descriptor in
          ({| bd_buffer := bd_buffer s;
              bd_image_bytes := bd_image_bytes s;
              bd_descriptors := bd_descriptors s;
              bd_payload_bytes := bd_payload_bytes s + length;
              bd_last_serial := bd_last_serial s |}, Ok tt)
      | Err e => (s, Err e)
      | Panic => (s, Panic)
      end
  | Err e => (s, Err e)
  | Panic => (s, Panic)
  end.

Definition Builder_zero (s : Builder) (id : RequestId) (offset length : Z)
    : Builder * result unit :=
  match Builder_admit s id offset length 0 with
  | Ok _ =>
      (Builder_push s {|
         d_id := id;
         d_sequence := 0;
         d_offset := offset;
         d_length := length;
         d_payload_offset := 0;
         d_payload_length := 0;
         d_payload_crc := 0;
         d_kind := Zero;
       |}, Ok tt)
  | Err e => (s, Err e)
  | Panic => (s, Panic)
  end.

Record Batch : Type := {
  bt_buffer : bytes;
  bt_envelope : Envelope;
}.

(** The loop of [seal] that writes the sequence numbers into the slots. *)
Fixpoint assign_sequences (count : nat) (index first : Z) (b : bytes) : bytes :=
  match count with
  | O => b
  | S c =>
      assign_sequences c (index + 1) first
        (put64 b (ENVELOPE_BYTES + index * DESCRIPTOR_BYTES + 8) (first + index))
  end.

Definition Builder_seal `{Crc32} (s : Builder) (segment batch first : Z) : result Batch :=
  require (bool_decide (bd_descriptors s ≠ 0) && bool_decide (first ≠ 0)
           && bool_decide (segment ≠ 0) && bool_decide (batch ≠ 0)) "empty batch identity";;
  last ← ok_or (Error FormatError "sequence exhausted")
           (checked_add 64 first (bd_descriptors s - 1));
  let buffer := assign_sequences (Z.to_nat (bd_descriptors s)) 0 first (bd_buffer s) in
  let envelope := {|
    env_segment := segment;
    env_batch := batch;
    env_descriptors := bd_descriptors s;
    env_payload_bytes := bd_payload_bytes s;
    env_first := first;
    env_last := last;
    env_fence := false;
  |} in
  let buffer := splice 0 (Envelope_encode envelope (slice 0 BLOCK_SIZE buffer)) buffer in
  Ok {| bt_buffer := buffer; bt_envelope := envelope |}.

Definition Batch_fence `{Crc32} (segment batch boundary : Z) : result Batch :=
  require (bool_decide (segment ≠ 0) && bool_decide (batch ≠ 0)) "fence identity";;
  let envelope := {|
    env_segment := segment;
    env_batch := batch;
    env_descriptors := 0;
    env_payload_bytes := 0;
    env_first := boundary;
    env_last := boundary;
    env_fence := true;
  |} in
  Ok {| bt_buffer := Envelope_encode envelope (zeros BLOCK_SIZE); bt_envelope := envelope |}.

Definition Batch_bytes (t : Batch) : bytes :=
  slice 0 (BLOCK_SIZE + env_payload_bytes (bt_envelope t)) (bt_buffer t).

(** ** Lemmas: checks *)

Lemma blen_SEGMENT_MAGIC : blen SEGMENT_MAGIC = 8.
Proof. done. Qed.

Lemma blen_BATCH_MAGIC : blen BATCH_MAGIC = 8.
Proof. done. Qed.

#[export] Hint Rewrite blen_SEGMENT_MAGIC blen_BATCH_MAGIC : blen.

Lemma append_require_bind {A} c m (k : result A) b :
  (require c m;; k) = Ok b ↔ c = true ∧ k = Ok b.
Proof. destruct c; cbn; split; [done | by intros [_ ?] | done | by intros [? _]]. Qed.

Lemma append_require_ok c m u : require c m = Ok u ↔ c = true.
Proof. destruct c; cbn; split; try done. by destruct u. Qed.

Lemma valid_range_spec offset len image :
  valid_range offset len image = true ↔
  len ≠ 0 ∧ offset mod BLOCK_SIZE = 0 ∧ len mod BLOCK_SIZE = 0 ∧
  offset + len < 2 ^ 64 ∧ offset + len ≤ image.
Proof.
  unfold valid_range. rewrite !andb_true_iff, !is_multiple_of_spec, bool_decide_eq_true.
  destruct (checked_add 64 offset len) as [e|] eqn:E; cbn [is_some_and].
  - apply checked_add_Some in E as [-> E]. rewrite bool_decide_eq_true. tauto.
  - apply checked_add_None in E. split; [by intros [_ ?] | intros (_ & _ & _ & H & _); lia].
Qed.

Lemma SegmentHeader_validate_iff h u :
  SegmentHeader_validate h = Ok u ↔
  sh_store h ≠ zeros 16 ∧ sh_image h ≠ zeros 16 ∧ sh_epoch h ≠ 0 ∧ sh_number h ≠ 0 ∧
  3 * BLOCK_SIZE ≤ sh_capacity h ∧ sh_capacity h mod BLOCK_SIZE = 0 ∧
  sh_image_bytes h ≠ 0 ∧ sh_image_bytes h mod BLOCK_SIZE = 0.
Proof.
  unfold SegmentHeader_validate. rewrite !append_require_bind, append_require_ok.
  rewrite !andb_true_iff, !is_multiple_of_spec, !bool_decide_eq_true. tauto.
Qed.

(** The buffer [SegmentHeader_encode] produces. *)
Definition SegmentHeader_image `{Crc32} (h : SegmentHeader) : bytes :=
  splice 80 (le_encode 8 (sh_preceding_sequence h))
  (splice 72 (le_encode 8 (sh_image_bytes h))
  (splice 64 (le_encode 8 (sh_capacity h))
  (splice 56 (le_encode 8 (sh_number h))
  (splice 48 (le_encode 8 (sh_epoch h))
  (splice 32 (sh_image h)
  (splice 16 (sh_store h)
  (splice 12 (le_encode 4 BLOCK_SIZE)
  (splice 8 (le_encode 4 2)
  (splice 0 SEGMENT_MAGIC (zeros BLOCK_SIZE)))))))))).

Lemma SegmentHeader_encode_iff `{Crc32} h b :
  SegmentHeader_encode h = Ok b ↔
  SegmentHeader_validate h = Ok tt ∧
  b = put32 (SegmentHeader_image h) 4092 (checksum (SegmentHeader_image h) 4092).
Proof.
  unfold SegmentHeader_encode. destruct (SegmentHeader_validate h) as [[]| |]; cbn.
  - split; [intros [= <-]; done | by intros [_ ->]].
  - split; [done | by intros [? _]].
  - split; [done | by intros [? _]].
Qed.

Lemma SegmentHeader_decode_iff `{Crc32} b h :
  SegmentHeader_decode b = Ok h ↔
  blen b = BLOCK_SIZE ∧ slice 0 8 b = SEGMENT_MAGIC ∧ u32_at b 8 = 2 ∧
  u32_at b 12 = BLOCK_SIZE ∧ slice 88 4004 b = zeros 4004 ∧
  u32_at b 4092 = checksum b 4092 ∧
  h = {| sh_store := slice 16 16 b; sh_image := slice 32 16 b; sh_epoch := u64_at b 48;
         sh_number := u64_at b 56; sh_capacity := u64_at b 64; sh_image_bytes := u64_at b 72;
         sh_preceding_sequence := u64_at b 80 |} ∧
  SegmentHeader_validate h = Ok tt.
Proof.
  unfold SegmentHeader_decode. rewrite !append_require_bind.
  rewrite !andb_true_iff, !bool_decide_eq_true, all_zero_spec.
  split.
  - intros (Hl & [? ?] & ? & Hz & ? & Hv). rewrite blen_slice in Hz by (unfold BLOCK_SIZE in *; lia).
    apply result_bind_ok in Hv as [[] [Hv [= <-]]]. done.
  - intros (Hl & ? & ? & ? & Hz & ? & -> & Hv). rewrite Hv.
    rewrite blen_slice by (unfold BLOCK_SIZE in *; lia). done.
Qed.

Lemma blen_SegmentHeader_image `{Crc32} h : blen (SegmentHeader_image h) = BLOCK_SIZE.
Proof. unfold SegmentHeader_image, BLOCK_SIZE. blia. Qed.

Lemma SegmentHeader_decode_ok `{Crc32} b h :
  bytes_ok b → SegmentHeader_decode b = Ok h → SegmentHeader_ok h.
Proof.
  intros Hb (Hl & _ & _ & _ & _ & _ & -> & _)%SegmentHeader_decode_iff.
  unfold BLOCK_SIZE in Hl. unfold SegmentHeader_ok, u64_at; cbn.
  rewrite !blen_slice by lia.
  assert (Hf : ∀ o, 0 ≤ o → o + 8 ≤ 4096 → fits 64 (le_decode (slice o 8 b))).
  { intros o H1 H2. pose proof (le_decode_range (slice o 8 b) (bytes_ok_slice o 8 b Hb)) as H3.
    by rewrite blen_slice in H3 by lia. }
  repeat split; try (apply bytes_ok_slice, Hb); try (apply Hf; lia).
Qed.

Lemma SegmentHeader_image_of `{Crc32} b h :
  bytes_ok b → SegmentHeader_decode b = Ok h →
  SegmentHeader_image h = splice 4092 (zeros 4) b.
Proof.
  intros Hb (Hl & Hm & Hv & Hs & Hz & _ & -> & _)%SegmentHeader_decode_iff.
  unfold BLOCK_SIZE in Hl.
  rewrite <- (slice_all (SegmentHeader_image _) 4096) by (by rewrite blen_SegmentHeader_image).
  rewrite <- (slice_all (splice 4092 (zeros 4) b) 4096) by (by rewrite blen_splice).
  unfold SegmentHeader_image; cbn [sh_store sh_image sh_epoch sh_number sh_capacity
    sh_image_bytes sh_preceding_sequence]; unfold u32_at, u64_at in *.
  cut_slices 0 8 4096; [read_field; done|].
  cut_slices 8 4 4088; [read_field; symmetry; apply slice_of_le; blia|].
  cut_slices 12 4 4084; [read_field; symmetry; apply slice_of_le; blia|].
  cut_slices 16 16 4080; [read_field; done|].
  cut_slices 32 16 4064; [read_field; done|].
  cut_slices 48 8 4048; [read_field; apply le_encode_slice; blia|].
  cut_slices 56 8 4040; [read_field; apply le_encode_slice; blia|].
  cut_slices 64 8 4032; [read_field; apply le_encode_slice; blia|].
  cut_slices 72 8 4024; [read_field; apply le_encode_slice; blia|].
  cut_slices 80 8 4016; [read_field; apply le_encode_slice; blia|].
  cut_slices 88 4004 4008; [read_field; by rewrite Hz|].
  read_field. done.
Qed.

(** Reading every field of an encoded segment header. *)
Lemma SegmentHeader_decode_encode `{Crc32} h b :
  SegmentHeader_ok h → SegmentHeader_encode h = Ok b → SegmentHeader_decode b = Ok h.
Proof.
  intros (Hs & _ & Hi & _ & H1 & H2 & H3 & H4 & H5) [Hv ->]%SegmentHeader_encode_iff.
  apply SegmentHeader_decode_iff.
  assert (Hl : blen (SegmentHeader_image h) = 4096) by (by rewrite blen_SegmentHeader_image).
  unfold u32_at, u64_at, put32. rewrite blen_splice, Hl.
  rewrite checksum_splice by blia.
  rewrite (slice_splice_eq 4092 4) by blia.
  rewrite !slice_splice_ne by blia.
  unfold SegmentHeader_image in Hl |- *. read_field.
  rewrite !le_decode_encode by (done || apply checksum_range).
  repeat (split; [done|]). by destruct h.
Qed.

(** A segment header has exactly one encoding: the bytes [b] are what
    [SegmentHeader::encode] writes for [h] if and only if
    [SegmentHeader::decode] accepts them and returns [h]. *)
Lemma segment_header_codec `{Crc32} (h : SegmentHeader) (b : bytes) :
  SegmentHeader_ok h → bytes_ok b →
  (SegmentHeader_encode h = Ok b ↔ SegmentHeader_decode b = Ok h).
Proof.
  intros Hh Hb. split; [by apply SegmentHeader_decode_encode|].
  intros Hd. apply SegmentHeader_encode_iff. rewrite (SegmentHeader_image_of b h Hb Hd).
  apply SegmentHeader_decode_iff in Hd as (Hl & _ & _ & _ & _ & Hc & _ & Hv).
  unfold BLOCK_SIZE in Hl. split; [done|]. symmetry. apply put_checksum_id; [done | lia | lia | done].
Qed.

(** ** Descriptor slots *)

Definition set_sequence (d : Descriptor) (q : Z) : Descriptor := {|
  d_id := d_id d; d_sequence := q; d_offset := d_offset d; d_length := d_length d;
  d_payload_offset := d_payload_offset d; d_payload_length := d_payload_length d;
  d_payload_crc := d_payload_crc d; d_kind := d_kind d |}.

Lemma Descriptor_encode_len d b : blen (Descriptor_encode d b) = blen b.
Proof. unfold Descriptor_encode, put64, put32, put16. by autorewrite with blen. Qed.

#[export] Hint Rewrite Descriptor_encode_len : blen.

Lemma Descriptor_encode_tag d b :
  blen b = 64 → u16_at (Descriptor_encode d b) 52 = Kind_code (d_kind d).
Proof.
  intros Hb. unfold Descriptor_encode, put64, put32, put16, u16_at. read_field.
  apply le_decode_encode. by destruct (d_kind d).
Qed.

Lemma Descriptor_encode_tail d b :
  blen b = 64 → slice 58 6 (Descriptor_encode d b) = slice 58 6 b.
Proof. intros Hb. unfold Descriptor_encode, put64, put32, put16. by read_field. Qed.

Lemma Descriptor_decode_encode d b :
  blen b = 64 → Descriptor_ok d → Descriptor_decode (Descriptor_encode d b) = d.
Proof.
  intros Hb (H1 & H2 & H3 & H4 & H5 & H6 & H7 & H8 & H9 & H10).
  unfold Descriptor_decode. rewrite Descriptor_encode_tag by done.
  unfold Descriptor_encode, put64, put32, put16, u64_at, u32_at, u16_at. read_field.
  rewrite !le_decode_encode by done.
  destruct d as [[] ? ? ? ? ? ? []]; cbn; done.
Qed.

Lemma Descriptor_encode_sequence d b q :
  blen b = 64 → put64 (Descriptor_encode d b) 8 q = Descriptor_encode (set_sequence d q) b.
Proof.
  intros Hb. unfold Descriptor_encode, put64, put32, put16; cbn [d_id d_sequence d_offset d_length
    d_payload_offset d_payload_length d_payload_crc d_kind set_sequence].
  do 9 (rewrite (splice_splice_swap 8) by blia). by rewrite splice_splice_same by blia.
Qed.

Lemma bytes_ok_Descriptor_encode d b : bytes_ok b → bytes_ok (Descriptor_encode d b).
Proof.
  intros Hb. unfold Descriptor_encode, put64, put32, put16.
  repeat (apply bytes_ok_splice; [apply le_encode_ok|]). done.
Qed.

(** ** What a packed batch contains *)

Definition RequestId_ok (id : RequestId) : Prop :=
  fits 64 (id_serial id) ∧ fits 64 (id_attachment id) ∧ fits 16 (id_queue id) ∧ fits 16 (id_head id).

#[global] Instance RequestId_ok_dec id : Decision (RequestId_ok id).
Proof. unfold RequestId_ok. apply _. Defined.

(** The conditions under which one descriptor extends a batch that ends at
    payload byte [pe] with last serial [serial]; they are what both
    [Builder::admit] and the decoding loop establish. *)
Definition extends (image pe serial : Z) (d : Descriptor) : Prop :=
  serial < id_serial (d_id d) ∧ id_attachment (d_id d) ≠ 0 ∧
  valid_range (d_offset d) (d_length d) image = true ∧
  match d_kind d with
  | Write => d_length d = d_payload_length d ∧ d_payload_offset d = pe
  | Zero => d_payload_offset d = 0 ∧ d_payload_length d = 0 ∧ d_payload_crc d = 0
  end.

Inductive chain (image : Z) : list Descriptor → Z → Z → Prop :=
  | chain_nil : chain image [] 0 0
  | chain_snoc ds d pe serial :
      chain image ds pe serial → extends image pe serial d →
      chain image (ds ++ [d]) (pe + d_payload_length d) (id_serial (d_id d)).

(** The descriptors of a sealed batch: consecutive sequence numbers. *)
Definition number (first : Z) (ds : list Descriptor) : list Descriptor :=
  imap (λ i d, set_sequence d (first + Z.of_nat i)) ds.

Lemma check_slots_app env image index l1 l2 st :
  check_slots env image index (l1 ++ l2) st =
  (st' ← check_slots env image index l1 st;
   check_slots env image (index + Z.of_nat (length l1)) l2 st').
Proof.
  revert index st. induction l1 as [|s l1 IH]; intros index st; cbn.
  - by rewrite Z.add_0_r.
  - destruct (check_slot _ _ _ _ _); cbn; [|done|done]. rewrite IH.
    destruct (check_slots _ _ _ l1 _); cbn; [|done|done]. f_equal. lia.
Qed.

(** The decoding loop accepts a descriptor that extends the batch. *)
Lemma check_slot_extends env image index d pe serial q :
  Descriptor_ok (set_sequence d q) → q = env_first env + index →
  extends image pe serial d → pe + d_payload_length d ≤ env_payload_bytes env →
  check_slot env image index (Descriptor_encode (set_sequence d q) (zeros 64)) (pe, serial)
  = Ok (pe + d_payload_length d, id_serial (d_id d)).
Proof.
  intros Hok -> (H1 & H2 & H3 & H4) H5. unfold check_slot.
  rewrite Descriptor_encode_tag, Descriptor_encode_tail, Descriptor_decode_encode by done.
  rewrite slice_zeros, all_zero_zeros by lia. cbn [set_sequence d_sequence d_id d_offset d_length
    d_payload_offset d_payload_length d_payload_crc d_kind].
  replace (tag_ok _) with true by (by destruct (d_kind d)).
  rewrite (bool_decide_eq_true_2 (_ + _ = _)), (bool_decide_eq_true_2 (_ < _)),
    (bool_decide_eq_true_2 (_ ≠ 0)), H3 by done. cbn.
  destruct (d_kind d).
  - destruct H4 as [-> ->]. rewrite (bool_decide_eq_true_2 (_ = d_payload_length d)),
      (bool_decide_eq_true_2 (pe = pe)) by done. cbn. by rewrite bool_decide_eq_true_2.
  - destruct H4 as (-> & -> & ->). cbn. by rewrite Z.add_0_r.
Qed.

Lemma number_snoc first ds d :
  number first (ds ++ [d]) = number first ds ++ [set_sequence d (first + Z.of_nat (length ds))].
Proof. unfold number. rewrite imap_app. cbn. by rewrite Nat.add_0_r. Qed.

Lemma chain_nonneg image ds pe serial :
  Forall (λ d, 0 ≤ d_payload_length d) ds → chain image ds pe serial → 0 ≤ pe.
Proof.
  intros Hf. induction 1 as [|ds d pe serial Hc IH _]; [lia|].
  apply Forall_app in Hf as [Hf Hd]. apply Forall_cons_1 in Hd as [Hd _]. specialize (IH Hf). lia.
Qed.

Lemma check_slots_chain env image ds pe serial :
  Forall (λ d, 0 ≤ d_payload_length d) ds →
  Forall Descriptor_ok (number (env_first env) ds) →
  chain image ds pe serial → pe ≤ env_payload_bytes env →
  check_slots env image 0 ((λ d, Descriptor_encode d (zeros 64)) <$> number (env_first env) ds)
    (0, 0) = Ok (pe, serial).
Proof.
  intros Hf Hok Hc. revert Hf Hok. induction Hc as [|ds d pe serial Hc IH He]; intros Hf Hok Hpe.
  { done. }
  rewrite number_snoc in *. apply Forall_app in Hf as [Hf Hd], Hok as [Hok Hokd].
  apply Forall_cons_1 in Hd as [Hd _], Hokd as [Hokd _].
  rewrite fmap_app, check_slots_app, IH by (done || lia).
  cbn [mbind result_mbind result_bind check_slots fmap list_fmap].
  rewrite (check_slot_extends env image _ d pe serial); [done | done | | done | lia].
  unfold number. rewrite length_fmap, length_imap. lia.
Qed.

(** ** The batch header *)

(** The envelope [Header_decode] reads from a block. *)
Definition envelope_of (b : bytes) : Envelope := {|
  env_segment := u64_at b 16; env_batch := u64_at b 24; env_descriptors := u16_at b 12;
  env_payload_bytes := u32_at b 36; env_first := u64_at b 40; env_last := u64_at b 48;
  env_fence := bool_decide (u16_at b 10 = 2) |}.

(** The conditions on an envelope that do not involve the descriptors. *)
Definition envelope_valid (env : Envelope) : Prop :=
  env_segment env ≠ 0 ∧ env_batch env ≠ 0 ∧ env_descriptors env ≤ MAX_DESCRIPTORS ∧
  env_payload_bytes env ≤ MAX_REQUEST_BYTES ∧ env_payload_bytes env mod BLOCK_SIZE = 0 ∧
  if env_fence env
  then env_descriptors env = 0 ∧ env_payload_bytes env = 0 ∧ env_first env = env_last env
  else env_descriptors env ≠ 0 ∧ env_first env ≠ 0 ∧
       env_first env + (env_descriptors env - 1) < 2 ^ 64 ∧
       env_last env = env_first env + (env_descriptors env - 1).

Definition slots_of (b : bytes) (count : Z) : list bytes :=
  as_chunks DESCRIPTOR_BYTES (slice ENVELOPE_BYTES (DESCRIPTOR_BYTES * count) b).

Lemma Header_decode_iff `{Crc32} b image h :
  Header_decode b image = Ok h ↔
  blen b = BLOCK_SIZE ∧ slice 0 8 b = BATCH_MAGIC ∧ u16_at b 8 = 2 ∧
  tag_ok (u16_at b 10) = true ∧ u32_at b 56 = checksum b 56 ∧
  u32_at b 32 = BLOCK_SIZE + u32_at b 36 ∧ u16_at b 14 = 0 ∧ u32_at b 60 = 0 ∧
  all_zero (drop (Z.to_nat (ENVELOPE_BYTES + DESCRIPTOR_BYTES * u16_at b 12)) b) = true ∧
  envelope_valid (envelope_of b) ∧
  (∃ serial, check_slots (envelope_of b) image 0 (slots_of b (u16_at b 12)) (0, 0)
             = Ok (u32_at b 36, serial)) ∧
  h = {| hdr_envelope := envelope_of b; hdr_bytes := b |}.
Proof.
  unfold Header_decode. fold (envelope_of b). rewrite !append_require_bind.
  change (env_descriptors (envelope_of b)) with (u16_at b 12).
  fold (slots_of b (u16_at b 12)).
  rewrite !andb_true_iff, !bool_decide_eq_true, !is_multiple_of_spec.
  assert (Hrest : ∀ c m k, ((if env_fence (envelope_of b) then require c m else k);;
     (st ← check_slots (envelope_of b) image 0 (slots_of b (u16_at b 12)) (0, 0);
      require (bool_decide (st.1 = env_payload_bytes (envelope_of b))) "payload coverage";;
      Ok {| hdr_envelope := envelope_of b; hdr_bytes := b |})) = Ok h ↔
     (if env_fence (envelope_of b) then require c m else k) = Ok tt ∧
     (∃ serial, check_slots (envelope_of b) image 0 (slots_of b (u16_at b 12)) (0, 0)
             = Ok (u32_at b 36, serial)) ∧
     h = {| hdr_envelope := envelope_of b; hdr_bytes := b |}).
  { intros c m k. destruct (if env_fence _ then _ else _) as [[]| |]; cbn [mbind result_mbind
      result_bind]; [|by split; [|intros [? _]]..].
    destruct (check_slots _ _ _ _ _) as [[p q]| |]; cbn [mbind result_mbind result_bind fst];
      [|by split; [|intros (_ & [? ?] & _)]..].
    rewrite append_require_bind, bool_decide_eq_true. split.
    - intros [-> [= <-]]. eauto.
    - intros (_ & [serial [= -> ->]] & ->). done. }
  rewrite Hrest. unfold envelope_valid. clear Hrest.
  destruct (env_fence (envelope_of b)); rewrite append_require_ok, !andb_true_iff,
    !bool_decide_eq_true, ?checked_add_Some.
  - cbn [envelope_of env_segment env_batch env_payload_bytes env_first env_last]. tauto.
  - cbn [envelope_of env_segment env_batch env_payload_bytes env_first env_last]. tauto.
Qed.

(** ** Sealed headers *)

Definition Envelope_ok (e : Envelope) : Prop :=
  fits 64 (env_segment e) ∧ fits 64 (env_batch e) ∧ fits 16 (env_descriptors e) ∧
  0 ≤ env_payload_bytes e ≤ MAX_REQUEST_BYTES ∧ fits 64 (env_first e) ∧ fits 64 (env_last e).

Lemma blen_Envelope_encode `{Crc32} e b : blen (Envelope_encode e b) = blen b.
Proof. unfold Envelope_encode, put64, put32, put16. by autorewrite with blen. Qed.

#[export] Hint Rewrite @blen_Envelope_encode : blen.

(** Encoding an envelope leaves everything from byte 64 on unchanged. *)
Lemma slice_Envelope_encode `{Crc32} e b off len :
  64 ≤ off → slice off len (Envelope_encode e b) = slice off len b.
Proof.
  intros Hoff. unfold Envelope_encode, put64, put32, put16. by rewrite !slice_splice_ne by blia.
Qed.

(** The fields of an encoded envelope, over a block whose first 64 bytes were
    zero. *)
Lemma Envelope_encode_fields `{Crc32} e b :
  blen b = 4096 → slice 0 64 b = zeros 64 → Envelope_ok e →
  let b' := Envelope_encode e b in
  slice 0 8 b' = BATCH_MAGIC ∧ u16_at b' 8 = 2 ∧ tag_ok (u16_at b' 10) = true ∧
  u32_at b' 56 = checksum b' 56 ∧ u32_at b' 32 = BLOCK_SIZE + u32_at b' 36 ∧
  u16_at b' 14 = 0 ∧ u32_at b' 60 = 0 ∧ envelope_of b' = e.
Proof.
  intros Hb Hz (H1 & H2 & H3 & H4 & H5 & H6). cbn zeta.
  assert (Hz' : ∀ o l, 0 ≤ o → 0 ≤ l → o + l ≤ 64 → slice o l b = zeros l).
  { intros o l ? ? ?. rewrite <- (slice_zeros o l 64), <- Hz, slice_slice by lia. done. }
  unfold envelope_of, Envelope_encode, put64, put32, put16, u64_at, u32_at, u16_at.
  rewrite checksum_splice by blia. read_field.
  unfold MAX_REQUEST_BYTES, BLOCK_SIZE in *.
  rewrite !Hz' by lia. rewrite !le_decode_zeros.
  rewrite !le_decode_encode by first
    [done | apply checksum_range | (unfold fits; cbn; lia) | (destruct (env_fence e); done)].
  repeat (split; [first [done | by destruct (env_fence e)]|]).
  destruct e as [? ? ? ? ? ? []]; done.
Qed.

Lemma envelope_slots `{Crc32} e b count :
  blen b = 4096 → 0 ≤ count ≤ 63 → slots_of (Envelope_encode e b) count = slots_of b count.
Proof.
  intros Hb Hc. unfold slots_of. f_equal. apply slice_Envelope_encode. done.
Qed.


Definition sample_segment : SegmentHeader := {|
  sh_store := replicate 16 1; sh_image := replicate 16 2; sh_epoch := 3; sh_number := 4;
  sh_capacity := 67108864; sh_image_bytes := 1048576; sh_preceding_sequence := 9 |}.

Definition sample_segment_bytes : bytes :=
  match @SegmentHeader_encode crc_ieee sample_segment with Ok b => b | _ => [] end.
