(* ===== verification/AppendPacking.v ===== *)
(** * Packing, sealing and reading back a WAL batch

    Theorems about [Builder], [Batch] and [Header] of
    [crates/cas/core/src/append/format.rs] (modelled in [AppendFormat]): every
    batch the packer can seal is accepted by the recovery decoder, which reads
    back exactly the descriptors that were admitted, in order, with consecutive
    sequence numbers and verified payload. *)
From S2P Require Import Prelude Bytes AppendFormat.

(** ** The packing invariant *)

Record Builder_inv `{Crc32} (image cap : Z) (s : Builder) (l : list (Descriptor * bytes))
    : Prop := {
  bi_image : bd_image_bytes s = image;
  bi_cap : 0 ≤ cap ≤ MAX_REQUEST_BYTES;
  bi_len : blen (bd_buffer s) = BLOCK_SIZE + cap;
  bi_count : bd_descriptors s = Z.of_nat (length l);
  bi_max : (length l ≤ 63)%nat;
  bi_slots : ∀ i d, l.*1 !! i = Some d →
    slice (64 + Z.of_nat i * 64) 64 (bd_buffer s) = Descriptor_encode d (zeros 64);
  bi_env : slice 0 64 (bd_buffer s) = zeros 64;
  bi_free : slice (64 + Z.of_nat (length l) * 64) (4032 - Z.of_nat (length l) * 64) (bd_buffer s)
            = zeros (4032 - Z.of_nat (length l) * 64);
  bi_chain : chain image l.*1 (bd_payload_bytes s) (bd_last_serial s);
  bi_ok : Forall Descriptor_ok l.*1;
  bi_payload : slice BLOCK_SIZE (bd_payload_bytes s) (bd_buffer s) = concat l.*2;
  bi_bound : 0 ≤ bd_payload_bytes s ≤ cap;
  bi_block : bd_payload_bytes s mod BLOCK_SIZE = 0;
  bi_data : Forall (λ p, d_kind p.1 = Write → crc_hash p.2 = d_payload_crc p.1 ∧
              0 ≤ d_payload_offset p.1 ∧ d_payload_offset p.1 + d_payload_length p.1 ≤ bd_payload_bytes s ∧
              slice (BLOCK_SIZE + d_payload_offset p.1) (d_payload_length p.1) (bd_buffer s)
              = p.2) l;
}.

Lemma Builder_new_inv `{Crc32} image cap s :
  0 ≤ cap → Builder_new image cap = Ok s → Builder_inv image cap s [].
Proof.
  intros Hcap. unfold Builder_new. rewrite !append_require_bind.
  rewrite !andb_true_iff, !bool_decide_eq_true, !is_multiple_of_spec.
  intros ([H1 H2] & [H3 H4] & [= <-]).
  split; cbn [bd_image_bytes bd_buffer bd_descriptors bd_payload_bytes bd_last_serial length
    fmap list_fmap]; unfold BLOCK_SIZE in *; try done; try lia; try constructor;
    try (apply slice_zeros; lia).
  by rewrite blen_zeros by lia.
Qed.

(** Appending a descriptor whose payload, if any, is already in place. *)
Lemma Builder_push_inv `{Crc32} image cap s l d data :
  Builder_inv image cap s l → (length l < 63)%nat → Descriptor_ok d →
  extends image (bd_payload_bytes s) (bd_last_serial s) d →
  d_payload_length d mod BLOCK_SIZE = 0 →
  bd_payload_bytes s + d_payload_length d ≤ cap →
  slice (BLOCK_SIZE + bd_payload_bytes s) (d_payload_length d) (bd_buffer s) = data →
  (d_kind d = Write → crc_hash data = d_payload_crc d) →
  let p := Builder_push s d in
  Builder_inv image cap
    {| bd_buffer := bd_buffer p; bd_image_bytes := bd_image_bytes p;
       bd_descriptors := bd_descriptors p;
       bd_payload_bytes := bd_payload_bytes p + d_payload_length d;
       bd_last_serial := bd_last_serial p |} (l ++ [(d, data)]).
Proof.
  intros Hi Hmax Hok He Hm Hb Hd Hcrc. destruct Hi.
  assert (Hpl : 0 ≤ d_payload_length d) by apply Hok.
  unfold Builder_push; cbn zeta;
    cbn [bd_image_bytes bd_buffer bd_descriptors bd_payload_bytes bd_last_serial].
  rewrite bi_count0. unfold ENVELOPE_BYTES, DESCRIPTOR_BYTES, BLOCK_SIZE, MAX_REQUEST_BYTES in *.
  set (n := length l) in *.
  assert (Hslot : slice (64 + Z.of_nat n * 64) 64 (bd_buffer s) = zeros 64).
  { rewrite <- (slice_zeros 0 64 (4032 - Z.of_nat n * 64)), <- bi_free0 by lia.
    rewrite slice_slice by lia. f_equal. lia. }
  rewrite Hslot. set (new := Descriptor_encode d (zeros 64)).
  assert (Hnew : blen new = 64) by (unfold new; blia).
  split; cbn [bd_image_bytes bd_buffer bd_descriptors bd_payload_bytes bd_last_serial];
    rewrite ?fmap_app, ?length_app; cbn [fmap list_fmap length fst snd]; fold n;
    unfold BLOCK_SIZE, MAX_REQUEST_BYTES; try done; try lia.
  - by rewrite blen_splice.
  - intros i d' Hl. apply lookup_app_Some in Hl as [Hl|[Hl1 Hl2]].
    + pose proof (lookup_lt_Some _ _ _ Hl) as Hlt. rewrite length_fmap in Hlt. fold n in Hlt.
      rewrite slice_splice_ne by lia. by apply bi_slots0.
    + rewrite length_fmap in Hl1, Hl2. fold n in Hl1, Hl2.
      apply list_lookup_singleton_Some in Hl2 as [Hi <-].
      replace i with n by lia. fold new. apply slice_splice_eq; lia.
  - rewrite slice_splice_ne by lia. done.
  - rewrite slice_splice_ne by lia.
    rewrite <- (slice_zeros 64 (4032 - Z.of_nat (n + 1) * 64) (4032 - Z.of_nat n * 64)) by lia.
    rewrite <- bi_free0, slice_slice by lia. f_equal; lia.
  - by eapply chain_snoc.
  - apply Forall_app. split; [done|]. by constructor.
  - rewrite slice_splice_ne, concat_app by lia. cbn. rewrite app_nil_r, <- bi_payload0, <- Hd.
    rewrite (slice_split 4096 _ (bd_payload_bytes s)) by lia. do 2 f_equal. lia.
  - rewrite Z.add_mod, bi_block0, Hm by lia. done.
  - apply Forall_app. split.
    + eapply Forall_impl; [exact bi_data0|]. intros [d' data'] Hd' Hk. cbn in *.
      destruct (Hd' Hk) as (? & ? & ? & Hs). split; [done|]. split; [done|]. split; [lia|].
      rewrite slice_splice_ne by lia. done.
    + constructor; [|constructor]. cbn. intros Hk. split; [by apply Hcrc|].
      destruct He as (_ & _ & _ & He). rewrite Hk in He. destruct He as [_ ->].
      split; [lia|]. split; [lia|]. rewrite slice_splice_ne by lia. done.
Qed.

(** A refused or failed [write] keeps the packed prefix. *)
Lemma Builder_set_buffer_inv `{Crc32} image cap s l data :
  Builder_inv image cap s l →
  bd_payload_bytes s + blen data ≤ cap →
  Builder_inv image cap
    (Builder_set_buffer s (splice (BLOCK_SIZE + bd_payload_bytes s) data (bd_buffer s))) l.
Proof.
  intros Hi Hb. destruct Hi. unfold Builder_set_buffer.
  split; cbn [bd_image_bytes bd_buffer bd_descriptors bd_payload_bytes bd_last_serial];
    unfold BLOCK_SIZE, MAX_REQUEST_BYTES in *; try done; try lia.
  - by rewrite blen_splice.
  - intros i d Hl. pose proof (lookup_lt_Some _ _ _ Hl) as Hlt. rewrite length_fmap in Hlt.
    rewrite slice_splice_ne by lia. by apply bi_slots0.
  - by rewrite slice_splice_ne by lia.
  - by rewrite slice_splice_ne by lia.
  - by rewrite slice_splice_ne by lia.
  - eapply Forall_impl; [exact bi_data0|]. intros [d' data'] Hd' Hk. cbn in *.
    destruct (Hd' Hk) as (? & ? & ? & Hs). rewrite slice_splice_ne by lia. done.
Qed.

(** A gather callback overwrites the destination slice with bytes. *)
Definition gather_ok (gather : bytes → bytes * result unit) : Prop :=
  ∀ dst, blen (gather dst).1 = blen dst.

Lemma Builder_admit_ok s id offset len payload u :
  Builder_admit s id offset len payload = Ok u →
  bd_descriptors s < MAX_DESCRIPTORS ∧ bd_last_serial s < id_serial id ∧ id_attachment id ≠ 0 ∧
  valid_range offset len (bd_image_bytes s) = true ∧
  payload ≤ blen (bd_buffer s) - BLOCK_SIZE - bd_payload_bytes s.
Proof.
  unfold Builder_admit, Builder_allocation_bytes. rewrite !append_require_bind, append_require_ok.
  rewrite andb_true_iff, !bool_decide_eq_true. tauto.
Qed.


Definition write_descriptor `{Crc32} (id : RequestId) (offset len start : Z) (data : bytes)
    : Descriptor :=
  {| d_id := id; d_sequence := 0; d_offset := offset; d_length := len;
     d_payload_offset := start; d_payload_length := len;
     d_payload_crc := crc_hash data; d_kind := Write |}.

Definition zero_descriptor (id : RequestId) (offset len : Z) : Descriptor :=
  {| d_id := id; d_sequence := 0; d_offset := offset; d_length := len;
     d_payload_offset := 0; d_payload_length := 0; d_payload_crc := 0; d_kind := Zero |}.

Lemma Builder_write_inv `{Crc32} image cap s l id offset len gather s' :
  Builder_inv image cap s l → RequestId_ok id → fits 64 offset → fits 64 len →
  gather_ok gather → Builder_write s id offset len gather = (s', Ok tt) →
  let data := (gather (slice (BLOCK_SIZE + bd_payload_bytes s) len (bd_buffer s))).1 in
  Builder_inv image cap s'
    (l ++ [(write_descriptor id offset len (bd_payload_bytes s) data, data)]).
Proof.
  intros IH Hid Hoff Hlen Hg Hw data. unfold Builder_write in Hw.
  destruct (Builder_admit s id offset len len) eqn:Ha; [|done|done].
  apply Builder_admit_ok in Ha as (A1 & A2 & A3 & A4 & A5).
  unfold fits in Hlen. pose proof (bi_len _ _ _ _ IH) as Bl.
  pose proof (bi_bound _ _ _ _ IH) as Bb. pose proof (bi_count _ _ _ _ IH) as Bc.
  pose proof (bi_cap _ _ _ _ IH) as Bcap. pose proof (bi_image _ _ _ _ IH) as Bi.
  assert (Hdata : blen data = len).
  { unfold data. rewrite Hg, blen_slice by (unfold BLOCK_SIZE in *; lia). done. }
  fold data in Hw. destruct (gather _) as [dst gres] eqn:Eg. subst data. cbn [fst] in *.
  destruct gres as [[]| |]; [|done|done]. injection Hw as <-.
  apply valid_range_spec in A4 as A4'.
  eapply (Builder_push_inv image cap (Builder_set_buffer s _) l); cbn [Builder_set_buffer
    bd_image_bytes bd_buffer bd_descriptors bd_payload_bytes bd_last_serial d_payload_length
    d_id d_kind d_payload_crc write_descriptor];
    [apply Builder_set_buffer_inv; [done|] | | | | | | |].
  all: unfold MAX_REQUEST_BYTES, MAX_DESCRIPTORS, BLOCK_SIZE in *; try lia; try done; try tauto.
  - destruct Hid as (? & ? & ? & ?). unfold Descriptor_ok, fits in *; cbn.
    assert (fits 32 (crc_hash dst)) by apply crc_range. unfold fits in *. lia.
  - unfold extends; cbn. rewrite Bi in A4. done.
  - apply slice_splice_eq; lia.
Qed.

Lemma Builder_write_failed_inv `{Crc32} image cap s l id offset len gather s' r :
  Builder_inv image cap s l → 0 ≤ len → gather_ok gather →
  Builder_write s id offset len gather = (s', r) → r ≠ Ok tt → Builder_inv image cap s' l.
Proof.
  intros IH Hlen Hg Hw Hr. unfold Builder_write in Hw.
  destruct (Builder_admit s id offset len len) eqn:Ha;
    [| by injection Hw as <- _ | by injection Hw as <- _].
  apply Builder_admit_ok in Ha as (A1 & A2 & A3 & A4 & A5).
  pose proof (Hg (slice (BLOCK_SIZE + bd_payload_bytes s) len (bd_buffer s))) as Hgl.
  pose proof (bi_len _ _ _ _ IH). pose proof (bi_bound _ _ _ _ IH).
  rewrite blen_slice in Hgl by (unfold BLOCK_SIZE in *; lia).
  destruct (gather _) as [dst gres] eqn:Eg. cbn [fst] in Hgl.
  destruct gres as [[]| |]; injection Hw as <- <-; [done| |];
    (apply Builder_set_buffer_inv; [done | unfold BLOCK_SIZE in *; lia]).
Qed.

Lemma Builder_zero_inv `{Crc32} image cap s l id offset len s' :
  Builder_inv image cap s l → RequestId_ok id → fits 64 offset → fits 64 len →
  Builder_zero s id offset len = (s', Ok tt) →
  Builder_inv image cap s' (l ++ [(zero_descriptor id offset len, [])]).
Proof.
  intros IH Hid Hoff Hlen Hw. unfold Builder_zero in Hw.
  destruct (Builder_admit s id offset len 0) eqn:Ha; [|done|done].
  injection Hw as <-. apply Builder_admit_ok in Ha as (A1 & A2 & A3 & A4 & A5).
  pose proof (bi_count _ _ _ _ IH) as Bc. pose proof (bi_bound _ _ _ _ IH) as Bb.
  pose proof (bi_image _ _ _ _ IH) as Bi.
  pose proof (Builder_push_inv image cap s l (zero_descriptor id offset len) [] IH) as Hp.
  cbn [d_payload_length d_kind d_id d_payload_crc zero_descriptor] in Hp.
  match goal with |- Builder_inv _ _ ?b _ =>
    replace b with {| bd_buffer := bd_buffer b; bd_image_bytes := bd_image_bytes b;
      bd_descriptors := bd_descriptors b; bd_payload_bytes := bd_payload_bytes b + 0;
      bd_last_serial := bd_last_serial b |} by (unfold Builder_push; cbn; f_equal; lia) end.
  apply Hp; [unfold MAX_DESCRIPTORS in *; lia | | | done | lia | done | done].
  - destruct Hid as (? & ? & ? & ?). unfold Descriptor_ok, fits in *; cbn. lia.
  - unfold extends; cbn. rewrite <- Bi. done.
Qed.

(** ** Executions of a builder *)

(** [packed_by image cap s l]: some sequence of calls to [write] and [zero] on
    [Builder::new(image, cap)] leads to [s], and [l] lists the descriptors of
    the accepted calls with the payload each one gathered. *)
Inductive packed_by `{Crc32} (image cap : Z) : Builder → list (Descriptor * bytes) → Prop :=
  | packed_new s : Builder_new image cap = Ok s → packed_by image cap s []
  | packed_write s l id offset length gather s' :
      packed_by image cap s l → RequestId_ok id → fits 64 offset → fits 64 length →
      gather_ok gather → Builder_write s id offset length gather = (s', Ok tt) →
      let data := (gather (slice (BLOCK_SIZE + bd_payload_bytes s) length (bd_buffer s))).1 in
      packed_by image cap s'
        (l ++ [(write_descriptor id offset length (bd_payload_bytes s) data, data)])
  | packed_write_failed s l id offset length gather s' r :
      packed_by image cap s l → 0 ≤ length → gather_ok gather →
      Builder_write s id offset length gather = (s', r) → r ≠ Ok tt → packed_by image cap s' l
  | packed_zero s l id offset length s' :
      packed_by image cap s l → RequestId_ok id → fits 64 offset → fits 64 length →
      Builder_zero s id offset length = (s', Ok tt) →
      packed_by image cap s'
        (l ++ [(zero_descriptor id offset length, [])])
  | packed_zero_failed s l id offset length s' r :
      packed_by image cap s l → Builder_zero s id offset length = (s', r) → r ≠ Ok tt →
      packed_by image cap s' l.

Lemma packed_by_inv `{Crc32} image cap s l :
  0 ≤ cap → packed_by image cap s l → Builder_inv image cap s l.
Proof.
  intros Hcap. induction 1; eauto using Builder_new_inv, Builder_write_inv,
    Builder_write_failed_inv, Builder_zero_inv.
  unfold Builder_zero in *.
  destruct (Builder_admit s id offset length 0) as [[]| |]; simplify_eq; done.
Qed.

(** ** Sealing *)

Lemma blen_assign_sequences count index first b :
  blen (assign_sequences count index first b) = blen b.
Proof.
  revert index b. induction count as [|c IH]; intros index b; cbn; [done|].
  rewrite IH. apply blen_splice.
Qed.

#[export] Hint Rewrite blen_assign_sequences : blen.

Lemma assign_sequences_out count index first b off len :
  0 ≤ index → 0 ≤ off → 0 ≤ len →
  off + len ≤ 64 ∨ 64 + (index + Z.of_nat count) * 64 ≤ off →
  slice off len (assign_sequences count index first b) = slice off len b.
Proof.
  revert index b. induction count as [|c IH]; intros index b H1 H2 H3 H4;
    cbn [assign_sequences]; [done|].
  rewrite IH by lia. unfold put64, ENVELOPE_BYTES, DESCRIPTOR_BYTES.
  apply slice_splice_ne; [lia | lia |]. rewrite blen_le_encode. lia.
Qed.

Lemma assign_sequences_slot count index first b j :
  0 ≤ index → 64 + (index + Z.of_nat count) * 64 ≤ blen b →
  index ≤ Z.of_nat j < index + Z.of_nat count →
  slice (64 + Z.of_nat j * 64) 64 (assign_sequences count index first b)
  = put64 (slice (64 + Z.of_nat j * 64) 64 b) 8 (first + Z.of_nat j).
Proof.
  revert index b. induction count as [|c IH]; intros index b H1 H2 H3; [lia|].
  cbn [assign_sequences]. destruct (decide (index = Z.of_nat j)) as [->|Hne].
  - assert (Hout : ∀ k i0 b0, Z.of_nat j < i0 → slice (64 + Z.of_nat j * 64) 64
      (assign_sequences k i0 first b0) = slice (64 + Z.of_nat j * 64) 64 b0).
    { induction k as [|k IHk]; intros i0 b0 Hi; cbn [assign_sequences]; [done|].
      rewrite IHk by lia. unfold put64, ENVELOPE_BYTES, DESCRIPTOR_BYTES.
      apply slice_splice_ne; [lia | lia |]. rewrite blen_le_encode. lia. }
    rewrite Hout by lia. unfold put64, ENVELOPE_BYTES, DESCRIPTOR_BYTES.
    apply slice_splice_in; rewrite ?blen_le_encode; lia.
  - rewrite IH; [|lia| |lia].
    + f_equal. unfold put64, ENVELOPE_BYTES, DESCRIPTOR_BYTES.
      apply slice_splice_ne; [lia | lia |]. rewrite blen_le_encode. lia.
    + unfold put64. rewrite blen_splice. lia.
Qed.

(** The slots of a block, one by one. *)
Lemma slots_of_eq b ds :
  64 + 64 * Z.of_nat (length ds) ≤ blen b →
  (∀ i d, ds !! i = Some d → slice (64 + Z.of_nat i * 64) 64 b = Descriptor_encode d (zeros 64)) →
  slots_of b (Z.of_nat (length ds)) = (λ d, Descriptor_encode d (zeros 64)) <$> ds.
Proof.
  intros Hb Hs. unfold slots_of, DESCRIPTOR_BYTES, ENVELOPE_BYTES. apply list_eq. intros i.
  rewrite list_lookup_fmap. destruct (ds !! i) as [d|] eqn:Hd; cbn.
  - pose proof (lookup_lt_Some _ _ _ Hd). rewrite as_chunks_lookup by lia.
    f_equal. by apply Hs.
  - apply lookup_ge_None_1 in Hd. apply lookup_ge_None_2. by rewrite length_as_chunks by lia.
Qed.

Lemma number_length first ds : length (number first ds) = length ds.
Proof. unfold number. apply length_imap. Qed.

Lemma number_lookup first ds i d :
  number first ds !! i = Some d →
  ∃ d0, ds !! i = Some d0 ∧ d = set_sequence d0 (first + Z.of_nat i).
Proof. unfold number. intros (d0 & ? & ?)%list_lookup_imap_Some. eauto. Qed.

Lemma number_ok first ds :
  Forall Descriptor_ok ds → 0 ≤ first → first + Z.of_nat (length ds) ≤ 2 ^ 64 →
  Forall Descriptor_ok (number first ds).
Proof.
  intros Hok H1 H2. apply Forall_lookup_2. intros i d (d0 & Hd & ->)%number_lookup.
  pose proof (lookup_lt_Some _ _ _ Hd). eapply Forall_lookup_1 in Hok; [|exact Hd].
  unfold Descriptor_ok, fits in *; cbn [set_sequence d_id d_sequence d_offset d_length
    d_payload_offset d_payload_length d_payload_crc]. lia.
Qed.

(** The sealed buffer, block by block. *)
Record sealed `{Crc32} (s : Builder) (l : list (Descriptor * bytes)) (first : Z) (t : Batch)
    : Prop := {
  se_len : blen (bt_buffer t) = blen (bd_buffer s);
  se_header : slice 0 BLOCK_SIZE (bt_buffer t) =
    Envelope_encode (bt_envelope t)
      (slice 0 BLOCK_SIZE (assign_sequences (length l) 0 first (bd_buffer s)));
  se_payload : ∀ off len, BLOCK_SIZE ≤ off → 0 ≤ len →
    slice off len (bt_buffer t) = slice off len (bd_buffer s);
}.

Lemma Builder_seal_sealed `{Crc32} image cap s l segment batch first t :
  Builder_inv image cap s l → fits 64 first → Builder_seal s segment batch first = Ok t →
  bt_envelope t = {| env_segment := segment; env_batch := batch;
    env_descriptors := Z.of_nat (length l); env_payload_bytes := bd_payload_bytes s;
    env_first := first; env_last := first + (Z.of_nat (length l) - 1); env_fence := false |} ∧
  l ≠ [] ∧ first ≠ 0 ∧ segment ≠ 0 ∧ batch ≠ 0 ∧
  first + (Z.of_nat (length l) - 1) < 2 ^ 64 ∧ sealed s l first t.
Proof.
  intros Hi Hf. unfold Builder_seal. rewrite append_require_bind.
  rewrite (bi_count _ _ _ _ Hi), Nat2Z.id.
  rewrite !andb_true_iff, !bool_decide_eq_true. intros ((((H1 & H2) & H3) & H4) & Hs).
  destruct (checked_add 64 first _) as [e|] eqn:Ee; cbn [ok_or mbind result_mbind result_bind] in Hs;
    [|done].
  apply checked_add_Some in Ee as [-> Ee]. injection Hs as <-. cbn [bt_envelope].
  pose proof (bi_len _ _ _ _ Hi) as Hl. pose proof (bi_cap _ _ _ _ Hi).
  pose proof (bi_max _ _ _ _ Hi). unfold BLOCK_SIZE in *.
  repeat (split; [first [done | by destruct l | lia]|]).
  split; cbn [bt_buffer bt_envelope]; unfold BLOCK_SIZE in *.
  - by rewrite blen_splice, blen_assign_sequences.
  - apply slice_splice_eq; [lia| |]; blia.
  - intros off len Ho Hle. rewrite slice_splice_ne by blia.
    apply assign_sequences_out; lia.
Qed.

(** The slots and the unused bytes of a sealed header. *)
Lemma sealed_slots `{Crc32} image cap s l first t :
  Builder_inv image cap s l → sealed s l first t →
  slots_of (slice 0 BLOCK_SIZE (bt_buffer t)) (Z.of_nat (length l)) =
    (λ d, Descriptor_encode d (zeros 64)) <$> number first l.*1 ∧
  all_zero (drop (Z.to_nat (ENVELOPE_BYTES + DESCRIPTOR_BYTES * Z.of_nat (length l)))
    (slice 0 BLOCK_SIZE (bt_buffer t))) = true ∧
  slice 0 64 (slice 0 BLOCK_SIZE (assign_sequences (length l) 0 first (bd_buffer s))) = zeros 64.
Proof.
  intros Hi Hs. pose proof (bi_len _ _ _ _ Hi) as Hl. pose proof (bi_cap _ _ _ _ Hi) as Hcap.
  pose proof (bi_max _ _ _ _ Hi) as Hmax. rewrite (se_header _ _ _ _ Hs).
  set (hb := slice 0 BLOCK_SIZE (assign_sequences (length l) 0 first (bd_buffer s))).
  unfold BLOCK_SIZE in *.
  assert (Hhb : blen hb = 4096) by (unfold hb; blia).
  split_and!.
  - replace (length l) with (length (number first l.*1)) by (by rewrite number_length, length_fmap).
    apply slots_of_eq.
    { rewrite number_length, length_fmap. blia. }
    intros i d (d0 & Hd & ->)%number_lookup. pose proof (lookup_lt_Some _ _ _ Hd) as Hlt.
    rewrite length_fmap in Hlt. rewrite slice_Envelope_encode by lia.
    unfold hb. rewrite slice_slice by lia. rewrite Z.add_0_l.
    rewrite assign_sequences_slot by lia. rewrite (bi_slots _ _ _ _ Hi i d0 Hd).
    by rewrite Descriptor_encode_sequence.
  - unfold ENVELOPE_BYTES, DESCRIPTOR_BYTES. rewrite (drop_slice _ _ 4096) by blia.
    rewrite slice_Envelope_encode by lia. unfold hb. rewrite slice_slice, Z.add_0_l by lia.
    rewrite assign_sequences_out by lia.
    replace (64 + 64 * Z.of_nat (length l)) with (64 + Z.of_nat (length l) * 64) by lia.
    replace (4096 - (64 + Z.of_nat (length l) * 64)) with (4032 - Z.of_nat (length l) * 64) by lia.
    rewrite (bi_free _ _ _ _ Hi). apply all_zero_zeros.
  - unfold hb. rewrite slice_slice, Z.add_0_l by lia. rewrite assign_sequences_out by lia.
    apply (bi_env _ _ _ _ Hi).
Qed.

Lemma Header_descriptors_slots h :
  Header_descriptors h = Descriptor_decode <$> slots_of (hdr_bytes h) (env_descriptors (hdr_envelope h)).
Proof. unfold Header_descriptors, slots_of. do 3 f_equal. lia. Qed.

Lemma decode_encoded_slots ds :
  Forall Descriptor_ok ds →
  Descriptor_decode <$> ((λ d, Descriptor_encode d (zeros 64)) <$> ds) = ds.
Proof.
  induction 1 as [|d ds Hd Hds IH]; [done|]. cbn.
  rewrite IH, Descriptor_decode_encode; done.
Qed.

Lemma verify_descriptors_ok `{Crc32} ds payload :
  (∀ d, d ∈ ds → d_kind d = Write →
     crc_hash (slice (d_payload_offset d) (d_payload_length d) payload) = d_payload_crc d) →
  verify_descriptors ds payload = Ok tt.
Proof.
  induction ds as [|d ds IH]; intros Hd; cbn; [done|].
  destruct (d_kind d) eqn:Hk.
  - rewrite Hd; [|left|done]. rewrite bool_decide_eq_true_2 by done. cbn.
    apply IH. intros d' Hd'. apply Hd. by right.
  - cbn. apply IH. intros d' Hd'. apply Hd. by right.
Qed.

Lemma sealed_decodes `{Crc32} image cap s l segment batch first t :
  Builder_inv image cap s l → fits 64 segment → fits 64 batch → fits 64 first →
  Builder_seal s segment batch first = Ok t →
  Header_decode (slice 0 BLOCK_SIZE (bt_buffer t)) image =
    Ok {| hdr_envelope := bt_envelope t; hdr_bytes := slice 0 BLOCK_SIZE (bt_buffer t) |} ∧
  slots_of (slice 0 BLOCK_SIZE (bt_buffer t)) (env_descriptors (bt_envelope t)) =
    (λ d, Descriptor_encode d (zeros 64)) <$> number first l.*1 ∧
  Forall Descriptor_ok (number first l.*1) ∧
  env_payload_bytes (bt_envelope t) = bd_payload_bytes s ∧ sealed s l first t.
Proof.
  intros Hi Hseg Hbat Hf Hseal.
  destruct (Builder_seal_sealed _ _ _ _ _ _ _ _ Hi Hf Hseal)
    as (Henv & Hne & Hf0 & Hs0 & Hb0 & Hlast & Hs).
  destruct (sealed_slots _ _ _ _ _ _ Hi Hs) as (Hslots & Hfree & Hz).
  pose proof (bi_len _ _ _ _ Hi) as Hl. pose proof (bi_cap _ _ _ _ Hi) as Hcap.
  pose proof (bi_max _ _ _ _ Hi) as Hmax. pose proof (bi_bound _ _ _ _ Hi) as Hbnd.
  assert (Hlen : (length l ≠ 0)%nat) by (by destruct l).
  assert (Hok : Forall Descriptor_ok (number first l.*1)).
  { apply number_ok; [apply (bi_ok _ _ _ _ Hi) | apply Hf | rewrite length_fmap; lia]. }
  destruct (Envelope_encode_fields (bt_envelope t)
    (slice 0 BLOCK_SIZE (assign_sequences (length l) 0 first (bd_buffer s))))
    as (F1 & F2 & F3 & F4 & F5 & F6 & F7 & F8).
  { unfold BLOCK_SIZE in *. blia. }
  { done. }
  { rewrite Henv. unfold Envelope_ok, fits in *; cbn. unfold MAX_REQUEST_BYTES in *. lia. }
  rewrite <- (se_header _ _ _ _ Hs) in *. set (hb := slice 0 BLOCK_SIZE (bt_buffer t)) in *.
  assert (E1 : u16_at hb 12 = Z.of_nat (length l)).
  { change (u16_at hb 12) with (env_descriptors (envelope_of hb)). by rewrite F8, Henv. }
  assert (E2 : u32_at hb 36 = bd_payload_bytes s).
  { change (u32_at hb 36) with (env_payload_bytes (envelope_of hb)). by rewrite F8, Henv. }
  split_and!; [| by rewrite Henv | done | by rewrite Henv | done].
  apply Header_decode_iff. rewrite E1, E2, F8 in *. split_and!; try done.
  - unfold hb. rewrite blen_slice; [done | done | done |].
    rewrite (se_len _ _ _ _ Hs). unfold BLOCK_SIZE in *. lia.
  - rewrite Henv. unfold envelope_valid, MAX_DESCRIPTORS; cbn.
    pose proof (bi_block _ _ _ _ Hi). unfold MAX_REQUEST_BYTES in *. split_and!; try done; lia.
  - exists (bd_last_serial s). rewrite Hslots.
    replace first with (env_first (bt_envelope t)) by (by rewrite Henv).
    apply check_slots_chain; [| by rewrite Henv | apply (bi_chain _ _ _ _ Hi) | by rewrite Henv].
    eapply Forall_impl; [apply (bi_ok _ _ _ _ Hi)|]. intros d Hd. apply Hd.
Qed.

Lemma sealed_reads_back `{Crc32} (image cap segment batch first : Z) (s : Builder)
    (l : list (Descriptor * bytes)) (t : Batch) :
  0 ≤ cap → packed_by image cap s l →
  fits 64 segment → fits 64 batch → fits 64 first →
  Builder_seal s segment batch first = Ok t →
  let payload := slice BLOCK_SIZE (env_payload_bytes (bt_envelope t)) (Batch_bytes t) in
  ∃ h, Header_decode (slice 0 BLOCK_SIZE (Batch_bytes t)) image = Ok h ∧
    hdr_envelope h = bt_envelope t ∧
    Header_descriptors h = number first l.*1 ∧
    payload = concat l.*2 ∧
    Header_verify_payload h payload = Ok tt.
Proof.
  intros Hcap Hp Hseg Hbat Hf Hseal. apply packed_by_inv in Hp as Hi; [|done].
  destruct (sealed_decodes _ _ _ _ _ _ _ _ Hi Hseg Hbat Hf Hseal) as (Hd & Hsl & Hok & Hpb & Hs).
  pose proof (bi_bound _ _ _ _ Hi) as Hbnd. pose proof (bi_len _ _ _ _ Hi) as Hl.
  pose proof (se_len _ _ _ _ Hs) as Hl'. unfold Batch_bytes. rewrite Hpb.
  unfold BLOCK_SIZE in *. rewrite !slice_slice, !Z.add_0_l by lia.
  rewrite (se_payload _ _ _ _ Hs 4096 (bd_payload_bytes s)) by (unfold BLOCK_SIZE; lia).
  eexists. split; [exact Hd|]. split; [done|].
  assert (Hds : Header_descriptors {| hdr_envelope := bt_envelope t;
    hdr_bytes := slice 0 4096 (bt_buffer t) |} = number first l.*1).
  { rewrite Header_descriptors_slots; cbn [hdr_bytes hdr_envelope]. rewrite Hsl.
    by apply decode_encoded_slots. }
  split; [done|]. split; [apply (bi_payload _ _ _ _ Hi)|].
  unfold Header_verify_payload. cbn [hdr_envelope]. rewrite Hpb, blen_slice by lia.
  rewrite bool_decide_eq_true_2 by done. cbn [require mbind result_mbind result_bind].
  rewrite Hds. apply verify_descriptors_ok.
  intros d (i & (d0 & Hd0 & ->)%number_lookup)%list_elem_of_lookup_1 Hk.
  rewrite list_lookup_fmap in Hd0. destruct (l !! i) as [[d1 data]|] eqn:Hli; [|done].
  injection Hd0 as <-. pose proof (bi_data _ _ _ _ Hi) as Hdata.
  eapply Forall_lookup_1 in Hdata; [|exact Hli].
  destruct (Hdata Hk) as (H1 & H2 & H3 & H4). cbn in H1, H2, H3, H4 |- *.
  unfold BLOCK_SIZE in H4. rewrite slice_slice by lia. by rewrite H4.
Qed.

(** ** Properties *)

(** C18: every batch the packer seals is read back by recovery: for any sequence
    of [write] and [zero] calls, accepted or refused, [Builder::seal] produces
    a header that [Header::decode] accepts with the same envelope; its
    descriptors are the accepted calls in order, numbered consecutively from
    [first]; the payload area holds the gathered bytes in that order and
    passes [verify_payload]. *)
Theorem seal_then_decode `{Crc32} (image cap segment batch first : Z) (s : Builder)
    (l : list (Descriptor * bytes)) (t : Batch) :
  0 ≤ cap → packed_by image cap s l →
  fits 64 segment → fits 64 batch → fits 64 first →
  Builder_seal s segment batch first = Ok t →
  let payload := slice BLOCK_SIZE (env_payload_bytes (bt_envelope t)) (Batch_bytes t) in
  ∃ h, Header_decode (slice 0 BLOCK_SIZE (Batch_bytes t)) image = Ok h ∧
    hdr_envelope h = bt_envelope t ∧
    Header_descriptors h = number first l.*1 ∧
    payload = concat l.*2 ∧
    Header_verify_payload h payload = Ok tt.
Proof. apply sealed_reads_back. Qed.

(** ** A concrete batch *)

Definition sample_id (serial : Z) : RequestId :=
  {| id_serial := serial; id_attachment := 7; id_queue := 0; id_head := 3 |}.

Definition sample_builder0 : Builder :=
  unwrap_or {| bd_buffer := []; bd_image_bytes := 0; bd_descriptors := 0; bd_payload_bytes := 0;
               bd_last_serial := 0 |} (Builder_new 16384 4096).

Definition sample_builder1 : Builder :=
  (Builder_zero sample_builder0 (sample_id 1) 0 8192).1.

Definition sample_gather (dst : bytes) : bytes * result unit :=
  (replicate (length dst) 90, Ok tt).

Definition sample_builder2 : Builder :=
  (@Builder_write crc_ieee sample_builder1 (sample_id 2) 8192 4096 sample_gather).1.

Definition sample_batch : Batch :=
  unwrap_or {| bt_buffer := []; bt_envelope := envelope_of [] |}
    (@Builder_seal crc_ieee sample_builder2 5 1 41).

Lemma seal_then_decode_witness :
  ∃ h, @Header_decode crc_ieee (slice 0 BLOCK_SIZE (Batch_bytes sample_batch)) 16384 = Ok h ∧
    env_last (hdr_envelope h) = 42.
Proof.
  edestruct (@seal_then_decode crc_ieee 16384 4096 5 1 41 sample_builder2) as (h & H1 & H2 & _);
    [lia | | decide_now | decide_now | decide_now | |].
  - refine (@packed_write crc_ieee 16384 4096 sample_builder1 _ (sample_id 2) 8192 4096 sample_gather
      sample_builder2 (@packed_zero crc_ieee 16384 4096 sample_builder0 _ (sample_id 1) 0 8192
        sample_builder1 (@packed_new crc_ieee 16384 4096 sample_builder0 _) _ _ _ _) _ _ _ _ _);
      first [decide_now | apply is_ok_unwrap; reflexivity | idtac].
    + apply pair_snd. vm_compute. reflexivity.
    + intros dst. unfold blen. cbn. by rewrite length_replicate.
    + apply pair_snd. vm_compute. reflexivity.
  - apply is_ok_unwrap. vm_compute. reflexivity.
  - exists h. split; [exact H1|]. rewrite H2. vm_compute. reflexivity.
Defined.

(** ** What an accepted header guarantees *)

(** One accepted slot extends the chain built so far. *)
Lemma check_slot_sound env image index slot pe serial pe' serial' :
  check_slot env image index slot (pe, serial) = Ok (pe', serial') →
  let d := Descriptor_decode slot in
  d_sequence d = env_first env + index ∧ extends image pe serial d ∧
  pe' = pe + d_payload_length d ∧ serial' = id_serial (d_id d).
Proof.
  unfold check_slot. rewrite !append_require_bind, andb_true_iff, !bool_decide_eq_true.
  intros (_ & _ & H1 & [H2 H3] & H4 & Hk). cbn zeta. unfold extends.
  destruct (d_kind _).
  - rewrite !append_require_bind, andb_true_iff, !bool_decide_eq_true in Hk.
    destruct Hk as ([H5 H6] & _ & [= <- <-]). done.
  - rewrite append_require_bind, !andb_true_iff, !bool_decide_eq_true in Hk.
    destruct Hk as ([[H5 H6] H7] & [= <- <-]). split_and!; try done. rewrite H6. lia.
Qed.

Lemma check_slots_sound env image slots : ∀ index acc pe serial pe' serial',
  chain image acc pe serial →
  check_slots env image index slots (pe, serial) = Ok (pe', serial') →
  chain image (acc ++ (Descriptor_decode <$> slots)) pe' serial' ∧
  ∀ i slot, slots !! i = Some slot →
    d_sequence (Descriptor_decode slot) = env_first env + index + Z.of_nat i.
Proof.
  induction slots as [|slot slots IH]; intros index acc pe serial pe' serial' Hc Hs;
    cbn [check_slots] in Hs.
  - injection Hs as <- <-. cbn. rewrite app_nil_r. done.
  - apply result_bind_ok in Hs as [[pe1 serial1] [H1 H2]].
    apply check_slot_sound in H1 as (Hq & He & -> & ->).
    eapply IH in H2 as [H3 H4]; [|by eapply chain_snoc].
    rewrite <- app_assoc in H3. split; [done|].
    intros [|i] slot' Hl; cbn in Hl; [injection Hl as <-; lia|].
    rewrite (H4 _ _ Hl). lia.
Qed.

(** The payload bytes of the descriptors before position [i]. *)
Definition payload_before (ds : list Descriptor) (i : nat) : Z :=
  sumZ (d_payload_length <$> take i ds).

Lemma payload_before_app ds ds' i :
  (i ≤ length ds)%nat → payload_before (ds ++ ds') i = payload_before ds i.
Proof. intros. unfold payload_before. by rewrite take_app_le. Qed.

Lemma chain_total image ds pe serial :
  chain image ds pe serial → pe = payload_before ds (length ds).
Proof.
  induction 1 as [|ds d pe serial Hc IH _]; [done|].
  unfold payload_before in *. rewrite take_ge in * by done.
  rewrite fmap_app, sumZ_app, <- IH. cbn. lia.
Qed.

Lemma chain_facts image ds pe serial :
  chain image ds pe serial →
  (∀ d, d ∈ ds → id_serial (d_id d) ≤ serial) ∧
  (∀ i d, ds !! i = Some d → valid_range (d_offset d) (d_length d) image = true ∧
     match d_kind d with
     | Write => d_payload_length d = d_length d ∧ d_payload_offset d = payload_before ds i
     | Zero => d_payload_length d = 0
     end) ∧
  (∀ i j d e, (i < j)%nat → ds !! i = Some d → ds !! j = Some e →
     id_serial (d_id d) < id_serial (d_id e)).
Proof.
  induction 1 as [|ds d pe serial Hc (IH1 & IH2 & IH3) (E1 & E2 & E3 & E4)].
  { split_and!; intros *; rewrite ?elem_of_nil, ?lookup_nil; done. }
  split_and!.
  - intros e [He|He]%elem_of_app; [apply IH1 in He; lia|].
    apply list_elem_of_singleton in He as ->. done.
  - intros i e [Hl|[Hl1 Hl2]]%lookup_app_Some.
    + destruct (IH2 _ _ Hl) as [? ?]. split; [done|].
      by rewrite payload_before_app by (apply lookup_lt_Some in Hl; lia).
    + apply list_lookup_singleton_Some in Hl2 as [Hi <-]. split; [done|].
      rewrite payload_before_app by lia. replace i with (length ds) by lia.
      rewrite <- (chain_total _ _ _ _ Hc). destruct (d_kind d); [|tauto].
      destruct E4 as [-> ->]. done.
  - intros i j e f Hij [Hi|[Hi1 Hi2]]%lookup_app_Some [Hj|[Hj1 Hj2]]%lookup_app_Some.
    + eauto.
    + apply list_lookup_singleton_Some in Hj2 as [_ <-].
      apply list_elem_of_lookup_2, IH1 in Hi. lia.
    + apply lookup_lt_Some in Hj. lia.
    + apply list_lookup_singleton_Some in Hi2 as [? _], Hj2 as [? _]. lia.
Qed.

(** What the checks of [decode] establish about the whole batch. *)
Lemma Header_decode_facts `{Crc32} (b : bytes) (image : Z) (h : Header) :
  Header_decode b image = Ok h → bytes_ok b →
  let env := hdr_envelope h in
  let ds := Header_descriptors h in
  Z.of_nat (length ds) = env_descriptors env ∧ envelope_valid env ∧
  (∀ i d, ds !! i = Some d →
     d_sequence d = env_first env + Z.of_nat i ∧
     valid_range (d_offset d) (d_length d) image = true ∧
     match d_kind d with
     | Write => d_payload_length d = d_length d ∧ d_payload_offset d = payload_before ds i
     | Zero => d_payload_length d = 0
     end) ∧
  (∀ i j d e, (i < j)%nat → ds !! i = Some d → ds !! j = Some e →
     id_serial (d_id d) < id_serial (d_id e)) ∧
  payload_before ds (length ds) = env_payload_bytes env.
Proof.
  intros Hd Hb. apply Header_decode_iff in Hd
    as (Hl & _ & _ & _ & _ & _ & _ & _ & _ & Hv & [serial Hc] & ->).
  cbn zeta. rewrite Header_descriptors_slots. cbn [hdr_envelope hdr_bytes].
  change (env_descriptors (envelope_of b)) with (u16_at b 12).
  apply (check_slots_sound _ _ _ 0 []) in Hc as [Hc Hq]; [|constructor]. cbn [app] in Hc.
  destruct (chain_facts _ _ _ _ Hc) as (_ & F2 & F3). apply chain_total in Hc.
  destruct Hv as (V1 & V2 & V3 & V4) eqn:?. unfold MAX_DESCRIPTORS in V3.
  assert (H0 : 0 ≤ u16_at b 12 < 2 ^ 16).
  { pose proof (le_decode_range (slice 12 2 b) (bytes_ok_slice 12 2 b Hb)) as Hr.
    rewrite blen_slice in Hr by (unfold BLOCK_SIZE in *; lia). exact Hr. }
  cbn [envelope_of env_descriptors] in V3.
  split_and!; try done.
  - rewrite length_fmap. unfold slots_of, DESCRIPTOR_BYTES, ENVELOPE_BYTES.
    rewrite <- (Z2Nat.id (u16_at b 12)) at 1 by lia.
    rewrite length_as_chunks by (unfold BLOCK_SIZE in *; lia). lia.
  - intros i d Hi. split; [|by apply F2].
    rewrite list_lookup_fmap in Hi. destruct (_ !! i) as [slot|] eqn:Hs; [|done].
    injection Hi as <-. rewrite (Hq _ _ Hs). lia.
Qed.

(** What recovery may rely on once [Header::decode] has accepted a block:
    the envelope is consistent, mutation sequences are dense from [first] to
    [last], request serials strictly increase, every logical range is
    block-aligned and inside the image, and the WRITE payloads follow one
    another without gap or overlap and cover exactly the payload area. *)
Lemma decoded_batch_wellformed `{Crc32} (b : bytes) (image : Z) (h : Header) :
  Header_decode b image = Ok h → bytes_ok b →
  let env := hdr_envelope h in
  let ds := Header_descriptors h in
  Z.of_nat (length ds) = env_descriptors env ∧ envelope_valid env ∧
  (∀ i d, ds !! i = Some d →
     d_sequence d = env_first env + Z.of_nat i ∧
     valid_range (d_offset d) (d_length d) image = true ∧
     match d_kind d with
     | Write => d_payload_length d = d_length d ∧ d_payload_offset d = payload_before ds i
     | Zero => d_payload_length d = 0
     end) ∧
  (∀ i j d e, (i < j)%nat → ds !! i = Some d → ds !! j = Some e →
     id_serial (d_id d) < id_serial (d_id e)) ∧
  payload_before ds (length ds) = env_payload_bytes env.
Proof. exact (Header_decode_facts b image h). Qed.

Definition sample_header_bytes : bytes := slice 0 BLOCK_SIZE (Batch_bytes sample_batch).

(** ** Fences *)

Lemma Header_follows_spec h segment batch preceding offset last :
  Header_follows h segment batch preceding offset last = true ↔
  let env := hdr_envelope h in
  let after := offset + (BLOCK_SIZE + env_payload_bytes env) in
  env_segment env = sh_number segment ∧ env_batch env = batch ∧
  after < 2 ^ 64 ∧ after ≤ last ∧ after ≤ sh_capacity segment ∧
  (env_fence env = false → after + BLOCK_SIZE < 2 ^ 64 ∧ after + BLOCK_SIZE ≤ sh_capacity segment) ∧
  (if env_fence env then env_last env = preceding
   else env_first env = preceding + 1 ∧ preceding + 1 < 2 ^ 64).
Proof.
  unfold Header_follows. cbn zeta. rewrite !andb_true_iff, !bool_decide_eq_true.
  set (env := hdr_envelope h).
  destruct (checked_add 64 offset _) as [after|] eqn:Ea; cbn [is_some_and].
  - apply checked_add_Some in Ea as [-> Ea].
    rewrite !andb_true_iff, !bool_decide_eq_true, orb_true_iff.
    destruct (env_fence env); rewrite ?bool_decide_eq_true.
    + intuition congruence.
    + rewrite checked_add_Some.
      destruct (checked_add 64 _ BLOCK_SIZE) as [f|] eqn:Ef; cbn [is_some_and].
      * apply checked_add_Some in Ef as [-> Ef]. rewrite bool_decide_eq_true. intuition congruence.
      * apply checked_add_None in Ef. split; [intuition congruence|].
        intros (_ & _ & _ & _ & _ & Hx & _). destruct (Hx eq_refl). lia.
  - apply checked_add_None in Ea. split; [intuition congruence|]. intros (_ & _ & ? & _). lia.
Qed.

Lemma fence_decodes `{Crc32} (number batch boundary image : Z) (t : Batch) :
  fits 64 number → fits 64 batch → fits 64 boundary → Batch_fence number batch boundary = Ok t →
  bt_envelope t = {| env_segment := number; env_batch := batch; env_descriptors := 0;
    env_payload_bytes := 0; env_first := boundary; env_last := boundary; env_fence := true |} ∧
  number ≠ 0 ∧ batch ≠ 0 ∧ blen (Batch_bytes t) = BLOCK_SIZE ∧
  ∃ h, Header_decode (Batch_bytes t) image = Ok h ∧ hdr_envelope h = bt_envelope t ∧
    Header_descriptors h = [].
Proof.
  intros Hs Hb Hbo. unfold Batch_fence.
  rewrite append_require_bind, andb_true_iff, !bool_decide_eq_true. intros ([Hs0 Hb0] & [= <-]).
  set (env := {| env_segment := _ |}). split; [done|]. split; [done|]. split; [done|].
  destruct (Envelope_encode_fields env (zeros 4096)) as (F1 & F2 & F3 & F4 & F5 & F6 & F7 & F8).
  { by rewrite blen_zeros. } { by rewrite slice_zeros. }
  { unfold Envelope_ok, MAX_REQUEST_BYTES; cbn. unfold fits in *. lia. }
  unfold Batch_bytes; cbn [bt_envelope bt_buffer]. rewrite slice_all.
  2:{ rewrite blen_Envelope_encode. unfold BLOCK_SIZE. by rewrite blen_zeros. }
  change (zeros BLOCK_SIZE) with (zeros 4096). set (b := Envelope_encode env (zeros 4096)) in *.
  assert (Hb4 : blen b = 4096) by (unfold b; by rewrite blen_Envelope_encode, blen_zeros).
  split; [done|].
  assert (Hz : all_zero (slice 64 4032 b) = true).
  { unfold b. rewrite slice_Envelope_encode, slice_zeros by lia. apply all_zero_zeros. }
  clearbody b.
  assert (E1 : u16_at b 12 = 0).
  { change (u16_at b 12) with (env_descriptors (envelope_of b)). by rewrite F8. }
  assert (E2 : u32_at b 36 = 0).
  { change (u32_at b 36) with (env_payload_bytes (envelope_of b)). by rewrite F8. }
  exists {| hdr_envelope := envelope_of b; hdr_bytes := b |}.
  split; [apply Header_decode_iff; rewrite E1, E2 in *; split_and!; try assumption; try reflexivity|].
  - unfold ENVELOPE_BYTES, DESCRIPTOR_BYTES. by rewrite (drop_slice _ _ 4096).
  - rewrite F8. unfold envelope_valid, env, MAX_DESCRIPTORS, MAX_REQUEST_BYTES; cbn.
    split_and!; done || lia.
  - by exists 0.
  - cbn [hdr_envelope]. rewrite F8. split; [done|].
    rewrite Header_descriptors_slots. cbn [hdr_envelope hdr_bytes]. unfold env. reflexivity.
Qed.

(** A fence block decodes to the fence it was built from, carries no
    descriptor and no payload, and [follows] accepts it directly after a
    mutation prefix exactly equal to its boundary, at any offset where one
    block still fits in both the file and the segment. *)
Lemma fence_roundtrip `{Crc32} (segment : SegmentHeader) (batch boundary offset last image : Z)
    (t : Batch) :
  fits 64 (sh_number segment) → fits 64 batch → fits 64 boundary → 0 ≤ offset →
  offset + BLOCK_SIZE ≤ last → offset + BLOCK_SIZE ≤ sh_capacity segment →
  fits 64 (sh_capacity segment) →
  Batch_fence (sh_number segment) batch boundary = Ok t →
  ∃ h, Header_decode (Batch_bytes t) image = Ok h ∧ hdr_envelope h = bt_envelope t ∧
    Header_descriptors h = [] ∧
    ∀ preceding, Header_follows h segment batch preceding offset last = true
                 ↔ preceding = boundary.
Proof.
  intros Hs Hb Hbo Ho Hl Hc Hcf Ht.
  destruct (fence_decodes _ _ _ image _ Hs Hb Hbo Ht) as (E & Hs0 & Hb0 & _ & h & D1 & D2 & D3).
  exists h. split; [done|]. split; [done|]. split; [done|]. intros preceding.
  rewrite Header_follows_spec, D2, E; cbn. unfold fits, BLOCK_SIZE in *.
  split; [intros H'; symmetry; apply H'|]. intros ->. split_and!; try done; lia.
Qed.
