(* ===== verification/BTreeMap.v ===== *)
(** * Ordered maps

    The operations of [BTreeMap<u64, V>] that the code uses, on a list of
    entries in strictly increasing key order, with their lookup equations.
    Shared by the interval index of the staging log. *)
From S2P Require Import Prelude.

Section BTreeMap.
Context {V : Type}.
Implicit Types (m : list (Z * V)) (k : Z) (v : V).

Fixpoint bt_get (k : Z) (m : list (Z * V)) : option V :=
  match m with
  | [] => None
  | (k', v) :: m' => if decide (k = k') then Some v else bt_get k m'
  end.

Fixpoint bt_insert (k : Z) (v : V) (m : list (Z * V)) : list (Z * V) :=
  match m with
  | [] => [(k, v)]
  | (k', v') :: m' =>
      if decide (k < k') then (k, v) :: m
      else if decide (k = k') then (k, v) :: m'
      else (k', v') :: bt_insert k v m'
  end.

Fixpoint bt_remove (k : Z) (m : list (Z * V)) : list (Z * V) :=
  match m with
  | [] => []
  | (k', v') :: m' => if decide (k = k') then m' else (k', v') :: bt_remove k m'
  end.

(** [range(..bound).next_back()]: the entry with the greatest key below [bound]. *)
Fixpoint bt_last_below (bound : Z) (m : list (Z * V)) : option (Z * V) :=
  match m with
  | [] => None
  | (k, v) :: m' =>
      if decide (k < bound)
      then match bt_last_below bound m' with Some e => Some e | None => Some (k, v) end
      else None
  end.

(** [range(lo..hi).next()]: the entry with the least key in [lo, hi). *)
Fixpoint bt_first_in (lo hi : Z) (m : list (Z * V)) : option (Z * V) :=
  match m with
  | [] => None
  | (k, v) :: m' =>
      if decide (k < lo) then bt_first_in lo hi m'
      else if decide (k < hi) then Some (k, v) else None
  end.

(** [range(lo..hi)] as an iterator. *)
Definition bt_range (lo hi : Z) (m : list (Z * V)) : list (Z * V) :=
  filter (λ e, lo ≤ e.1 < hi) m.

(** Keys strictly increase. *)
Fixpoint bt_sorted (m : list (Z * V)) : Prop :=
  match m with
  | [] => True
  | (k, _) :: m' => (∀ k' v', (k', v') ∈ m' → k < k') ∧ bt_sorted m'
  end.

Lemma bt_get_elem m k v : bt_sorted m → (bt_get k m = Some v ↔ (k, v) ∈ m).
Proof.
  induction m as [|[k1 v1] m IH]; cbn; intros Hs.
  - by rewrite elem_of_nil.
  - destruct Hs as [Hh Hs]. rewrite elem_of_cons. destruct (decide (k = k1)) as [->|Hne].
    + split; [intros [= ->]; by left|]. intros [[= ->]|Hin]; [done|]. apply Hh in Hin. lia.
    + rewrite IH by done. split; [by right|]. by intros [[= ? ?]|?].
Qed.

Lemma bt_get_insert m k v j :
  bt_sorted m → bt_get j (bt_insert k v m) = if decide (j = k) then Some v else bt_get j m.
Proof.
  induction m as [|[k1 v1] m IH]; cbn; intros Hs; [done|]. destruct Hs as [Hh Hs].
  destruct (decide (k < k1)); [done|]. destruct (decide (k = k1)) as [->|Hne]; cbn.
  - destruct (decide (j = k1)); done.
  - rewrite IH by done. destruct (decide (j = k1)) as [->|]; [|done].
    by rewrite decide_False by congruence.
Qed.

Lemma bt_insert_elem m k v e :
  e ∈ bt_insert k v m → e = (k, v) ∨ e ∈ m.
Proof.
  induction m as [|[k1 v1] m IH]; cbn; [rewrite list_elem_of_singleton; tauto|].
  destruct (decide (k < k1)); [rewrite elem_of_cons; tauto|].
  destruct (decide (k = k1)); rewrite !elem_of_cons; intros [He|He]; try tauto.
Qed.

Lemma bt_insert_sorted m k v : bt_sorted m → bt_sorted (bt_insert k v m).
Proof.
  induction m as [|[k1 v1] m IH]; cbn; intros Hs.
  - split; [|done]. intros ? ? []%elem_of_nil.
  - destruct Hs as [Hh Hs]. destruct (decide (k < k1)); [|destruct (decide (k = k1)) as [->|]]; cbn.
    + split; [|by split]. intros k' v' [[= -> ->]|Hin]%elem_of_cons; [done|].
      apply Hh in Hin. lia.
    + done.
    + split; [|by apply IH]. intros k' v' [[= -> ->]|Hin]%bt_insert_elem; [lia | by eapply Hh].
Qed.

Lemma bt_remove_elem m k e : e ∈ bt_remove k m → e ∈ m.
Proof.
  induction m as [|[k1 v1] m IH]; cbn; [done|]. destruct (decide (k = k1)).
  - by right.
  - intros [->|?]%elem_of_cons; [left | right; auto].
Qed.

Lemma bt_remove_sorted m k : bt_sorted m → bt_sorted (bt_remove k m).
Proof.
  induction m as [|[k1 v1] m IH]; cbn; intros Hs; [done|]. destruct Hs as [Hh Hs].
  destruct (decide (k = k1)); [done|]. cbn. split; [|by apply IH].
  intros k' v' Hin%bt_remove_elem. by eapply Hh.
Qed.

Lemma bt_get_remove m k j :
  bt_sorted m → bt_get j (bt_remove k m) = if decide (j = k) then None else bt_get j m.
Proof.
  induction m as [|[k1 v1] m IH]; cbn; intros Hs; [by destruct (decide _)|].
  destruct Hs as [Hh Hs]. destruct (decide (k = k1)) as [<-|Hne]; cbn.
  - destruct (decide (j = k)) as [->|]; [|done].
    destruct (bt_get k m) eqn:E; [|done]. apply bt_get_elem in E; [|done]. apply Hh in E. lia.
  - rewrite IH by done. destruct (decide (j = k1)) as [->|]; [|done].
    by rewrite decide_False by congruence.
Qed.

Lemma bt_last_below_Some m bound k v :
  bt_sorted m → bt_last_below bound m = Some (k, v) →
  bt_get k m = Some v ∧ k < bound ∧
  ∀ k' v', bt_get k' m = Some v' → k' < bound → k' ≤ k.
Proof.
  intros Hs H. rewrite (bt_get_elem m k v Hs).
  assert (Hg : (k, v) ∈ m ∧ k < bound ∧ ∀ k' v', (k', v') ∈ m → k' < bound → k' ≤ k).
  { induction m as [|[k1 v1] m IH]; cbn in *; [done|]. destruct Hs as [Hh Hs].
    destruct (decide (k1 < bound)); [|done].
    destruct (bt_last_below bound m) as [[k2 v2]|] eqn:E.
    - injection H as -> ->. destruct (IH Hs eq_refl) as (I1 & I2 & I3).
      split; [by right|]. split; [done|]. intros k' v' [[= -> ->]|Hin]%elem_of_cons Hlt.
      + apply Hh in I1. lia.
      + by eapply I3.
    - injection H as -> ->. split; [left|]. split; [done|].
      intros k' v' [[= -> ->]|Hin]%elem_of_cons Hlt; [done|]. exfalso.
      clear -E Hin Hlt Hs. induction m as [|[k1 v1] m IH]; [by apply elem_of_nil in Hin|].
      cbn in *. destruct Hs as [Hh Hs]. apply elem_of_cons in Hin.
      destruct (decide (k1 < bound)); [by destruct (bt_last_below bound m)|].
      destruct Hin as [[= -> ->]|Hin]; [done|]. apply Hh in Hin. lia. }
  destruct Hg as (G1 & G2 & G3). split; [done|]. split; [done|].
  intros k' v' Hg. apply bt_get_elem in Hg; [|done]. by eapply G3.
Qed.

Lemma bt_last_below_None m bound :
  bt_sorted m → bt_last_below bound m = None → ∀ k v, bt_get k m = Some v → bound ≤ k.
Proof.
  intros Hs H k v Hg. apply bt_get_elem in Hg; [|done].
  destruct m as [|[k1 v1] m]; [by apply elem_of_nil in Hg|]. cbn in *. destruct Hs as [Hh Hs].
  destruct (decide (k1 < bound)); [by destruct (bt_last_below bound m)|].
  apply elem_of_cons in Hg as [[= -> ->]|Hin]; [lia|]. apply Hh in Hin. lia.
Qed.

Lemma bt_first_in_Some m lo hi k v :
  bt_sorted m → bt_first_in lo hi m = Some (k, v) → bt_get k m = Some v ∧ lo ≤ k < hi.
Proof.
  intros Hs H. rewrite (bt_get_elem m k v Hs).
  induction m as [|[k1 v1] m IH]; cbn in *; [done|]. destruct Hs as [Hh Hs].
  destruct (decide (k1 < lo)).
  - destruct (IH Hs H). split; [by right | done].
  - destruct (decide (k1 < hi)); [|done]. injection H as -> ->. split; [left | lia].
Qed.

Lemma bt_first_in_None m lo hi :
  bt_sorted m → bt_first_in lo hi m = None → ∀ k v, bt_get k m = Some v → k < lo ∨ hi ≤ k.
Proof.
  intros Hs H k v Hg. apply bt_get_elem in Hg; [|done].
  induction m as [|[k1 v1] m IH]; cbn in *; [by apply elem_of_nil in Hg|]. destruct Hs as [Hh Hs].
  apply elem_of_cons in Hg. destruct (decide (k1 < lo)).
  - destruct Hg as [[= -> ->]|Hin]; [by left | by apply IH].
  - destruct (decide (k1 < hi)); [done|]. destruct Hg as [[= -> ->]|Hin]; [lia|].
    apply Hh in Hin. lia.
Qed.

Lemma bt_insert_length m k v : (length (bt_insert k v m) ≤ S (length m))%nat.
Proof.
  induction m as [|[k1 v1] m IH]; cbn; [lia|].
  destruct (decide _); cbn; [lia|]. destruct (decide _); cbn; lia.
Qed.

Lemma bt_insert_length_present m k v :
  bt_sorted m → is_Some (bt_get k m) → length (bt_insert k v m) = length m.
Proof.
  induction m as [|[k1 v1] m IH]; cbn; intros Hs [w Hw]; [done|]. destruct Hs as [Hh Hs].
  destruct (decide (k = k1)) as [->|Hne].
  - by rewrite decide_False by lia.
  - apply bt_get_elem in Hw as Hin; [|done]. apply Hh in Hin.
    rewrite decide_False by lia. cbn. rewrite IH; eauto.
Qed.

Lemma bt_remove_length m k v :
  bt_get k m = Some v → S (length (bt_remove k m)) = length m.
Proof.
  induction m as [|[k1 v1] m IH]; cbn; [done|]. destruct (decide (k = k1)); [done|].
  intros Hg. cbn. by rewrite IH.
Qed.

Lemma bt_filter_sorted (P : Z * V → Prop) `{∀ e, Decision (P e)} m :
  bt_sorted m → bt_sorted (filter P m).
Proof.
  induction m as [|[k1 v1] m IH]; intros Hs; [done|]. destruct Hs as [Hh Hs].
  rewrite filter_cons. destruct (decide _); [|by apply IH]. cbn. split; [|by apply IH].
  intros k' v' [_ Hin]%list_elem_of_filter. by eapply Hh.
Qed.

End BTreeMap.
