(* ===== verification/IntervalIndex.v ===== *)
(** * The staging interval index

    Models [crates/cas/core/src/append/index.rs]: a map from disjoint logical
    byte intervals to the newest mutation covering them.  [Index_replace] is
    [Index::replace] with its predecessor split and its removal loop;
    [view] is the abstract specification, the newest mapping at every byte.
    The theorems show that [replace] updates exactly the bytes of its interval,
    keeps the intervals disjoint, never needs more than two extra entries, and
    that [overlapping] returns exactly the intersecting entries. *)
From S2P Require Import Prelude BTreeMap.

(** ** Data *)

(** [pl_segment] identifies the shared segment the payload pins. *)
Record Payload : Type := {
  pl_segment : Z;
  pl_offset : Z;
  pl_bytes : Z;
  pl_sequence : Z;
  pl_crc : Z;
  pl_batch_block : Z;
}.

Record Mapping : Type := {
  mp_end : Z;
  mp_sequence : Z;
  mp_source : option (Payload * Z);
}.

Definition shift (skip : Z) (source : option (Payload * Z)) : option (Payload * Z) :=
  (λ p, (p.1, p.2 + skip)) <$> source.

Arguments shift : simpl never.

Definition Mapping_suffix (m : Mapping) (skip : Z) : Mapping := {|
  mp_end := mp_end m;
  mp_sequence := mp_sequence m;
  mp_source := shift skip (mp_source m);
|}.

Definition set_end (m : Mapping) (e : Z) : Mapping := {|
  mp_end := e; mp_sequence := mp_sequence m; mp_source := mp_source m |}.

Record Index : Type := {
  ix_map : list (Z * Mapping);
  ix_limit : Z;
}.

Definition Index_len (ix : Index) : Z := Z.of_nat (length (ix_map ix)).

(** ** Operations *)

(** The first step of [replace]: the predecessor can straddle either or both
    boundaries. *)
Definition split_predecessor (start last : Z) (m : list (Z * Mapping)) : list (Z * Mapping) :=
  match bt_last_below start m with
  | Some (old_start, old) =>
      if decide (start < mp_end old) then
        let m := if decide (last < mp_end old)
                 then bt_insert last (Mapping_suffix old (last - old_start)) m else m in
        bt_insert old_start (set_end old start) m
      else m
  | None => m
  end.

(** One iteration of the removal loop. *)
Definition remove_one (last old_start : Z) (old : Mapping) (m : list (Z * Mapping))
    : list (Z * Mapping) :=
  let m := bt_remove old_start m in
  if decide (last < mp_end old)
  then bt_insert last (Mapping_suffix old (last - old_start)) m else m.

(** The loop; every iteration removes one key of [start, last), so the number
    of entries is enough fuel. *)
Fixpoint remove_covered (fuel : nat) (start last : Z) (m : list (Z * Mapping))
    : list (Z * Mapping) :=
  match fuel with
  | O => m
  | S fuel' =>
      match bt_first_in start last m with
      | Some (old_start, old) => remove_covered fuel' start last (remove_one last old_start old m)
      | None => m
      end
  end.

Definition Index_replace (ix : Index) (start : Z) (mapping : Mapping) : result Index :=
  if is_some_and (checked_add 64 (Index_len ix) 2) (λ count, bool_decide (count ≤ ix_limit ix))
  then
    let last := mp_end mapping in
    let m := split_predecessor start last (ix_map ix) in
    let m := remove_covered (length m) start last m in
    Ok {| ix_map := bt_insert start mapping m; ix_limit := ix_limit ix |}
  else Panic.

Definition Index_retain_after (ix : Index) (durable : Z) : Index := {|
  ix_map := filter (λ e, durable < mp_sequence e.2) (ix_map ix);
  ix_limit := ix_limit ix;
|}.

Definition Index_overlapping (ix : Index) (start last : Z) : list (Z * Mapping) :=
  let begin := match bt_last_below (start + 1) (ix_map ix) with
               | Some (key, _) => key
               | None => start
               end in
  filter (λ e, start < mp_end e.2) (bt_range begin last (ix_map ix)).

(** ** The abstract specification *)

(** What the index says about one byte: the sequence that wrote it, and where
    its payload byte is ([None] for zeroes). *)
Definition view (m : list (Z * Mapping)) (x : Z) : option (Z * option (Payload * Z)) :=
  match find_first (λ e, bool_decide (e.1 ≤ x < mp_end e.2)) m with
  | Some (k, mp) => Some (mp_sequence mp, shift (x - k) (mp_source mp))
  | None => None
  end.

(** Entries are sorted, nonempty and pairwise disjoint. *)
Record wf (m : list (Z * Mapping)) : Prop := {
  wf_sorted : bt_sorted m;
  wf_nonempty : ∀ k mp, bt_get k m = Some mp → k < mp_end mp;
  wf_disjoint : ∀ k1 m1 k2 m2, bt_get k1 m = Some m1 → bt_get k2 m = Some m2 → k1 < k2 →
    mp_end m1 ≤ k2;
}.

(** ** Lemmas *)

Lemma shift_shift a b s : shift a (shift b s) = shift (b + a) s.
Proof. destruct s as [[p o]|]; unfold shift; cbn; [|done]. do 2 f_equal. lia. Qed.

Lemma shift_0 s : shift 0 s = s.
Proof. destruct s as [[p o]|]; unfold shift; cbn; [|done]. do 2 f_equal. lia. Qed.

(** [view] in terms of lookups. *)
Lemma view_Some m x v :
  wf m →
  (view m x = Some v ↔ ∃ k mp, bt_get k m = Some mp ∧ k ≤ x < mp_end mp ∧
     v = (mp_sequence mp, shift (x - k) (mp_source mp))).
Proof.
  intros Hw. unfold view. destruct (find_first _ m) as [[k mp]|] eqn:E.
  - apply find_first_Some in E as [Hin Hc%bool_decide_eq_true_1]. cbn in Hc.
    apply bt_get_elem in Hin; [|apply Hw]. split.
    + intros [= <-]. eauto.
    + intros (k' & mp' & Hg & Hx & ->). destruct (decide (k = k')) as [->|Hne]; [congruence|].
      destruct (decide (k < k')).
      * pose proof (wf_disjoint m Hw k mp k' mp' Hin Hg ltac:(lia)). lia.
      * pose proof (wf_disjoint m Hw k' mp' k mp Hg Hin ltac:(lia)). lia.
  - split; [done|]. intros (k & mp & Hg & Hx & _). apply bt_get_elem in Hg; [|apply Hw].
    rewrite find_first_None in E. specialize (E _ Hg). by apply bool_decide_eq_false_1 in E.
Qed.

(** Equal views, pointwise. *)
Lemma view_eq m m' x :
  wf m → wf m' →
  (∀ v, (∃ k mp, bt_get k m = Some mp ∧ k ≤ x < mp_end mp ∧
           v = (mp_sequence mp, shift (x - k) (mp_source mp))) ↔
        (∃ k mp, bt_get k m' = Some mp ∧ k ≤ x < mp_end mp ∧
           v = (mp_sequence mp, shift (x - k) (mp_source mp)))) →
  view m x = view m' x.
Proof.
  intros H1 H2 Hv. apply option_eq. intros v. rewrite !view_Some by done. apply Hv.
Qed.

(** Cutting an entry [(k, old)] into the part before [start], if [k < start],
    and the part from [last], if [last < mp_end old]; both steps of [replace]
    are instances. *)
Definition cut (start last k : Z) (old : Mapping) (m m' : list (Z * Mapping)) : Prop :=
  ∀ j, bt_get j m' =
    if decide (j = k) then (if decide (k < start) then Some (set_end old start) else None)
    else if decide (j = last ∧ last < mp_end old)
    then Some (Mapping_suffix old (last - k)) else bt_get j m.

Lemma cut_wf start last k old m m' :
  wf m → bt_sorted m' → bt_get k m = Some old → k < last → start < last →
  cut start last k old m m' → (k < start → start < mp_end old) → wf m'.
Proof.
  intros Hw Hs Hk Hkl Hsl Hc Hst. pose proof (wf_nonempty m Hw) as Hn.
  pose proof (wf_disjoint m Hw) as Hd. split; [done| |].
  - intros j mp Hj. rewrite Hc in Hj. split_if; simplify_eq; cbn; try lia. by apply Hn in Hj.
  - intros k1 m1 k2 m2 H1 H2 Hlt. rewrite Hc in H1, H2. pose proof (Hn _ _ Hk).
    assert (Ho : ∀ j mj, j ≠ k → bt_get j m = Some mj →
      (j < k ∧ mp_end mj ≤ k) ∨ (mp_end old ≤ j)).
    { intros j mj Hj Hg. destruct (decide (j < k)); [left | right].
      - split; [done|]. by eapply Hd.
      - eapply Hd; [exact Hk | exact Hg | lia]. }
    split_if; simplify_eq; cbn; try lia;
      try match goal with N : k1 ≠ k, G : bt_get k1 m = Some _ |- _ =>
        destruct (Ho _ _ N G) as [[? ?]|?]; try lia end;
      try match goal with N : k2 ≠ k, G : bt_get k2 m = Some _ |- _ =>
        destruct (Ho _ _ N G) as [[? ?]|?]; try lia end;
      by eapply Hd.
Qed.

(** Outside [start, last) a cut does not change the view. *)
Lemma cut_view start last k old m m' x :
  wf m → wf m' → bt_get k m = Some old → k < last →
  cut start last k old m m' → (k < start → start < mp_end old) →
  x < start ∨ last ≤ x → view m' x = view m x.
Proof.
  intros Hw Hw' Hk Hkl Hc Hst Hx. apply view_eq; [done..|]. intros v.
  pose proof (wf_disjoint m Hw) as Hd. split; intros (j & mp & Hj & Hjx & ->).
  - rewrite Hc in Hj. destruct (decide (j = k)) as [->|Hjk].
    { destruct (decide (k < start)); [|done]. injection Hj as <-. cbn in *.
      exists k, old. split; [done|]. split; [lia | done]. }
    destruct (decide _) as [[-> Hl]|]; [|eauto].
    injection Hj as <-. cbn in *. exists k, old. split; [done|]. split; [lia|].
    rewrite shift_shift. do 2 f_equal. lia.
  - destruct (decide (j = k)) as [->|Hjk].
    + assert (mp = old) as -> by congruence. destruct (decide (x < start)).
      * exists k, (set_end old start). rewrite Hc, !decide_True by lia. cbn. split; [done|].
        split; [lia | done].
      * exists last, (Mapping_suffix old (last - k)).
        rewrite Hc, decide_False, decide_True by lia. cbn. split; [done|]. split; [lia|].
        rewrite shift_shift. do 2 f_equal. lia.
    + exists j, mp. rewrite Hc, decide_False by done. destruct (decide _) as [[-> Hl]|]; [|done].
      pose proof (Hd k old last mp Hk Hj Hkl). lia.
Qed.

(** ** The two steps of [replace] are cuts *)

Lemma remove_one_cut start last k old m :
  wf m → bt_get k m = Some old → start ≤ k < last → cut start last k old m (remove_one last k old m).
Proof.
  intros Hw Hk Hr j. unfold remove_one.
  pose proof (bt_remove_sorted m k (wf_sorted m Hw)) as Hs.
  destruct (decide (last < mp_end old)).
  - rewrite bt_get_insert, bt_get_remove by (done || apply Hw).
    destruct (decide (j = k)) as [->|]; [by rewrite !decide_False by lia|].
    destruct (decide (j = last)); [by rewrite decide_True|]. by rewrite decide_False by tauto.
  - rewrite bt_get_remove by apply Hw. destruct (decide (j = k)); [by rewrite decide_False by lia|].
    by rewrite decide_False by tauto.
Qed.

Lemma remove_one_sorted last k old m : bt_sorted m → bt_sorted (remove_one last k old m).
Proof.
  intros Hs. unfold remove_one. destruct (decide _); auto using bt_insert_sorted, bt_remove_sorted.
Qed.

Lemma split_predecessor_sorted start last m :
  bt_sorted m → bt_sorted (split_predecessor start last m).
Proof.
  intros Hs. unfold split_predecessor. destruct (bt_last_below start m) as [[k old]|]; [|done].
  destruct (decide _); [|done]. destruct (decide _); auto using bt_insert_sorted.
Qed.

(** Either nothing straddles [start], or the predecessor was cut there. *)
Lemma split_predecessor_cut start last m :
  wf m → start < last →
  (split_predecessor start last m = m ∧
     ∀ k mp, bt_get k m = Some mp → k < start → mp_end mp ≤ start) ∨
  (∃ k old, bt_get k m = Some old ∧ k < start ∧ start < mp_end old ∧
     cut start last k old m (split_predecessor start last m)).
Proof.
  intros Hw Hsl. unfold split_predecessor.
  destruct (bt_last_below start m) as [[k old]|] eqn:E.
  - apply bt_last_below_Some in E as (Hk & Hlt & Hmax); [|apply Hw].
    destruct (decide (start < mp_end old)).
    + right. exists k, old. split_and!; [done..|]. intros j.
      destruct (decide (last < mp_end old)).
      * rewrite !bt_get_insert by auto using bt_insert_sorted, wf_sorted.
        destruct (decide (j = k)) as [->|]; [by rewrite decide_True by lia|].
        destruct (decide (j = last)); [by rewrite decide_True|]. by rewrite decide_False by tauto.
      * rewrite bt_get_insert by apply Hw. destruct (decide (j = k)); [by rewrite decide_True by lia|].
        by rewrite decide_False by tauto.
    + left. split; [done|]. intros j mp Hj Hjs. pose proof (Hmax _ _ Hj Hjs) as Hle.
      destruct (decide (j = k)) as [->|]; [assert (mp = old) as -> by congruence; lia|].
      pose proof (wf_disjoint m Hw j mp k old Hj Hk ltac:(lia)). lia.
  - left. split; [done|]. intros k mp Hk. pose proof (bt_last_below_None _ _ (wf_sorted m Hw) E _ _ Hk).
    lia.
Qed.

(** ** Sizes and termination *)

(** The keys of [start, last): what the loop still has to remove. *)
Definition covered_keys (start last : Z) (m : list (Z * Mapping)) : nat :=
  length (bt_range start last m).

Lemma bt_range_insert_out start last k v (m : list (Z * Mapping)) :
  ¬ (start ≤ k < last) → bt_range start last (bt_insert k v m) = bt_range start last m.
Proof.
  intros Hk. induction m as [|[k1 v1] m IH]; unfold bt_range in *; cbn [bt_insert].
  - by rewrite filter_cons, decide_False.
  - destruct (decide (k < k1)); [by rewrite filter_cons, decide_False|].
    destruct (decide (k = k1)) as [->|].
    + by rewrite !filter_cons, !decide_False.
    + rewrite !filter_cons, IH. done.
Qed.

Lemma bt_range_remove_in start last k old (m : list (Z * Mapping)) :
  start ≤ k < last → bt_get k m = Some old →
  length (bt_range start last m) = S (length (bt_range start last (bt_remove k m))).
Proof.
  intros Hk. unfold bt_range. induction m as [|[k1 v1] m IH]; cbn [bt_get bt_remove]; [done|].
  destruct (decide (k = k1)) as [->|]; intros Hg.
  - by rewrite filter_cons, decide_True.
  - rewrite !filter_cons. destruct (decide _); cbn; rewrite IH by done; done.
Qed.

Lemma remove_one_covered start last k old m :
  start ≤ k < last → bt_get k m = Some old →
  covered_keys start last m = S (covered_keys start last (remove_one last k old m)).
Proof.
  intros Hk Hg. unfold covered_keys, remove_one. rewrite (bt_range_remove_in _ _ k old) by done.
  destruct (decide _); [|done]. by rewrite bt_range_insert_out by lia.
Qed.

(** The state of the loop: entries stay well formed, the view outside the
    interval and the bound on the size are kept. *)
Lemma remove_covered_spec start last fuel : ∀ m,
  wf m → start < last → (covered_keys start last m ≤ fuel)%nat →
  (∀ k mp, bt_get k m = Some mp → k < start → mp_end mp ≤ start) →
  let m' := remove_covered fuel start last m in
  wf m' ∧ (length m' ≤ length m)%nat ∧
  (∀ k mp, bt_get k m' = Some mp → last ≤ k ∨ (k < start ∧ mp_end mp ≤ start)) ∧
  (∀ x, x < start ∨ last ≤ x → view m' x = view m x).
Proof.
  induction fuel as [|fuel IH]; intros m Hw Hsl Hf Hp; cbn zeta.
  - cbn [remove_covered]. split_and!; [done | lia | | done]. intros k mp Hk.
    destruct (decide (start ≤ k < last)) as [Hr|Hr].
    + pose proof (remove_one_covered start last k mp m Hr Hk). lia.
    + specialize (Hp _ _ Hk). lia.
  - cbn [remove_covered]. destruct (bt_first_in start last m) as [[k old]|] eqn:E.
    + apply bt_first_in_Some in E as [Hk Hr]; [|apply Hw].
      pose proof (remove_one_cut start last k old m Hw Hk Hr) as Hc.
      assert (Hw' : wf (remove_one last k old m)).
      { eapply (cut_wf start last k old m); [exact Hw | apply remove_one_sorted, Hw | exact Hk | lia | lia | exact Hc | lia]. }
      pose proof (remove_one_covered start last k old m Hr Hk) as Hcov.
      destruct (IH (remove_one last k old m)) as (I1 & I2 & I3 & I4); [done | done | lia | |].
      { intros j mp Hj Hlt. rewrite Hc in Hj. split_if; simplify_eq; try lia. by eapply Hp. }
      split_and!; [done | | done |].
      * etrans; [exact I2|]. unfold remove_one. pose proof (bt_remove_length m k old Hk).
        destruct (decide _); [|lia].
        pose proof (bt_insert_length (bt_remove k m) last (Mapping_suffix old (last - k))). lia.
      * intros x Hx. rewrite I4 by done. eapply (cut_view start last k old); eauto; lia.
    + pose proof (bt_first_in_None _ _ _ (wf_sorted m Hw) E) as Hn.
      split_and!; [done | lia | | done]. intros k mp Hk. specialize (Hn _ _ Hk).
      specialize (Hp _ _ Hk). lia.
Qed.

Lemma covered_keys_le start last m : (covered_keys start last m ≤ length m)%nat.
Proof. apply length_filter. Qed.

Lemma split_predecessor_spec start last m :
  wf m → start < last →
  let m' := split_predecessor start last m in
  wf m' ∧ (length m' ≤ S (length m))%nat ∧
  (∀ k mp, bt_get k m' = Some mp → k < start → mp_end mp ≤ start) ∧
  (∀ x, x < start ∨ last ≤ x → view m' x = view m x).
Proof.
  intros Hw Hsl. cbn zeta.
  assert (Hlen : (length (split_predecessor start last m) ≤ S (length m))%nat).
  { unfold split_predecessor. destruct (bt_last_below start m) as [[k old]|] eqn:E; [|lia].
    apply bt_last_below_Some in E as (Hk & Hlt & _); [|apply Hw].
    destruct (decide _); [|lia]. rewrite bt_insert_length_present.
    - destruct (decide _); [apply bt_insert_length | lia].
    - destruct (decide _); [apply bt_insert_sorted|]; apply Hw.
    - destruct (decide _); [|by eauto]. rewrite bt_get_insert by apply Hw.
      destruct (decide _); eauto. }
  destruct (split_predecessor_cut start last m Hw Hsl) as [[-> Hn]|(k & old & Hk & H1 & H2 & Hc)].
  { split_and!; [done | lia | done | done]. }
  assert (Hw' : wf (split_predecessor start last m)).
  { eapply (cut_wf start last k old m); [exact Hw | apply split_predecessor_sorted, Hw | exact Hk | lia | lia | exact Hc | lia]. }
  split_and!; [done | done | |].
  - intros j mp Hj Hlt. rewrite Hc in Hj. split_if; simplify_eq; cbn; try lia.
    destruct (decide (j < k)).
    + pose proof (wf_disjoint m Hw j mp k old Hj Hk ltac:(lia)). lia.
    + pose proof (wf_disjoint m Hw k old j mp Hk Hj ltac:(lia)). lia.
  - intros x Hx. eapply (cut_view start last k old); eauto; lia.
Qed.

(** Inserting into a gap. *)
Lemma insert_gap_spec start mapping m :
  wf m → start < mp_end mapping →
  (∀ k mp, bt_get k m = Some mp → mp_end mapping ≤ k ∨ (k < start ∧ mp_end mp ≤ start)) →
  wf (bt_insert start mapping m) ∧
  ∀ x, view (bt_insert start mapping m) x =
    if decide (start ≤ x < mp_end mapping)
    then Some (mp_sequence mapping, shift (x - start) (mp_source mapping)) else view m x.
Proof.
  intros Hw Hlt Hg.
  assert (Hw' : wf (bt_insert start mapping m)).
  { split; [apply bt_insert_sorted, Hw | |].
    - intros k mp. rewrite bt_get_insert by apply Hw. destruct (decide _) as [->|].
      + by intros [= <-].
      + apply Hw.
    - intros k1 m1 k2 m2. rewrite !bt_get_insert by apply Hw.
      destruct (decide (k1 = start)) as [->|], (decide (k2 = start)) as [->|]; intros H1 H2 H12.
      + lia.
      + injection H1 as <-. apply Hg in H2. lia.
      + apply Hg in H1. lia.
      + by eapply (wf_disjoint m Hw). }
  split; [done|]. intros x. destruct (decide _) as [Hx|Hx].
  - apply view_Some; [done|]. exists start, mapping. rewrite bt_get_insert by apply Hw.
    rewrite decide_True by done. done.
  - apply view_eq; [done..|]. intros v. split; intros (k & mp & Hk & Hkx & ->).
    + rewrite bt_get_insert in Hk by apply Hw. destruct (decide _) as [->|]; [|eauto].
      injection Hk as <-. lia.
    + exists k, mp. rewrite bt_get_insert by apply Hw. rewrite decide_False; [done|].
      intros ->. apply Hg in Hk. lia.
Qed.

Lemma Index_replace_spec (ix : Index) (start : Z) (mapping : Mapping) :
  wf (ix_map ix) → start < mp_end mapping →
  Index_len ix + 2 ≤ ix_limit ix → ix_limit ix < 2 ^ 64 →
  ∃ ix', Index_replace ix start mapping = Ok ix' ∧ wf (ix_map ix') ∧
    Index_len ix' ≤ Index_len ix + 2 ∧ ix_limit ix' = ix_limit ix ∧
    ∀ x, view (ix_map ix') x =
      if decide (start ≤ x < mp_end mapping)
      then Some (mp_sequence mapping, shift (x - start) (mp_source mapping))
      else view (ix_map ix) x.
Proof.
  intros Hw Hlt Hlim Hmax. unfold Index_replace.
  rewrite (proj2 (checked_add_Some 64 (Index_len ix) 2 (Index_len ix + 2))) by lia.
  cbn [is_some_and]. rewrite bool_decide_eq_true_2 by done.
  destruct (split_predecessor_spec start (mp_end mapping) _ Hw Hlt) as (S1 & S2 & S3 & S4).
  destruct (remove_covered_spec start (mp_end mapping) _ _ S1 Hlt (covered_keys_le _ _ _) S3)
    as (R1 & R2 & R3 & R4).
  destruct (insert_gap_spec start mapping _ R1 Hlt R3) as [G1 G2].
  eexists. split; [reflexivity|]. cbn [ix_map ix_limit]. split_and!; [done | | done |].
  - unfold Index_len; cbn [ix_map]. pose proof (bt_insert_length (remove_covered
      (length (split_predecessor start (mp_end mapping) (ix_map ix))) start (mp_end mapping)
      (split_predecessor start (mp_end mapping) (ix_map ix))) start mapping). lia.
  - intros x. rewrite G2. destruct (decide _); [done|]. rewrite R4, S4 by lia. done.
Qed.

Lemma Index_overlapping_spec (ix : Index) (start last : Z) :
  wf (ix_map ix) → start < last →
  Index_overlapping ix start last
  = filter (λ e, e.1 < last ∧ start < mp_end e.2) (ix_map ix).
Proof.
  intros Hw Hlt. unfold Index_overlapping, bt_range. rewrite list_filter_filter.
  apply list_filter_iff_in. intros [k mp] Hin%(bt_get_elem _ _ _ (wf_sorted _ Hw)); cbn.
  destruct (bt_last_below (start + 1) (ix_map ix)) as [[b old]|] eqn:E.
  - apply bt_last_below_Some in E as (Hb & Hbs & Hmax); [|apply Hw].
    split; [tauto|]. intros [H1 H2]. split; [done|]. split; [|done].
    destruct (decide (b ≤ k)); [done|].
    pose proof (wf_disjoint _ Hw k mp b old Hin Hb ltac:(lia)). lia.
  - pose proof (bt_last_below_None _ _ (wf_sorted _ Hw) E _ _ Hin). lia.
Qed.

(** ** Properties *)

(** C22: [Index::replace] is exact.  When the admission bound holds it does not
    panic; the new index maps every byte of the interval to the new mutation
    (at the right payload offset) and every other byte as before; intervals
    stay nonempty and disjoint; and at most two entries are added, which is
    the headroom the assertion demands. *)
Theorem replace_updates_view (ix : Index) (start : Z) (mapping : Mapping) :
  wf (ix_map ix) → start < mp_end mapping →
  Index_len ix + 2 ≤ ix_limit ix → ix_limit ix < 2 ^ 64 →
  ∃ ix', Index_replace ix start mapping = Ok ix' ∧ wf (ix_map ix') ∧
    Index_len ix' ≤ Index_len ix + 2 ∧ ix_limit ix' = ix_limit ix ∧
    ∀ x, view (ix_map ix') x =
      if decide (start ≤ x < mp_end mapping)
      then Some (mp_sequence mapping, shift (x - start) (mp_source mapping))
      else view (ix_map ix) x.
Proof. apply Index_replace_spec. Qed.

Definition sample_mapping (last sequence : Z) : Mapping :=
  {| mp_end := last; mp_sequence := sequence; mp_source := None |}.

Definition sample_index : Index :=
  {| ix_map := [(0, sample_mapping 32 1)]; ix_limit := 34 |}.

Lemma sample_index_wf : wf (ix_map sample_index).
Proof.
  split; cbn.
  - split; [|done]. by intros k' v' ?%elem_of_nil.
  - intros k mp. destruct (decide _) as [->|]; [|done]. by intros [= <-].
  - intros k1 m1 k2 m2. destruct (decide _), (decide _); intros; simplify_eq; lia.
Qed.

Lemma replace_updates_view_witness :
  ∃ ix', Index_replace sample_index 8 (sample_mapping 16 2) = Ok ix' ∧
    view (ix_map ix') 20 = Some (1, None).
Proof.
  destruct (replace_updates_view sample_index 8 (sample_mapping 16 2)) as (ix' & H1 & _ & _ & _ & H2).
  - apply sample_index_wf.
  - decide_now.
  - decide_now.
  - decide_now.
  - exists ix'. split; [exact H1|]. rewrite H2. reflexivity.
Defined.

(** [Index::overlapping] returns exactly the entries that intersect
    [start, end), in key order: starting the scan at the last key at or below
    [start] misses no entry. *)
Lemma overlapping_exact (ix : Index) (start last : Z) :
  wf (ix_map ix) → start < last →
  Index_overlapping ix start last
  = filter (λ e, e.1 < last ∧ start < mp_end e.2) (ix_map ix).
Proof. apply Index_overlapping_spec. Qed.
