(* ===== verification/Budget.v ===== *)
(** * Memory and request credits

    Models [crates/cas/core/src/budget.rs], [budget/allocator.rs] and the
    reservation of [budget/shared.rs]: a [Budget] with its limit and usage, the
    move-only [Lease]s it hands out, the two-level [Share] of an image in a
    host pool, and the allocator that charges every allocation.  Operations of
    different threads interleave at the granularity of one budget mutex, so the
    whole system is a step relation over single [claim]s and [release]s; the
    theorems hold for every interleaving. *)
From S2P Require Import Prelude Bytes.

Record Amount : Type := { am_bytes : Z; am_requests : Z }.

Record Usage : Type := {
  us_current : Amount;
  us_peak : Amount;
  us_admitted : Z;
  us_released : Z;
  us_rejected : Z;
}.

Record Budget : Type := { bg_limit : Amount; bg_usage : Usage }.

Definition Amount_default : Amount := {| am_bytes := 0; am_requests := 0 |}.

Definition Budget_new (limit : Amount) : Budget := {|
  bg_limit := limit;
  bg_usage := {| us_current := Amount_default; us_peak := Amount_default;
                 us_admitted := 0; us_released := 0; us_rejected := 0 |};
|}.

(** The subtractions of the guard are unchecked [usize] subtractions. *)
Definition Budget_claim (b : Budget) (amount : Amount) : result (Budget * bool) :=
  let u := bg_usage b in
  let current := us_current u in
  room_bytes ← expect (checked_sub (am_bytes (bg_limit b)) (am_bytes current));
  let refuse := ({| bg_limit := bg_limit b;
    bg_usage := {| us_current := current; us_peak := us_peak u; us_admitted := us_admitted u;
                   us_released := us_released u;
                   us_rejected := saturating_add 64 (us_rejected u) 1 |} |}, false) in
  if decide (room_bytes < am_bytes amount) then Ok refuse
  else
    room_requests ← expect (checked_sub (am_requests (bg_limit b)) (am_requests current));
    if decide (room_requests < am_requests amount) then Ok refuse
    else
      let current := {| am_bytes := am_bytes current + am_bytes amount;
                        am_requests := am_requests current + am_requests amount |} in
      Ok ({| bg_limit := bg_limit b;
             bg_usage := {|
               us_current := current;
               us_peak := {| am_bytes := Z.max (am_bytes (us_peak u)) (am_bytes current);
                             am_requests := Z.max (am_requests (us_peak u)) (am_requests current) |};
               us_admitted := saturating_add 64 (us_admitted u) 1;
               us_released := us_released u;
               us_rejected := us_rejected u |} |}, true).

Definition Budget_release (b : Budget) (amount : Amount) : result Budget :=
  let u := bg_usage b in
  bytes ← expect (checked_sub (am_bytes (us_current u)) (am_bytes amount));
  requests ← expect (checked_sub (am_requests (us_current u)) (am_requests amount));
  Ok {| bg_limit := bg_limit b;
        bg_usage := {| us_current := {| am_bytes := bytes; am_requests := requests |};
                       us_peak := us_peak u;
                       us_admitted := us_admitted u;
                       us_released := saturating_add 64 (us_released u) 1;
                       us_rejected := us_rejected u |} |}.

(** [Budget::reserve] returns a lease of exactly the claimed amount. *)
Definition Budget_reserve (b : Budget) (amount : Amount) : result (Budget * option Amount) :=
  '(b', granted) ← Budget_claim b amount;
  Ok (b', if granted : bool then Some amount else None).

(** [Share::reserve]: the host lease is dropped when the image refuses. *)
Definition Share_reserve (host image : Budget) (amount : Amount)
    : result (Budget * Budget * option (Amount * Amount)) :=
  '(host1, h) ← Budget_reserve host amount;
  match h with
  | None => Ok (host1, image, None)
  | Some host_lease =>
      '(image1, i) ← Budget_reserve image amount;
      match i with
      | None =>
          host2 ← Budget_release host1 host_lease;
          Ok (host2, image1, None)
      | Some image_lease => Ok (host1, image1, Some (host_lease, image_lease))
      end
  end.

(** [BudgetAllocator::allocate] of a layout of [size] bytes; [global] says
    whether the global allocator has memory. *)
Definition BudgetAllocator_allocate (b : Budget) (size : Z) (global : bool)
    : result (Budget * bool) :=
  let amount := {| am_bytes := size; am_requests := 0 |} in
  '(b', granted) ← Budget_claim b amount;
  if (granted : bool) then
    if global then Ok (b', true)
    else b'' ← Budget_release b' amount; Ok (b'', false)
  else Ok (b', false).

Definition BudgetAllocator_deallocate (b : Budget) (size : Z) : result Budget :=
  Budget_release b {| am_bytes := size; am_requests := 0 |}.

(** ** The host: all budgets and all live leases *)

(** A lease names its budget and its amount. *)
Record Host : Type := { h_budgets : list Budget; h_leases : list (nat * Amount) }.

Definition Amount_ok (a : Amount) : Prop := 0 ≤ am_bytes a ∧ 0 ≤ am_requests a.

Inductive step : Host → Host → Prop :=
  | step_claim s i b b' amount :
      h_budgets s !! i = Some b → Amount_ok amount → Budget_claim b amount = Ok (b', true) →
      step s {| h_budgets := <[i := b']> (h_budgets s); h_leases := (i, amount) :: h_leases s |}
  | step_refuse s i b b' amount :
      h_budgets s !! i = Some b → Amount_ok amount → Budget_claim b amount = Ok (b', false) →
      step s {| h_budgets := <[i := b']> (h_budgets s); h_leases := h_leases s |}
  | step_release s j i amount b b' :
      h_leases s !! j = Some (i, amount) → h_budgets s !! i = Some b →
      Budget_release b amount = Ok b' →
      step s {| h_budgets := <[i := b']> (h_budgets s); h_leases := vec_remove j (h_leases s) |}.

(** Hosts reachable from freshly created budgets. *)
Inductive reachable (limits : list Amount) : Host → Prop :=
  | reach_new : reachable limits {| h_budgets := Budget_new <$> limits; h_leases := [] |}
  | reach_step s s' : reachable limits s → step s s' → reachable limits s'.

(** The credits outstanding on budget [i]. *)
Definition held_bytes (i : nat) (leases : list (nat * Amount)) : Z :=
  sumZ ((λ l, am_bytes l.2) <$> filter (λ l, l.1 = i) leases).

Definition held_requests (i : nat) (leases : list (nat * Amount)) : Z :=
  sumZ ((λ l, am_requests l.2) <$> filter (λ l, l.1 = i) leases).

(** The invariant of one budget against its outstanding leases. *)
Definition budget_inv (i : nat) (b : Budget) (limit : Amount) (leases : list (nat * Amount)) : Prop :=
  let u := bg_usage b in
  bg_limit b = limit ∧
  am_bytes (us_current u) = held_bytes i leases ∧
  am_requests (us_current u) = held_requests i leases ∧
  am_bytes (us_current u) ≤ am_bytes (us_peak u) ≤ am_bytes limit ∧
  am_requests (us_current u) ≤ am_requests (us_peak u) ≤ am_requests limit.

Definition host_inv (limits : list Amount) (s : Host) : Prop :=
  Forall (λ l, Amount_ok l.2) (h_leases s) ∧
  ∀ i b, h_budgets s !! i = Some b →
    ∃ limit, limits !! i = Some limit ∧ budget_inv i b limit (h_leases s).

(** ** Lemmas *)

Lemma Budget_claim_true b amount b' :
  Budget_claim b amount = Ok (b', true) →
  let u := bg_usage b in let u' := bg_usage b' in
  bg_limit b' = bg_limit b ∧
  am_bytes (us_current u') = am_bytes (us_current u) + am_bytes amount ∧
  am_requests (us_current u') = am_requests (us_current u) + am_requests amount ∧
  am_bytes (us_current u') ≤ am_bytes (bg_limit b) ∧
  am_requests (us_current u') ≤ am_requests (bg_limit b) ∧
  am_bytes (us_peak u') = Z.max (am_bytes (us_peak u)) (am_bytes (us_current u')) ∧
  am_requests (us_peak u') = Z.max (am_requests (us_peak u)) (am_requests (us_current u')).
Proof.
  unfold Budget_claim, expect, checked_sub.
  destruct (decide (am_bytes (us_current _) ≤ _)); cbn; [|done].
  destruct (decide (_ < am_bytes amount)); [done|].
  destruct (decide (am_requests (us_current _) ≤ _)); cbn; [|done].
  destruct (decide (_ < am_requests amount)); [done|].
  intros [= <-]. cbn. split; [done|]. lia.
Qed.

Lemma Budget_claim_false b amount b' :
  Budget_claim b amount = Ok (b', false) →
  bg_limit b' = bg_limit b ∧ us_current (bg_usage b') = us_current (bg_usage b) ∧
  us_peak (bg_usage b') = us_peak (bg_usage b) ∧
  (am_bytes (bg_limit b) < am_bytes (us_current (bg_usage b)) + am_bytes amount ∨
   am_requests (bg_limit b) < am_requests (us_current (bg_usage b)) + am_requests amount).
Proof.
  unfold Budget_claim, expect, checked_sub.
  destruct (decide (am_bytes (us_current _) ≤ _)); cbn; [|done].
  destruct (decide (_ < am_bytes amount)); [intros [= <-]; cbn; split_and!; [done..|lia]|].
  destruct (decide (am_requests (us_current _) ≤ _)); cbn; [|done].
  destruct (decide (_ < am_requests amount)); [intros [= <-]; cbn; split_and!; [done..|lia]|done].
Qed.

Lemma Budget_release_ok b amount b' :
  Budget_release b amount = Ok b' →
  bg_limit b' = bg_limit b ∧ us_peak (bg_usage b') = us_peak (bg_usage b) ∧
  am_bytes (us_current (bg_usage b')) = am_bytes (us_current (bg_usage b)) - am_bytes amount ∧
  am_requests (us_current (bg_usage b')) = am_requests (us_current (bg_usage b)) - am_requests amount.
Proof.
  unfold Budget_release, expect, checked_sub.
  destruct (decide (am_bytes amount ≤ _)); cbn; [|done].
  destruct (decide (am_requests amount ≤ _)); cbn; [|done]. intros [= <-]. done.
Qed.

Lemma Budget_release_defined b amount :
  am_bytes amount ≤ am_bytes (us_current (bg_usage b)) →
  am_requests amount ≤ am_requests (us_current (bg_usage b)) →
  ∃ b', Budget_release b amount = Ok b'.
Proof.
  intros H1 H2. unfold Budget_release, checked_sub. rewrite !decide_True by done. cbn. eauto.
Qed.

Lemma Budget_claim_defined b amount :
  am_bytes (us_current (bg_usage b)) ≤ am_bytes (bg_limit b) →
  am_requests (us_current (bg_usage b)) ≤ am_requests (bg_limit b) →
  ∃ b' granted, Budget_claim b amount = Ok (b', granted).
Proof.
  intros H1 H2. unfold Budget_claim, checked_sub. rewrite !decide_True by done. cbn.
  destruct (decide _); [eauto|]. destruct (decide _); eauto.
Qed.

Lemma held_cons i j a l :
  held_bytes i ((j, a) :: l) = (if decide (j = i) then am_bytes a else 0) + held_bytes i l ∧
  held_requests i ((j, a) :: l) = (if decide (j = i) then am_requests a else 0) + held_requests i l.
Proof. unfold held_bytes, held_requests. rewrite !filter_cons. cbn. destruct (decide _); done. Qed.

Lemma held_remove i j k a l :
  l !! k = Some (j, a) →
  held_bytes i (vec_remove k l) = held_bytes i l - (if decide (j = i) then am_bytes a else 0) ∧
  held_requests i (vec_remove k l)
    = held_requests i l - (if decide (j = i) then am_requests a else 0).
Proof.
  unfold vec_remove. revert k. induction l as [|[j' a'] l IH]; intros [|k] Hk; cbn in Hk; [done..| |].
  - injection Hk as -> ->. cbn [take drop app]. rewrite ?drop_0. destruct (held_cons i j a l) as [-> ->].
    destruct (decide _); lia.
  - cbn [take drop app]. destruct (held_cons i j' a' (take k l ++ drop (S k) l)) as [-> ->].
    destruct (held_cons i j' a' l) as [-> ->]. destruct (IH _ Hk) as [-> ->].
    destruct (decide (j = i)), (decide (j' = i)); lia.
Qed.

Lemma held_nonneg i l : Forall (λ l, Amount_ok l.2) l → 0 ≤ held_bytes i l ∧ 0 ≤ held_requests i l.
Proof.
  induction 1 as [|[j a] l [Ha1 Ha2] Hl IH]; [done|]. destruct (held_cons i j a l) as [-> ->].
  cbn in *. destruct (decide _); lia.
Qed.

Lemma held_lookup i k a l :
  Forall (λ l, Amount_ok l.2) l → l !! k = Some (i, a) →
  am_bytes a ≤ held_bytes i l ∧ am_requests a ≤ held_requests i l.
Proof.
  intros Hl Hk. destruct (held_remove i i k a l Hk) as [E1 E2]. rewrite decide_True in E1, E2 by done.
  assert (Hr : Forall (λ l, Amount_ok l.2) (vec_remove k l)).
  { apply Forall_app. split; [by apply Forall_take | by apply Forall_drop]. }
  destruct (held_nonneg i _ Hr). lia.
Qed.

Lemma host_inv_new limits :
  Forall Amount_ok limits → host_inv limits {| h_budgets := Budget_new <$> limits; h_leases := [] |}.
Proof.
  intros Hl. split; [constructor|]. intros i b Hb. cbn in Hb. rewrite list_lookup_fmap in Hb.
  destruct (limits !! i) as [limit|] eqn:E; [|done]. injection Hb as <-. exists limit. split; [done|].
  eapply Forall_lookup_1 in Hl as [H1 H2]; [|exact E]. unfold budget_inv, held_bytes, held_requests.
  cbn. split; [done|]. lia.
Qed.

Lemma host_inv_step limits s s' : host_inv limits s → step s s' → host_inv limits s'.
Proof.
  intros [Hl Hi] Hs. destruct Hs as [s i b b' amount Hb Ha Hc | s i b b' amount Hb Ha Hc
    | s j i amount b b' Hj Hb Hr]; cbn.
  - split; [by constructor|]. cbn. intros k bk [(-> & -> & _)|[Hk Hbk]]%lookup_insert_cases.
    + destruct (Hi _ _ Hb) as (limit & ? & L & I). exists limit. split; [done|].
      apply Budget_claim_true in Hc as (C1 & C2 & C3 & C4 & C5 & C6 & C7).
      unfold budget_inv. destruct (held_cons i i amount (h_leases s)) as [-> ->].
      rewrite !decide_True by done. rewrite C1, L in *. cbn. split; [done|]. lia.
    + destruct (Hi _ _ Hbk) as (limit & ? & I). exists limit. split; [done|].
      unfold budget_inv in *. destruct (held_cons k i amount (h_leases s)) as [-> ->].
      rewrite !decide_False by congruence. done.
  - split; [done|]. cbn. intros k bk [(-> & -> & _)|[Hk Hbk]]%lookup_insert_cases; [|by apply Hi].
    destruct (Hi _ _ Hb) as (limit & ? & I). exists limit. split; [done|].
    apply Budget_claim_false in Hc as (C1 & C2 & C3 & _).
    unfold budget_inv in *. by rewrite C1, C2, C3.
  - pose proof (held_remove) as Hrem. split.
    { cbn. apply Forall_app. split; [by apply Forall_take | by apply Forall_drop]. }
    cbn. intros k bk [(-> & -> & _)|[Hk Hbk]]%lookup_insert_cases.
    + destruct (Hi _ _ Hb) as (limit & ? & L & I). exists limit. split; [done|].
      apply Budget_release_ok in Hr as (R1 & R2 & R3 & R4).
      pose proof (held_lookup i j amount _ Hl Hj) as [? ?].
      eapply Forall_lookup_1 in Hl as [A1 A2]; [|exact Hj]. cbn in A1, A2.
      unfold budget_inv. destruct (Hrem i i j amount (h_leases s) Hj) as [-> ->].
      rewrite !decide_True by done. rewrite R1, R2, R3, R4, L in *. cbn. split; [done|]. lia.
    + destruct (Hi _ _ Hbk) as (limit & ? & I). exists limit. split; [done|].
      unfold budget_inv in *. destruct (Hrem k i j amount (h_leases s) Hj) as [-> ->].
      rewrite !decide_False by congruence. by rewrite !Z.sub_0_r.
Qed.

Lemma reachable_inv limits s : Forall Amount_ok limits → reachable limits s → host_inv limits s.
Proof. intros Hl. induction 1; eauto using host_inv_new, host_inv_step. Qed.

(** ** Properties *)

(** Credits are conserved under every interleaving of claims and releases
    of every budget of the host: the current usage of a budget is exactly the
    sum of its live leases, neither it nor the recorded peak ever exceeds the
    limit, and no [claim] and no [release] of a live lease can underflow. *)
Lemma credits_conserved (limits : list Amount) (s : Host) (i : nat) (b : Budget) :
  Forall Amount_ok limits → reachable limits s → h_budgets s !! i = Some b →
  am_bytes (us_current (bg_usage b)) = held_bytes i (h_leases s) ∧
  am_requests (us_current (bg_usage b)) = held_requests i (h_leases s) ∧
  (∃ limit, limits !! i = Some limit ∧
     am_bytes (us_current (bg_usage b)) ≤ am_bytes (us_peak (bg_usage b)) ≤ am_bytes limit ∧
     am_requests (us_current (bg_usage b)) ≤ am_requests (us_peak (bg_usage b)) ≤ am_requests limit) ∧
  (∀ amount, ∃ b' granted, Budget_claim b amount = Ok (b', granted)) ∧
  (∀ j amount, h_leases s !! j = Some (i, amount) → ∃ b', Budget_release b amount = Ok b').
Proof.
  intros Hl Hr Hb. destruct (reachable_inv _ _ Hl Hr) as [Hle Hi].
  destruct (Hi _ _ Hb) as (limit & Hlim & L & C1 & C2 & C3 & C4).
  split_and!; [done | done | eauto | |].
  - intros amount. apply Budget_claim_defined; rewrite L; lia.
  - intros j amount Hj. destruct (held_lookup _ _ _ _ Hle Hj).
    apply Budget_release_defined; lia.
Qed.

Definition sample_limit : Amount := {| am_bytes := 128; am_requests := 8 |}.

Definition sample_charged : Budget :=
  {| bg_limit := sample_limit;
     bg_usage := {| us_current := {| am_bytes := 40; am_requests := 1 |};
                    us_peak := {| am_bytes := 40; am_requests := 1 |};
                    us_admitted := 1; us_released := 0; us_rejected := 0 |} |}.

Definition sample_host : Host :=
  {| h_budgets := [sample_charged]; h_leases := [(0%nat, {| am_bytes := 40; am_requests := 1 |})] |}.

(** What a budget could still grant is less than [amount] asks for. *)
Definition exceeds (b : Budget) (amount : Amount) : Prop :=
  am_bytes (bg_limit b) < am_bytes (us_current (bg_usage b)) + am_bytes amount ∨
  am_requests (bg_limit b) < am_requests (us_current (bg_usage b)) + am_requests amount.

(** [after] has [amount] more outstanding than [before]. *)
Definition charged (before after : Budget) (amount : Amount) : Prop :=
  us_current (bg_usage after) =
    {| am_bytes := am_bytes (us_current (bg_usage before)) + am_bytes amount;
       am_requests := am_requests (us_current (bg_usage before)) + am_requests amount |}.

Lemma Budget_claim_charges b amount b' :
  Budget_claim b amount = Ok (b', true) → charged b b' amount ∧ ¬ exceeds b amount.
Proof.
  intros (L & B & R & M1 & M2 & _)%Budget_claim_true. unfold charged, exceeds. split; [|lia].
  destruct (us_current (bg_usage b')). cbn in *. by f_equal.
Qed.

Lemma Budget_release_undoes b b' amount :
  charged b b' amount → Amount_ok amount → Amount_ok (us_current (bg_usage b)) →
  ∃ b'', Budget_release b' amount = Ok b'' ∧ us_current (bg_usage b'') = us_current (bg_usage b).
Proof.
  unfold charged. intros C [A1 A2] [H1 H2].
  destruct (Budget_release_defined b' amount) as [b'' E]; [rewrite C; cbn; lia..|].
  exists b''. split; [done|]. apply Budget_release_ok in E as (_ & _ & R1 & R2). rewrite C in R1, R2.
  destruct (us_current (bg_usage b'')), (us_current (bg_usage b)). cbn in *. f_equal; lia.
Qed.

(** C37: a [Share] reservation is all or nothing, and answers what the two
    pools allow.  It is granted exactly when neither pool is exceeded; then
    both pools have charged the bytes and the requests of the amount, each
    against a lease of exactly that amount.  When it is refused, both pools
    have as many bytes and as many requests outstanding as before: the host
    lease taken first is given back. *)
Theorem share_reserve_atomic (host image : Budget) (amount : Amount) :
  Amount_ok amount → Amount_ok (us_current (bg_usage host)) →
  am_bytes (us_current (bg_usage host)) ≤ am_bytes (bg_limit host) →
  am_requests (us_current (bg_usage host)) ≤ am_requests (bg_limit host) →
  am_bytes (us_current (bg_usage image)) ≤ am_bytes (bg_limit image) →
  am_requests (us_current (bg_usage image)) ≤ am_requests (bg_limit image) →
  ∃ host' image' lease, Share_reserve host image amount = Ok (host', image', lease) ∧
    match lease with
    | None => us_current (bg_usage host') = us_current (bg_usage host) ∧
              us_current (bg_usage image') = us_current (bg_usage image) ∧
              (exceeds host amount ∨ exceeds image amount)
    | Some (h, i) => h = amount ∧ i = amount ∧
        charged host host' amount ∧ charged image image' amount ∧
        ¬ exceeds host amount ∧ ¬ exceeds image amount
    end.
Proof.
  intros Ha Hc H1 H2 H3 H4. unfold Share_reserve, Budget_reserve.
  destruct (Budget_claim_defined host amount H1 H2) as (host1 & gh & Eh). rewrite Eh. cbn.
  destruct gh; cbn.
  2:{ apply Budget_claim_false in Eh as (_ & E & _ & F). do 3 eexists. split; [reflexivity|].
      split_and!; [done.. | by left]. }
  destruct (Budget_claim_defined image amount H3 H4) as (image1 & gi & Ei). rewrite Ei. cbn.
  apply Budget_claim_charges in Eh as [Ch Fh]. destruct gi; cbn.
  - apply Budget_claim_charges in Ei as [Ci Fi]. do 3 eexists. split; [reflexivity|]. done.
  - apply Budget_claim_false in Ei as (_ & Ei & _ & F).
    destruct (Budget_release_undoes host host1 amount Ch Ha Hc) as (host2 & E & C). rewrite E. cbn.
    do 3 eexists. split; [reflexivity|]. split_and!; [done.. | by right].
Qed.

Lemma share_reserve_atomic_witness :
  ∃ host' image', Share_reserve (Budget_new sample_limit)
    (Budget_new {| am_bytes := 64; am_requests := 2 |}) {| am_bytes := 65; am_requests := 1 |}
    = Ok (host', image', None) ∧ us_current (bg_usage host') = Amount_default.
Proof.
  destruct (share_reserve_atomic (Budget_new sample_limit)
    (Budget_new {| am_bytes := 64; am_requests := 2 |}) {| am_bytes := 65; am_requests := 1 |})
    as (host' & image' & lease & H1 & H2); [by split | by split | by vm_compute.. |].
  assert (lease = None) as -> by (vm_compute in H1; by injection H1 as _ _ <-).
  exists host', image'. split; [exact H1 | exact (proj1 H2)].
Defined.
