(* ===== verification/Queue.v ===== *)
(** * Fixed rings and bounded channels

    Models [crates/cas/core/src/budget/queue.rs] (a ring of preallocated
    slots) and [crates/cas/core/src/budget/channel.rs] (the bounded
    multi-producer channel built on it).  [contents] is the abstract sequence a
    ring holds; the theorems show that the ring implements a double-ended
    bounded sequence and that the channel delivers accepted messages exactly
    once, in order, across every interleaving of its endpoints. *)
From S2P Require Import Prelude.

Section Ring.
Context {T : Type}.

Record Ring : Type := { q_slots : list (option T); q_head : nat; q_len : nat }.

(** [available] says whether the budget grants the slot array. *)
Definition Queue_with_capacity (capacity : nat) (available : bool) : result Ring :=
  if decide (capacity = 0%nat) then Err (Error InvalidInput "")
  else if available
  then Ok {| q_slots := replicate capacity None; q_head := 0; q_len := 0 |}
  else Err (Error OutOfMemory "").

Definition Queue_capacity (q : Ring) : nat := length (q_slots q).
Definition Queue_is_empty (q : Ring) : bool := bool_decide (q_len q = 0%nat).
Definition Queue_is_full (q : Ring) : bool := bool_decide (q_len q = Queue_capacity q).

(** [Err(value)] hands the refused value back. *)
Definition Queue_try_push_back (q : Ring) (value : T) : Ring * option T :=
  if Queue_is_full q then (q, Some value)
  else
    let tail := ((q_head q + q_len q) mod Queue_capacity q)%nat in
    ({| q_slots := <[tail := Some value]> (q_slots q);
        q_head := q_head q; q_len := S (q_len q) |}, None).

Definition Queue_try_push_front (q : Ring) (value : T) : Ring * option T :=
  if Queue_is_full q then (q, Some value)
  else
    let head := ((q_head q + Queue_capacity q - 1) mod Queue_capacity q)%nat in
    ({| q_slots := <[head := Some value]> (q_slots q);
        q_head := head; q_len := S (q_len q) |}, None).

(** [push_back] asserts that there is room. *)
Definition Queue_push_back (q : Ring) (value : T) : result Ring :=
  match Queue_try_push_back q value with (q', None) => Ok q' | _ => Panic end.

Definition Queue_push_front (q : Ring) (value : T) : result Ring :=
  match Queue_try_push_front q value with (q', None) => Ok q' | _ => Panic end.

Definition Queue_pop_front (q : Ring) : Ring * option T :=
  if Queue_is_empty q then (q, None)
  else
    let value := mjoin (q_slots q !! q_head q) in
    ({| q_slots := <[q_head q := None]> (q_slots q);
        q_head := (S (q_head q) mod Queue_capacity q)%nat;
        q_len := pred (q_len q) |}, value).

Definition Queue_front (q : Ring) : option T :=
  if Queue_is_empty q then None else mjoin (q_slots q !! q_head q).

Fixpoint Queue_clear_go (fuel : nat) (q : Ring) : Ring :=
  match fuel with
  | O => q
  | S fuel' =>
      match Queue_pop_front q with
      | (q', Some _) => Queue_clear_go fuel' q'
      | (q', None) => q'
      end
  end.

(** [clear] pops until the ring is empty. *)
Definition Queue_clear (q : Ring) : Ring := Queue_clear_go (S (q_len q)) q.

(** [iter]: the occupied slots in order. *)
Definition Queue_iter (q : Ring) : list (option T) :=
  (λ i, mjoin (q_slots q !! ((q_head q + i) mod Queue_capacity q)%nat)) <$> seq 0 (q_len q).

(** [iter_mut]: the slots from [head], then the slots before it. *)
Definition Queue_iter_mut (q : Ring) : list (option T) :=
  take (q_len q) (drop (q_head q) (q_slots q) ++ take (q_head q) (q_slots q)).

(** ** Abstraction *)

(** The ring holds the sequence [l]: [l] lies in consecutive slots from [head],
    modulo the capacity, and all other slots are empty. *)
Definition holds (q : Ring) (l : list T) : Prop :=
  (q_head q < Queue_capacity q)%nat ∧ q_len q = length l ∧ (length l ≤ Queue_capacity q)%nat ∧
  ∀ i, (i < Queue_capacity q)%nat →
    q_slots q !! ((q_head q + i) mod Queue_capacity q)%nat = Some (l !! i).

Lemma mod_inj (c h i j : nat) :
  (i < c)%nat → (j < c)%nat → ((h + i) mod c = (h + j) mod c)%nat → i = j.
Proof.
  intros Hi Hj E. assert (Hc : (c ≠ 0)%nat) by lia.
  pose proof (Nat.div_mod (h + i) c Hc). pose proof (Nat.div_mod (h + j) c Hc).
  pose proof (Nat.mod_upper_bound (h + i) c Hc).
  destruct (decide ((h + i) / c = (h + j) / c)%nat) as [Ed|Ed]; [nia|].
  destruct (decide ((h + i) / c < (h + j) / c)%nat); nia.
Qed.

Lemma slots_insert (q : Ring) (i j : nat) v :
  (i < Queue_capacity q)%nat → (j < Queue_capacity q)%nat →
  <[((q_head q + i) mod Queue_capacity q)%nat := v]> (q_slots q)
    !! ((q_head q + j) mod Queue_capacity q)%nat =
  if decide (i = j) then Some v else q_slots q !! ((q_head q + j) mod Queue_capacity q)%nat.
Proof.
  intros Hi Hj. destruct (decide (i = j)) as [->|Hne].
  - apply list_lookup_insert_eq. apply Nat.mod_upper_bound. unfold Queue_capacity in *. lia.
  - apply list_lookup_insert_ne. intros E. apply mod_inj in E; lia.
Qed.

Lemma holds_new capacity available q :
  Queue_with_capacity capacity available = Ok q → holds q [] ∧ Queue_capacity q = capacity.
Proof.
  unfold Queue_with_capacity. destruct (decide _); [done|]. destruct available; [|done].
  intros [= <-]. unfold holds, Queue_capacity; cbn. rewrite length_replicate.
  split_and!; try done; try lia. intros i Hi. rewrite lookup_nil. apply lookup_replicate_2.
  apply Nat.mod_upper_bound. lia.
Qed.

Lemma holds_push_back q l v :
  holds q l →
  if decide (length l = Queue_capacity q)
  then Queue_try_push_back q v = (q, Some v)
  else ∃ q', Queue_try_push_back q v = (q', None) ∧ holds q' (l ++ [v]) ∧
             Queue_capacity q' = Queue_capacity q.
Proof.
  intros (H1 & H2 & H3 & H4). unfold Queue_try_push_back, Queue_is_full. rewrite H2.
  destruct (decide _) as [E|E]; [by rewrite bool_decide_eq_true_2|].
  rewrite bool_decide_eq_false_2 by done. eexists. split; [reflexivity|].
  unfold holds, Queue_capacity in *; cbn in *. rewrite length_insert, length_app. cbn.
  split_and!; try done; try lia. intros i Hi. rewrite (slots_insert q) by (unfold Queue_capacity; lia).
  destruct (decide _) as [<-|Hne]; [by rewrite list_lookup_middle|]. unfold Queue_capacity.
  rewrite H4 by done. f_equal. destruct (decide (i < length l)%nat).
  - by rewrite lookup_app_l.
  - rewrite !lookup_ge_None_2; rewrite ?length_app; cbn; lia || done.
Qed.

Lemma holds_pop_front q l :
  holds q l →
  match l with
  | [] => Queue_pop_front q = (q, None)
  | v :: l' => ∃ q', Queue_pop_front q = (q', Some v) ∧ holds q' l' ∧
                     Queue_capacity q' = Queue_capacity q
  end.
Proof.
  intros (H1 & H2 & H3 & H4). unfold Queue_pop_front, Queue_is_empty. rewrite H2.
  destruct l as [|v l']; [done|]. rewrite bool_decide_eq_false_2 by done.
  assert (Hh : (q_head q mod Queue_capacity q = q_head q)%nat) by (apply Nat.mod_small; lia).
  pose proof (H4 0%nat ltac:(lia)) as Hv. rewrite Nat.add_0_r, Hh in Hv. rewrite Hv.
  cbn [lookup list_lookup mjoin option_join pred length]. eexists. split; [reflexivity|].
  unfold holds, Queue_capacity in *; cbn [q_slots q_head q_len length] in *. rewrite length_insert.
  split_and!; try done; [apply Nat.mod_upper_bound; lia | lia |]. intros i Hi.
  rewrite Nat.Div0.add_mod_idemp_l.
  destruct (decide (S i < length (q_slots q))%nat).
  - replace (S (q_head q) + i)%nat with (q_head q + S i)%nat by lia.
    pose proof (slots_insert q 0 (S i) None ltac:(unfold Queue_capacity; lia)
      ltac:(unfold Queue_capacity; lia)) as E.
    unfold Queue_capacity in E. rewrite Nat.add_0_r, Hh in E. rewrite E. by rewrite H4.
  - replace (S (q_head q) + i)%nat with (q_head q + 1 * length (q_slots q))%nat by lia.
    rewrite Nat.Div0.mod_add, Hh. rewrite list_lookup_insert_eq by done.
    f_equal. symmetry. apply lookup_ge_None_2. lia.
Qed.

Lemma holds_push_front q l v :
  holds q l →
  if decide (length l = Queue_capacity q)
  then Queue_try_push_front q v = (q, Some v)
  else ∃ q', Queue_try_push_front q v = (q', None) ∧ holds q' (v :: l) ∧
             Queue_capacity q' = Queue_capacity q.
Proof.
  intros (H1 & H2 & H3 & H4). unfold Queue_try_push_front, Queue_is_full. rewrite H2.
  destruct (decide _) as [E|E]; [by rewrite bool_decide_eq_true_2|].
  rewrite bool_decide_eq_false_2 by done. eexists. split; [reflexivity|].
  unfold holds, Queue_capacity in *; cbn [q_slots q_head q_len length] in *. rewrite length_insert.
  set (c := length (q_slots q)) in *. set (h := ((q_head q + c - 1) mod c)%nat).
  assert (Hh : (h < c)%nat) by (apply Nat.mod_upper_bound; lia).
  assert (Hs : ∀ i, ((h + S i) mod c = (q_head q + i) mod c)%nat).
  { intros i. unfold h. rewrite Nat.Div0.add_mod_idemp_l.
    replace (q_head q + c - 1 + S i)%nat with (q_head q + i + 1 * c)%nat by lia.
    apply Nat.Div0.mod_add. }
  split_and!; try done; try lia. intros [|i] Hi; cbn [lookup list_lookup].
  - rewrite Nat.add_0_r, Nat.mod_small by done. by apply list_lookup_insert_eq.
  - rewrite Hs. rewrite list_lookup_insert_ne; [by apply H4; lia|]. intros E'.
    pose proof (mod_inj c h 0 (S i) ltac:(lia) Hi) as Hinj.
    rewrite Nat.add_0_r, (Nat.mod_small h) in Hinj by done. rewrite Hs in Hinj.
    specialize (Hinj E'). lia.
Qed.

Lemma holds_iter q l : holds q l → Queue_iter q = Some <$> l.
Proof.
  intros (H1 & H2 & H3 & H4). unfold Queue_iter. rewrite H2. apply list_eq. intros i.
  rewrite !list_lookup_fmap. destruct (decide (i < length l)%nat) as [Hi|Hi].
  - rewrite lookup_seq_lt by done. cbn. rewrite H4 by lia. cbn.
    destruct (lookup_lt_is_Some_2 l i Hi) as [x ->]. done.
  - rewrite lookup_seq_ge by lia. by rewrite lookup_ge_None_2 by lia.
Qed.

Lemma holds_iter_mut q l : holds q l → Queue_iter_mut q = Some <$> l.
Proof.
  intros (H1 & H2 & H3 & H4). unfold Queue_iter_mut, Queue_capacity in *. rewrite H2.
  apply list_eq. intros i. rewrite list_lookup_fmap.
  destruct (decide (i < length l)%nat) as [Hi|Hi].
  - rewrite lookup_take_lt by done. specialize (H4 i ltac:(lia)).
    destruct (lookup_lt_is_Some_2 l i Hi) as [x Hx]. rewrite Hx in *. cbn.
    destruct (decide (q_head q + i < length (q_slots q))%nat).
    + rewrite lookup_app_l by (rewrite length_drop; lia). rewrite lookup_drop.
      by rewrite Nat.mod_small in H4 by done.
    + rewrite lookup_app_r by (rewrite length_drop; lia). rewrite length_drop.
      rewrite lookup_take_lt by lia. rewrite <- H4. f_equal.
      replace (q_head q + i)%nat with (q_head q + i - length (q_slots q) + 1 * length (q_slots q))%nat
        by lia. rewrite Nat.Div0.mod_add, Nat.mod_small by lia. lia.
  - rewrite lookup_take_ge by lia. by rewrite lookup_ge_None_2 by lia.
Qed.

Lemma holds_clear q l : holds q l → holds (Queue_clear q) [] ∧
  Queue_capacity (Queue_clear q) = Queue_capacity q.
Proof.
  intros Hq. unfold Queue_clear. destruct Hq as (H1 & H2 & H3 & H4) eqn:E.
  assert (Hf : (length l < S (q_len q))%nat) by lia. clear E.
  assert (Hh : holds q l) by done. clear H1 H2 H3 H4 Hq. revert q l Hf Hh.
  intros q. generalize (S (q_len q)). intros fuel. revert q.
  induction fuel as [|fuel IH]; intros q l Hf Hh; [lia|]. cbn [Queue_clear_go].
  pose proof (holds_pop_front q l Hh) as Hp. destruct l as [|v l'].
  - rewrite Hp. done.
  - destruct Hp as (q' & -> & Hq' & Hc). rewrite <- Hc. apply (IH q' l'); [cbn in Hf; lia | done].
Qed.

Lemma holds_front q l : holds q l → Queue_front q = head l.
Proof.
  intros (H1 & H2 & H3 & H4). unfold Queue_front, Queue_is_empty. rewrite H2.
  destruct l as [|v l]; [done|]. rewrite bool_decide_eq_false_2 by done.
  pose proof (H4 0%nat ltac:(lia)) as Hv.
  rewrite Nat.add_0_r, Nat.mod_small in Hv by done. by rewrite Hv.
Qed.

End Ring.

Arguments Ring : clear implicits.

(** ** The ring refines a bounded sequence *)

Section RingRefinement.
Context {T : Type}.

Inductive ring_op : Type :=
  | PushBack (v : T)
  | PushFront (v : T)
  | PopFront
  | Front
  | Iterate
  | Clear.

(** What an operation returns: the refused value, the popped or front value,
    the visited elements. *)
Definition ring_step (q : Ring T) (o : ring_op) : Ring T * list (option T) :=
  match o with
  | PushBack v => let '(q', r) := Queue_try_push_back q v in (q', [r])
  | PushFront v => let '(q', r) := Queue_try_push_front q v in (q', [r])
  | PopFront => let '(q', r) := Queue_pop_front q in (q', [r])
  | Front => (q, [Queue_front q])
  | Iterate => (q, Queue_iter q)
  | Clear => (Queue_clear q, [])
  end.

(** The specification: a sequence of at most [capacity] elements. *)
Definition spec_step (capacity : nat) (l : list T) (o : ring_op) : list T * list (option T) :=
  match o with
  | PushBack v => if decide (length l = capacity) then (l, [Some v]) else (l ++ [v], [None])
  | PushFront v => if decide (length l = capacity) then (l, [Some v]) else (v :: l, [None])
  | PopFront => (tail l, [head l])
  | Front => (l, [head l])
  | Iterate => (l, Some <$> l)
  | Clear => ([], [])
  end.

Fixpoint run {S} (f : S → ring_op → S * list (option T)) (s : S) (ops : list ring_op)
    : S * list (list (option T)) :=
  match ops with
  | [] => (s, [])
  | o :: ops' =>
      let '(s1, r) := f s o in let '(s2, rs) := run f s1 ops' in (s2, r :: rs)
  end.

Lemma ring_step_refines q l o :
  holds q l →
  let '(q', r) := ring_step q o in let '(l', r') := spec_step (Queue_capacity q) l o in
  r = r' ∧ holds q' l' ∧ Queue_capacity q' = Queue_capacity q.
Proof.
  intros Hq. destruct o as [v|v| | | |]; cbn.
  - pose proof (holds_push_back q l v Hq) as H. destruct (decide _); [by rewrite H|].
    destruct H as (q' & -> & ? & ?). done.
  - pose proof (holds_push_front q l v Hq) as H. destruct (decide _); [by rewrite H|].
    destruct H as (q' & -> & ? & ?). done.
  - pose proof (holds_pop_front q l Hq) as H. destruct l as [|v l]; [by rewrite H|].
    destruct H as (q' & -> & ? & ?). done.
  - by rewrite (holds_front q l Hq).
  - by rewrite (holds_iter q l Hq).
  - destruct (holds_clear q l Hq). done.
Qed.

Lemma run_refines ops : ∀ q l,
  holds q l → (run ring_step q ops).2 = (run (spec_step (Queue_capacity q)) l ops).2.
Proof.
  induction ops as [|o ops IH]; intros q l Hq; cbn; [done|].
  pose proof (ring_step_refines q l o Hq) as H.
  destruct (ring_step q o) as [q' r], (spec_step _ l o) as [l' r']. destruct H as (-> & Hq' & Hc).
  specialize (IH q' l' Hq'). rewrite Hc in IH.
  destruct (run ring_step q' ops), (run _ l' ops). cbn in *. congruence.
Qed.

(** C38: the ring is a bounded double-ended sequence: any sequence of
    operations on a new ring of [capacity] slots returns the same values as on
    the abstract sequence, whatever wraps around, and the ring never needs
    more than its preallocated slots. *)
Theorem ring_refines_sequence (capacity : nat) (q : Ring T) (ops : list ring_op) :
  Queue_with_capacity capacity true = Ok q →
  (run ring_step q ops).2 = (run (spec_step capacity) [] ops).2.
Proof. intros [Hq <-]%holds_new. by apply run_refines. Qed.

End RingRefinement.

Arguments ring_op : clear implicits.

Definition sample_ring : Ring Z :=
  unwrap_or {| q_slots := []; q_head := 0; q_len := 0 |} (Queue_with_capacity 2 true).

Lemma ring_refines_sequence_witness :
  (run ring_step sample_ring [PushBack 1; PushFront 2; PushBack 3; PopFront; PushBack 4; Iterate]).2
  = [[None]; [None]; [Some 3]; [Some 2]; [None]; [Some 1; Some 4]].
Proof. rewrite (ring_refines_sequence 2 sample_ring _ eq_refl). reflexivity. Defined.

(** ** The bounded channel *)

Section Channel.
Context {T : Type}.

Record Channel : Type := {
  ch_messages : Ring T;
  ch_senders : Z;
  ch_closed : bool;
  ch_failed : bool;
}.

Inductive TrySendError : Type := SendDisconnected (value : T) | SendFull (value : T).
Inductive TryRecvError : Type := RecvEmpty | RecvDisconnected.

(** [available] is the outcome of the two budget reservations. *)
Definition bounded (capacity : nat) (available : bool) : result Channel :=
  messages ← Queue_with_capacity capacity available;
  Ok {| ch_messages := messages; ch_senders := 1; ch_closed := false; ch_failed := false |}.

(** A poisoned mutex fails the channel. *)
Definition State_fail (c : Channel) : Channel :=
  {| ch_messages := ch_messages c; ch_senders := ch_senders c; ch_closed := true; ch_failed := true |}.

Definition Queue_receive (c : Channel) : Channel * (T + TryRecvError) :=
  if ch_failed c then (c, inr RecvDisconnected)
  else match Queue_pop_front (ch_messages c) with
       | (m, Some value) =>
           ({| ch_messages := m; ch_senders := ch_senders c; ch_closed := ch_closed c;
               ch_failed := ch_failed c |}, inl value)
       | (_, None) =>
           (c, inr (if ch_closed c || bool_decide (ch_senders c = 0)
                    then RecvDisconnected else RecvEmpty))
       end.

Definition Sender_try_send (c : Channel) (value : T) : Channel * option TrySendError :=
  if ch_closed c then (c, Some (SendDisconnected value))
  else match Queue_try_push_back (ch_messages c) value with
       | (m, None) =>
           ({| ch_messages := m; ch_senders := ch_senders c; ch_closed := ch_closed c;
               ch_failed := ch_failed c |}, None)
       | (_, Some v) => (c, Some (SendFull v))
       end.

Definition set_senders (c : Channel) (n : Z) : Channel :=
  {| ch_messages := ch_messages c; ch_senders := n; ch_closed := ch_closed c;
     ch_failed := ch_failed c |}.

Definition Sender_clone (c : Channel) : result Channel :=
  n ← expect (checked_add 64 (ch_senders c) 1); Ok (set_senders c n).

Definition Sender_drop (c : Channel) : result Channel :=
  n ← expect (checked_sub (ch_senders c) 1); Ok (set_senders c n).

Definition Receiver_close (c : Channel) : Channel :=
  {| ch_messages := ch_messages c; ch_senders := ch_senders c; ch_closed := true;
     ch_failed := ch_failed c |}.

(** Dropping the receiver closes the channel and drains it. *)
Definition Receiver_drop (c : Channel) : Channel :=
  let c := Receiver_close c in
  {| ch_messages := Queue_clear (ch_messages c); ch_senders := ch_senders c;
     ch_closed := ch_closed c; ch_failed := ch_failed c |}.

(** A channel with the live endpoints, the messages accepted by [try_send] and
    those returned by [try_recv], both in order. *)
Record Trace : Type := {
  tr_channel : Channel;
  tr_receiver : bool;
  tr_accepted : list T;
  tr_delivered : list T;
}.

Inductive chan_step : Trace → Trace → Prop :=
  | chan_sent t value c :
      0 < ch_senders (tr_channel t) → Sender_try_send (tr_channel t) value = (c, None) →
      chan_step t {| tr_channel := c; tr_receiver := tr_receiver t;
                     tr_accepted := tr_accepted t ++ [value]; tr_delivered := tr_delivered t |}
  | chan_refused t value c e :
      Sender_try_send (tr_channel t) value = (c, Some e) →
      chan_step t {| tr_channel := c; tr_receiver := tr_receiver t;
                     tr_accepted := tr_accepted t; tr_delivered := tr_delivered t |}
  | chan_received t value c :
      tr_receiver t = true → Queue_receive (tr_channel t) = (c, inl value) →
      chan_step t {| tr_channel := c; tr_receiver := true; tr_accepted := tr_accepted t;
                     tr_delivered := tr_delivered t ++ [value] |}
  | chan_nothing t c e :
      tr_receiver t = true → Queue_receive (tr_channel t) = (c, inr e) →
      chan_step t {| tr_channel := c; tr_receiver := true; tr_accepted := tr_accepted t;
                     tr_delivered := tr_delivered t |}
  | chan_clone t c :
      0 < ch_senders (tr_channel t) → Sender_clone (tr_channel t) = Ok c →
      chan_step t {| tr_channel := c; tr_receiver := tr_receiver t;
                     tr_accepted := tr_accepted t; tr_delivered := tr_delivered t |}
  | chan_drop_sender t c :
      0 < ch_senders (tr_channel t) → Sender_drop (tr_channel t) = Ok c →
      chan_step t {| tr_channel := c; tr_receiver := tr_receiver t;
                     tr_accepted := tr_accepted t; tr_delivered := tr_delivered t |}
  | chan_close t :
      tr_receiver t = true →
      chan_step t {| tr_channel := Receiver_close (tr_channel t); tr_receiver := true;
                     tr_accepted := tr_accepted t; tr_delivered := tr_delivered t |}
  | chan_poison t :
      chan_step t {| tr_channel := State_fail (tr_channel t); tr_receiver := tr_receiver t;
                     tr_accepted := tr_accepted t; tr_delivered := tr_delivered t |}
  | chan_drop_receiver t :
      tr_receiver t = true →
      chan_step t {| tr_channel := Receiver_drop (tr_channel t); tr_receiver := false;
                     tr_accepted := tr_accepted t; tr_delivered := tr_delivered t |}.

Inductive chan_reachable (capacity : nat) : Trace → Prop :=
  | chan_start c :
      bounded capacity true = Ok c →
      chan_reachable capacity {| tr_channel := c; tr_receiver := true; tr_accepted := [];
                                 tr_delivered := [] |}
  | chan_next t t' : chan_reachable capacity t → chan_step t t' → chan_reachable capacity t'.

(** While the receiver lives, the messages in the ring are exactly the accepted
    ones not yet delivered; once it is gone the ring is empty and closed. *)
Definition chan_inv (capacity : nat) (t : Trace) : Prop :=
  ∃ l, holds (ch_messages (tr_channel t)) l ∧ Queue_capacity (ch_messages (tr_channel t)) = capacity ∧
    (if tr_receiver t then tr_accepted t = tr_delivered t ++ l
     else l = [] ∧ ch_closed (tr_channel t) = true) ∧
    (ch_failed (tr_channel t) = true → ch_closed (tr_channel t) = true).

Lemma chan_inv_step capacity t t' : chan_inv capacity t → chan_step t t' → chan_inv capacity t'.
Proof.
  intros (l & Hq & Hc & Hr & Hf) Hs.
  destruct Hs as [t v c Hs Hsend | t v c e Hsend | t v c Hrv Hrecv | t c e Hrv Hrecv
    | t c _ Hcl | t c _ Hcl | t Hrv | t | t Hrv]; unfold chan_inv; cbn.
  - unfold Sender_try_send in Hsend. destruct (ch_closed (tr_channel t)) eqn:Hcl; [done|].
    pose proof (holds_push_back _ l v Hq) as Hp. destruct (decide _); [by rewrite Hp in Hsend|].
    destruct Hp as (q' & Hp & Hq' & Hcap). rewrite Hp in Hsend. injection Hsend as <-. cbn.
    exists (l ++ [v]). rewrite Hcap. split_and!; [done | done | | done].
    destruct (tr_receiver t); [by rewrite Hr, app_assoc | by destruct Hr].
  - assert (c = tr_channel t) as ->; [|by exists l].
    unfold Sender_try_send in Hsend. destruct (ch_closed _); [by simplify_eq|].
    destruct (Queue_try_push_back _ _) as [? [?|]]; by simplify_eq.
  - rewrite Hrv in Hr. unfold Queue_receive in Hrecv. destruct (ch_failed (tr_channel t)) eqn:?; [done|].
    pose proof (holds_pop_front _ l Hq) as Hp. destruct l as [|w l]; [by rewrite Hp in Hrecv|].
    destruct Hp as (q' & Hp & Hq' & Hcap). rewrite Hp in Hrecv. injection Hrecv as <- <-. cbn.
    exists l. rewrite Hcap. split_and!; [done | done | | done]. by rewrite Hr, <- app_assoc.
  - assert (c = tr_channel t) as ->; [|by exists l; rewrite Hrv in Hr].
    unfold Queue_receive in Hrecv. destruct (ch_failed _); [by simplify_eq|].
    destruct (Queue_pop_front _) as [? [?|]]; by simplify_eq.
  - unfold Sender_clone in Hcl. destruct (checked_add _ _ _); [|done]. injection Hcl as <-. by exists l.
  - unfold Sender_drop in Hcl. destruct (checked_sub _ _); [|done]. injection Hcl as <-. by exists l.
  - rewrite Hrv in Hr. by exists l.
  - exists l. split_and!; try done. destruct (tr_receiver t); [done | by destruct Hr].
  - destruct (holds_clear _ _ Hq) as [Hq' Hcap]. exists []. split_and!; try done.
    by transitivity (Queue_capacity (ch_messages (tr_channel t))).
Qed.

Lemma chan_reachable_inv capacity t : chan_reachable capacity t → chan_inv capacity t.
Proof.
  induction 1 as [c Hc|t t' _ IH Hs]; [|by eapply chan_inv_step].
  unfold bounded in Hc. apply result_bind_ok in Hc as (m & [Hq Hcap]%holds_new & [= <-]).
  exists []. by cbn.
Qed.

(** The channel loses, duplicates and reorders nothing.  After any
    interleaving of sends, receives, clones, drops, closes and poisonings,
    while the receiver is alive the accepted messages are the delivered ones
    followed by those still queued, of which there are at most [capacity];
    and a receive that reports disconnection on a channel that has not failed
    does so only after every accepted message has been delivered. *)
Lemma channel_fifo (capacity : nat) (t : Trace) :
  chan_reachable capacity t → tr_receiver t = true →
  (∃ l, tr_accepted t = tr_delivered t ++ l ∧ holds (ch_messages (tr_channel t)) l ∧
        (length l ≤ capacity)%nat) ∧
  (Queue_receive (tr_channel t) = (tr_channel t, inr RecvDisconnected) →
   ch_failed (tr_channel t) = false →
   tr_delivered t = tr_accepted t ∧
   (ch_closed (tr_channel t) = true ∨ ch_senders (tr_channel t) = 0)).
Proof.
  intros (l & Hq & Hc & Hr & Hf)%chan_reachable_inv Hrv. rewrite Hrv in Hr. split.
  - exists l. split_and!; [done | done |]. destruct Hq as (_ & _ & H & _). by rewrite Hc in H.
  - intros Hrecv Hnf. unfold Queue_receive in Hrecv. rewrite Hnf in Hrecv.
    pose proof (holds_pop_front _ l Hq) as Hp. destruct l as [|w l].
    + rewrite Hp in Hrecv. rewrite Hr, app_nil_r. split; [done|].
      destruct (ch_closed _); [by left|]. cbn in Hrecv. right.
      destruct (bool_decide (ch_senders (tr_channel t) = 0)) eqn:E; [|done].
      by apply bool_decide_eq_true_1 in E.
    + destruct Hp as (q' & Hp & _). rewrite Hp in Hrecv. done.
Qed.

End Channel.

Arguments Channel : clear implicits.
Arguments Trace : clear implicits.

Definition sample_channel : Channel Z :=
  unwrap_or {| ch_messages := {| q_slots := []; q_head := 0; q_len := 0 |}; ch_senders := 0;
               ch_closed := true; ch_failed := true |} (bounded 2 true).

Definition sample_trace : Trace Z :=
  {| tr_channel := (Sender_try_send sample_channel 7).1; tr_receiver := true;
     tr_accepted := [7]; tr_delivered := [] |}.
