(* ===== verification/ChunkIndex.v ===== *)
(** * The chunk index

    Models [crates/cas/core/src/chunk_index.rs]: the packed chunk [Address]
    and the in-memory index from content hashes to addresses, with the mark and
    sweep operations of the collector.  The [hashbrown] table is a collection
    of entries searched by bucket and equality; what it answers about
    allocation ([try_reserve], [capacity]) is an argument of the operations
    that ask. *)
From S2P Require Import Prelude Bytes.

Abbreviation Hash := (list Z) (only parsing).

Definition MAX_SEGMENT : Z := Z.shiftl 1 48 - 1.
Definition MAX_SEGMENT_BYTES : Z := Z.shiftl 1 16 * BLOCK_SIZE.

(** ** Packed addresses *)

Record Address : Type := mkAddress { address_bits : Z }.

#[global] Instance Address_eq_dec : EqDecision Address.
Proof. solve_decision. Defined.

Definition Address_new (segment offset : Z) : result Address :=
  if bool_decide (segment = 0)
     || bool_decide (MAX_SEGMENT < segment)
     || bool_decide (offset = 0)
     || bool_decide (MAX_SEGMENT_BYTES ≤ offset)
     || negb (is_multiple_of offset BLOCK_SIZE)
  then invalid_input "chunk address out of range"
  else Ok (mkAddress (Z.lor (Z.shiftl segment 16) (offset / BLOCK_SIZE))).

Definition Address_segment (a : Address) : Z := Z.shiftr (address_bits a) 16.
Definition Address_offset (a : Address) : Z := Z.land (address_bits a) 65535 * BLOCK_SIZE.

(** ** The index *)

Record Entry : Type := {
  entry_hash : Hash;
  entry_address : Address;
  entry_marked : bool;
}.

(** The entries of the hash table, in no particular order. *)
Record Index : Type := { table : list Entry }.

Definition bucket (hash : Hash) : Z := u64_at hash 0.

(** The test of [HashTable::find]: the bucket first, then the equality. *)
Definition probes (hash : Hash) (entry : Entry) : bool :=
  bool_decide (bucket (entry_hash entry) = bucket hash) && bool_decide (entry_hash entry = hash).

Definition Index_new : Index := {| table := [] |}.

Definition Index_len (s : Index) : Z := Z.of_nat (length (table s)).

Definition Index_get (s : Index) (hash : Hash) : option Address :=
  entry_address <$> find_first (probes hash) (table s).

(** [reserved] is what [try_reserve] obtains from the metadata budget: [None]
    when it is refused, otherwise the capacity of the table afterwards. *)
Definition Index_reserve (reserved : option Z) : result Z :=
  ok_or (Error OutOfMemory "chunk index metadata budget exhausted") reserved.

Definition Index_insert_reserved (s : Index) (capacity : Z) (hash : Hash) (address : Address)
    : result (Index * Address) :=
  match Index_get s hash with
  | Some existing => Ok (s, existing)
  | None =>
      if decide (Index_len s < capacity) then
        Ok ({| table := {| entry_hash := hash; entry_address := address; entry_marked := false |}
                        :: table s |}, address)
      else Panic
  end.

Definition Index_insert (s : Index) (reserved : option Z) (hash : Hash) (address : Address)
    : result (Index * Address) :=
  match Index_get s hash with
  | Some existing => Ok (s, existing)
  | None =>
      capacity ← Index_reserve reserved;
      Index_insert_reserved s capacity hash address
  end.

Definition set_address (a : Address) (e : Entry) : Entry :=
  {| entry_hash := entry_hash e; entry_address := a; entry_marked := entry_marked e |}.

Definition set_marked (m : bool) (e : Entry) : Entry :=
  {| entry_hash := entry_hash e; entry_address := entry_address e; entry_marked := m |}.

Definition Index_relocate (s : Index) (hash : Hash) (old new : Address) : result Index :=
  match find_first (probes hash) (table s) with
  | Some entry =>
      if decide (entry_address entry = old)
      then Ok {| table := update_first (probes hash) (set_address new) (table s) |}
      else other "chunk location changed during relocation"
  | None => other "chunk location changed during relocation"
  end.

Definition Index_clear_marks (s : Index) : Index := {| table := set_marked false <$> table s |}.

Definition Index_mark (s : Index) (hash : Hash) : result Index :=
  match find_first (probes hash) (table s) with
  | Some _ => Ok {| table := update_first (probes hash) (set_marked true) (table s) |}
  | None => other "manifest references a missing chunk"
  end.

Definition Index_entries (s : Index) : list (Hash * Address * bool) :=
  (λ e, (entry_hash e, entry_address e, entry_marked e)) <$> table s.

Definition Index_marked_at (s : Index) (hash : Hash) (address : Address) : bool :=
  is_some_and (find_first (probes hash) (table s))
    (λ e, entry_marked e && bool_decide (entry_address e = address)).

Definition Index_remove_unmarked (s : Index) : Index :=
  {| table := filter (λ e, entry_marked e = true) (table s) |}.

(** ** Addresses *)

Lemma shiftl_lor_add a b n : 0 ≤ n → 0 ≤ b < 2 ^ n → Z.lor (Z.shiftl a n) b = a * 2 ^ n + b.
Proof.
  intros Hn Hb. rewrite Z.shiftl_mul_pow2 by lia.
  rewrite <- (Z.add_lor_land (a * 2 ^ n) b).
  replace (Z.land (a * 2 ^ n) b) with 0; [by rewrite Z.add_0_r|].
  destruct (decide (b = 0)) as [->|]; [by rewrite Z.land_0_r|].
  apply Z.bits_inj'. intros i Hi. rewrite Z.bits_0, Z.land_spec.
  destruct (decide (i < n)).
  - by rewrite Z.mul_pow2_bits_low by lia.
  - rewrite (Z.bits_above_log2 b i); [by rewrite andb_false_r | lia |].
    apply Z.log2_lt_pow2; [lia|].
    apply Z.lt_le_trans with (2 ^ n); [lia|]. apply Z.pow_le_mono_r; lia.
Qed.

(** Packing an address loses nothing: an address accepted by
    [Address::new] fits a [u64], gives back the segment and the offset it was
    made from, and [Address::new] refuses exactly the pairs out of range. *)
Lemma address_roundtrip (segment offset : Z) :
  fits 64 segment → fits 64 offset →
  if decide (0 < segment ≤ MAX_SEGMENT ∧ 0 < offset < MAX_SEGMENT_BYTES ∧ offset mod BLOCK_SIZE = 0)
  then ∃ a, Address_new segment offset = Ok a ∧ fits 64 (address_bits a) ∧
            Address_segment a = segment ∧ Address_offset a = offset
  else Address_new segment offset = invalid_input "chunk address out of range".
Proof.
  intros [Hs _] [Ho _]. unfold Address_new. destruct (_ || _) eqn:E.
  - rewrite decide_False; [done|]. intros (H1 & H2 & H3%is_multiple_of_spec).
    rewrite H3 in E. rewrite !bool_decide_eq_false_2 in E by lia. done.
  - breflect. match goal with H : is_multiple_of _ _ = true |- _ => apply is_multiple_of_spec in H end.
    rewrite decide_True by lia. eexists. split; [done|].
    unfold Address_segment, Address_offset, MAX_SEGMENT, MAX_SEGMENT_BYTES, BLOCK_SIZE in *.
    cbn [address_bits]. change (Z.shiftl 1 48 - 1) with (2 ^ 48 - 1) in *.
    change (Z.shiftl 1 16 * 4096) with (2 ^ 16 * 4096) in *.
    pose proof (Z.div_mod offset 4096 ltac:(lia)).
    assert (0 ≤ offset / 4096 < 2 ^ 16) by (split; [apply Z.div_pos | apply Z.div_lt_upper_bound]; lia).
    rewrite shiftl_lor_add, Z.shiftr_div_pow2 by lia.
    change 65535 with (Z.ones 16). rewrite Z.land_ones by lia. unfold fits.
    split_and!; [nia | nia | | ].
    + rewrite Z.div_add_l, Z.div_small by lia. lia.
    + rewrite Z.add_comm, Z.mod_add, Z.mod_small by lia. lia.
Qed.

(** ** Refinement to a finite map *)

(** The abstract index maps a hash to its address and its mark. *)
Definition entries_map (l : list Entry) : gmap Hash (Address * bool) :=
  list_to_map ((λ e, (entry_hash e, (entry_address e, entry_marked e))) <$> l).

Definition abs (s : Index) : gmap Hash (Address * bool) := entries_map (table s).

(** No hash has two entries. *)
Definition Index_wf (s : Index) : Prop := NoDup (entry_hash <$> table s).

Lemma probes_spec hash e : probes hash e = true ↔ entry_hash e = hash.
Proof.
  unfold probes. rewrite andb_true_iff, !bool_decide_eq_true. split; [tauto|]. by intros <-.
Qed.

Lemma entries_map_cons e l :
  entries_map (e :: l) = <[entry_hash e := (entry_address e, entry_marked e)]> (entries_map l).
Proof. done. Qed.

Lemma entries_map_lookup l hash :
  entries_map l !! hash =
  (λ e, (entry_address e, entry_marked e)) <$> find_first (probes hash) l.
Proof.
  induction l as [|e l IH]; [done|]. rewrite entries_map_cons. cbn.
  destruct (probes hash e) eqn:E.
  - apply probes_spec in E as <-. by rewrite lookup_insert_eq.
  - rewrite lookup_insert_ne; [done|]. intros Heq%probes_spec. congruence.
Qed.

Lemma Index_get_abs s hash : Index_get s hash = fst <$> abs s !! hash.
Proof. unfold Index_get, abs. rewrite entries_map_lookup. by destruct (find_first _ _). Qed.

Lemma Index_marked_at_abs s hash a :
  Index_marked_at s hash a = bool_decide (abs s !! hash = Some (a, true)).
Proof.
  unfold Index_marked_at, abs. rewrite entries_map_lookup.
  destruct (find_first _ _) as [[h a' []]|]; cbn; [| |done].
  - apply bool_decide_ext. naive_solver.
  - by rewrite bool_decide_eq_false_2.
Qed.

Lemma update_first_hashes hash f l :
  (∀ e, entry_hash (f e) = entry_hash e) →
  entry_hash <$> update_first (probes hash) f l = entry_hash <$> l.
Proof.
  intros Hf. induction l as [|e l IH]; [done|]. cbn.
  destruct (probes hash e); cbn; [by rewrite Hf | by rewrite IH].
Qed.

Lemma entries_map_update hash f l e :
  (∀ e, entry_hash (f e) = entry_hash e) → find_first (probes hash) l = Some e →
  entries_map (update_first (probes hash) f l) =
  <[hash := (entry_address (f e), entry_marked (f e))]> (entries_map l).
Proof.
  intros Hf. induction l as [|x l IH]; cbn [find_first update_first]; [done|].
  rewrite entries_map_cons.
  destruct (probes hash x) eqn:E.
  - intros [= ->]. apply probes_spec in E as <-. rewrite insert_insert_eq.
    by rewrite entries_map_cons, Hf.
  - intros H. rewrite entries_map_cons, IH by done. apply insert_insert_ne. intros Heq%probes_spec. congruence.
Qed.

Lemma Index_mark_abs s hash :
  match abs s !! hash with
  | Some (a, _) => ∃ s', Index_mark s hash = Ok s' ∧ abs s' = <[hash := (a, true)]> (abs s) ∧
                         (Index_wf s → Index_wf s')
  | None => Index_mark s hash = other "manifest references a missing chunk"
  end.
Proof.
  unfold abs, Index_mark, Index_wf. rewrite entries_map_lookup.
  destruct (find_first _ _) as [e|] eqn:E; cbn; [|done].
  eexists. split; [done|]. cbn [table]. rewrite (entries_map_update _ _ _ e) by done.
  by rewrite update_first_hashes.
Qed.

Lemma Index_relocate_abs s hash old new :
  match abs s !! hash with
  | Some (a, m) =>
      if decide (a = old)
      then ∃ s', Index_relocate s hash old new = Ok s' ∧ abs s' = <[hash := (new, m)]> (abs s) ∧
                 (Index_wf s → Index_wf s')
      else Index_relocate s hash old new = other "chunk location changed during relocation"
  | None => Index_relocate s hash old new = other "chunk location changed during relocation"
  end.
Proof.
  unfold abs, Index_relocate, Index_wf. rewrite entries_map_lookup.
  destruct (find_first _ _) as [e|] eqn:E; cbn; [|done]. destruct (decide _); [|done].
  eexists. split; [done|]. cbn [table]. rewrite (entries_map_update _ _ _ e) by done.
  by rewrite update_first_hashes.
Qed.

Lemma Index_clear_marks_abs s :
  abs (Index_clear_marks s) = (λ x, (x.1, false)) <$> abs s.
Proof.
  unfold abs, Index_clear_marks. cbn [table]. induction (table s) as [|e l IH]; [done|].
  rewrite fmap_cons, !entries_map_cons, fmap_insert. cbn. f_equal. exact IH.
Qed.

Lemma find_first_filter_nodup hash l :
  NoDup (entry_hash <$> l) →
  find_first (probes hash) (filter (λ e, entry_marked e = true) l) =
  (e ← find_first (probes hash) l; if entry_marked e then Some e else None).
Proof.
  induction l as [|e l IH]; [done|]. cbn [fmap list_fmap]. intros [Hn Hd]%NoDup_cons.
  rewrite filter_cons. destruct (decide (entry_marked e = true)) as [Hm|Hm]; cbn.
  - destruct (probes hash e); cbn; [by rewrite Hm | by apply IH].
  - rewrite IH by done. destruct (probes hash e) eqn:E; cbn; [|done].
    apply probes_spec in E as <-. destruct (find_first _ l) as [e'|] eqn:E'.
    + apply find_first_Some in E' as [Hin Hp%probes_spec]. destruct Hn.
      rewrite <- Hp. by apply list_elem_of_fmap_2.
    + cbn. by destruct (entry_marked e).
Qed.

Lemma Index_remove_unmarked_abs s hash :
  Index_wf s →
  abs (Index_remove_unmarked s) !! hash =
  (x ← abs s !! hash; if (x : Address * bool).2 then Some x else None).
Proof.
  intros Hw. unfold abs, Index_remove_unmarked. cbn [table]. rewrite !entries_map_lookup.
  rewrite find_first_filter_nodup by done.
  destruct (find_first _ _) as [e|]; cbn; [|done]. destruct (entry_marked e) eqn:E; cbn; by rewrite ?E.
Qed.

Lemma Index_wf_remove s : Index_wf s → Index_wf (Index_remove_unmarked s).
Proof.
  unfold Index_wf, Index_remove_unmarked. cbn. intros Hw.
  revert Hw. induction (table s) as [|e l IH]; [done|]. cbn [fmap list_fmap].
  intros [Hn Hd]%NoDup_cons. rewrite filter_cons. case_decide; [|by apply IH].
  cbn [fmap list_fmap]. apply NoDup_cons. split; [|by apply IH].
  intros (e' & He & [_ Hin]%list_elem_of_filter)%list_elem_of_fmap. apply Hn.
  rewrite He. by apply list_elem_of_fmap_2.
Qed.

Lemma Index_wf_clear s : Index_wf s → Index_wf (Index_clear_marks s).
Proof. unfold Index_wf, Index_clear_marks. cbn. by rewrite <- list_fmap_compose. Qed.

Lemma Index_insert_reserved_abs s capacity hash a :
  Index_wf s → Index_len s < capacity →
  ∃ s' a', Index_insert_reserved s capacity hash a = Ok (s', a') ∧ Index_wf s' ∧
    match abs s !! hash with
    | Some x => s' = s ∧ a' = x.1
    | None => abs s' = <[hash := (a, false)]> (abs s) ∧ a' = a
    end.
Proof.
  intros Hw Hc. unfold Index_insert_reserved. rewrite Index_get_abs.
  destruct (abs s !! hash) as [[a' m]|] eqn:E; cbn [fmap option_fmap option_map]; [by eexists _, _|].
  rewrite decide_True by done. eexists _, _. split; [done|].
  split; [|by unfold abs; cbn [table]; rewrite entries_map_cons].
  unfold Index_wf. cbn. apply NoDup_cons. split; [|done].
  intros (e & He & Hin)%list_elem_of_fmap. unfold abs in E. rewrite entries_map_lookup in E.
  destruct (find_first _ _) as [|] eqn:Ef; [done|].
  apply (proj1 (find_first_None _ _)) with e in Ef; [|done].
  assert (probes hash e = true) by (by apply probes_spec). congruence.
Qed.

(** ** Operation sequences *)

Inductive index_op : Type :=
  | OpInsert (hash : Hash) (address : Address) (reserved : option nat)
  | OpRelocate (hash : Hash) (old new : Address)
  | OpMark (hash : Hash)
  | OpClearMarks
  | OpRemoveUnmarked
  | OpGet (hash : Hash)
  | OpMarkedAt (hash : Hash) (address : Address).

Inductive index_output : Type :=
  | OutUnit (r : result unit)
  | OutAddress (r : result (option Address))
  | OutBool (b : bool).

(** Keep the state when an operation fails. *)
Definition keep {S A} (s : S) (r : result S) (f : result unit → A) : S * A :=
  match r with Ok s' => (s', f (Ok tt)) | Err e => (s, f (Err e)) | Panic => (s, f Panic) end.

(** [reserved = Some spare] is a table that grew to [spare] free places beyond
    the one that was asked for. *)
Definition index_step (s : Index) (op : index_op) : Index * index_output :=
  match op with
  | OpInsert hash a reserved =>
      match Index_insert s ((λ spare, Index_len s + 1 + Z.of_nat spare) <$> reserved) hash a with
      | Ok (s', a') => (s', OutAddress (Ok (Some a')))
      | Err e => (s, OutAddress (Err e))
      | Panic => (s, OutAddress Panic)
      end
  | OpRelocate hash old new => keep s (Index_relocate s hash old new) OutUnit
  | OpMark hash => keep s (Index_mark s hash) OutUnit
  | OpClearMarks => (Index_clear_marks s, OutUnit (Ok tt))
  | OpRemoveUnmarked => (Index_remove_unmarked s, OutUnit (Ok tt))
  | OpGet hash => (s, OutAddress (Ok (Index_get s hash)))
  | OpMarkedAt hash a => (s, OutBool (Index_marked_at s hash a))
  end.

(** The abstract index: a finite map from hashes to an address and a mark. *)
Definition map_step (m : gmap Hash (Address * bool)) (op : index_op)
    : gmap Hash (Address * bool) * index_output :=
  match op with
  | OpInsert hash a reserved =>
      match m !! hash, reserved with
      | Some x, _ => (m, OutAddress (Ok (Some x.1)))
      | None, Some _ => (<[hash := (a, false)]> m, OutAddress (Ok (Some a)))
      | None, None => (m, OutAddress (out_of_memory "chunk index metadata budget exhausted"))
      end
  | OpRelocate hash old new =>
      match m !! hash with
      | Some (a, b) => if decide (a = old) then (<[hash := (new, b)]> m, OutUnit (Ok tt))
                       else (m, OutUnit (other "chunk location changed during relocation"))
      | None => (m, OutUnit (other "chunk location changed during relocation"))
      end
  | OpMark hash =>
      match m !! hash with
      | Some (a, _) => (<[hash := (a, true)]> m, OutUnit (Ok tt))
      | None => (m, OutUnit (other "manifest references a missing chunk"))
      end
  | OpClearMarks => ((λ x, (x.1, false)) <$> m, OutUnit (Ok tt))
  | OpRemoveUnmarked => (filter (λ x, x.2.2 = true) m, OutUnit (Ok tt))
  | OpGet hash => (m, OutAddress (Ok (fst <$> m !! hash)))
  | OpMarkedAt hash a => (m, OutBool (bool_decide (m !! hash = Some (a, true))))
  end.

Fixpoint outputs {S} (step : S → index_op → S * index_output) (s : S) (ops : list index_op)
    : list index_output :=
  match ops with
  | [] => []
  | op :: ops' => let '(s', o) := step s op in o :: outputs step s' ops'
  end.

Lemma index_step_refines s op :
  Index_wf s →
  Index_wf (index_step s op).1 ∧ map_step (abs s) op = (abs (index_step s op).1, (index_step s op).2).
Proof.
  intros Hw. destruct op as [hash a reserved|hash old new|hash| | |hash|hash a];
    cbn [index_step map_step fst snd].
  - unfold Index_insert. rewrite Index_get_abs.
    destruct (abs s !! hash) as [x|] eqn:E; [done|].
    destruct reserved as [spare|]; [|done].
    destruct (Index_insert_reserved_abs s (Index_len s + 1 + Z.of_nat spare) hash a Hw ltac:(lia))
      as (s' & a' & Hi & Hw' & H).
    rewrite E in H. destruct H as [H ->]. unfold Index_reserve. cbn. rewrite Hi. cbn. by rewrite H.
  - pose proof (Index_relocate_abs s hash old new) as H.
    destruct (abs s !! hash) as [[a m]|]; [|by rewrite H]. destruct (decide _); [|by rewrite H].
    destruct H as (s' & -> & Ha & Hw'). cbn. rewrite Ha. auto.
  - pose proof (Index_mark_abs s hash) as H.
    destruct (abs s !! hash) as [[a m]|]; [|by rewrite H].
    destruct H as (s' & -> & Ha & Hw'). cbn. rewrite Ha. auto.
  - split; [by apply Index_wf_clear|]. by rewrite Index_clear_marks_abs.
  - split; [by apply Index_wf_remove|]. f_equal. apply map_eq. intros hash.
    rewrite Index_remove_unmarked_abs by done. rewrite map_lookup_filter.
    destruct (abs s !! hash) as [[a []]|]; done.
  - by rewrite Index_get_abs.
  - by rewrite Index_marked_at_abs.
Qed.

Lemma outputs_refine ops : ∀ s,
  Index_wf s → outputs index_step s ops = outputs map_step (abs s) ops.
Proof.
  induction ops as [|op ops IH]; intros s Hw; [done|]. cbn.
  destruct (index_step_refines s op Hw) as [Hw' ->]. destruct (index_step s op) as [s' o].
  cbn in *. by rewrite IH.
Qed.

(** C35: the hash table refines a finite map: from the empty index, any
    sequence of insertions (with any answers of the allocator), relocations,
    marks, mark resets, sweeps and queries returns what the same operations on
    a map from hashes to an address and a mark return, errors included;
    in particular a duplicate publication keeps the first address. *)
Theorem index_refines_map (ops : list index_op) :
  outputs index_step Index_new ops = outputs map_step ∅ ops.
Proof. rewrite outputs_refine; [done|]. apply NoDup_nil_2. Qed.

(** ** Mark and sweep *)

Fixpoint mark_all (s : Index) (roots : list Hash) : result Index :=
  match roots with
  | [] => Ok s
  | hash :: roots' => s' ← Index_mark s hash; mark_all s' roots'
  end.

Lemma mark_all_abs roots : ∀ s,
  Index_wf s →
  (if decide (Forall (λ h, is_Some (abs s !! h)) roots)
   then ∃ s', mark_all s roots = Ok s' ∧ Index_wf s' ∧
        ∀ h, abs s' !! h = (λ x, (x.1, bool_decide (h ∈ roots) || x.2)) <$> abs s !! h
   else mark_all s roots = other "manifest references a missing chunk").
Proof.
  induction roots as [|r roots IH]; intros s Hw; cbn [mark_all].
  - rewrite decide_True by constructor. exists s. split_and!; [done | done |].
    intros h. rewrite bool_decide_eq_false_2 by apply not_elem_of_nil.
    by destruct (abs s !! h) as [[]|].
  - pose proof (Index_mark_abs s r) as Hm. destruct (abs s !! r) as [[a m]|] eqn:Er.
    2:{ rewrite decide_False, Hm; [done|]. intros [[x Hx] _]%Forall_cons. congruence. }
    destruct Hm as (s1 & -> & Ha & Hw1). cbn [mbind result_mbind result_bind]. specialize (IH s1 (Hw1 Hw)).
    assert (Hd : ∀ h, is_Some (abs s1 !! h) ↔ is_Some (abs s !! h)).
    { intros h. rewrite Ha. destruct (decide (h = r)) as [->|].
      - rewrite lookup_insert_eq, Er. by split; eauto.
      - by rewrite lookup_insert_ne. }
    erewrite (decide_ext _ (Forall (λ h, is_Some (abs s1 !! h)) roots)).
    2:{ rewrite Forall_cons, Er. split; [intros [_ H]|intros H; split; [eauto|]];
        (eapply Forall_impl; [exact H|]; intros h Hh; by apply Hd). }
    destruct (decide _); [|done]. destruct IH as (s' & -> & Hw' & IH).
    exists s'. split_and!; [done | done |]. intros h. rewrite IH, Ha.
    destruct (decide (h = r)) as [->|Hne].
    + rewrite lookup_insert_eq, Er. cbn. rewrite orb_true_r, bool_decide_eq_true_2 by (by left). done.
    + rewrite lookup_insert_ne by done. destruct (abs s !! h) as [[]|]; cbn; [|done].
      do 3 f_equal. apply bool_decide_ext. rewrite elem_of_cons. tauto.
Qed.

(** C23: a collection keeps exactly what is referenced: resetting the marks,
    marking every root and sweeping succeeds if and only if every root is in
    the index, and then a hash keeps its address if it is a root and is gone
    otherwise. *)
Theorem collection_keeps_roots (s : Index) (roots : list Hash) :
  Index_wf s →
  match mark_all (Index_clear_marks s) roots with
  | Ok s' => Index_wf (Index_remove_unmarked s') ∧
             (∀ h, h ∈ roots → is_Some (Index_get s h)) ∧
             ∀ h, Index_get (Index_remove_unmarked s') h =
                  if decide (h ∈ roots) then Index_get s h else None
  | Err e => e = Error Other "manifest references a missing chunk" ∧
             ∃ h, h ∈ roots ∧ Index_get s h = None
  | Panic => False
  end.
Proof.
  intros Hw. pose proof (mark_all_abs roots _ (Index_wf_clear s Hw)) as H.
  rewrite Index_clear_marks_abs in H. destruct (decide _) as [Hf|Hf].
  - destruct H as (s' & -> & Hw' & H). rewrite Forall_forall in Hf. split_and!.
    + by apply Index_wf_remove.
    + intros h Hh. rewrite Index_get_abs. apply Hf in Hh. rewrite lookup_fmap in Hh.
      destruct (abs s !! h); [eauto | by destruct Hh].
    + intros h. rewrite !Index_get_abs, Index_remove_unmarked_abs, H, lookup_fmap by done.
      destruct (abs s !! h) as [[a m]|]; cbn; [|by case_decide].
      rewrite orb_false_r. case_bool_decide; by case_decide.
  - rewrite H. split; [done|]. apply not_Forall_Exists in Hf; [|apply _].
    apply Exists_exists in Hf as (h & Hh & Hn). exists h. split; [done|].
    rewrite Index_get_abs. unfold compose in Hn. rewrite lookup_fmap in Hn.
    destruct (abs s !! h); [|done]. destruct Hn. eauto.
Qed.

Definition sample_index : Index := {| table :=
  [ {| entry_hash := replicate 32 1; entry_address := mkAddress 65537; entry_marked := true |};
    {| entry_hash := replicate 32 2; entry_address := mkAddress 65538; entry_marked := false |} ] |}.

Lemma collection_keeps_roots_witness :
  match mark_all (Index_clear_marks sample_index) [replicate 32 2] with
  | Ok s' => Index_get (Index_remove_unmarked s') (replicate 32 2) = Some (mkAddress 65538) ∧
             Index_get (Index_remove_unmarked s') (replicate 32 1) = None
  | _ => False
  end.
Proof.
  pose proof (collection_keeps_roots sample_index [replicate 32 2] ltac:(decide_now)) as H.
  destruct (mark_all _ _) as [s'| |] eqn:E.
  - destruct H as (_ & _ & H). rewrite !H. split; reflexivity.
  - vm_compute in E. discriminate E.
  - destruct H.
Defined.
