(* ===== verification/StoreFormat.v ===== *)
(** * The chunk store: byte layout of segments and batches

    Models [crates/cas/core/src/store/format.rs] and
    [crates/cas/core/src/chunk.rs]: the chunk segment header, the batch header
    with its descriptor slots, the packing [Builder], which is reused for the
    next batch once a batch is written, and payload verification.  The theorems
    show that segment headers have exactly one encoding and that every sealed
    batch, from a new or a reused buffer, decodes to the chunks packed into it. *)
From S2P Require Import Prelude Bytes ChunkIndex.

Definition MAX_CHUNKS : Z := 63.
Definition MAX_BATCH_BYTES : Z := (MAX_CHUNKS + 1) * BLOCK_SIZE.

Definition SEGMENT_MAGIC : bytes := Eval vm_compute in ascii_bytes "CASCHS02".
Definition BATCH_MAGIC : bytes := Eval vm_compute in ascii_bytes "CASCHB02".

(** ** Chunks *)

Definition nonzero_hash `{Blake3} (b : bytes) : option bytes :=
  if negb (all_zero b) then Some (blake3_hash b) else None.

Record Chunk : Type := {
  chunk_bytes : bytes;
  chunk_hash : Hash;
}.

Definition Chunk_new `{Blake3} (b : bytes) : option Chunk :=
  hash ← nonzero_hash b;
  Some {| chunk_bytes := b; chunk_hash := hash |}.

(** ** Segment header *)

Record SegmentHeader : Type := {
  cs_store : bytes;
  cs_number : Z;
  cs_capacity : Z;
}.

Definition SegmentHeader_ok (h : SegmentHeader) : Prop :=
  blen (cs_store h) = 16 ∧ bytes_ok (cs_store h) ∧ fits 64 (cs_number h) ∧ fits 64 (cs_capacity h).

#[global] Instance ChunkSegmentHeader_ok_dec h : Decision (SegmentHeader_ok h).
Proof. unfold SegmentHeader_ok. apply _. Defined.

Definition SegmentHeader_validate (h : SegmentHeader) : result unit :=
  require (bool_decide (cs_store h ≠ zeros 16)) "empty chunk store identity";;
  require (bool_decide (1 ≤ cs_number h ≤ MAX_SEGMENT)) "chunk segment number";;
  require (bool_decide (3 * BLOCK_SIZE ≤ cs_capacity h)
           && bool_decide (cs_capacity h ≤ MAX_SEGMENT_BYTES)
           && is_multiple_of (cs_capacity h) BLOCK_SIZE) "chunk segment capacity".

(** [b] is the output buffer, which is cleared first. *)
Definition SegmentHeader_encode_into `{Crc32} (h : SegmentHeader) (b : bytes) : result bytes :=
  SegmentHeader_validate h;;
  require (bool_decide (blen b = BLOCK_SIZE)) "chunk segment output size";;
  let b := zeros (blen b) in
  let b := splice 0 SEGMENT_MAGIC b in
  let b := put32 b 8 2 in
  let b := put32 b 12 BLOCK_SIZE in
  let b := splice 16 (cs_store h) b in
  let b := put64 b 56 (cs_number h) in
  let b := put64 b 64 (cs_capacity h) in
  let b := put32 b 4092 (checksum b 4092) in
  Ok b.

Definition SegmentHeader_decode `{Crc32} (b : bytes) : result SegmentHeader :=
  require (bool_decide (blen b = BLOCK_SIZE)) "chunk segment header size";;
  require (bool_decide (slice 0 8 b = SEGMENT_MAGIC) && bool_decide (u32_at b 8 = 2)
           && bool_decide (u32_at b 12 = BLOCK_SIZE)) "chunk segment version";;
  require (bool_decide (u32_at b 4092 = checksum b 4092)) "chunk segment CRC";;
  require (all_zero (slice 32 24 b ++ slice 72 4020 b)) "chunk segment reserved bytes";;
  let header := {|
    cs_store := slice 16 16 b;
    cs_number := u64_at b 56;
    cs_capacity := u64_at b 64;
  |} in
  SegmentHeader_validate header;;
  Ok header.

(** ** Batch header *)

Record Descriptor : Type := {
  cd_hash : Hash;
  cd_payload_offset : Z;
  cd_crc : Z;
}.

Definition Descriptor_decode (b : bytes) : Descriptor := {|
  cd_hash := slice 0 32 b;
  cd_payload_offset := u32_at b 32;
  cd_crc := u32_at b 40;
|}.

Record Header : Type := {
  ch_bytes : bytes;
  ch_count : Z;
}.

(** The descriptor loop of [Header::decode]. *)
Fixpoint check_slots (i : Z) (slots : list bytes) : result unit :=
  match slots with
  | [] => Ok tt
  | slot :: slots' =>
      require (bool_decide (u32_at slot 32 = i * BLOCK_SIZE)
               && bool_decide (u32_at slot 36 = BLOCK_SIZE)) "chunk payload coverage";;
      require (all_zero (drop 44 slot)) "chunk descriptor reserved bytes";;
      check_slots (i + 1) slots'
  end.

Definition Header_decode `{Crc32} (b : bytes) : result Header :=
  require (bool_decide (blen b = BLOCK_SIZE)) "chunk batch header size";;
  require (bool_decide (slice 0 8 b = BATCH_MAGIC) && bool_decide (u16_at b 8 = 2)
           && bool_decide (u16_at b 10 = 1)) "chunk batch version/kind";;
  require (bool_decide (u32_at b 56 = checksum b 56)) "chunk batch CRC";;
  let count := u16_at b 12 in
  require (bool_decide (1 ≤ count ≤ MAX_CHUNKS)) "chunk descriptor count";;
  require (bool_decide (u16_at b 14 = 0) && bool_decide (u32_at b 60 = 0))
    "chunk envelope reserved bytes";;
  require (bool_decide (1 ≤ u64_at b 16 ≤ MAX_SEGMENT) && bool_decide (u64_at b 24 ≠ 0))
    "chunk batch identity";;
  require (bool_decide (u32_at b 36 = count * BLOCK_SIZE)
           && bool_decide (u32_at b 32 = (count + 1) * BLOCK_SIZE)) "chunk batch length";;
  let first := u64_at b 40 in
  require (bool_decide (first ≠ 0)
           && bool_decide (checked_add 64 first (count - 1) = Some (u64_at b 48)))
    "chunk ordinal bounds";;
  let used := 64 + 64 * count in
  require (all_zero (drop (Z.to_nat used) b)) "unused chunk descriptors";;
  check_slots 0 (as_chunks 64 (slice 64 (64 * count) b));;
  Ok {| ch_bytes := b; ch_count := count |}.

Definition Header_segment (h : Header) : Z := u64_at (ch_bytes h) 16.
Definition Header_batch (h : Header) : Z := u64_at (ch_bytes h) 24.
Definition Header_first (h : Header) : Z := u64_at (ch_bytes h) 40.
Definition Header_last (h : Header) : Z := u64_at (ch_bytes h) 48.
Definition Header_payload_bytes (h : Header) : Z := ch_count h * BLOCK_SIZE.

Definition Header_descriptors (h : Header) : list Descriptor :=
  Descriptor_decode <$> as_chunks 64 (slice 64 (64 * ch_count h) (ch_bytes h)).

(** The slice of [payload] panics when it is out of range. *)
Fixpoint verify_descriptors `{Crc32} (ds : list Descriptor) (payload : bytes) : result unit :=
  match ds with
  | [] => Ok tt
  | d :: ds' =>
      let start := cd_payload_offset d in
      (if decide (start + BLOCK_SIZE ≤ blen payload)
       then require (bool_decide (crc_hash (slice start BLOCK_SIZE payload) = cd_crc d))
              "chunk payload CRC"
       else Panic);;
      verify_descriptors ds' payload
  end.

Definition Header_verify_payload `{Crc32} (h : Header) (payload : bytes) : result unit :=
  require (bool_decide (blen payload = Header_payload_bytes h)) "chunk payload length";;
  verify_descriptors (Header_descriptors h) payload.

(** ** Packing *)

Record Builder : Type := {
  cb_buffer : bytes;
  cb_count : Z;
}.

(** [AlignedBuffer::try_new_in]; [available] is the answer of the allocator. *)
Definition AlignedBuffer_try_new_in (length : Z) (available : bool) : result bytes :=
  if bool_decide (length = 0) || negb (is_multiple_of length BLOCK_SIZE)
  then invalid_input "unaligned buffer length"
  else if available then Ok (zeros length) else out_of_memory "aligned buffer allocation denied".

Definition Builder_try_new_in (capacity : Z) (available : bool) : result Builder :=
  require (bool_decide (1 ≤ capacity ≤ MAX_CHUNKS)) "chunk packing capacity";;
  buffer ← AlignedBuffer_try_new_in ((capacity + 1) * BLOCK_SIZE) available;
  Ok {| cb_buffer := buffer; cb_count := 0 |}.

Definition Builder_allocated_bytes (s : Builder) : Z := blen (cb_buffer s).

Definition Builder_push `{Crc32} (s : Builder) (chunk : Chunk) : result Builder :=
  require (bool_decide ((cb_count s + 2) * BLOCK_SIZE ≤ Builder_allocated_bytes s))
    "chunk batch full";;
  let b := cb_buffer s in
  let offset := cb_count s * BLOCK_SIZE in
  let b := splice (BLOCK_SIZE + offset) (chunk_bytes chunk) b in
  let slot := slice (64 + cb_count s * 64) 64 b in
  let slot := splice 0 (chunk_hash chunk) slot in
  let slot := put32 slot 32 offset in
  let slot := put32 slot 36 BLOCK_SIZE in
  let slot := put32 slot 40 (crc_hash (chunk_bytes chunk)) in
  let b := splice (64 + cb_count s * 64) slot b in
  Ok {| cb_buffer := b; cb_count := cb_count s + 1 |}.

Record Batch : Type := {
  cbt_buffer : bytes;
  cbt_count : Z;
}.

(** The envelope [seal] writes over the header block [b]. *)
Definition seal_header `{Crc32} (count segment batch first last : Z) (b : bytes) : bytes :=
  let b := splice 0 BATCH_MAGIC b in
  let b := put16 b 8 2 in
  let b := put16 b 10 1 in
  let b := put16 b 12 count in
  let b := put64 b 16 segment in
  let b := put64 b 24 batch in
  let b := put32 b 32 ((count + 1) * BLOCK_SIZE) in
  let b := put32 b 36 (count * BLOCK_SIZE) in
  let b := put64 b 40 first in
  let b := put64 b 48 last in
  put32 b 56 (checksum b 56).

Definition Builder_seal `{Crc32} (s : Builder) (segment batch first : Z) : result Batch :=
  require (bool_decide (cb_count s ≠ 0) && bool_decide (first ≠ 0) && bool_decide (batch ≠ 0)
           && bool_decide (1 ≤ segment ≤ MAX_SEGMENT)) "empty chunk batch identity";;
  last ← ok_or (Error Other "chunk ordinals exhausted") (checked_add 64 first (cb_count s - 1));
  let b := seal_header (cb_count s) segment batch first last (slice 0 BLOCK_SIZE (cb_buffer s)) in
  Ok {| cbt_buffer := splice 0 b (cb_buffer s); cbt_count := cb_count s |}.

(** The header block is cleared; the payload blocks keep their old contents. *)
Definition Batch_into_builder (t : Batch) : Builder :=
  {| cb_buffer := splice 0 (zeros BLOCK_SIZE) (cbt_buffer t); cb_count := 0 |}.

Definition Batch_bytes (t : Batch) : bytes :=
  slice 0 ((cbt_count t + 1) * BLOCK_SIZE) (cbt_buffer t).

(** ** The segment header codec *)

Lemma blen_CHUNK_SEGMENT_MAGIC : blen SEGMENT_MAGIC = 8.
Proof. done. Qed.

Lemma blen_CHUNK_BATCH_MAGIC : blen BATCH_MAGIC = 8.
Proof. done. Qed.

#[export] Hint Rewrite blen_CHUNK_SEGMENT_MAGIC blen_CHUNK_BATCH_MAGIC : blen.

(** The header before its checksum is stored. *)
Definition segment_image `{Crc32} (h : SegmentHeader) : bytes :=
  splice 64 (le_encode 8 (cs_capacity h))
  (splice 56 (le_encode 8 (cs_number h))
  (splice 16 (cs_store h)
  (splice 12 (le_encode 4 BLOCK_SIZE)
  (splice 8 (le_encode 4 2)
  (splice 0 SEGMENT_MAGIC (zeros BLOCK_SIZE)))))).

Lemma chunk_segment_encode_iff `{Crc32} h out b :
  blen out = BLOCK_SIZE →
  SegmentHeader_encode_into h out = Ok b ↔
  SegmentHeader_validate h = Ok tt ∧
  b = put32 (segment_image h) 4092 (checksum (segment_image h) 4092).
Proof.
  intros Ho. unfold SegmentHeader_encode_into. rewrite Ho, bool_decide_eq_true_2 by done.
  destruct (SegmentHeader_validate h) as [[]| |]; cbn.
  - split; [intros [= <-]; done | by intros [_ ->]].
  - split; [done | by intros [? _]].
  - split; [done | by intros [? _]].
Qed.

Lemma chunk_segment_decode_iff `{Crc32} b h :
  SegmentHeader_decode b = Ok h ↔
  blen b = BLOCK_SIZE ∧ slice 0 8 b = SEGMENT_MAGIC ∧ u32_at b 8 = 2 ∧
  u32_at b 12 = BLOCK_SIZE ∧ u32_at b 4092 = checksum b 4092 ∧
  slice 32 24 b = zeros 24 ∧ slice 72 4020 b = zeros 4020 ∧
  h = {| cs_store := slice 16 16 b; cs_number := u64_at b 56; cs_capacity := u64_at b 64 |} ∧
  SegmentHeader_validate h = Ok tt.
Proof.
  unfold SegmentHeader_decode. rewrite !require_bind.
  rewrite !andb_true_iff, !bool_decide_eq_true, all_zero_app, !all_zero_spec.
  split.
  - intros (Hl & [[? ?] ?] & ? & [Hz1 Hz2] & Hv).
    rewrite blen_slice in Hz1, Hz2 by (unfold BLOCK_SIZE in *; lia).
    apply result_bind_ok in Hv as [[] [Hv [= <-]]]. done.
  - intros (Hl & ? & ? & ? & ? & Hz1 & Hz2 & -> & Hv). rewrite Hv.
    rewrite !blen_slice by (unfold BLOCK_SIZE in *; lia). done.
Qed.

Lemma blen_segment_image `{Crc32} h : blen (segment_image h) = BLOCK_SIZE.
Proof. unfold segment_image, BLOCK_SIZE. blia. Qed.

Lemma segment_image_of `{Crc32} b h :
  bytes_ok b → SegmentHeader_decode b = Ok h → segment_image h = splice 4092 (zeros 4) b.
Proof.
  intros Hb (Hl & Hm & Hv & Hs & _ & Hz1 & Hz2 & -> & _)%chunk_segment_decode_iff.
  unfold BLOCK_SIZE in Hl.
  rewrite <- (slice_all (segment_image _) 4096) by (by rewrite blen_segment_image).
  rewrite <- (slice_all (splice 4092 (zeros 4) b) 4096) by (by rewrite blen_splice).
  unfold segment_image; cbn [cs_store cs_number cs_capacity]; unfold u32_at, u64_at in *.
  cut_slices 0 8 4096; [read_field; done|].
  cut_slices 8 4 4088; [read_field; symmetry; apply slice_of_le; blia|].
  cut_slices 12 4 4084; [read_field; symmetry; apply slice_of_le; blia|].
  cut_slices 16 16 4080; [read_field; done|].
  cut_slices 32 24 4064; [read_field; by rewrite Hz1|].
  cut_slices 56 8 4040; [read_field; apply le_encode_slice; blia|].
  cut_slices 64 8 4032; [read_field; apply le_encode_slice; blia|].
  cut_slices 72 4020 4024; [read_field; by rewrite Hz2|].
  read_field. done.
Qed.

Lemma chunk_segment_decode_encode `{Crc32} h out b :
  SegmentHeader_ok h → blen out = BLOCK_SIZE →
  SegmentHeader_encode_into h out = Ok b → SegmentHeader_decode b = Ok h.
Proof.
  intros (Hs & _ & H1 & H2) Ho [Hv ->]%chunk_segment_encode_iff; [|done].
  apply chunk_segment_decode_iff.
  assert (Hl : blen (segment_image h) = 4096) by (by rewrite blen_segment_image).
  unfold u32_at, u64_at, put32. rewrite blen_splice, Hl.
  rewrite checksum_splice by blia. rewrite (slice_splice_eq 4092 4) by blia.
  rewrite !slice_splice_ne by blia. unfold segment_image in Hl |- *. read_field.
  rewrite !le_decode_encode by (done || apply checksum_range).
  repeat (split; [done|]). by destruct h.
Qed.

(** A chunk segment header has exactly one encoding, whatever the output
    buffer held before: [b] is what [SegmentHeader::encode_into] leaves in it
    for [h] if and only if [SegmentHeader::decode] accepts [b] and returns [h]. *)
Lemma chunk_segment_codec `{Crc32} (h : SegmentHeader) (out b : bytes) :
  SegmentHeader_ok h → blen out = BLOCK_SIZE → bytes_ok b →
  (SegmentHeader_encode_into h out = Ok b ↔ SegmentHeader_decode b = Ok h).
Proof.
  intros Hh Ho Hb. split; [by apply chunk_segment_decode_encode|].
  intros Hd. apply chunk_segment_encode_iff; [done|]. rewrite (segment_image_of b h Hb Hd).
  apply chunk_segment_decode_iff in Hd as (Hl & _ & _ & _ & Hc & _ & _ & _ & Hv).
  unfold BLOCK_SIZE in Hl. split; [done|]. symmetry. apply put_checksum_id; [done | lia | lia | done].
Qed.

Definition sample_chunk_segment : SegmentHeader :=
  {| cs_store := replicate 16 5; cs_number := 9; cs_capacity := 3 * 4096 |}.

Definition sample_chunk_segment_bytes : bytes :=
  unwrap_or [] (@SegmentHeader_encode_into crc_ieee sample_chunk_segment (replicate 4096 255)).

(** ** Packed batches *)

(** A 4 KiB chunk with its hash. *)
Definition Chunk_ok (c : Chunk) : Prop :=
  blen (chunk_bytes c) = BLOCK_SIZE ∧ blen (chunk_hash c) = 32.

Lemma Chunk_new_ok `{Blake3} b c : blen b = BLOCK_SIZE → Chunk_new b = Some c → Chunk_ok c.
Proof.
  intros Hb. unfold Chunk_new, nonzero_hash. destruct (negb _); cbn; [|done]. intros [= <-].
  split; [done|]. cbn. apply blake3_shape.
Qed.

(** The slot of the [i]-th chunk. *)
Definition slot_image `{Crc32} (i : Z) (c : Chunk) : bytes :=
  splice 40 (le_encode 4 (crc_hash (chunk_bytes c)))
  (splice 36 (le_encode 4 BLOCK_SIZE)
  (splice 32 (le_encode 4 (i * BLOCK_SIZE))
  (splice 0 (chunk_hash c) (zeros 64)))).

Lemma blen_slot_image `{Crc32} i c : blen (slot_image i c) = 64.
Proof. unfold slot_image. blia. Qed.

#[export] Hint Rewrite @blen_slot_image : blen.

Lemma slot_image_decode `{Crc32} i c :
  Chunk_ok c → 0 ≤ i < 63 →
  Descriptor_decode (slot_image i c) =
    {| cd_hash := chunk_hash c; cd_payload_offset := i * BLOCK_SIZE;
       cd_crc := crc_hash (chunk_bytes c) |} ∧
  u32_at (slot_image i c) 36 = BLOCK_SIZE ∧ all_zero (drop 44 (slot_image i c)) = true.
Proof.
  intros [_ Hh] Hi. change 44%nat with (Z.to_nat 44).
  rewrite (drop_slice 44 _ 64) by blia. unfold Descriptor_decode, slot_image, u32_at.
  change (64 - 44) with 20. read_field.
  rewrite !le_decode_encode by first [apply crc_range | unfold fits, BLOCK_SIZE; cbn; lia].
  by rewrite all_zero_zeros.
Qed.

(** The chunks [l] are packed, in order, and the rest of the header is clear. *)
Record packed `{Crc32} (s : Builder) (l : list Chunk) : Prop := {
  pk_room : BLOCK_SIZE ≤ blen (cb_buffer s) ≤ MAX_BATCH_BYTES;
  pk_fit : (Z.of_nat (length l) + 1) * BLOCK_SIZE ≤ blen (cb_buffer s);
  pk_count : cb_count s = Z.of_nat (length l);
  pk_chunks : Forall Chunk_ok l;
  pk_env : slice 0 64 (cb_buffer s) = zeros 64;
  pk_slots : ∀ i c, l !! i = Some c →
    slice (64 + Z.of_nat i * 64) 64 (cb_buffer s) = slot_image (Z.of_nat i) c;
  pk_free : slice (64 + Z.of_nat (length l) * 64) (4032 - Z.of_nat (length l) * 64) (cb_buffer s)
            = zeros (4032 - Z.of_nat (length l) * 64);
  pk_payload : ∀ i c, l !! i = Some c →
    slice (BLOCK_SIZE + Z.of_nat i * BLOCK_SIZE) BLOCK_SIZE (cb_buffer s) = chunk_bytes c;
}.

Lemma packed_new `{Crc32} capacity s :
  Builder_try_new_in capacity true = Ok s → packed s [].
Proof.
  unfold Builder_try_new_in. rewrite require_bind, bool_decide_eq_true. intros [Hc Hs].
  unfold AlignedBuffer_try_new_in in Hs. destruct (_ || _); [done|]. injection Hs as <-.
  unfold BLOCK_SIZE, MAX_CHUNKS in *.
  split; cbn [cb_buffer cb_count length]; unfold MAX_BATCH_BYTES, MAX_CHUNKS, BLOCK_SIZE;
    rewrite ?blen_zeros by lia; try done; try lia; try constructor; try (apply slice_zeros; lia).
Qed.

Lemma packed_push `{Crc32} s l c s' :
  packed s l → Chunk_ok c → Builder_push s c = Ok s' → packed s' (l ++ [c]).
Proof.
  intros [] Hc. unfold Builder_push. rewrite require_bind, bool_decide_eq_true.
  unfold Builder_allocated_bytes. intros [Hroom [= <-]]. destruct (Hc) as [Hb Hh].
  rewrite pk_count0 in *. unfold MAX_BATCH_BYTES, MAX_CHUNKS, BLOCK_SIZE in *.
  set (n := length l) in *. assert (Hn : (n < 63)%nat) by lia.
  set (b := cb_buffer s) in *.
  rewrite (slice_splice_ne _ _ (4096 + _)) by lia.
  assert (Hslot : slice (64 + Z.of_nat n * 64) 64 b = zeros 64).
  { rewrite <- (slice_zeros 0 64 (4032 - Z.of_nat n * 64)), <- pk_free0, slice_slice by lia.
    f_equal. lia. }
  rewrite Hslot. unfold put32.
  change (splice 40 _ (splice 36 _ _)) with (slot_image (Z.of_nat n) c).
  assert (Hnew : blen (slot_image (Z.of_nat n) c) = 64) by apply blen_slot_image.
  split; cbn [cb_buffer cb_count]; rewrite ?length_app, ?blen_splice; cbn [length]; fold n;
    unfold MAX_BATCH_BYTES, MAX_CHUNKS, BLOCK_SIZE; try done; try lia.
  - apply Forall_app. by repeat constructor.
  - by rewrite !slice_splice_ne by lia.
  - intros i c' [Hl|[Hl1 Hl2]]%lookup_app_Some.
    + pose proof (lookup_lt_Some _ _ _ Hl) as Hlt. fold n in Hlt.
      rewrite !slice_splice_ne by lia. by apply pk_slots0.
    + fold n in Hl1, Hl2. apply list_lookup_singleton_Some in Hl2 as [Hi <-].
      replace i with n by lia. apply slice_splice_eq; rewrite ?blen_splice; lia.
  - rewrite !slice_splice_ne by lia.
    rewrite <- (slice_zeros 64 (4032 - Z.of_nat (n + 1) * 64) (4032 - Z.of_nat n * 64)) by lia.
    rewrite <- pk_free0, slice_slice by lia. f_equal; lia.
  - intros i c' [Hl|[Hl1 Hl2]]%lookup_app_Some.
    + pose proof (lookup_lt_Some _ _ _ Hl) as Hlt. fold n in Hlt.
      rewrite !slice_splice_ne by lia. by apply pk_payload0.
    + fold n in Hl1, Hl2. apply list_lookup_singleton_Some in Hl2 as [Hi <-].
      replace i with n by lia. rewrite slice_splice_ne by lia. apply slice_splice_eq; lia.
Qed.

(** Clearing the header block of any batch buffer gives an empty builder. *)
Lemma packed_reuse `{Crc32} t :
  BLOCK_SIZE ≤ blen (cbt_buffer t) ≤ MAX_BATCH_BYTES → packed (Batch_into_builder t) [].
Proof.
  intros Hl. unfold Batch_into_builder, BLOCK_SIZE in *.
  assert (Hz : slice 0 4096 (splice 0 (zeros 4096) (cbt_buffer t)) = zeros 4096)
    by (apply slice_splice_eq; [lia | by rewrite blen_zeros | lia]).
  assert (Hs : ∀ o n, 0 ≤ o → 0 ≤ n → o + n ≤ 4096 →
    slice o n (splice 0 (zeros 4096) (cbt_buffer t)) = zeros n).
  { intros o n ? ? ?. rewrite <- (slice_slice 0 4096 o n) by lia. rewrite Hz. by apply slice_zeros. }
  split; cbn [cb_buffer cb_count length]; unfold BLOCK_SIZE; rewrite ?blen_splice;
    first [apply Hs; lia | lia | constructor | intros ? ? [=]].
Qed.

(** ** Sealed batches *)

(** Builders reachable from a new one by accepted pushes and by reuse of the
    buffer of a sealed batch, with the chunks packed since. *)
Inductive packed_by `{Crc32} : Builder → list Chunk → Prop :=
  | packed_by_new capacity s : Builder_try_new_in capacity true = Ok s → packed_by s []
  | packed_by_push s l c s' :
      packed_by s l → Chunk_ok c → Builder_push s c = Ok s' → packed_by s' (l ++ [c])
  | packed_by_reuse s l segment batch first t :
      packed_by s l → Builder_seal s segment batch first = Ok t →
      packed_by (Batch_into_builder t) [].

Lemma seal_length `{Crc32} s segment batch first t :
  Builder_seal s segment batch first = Ok t → blen (cbt_buffer t) = blen (cb_buffer s).
Proof.
  unfold Builder_seal. rewrite require_bind. intros [_ Hs]. inv_ok. subst t. cbn [cbt_buffer].
  apply blen_splice.
Qed.

Lemma packed_by_packed `{Crc32} s l : packed_by s l → packed s l.
Proof.
  induction 1 as [| |s l seg batch first t _ IH Hs]; eauto using packed_new, packed_push.
  apply packed_reuse. rewrite (seal_length _ _ _ _ _ Hs). apply IH.
Qed.

Lemma blen_seal_header `{Crc32} count segment batch first last b :
  blen (seal_header count segment batch first last b) = blen b.
Proof. unfold seal_header, put64, put32, put16. by autorewrite with blen. Qed.

#[export] Hint Rewrite @blen_seal_header : blen.

Lemma slice_seal_header `{Crc32} count segment batch first last b off len :
  64 ≤ off → slice off len (seal_header count segment batch first last b) = slice off len b.
Proof.
  intros Hoff. unfold seal_header, put64, put32, put16. by rewrite !slice_splice_ne by blia.
Qed.

Lemma seal_header_fields `{Crc32} count segment batch first last b :
  blen b = 4096 → slice 0 64 b = zeros 64 → 0 ≤ count ≤ 63 → fits 64 segment → fits 64 batch →
  fits 64 first → fits 64 last →
  let b' := seal_header count segment batch first last b in
  slice 0 8 b' = BATCH_MAGIC ∧ u16_at b' 8 = 2 ∧ u16_at b' 10 = 1 ∧
  u32_at b' 56 = checksum b' 56 ∧ u16_at b' 12 = count ∧ u16_at b' 14 = 0 ∧ u32_at b' 60 = 0 ∧
  u64_at b' 16 = segment ∧ u64_at b' 24 = batch ∧ u32_at b' 36 = count * BLOCK_SIZE ∧
  u32_at b' 32 = (count + 1) * BLOCK_SIZE ∧ u64_at b' 40 = first ∧ u64_at b' 48 = last.
Proof.
  intros Hb Hz Hc H1 H2 H3 H4. cbn zeta.
  assert (Hz' : ∀ o l, 0 ≤ o → 0 ≤ l → o + l ≤ 64 → slice o l b = zeros l).
  { intros o l ? ? ?. rewrite <- (slice_zeros o l 64), <- Hz, slice_slice by lia. done. }
  unfold seal_header, put64, put32, put16, u64_at, u32_at, u16_at.
  rewrite checksum_splice by blia. read_field. rewrite !Hz' by lia. rewrite !le_decode_zeros.
  rewrite !le_decode_encode by first
    [done | apply checksum_range | (unfold fits, BLOCK_SIZE; cbn; lia)].
  done.
Qed.

Lemma check_slots_images `{Crc32} l i :
  Forall Chunk_ok l → 0 ≤ i → i + Z.of_nat (length l) ≤ 63 →
  check_slots i (imap (λ k c, slot_image (i + Z.of_nat k) c) l) = Ok tt.
Proof.
  revert i. induction l as [|c l IH]; intros i Hf Hi Hl; [done|].
  apply Forall_cons in Hf as [Hc Hf]. cbn [length] in Hl. rewrite imap_cons. cbn [check_slots].
  rewrite Z.add_0_r. destruct (slot_image_decode i c Hc ltac:(lia)) as (Hd & -> & ->).
  unfold Descriptor_decode in Hd. injection Hd as _ -> _.
  rewrite !bool_decide_eq_true_2 by done. cbn [andb require mbind result_mbind result_bind].
  rewrite <- (IH (i + 1)) by (done || lia). f_equal. apply imap_ext. intros k x _. cbn. f_equal. lia.
Qed.

(** The slots of a header block that agrees with the packed buffer past the
    envelope. *)
Lemma packed_slots `{Crc32} s l b :
  packed s l → blen b = 4096 →
  (∀ off len, 64 ≤ off → 0 ≤ len → off + len ≤ 4096 → slice off len b = slice off len (cb_buffer s)) →
  as_chunks 64 (slice 64 (64 * Z.of_nat (length l)) b) = imap (λ k c, slot_image (Z.of_nat k) c) l.
Proof.
  intros Hp Hb Ha. destruct Hp. unfold MAX_BATCH_BYTES, MAX_CHUNKS, BLOCK_SIZE in *.
  apply list_eq. intros i. rewrite list_lookup_imap.
  destruct (l !! i) as [c|] eqn:Hi; cbn.
  - pose proof (lookup_lt_Some _ _ _ Hi). rewrite as_chunks_lookup by lia.
    rewrite Ha by lia. f_equal. by apply pk_slots0.
  - apply lookup_ge_None_1 in Hi. apply lookup_ge_None_2. by rewrite length_as_chunks by lia.
Qed.

(** What [seal] produces. *)
Lemma seal_spec `{Crc32} s l segment batch first t :
  packed s l → fits 64 segment → fits 64 batch → fits 64 first →
  Builder_seal s segment batch first = Ok t →
  l ≠ [] ∧ 1 ≤ segment ≤ MAX_SEGMENT ∧ batch ≠ 0 ∧ first ≠ 0 ∧
  first + (Z.of_nat (length l) - 1) < 2 ^ 64 ∧
  cbt_count t = Z.of_nat (length l) ∧ blen (cbt_buffer t) = blen (cb_buffer s) ∧
  slice 0 BLOCK_SIZE (cbt_buffer t) =
    seal_header (Z.of_nat (length l)) segment batch first (first + (Z.of_nat (length l) - 1))
      (slice 0 BLOCK_SIZE (cb_buffer s)) ∧
  ∀ off len, BLOCK_SIZE ≤ off → slice off len (cbt_buffer t) = slice off len (cb_buffer s).
Proof.
  intros Hp Hs Hb Hf. unfold Builder_seal. rewrite require_bind, !andb_true_iff, !bool_decide_eq_true.
  rewrite (pk_count _ _ Hp). intros [[[[H1 H2] H3] H4] Hr].
  apply result_bind_ok in Hr as (last & Hl & [= <-]).
  destruct (checked_add _ _ _) as [e|] eqn:E; cbn in Hl; [|done]. injection Hl as ->.
  apply checked_add_Some in E as [-> E]. pose proof (pk_room _ _ Hp) as Hroom.
  cbn [cbt_count cbt_buffer].
  assert (Hlen : blen (slice 0 BLOCK_SIZE (cb_buffer s)) = BLOCK_SIZE)
    by (apply blen_slice; unfold BLOCK_SIZE in *; lia).
  split_and!; try done.
  - intros ->. done.
  - lia.
  - lia.
  - apply blen_splice.
  - apply slice_splice_eq; rewrite ?blen_seal_header, ?Hlen; [lia | done | lia].
  - intros off len Hoff. apply slice_splice_ne; rewrite ?blen_seal_header, ?Hlen;
      unfold BLOCK_SIZE in *; lia.
Qed.

Lemma chunk_sealed_decodes `{Crc32} s l segment batch first t :
  packed s l → fits 64 segment → fits 64 batch → fits 64 first →
  Builder_seal s segment batch first = Ok t →
  let b := slice 0 BLOCK_SIZE (cbt_buffer t) in
  Header_decode b = Ok {| ch_bytes := b; ch_count := Z.of_nat (length l) |} ∧
  as_chunks 64 (slice 64 (64 * Z.of_nat (length l)) b) = imap (λ k c, slot_image (Z.of_nat k) c) l ∧
  u64_at b 16 = segment ∧ u64_at b 24 = batch ∧ u64_at b 40 = first.
Proof.
  intros Hp Hs Hb Hf Hseal.
  destruct (seal_spec _ _ _ _ _ _ Hp Hs Hb Hf Hseal) as (Hne & H1 & H2 & H3 & H4 & _ & _ & Hh & _).
  cbn zeta. rewrite Hh. clear Hh.
  destruct (Hp) as [Hroom Hfit _ Hok Henv _ Hfree _].
  set (b0 := slice 0 BLOCK_SIZE (cb_buffer s)).
  unfold MAX_BATCH_BYTES, MAX_CHUNKS, BLOCK_SIZE in *.
  assert (Hb0 : blen b0 = 4096) by (apply blen_slice; lia).
  assert (Hn : 1 ≤ Z.of_nat (length l) ≤ 63) by (destruct l; [done | cbn [length] in *; lia]).
  assert (Hsub : ∀ off len, 0 ≤ off → 0 ≤ len → off + len ≤ 4096 →
    slice off len b0 = slice off len (cb_buffer s)) by (intros; unfold b0; by rewrite slice_slice by lia).
  set (b := seal_header _ _ _ _ _ b0).
  assert (Hbl : blen b = 4096) by (unfold b; by rewrite blen_seal_header).
  assert (Hslots : as_chunks 64 (slice 64 (64 * Z.of_nat (length l)) b)
                   = imap (λ k c, slot_image (Z.of_nat k) c) l).
  { apply (packed_slots s); [done | done |]. intros. unfold b. rewrite slice_seal_header by lia.
    apply Hsub; lia. }
  destruct (seal_header_fields (Z.of_nat (length l)) segment batch first
    (first + (Z.of_nat (length l) - 1)) b0) as
    (F1 & F2 & F3 & F4 & F5 & F6 & F7 & F8 & F9 & F10 & F11 & F12 & F13);
    [done | rewrite Hsub by lia; done | lia | done | done | done | unfold fits in *; lia |].
  fold b in F1, F2, F3, F4, F5, F6, F7, F8, F9, F10, F11, F12, F13.
  split; [|by split_and!]. unfold Header_decode, BLOCK_SIZE.
  rewrite Hbl, F1, F2, F3, F4, F5, F6, F7, F8, F9, F10, F11, F12, F13, Hslots.
  rewrite (drop_slice _ b 4096) by lia. unfold b. rewrite slice_seal_header by lia.
  rewrite Hsub by lia.
  replace (64 + 64 * Z.of_nat (length l)) with (64 + Z.of_nat (length l) * 64) by lia.
  replace (4096 - (64 + Z.of_nat (length l) * 64)) with (4032 - Z.of_nat (length l) * 64) by lia.
  rewrite Hfree, all_zero_zeros. rewrite !bool_decide_eq_true_2; try done; try lia.
  - cbn [andb require mbind result_mbind result_bind]. fold b.
    rewrite (check_slots_images l 0 Hok) by lia. done.
  - apply checked_add_Some. lia.
Qed.

Lemma seal_succeeds `{Crc32} s l segment batch first :
  packed s l → l ≠ [] → 1 ≤ segment ≤ MAX_SEGMENT → batch ≠ 0 → first ≠ 0 →
  first + (Z.of_nat (length l) - 1) < 2 ^ 64 →
  ∃ t, Builder_seal s segment batch first = Ok t.
Proof.
  intros Hp Hne H1 H2 H3 H4. unfold Builder_seal. rewrite (pk_count _ _ Hp).
  assert (Z.of_nat (length l) ≠ 0) by (destruct l; [done | cbn [length]; lia]).
  rewrite !bool_decide_eq_true_2 by done.
  cbn [andb require mbind result_mbind result_bind].
  rewrite (proj2 (checked_add_Some _ _ _ _)) by done. cbn. eauto.
Qed.

Lemma verify_images `{Crc32} l : ∀ k payload,
  Forall Chunk_ok l →
  (∀ i c, l !! i = Some c →
     slice ((k + Z.of_nat i) * BLOCK_SIZE) BLOCK_SIZE payload = chunk_bytes c) →
  (k + Z.of_nat (length l)) * BLOCK_SIZE ≤ blen payload →
  verify_descriptors (imap (λ i c, {| cd_hash := chunk_hash c;
    cd_payload_offset := (k + Z.of_nat i) * BLOCK_SIZE; cd_crc := crc_hash (chunk_bytes c) |}) l)
    payload = Ok tt.
Proof.
  induction l as [|c l IH]; intros k payload Hf Hs Hlen; [done|].
  apply Forall_cons in Hf as [Hc Hf]. cbn [length] in Hlen. rewrite imap_cons.
  cbn [verify_descriptors cd_payload_offset cd_crc]. rewrite (Hs 0%nat c) by done.
  rewrite decide_True by (unfold BLOCK_SIZE in *; lia). rewrite bool_decide_eq_true_2 by done.
  cbn [require mbind result_mbind result_bind].
  rewrite <- (IH (k + 1) payload Hf).
  - f_equal. apply imap_ext. intros i x _. cbn. do 2 f_equal. lia.
  - intros i x Hi. rewrite <- (Hs (S i) x Hi). do 2 f_equal. lia.
  - unfold BLOCK_SIZE in *. lia.
Qed.

Lemma sealed_descriptors `{Crc32} l b :
  Forall Chunk_ok l → (length l ≤ 63)%nat →
  as_chunks 64 (slice 64 (64 * Z.of_nat (length l)) b) = imap (λ k c, slot_image (Z.of_nat k) c) l →
  Header_descriptors {| ch_bytes := b; ch_count := Z.of_nat (length l) |} =
  imap (λ i c, {| cd_hash := chunk_hash c; cd_payload_offset := (0 + Z.of_nat i) * BLOCK_SIZE;
                  cd_crc := crc_hash (chunk_bytes c) |}) l.
Proof.
  intros Hok Hn Hs. unfold Header_descriptors. cbn [ch_count ch_bytes]. rewrite Hs.
  rewrite fmap_imap. apply imap_ext. intros i c Hi. cbn [compose].
  pose proof (lookup_lt_Some _ _ _ Hi). eapply Forall_lookup_1 in Hok; [|exact Hi].
  by apply slot_image_decode; [|lia].
Qed.

(** Every batch of chunks reads back: a builder that was filled with the
    chunks [l], in a new buffer or in the reused buffer of any earlier batch,
    seals under every valid identity, and recovery accepts the written bytes:
    the header decodes with that identity and consecutive ordinals, its
    descriptors are the hashes of [l] in order, the payload passes
    verification, and the bytes each descriptor points at are its chunk. *)
Lemma chunk_batch_roundtrip `{Crc32} (s : Builder) (l : list Chunk) (segment batch first : Z) :
  packed_by s l → l ≠ [] → 1 ≤ segment ≤ MAX_SEGMENT → 0 < batch < 2 ^ 64 → 0 < first →
  first + Z.of_nat (length l) - 1 < 2 ^ 64 →
  ∃ t h, Builder_seal s segment batch first = Ok t ∧
    let payload := drop (Z.to_nat BLOCK_SIZE) (Batch_bytes t) in
    Header_decode (slice 0 BLOCK_SIZE (Batch_bytes t)) = Ok h ∧
    Header_segment h = segment ∧ Header_batch h = batch ∧ Header_first h = first ∧
    cd_hash <$> Header_descriptors h = chunk_hash <$> l ∧
    Header_verify_payload h payload = Ok tt ∧
    ∀ i d c, Header_descriptors h !! i = Some d → l !! i = Some c →
      slice (cd_payload_offset d) BLOCK_SIZE payload = chunk_bytes c.
Proof.
  intros Hp%packed_by_packed Hne Hs Hb Hf Hl.
  destruct (seal_succeeds s l segment batch first Hp Hne Hs ltac:(lia) ltac:(lia) ltac:(lia)) as [t Ht].
  assert (Hs' : fits 64 segment) by
    (unfold fits, MAX_SEGMENT in *; change (Z.shiftl 1 48) with (2 ^ 48) in *; lia).
  assert (Hb' : fits 64 batch) by (unfold fits; lia).
  assert (Hf' : fits 64 first) by (destruct l; [done | cbn [length] in *; unfold fits; lia]).
  destruct (seal_spec _ _ _ _ _ _ Hp Hs' Hb' Hf' Ht) as (_ & _ & _ & _ & _ & Hc & Htl & _ & Hpay).
  destruct (chunk_sealed_decodes _ _ _ _ _ _ Hp Hs' Hb' Hf' Ht) as (Hd & Hsl & F1 & F2 & F3).
  destruct Hp as [Hroom Hfit _ Hok _ _ _ Hdata]. cbn zeta in *.
  unfold MAX_BATCH_BYTES, MAX_CHUNKS, BLOCK_SIZE in *.
  assert (Hlen : blen (Batch_bytes t) = (Z.of_nat (length l) + 1) * 4096).
  { unfold Batch_bytes, BLOCK_SIZE. rewrite Hc. apply blen_slice; lia. }
  assert (Hhead : slice 0 4096 (Batch_bytes t) = slice 0 4096 (cbt_buffer t)).
  { unfold Batch_bytes, BLOCK_SIZE. rewrite Hc, slice_slice by lia. done. }
  eexists t, _. split; [done|]. rewrite Hhead. split; [exact Hd|].
  split_and!; [exact F1 | exact F2 | exact F3 | | |];
    rewrite ?(drop_slice _ _ ((Z.of_nat (length l) + 1) * 4096)) by (done || lia).
  - rewrite (sealed_descriptors l) by (done || lia). rewrite fmap_imap.
    apply list_eq. intros i. by rewrite list_lookup_imap, list_lookup_fmap.
  - unfold Header_verify_payload. rewrite (sealed_descriptors l) by (done || lia).
    rewrite blen_slice by lia. unfold Header_payload_bytes, BLOCK_SIZE. cbn [ch_count].
    rewrite bool_decide_eq_true_2 by lia. cbn [require mbind result_mbind result_bind].
    apply verify_images; unfold BLOCK_SIZE; [done | | rewrite blen_slice by lia; lia].
    intros i c Hi. pose proof (lookup_lt_Some _ _ _ Hi). rewrite slice_slice by lia.
    unfold Batch_bytes, BLOCK_SIZE. rewrite Hc, slice_slice, Hpay by lia. by rewrite <- (Hdata i c Hi).
  - intros i d c. rewrite (sealed_descriptors l) by (done || lia). rewrite list_lookup_imap.
    intros Hd' Hi. rewrite Hi in Hd'. injection Hd' as <-. cbn [cd_payload_offset]. unfold BLOCK_SIZE.
    pose proof (lookup_lt_Some _ _ _ Hi). rewrite slice_slice by lia.
    unfold Batch_bytes, BLOCK_SIZE. rewrite Hc, slice_slice, Hpay by lia. by rewrite <- (Hdata i c Hi).
Qed.

Definition sample_chunk : Chunk :=
  {| chunk_bytes := replicate 4096 7; chunk_hash := replicate 32 8 |}.

Definition sample_builder : Builder :=
  unwrap_or {| cb_buffer := []; cb_count := 0 |} (Builder_try_new_in 1 true).

Definition sample_packed : Builder :=
  unwrap_or sample_builder (@Builder_push crc_ieee sample_builder sample_chunk).
