(* ===== verification/ManifestFormat.v ===== *)
(** * Manifest pages

    Models [crates/cas/core/src/manifest/format.rs]: the 4 KiB pages of a
    manifest file.  A leaf page lists extents, a branch page lists children, a
    COMMIT page publishes a root and the FILE page opens the file.  The writers
    check what they wrote by decoding it ([finish]); the theorems say which
    inputs they accept and that reading the page gives the inputs back. *)
From S2P Require Import Prelude Bytes.

Definition LEAF_CAPACITY : Z := 63.
Definition BRANCH_CAPACITY : Z := 252.
Definition MAX_HEIGHT : Z := 8.

Definition PAGE_MAGIC : bytes := Eval vm_compute in ascii_bytes "CASMAN02".

Inductive Kind : Type := Leaf | Branch | CommitPage | FilePage.

#[global] Instance PageKind_eq_dec : EqDecision Kind.
Proof. solve_decision. Defined.

(** [kind as u16]. *)
Definition Kind_code (k : Kind) : Z :=
  match k with Leaf => 1 | Branch => 2 | CommitPage => 3 | FilePage => 4 end.

Record Extent : Type := {
  e_start : Z;
  e_end : Z;
  e_hash : option bytes;
}.

Record Child : Type := {
  c_start : Z;
  c_offset : Z;
}.

Record Root : Type := {
  r_offset : Z;
  r_height : Z;
}.

Record Commit : Type := {
  cm_store : bytes;
  cm_image : bytes;
  cm_generation : Z;
  cm_root : Root;
  cm_durable : Z;
  cm_image_bytes : Z;
}.

Record FileHeader : Type := {
  fh_store : bytes;
  fh_image_bytes : Z;
}.

#[global] Instance Extent_eq_dec : EqDecision Extent.
Proof. solve_decision. Defined.

#[global] Instance Child_eq_dec : EqDecision Child.
Proof. solve_decision. Defined.

#[global] Instance Root_eq_dec : EqDecision Root.
Proof. solve_decision. Defined.

#[global] Instance Commit_eq_dec : EqDecision Commit.
Proof. solve_decision. Defined.

Definition Extent_decode (b : bytes) : Extent := {|
  e_start := u64_at b 0;
  e_end := u64_at b 8;
  e_hash := if bool_decide (u16_at b 52 = 1) then Some (slice 16 32 b) else None;
|}.

Definition Child_decode (slot : bytes) : Child := {|
  c_start := u64_at slot 0;
  c_offset := u64_at slot 8;
|}.

Definition page_offset (offset : Z) : bool :=
  bool_decide (offset ≠ 0) && is_multiple_of offset BLOCK_SIZE.

(** ** Decoding *)

Record Page : Type := {
  pg_bytes : bytes;
  pg_kind : Kind;
  pg_count : Z;
}.

Definition Page_offset (p : Page) : Z := u64_at (pg_bytes p) 16.
Definition Page_level (p : Page) : Z := u16_at (pg_bytes p) 12.

(** The loop of [validate_leaf]; [last] is the end of the previous extent. *)
Fixpoint validate_extents (blocks last : Z) (slots : list bytes) : result unit :=
  match slots with
  | [] => Ok tt
  | slot :: slots' =>
      let extent := Extent_decode slot in
      require (bool_decide (last ≤ e_start extent)
               && bool_decide (e_start extent < e_end extent)
               && bool_decide (e_end extent ≤ blocks)) "manifest extent bounds/order";;
      require (bool_decide (u32_at slot 48 = 0) && all_zero (drop 54 slot))
        "manifest extent offset/reserved";;
      (if bool_decide (u16_at slot 52 = 1) then
         require (bool_decide (e_end extent - e_start extent = 1)) "fixed chunk extent length"
       else if bool_decide (u16_at slot 52 = 2) then
         require (bool_decide (slice 16 32 slot = zeros 32)) "ZERO extent hash"
       else invalid_data "manifest extent kind");;
      validate_extents blocks (e_end extent) slots'
  end.

Definition Page_validate_leaf (p : Page) (blocks : Z) : result unit :=
  require (bool_decide (Page_level p = 0) && bool_decide (1 ≤ pg_count p ≤ LEAF_CAPACITY))
    "manifest leaf shape";;
  let used := 64 + pg_count p * 64 in
  require (all_zero (drop (Z.to_nat used) (pg_bytes p))) "unused manifest leaf entries";;
  validate_extents blocks 0 (as_chunks 64 (slice 64 (64 * pg_count p) (pg_bytes p))).

(** The loop of [validate_branch]. *)
Fixpoint validate_children (blocks page : Z) (previous : option Z) (slots : list bytes)
    : result unit :=
  match slots with
  | [] => Ok tt
  | slot :: slots' =>
      let start := u64_at slot 0 in
      let child := u64_at slot 8 in
      require (bool_decide (start < blocks)
               && is_none_or previous (λ value, bool_decide (value < start)))
        "manifest child order";;
      require (page_offset child && bool_decide (child < page)) "manifest child address";;
      validate_children blocks page (Some start) slots'
  end.

Definition Page_validate_branch (p : Page) (blocks : Z) : result unit :=
  require (bool_decide (1 ≤ Page_level p < MAX_HEIGHT)
           && bool_decide (1 ≤ pg_count p ≤ BRANCH_CAPACITY)) "manifest branch shape";;
  let used := 64 + pg_count p * 16 in
  require (all_zero (drop (Z.to_nat used) (pg_bytes p))) "unused manifest children";;
  validate_children blocks (Page_offset p) None
    (as_chunks 16 (slice 64 (16 * pg_count p) (pg_bytes p))).

Definition Page_extents (p : Page) : result (list Extent) :=
  require (bool_decide (pg_kind p = Leaf)) "expected manifest leaf";;
  Ok (Extent_decode <$> as_chunks 64 (slice 64 (64 * pg_count p) (pg_bytes p))).

Definition Page_children (p : Page) : result (list Child) :=
  require (bool_decide (pg_kind p = Branch)) "expected manifest branch";;
  Ok (Child_decode <$> as_chunks 16 (slice 64 (16 * pg_count p) (pg_bytes p))).

Definition Page_commit (p : Page) : result Commit :=
  require (bool_decide (pg_kind p = CommitPage)) "expected manifest COMMIT";;
  Ok {| cm_store := slice 64 16 (pg_bytes p);
        cm_image := slice 80 16 (pg_bytes p);
        cm_generation := u64_at (pg_bytes p) 96;
        cm_root := {| r_offset := u64_at (pg_bytes p) 104; r_height := Page_level p |};
        cm_durable := u64_at (pg_bytes p) 112;
        cm_image_bytes := u64_at (pg_bytes p) 120 |}.

Definition Commit_validate (c : Commit) (offset : Z) : result unit :=
  require (page_offset offset
           && bool_decide (cm_store c ≠ zeros 16)
           && bool_decide (cm_image c ≠ zeros 16)
           && bool_decide (cm_generation c ≠ 0)
           && bool_decide (cm_image_bytes c ≠ 0)
           && is_multiple_of (cm_image_bytes c) BLOCK_SIZE) "manifest COMMIT identity/capacity";;
  require (if bool_decide (r_offset (cm_root c) = 0) then bool_decide (r_height (cm_root c) = 0)
           else page_offset (r_offset (cm_root c))
                && bool_decide (r_offset (cm_root c) < offset)
                && bool_decide (1 ≤ r_height (cm_root c) ≤ MAX_HEIGHT)) "manifest COMMIT root".

Definition Kind_of (code : Z) : result Kind :=
  if bool_decide (code = 1) then Ok Leaf
  else if bool_decide (code = 2) then Ok Branch
  else if bool_decide (code = 3) then Ok CommitPage
  else if bool_decide (code = 4) then Ok FilePage
  else invalid_data "manifest page kind".

Definition Page_decode `{Crc32} (b : bytes) (offset image_bytes : Z) : result Page :=
  require (bool_decide (blen b = BLOCK_SIZE)) "manifest page size";;
  require (bool_decide (slice 0 8 b = PAGE_MAGIC) && bool_decide (u16_at b 8 = 2))
    "manifest page version";;
  require (bool_decide (u32_at b 56 = checksum b 56)) "manifest page CRC";;
  require (bool_decide (u64_at b 16 = offset) && is_multiple_of offset BLOCK_SIZE)
    "manifest page address";;
  require (bool_decide (image_bytes ≠ 0) && is_multiple_of image_bytes BLOCK_SIZE)
    "manifest image capacity";;
  require (all_zero (slice 24 32 b) && bool_decide (u32_at b 60 = 0)) "manifest reserved header";;
  kind ← Kind_of (u16_at b 10);
  require (eqb (bool_decide (kind = FilePage)) (bool_decide (offset = 0)))
    "manifest file/page address";;
  let page := {| pg_bytes := b; pg_kind := kind; pg_count := u16_at b 14 |} in
  let blocks := image_bytes / BLOCK_SIZE in
  match kind with
  | Leaf => Page_validate_leaf page blocks
  | Branch => Page_validate_branch page blocks
  | FilePage =>
      require (bool_decide (Page_level page = 0) && bool_decide (pg_count page = 0))
        "manifest FILE shape";;
      require (bool_decide (slice 64 16 b ≠ zeros 16) && bool_decide (u64_at b 80 = image_bytes))
        "manifest FILE identity/capacity";;
      require (all_zero (drop 88 b)) "manifest FILE reserved bytes"
  | CommitPage =>
      commit ← Page_commit page;
      require (bool_decide (pg_count page = 0) && bool_decide (cm_image_bytes commit = image_bytes))
        "manifest COMMIT shape/capacity";;
      Commit_validate commit offset;;
      require (all_zero (drop 128 b)) "manifest COMMIT reserved bytes"
  end;;
  Ok page.

(** ** Encoding *)

(** [b] is the output page, which is cleared first. *)
Definition start (b : bytes) (kind : Kind) (offset level count : Z) : result bytes :=
  require (bool_decide (blen b = BLOCK_SIZE)) "manifest output page size";;
  let b := zeros (blen b) in
  let b := splice 0 PAGE_MAGIC b in
  let b := put16 b 8 2 in
  let b := put16 b 10 (Kind_code kind) in
  let b := put16 b 12 level in
  let b := put16 b 14 count in
  Ok (put64 b 16 offset).

Definition finish `{Crc32} (b : bytes) (offset image_bytes : Z) : result bytes :=
  let b := put32 b 56 (checksum b 56) in
  Page_decode b offset image_bytes;;
  Ok b.

Definition write_extent (extent : Extent) (slot : bytes) : bytes :=
  let slot := put64 slot 0 (e_start extent) in
  let slot := put64 slot 8 (e_end extent) in
  let slot := match e_hash extent with Some hash => splice 16 hash slot | None => slot end in
  put16 slot 52 (match e_hash extent with Some _ => 1 | None => 2 end).

Definition write_child (child : Child) (slot : bytes) : bytes :=
  let slot := put64 slot 0 (c_start child) in
  put64 slot 8 (c_offset child).

(** Writing into consecutive [size]-byte slots from byte 64 on
    ([bytes[64..].as_chunks_mut]). *)
Fixpoint write_slots {A} (size : Z) (write : A → bytes → bytes) (i : Z) (l : list A) (b : bytes)
    : bytes :=
  match l with
  | [] => b
  | x :: l' =>
      let off := 64 + i * size in
      write_slots size write (i + 1) l' (splice off (write x (slice off size b)) b)
  end.

Definition leaf_into `{Crc32} (b : bytes) (offset image_bytes : Z) (extents : list Extent)
    : result bytes :=
  require (bool_decide (Z.of_nat (length extents) ≤ LEAF_CAPACITY)) "manifest leaf capacity";;
  b ← start b Leaf offset 0 (Z.of_nat (length extents));
  finish (write_slots 64 write_extent 0 extents b) offset image_bytes.

Definition branch_into `{Crc32} (b : bytes) (offset image_bytes level : Z) (children : list Child)
    : result bytes :=
  require (bool_decide (Z.of_nat (length children) ≤ BRANCH_CAPACITY)) "manifest branch capacity";;
  b ← start b Branch offset level (Z.of_nat (length children));
  finish (write_slots 16 write_child 0 children b) offset image_bytes.

Definition FileHeader_encode_into `{Crc32} (h : FileHeader) (b : bytes) : result bytes :=
  b ← start b FilePage 0 0 0;
  let b := splice 64 (fh_store h) b in
  let b := put64 b 80 (fh_image_bytes h) in
  finish b 0 (fh_image_bytes h).

Definition FileHeader_decode `{Crc32} (b : bytes) : result FileHeader :=
  require (bool_decide (blen b = BLOCK_SIZE)) "manifest FILE length";;
  let image_bytes := u64_at b 80 in
  page ← Page_decode b 0 image_bytes;
  require (bool_decide (pg_kind page = FilePage)) "expected manifest FILE";;
  Ok {| fh_store := slice 64 16 b; fh_image_bytes := image_bytes |}.

Definition Commit_encode_into `{Crc32} (c : Commit) (b : bytes) (offset : Z) : result bytes :=
  b ← start b CommitPage offset (r_height (cm_root c)) 0;
  let b := splice 64 (cm_store c) b in
  let b := splice 80 (cm_image c) b in
  let b := put64 b 96 (cm_generation c) in
  let b := put64 b 104 (r_offset (cm_root c)) in
  let b := put64 b 112 (cm_durable c) in
  let b := put64 b 120 (cm_image_bytes c) in
  finish b offset (cm_image_bytes c).

(** ** Writing slots *)

Section Slots.
Context {A : Type} (size : Z) (write : A → bytes → bytes).
Context (Hsize : 0 < size) (Hwrite : ∀ x b, blen b = size → blen (write x b) = size).

Lemma write_slots_len l : ∀ i b,
  0 ≤ i → 64 + (i + Z.of_nat (length l)) * size ≤ blen b →
  blen (write_slots size write i l b) = blen b.
Proof.
  induction l as [|x l IH]; intros i b Hi Hb; cbn [write_slots]; [done|]. cbn [length] in Hb.
  rewrite IH; rewrite ?blen_splice; [done | lia | lia].
Qed.

Lemma write_slots_out l : ∀ i b off len,
  0 ≤ i → 0 ≤ off → 0 ≤ len → 64 + (i + Z.of_nat (length l)) * size ≤ blen b →
  off + len ≤ 64 + i * size ∨ 64 + (i + Z.of_nat (length l)) * size ≤ off →
  slice off len (write_slots size write i l b) = slice off len b.
Proof.
  induction l as [|x l IH]; intros i b off len Hi Ho Hl Hb Hd; cbn [write_slots]; [done|].
  cbn [length] in Hb, Hd. rewrite IH; rewrite ?blen_splice; try lia; try nia.
  apply slice_splice_ne; [lia | nia |]. rewrite Hwrite by (apply blen_slice; nia). nia.
Qed.

Lemma write_slots_slot l : ∀ i b j x,
  0 ≤ i → 64 + (i + Z.of_nat (length l)) * size ≤ blen b → l !! j = Some x →
  slice (64 + (i + Z.of_nat j) * size) size (write_slots size write i l b)
  = write x (slice (64 + (i + Z.of_nat j) * size) size b).
Proof.
  induction l as [|y l IH]; intros i b j x Hi Hb Hj; [done|]. cbn [write_slots length] in *.
  assert (Hw : blen (write y (slice (64 + i * size) size b)) = size)
    by (apply Hwrite, blen_slice; nia).
  destruct j as [|j]; cbn in Hj.
  - injection Hj as ->. rewrite Z.add_0_r. rewrite write_slots_out; rewrite ?blen_splice; try nia.
    apply slice_splice_eq; nia.
  - replace (i + Z.of_nat (S j)) with ((i + 1) + Z.of_nat j) by lia.
    rewrite IH with (x := x); rewrite ?blen_splice; try done; try nia.
    f_equal. apply slice_splice_ne; nia.
Qed.

(** Slots written over zeros, read back one by one. *)
Lemma write_slots_chunks l b n :
  64 + Z.of_nat (length l) * size ≤ n → n ≤ blen b →
  slice 64 (n - 64) b = zeros (n - 64) →
  as_chunks size (slice 64 (size * Z.of_nat (length l)) (write_slots size write 0 l b))
  = (λ x, write x (zeros size)) <$> l.
Proof.
  intros Hl Hb Hz. apply list_eq. intros i. rewrite list_lookup_fmap.
  pose proof (write_slots_len l 0 b ltac:(lia) ltac:(lia)) as Hlen.
  destruct (l !! i) as [x|] eqn:Hi; cbn.
  - pose proof (lookup_lt_Some _ _ _ Hi) as Hlt. rewrite as_chunks_lookup by nia.
    pose proof (write_slots_slot l 0 b i x ltac:(lia) ltac:(nia) Hi) as Hs.
    rewrite Z.add_0_l in Hs. rewrite Hs. do 2 f_equal.
    rewrite <- (slice_zeros (Z.of_nat i * size) size (n - 64)), <- Hz, slice_slice by nia.
    f_equal.
  - apply lookup_ge_None_1 in Hi. apply lookup_ge_None_2. rewrite length_as_chunks by nia. done.
Qed.

End Slots.

(** ** The page frame *)

Definition frame (kind : Kind) (offset level count : Z) : bytes :=
  splice 16 (le_encode 8 offset)
  (splice 14 (le_encode 2 count)
  (splice 12 (le_encode 2 level)
  (splice 10 (le_encode 2 (Kind_code kind))
  (splice 8 (le_encode 2 2)
  (splice 0 PAGE_MAGIC (zeros BLOCK_SIZE)))))).

Lemma start_frame b kind offset level count :
  blen b = BLOCK_SIZE → start b kind offset level count = Ok (frame kind offset level count).
Proof. intros Hb. unfold start. rewrite Hb, bool_decide_eq_true_2 by done. done. Qed.

Lemma blen_PAGE_MAGIC : blen PAGE_MAGIC = 8.
Proof. done. Qed.

#[export] Hint Rewrite blen_PAGE_MAGIC : blen.

Lemma blen_frame kind offset level count : blen (frame kind offset level count) = 4096.
Proof. unfold frame, BLOCK_SIZE. blia. Qed.

#[export] Hint Rewrite blen_frame : blen.

Lemma frame_body kind offset level count off len :
  64 ≤ off → 0 ≤ len → off + len ≤ 4096 →
  slice off len (frame kind offset level count) = zeros len.
Proof.
  intros. unfold frame, BLOCK_SIZE. rewrite !slice_splice_ne by blia. apply slice_zeros; lia.
Qed.

(** A page body [b] over a frame. *)
Definition framed (kind : Kind) (offset level count : Z) (b : bytes) : Prop :=
  blen b = 4096 ∧ slice 0 64 b = slice 0 64 (frame kind offset level count).

Definition finished `{Crc32} (b : bytes) : bytes := put32 b 56 (checksum b 56).

Lemma finished_slice `{Crc32} b off len :
  64 ≤ off → slice off len (finished b) = slice off len b.
Proof. intros. unfold finished, put32. by rewrite slice_splice_ne by blia. Qed.

Lemma blen_finished `{Crc32} b : blen (finished b) = blen b.
Proof. apply blen_splice. Qed.

Lemma finished_fields `{Crc32} kind offset level count b :
  framed kind offset level count b → fits 64 offset → fits 16 level → fits 16 count →
  let b' := finished b in
  blen b' = 4096 ∧ slice 0 8 b' = PAGE_MAGIC ∧ u16_at b' 8 = 2 ∧ u32_at b' 56 = checksum b' 56 ∧
  u64_at b' 16 = offset ∧ slice 24 32 b' = zeros 32 ∧ u32_at b' 60 = 0 ∧
  u16_at b' 10 = Kind_code kind ∧ u16_at b' 12 = level ∧ u16_at b' 14 = count.
Proof.
  intros [Hb Hf] H1 H2 H3. cbn zeta.
  assert (Hs : ∀ o l, 0 ≤ o → 0 ≤ l → o + l ≤ 64 →
    slice o l b = slice o l (frame kind offset level count)).
  { intros o l ? ? ?. pose proof (slice_slice 0 64 o l b) as E1.
    pose proof (slice_slice 0 64 o l (frame kind offset level count)) as E2.
    rewrite Z.add_0_l in E1, E2. rewrite <- E1, <- E2, Hf by lia. done. }
  unfold finished, put32, u16_at, u32_at, u64_at. rewrite blen_splice, checksum_splice by blia.
  rewrite (slice_splice_eq_c 56 4 _ b 4096 (blen_le_encode 4 _) Hb eq_refl).
  rewrite !(slice_splice_ne _ _ 56) by blia. rewrite !Hs by lia. unfold frame, BLOCK_SIZE. read_field.
  rewrite le_decode_zeros. rewrite !le_decode_encode by first
    [done | apply checksum_range | by destruct kind].
  done.
Qed.

Lemma Kind_of_code kind : Kind_of (Kind_code kind) = Ok kind.
Proof. by destruct kind. Qed.

(** The conditions every page shares. *)
Definition place_ok (kind : Kind) (offset image_bytes : Z) : Prop :=
  offset mod BLOCK_SIZE = 0 ∧ image_bytes ≠ 0 ∧ image_bytes mod BLOCK_SIZE = 0 ∧
  (kind = FilePage ↔ offset = 0).

#[global] Instance place_ok_dec kind offset image_bytes : Decision (place_ok kind offset image_bytes).
Proof. unfold place_ok. apply _. Defined.

(** The contents check of [Page_decode]. *)
Definition check_body (page : Page) (offset image_bytes : Z) : result unit :=
  match pg_kind page with
  | Leaf => Page_validate_leaf page (image_bytes / BLOCK_SIZE)
  | Branch => Page_validate_branch page (image_bytes / BLOCK_SIZE)
  | FilePage =>
      require (bool_decide (Page_level page = 0) && bool_decide (pg_count page = 0))
        "manifest FILE shape";;
      require (bool_decide (slice 64 16 (pg_bytes page) ≠ zeros 16)
               && bool_decide (u64_at (pg_bytes page) 80 = image_bytes))
        "manifest FILE identity/capacity";;
      require (all_zero (drop 88 (pg_bytes page))) "manifest FILE reserved bytes"
  | CommitPage =>
      commit ← Page_commit page;
      require (bool_decide (pg_count page = 0) && bool_decide (cm_image_bytes commit = image_bytes))
        "manifest COMMIT shape/capacity";;
      Commit_validate commit offset;;
      require (all_zero (drop 128 (pg_bytes page))) "manifest COMMIT reserved bytes"
  end.

Lemma Page_decode_iff `{Crc32} b offset image page :
  Page_decode b offset image = Ok page ↔
  blen b = BLOCK_SIZE ∧ slice 0 8 b = PAGE_MAGIC ∧ u16_at b 8 = 2 ∧
  u32_at b 56 = checksum b 56 ∧ u64_at b 16 = offset ∧ all_zero (slice 24 32 b) = true ∧
  u32_at b 60 = 0 ∧ Kind_of (u16_at b 10) = Ok (pg_kind page) ∧
  place_ok (pg_kind page) offset image ∧ pg_bytes page = b ∧ pg_count page = u16_at b 14 ∧
  check_body page offset image = Ok tt.
Proof.
  unfold Page_decode, place_ok. rewrite !require_bind, !andb_true_iff, !is_multiple_of_spec,
    !bool_decide_eq_true. destruct (Kind_of (u16_at b 10)) as [kind| |]; cbn [mbind result_mbind
    result_bind]; [|split; intros; destruct_and?; discriminate..].
  rewrite require_bind, eqb_true_iff.
  assert (Hk : bool_decide (kind = FilePage) = bool_decide (offset = 0) ↔
    (kind = FilePage ↔ offset = 0)) by (repeat case_bool_decide; intuition congruence).
  rewrite Hk. clear Hk. split.
  - intros (H1 & [H2 H3] & H4 & [H5 H6] & [H7 H8] & [H9 H10] & H11 & H12).
    apply result_bind_ok in H12 as ([] & H12 & [= <-]). cbn [pg_kind pg_bytes pg_count].
    split_and!; first [done | tauto].
  - intros (H1 & H2 & H3 & H4 & H5 & H6 & H7 & [= ->] & (H8 & H9 & H10 & H11) & Hb & Hc & Hbody).
    split_and!; try done; try tauto. destruct page as [pb pk pc]. cbn in *. subst pb pc.
    exact (f_equal (λ r : result unit, r;; Ok {| pg_bytes := b; pg_kind := pk;
      pg_count := u16_at b 14 |}) Hbody).
Qed.

(** A finished page decodes exactly when its place and its body are valid. *)
Lemma finished_decode `{Crc32} kind offset level count image b p :
  framed kind offset level count b → fits 64 offset → fits 16 level → fits 16 count →
  let page := {| pg_bytes := finished b; pg_kind := kind; pg_count := count |} in
  Page_decode (finished b) offset image = Ok p ↔
  p = page ∧ place_ok kind offset image ∧ check_body page offset image = Ok tt.
Proof.
  intros Hf H1 H2 H3 page.
  destruct (finished_fields kind offset level count b Hf H1 H2 H3) as
    (F1 & F2 & F3 & F4 & F5 & F6 & F7 & F8 & F9 & F10).
  rewrite Page_decode_iff, F1, F2, F3, F5, F6, F7, F8, F10, Kind_of_code, all_zero_zeros. split.
  - intros (_ & _ & _ & _ & _ & _ & _ & [= Hk] & Hp & Hb & Hc & Hbody).
    assert (p = page) as -> by (destruct p; cbn in *; unfold page; congruence). done.
  - intros (-> & Hp & Hbody). by split_and!.
Qed.

Lemma finish_iff `{Crc32} kind offset level count image b b' :
  framed kind offset level count b → fits 64 offset → fits 16 level → fits 16 count →
  let page := {| pg_bytes := finished b; pg_kind := kind; pg_count := count |} in
  finish b offset image = Ok b' ↔
  b' = finished b ∧ place_ok kind offset image ∧ check_body page offset image = Ok tt.
Proof.
  intros Hf H1 H2 H3 page.
  pose proof (λ p, finished_decode kind offset level count image b p Hf H1 H2 H3) as Hdec.
  cbn zeta in Hdec. unfold finish. fold (finished b).
  destruct (Page_decode (finished b) offset image) as [p| |] eqn:E; cbn [mbind result_mbind result_bind].
  - destruct (proj1 (Hdec p) eq_refl) as (-> & Hp & Hbody). split; [intros [= <-]|intros [-> _]]; done.
  - split; [done|]. intros (-> & Hp). specialize (proj2 (Hdec page) (conj eq_refl Hp)). done.
  - split; [done|]. intros (-> & Hp). specialize (proj2 (Hdec page) (conj eq_refl Hp)). done.
Qed.

(** ** Leaf pages *)

(** The Rust types of the fields. *)
Definition Extent_ok (e : Extent) : Prop :=
  fits 64 (e_start e) ∧ fits 64 (e_end e) ∧
  match e_hash e with Some hash => blen hash = 32 | None => True end.

#[global] Instance Extent_ok_dec e : Decision (Extent_ok e).
Proof. unfold Extent_ok. destruct (e_hash e); apply _. Defined.

(** Ascending disjoint extents within [last, blocks), chunks being one block
    long. *)
Fixpoint extents_valid (blocks last : Z) (l : list Extent) : Prop :=
  match l with
  | [] => True
  | e :: l' =>
      last ≤ e_start e ∧ e_start e < e_end e ∧ e_end e ≤ blocks ∧
      (is_Some (e_hash e) → e_end e - e_start e = 1) ∧ extents_valid blocks (e_end e) l'
  end.

#[global] Instance extents_valid_dec blocks last l : Decision (extents_valid blocks last l).
Proof. revert last. induction l as [|e l IH]; intros last; cbn; apply _. Defined.

Lemma blen_write_extent e b : blen (write_extent e b) = blen b.
Proof.
  unfold write_extent, put16, put64. rewrite blen_splice. destruct (e_hash e); by rewrite !blen_splice.
Qed.

Lemma blen_write_child c b : blen (write_child c b) = blen b.
Proof. unfold write_child, put64. by rewrite !blen_splice. Qed.

Definition extent_slot (e : Extent) : bytes := write_extent e (zeros 64).

Lemma extent_slot_spec e :
  Extent_ok e →
  Extent_decode (extent_slot e) = e ∧ u32_at (extent_slot e) 48 = 0 ∧
  all_zero (drop 54 (extent_slot e)) = true ∧
  u16_at (extent_slot e) 52 = match e_hash e with Some _ => 1 | None => 2 end ∧
  (e_hash e = None → slice 16 32 (extent_slot e) = zeros 32).
Proof.
  intros (H1 & H2 & H3). change 54%nat with (Z.to_nat 54).
  rewrite (drop_slice 54 _ 64); [| lia | apply blen_write_extent].
  change (64 - 54) with 10. unfold Extent_decode, extent_slot, write_extent, put16, put64, u16_at, u32_at, u64_at.
  destruct e as [a b [hash|]]; cbn [e_start e_end e_hash] in *; read_field.
  - rewrite !le_decode_encode by done. by rewrite le_decode_zeros.
  - rewrite !le_decode_encode by done. by rewrite le_decode_zeros.
Qed.

Lemma validate_extents_iff blocks l : ∀ last,
  Forall Extent_ok l →
  validate_extents blocks last (extent_slot <$> l) = Ok tt ↔ extents_valid blocks last l.
Proof.
  induction l as [|e l IH]; intros last Hok; [done|]. apply Forall_cons in Hok as [He Hok].
  cbn [fmap list_fmap validate_extents extents_valid].
  destruct (extent_slot_spec e He) as (-> & -> & -> & -> & Hz).
  rewrite !require_bind, !andb_true_iff, !bool_decide_eq_true.
  destruct (e_hash e) as [hash|] eqn:Eh.
  - rewrite (bool_decide_eq_true_2 (1 = 1)), require_bind, bool_decide_eq_true, IH by done.
    split.
    + intros ([[? ?] ?] & _ & ? & ?). by split_and!.
    + intros (? & ? & ? & Hc & ?). specialize (Hc ltac:(eauto)). by split_and!.
  - rewrite (bool_decide_eq_false_2 (2 = 1)), (bool_decide_eq_true_2 (2 = 2)), require_bind by done.
    rewrite bool_decide_eq_true, IH by done. split.
    + intros ([[? ?] ?] & _ & ? & ?). by split_and!.
    + intros (? & ? & ? & _ & ?). specialize (Hz eq_refl). by split_and!.
Qed.

Definition leaf_valid (offset image_bytes : Z) (extents : list Extent) : Prop :=
  page_offset offset = true ∧ image_bytes ≠ 0 ∧ image_bytes mod BLOCK_SIZE = 0 ∧
  1 ≤ Z.of_nat (length extents) ≤ LEAF_CAPACITY ∧ extents_valid (image_bytes / BLOCK_SIZE) 0 extents.

#[global] Instance leaf_valid_dec offset image_bytes extents : Decision (leaf_valid offset image_bytes extents).
Proof. unfold leaf_valid. apply _. Defined.

Lemma page_offset_iff offset : page_offset offset = true ↔ offset ≠ 0 ∧ offset mod BLOCK_SIZE = 0.
Proof. unfold page_offset. by rewrite andb_true_iff, bool_decide_eq_true, is_multiple_of_spec. Qed.

(** The slots of a finished page that was written over a frame. *)
Lemma framed_slots {A} `{Crc32} size (write : A → bytes → bytes) kind offset level l :
  0 < size → 64 + Z.of_nat (length l) * size ≤ 4096 →
  (∀ x b, blen b = size → blen (write x b) = size) →
  let b := write_slots size write 0 l (frame kind offset level (Z.of_nat (length l))) in
  framed kind offset level (Z.of_nat (length l)) b ∧
  as_chunks size (slice 64 (size * Z.of_nat (length l)) (finished b)) = (λ x, write x (zeros size)) <$> l ∧
  all_zero (drop (Z.to_nat (64 + Z.of_nat (length l) * size)) (finished b)) = true.
Proof.
  intros Hs Hl Hw b. set (f := frame kind offset level (Z.of_nat (length l))) in *.
  assert (Hf : blen f = 4096) by apply blen_frame.
  assert (Hb : blen b = 4096) by (unfold b; rewrite write_slots_len; rewrite ?Hf; lia).
  split_and!.
  - split; [done|]. unfold b. apply write_slots_out; rewrite ?Hf; try done; lia.
  - rewrite finished_slice by lia. unfold b. apply (write_slots_chunks size write Hs Hw l f 4096);
      rewrite ?Hf; try lia. apply frame_body; lia.
  - rewrite (drop_slice _ _ 4096) by (rewrite ?blen_finished; lia). rewrite finished_slice by lia.
    unfold b. rewrite write_slots_out; rewrite ?Hf; try done; try lia.
    unfold f. rewrite frame_body by lia. apply all_zero_zeros.
Qed.

Lemma leaf_into_iff `{Crc32} out offset image extents :
  blen out = BLOCK_SIZE → fits 64 offset → Forall Extent_ok extents →
  if decide (leaf_valid offset image extents)
  then ∃ b p, leaf_into out offset image extents = Ok b ∧ blen b = BLOCK_SIZE ∧
         Page_decode b offset image = Ok p ∧ Page_level p = 0 ∧ Page_extents p = Ok extents
  else ¬ is_ok (leaf_into out offset image extents).
Proof.
  intros Ho Hoff Hok. unfold leaf_into, leaf_valid, LEAF_CAPACITY.
  destruct (decide (Z.of_nat (length extents) ≤ 63)) as [Hcap|Hcap].
  2:{ rewrite bool_decide_eq_false_2, decide_False by (done || lia). cbn. by intros []. }
  rewrite bool_decide_eq_true_2, start_frame by done. cbn [require mbind result_mbind result_bind].
  destruct (framed_slots 64 write_extent Leaf offset 0 extents) as (Hf & Hs & Hz);
    [lia | lia | intros; by rewrite blen_write_extent |].
  set (body := write_slots 64 write_extent 0 extents _) in *.
  assert (Hc16 : fits 16 (Z.of_nat (length extents))) by (unfold fits; lia).
  pose proof (finished_fields _ _ _ _ _ Hf Hoff ltac:(done) Hc16) as (F1 & _ & _ & _ & _ & _ & _ & _ & F9 & _).
  set (page := {| pg_bytes := finished body; pg_kind := Leaf; pg_count := Z.of_nat (length extents) |}).
  assert (Hbody : place_ok Leaf offset image ∧ check_body page offset image = Ok tt ↔
    page_offset offset = true ∧ image ≠ 0 ∧ image mod BLOCK_SIZE = 0 ∧
    1 ≤ Z.of_nat (length extents) ≤ 63 ∧ extents_valid (image / BLOCK_SIZE) 0 extents).
  { unfold check_body, Page_validate_leaf, Page_level, place_ok, page.
    cbn [pg_kind pg_count pg_bytes]. rewrite F9, Hs, Hz, !require_bind, andb_true_iff,
      !bool_decide_eq_true, validate_extents_iff, page_offset_iff by done. unfold LEAF_CAPACITY.
    intuition congruence. }
  erewrite (decide_ext _ _) by (symmetry; exact Hbody). destruct (decide _) as [[Hp Hb]|Hn].
  - exists (finished body), page. split_and!.
    + by apply (finish_iff _ _ _ _ _ _ _ Hf).
    + done.
    + by apply (finished_decode _ _ _ _ _ _ _ Hf).
    + done.
    + unfold Page_extents, page. cbn [pg_kind pg_count pg_bytes]. rewrite Hs, bool_decide_eq_true_2 by done.
      cbn [require mbind result_mbind result_bind]. f_equal. rewrite <- list_fmap_compose. transitivity (id <$> extents); [|apply list_fmap_id].
      apply list_fmap_ext. intros i e He. eapply Forall_lookup_1 in Hok; [|exact He].
      by apply extent_slot_spec.
  - destruct (finish body offset image) as [b| |] eqn:E; [|by intros []..].
    apply (finish_iff _ _ _ _ _ _ _ Hf) in E as (_ & ?); done.
Qed.

(** Leaf pages: [leaf_into] writes a page exactly when the page address,
    the image size and the extents are valid (1 to 63 ascending, disjoint
    extents inside the image, a chunk being one block), whatever the output
    page held before; the page then decodes at that address, and its extents
    are the ones written. *)
Lemma leaf_page_roundtrip `{Crc32} (out : bytes) (offset image_bytes : Z) (extents : list Extent) :
  blen out = BLOCK_SIZE → fits 64 offset → Forall Extent_ok extents →
  if decide (leaf_valid offset image_bytes extents)
  then ∃ b p, leaf_into out offset image_bytes extents = Ok b ∧
         Page_decode b offset image_bytes = Ok p ∧ Page_extents p = Ok extents
  else ¬ is_ok (leaf_into out offset image_bytes extents).
Proof.
  intros Ho Hoff Hok. pose proof (leaf_into_iff out offset image_bytes extents Ho Hoff Hok) as Hl.
  destruct (decide _) as [_|_]; [|done]. destruct Hl as (page & p & H1 & _ & H2 & _ & H3). eauto.
Qed.

Definition sample_extents : list Extent :=
  [ {| e_start := 0; e_end := 1; e_hash := Some (replicate 32 9) |};
    {| e_start := 2; e_end := 7; e_hash := None |} ].

(** ** Branch pages *)

Definition Child_ok (c : Child) : Prop := fits 64 (c_start c) ∧ fits 64 (c_offset c).

#[global] Instance Child_ok_dec c : Decision (Child_ok c).
Proof. unfold Child_ok. apply _. Defined.

(** Ascending children inside the image, each written before its parent. *)
Fixpoint children_valid (blocks page : Z) (previous : option Z) (l : list Child) : Prop :=
  match l with
  | [] => True
  | c :: l' =>
      c_start c < blocks ∧ is_none_or previous (λ v, bool_decide (v < c_start c)) = true ∧
      page_offset (c_offset c) = true ∧ c_offset c < page ∧
      children_valid blocks page (Some (c_start c)) l'
  end.

#[global] Instance children_valid_dec blocks page previous l :
  Decision (children_valid blocks page previous l).
Proof. revert previous. induction l as [|c l IH]; intros previous; cbn; apply _. Defined.

Definition child_slot (c : Child) : bytes := write_child c (zeros 16).

Lemma child_slot_spec c : Child_ok c → Child_decode (child_slot c) = c.
Proof.
  intros [H1 H2]. unfold Child_decode, child_slot, write_child, put64, u64_at. read_field.
  rewrite !le_decode_encode by done. by destruct c.
Qed.

Lemma validate_children_iff blocks page l : ∀ previous,
  Forall Child_ok l →
  validate_children blocks page previous (child_slot <$> l) = Ok tt
  ↔ children_valid blocks page previous l.
Proof.
  induction l as [|c l IH]; intros previous Hok; [done|]. apply Forall_cons in Hok as [Hc Hok].
  cbn [fmap list_fmap validate_children children_valid].
  pose proof (child_slot_spec c Hc) as Hs. unfold Child_decode in Hs.
  assert (Hs1 : u64_at (child_slot c) 0 = c_start c) by (by rewrite <- Hs at 2).
  assert (Hs2 : u64_at (child_slot c) 8 = c_offset c) by (by rewrite <- Hs at 2).
  rewrite Hs1, Hs2, !require_bind, !andb_true_iff, !bool_decide_eq_true, IH by done. tauto.
Qed.

Definition branch_valid (offset image_bytes level : Z) (children : list Child) : Prop :=
  page_offset offset = true ∧ image_bytes ≠ 0 ∧ image_bytes mod BLOCK_SIZE = 0 ∧
  1 ≤ level < MAX_HEIGHT ∧ 1 ≤ Z.of_nat (length children) ≤ BRANCH_CAPACITY ∧
  children_valid (image_bytes / BLOCK_SIZE) offset None children.

#[global] Instance branch_valid_dec offset image_bytes level children :
  Decision (branch_valid offset image_bytes level children).
Proof. unfold branch_valid. apply _. Defined.

Lemma branch_into_iff `{Crc32} out offset image level children :
  blen out = BLOCK_SIZE → fits 64 offset → fits 16 level → Forall Child_ok children →
  if decide (branch_valid offset image level children)
  then ∃ b p, branch_into out offset image level children = Ok b ∧ blen b = BLOCK_SIZE ∧
         Page_decode b offset image = Ok p ∧ Page_level p = level ∧ Page_children p = Ok children
  else ¬ is_ok (branch_into out offset image level children).
Proof.
  intros Ho Hoff Hlev Hok. unfold branch_into, branch_valid, BRANCH_CAPACITY.
  destruct (decide (Z.of_nat (length children) ≤ 252)) as [Hcap|Hcap].
  2:{ rewrite bool_decide_eq_false_2, decide_False by (done || lia). cbn. by intros []. }
  rewrite bool_decide_eq_true_2, start_frame by done. cbn [require mbind result_mbind result_bind].
  destruct (framed_slots 16 write_child Branch offset level children) as (Hf & Hs & Hz);
    [lia | lia | intros; by rewrite blen_write_child |].
  set (body := write_slots 16 write_child 0 children _) in *.
  assert (Hc16 : fits 16 (Z.of_nat (length children))) by (unfold fits; lia).
  pose proof (finished_fields _ _ _ _ _ Hf Hoff Hlev Hc16) as
    (F1 & _ & _ & _ & F5 & _ & _ & _ & F9 & _).
  set (page := {| pg_bytes := finished body; pg_kind := Branch; pg_count := Z.of_nat (length children) |}).
  assert (Hbody : place_ok Branch offset image ∧ check_body page offset image = Ok tt ↔
    page_offset offset = true ∧ image ≠ 0 ∧ image mod BLOCK_SIZE = 0 ∧ 1 ≤ level < MAX_HEIGHT ∧
    1 ≤ Z.of_nat (length children) ≤ 252 ∧ children_valid (image / BLOCK_SIZE) offset None children).
  { unfold check_body, Page_validate_branch, Page_level, Page_offset, place_ok, page.
    cbn [pg_kind pg_count pg_bytes]. rewrite F5, F9, Hs, Hz, !require_bind, andb_true_iff,
      !bool_decide_eq_true, validate_children_iff, page_offset_iff by done. unfold BRANCH_CAPACITY.
    intuition congruence. }
  erewrite (decide_ext _ _) by (symmetry; exact Hbody). destruct (decide _) as [[Hp Hb]|Hn].
  - exists (finished body), page. split_and!.
    + by apply (finish_iff _ _ _ _ _ _ _ Hf).
    + done.
    + by apply (finished_decode _ _ _ _ _ _ _ Hf).
    + done.
    + unfold Page_children, page. cbn [pg_kind pg_count pg_bytes].
      rewrite Hs, bool_decide_eq_true_2 by done.
      cbn [require mbind result_mbind result_bind]. f_equal. rewrite <- list_fmap_compose.
      transitivity (id <$> children); [|apply list_fmap_id].
      apply list_fmap_ext. intros i c Hc. eapply Forall_lookup_1 in Hok; [|exact Hc].
      by apply child_slot_spec.
  - destruct (finish body offset image) as [b| |] eqn:E; [|by intros []..].
    apply (finish_iff _ _ _ _ _ _ _ Hf) in E as (_ & ?); done.
Qed.

(** Branch pages: [branch_into] writes a page exactly when the address,
    the image size, the level and the children are valid (1 to 252 children
    with ascending starts inside the image, at page addresses below the
    branch); the page then decodes at that address with that level, and its
    children are the ones written. *)
Lemma branch_page_roundtrip `{Crc32} (out : bytes) (offset image_bytes level : Z)
    (children : list Child) :
  blen out = BLOCK_SIZE → fits 64 offset → fits 16 level → Forall Child_ok children →
  if decide (branch_valid offset image_bytes level children)
  then ∃ b p, branch_into out offset image_bytes level children = Ok b ∧
         Page_decode b offset image_bytes = Ok p ∧ Page_level p = level ∧
         Page_children p = Ok children
  else ¬ is_ok (branch_into out offset image_bytes level children).
Proof.
  intros Ho Hoff Hlev Hok.
  pose proof (branch_into_iff out offset image_bytes level children Ho Hoff Hlev Hok) as Hl.
  destruct (decide _) as [_|_]; [|done]. destruct Hl as (page & p & H1 & _ & H2). eauto.
Qed.

Definition sample_children : list Child :=
  [ {| c_start := 1; c_offset := 4096 |}; {| c_start := 5; c_offset := 8192 |} ].

(** ** COMMIT and FILE pages *)

Definition Commit_ok (c : Commit) : Prop :=
  blen (cm_store c) = 16 ∧ blen (cm_image c) = 16 ∧ fits 64 (cm_generation c) ∧
  fits 64 (r_offset (cm_root c)) ∧ fits 16 (r_height (cm_root c)) ∧ fits 64 (cm_durable c) ∧
  fits 64 (cm_image_bytes c).

#[global] Instance Commit_ok_dec c : Decision (Commit_ok c).
Proof. unfold Commit_ok. apply _. Defined.

Definition commit_body (c : Commit) (offset : Z) : bytes :=
  splice 120 (le_encode 8 (cm_image_bytes c))
  (splice 112 (le_encode 8 (cm_durable c))
  (splice 104 (le_encode 8 (r_offset (cm_root c)))
  (splice 96 (le_encode 8 (cm_generation c))
  (splice 80 (cm_image c)
  (splice 64 (cm_store c) (frame CommitPage offset (r_height (cm_root c)) 0)))))).

Lemma commit_body_framed c offset :
  blen (cm_store c) = 16 → blen (cm_image c) = 16 →
  framed CommitPage offset (r_height (cm_root c)) 0 (commit_body c offset).
Proof.
  intros H1 H2. unfold framed, commit_body. split; [blia|]. by rewrite !slice_splice_ne by blia.
Qed.

Lemma commit_body_fields `{Crc32} c offset page :
  Commit_ok c → fits 64 offset → pg_bytes page = finished (commit_body c offset) →
  pg_kind page = CommitPage → Page_level page = r_height (cm_root c) →
  Page_commit page = Ok c ∧ all_zero (drop 128 (pg_bytes page)) = true.
Proof.
  intros (H1 & H2 & H3 & H4 & H5 & H6 & H7) Hoff Hb Hk Hl.
  assert (Hlen : blen (commit_body c offset) = 4096) by (by apply commit_body_framed).
  unfold Page_commit. rewrite Hk, Hl, Hb, bool_decide_eq_true_2 by done.
  cbn [require mbind result_mbind result_bind]. change 128%nat with (Z.to_nat 128).
  rewrite (drop_slice 128 _ 4096) by (rewrite ?blen_finished; lia).
  unfold u64_at. rewrite !finished_slice by lia. unfold commit_body in Hlen |- *. split.
  - read_field. rewrite !le_decode_encode by done. destruct c as [? ? ? [] ? ?]; done.
  - change (4096 - 128) with 3968. read_field. rewrite frame_body by lia. apply all_zero_zeros.
Qed.

Lemma Commit_validate_ok c offset u :
  Commit_validate c offset = Ok u →
  page_offset offset = true ∧ cm_image_bytes c ≠ 0 ∧ cm_image_bytes c mod BLOCK_SIZE = 0.
Proof.
  unfold Commit_validate. rewrite require_bind, !andb_true_iff, !bool_decide_eq_true,
    is_multiple_of_spec. tauto.
Qed.

Lemma commit_into_iff `{Crc32} (c : Commit) (out : bytes) (offset : Z) :
  blen out = BLOCK_SIZE → fits 64 offset → Commit_ok c →
  if is_ok (Commit_validate c offset)
  then ∃ b p, Commit_encode_into c out offset = Ok b ∧ blen b = BLOCK_SIZE ∧
         Page_decode b offset (cm_image_bytes c) = Ok p ∧ Page_commit p = Ok c
  else ¬ is_ok (Commit_encode_into c out offset).
Proof.
  intros Ho Hoff Hok. unfold Commit_encode_into. rewrite start_frame by done.
  cbn [mbind result_mbind result_bind]. unfold put64. fold (commit_body c offset).
  assert (Hf : framed CommitPage offset (r_height (cm_root c)) 0 (commit_body c offset))
    by (apply commit_body_framed; apply Hok).
  assert (Hh : fits 16 (r_height (cm_root c))) by apply Hok.
  pose proof (finished_fields _ _ _ _ _ Hf Hoff Hh ltac:(done)) as
    (_ & _ & _ & _ & _ & _ & _ & _ & F9 & _).
  set (page := {| pg_bytes := finished (commit_body c offset); pg_kind := CommitPage; pg_count := 0 |}).
  destruct (commit_body_fields c offset page Hok Hoff eq_refl eq_refl F9) as [Hc Hz].
  assert (Hbody : check_body page offset (cm_image_bytes c) = Ok tt ↔ Commit_validate c offset = Ok tt).
  { unfold check_body. cbn [pg_kind page]. fold page. rewrite Hc, Hz.
    cbn [mbind result_mbind result_bind pg_count page]. rewrite !bool_decide_eq_true_2 by done.
    cbn [andb require mbind result_mbind result_bind].
    destruct (Commit_validate c offset) as [[]| |]; cbn; done. }
  destruct (Commit_validate c offset) as [[]| |] eqn:Ev; cbn [is_ok].
  - apply Commit_validate_ok in Ev as ([Hv1 Hv2]%page_offset_iff & Hv3 & Hv4).
    assert (Hp : place_ok CommitPage offset (cm_image_bytes c)) by done.
    exists (finished (commit_body c offset)), page. split_and!; [| | |done].
    2:{ rewrite blen_finished. apply Hf. }
    + apply (finish_iff _ _ _ _ _ _ _ Hf); try done. split_and!; try done. by apply Hbody.
    + apply (finished_decode _ _ _ _ _ _ _ Hf); try done. split_and!; try done. by apply Hbody.
  - destruct (finish _ _ _) as [b| |] eqn:E; [|by intros []..].
    apply (finish_iff _ _ _ _ _ _ _ Hf) in E as (_ & _ & Hb%Hbody); done.
  - destruct (finish _ _ _) as [b| |] eqn:E; [|by intros []..].
    apply (finish_iff _ _ _ _ _ _ _ Hf) in E as (_ & _ & Hb%Hbody); done.
Qed.

(** COMMIT pages: [Commit::encode_into] writes a page exactly when
    [Commit::validate] accepts the commit at that address, and the page then
    decodes to the same commit: the generation, the root, the durable sequence
    and the identities that were published. *)
Lemma commit_page_roundtrip `{Crc32} (c : Commit) (out : bytes) (offset : Z) :
  blen out = BLOCK_SIZE → fits 64 offset → Commit_ok c →
  if is_ok (Commit_validate c offset)
  then ∃ b p, Commit_encode_into c out offset = Ok b ∧
         Page_decode b offset (cm_image_bytes c) = Ok p ∧ Page_commit p = Ok c
  else ¬ is_ok (Commit_encode_into c out offset).
Proof.
  intros Ho Hoff Hok. pose proof (commit_into_iff c out offset Ho Hoff Hok) as Hc.
  destruct (is_ok _); [|done]. destruct Hc as (b & p & H1 & _ & H2). by exists b, p.
Qed.

Definition sample_commit : Commit := {|
  cm_store := replicate 16 1; cm_image := replicate 16 2; cm_generation := 3;
  cm_root := {| r_offset := 4096; r_height := 1 |}; cm_durable := 5; cm_image_bytes := 8 * 4096 |}.

Definition file_body (h : FileHeader) : bytes :=
  splice 80 (le_encode 8 (fh_image_bytes h)) (splice 64 (fh_store h) (frame FilePage 0 0 0)).

(** Reading back the FILE page that opens a manifest. *)
Lemma file_page_roundtrip `{Crc32} h out :
  blen out = BLOCK_SIZE → blen (fh_store h) = 16 → fits 64 (fh_image_bytes h) →
  fh_store h ≠ zeros 16 → fh_image_bytes h ≠ 0 → fh_image_bytes h mod BLOCK_SIZE = 0 →
  ∃ b, FileHeader_encode_into h out = Ok b ∧ FileHeader_decode b = Ok h.
Proof.
  intros Ho Hs Hi Hne H1 H2. unfold FileHeader_encode_into. rewrite start_frame by done.
  cbn [mbind result_mbind result_bind]. unfold put64. fold (file_body h).
  assert (Hl : blen (file_body h) = 4096) by (unfold file_body; blia).
  assert (Hf : framed FilePage 0 0 0 (file_body h)).
  { split; [done|]. unfold file_body. by rewrite !slice_splice_ne by blia. }
  pose proof (finished_fields _ _ _ _ _ Hf ltac:(done) ltac:(done) ltac:(done)) as
    (F1 & _ & _ & _ & _ & _ & _ & _ & F9 & _).
  set (page := {| pg_bytes := finished (file_body h); pg_kind := FilePage; pg_count := 0 |}).
  assert (Hfields : slice 64 16 (finished (file_body h)) = fh_store h ∧
    u64_at (finished (file_body h)) 80 = fh_image_bytes h ∧
    all_zero (drop 88 (finished (file_body h))) = true).
  { unfold u64_at. change 88%nat with (Z.to_nat 88).
    rewrite (drop_slice 88 _ 4096) by lia. rewrite !finished_slice by lia.
    unfold file_body in Hl |- *. change (4096 - 88) with 4008. read_field.
    rewrite le_decode_encode, frame_body, all_zero_zeros by (done || lia). done. }
  destruct Hfields as (E1 & E2 & E3).
  assert (Hbody : check_body page 0 (fh_image_bytes h) = Ok tt).
  { unfold check_body, Page_level. cbn [pg_kind pg_bytes pg_count page]. rewrite F9, E1, E2, E3.
    by rewrite !bool_decide_eq_true_2. }
  assert (Hp : place_ok FilePage 0 (fh_image_bytes h)) by done.
  exists (finished (file_body h)). split.
  - by apply (finish_iff _ _ _ _ _ _ _ Hf).
  - unfold FileHeader_decode. rewrite F1, bool_decide_eq_true_2, E2 by done.
    cbn [require mbind result_mbind result_bind].
    rewrite (proj2 (finished_decode _ _ _ _ _ _ page Hf ltac:(done) ltac:(done) ltac:(done))) by done.
    cbn. rewrite E1. by destruct h.
Qed.
