(* ===== verification/ManifestTree.v ===== *)
(** * The manifest tree

    Models [crates/cas/core/src/manifest/tree.rs], [tree/node.rs] and
    [tree/lookup.rs]: checked descent from a COMMIT page to the extent that
    maps a block, and the full validating walk.  Pages come from a
    [PageReader]; the counter of page reads is not modelled.  The theorems show
    that the two traversals agree: once a walk has accepted a tree, its extents
    are ascending and disjoint and every point lookup returns exactly what the
    walked extents say, on a tree of any height. *)
From S2P Require Import Prelude Bytes ManifestFormat.

(** What [read_page] puts in the page buffer. *)
Definition PageReader : Type := Z → result bytes.

Definition require_before_commit (offset last : Z) : result unit :=
  require (bool_decide (offset < last - BLOCK_SIZE)) "tree page beyond COMMIT".

Definition i64_max : Z := 2 ^ 63 - 1.

Definition validate_view (commit : Commit) (last : Z) : result unit :=
  require (bool_decide (2 * BLOCK_SIZE ≤ last) && is_multiple_of last BLOCK_SIZE
           && bool_decide (last ≤ i64_max)) "manifest committed end";;
  Commit_validate commit (last - BLOCK_SIZE).

(** ** Cursors and nodes *)

Record Cursor : Type := {
  cu_offset : Z;
  cu_level : Z;
  cu_minimum : option Z;
  cu_lower : Z;
  cu_upper : Z;
}.

Definition Cursor_root (commit : Commit) : Cursor := {|
  cu_offset := r_offset (cm_root commit);
  cu_level := saturating_sub (r_height (cm_root commit)) 1;
  cu_minimum := None;
  cu_lower := 0;
  cu_upper := cm_image_bytes commit / BLOCK_SIZE;
|}.

(** Panics on an index out of range and at level 0. *)
Definition Cursor_child (c : Cursor) (children : list Child) (index : nat) : result Cursor :=
  child ← expect (children !! index);
  level ← expect (checked_sub (cu_level c) 1);
  Ok {| cu_offset := c_offset child;
        cu_level := level;
        cu_minimum := Some (c_start child);
        cu_lower := if decide (index = O) then cu_lower c else c_start child;
        cu_upper := match children !! S index with
                    | Some next => c_start next
                    | None => cu_upper c
                    end |}.

Inductive Node : Type :=
  | LeafNode (entries : list Extent)
  | BranchNode (children : list Child).

Definition Node_minimum (node : Node) : result Z :=
  match node with
  | LeafNode entries => expect (e_start <$> entries !! 0%nat)
  | BranchNode children => expect (c_start <$> children !! 0%nat)
  end.

Definition Node_decode (page : Page) (cursor : Cursor) : result Node :=
  require (bool_decide (Page_level page = cu_level cursor)) "manifest child level";;
  node ← match pg_kind page with
         | Leaf =>
             entries ← Page_extents page;
             require (forallb (λ e, bool_decide (cu_lower cursor ≤ e_start e)
                                    && bool_decide (e_end e ≤ cu_upper cursor)) entries)
               "manifest leaf escapes parent bounds";;
             Ok (LeafNode entries)
         | Branch =>
             children ← Page_children page;
             require (forallb (λ c, bool_decide (cu_lower cursor ≤ c_start c)
                                    && bool_decide (c_start c < cu_upper cursor)) children)
               "manifest branch escapes parent bounds";;
             Ok (BranchNode children)
         | _ => invalid_data "tree points to a non-tree page"
         end;
  (match cu_minimum cursor with
   | Some minimum =>
       m ← Node_minimum node;
       require (bool_decide (minimum = m)) "manifest child minimum differs from parent"
   | None => Ok tt
   end);;
  Ok node.

(** ** Point lookup *)

Inductive LookupState : Type :=
  | LookupPage (offset level : Z)
  | LookupComplete (hash : option bytes).

Record Lookup : Type := {
  lk_image_bytes : Z;
  lk_end : Z;
  lk_block : Z;
  lk_cursor : option Cursor;
  lk_result : option bytes;
  lk_failed : bool;
}.

Definition Lookup_new (commit : Commit) (last block : Z) : result Lookup :=
  validate_view commit last;;
  require (bool_decide (block < cm_image_bytes commit / BLOCK_SIZE)) "manifest lookup outside image";;
  Ok {| lk_image_bytes := cm_image_bytes commit;
        lk_end := last;
        lk_block := block;
        lk_cursor := if bool_decide (r_offset (cm_root commit) ≠ 0)
                     then Some (Cursor_root commit) else None;
        lk_result := None;
        lk_failed := false |}.

Definition Lookup_state (s : Lookup) : result LookupState :=
  require (negb (lk_failed s)) "manifest lookup failed";;
  match lk_cursor s with
  | Some cursor =>
      require_before_commit (cu_offset cursor) (lk_end s);;
      Ok (LookupPage (cu_offset cursor) (cu_level cursor))
  | None => Ok (LookupComplete (lk_result s))
  end.

Definition set_lookup (s : Lookup) (cursor : option Cursor) (result : option bytes) (failed : bool)
    : Lookup :=
  {| lk_image_bytes := lk_image_bytes s; lk_end := lk_end s; lk_block := lk_block s;
     lk_cursor := cursor; lk_result := result; lk_failed := failed |}.

(** [iter().rposition(p)]: the last index whose element satisfies [p]. *)
Fixpoint rposition {A} (p : A → bool) (l : list A) : option nat :=
  match l with
  | [] => None
  | x :: l' => match rposition p l' with
               | Some i => Some (S i)
               | None => if p x then Some O else None
               end
  end.

(** The extent that maps [block]. *)
Definition covering (block : Z) (entries : list Extent) : option Extent :=
  find_first (λ e, bool_decide (e_start e ≤ block) && bool_decide (block < e_end e)) entries.

(** The next cursor and result of one descent step. *)
Definition descend `{Crc32} (s : Lookup) (cursor : Cursor) (offset : Z) (b : bytes)
    : result (option Cursor * option bytes) :=
  require (bool_decide (offset = cu_offset cursor)) "manifest lookup completion offset";;
  page ← Page_decode b offset (lk_image_bytes s);
  node ← Node_decode page cursor;
  match node with
  | LeafNode entries => Ok (None, covering (lk_block s) entries ≫= e_hash)
  | BranchNode children =>
      match rposition (λ c, bool_decide (c_start c ≤ lk_block s)) children with
      | Some index =>
          child ← Cursor_child cursor children index;
          Ok (Some child, lk_result s)
      | None => Ok (None, lk_result s)
      end
  end.

(** The lookup stays failed when the page is refused. *)
Definition Lookup_accept `{Crc32} (s : Lookup) (offset : Z) (b : bytes)
    : Lookup * result LookupState :=
  match Lookup_state s with
  | Err e => (s, Err e)
  | Panic => (s, Panic)
  | Ok _ =>
      match lk_cursor s with
      | None => (s, other "manifest lookup already complete")
      | Some cursor =>
          match descend s cursor offset b with
          | Ok (next, result) =>
              let s' := set_lookup s next result false in
              (s', Lookup_state s')
          | Err e => (set_lookup s (lk_cursor s) (lk_result s) true, Err e)
          | Panic => (set_lookup s (lk_cursor s) (lk_result s) true, Panic)
          end
      end
  end.

(** The loop of [Tree::get]; running out of fuel is [Panic]. *)
Fixpoint get_loop `{Crc32} (fuel : nat) (source : PageReader) (lookup : Lookup)
    : result (option bytes) :=
  match fuel with
  | O => Panic
  | S fuel' =>
      state ← Lookup_state lookup;
      match state with
      | LookupComplete hash => Ok hash
      | LookupPage offset _ =>
          b ← source offset;
          let '(lookup', accepted) := Lookup_accept lookup offset b in
          accepted;;
          get_loop fuel' source lookup'
      end
  end.

(** A descent reads at most one page per level. *)
Definition get_fuel : nat := Z.to_nat MAX_HEIGHT + 1.

Definition Tree_get `{Crc32} (source : PageReader) (commit : Commit) (last block : Z)
    : result (option bytes) :=
  lookup ← Lookup_new commit last block;
  get_loop get_fuel source lookup.

(** ** Walks *)

Definition Tree_read_node `{Crc32} (source : PageReader) (commit : Commit) (last : Z)
    (cursor : Cursor) : result Node :=
  require_before_commit (cu_offset cursor) last;;
  b ← source (cu_offset cursor);
  page ← Page_decode b (cu_offset cursor) (cm_image_bytes commit);
  Node_decode page cursor.

(** [for x in l { s = f(x, s)?; }]. *)
Fixpoint try_fold {A S} (f : A → S → result S) (l : list A) (s : S) : result S :=
  match l with
  | [] => Ok s
  | x :: l' => s' ← f x s; try_fold f l' s'
  end.

(** The visitors are closures over a state [S]. *)
Fixpoint Tree_visit `{Crc32} {S} (fuel : nat) (source : PageReader) (commit : Commit) (last : Z)
    (page : Z → S → result S) (visitor : Extent → S → result S) (cursor : Cursor) (s : S)
    : result S :=
  match fuel with
  | O => Panic
  | Datatypes.S fuel' =>
      node ← Tree_read_node source commit last cursor;
      s ← page (cu_offset cursor) s;
      match node with
      | LeafNode entries => try_fold visitor entries s
      | BranchNode children =>
          try_fold (λ index s,
              child ← Cursor_child cursor children index;
              Tree_visit fuel' source commit last page visitor child s)
            (seq 0 (length children)) s
      end
  end.

Definition Tree_walk_pages `{Crc32} {S} (source : PageReader) (commit : Commit) (last : Z)
    (page : Z → S → result S) (visitor : Extent → S → result S) (s : S) : result S :=
  if bool_decide (r_offset (cm_root commit) ≠ 0)
  then Tree_visit (Z.to_nat MAX_HEIGHT) source commit last page visitor (Cursor_root commit) s
  else Ok s.

Definition Tree_walk `{Crc32} {S} (source : PageReader) (commit : Commit) (last : Z)
    (visitor : Extent → S → result S) (s : S) : result S :=
  Tree_walk_pages source commit last (λ _ s, Ok s) visitor s.

(** [Tree::new] with the metadata budget granted. *)
Definition Tree_new (commit : Commit) (last : Z) : result unit := validate_view commit last.

(** ** What a decoded node satisfies *)

Lemma validate_extents_valid blocks slots : ∀ last u,
  validate_extents blocks last slots = Ok u → extents_valid blocks last (Extent_decode <$> slots).
Proof.
  induction slots as [|slot slots IH]; intros last u; [done|].
  cbn [validate_extents fmap list_fmap extents_valid].
  rewrite !require_bind, !andb_true_iff, !bool_decide_eq_true. intros ([[H1 H2] H3] & _ & Hk).
  apply result_bind_ok in Hk as ([] & Hk & Hr). split_and!; [done | done | done | | by eapply IH].
  intros [hash Hh]. unfold Extent_decode in Hh |- *. cbn [e_hash e_start e_end] in *.
  destruct (bool_decide (u16_at slot 52 = 1)); [|done].
  by apply require_ok, bool_decide_eq_true in Hk.
Qed.

Lemma validate_children_valid blocks page slots : ∀ previous u,
  validate_children blocks page previous slots = Ok u →
  children_valid blocks page previous (Child_decode <$> slots).
Proof.
  induction slots as [|slot slots IH]; intros previous u; [done|].
  cbn [validate_children fmap list_fmap children_valid].
  rewrite !require_bind, !andb_true_iff, !bool_decide_eq_true.
  intros ([? ?] & [? ?] & Hr). split_and!; try done. by eapply IH.
Qed.

(** Children with strictly ascending starts in [lower, upper). *)
Fixpoint ascending (lower upper : Z) (l : list Child) : Prop :=
  match l with
  | [] => True
  | c :: l' => lower ≤ c_start c < upper ∧ ascending (c_start c + 1) upper l'
  end.

Definition node_ok (cursor : Cursor) (node : Node) : Prop :=
  match node with
  | LeafNode entries =>
      entries ≠ [] ∧ extents_valid (cu_upper cursor) (default (cu_lower cursor) (cu_minimum cursor)) entries
  | BranchNode children =>
      children ≠ [] ∧ 1 ≤ cu_level cursor ∧
      ascending (default (cu_lower cursor) (cu_minimum cursor)) (cu_upper cursor) children
  end.

Lemma extents_valid_narrow blocks last lower upper l :
  extents_valid blocks last l → Forall (λ e, lower ≤ e_start e ∧ e_end e ≤ upper) l →
  extents_valid upper (Z.max last lower) l.
Proof.
  intros Hv Hf. revert last Hv. induction Hf as [|e l [H1 H2] Hf IH]; intros last; [done|].
  cbn. intros (? & ? & ? & ? & Hv). split_and!; try done; try lia.
  specialize (IH _ Hv). by replace (Z.max (e_end e) lower) with (e_end e) in IH by lia.
Qed.

Lemma extents_valid_start blocks last lower l e :
  extents_valid blocks last l → l !! 0%nat = Some e → lower ≤ e_start e → extents_valid blocks lower l.
Proof. destruct l; [done|]. cbn. intros (? & ? & ?) [= ->] ?. done. Qed.

Lemma children_valid_ascending blocks page l lower upper : ∀ previous,
  children_valid blocks page previous l →
  Forall (λ c, lower ≤ c_start c < upper) l →
  ascending (match previous with Some p => Z.max lower (p + 1) | None => lower end) upper l.
Proof.
  induction l as [|c l IH]; intros previous Hv Hf; [done|].
  destruct Hv as (_ & Hp & _ & _ & Hv). apply Forall_cons in Hf as [Hc Hf].
  cbn. split.
  - destruct previous; cbn in Hp; [breflect|]; lia.
  - specialize (IH _ Hv Hf). cbv beta iota in IH. by rewrite Z.max_r in IH by lia.
Qed.

Lemma as_chunks_nonempty n len b :
  0 < n → n ≤ len → 64 + len ≤ blen b → as_chunks n (slice 64 len b) ≠ [].
Proof.
  intros Hn Hl Hb. unfold as_chunks. rewrite blen_slice by lia.
  assert (1 ≤ len / n) by (apply Z.div_le_lower_bound; lia).
  destruct (Z.to_nat (len / n)) eqn:E; [lia|]. done.
Qed.

Lemma Forall_forallb_range {A} (p q : A → bool) l :
  forallb (λ x, p x && q x) l = true → Forall (λ x, p x = true ∧ q x = true) l.
Proof.
  induction l as [|x l IH]; cbn; [constructor|]. rewrite !andb_true_iff. intros [? ?]. by constructor; [|apply IH].
Qed.

Lemma Node_decode_ok `{Crc32} b offset image page cursor node :
  Page_decode b offset image = Ok page → Node_decode page cursor = Ok node → node_ok cursor node.
Proof.
  intros (Hlen & _ & _ & _ & _ & _ & _ & _ & _ & Hb & _ & Hbody)%Page_decode_iff.
  unfold Node_decode. rewrite require_bind, bool_decide_eq_true. intros [Hlev Hn].
  apply result_bind_ok in Hn as (n & Hn & Hm). apply result_bind_ok in Hm as ([] & Hm & [= ->]).
  unfold check_body in Hbody. unfold BLOCK_SIZE in Hlen.
  destruct (pg_kind page) eqn:Hk; [| |done|done].
  - unfold Page_extents in Hn. rewrite Hk, bool_decide_eq_true_2 in Hn by done.
    cbn [require mbind result_mbind result_bind] in Hn. apply result_bind_ok in Hn as ([] & Hf & [= <-]).
    apply require_ok, Forall_forallb_range in Hf.
    unfold Page_validate_leaf in Hbody. rewrite !require_bind, andb_true_iff, !bool_decide_eq_true in Hbody.
    destruct Hbody as ([_ Hc] & _ & Hv%validate_extents_valid). unfold LEAF_CAPACITY in Hc.
    set (slots := as_chunks 64 _) in *. split.
    + intros E%fmap_nil_inv. revert E. apply as_chunks_nonempty; rewrite ?Hb; lia.
    + eapply extents_valid_narrow with (lower := cu_lower cursor) (upper := cu_upper cursor) in Hv as Hv'.
      2:{ eapply Forall_impl; [exact Hf|]. intros e [? ?]. by breflect. }
      destruct (cu_minimum cursor) as [m|]; cbn [default].
      * apply result_bind_ok in Hm as (m' & Hm1 & Hm2%require_ok). breflect. subst m'.
        cbn [Node_minimum] in Hm1. destruct ((Extent_decode <$> slots) !! 0%nat) eqn:E; [|done].
        injection Hm1 as <-. by eapply extents_valid_start.
      * destruct ((Extent_decode <$> slots) !! 0%nat) as [e|] eqn:E.
        -- eapply extents_valid_start; [exact Hv' | exact E |].
           eapply (Forall_lookup_1 _ _ _ _ Hf) in E as [? ?]. by breflect.
        -- destruct (Extent_decode <$> slots); [done|]. done.
  - unfold Page_children in Hn. rewrite Hk, bool_decide_eq_true_2 in Hn by done.
    cbn [require mbind result_mbind result_bind] in Hn. apply result_bind_ok in Hn as ([] & Hf & [= <-]).
    apply require_ok, Forall_forallb_range in Hf.
    unfold Page_validate_branch in Hbody. rewrite !require_bind, andb_true_iff, !bool_decide_eq_true in Hbody.
    destruct Hbody as ([Hl Hc] & _ & Hv%validate_children_valid). unfold BRANCH_CAPACITY in Hc.
    set (slots := as_chunks 16 _) in *. split_and!.
    + intros E%fmap_nil_inv. revert E. apply as_chunks_nonempty; rewrite ?Hb; lia.
    + lia.
    + eapply children_valid_ascending with (lower := cu_lower cursor) (upper := cu_upper cursor) in Hv.
      2:{ eapply Forall_impl; [exact Hf|]. intros e [? ?]. by breflect. }
      destruct (cu_minimum cursor) as [m|]; cbn [default] in *; [|done].
      apply result_bind_ok in Hm as (m' & Hm1 & Hm2%require_ok). breflect. subst m'.
      cbn [Node_minimum] in Hm1. destruct (Child_decode <$> slots) as [|c cs]; [done|].
      cbn in Hm1, Hv |- *. injection Hm1 as <-. split; [lia | apply Hv].
Qed.

(** ** The contents of a subtree *)

Section Contents.
Context `{Crc32} (source : PageReader) (commit : Commit) (last : Z).

Fixpoint contents (fuel : nat) (cursor : Cursor) : result (list Extent) :=
  match fuel with
  | O => Panic
  | S fuel' =>
      node ← Tree_read_node source commit last cursor;
      match node with
      | LeafNode entries => Ok entries
      | BranchNode children =>
          ess ← mapM (λ index, child ← Cursor_child cursor children index; contents fuel' child)
                  (seq 0 (length children));
          Ok (concat ess)
      end
  end.

Lemma try_fold_app {A T} (f : A → T → result T) l k s :
  try_fold f (l ++ k) s = (s' ← try_fold f l s; try_fold f k s').
Proof.
  revert s. induction l as [|x l IH]; intros s; cbn; [done|].
  destruct (f x s); cbn; [apply IH | done | done].
Qed.

Lemma mapM_cons_ok {A B} (g : A → result B) x l r :
  mapM g (x :: l) = Ok r ↔ ∃ y ys, g x = Ok y ∧ mapM g l = Ok ys ∧ r = y :: ys.
Proof.
  cbn. split.
  - intros (y & Hy & (ys & Hys & [= <-])%result_bind_ok)%result_bind_ok. eauto.
  - intros (y & ys & -> & Hys & ->). cbn. rewrite Hys. done.
Qed.

(** A walk of a subtree calls the visitor on its contents, in order. *)
Lemma visit_contents {T} (visitor : Extent → T → result T) fuel : ∀ cursor es s,
  contents fuel cursor = Ok es →
  Tree_visit fuel source commit last (λ _ s, Ok s) visitor cursor s = try_fold visitor es s.
Proof.
  induction fuel as [|fuel IH]; intros cursor es s; cbn [contents Tree_visit]; [done|].
  destruct (Tree_read_node source commit last cursor) as [node| |];
    cbn [mbind result_mbind result_bind]; [|done|done].
  destruct node as [entries|children]; [by intros [= <-]|].
  intros (ess & Hm & [= <-])%result_bind_ok. revert ess s Hm.
  induction (seq 0 (length children)) as [|i ixs IHi]; intros ess s Hm.
  { injection Hm as <-. done. }
  apply mapM_cons_ok in Hm as (es & ess' & Hc & Hm & ->).
  cbn [try_fold concat]. rewrite try_fold_app. destruct (Cursor_child cursor children i) as [child| |];
    cbn [mbind result_mbind result_bind] in Hc |- *; [|done|done].
  rewrite (IH child es s Hc). destruct (try_fold visitor es s); cbn; [|done|done]. by apply IHi.
Qed.

(** [Tree_visit] with the visitor that collects the extents. *)
Definition collect (e : Extent) (s : list Extent) : result (list Extent) := Ok (s ++ [e]).

Lemma try_fold_collect es s : try_fold collect es s = Ok (s ++ es).
Proof.
  revert s. induction es as [|e es IH]; intros s; cbn [try_fold]; [by rewrite app_nil_r|].
  cbn [collect mbind result_mbind result_bind]. unfold collect at 1. cbn [mbind result_mbind result_bind].
  rewrite IH. by rewrite <- app_assoc.
Qed.

Lemma collect_contents fuel : ∀ cursor s r,
  Tree_visit fuel source commit last (λ _ s, Ok s) collect cursor s = Ok r →
  ∃ es, contents fuel cursor = Ok es ∧ r = s ++ es.
Proof.
  induction fuel as [|fuel IH]; intros cursor s r; cbn [contents Tree_visit]; [done|].
  destruct (Tree_read_node source commit last cursor) as [node| |];
    cbn [mbind result_mbind result_bind]; [|done|done].
  destruct node as [entries|children].
  { rewrite try_fold_collect. intros [= <-]. eauto. }
  assert (Hgen : ∀ ixs s, try_fold (λ index s, child ← Cursor_child cursor children index;
      Tree_visit fuel source commit last (λ _ s, Ok s) collect child s) ixs s = Ok r →
    ∃ ess, mapM (λ index, child ← Cursor_child cursor children index; contents fuel child) ixs
           = Ok ess ∧ r = s ++ concat ess).
  { induction ixs as [|i ixs IHi]; intros s0; cbn [try_fold].
    - intros [= <-]. exists []. by rewrite app_nil_r.
    - intros (s1 & H1 & H2)%result_bind_ok. apply result_bind_ok in H1 as (child & Hc & H1).
      apply IH in H1 as (es & He & ->). apply IHi in H2 as (ess & Hm & ->).
      exists (es :: ess). split; [|by rewrite <- app_assoc].
      apply mapM_cons_ok. exists es, ess. by rewrite Hc. }
  intros Hv. apply Hgen in Hv as (ess & Hm & ->). rewrite Hm. cbn. eauto.
Qed.

(** ** Segments of a branch *)

(** The contents of consecutive children, with the bounds of each. *)
Fixpoint segments (upper : Z) (cs : list Child) (ess : list (list Extent)) : Prop :=
  match cs, ess with
  | [], [] => True
  | c :: cs', es :: ess' =>
      extents_valid (match cs' with c' :: _ => c_start c' | [] => upper end) (c_start c) es ∧
      segments upper cs' ess'
  | _, _ => False
  end.

Lemma extents_valid_weaken blocks blocks' lo lo' l :
  extents_valid blocks lo l → blocks ≤ blocks' → lo' ≤ lo → extents_valid blocks' lo' l.
Proof.
  intros Hv Hb. revert lo lo' Hv. induction l as [|e l IH]; intros lo lo' Hv Hl; [done|].
  cbn in *. destruct Hv as (? & ? & ? & ? & ?). split_and!; try done; try lia. eapply IH; [done|lia].
Qed.

Lemma extents_valid_app mid hi lo a b :
  extents_valid mid lo a → extents_valid hi mid b → mid ≤ hi → lo ≤ mid → extents_valid hi lo (a ++ b).
Proof.
  intros Ha Hb Hm. revert lo Ha. induction a as [|e a IH]; intros lo Ha Hl; cbn in *.
  - eapply extents_valid_weaken; [done | lia | lia].
  - destruct Ha as (? & ? & ? & ? & Ha). split_and!; try done; try lia. apply IH; [done | lia].
Qed.

Lemma segments_valid upper cs : ∀ lo ess,
  ascending lo upper cs → segments upper cs ess → extents_valid upper lo (concat ess).
Proof.
  induction cs as [|c cs IH]; intros lo [|es ess] Ha Hs; try done.
  cbn in *. destruct Ha as [Hc Ha], Hs as [He Hs].
  assert (Hn : c_start c ≤ match cs with c' :: _ => c_start c' | [] => upper end ≤ upper).
  { destruct cs; cbn in Ha; lia. }
  eapply extents_valid_app; [eapply extents_valid_weaken; [exact He | reflexivity | lia] | | lia | lia].
  destruct cs as [|c' cs]; [by destruct ess|]. apply IH; [|done]. cbn in *. destruct Ha. split; [lia|done].
Qed.

(** Extents outside [lo, hi) cover no block of it. *)
Lemma covering_none blocks lo l block :
  extents_valid blocks lo l → block < lo ∨ blocks ≤ block → covering block l = None.
Proof.
  revert lo. induction l as [|e l IH]; intros lo Hv Hb; [done|]. cbn in *.
  destruct Hv as (? & ? & ? & ? & Hv).
  assert (bool_decide (e_start e ≤ block) && bool_decide (block < e_end e) = false) as ->.
  { destruct Hb; [rewrite bool_decide_eq_false_2 by lia; done |].
    rewrite (bool_decide_eq_false_2 (block < _)) by lia. apply andb_false_r. }
  eapply IH; [done|]. lia.
Qed.

Lemma covering_app block a b :
  covering block (a ++ b) = match covering block a with Some e => Some e | None => covering block b end.
Proof. induction a as [|e a IH]; cbn; [done|]. by destruct (_ && _). Qed.

Lemma rposition_none {A} (p : A → bool) l : rposition p l = None → ∀ x, x ∈ l → p x = false.
Proof.
  induction l as [|y l IH]; cbn; [intros _ x Hx; by apply elem_of_nil in Hx|].
  destruct (rposition p l); [done|]. destruct (p y) eqn:E; [done|].
  intros _ x [->|Hx]%elem_of_cons; [done | by apply IH].
Qed.

(** The child a lookup descends into holds the only extents that can cover
    the block. *)
Lemma segments_rposition upper block cs : ∀ lo ess,
  ascending lo upper cs → segments upper cs ess → block < upper →
  match rposition (λ c, bool_decide (c_start c ≤ block)) cs with
  | Some i =>
      ∃ c es, cs !! i = Some c ∧ ess !! i = Some es ∧ c_start c ≤ block ∧
        block < match cs !! S i with Some next => c_start next | None => upper end ∧
        covering block (concat ess) = covering block es ∧
        match cs with c0 :: _ => c_start c0 ≤ block | [] => True end
  | None => covering block (concat ess) = None
  end.
Proof.
  induction cs as [|c cs IH]; intros lo [|es ess] Ha Hs Hb; try done.
  cbn [rposition]. cbn [ascending segments] in *. destruct Ha as [Hc Ha], Hs as [He Hs].
  specialize (IH _ ess Ha Hs Hb).
  destruct (rposition _ cs) as [i|] eqn:Er.
  - destruct IH as (c1 & es1 & H1 & H2 & H3 & H4 & H5 & H6).
    destruct cs as [|c0 cs]; [done|]. exists c1, es1. split_and!; try done.
    + cbn [concat]. rewrite covering_app, (covering_none _ _ _ _ He) by (right; lia). done.
    + cbn in Ha. lia.
  - assert (Hnext : block < match cs with c' :: _ => c_start c' | [] => upper end).
    { destruct cs as [|c0 cs]; [done|].
      pose proof (rposition_none _ _ Er c0 ltac:(left)) as Hd. cbn in Hd. breflect. lia. }
    cbn [concat]. destruct (bool_decide (c_start c ≤ block)) eqn:Ec; breflect.
    + exists c, es. rewrite covering_app, IH. split_and!; try done.
      * by destruct cs.
      * by destruct (covering block es).
    + rewrite covering_app, IH. by rewrite (covering_none _ _ _ _ He) by (left; lia).
Qed.

Lemma Cursor_child_ok cursor children i child :
  Cursor_child cursor children i = Ok child →
  ∃ c, children !! i = Some c ∧ cu_offset child = c_offset c ∧ cu_level child = cu_level cursor - 1 ∧
    1 ≤ cu_level cursor ∧ cu_minimum child = Some (c_start c) ∧
    cu_upper child = match children !! S i with Some n => c_start n | None => cu_upper cursor end.
Proof.
  unfold Cursor_child. destruct (children !! i) as [c|]; [|done].
  destruct (checked_sub (cu_level cursor) 1) as [l|] eqn:E; [|done].
  apply checked_sub_Some in E as [-> ?]. cbn. intros [= <-]. exists c. done.
Qed.

Lemma contents_branch fuel cursor children ess :
  (∀ child es, contents fuel child = Ok es →
     extents_valid (cu_upper child) (default (cu_lower child) (cu_minimum child)) es) →
  mapM (λ index, child ← Cursor_child cursor children index; contents fuel child)
    (seq 0 (length children)) = Ok ess →
  segments (cu_upper cursor) children ess ∧
  ∀ i es, ess !! i = Some es →
    ∃ child, Cursor_child cursor children i = Ok child ∧ contents fuel child = Ok es.
Proof.
  intros IH. change 0%nat with (length (@nil Child)) at 1.
  assert (Hgen : ∀ suf pre ess, children = pre ++ suf →
    mapM (λ index, child ← Cursor_child cursor children index; contents fuel child)
      (seq (length pre) (length suf)) = Ok ess →
    segments (cu_upper cursor) suf ess ∧
    ∀ i es, ess !! i = Some es → ∃ child,
      Cursor_child cursor children (length pre + i) = Ok child ∧ contents fuel child = Ok es).
  2:{ intros Hm. apply (Hgen children [] ess); done. }
  induction suf as [|c suf IHs]; intros pre ess' Heq Hm.
  { cbn in Hm. injection Hm as <-. split; [done|]. intros i es Hi. by rewrite lookup_nil in Hi. }
  cbn [length seq] in Hm. apply mapM_cons_ok in Hm as (es & ess1 & Hc & Hm & ->).
  apply result_bind_ok in Hc as (child & Hc & Hes).
  destruct (IHs (pre ++ [c]) ess1) as [Hs Hl].
  { by rewrite <- app_assoc. }
  { rewrite length_app, Nat.add_comm. exact Hm. }
  split.
  - cbn [segments]. split; [|done]. apply IH in Hes as Hv.
    apply Cursor_child_ok in Hc as (c' & Hc' & _ & _ & _ & Hmin & Hup).
    rewrite Heq, list_lookup_middle in Hc' by done. injection Hc' as <-.
    rewrite Hmin, Hup in Hv. cbn in Hv.
    rewrite Heq, lookup_app_r, Nat.sub_succ_l, Nat.sub_diag in Hv by lia. cbn in Hv. by destruct suf.
  - intros [|i] es' Hi; cbn in Hi.
    + injection Hi as <-. rewrite Nat.add_0_r. eauto.
    + apply Hl in Hi as (child' & Hc1 & Hc2). exists child'. split; [|done].
      rewrite <- Hc1. f_equal. rewrite length_app. cbn. lia.
Qed.

Lemma contents_valid fuel : ∀ cursor es,
  contents fuel cursor = Ok es →
  extents_valid (cu_upper cursor) (default (cu_lower cursor) (cu_minimum cursor)) es.
Proof.
  induction fuel as [|fuel IH]; intros cursor es; cbn [contents]; [done|].
  intros (node & Hn & Hc)%result_bind_ok. unfold Tree_read_node in Hn.
  apply result_bind_ok in Hn as (_ & _ & (b & _ & (page & Hp & Hn)%result_bind_ok)%result_bind_ok).
  apply (Node_decode_ok _ _ _ _ _ _ Hp) in Hn. destruct node as [entries|children]; cbn in Hn.
  - injection Hc as <-. apply Hn.
  - destruct Hn as (_ & _ & Ha). apply result_bind_ok in Hc as (ess & Hm & [= <-]).
    eapply segments_valid; [exact Ha|]. by eapply contents_branch.
Qed.

(** ** Lookup *)

Definition start_lookup (block : Z) (cursor : option Cursor) (hash : option bytes) : Lookup :=
  {| lk_image_bytes := cm_image_bytes commit; lk_end := last; lk_block := block;
     lk_cursor := cursor; lk_result := hash; lk_failed := false |}.

Lemma contents_before fuel cursor es :
  contents fuel cursor = Ok es → require_before_commit (cu_offset cursor) last = Ok tt.
Proof.
  destruct fuel; cbn [contents]; [done|]. intros (node & Hn & _)%result_bind_ok.
  unfold Tree_read_node in Hn. by apply result_bind_ok in Hn as ([] & Hn & _).
Qed.

Lemma get_contents block fuel : ∀ cursor es,
  contents fuel cursor = Ok es → block < cu_upper cursor →
  get_loop (S fuel) source (start_lookup block (Some cursor) None)
  = Ok (covering block es ≫= e_hash).
Proof.
  induction fuel as [|fuel IH]; intros cursor es Hc Hb; [done|].
  pose proof (contents_before _ _ _ Hc) as Hbefore. cbn [contents] in Hc.
  apply result_bind_ok in Hc as (node & Hn & Hc). unfold Tree_read_node in Hn. rewrite Hbefore in Hn.
  apply result_bind_ok in Hn as (_ & _ & (b & Hread & (page & Hp & Hn)%result_bind_ok)%result_bind_ok).
  apply (Node_decode_ok _ _ _ _ _ _ Hp) in Hn as Hok.
  remember (S fuel) as fuel1 eqn:Ef. cbn [get_loop].
  assert (Hst : Lookup_state (start_lookup block (Some cursor) None)
    = Ok (LookupPage (cu_offset cursor) (cu_level cursor))).
  { unfold Lookup_state, start_lookup. cbn [lk_failed lk_cursor lk_end]. cbn. by rewrite Hbefore. }
  rewrite Hst. cbn [mbind result_mbind result_bind]. rewrite Hread. cbn [mbind result_mbind result_bind].
  unfold Lookup_accept. rewrite Hst. cbn [start_lookup lk_cursor]. unfold descend.
  cbn [start_lookup lk_image_bytes lk_block lk_result].
  rewrite bool_decide_eq_true_2, Hp by done. cbn [require mbind result_mbind result_bind]. rewrite Hn.
  cbn [mbind result_mbind result_bind]. subst fuel1. destruct node as [entries|children].
  - injection Hc as <-. done.
  - destruct Hok as (_ & Hlev & Ha). apply result_bind_ok in Hc as (ess & Hm & [= <-]).
    apply contents_branch in Hm as [Hs Hl]; [|by intros; eapply contents_valid].
    pose proof (segments_rposition _ block _ _ _ Ha Hs Hb) as Hr.
    destruct (rposition _ children) as [i|].
    + destruct Hr as (c & es & Hci & Hei & _ & Hup & -> & _).
      destruct (Hl i es Hei) as (child & Hchild & Hes). rewrite Hchild. cbn [mbind result_mbind result_bind].
      apply Cursor_child_ok in Hchild as (c' & _ & _ & _ & _ & _ & Hcu).
      unfold set_lookup; cbn [start_lookup lk_image_bytes lk_end lk_block].
      fold (start_lookup block (Some child) None).
      assert (Hst' : is_ok (Lookup_state (start_lookup block (Some child) None)) = true).
      { unfold Lookup_state, start_lookup. cbn [lk_failed lk_cursor lk_end negb require mbind
          result_mbind result_bind]. by rewrite (contents_before _ _ _ Hes). }
      destruct (Lookup_state (start_lookup block (Some child) None)) as [st| |] eqn:E; [|done|done].
      cbn [mbind result_mbind result_bind]. apply (IH child es Hes). by rewrite Hcu.
    + rewrite Hr. done.
Qed.

End Contents.

Lemma walk_agrees `{Crc32} (source : PageReader) (commit : Commit) (last : Z)
    (es : list Extent) :
  Tree_new commit last = Ok tt → Tree_walk source commit last collect [] = Ok es →
  extents_valid (cm_image_bytes commit / BLOCK_SIZE) 0 es ∧
  (∀ S (visitor : Extent → S → result S) (s : S),
     Tree_walk source commit last visitor s = try_fold visitor es s) ∧
  ∀ block, 0 ≤ block < cm_image_bytes commit / BLOCK_SIZE →
    Tree_get source commit last block = Ok (covering block es ≫= e_hash).
Proof.
  intros Hview Hwalk. unfold Tree_walk, Tree_walk_pages, Tree_get, Lookup_new in *.
  unfold Tree_new in Hview. rewrite Hview. cbn [mbind result_mbind result_bind].
  destruct (bool_decide (r_offset (cm_root commit) ≠ 0)) eqn:Er.
  - apply collect_contents in Hwalk as (es' & Hc & ->). cbn [app].
    split_and!.
    + apply contents_valid in Hc. exact Hc.
    + intros S visitor s. by apply visit_contents.
    + intros block Hb. rewrite bool_decide_eq_true_2 by lia. cbn [require mbind result_mbind result_bind].
      change get_fuel with (S (Z.to_nat MAX_HEIGHT)). eapply (get_contents source commit last); [exact Hc|].
      cbn. lia.
  - injection Hwalk as <-. split_and!; try done. intros block Hb.
    rewrite bool_decide_eq_true_2 by lia. done.
Qed.

(** C19: point lookups agree with full walks.  When [Tree::walk] accepts the
    tree of a commit, the extents it visits are ascending, disjoint and inside
    the image; walking again with any visitor calls it on exactly those
    extents, in order; and [Tree::get] succeeds for every block of the image
    and returns the hash of the extent that covers it, or no hash if none
    does, with at most one page read per level. *)
Theorem walk_then_get `{Crc32} (source : PageReader) (commit : Commit) (last : Z)
    (es : list Extent) :
  Tree_new commit last = Ok tt → Tree_walk source commit last collect [] = Ok es →
  extents_valid (cm_image_bytes commit / BLOCK_SIZE) 0 es ∧
  (∀ S (visitor : Extent → S → result S) (s : S),
     Tree_walk source commit last visitor s = try_fold visitor es s) ∧
  ∀ block, 0 ≤ block < cm_image_bytes commit / BLOCK_SIZE →
    Tree_get source commit last block = Ok (covering block es ≫= e_hash).
Proof. apply walk_agrees. Qed.

(** A tree of height two: blocks 0 and 3 are mapped, by two leaves. *)
Definition sample_tree : Commit := {|
  cm_store := replicate 16 1; cm_image := replicate 16 2; cm_generation := 1;
  cm_root := {| r_offset := 12288; r_height := 2 |}; cm_durable := 1; cm_image_bytes := 4 * 4096 |}.

Definition sample_leaf (block offset : Z) : bytes :=
  unwrap_or [] (@leaf_into crc_ieee (zeros 4096) offset (4 * 4096)
    [ {| e_start := block; e_end := block + 1; e_hash := Some (replicate 32 block) |} ]).

Definition sample_source : PageReader := λ offset,
  if decide (offset = 4096) then Ok (sample_leaf 0 4096)
  else if decide (offset = 8192) then Ok (sample_leaf 3 8192)
  else @branch_into crc_ieee (zeros 4096) 12288 (4 * 4096) 1
         [ {| c_start := 0; c_offset := 4096 |}; {| c_start := 3; c_offset := 8192 |} ].

Definition sample_walk : list Extent :=
  unwrap_or [] (@Tree_walk crc_ieee _ sample_source sample_tree 20480 collect []).

Lemma walk_then_get_witness :
  @Tree_get crc_ieee sample_source sample_tree 20480 3 = Ok (Some (replicate 32 3)) ∧
  @Tree_get crc_ieee sample_source sample_tree 20480 2 = Ok None.
Proof.
  destruct (@walk_then_get crc_ieee sample_source sample_tree 20480 sample_walk)
    as (_ & _ & H).
  - reflexivity.
  - apply is_ok_unwrap. vm_compute. reflexivity.
  - rewrite (H 3 ltac:(decide_now)), (H 2 ltac:(decide_now)).
    replace sample_walk with
      [ {| e_start := 0; e_end := 1; e_hash := Some (replicate 32 0) |};
        {| e_start := 3; e_end := 4; e_hash := Some (replicate 32 3) |} ]
      by (vm_compute; reflexivity).
    split; reflexivity.
Defined.

(** ** No panics *)

Lemma bind_no_panic {A B} (m : result A) (f : A → result B) :
  m ≠ Panic → (∀ a, m = Ok a → f a ≠ Panic) → m ≫= f ≠ Panic.
Proof. intros Hm Hf. destruct m; cbn; [by apply Hf | done | done]. Qed.

Lemma require_no_panic c m : require c m ≠ Panic.
Proof. by destruct c. Qed.

(** Walk through a chain of checks. *)
Ltac no_panic :=
  repeat first
    [ apply require_no_panic | discriminate
    | match goal with
      | H : ∀ _, _ ≠ Panic |- _ => apply H
      | |- (if ?c then _ else _) ≠ Panic => destruct c
      | |- (_ ≫= _) ≠ Panic => apply bind_no_panic; [|intros ? ?]
      end ].

Lemma validate_extents_no_panic blocks slots : ∀ last, validate_extents blocks last slots ≠ Panic.
Proof.
  induction slots as [|slot slots IH]; intros last; cbn [validate_extents]; [done|].
  no_panic.
Qed.

Lemma validate_children_no_panic blocks page slots : ∀ previous,
  validate_children blocks page previous slots ≠ Panic.
Proof.
  induction slots as [|slot slots IH]; intros previous; cbn [validate_children]; [done|].
  no_panic.
Qed.

Lemma Page_decode_no_panic `{Crc32} b offset image : Page_decode b offset image ≠ Panic.
Proof.
  unfold Page_decode. no_panic.
  - unfold Kind_of. no_panic.
  - match goal with |- match ?k with _ => _ end ≠ _ => destruct k end.
    + unfold Page_validate_leaf. no_panic. apply validate_extents_no_panic.
    + unfold Page_validate_branch. no_panic. apply validate_children_no_panic.
    + unfold Page_commit, Commit_validate. no_panic.
    + no_panic.
Qed.

Lemma page_nonempty `{Crc32} b offset image page :
  Page_decode b offset image = Ok page →
  Page_extents page ≠ Ok [] ∧ Page_children page ≠ Ok [].
Proof.
  intros (Hlen & _ & _ & _ & _ & _ & _ & _ & _ & Hb & _ & Hbody)%Page_decode_iff.
  unfold BLOCK_SIZE in Hlen. unfold check_body, Page_validate_leaf, Page_validate_branch in Hbody.
  unfold Page_extents, Page_children. destruct (pg_kind page); [| |done|done];
    rewrite !require_bind, andb_true_iff, !bool_decide_eq_true in Hbody;
    destruct Hbody as ([_ Hc] & _ & _); unfold LEAF_CAPACITY, BRANCH_CAPACITY in Hc.
  - split; [|done]. rewrite bool_decide_eq_true_2 by done. intros [= E%fmap_nil_inv]. revert E.
    apply as_chunks_nonempty; rewrite ?Hb; lia.
  - split; [done|]. rewrite bool_decide_eq_true_2 by done. intros [= E%fmap_nil_inv]. revert E.
    apply as_chunks_nonempty; rewrite ?Hb; lia.
Qed.

Lemma Node_decode_no_panic `{Crc32} b offset image page cursor :
  Page_decode b offset image = Ok page → Node_decode page cursor ≠ Panic.
Proof.
  intros [He Hc]%page_nonempty. unfold Node_decode. no_panic.
  - unfold Page_extents, Page_children. destruct (pg_kind page); no_panic.
  - destruct (cu_minimum cursor); [|done].
    assert (Hm : Node_minimum a0 ≠ Panic); [|no_panic; done].
    destruct (pg_kind page); try done.
    + apply result_bind_ok in H1 as (es & He' & (_ & _ & [= <-])%result_bind_ok).
      destruct es; [congruence | done].
    + apply result_bind_ok in H1 as (cs & Hc' & (_ & _ & [= <-])%result_bind_ok).
      destruct cs; [congruence | done].
Qed.

Section Total.
Context `{Crc32} (source : PageReader) (commit : Commit) (last : Z).
Context (Hsource : ∀ offset, source offset ≠ Panic).

Lemma read_node_no_panic cursor : Tree_read_node source commit last cursor ≠ Panic.
Proof.
  unfold Tree_read_node, require_before_commit. no_panic.
  - apply Page_decode_no_panic.
  - by eapply Node_decode_no_panic.
Qed.

Lemma try_fold_no_panic {A S} (f : A → S → result S) l : ∀ s,
  (∀ x s, x ∈ l → f x s ≠ Panic) → try_fold f l s ≠ Panic.
Proof.
  induction l as [|x l IH]; intros s Hf; cbn [try_fold]; [done|].
  apply bind_no_panic; [apply Hf; left|]. intros s' _. apply IH. intros y s1 Hy. apply Hf. by right.
Qed.

Lemma Cursor_child_no_panic cursor children i :
  (i < length children)%nat → 1 ≤ cu_level cursor → Cursor_child cursor children i ≠ Panic.
Proof.
  intros Hi Hl. unfold Cursor_child. destruct (lookup_lt_is_Some_2 _ _ Hi) as [c ->].
  by rewrite (proj2 (checked_sub_Some (cu_level cursor) 1 _)) by done.
Qed.

Lemma visit_no_panic {S} (page : Z → S → result S) (visitor : Extent → S → result S) fuel :
  (∀ o s, page o s ≠ Panic) → (∀ e s, visitor e s ≠ Panic) → ∀ cursor s,
  cu_level cursor < Z.of_nat fuel →
  0 ≤ cu_level cursor → Tree_visit fuel source commit last page visitor cursor s ≠ Panic.
Proof.
  intros Hp Hv. induction fuel as [|fuel IH]; intros cursor s Hl H0; [lia|]. cbn [Tree_visit].
  apply bind_no_panic; [apply read_node_no_panic|]. intros node Hn.
  apply bind_no_panic; [apply Hp|]. intros s' _. destruct node as [entries|children].
  - apply try_fold_no_panic. intros. apply Hv.
  - assert (Hlev : 1 ≤ cu_level cursor).
    { unfold Tree_read_node in Hn.
      apply result_bind_ok in Hn as (_ & _ & (b & _ & (pg & Hpg & Hn)%result_bind_ok)%result_bind_ok).
      apply (Node_decode_ok _ _ _ _ _ _ Hpg) in Hn. apply Hn. }
    apply try_fold_no_panic. intros i s1 Hi%elem_of_seq. apply bind_no_panic.
    + apply Cursor_child_no_panic; lia.
    + intros child (c & _ & _ & Hcl & _)%Cursor_child_ok. apply IH; lia.
Qed.

Lemma rposition_lt {A} (p : A → bool) l i : rposition p l = Some i → (i < length l)%nat.
Proof.
  revert i. induction l as [|x l IH]; intros i; cbn; [done|].
  destruct (rposition p l) as [j|]; [intros [= <-]; specialize (IH j eq_refl); lia|].
  destruct (p x); [|done]. intros [= <-]. lia.
Qed.

(** Every accepted page lowers the level of the cursor. *)
Lemma descend_spec s cursor offset b :
  descend s cursor offset b ≠ Panic ∧
  ∀ next r, descend s cursor offset b = Ok (next, r) →
    match next with Some c => 0 ≤ cu_level c < cu_level cursor | None => True end.
Proof.
  unfold descend. split.
  - no_panic; [apply Page_decode_no_panic | by eapply Node_decode_no_panic|].
    match goal with H : Node_decode _ _ = Ok ?n |- _ => destruct n as [|children] end; [done|].
    destruct (rposition _ _) as [i|] eqn:Er; [|done]. apply bind_no_panic; [|done].
    apply Cursor_child_no_panic; [by eapply rposition_lt|].
    match goal with Hp : Page_decode _ _ _ = Ok _, Hn : Node_decode _ _ = Ok _ |- _ =>
      apply (Node_decode_ok _ _ _ _ _ _ Hp) in Hn; apply Hn end.
  - intros next r (_ & _ & (page & Hp & (node & Hn & Hr)%result_bind_ok)%result_bind_ok)%result_bind_ok.
    destruct node as [|children]; [by injection Hr as <- _|].
    destruct (rposition _ _) as [i|]; [|by injection Hr as <- _].
    apply result_bind_ok in Hr as (child & (c & _ & _ & Hcl & Hl & _)%Cursor_child_ok & [= <- _]). lia.
Qed.

Lemma state_no_panic s : Lookup_state s ≠ Panic.
Proof.
  unfold Lookup_state, require_before_commit. no_panic. destruct (lk_cursor s); no_panic.
Qed.

Lemma get_loop_no_panic fuel : ∀ s,
  match lk_cursor s with Some c => 0 ≤ cu_level c ∧ cu_level c + 1 < Z.of_nat fuel
                       | None => (0 < fuel)%nat end →
  get_loop fuel source s ≠ Panic.
Proof.
  induction fuel as [|fuel IH]; intros s Hs; [destruct (lk_cursor s); lia|]. cbn [get_loop].
  apply bind_no_panic; [apply state_no_panic|]. intros state Hst. destruct state as [offset level|]; [|done].
  apply bind_no_panic; [apply Hsource|]. intros b _.
  unfold Lookup_accept. rewrite Hst. destruct (lk_cursor s) as [cursor|] eqn:Ec; [|done].
  destruct (descend_spec s cursor offset b) as [Hnp Hdec].
  destruct (descend s cursor offset b) as [[next r]|e|] eqn:Ed; [|done|done].
  apply bind_no_panic; [apply state_no_panic|]. intros _ _. apply IH. cbn [set_lookup lk_cursor].
  specialize (Hdec next r eq_refl). destruct next; lia.
Qed.

End Total.

(** C34: traversals terminate and never panic.  On any page source, however
    corrupt its pages are (cycles, wrong levels, missing children), a lookup
    and a walk whose visitors do not panic return a value or an error: the
    levels strictly decrease, so the height bound of 8 is never exceeded, and
    no child index, level or first entry is out of range. *)
Theorem traversals_total `{Crc32} (source : PageReader) (commit : Commit) (last block : Z) {S}
    (page : Z → S → result S) (visitor : Extent → S → result S) (s : S) :
  (∀ offset, source offset ≠ Panic) → (∀ o s, page o s ≠ Panic) → (∀ e s, visitor e s ≠ Panic) →
  Tree_get source commit last block ≠ Panic ∧
  (Tree_new commit last = Ok tt → Tree_walk_pages source commit last page visitor s ≠ Panic).
Proof.
  intros Hs Hp Hv.
  assert (Hh : ∀ u, validate_view commit last = Ok u → r_offset (cm_root commit) ≠ 0 →
    1 ≤ r_height (cm_root commit) ≤ MAX_HEIGHT).
  { intros u Hu Hr. unfold validate_view, Commit_validate in Hu. rewrite !require_bind, require_ok in Hu.
    destruct Hu as (_ & _ & Hu). rewrite (bool_decide_eq_false_2 _ Hr) in Hu. by breflect. }
  split.
  - unfold Tree_get, Lookup_new. apply bind_no_panic.
    + unfold validate_view, Commit_validate. no_panic.
    + intros lookup (u & Hu & (_ & _ & [= <-])%result_bind_ok)%result_bind_ok.
      apply get_loop_no_panic; [done|]. cbn [lk_cursor].
      destruct (bool_decide (r_offset (cm_root commit) ≠ 0)) eqn:E; breflect.
      * specialize (Hh u Hu E). unfold Cursor_root, saturating_sub, MAX_HEIGHT in *. cbn [cu_level].
        unfold get_fuel, MAX_HEIGHT. lia.
      * unfold get_fuel. lia.
  - intros Hview. unfold Tree_walk_pages. destruct (bool_decide _) eqn:E; breflect; [|done].
    specialize (Hh tt Hview E). apply visit_no_panic; try done;
      unfold Cursor_root, saturating_sub, MAX_HEIGHT in *; cbn [cu_level]; lia.
Qed.

Lemma traversals_total_witness :
  @Tree_get crc_ieee (λ _, Ok (zeros 4096)) sample_tree 20480 1 ≠ Panic.
Proof.
  apply (@traversals_total crc_ieee (λ _, Ok (zeros 4096)) sample_tree 20480 1 unit
    (λ _ s, Ok s) (λ _ s, Ok s) tt); intros; discriminate.
Defined.
