(* ===== verification/ManifestEditor.v ===== *)
(** * The copy-on-write editor of the manifest tree

    Models [crates/cas/core/src/manifest/tree/editor.rs] and the page buffers
    of [crates/cas/core/src/aligned.rs] it fills: [Prepared::build] applies a
    list of edits to a committed tree, writing only new pages, and emits the
    reachable ones with a new COMMIT page behind them.  The allocators answer
    which growth steps of a buffer they grant.  The theorems about these
    definitions are in [ManifestEditorSpec]. *)
From S2P Require Import Prelude Bytes ManifestFormat ManifestTree.

Definition MAX_CHANGES : Z := 256 + 62.
Definition MAX_TRANSACTION_BYTES : Z := 128 * 1024 * 1024.

Record Stats : Type := {
  st_changes : Z;
  st_written_pages : Z;
  st_max_pages_per_change : Z;
  st_old_page_reads : Z;
  st_allocated_bytes : Z;
}.

(** ** Page buffers *)

(** The allocator answers for each capacity, in blocks, whether the growth to
    it is granted. *)
Record AlignedPages : Type := {
  ap_allocator : Z → bool;
  ap_blocks : list bytes;
  ap_capacity : Z;
  ap_limit : Z;
}.

Definition AlignedPages_new (allocator : Z → bool) (limit : Z) : AlignedPages := {|
  ap_allocator := allocator; ap_blocks := []; ap_capacity := 0; ap_limit := limit |}.

(** [as_slice().len()]. *)
Definition AlignedPages_len (p : AlignedPages) : Z := Z.of_nat (length (ap_blocks p)) * BLOCK_SIZE.

Definition AlignedPages_allocated_bytes (p : AlignedPages) : Z := ap_capacity p * BLOCK_SIZE.

Definition AlignedPages_grow (p : AlignedPages) : result AlignedPages :=
  if bool_decide (Z.of_nat (length (ap_blocks p)) = ap_capacity p) then
    let capacity := Z.min (Z.min (Z.max (ap_capacity p) 1 * 2) u64_max) (ap_limit p) in
    if ap_allocator p capacity
    then Ok {| ap_allocator := ap_allocator p; ap_blocks := ap_blocks p;
               ap_capacity := capacity; ap_limit := ap_limit p |}
    else out_of_memory "page allocation denied"
  else Ok p.

(** The new page is the last of the result. *)
Definition AlignedPages_push_zeroed (p : AlignedPages) : result AlignedPages :=
  if bool_decide (Z.of_nat (length (ap_blocks p)) = ap_limit p)
  then out_of_memory "page plan exhausted"
  else
    p ← AlignedPages_grow p;
    Ok {| ap_allocator := ap_allocator p; ap_blocks := ap_blocks p ++ [zeros BLOCK_SIZE];
          ap_capacity := ap_capacity p; ap_limit := ap_limit p |}.

(** [write(pages.push_zeroed()?)?]: the new page is written in place. *)
Definition push_written (p : AlignedPages) (write : bytes → result bytes) : result AlignedPages :=
  p ← AlignedPages_push_zeroed p;
  page ← expect (last (ap_blocks p));
  page ← write page;
  Ok {| ap_allocator := ap_allocator p;
        ap_blocks := take (length (ap_blocks p) - 1) (ap_blocks p) ++ [page];
        ap_capacity := ap_capacity p; ap_limit := ap_limit p |}.

(** ** Bounded vectors and slices *)

(** [ArrayVec::try_push] with the error converted by [io::Error::other]. *)
Definition try_push {A} (capacity : Z) (l : list A) (x : A) : result (list A) :=
  if bool_decide (Z.of_nat (length l) < capacity) then Ok (l ++ [x])
  else other "insufficient capacity".

(** [ArrayVec::try_extend_from_slice]. *)
Definition try_extend {A} (capacity : Z) (l k : list A) : result (list A) :=
  if bool_decide (Z.of_nat (length l + length k) ≤ capacity) then Ok (l ++ k)
  else other "insufficient capacity".

Definition LEAVES_CAPACITY : Z := LEAF_CAPACITY + 2.
Definition CHILDREN_CAPACITY : Z := BRANCH_CAPACITY + 2.
Definition LINKS_CAPACITY : Z := 2.

(** [slice::chunks]; one chunk at most per element. *)
Fixpoint chunks_go {A} (count : nat) (width : nat) (l : list A) : list (list A) :=
  match count, l with
  | S count', _ :: _ => take width l :: chunks_go count' width (drop width l)
  | _, _ => []
  end.

Definition chunks {A} (width : nat) (l : list A) : list (list A) := chunks_go (length l) width l.

(** [sort_unstable_by_key(|entry| entry.start)]. *)
Fixpoint insert_by_start (x : Extent) (l : list Extent) : list Extent :=
  match l with
  | [] => [x]
  | y :: l' => if bool_decide (e_start x ≤ e_start y) then x :: l else y :: insert_by_start x l'
  end.

Definition sort_by_start (l : list Extent) : list Extent := foldr insert_by_start [] l.

Definition set_start (e : Extent) (start : Z) : Extent :=
  {| e_start := start; e_end := e_end e; e_hash := e_hash e |}.
Definition set_end (e : Extent) (last : Z) : Extent :=
  {| e_start := e_start e; e_end := last; e_hash := e_hash e |}.
Definition set_offset (c : Child) (offset : Z) : Child :=
  {| c_start := c_start c; c_offset := offset |}.

(** ** The editor *)

(** The tree's source, commit and end are section variables below. *)
Record Editor : Type := {
  ed_reads : Z;
  ed_buffer : AlignedPages;
  ed_root : Root;
  ed_pages : Z;
  ed_max_pages_per_change : Z;
}.

Definition set_buffer (ed : Editor) (buffer : AlignedPages) (pages : Z) : Editor := {|
  ed_reads := ed_reads ed; ed_buffer := buffer; ed_root := ed_root ed; ed_pages := pages;
  ed_max_pages_per_change := ed_max_pages_per_change ed |}.

Definition set_root (ed : Editor) (root : Root) : Editor := {|
  ed_reads := ed_reads ed; ed_buffer := ed_buffer ed; ed_root := root; ed_pages := ed_pages ed;
  ed_max_pages_per_change := ed_max_pages_per_change ed |}.

Definition set_reads (ed : Editor) (reads : Z) : Editor := {|
  ed_reads := reads; ed_buffer := ed_buffer ed; ed_root := ed_root ed; ed_pages := ed_pages ed;
  ed_max_pages_per_change := ed_max_pages_per_change ed |}.

Definition set_max (ed : Editor) (max : Z) : Editor := {|
  ed_reads := ed_reads ed; ed_buffer := ed_buffer ed; ed_root := ed_root ed; ed_pages := ed_pages ed;
  ed_max_pages_per_change := max |}.

Definition Root_default : Root := {| r_offset := 0; r_height := 0 |}.

Section Editor.
Context `{Crc32} (source : PageReader) (commit : Commit) (end_ : Z).

Definition Editor_blocks : Z := cm_image_bytes commit / BLOCK_SIZE.

Definition Editor_next_offset (ed : Editor) : Z := end_ + ed_pages ed * BLOCK_SIZE.

Definition Editor_read (ed : Editor) (cursor : Cursor) : result (Node * Editor) :=
  if bool_decide (cu_offset cursor < end_) then
    node ← Tree_read_node source commit end_ cursor;
    Ok (node, set_reads ed (saturating_add 64 (ed_reads ed) 1))
  else
    let start := cu_offset cursor - end_ in
    require (is_multiple_of start BLOCK_SIZE && bool_decide (start < ed_pages ed * BLOCK_SIZE))
      "manifest points to an unwritten transaction page";;
    b ← expect (ap_blocks (ed_buffer ed) !! Z.to_nat (start / BLOCK_SIZE));
    page ← Page_decode b (cu_offset cursor) (cm_image_bytes commit);
    node ← Node_decode page cursor;
    Ok (node, ed).

(** The loop of [leaves] and of [branches]: every part becomes one page. *)
Definition write_part {A} (write : Z → list A → bytes → result bytes) (key : A → Z) (part : list A)
    (s : list Child * Editor) : result (list Child * Editor) :=
  let '(links, ed) := s in
  let offset := Editor_next_offset ed in
  buffer ← push_written (ed_buffer ed) (write offset part);
  let ed := set_buffer ed buffer (ed_pages ed + 1) in
  first ← expect (part !! 0%nat);
  links ← try_push LINKS_CAPACITY links {| c_start := key first; c_offset := offset |};
  Ok (links, ed).

Definition part_width (capacity : Z) (len : nat) : nat :=
  if bool_decide (capacity < Z.of_nat len) then Nat.div (len + 1) 2 else Nat.max len 1.

Definition Editor_leaves (ed : Editor) (entries : list Extent) : result (list Child * Editor) :=
  try_fold (write_part (λ offset part b, leaf_into b offset (cm_image_bytes commit) part) e_start)
    (chunks (part_width LEAF_CAPACITY (length entries)) entries) ([], ed).

Definition Editor_branches (ed : Editor) (level : Z) (children : list Child)
    : result (list Child * Editor) :=
  try_fold (write_part (λ offset part b, branch_into b offset (cm_image_bytes commit) level part)
              c_start)
    (chunks (part_width BRANCH_CAPACITY (length children)) children) ([], ed).

(** The pieces of one entry that an edit leaves. *)
Definition edit_entry (edit entry : Extent) (entries : list Extent) : result (list Extent) :=
  if bool_decide (e_end entry ≤ e_start edit) || bool_decide (e_end edit ≤ e_start entry)
  then try_push LEAVES_CAPACITY entries entry
  else
    entries ← (if bool_decide (e_start entry < e_start edit)
               then try_push LEAVES_CAPACITY entries (set_end entry (e_start edit))
               else Ok entries);
    (if bool_decide (e_end edit < e_end entry)
     then try_push LEAVES_CAPACITY entries (set_start entry (e_end edit))
     else Ok entries).

Definition edit_leaf (original : list Extent) (edit : Extent) : result (list Extent) :=
  entries ← try_fold (edit_entry edit) original [];
  entries ← (match e_hash edit with
             | Some _ => try_push LEAVES_CAPACITY entries edit
             | None => Ok entries
             end);
  Ok (sort_by_start entries).

(** The loop body of [modify] over the children of a branch, and the recursive
    call it makes. *)
Definition modify_child
    (modify : Editor → Node → Cursor → Extent → result (list Child * Editor))
    (original : list Child) (cursor : Cursor) (edit : Extent) (index : nat) (s : list Child * Editor)
    : result (list Child * Editor) :=
  let '(children, ed) := s in
  child ← expect (original !! index);
  next ← Cursor_child cursor original index;
  if bool_decide (e_end edit ≤ cu_lower next) || bool_decide (cu_upper next ≤ e_start edit)
  then children ← try_push CHILDREN_CAPACITY children child; Ok (children, ed)
  else if negb (bool_decide (e_hash edit = None)
                && bool_decide (e_start edit ≤ cu_lower next)
                && bool_decide (cu_upper next ≤ e_end edit))
  then
    '(node, ed) ← Editor_read ed next;
    '(replacement, ed) ← modify ed node next edit;
    children ← try_extend CHILDREN_CAPACITY children replacement;
    Ok (children, ed)
  else Ok (children, ed).

(** One level of the tree per unit of fuel; running out is [Panic]. *)
Fixpoint Editor_modify (fuel : nat) (ed : Editor) (node : Node) (cursor : Cursor) (edit : Extent)
    : result (list Child * Editor) :=
  match fuel with
  | O => Panic
  | S fuel' =>
      minimum ← Node_minimum node;
      let unchanged := {| c_start := minimum; c_offset := cu_offset cursor |} in
      match node with
      | LeafNode original =>
          entries ← edit_leaf original edit;
          if bool_decide (entries = original) then Ok ([unchanged], ed)
          else Editor_leaves ed entries
      | BranchNode original =>
          '(children, ed) ← try_fold (modify_child (Editor_modify fuel') original cursor edit)
                              (seq 0 (length original)) ([], ed);
          if bool_decide (children = original) then Ok ([unchanged], ed)
          else Editor_branches ed (cu_level cursor) children
      end
  end.

(** The loop body of [emit] over the children of a branch. *)
Definition emit_child
    (emit : Editor → Cursor → AlignedPages → result (Z * Editor * AlignedPages)) (cursor : Cursor)
    (index : nat) (s : list Child * Editor * AlignedPages) : result (list Child * Editor * AlignedPages) :=
  let '(children, ed, output) := s in
  next ← Cursor_child cursor children index;
  child ← expect (children !! index);
  '(offset, ed, output) ← emit ed next output;
  Ok (<[index := set_offset child offset]> children, ed, output).

(** [emit] threads the output buffer through the recursion. *)
Fixpoint Editor_emit (fuel : nat) (ed : Editor) (cursor : Cursor) (output : AlignedPages)
    : result (Z * Editor * AlignedPages) :=
  match fuel with
  | O => Panic
  | S fuel' =>
      if bool_decide (cu_offset cursor < end_) then Ok (cu_offset cursor, ed, output)
      else
        '(node, ed) ← Editor_read ed cursor;
        let image_bytes := cm_image_bytes commit in
        match node with
        | LeafNode entries =>
            let offset := end_ + AlignedPages_len output in
            output ← push_written output (λ b, leaf_into b offset image_bytes entries);
            Ok (offset, ed, output)
        | BranchNode children =>
            '(children, ed, output) ← try_fold (emit_child (Editor_emit fuel') cursor)
                                        (seq 0 (length children)) (children, ed, output);
            let offset := end_ + AlignedPages_len output in
            output ← push_written output
                       (λ b, branch_into b offset image_bytes (cu_level cursor) children);
            Ok (offset, ed, output)
        end
  end.

Definition root_cursor (root : Root) : result Cursor :=
  level ← expect (checked_sub (r_height root) 1);
  Ok {| cu_offset := r_offset root; cu_level := level; cu_minimum := None;
        cu_lower := 0; cu_upper := Editor_blocks |}.

(** The loop that drops roots with one child; running out of fuel is [Panic]. *)
Fixpoint collapse_root (fuel : nat) (ed : Editor) : result Editor :=
  if bool_decide (1 < r_height (ed_root ed)) then
    match fuel with
    | O => Panic
    | S fuel' =>
        cursor ← root_cursor (ed_root ed);
        '(node, ed) ← Editor_read ed cursor;
        match node with
        | LeafNode _ => Panic
        | BranchNode children =>
            if bool_decide (length children ≠ 1%nat) then Ok ed
            else
              child ← expect (children !! 0%nat);
              collapse_root fuel'
                (set_root ed {| r_offset := c_offset child; r_height := r_height (ed_root ed) - 1 |})
        end
    end
  else Ok ed.

Definition modify_fuel : nat := Z.to_nat MAX_HEIGHT.

Definition Editor_apply (ed : Editor) (edit : Extent) : result Editor :=
  if bool_decide (e_hash edit = None) && bool_decide (e_start edit = 0)
     && bool_decide (e_end edit = Editor_blocks)
  then Ok (set_root ed Root_default)
  else if bool_decide (r_offset (ed_root ed) = 0) then
    match e_hash edit with
    | Some _ =>
        '(links, ed) ← Editor_leaves ed [edit];
        link ← expect (links !! 0%nat);
        Ok (set_root ed {| r_offset := c_offset link; r_height := 1 |})
    | None => Ok ed
    end
  else
    cursor ← root_cursor (ed_root ed);
    '(node, ed) ← Editor_read ed cursor;
    '(links, ed) ← Editor_modify modify_fuel ed node cursor edit;
    ed ← (match links with
          | [] => Ok (set_root ed Root_default)
          | [link] => Ok (set_root ed {| r_offset := c_offset link; r_height := r_height (ed_root ed) |})
          | _ =>
              require (bool_decide (r_height (ed_root ed) < MAX_HEIGHT)) "manifest height exhausted";;
              '(roots, ed) ← Editor_branches ed (r_height (ed_root ed)) links;
              link ← expect (roots !! 0%nat);
              Ok (set_root ed {| r_offset := c_offset link; r_height := r_height (ed_root ed) + 1 |})
          end);
    collapse_root modify_fuel ed.

(** One iteration of the loop of [build] over the edits. *)
Definition Editor_change (edit : Extent) (ed : Editor) : result Editor :=
  let before := ed_pages ed in
  let bound := 8 * Z.max (r_height (ed_root ed)) 1 + 8 in
  ed ← Editor_apply ed edit;
  let emitted := ed_pages ed - before in
  require (bool_decide (emitted ≤ bound)) "COW edit exceeded 8H+8 pages";;
  Ok (set_max ed (Z.max (ed_max_pages_per_change ed) emitted)).

End Editor.

(** ** Prepared transactions *)

Record Prepared : Type := {
  p_buffer : AlignedPages;
  p_previous : Commit;
  p_commit : Commit;
  p_offset : Z;
  p_stats : Stats;
}.

(** The allocations of [build]: the scratch page of the tree and the two
    buffers. *)
Record Allocators : Type := {
  al_scratch : bool;
  al_draft : Z → bool;
  al_output : Z → bool;
}.

Definition edit_pages (edits : list Extent) : Z :=
  Z.of_nat (length edits) * (8 * MAX_HEIGHT + 8) + 1.

(** The checks before anything is allocated: the new generation. *)
Definition Prepared_check (current : Commit) (end_ : Z) (edits : list Extent) (durable : Z)
    : result Z :=
  require (bool_decide (Z.of_nat (length edits) ≤ MAX_CHANGES)
           && bool_decide (cm_durable current ≤ durable)
           && (bool_decide (edits = []) || bool_decide (cm_durable current < durable)))
    "manifest transaction bounds";;
  let blocks := cm_image_bytes current / BLOCK_SIZE in
  try_fold (λ edit _,
      require (bool_decide (e_start edit < e_end edit) && bool_decide (e_end edit ≤ blocks)
               && (bool_decide (e_hash edit = None) || bool_decide (e_end edit - e_start edit = 1)))
        "manifest edit range") edits tt;;
  generation ← ok_or (Error Other "manifest generations exhausted")
                 (checked_add 64 (cm_generation current) 1);
  let bytes := edit_pages edits * BLOCK_SIZE in
  require (bool_decide (bytes ≤ MAX_TRANSACTION_BYTES)
           && is_some_and (checked_add 64 end_ bytes) (λ n, bool_decide (n ≤ i64_max)))
    "manifest output bound";;
  Ok generation.

Definition Editor_new (current : Commit) (allocator : Z → bool) (pages : Z) : Editor := {|
  ed_reads := 0; ed_buffer := AlignedPages_new allocator pages; ed_root := cm_root current;
  ed_pages := 0; ed_max_pages_per_change := 0 |}.

Definition set_commit_root (c : Commit) (root : Root) : Commit := {|
  cm_store := cm_store c; cm_image := cm_image c; cm_generation := cm_generation c;
  cm_root := root; cm_durable := cm_durable c; cm_image_bytes := cm_image_bytes c |}.

Definition next_commit (current : Commit) (root : Root) (generation durable : Z) : Commit := {|
  cm_store := cm_store current; cm_image := cm_image current; cm_generation := generation;
  cm_root := root; cm_durable := durable; cm_image_bytes := cm_image_bytes current |}.

Definition Prepared_build `{Crc32} (source : PageReader) (current : Commit) (end_ : Z)
    (edits : list Extent) (durable : Z) (metadata : Allocators) : result Prepared :=
  generation ← Prepared_check current end_ edits durable;
  let pages := edit_pages edits in
  Tree_new current end_;;
  (if al_scratch metadata then Ok tt else out_of_memory "aligned buffer allocation denied");;
  ed ← try_fold (Editor_change source current end_) edits
         (Editor_new current (al_draft metadata) pages);
  let output := AlignedPages_new (al_output metadata) pages in
  '(root, ed, output) ←
     (if bool_decide (r_offset (ed_root ed) = 0) then Ok (ed_root ed, ed, output)
      else
        let cursor := Cursor_root (set_commit_root current (ed_root ed)) in
        '(offset, ed', output) ← Editor_emit source current end_ (Z.to_nat MAX_HEIGHT) ed cursor output;
        Ok ({| r_offset := offset; r_height := r_height (ed_root ed) |}, ed', output));
  let commit := next_commit current root generation durable in
  let offset := end_ + AlignedPages_len output in
  output ← push_written output (λ b, Commit_encode_into commit b offset);
  Ok {| p_buffer := output; p_previous := current; p_commit := commit; p_offset := end_;
        p_stats := {| st_changes := Z.of_nat (length edits);
                      st_written_pages := AlignedPages_len output / BLOCK_SIZE;
                      st_max_pages_per_change := ed_max_pages_per_change ed;
                      st_old_page_reads := ed_reads ed;
                      st_allocated_bytes := AlignedPages_allocated_bytes output |} |}.

Definition Prepared_bytes (p : Prepared) : bytes :=
  slice 0 (st_written_pages (p_stats p) * BLOCK_SIZE) (concat (ap_blocks (p_buffer p))).
