(* ===== verification/ManifestEdit.v ===== *)
(** * Edits of an extent list

    What an edit of the manifest means on the ordered list of extents of a
    tree: the edit's range is cut out and, when it maps a block, its own extent
    takes the place.  [edit_leaf], the code of one leaf, computes this list; it
    distributes over the subtrees of a branch ([clip_app]); and a lookup
    through the edited list is the old lookup updated on the edit's range. *)
From S2P Require Import Prelude Bytes ManifestFormat ManifestTree ManifestEditor.

(** ** Definitions *)

Definition apart (edit e : Extent) : Prop := e_end e ≤ e_start edit ∨ e_end edit ≤ e_start e.

#[global] Instance apart_dec edit e : Decision (apart edit e).
Proof. unfold apart. apply _. Defined.

Definition pieces (edit e : Extent) : list Extent :=
  if decide (apart edit e) then [e]
  else (if decide (e_start e < e_start edit) then [set_end e (e_start edit)] else [])
    ++ (if decide (e_end edit < e_end e) then [set_start e (e_end edit)] else []).

(** The extents with the edit's range cut out. *)
Definition remove (edit : Extent) (es : list Extent) : list Extent := concat (pieces edit <$> es).

Definition place (edit : Extent) (es : list Extent) : list Extent :=
  match e_hash edit with
  | None => es
  | Some _ => filter (λ e, e_start e < e_start edit) es
                ++ edit :: filter (λ e, ¬ e_start e < e_start edit) es
  end.

Definition edited (edit : Extent) (es : list Extent) : list Extent := place edit (remove edit es).

(** An edit restricted to the extents between two bounds. *)
Definition clip (edit : Extent) (lo hi : Z) (es : list Extent) : list Extent :=
  if decide (e_end edit ≤ lo ∨ hi ≤ e_start edit) then es else edited edit es.

Definition edit_range (edit : Extent) : Prop :=
  e_start edit < e_end edit ∧ (is_Some (e_hash edit) → e_end edit - e_start edit = 1).

(** ** Filters *)

Lemma filter_all {A} (P : A → Prop) `{!∀ x, Decision (P x)} l : Forall P l → filter P l = l.
Proof. induction 1 as [|x l HP _ IH]; [done|]. by rewrite filter_cons_True, IH. Qed.

Lemma filter_none {A} (P : A → Prop) `{!∀ x, Decision (P x)} l :
  Forall (λ x, ¬ P x) l → filter P l = [].
Proof. induction 1 as [|x l HP _ IH]; [done|]. by rewrite filter_cons_False. Qed.

Lemma Forall_filter {A} (P Q : A → Prop) `{!∀ x, Decision (Q x)} l :
  Forall P l → Forall P (filter Q l).
Proof. rewrite !Forall_forall. intros HP x [_ Hx]%list_elem_of_filter. by apply HP. Qed.

(** ** Cutting *)

Lemma remove_app edit a b : remove edit (a ++ b) = remove edit a ++ remove edit b.
Proof. unfold remove. by rewrite fmap_app, concat_app. Qed.

Lemma remove_apart edit es : Forall (apart edit) es → remove edit es = es.
Proof.
  induction 1 as [|e es He _ IH]; [done|]. unfold remove in *. cbn. unfold pieces at 1.
  by rewrite decide_True, IH.
Qed.

Lemma extents_valid_within hi lo es :
  extents_valid hi lo es → Forall (λ e, lo ≤ e_start e ∧ e_start e < e_end e ∧ e_end e ≤ hi) es.
Proof.
  revert lo. induction es as [|e es IH]; intros lo; [constructor|]. cbn. intros (? & ? & ? & _ & Hv).
  constructor; [lia|]. eapply Forall_impl; [by apply IH|]. cbn. intros; lia.
Qed.

Lemma apart_all edit hi lo es :
  extents_valid hi lo es → e_end edit ≤ lo ∨ hi ≤ e_start edit → Forall (apart edit) es.
Proof.
  intros Hv Hb. eapply Forall_impl; [by eapply extents_valid_within|]. unfold apart. cbn. intros; lia.
Qed.

Lemma remove_covered edit hi lo es :
  extents_valid hi lo es → e_start edit ≤ lo → hi ≤ e_end edit → remove edit es = [].
Proof.
  intros Hv%extents_valid_within Hl Hh. induction Hv as [|e es (H1 & H2 & H3) _ IH]; [done|].
  unfold remove in *. cbn. rewrite IH, app_nil_r. unfold pieces, apart. by rewrite !decide_False by lia.
Qed.

Lemma remove_forall (P : Extent → Prop) edit es :
  (∀ e x, P e → e_start e < x → x < e_end e → P (set_start e x) ∧ P (set_end e x)) →
  edit_range edit → Forall P es → Forall P (remove edit es).
Proof.
  intros Hp [He _] Hes. induction Hes as [|e es H _ IH]; [constructor|].
  unfold remove. cbn. apply Forall_app. split; [|exact IH]. unfold pieces, apart.
  destruct (decide _) as [|Hn]; [by repeat constructor|].
  apply Forall_app. split; destruct (decide _); repeat constructor; apply Hp; done || lia.
Qed.

Lemma pieces_valid edit hi lo e :
  edit_range edit → extents_valid hi lo [e] → extents_valid (e_end e) lo (pieces edit e).
Proof.
  intros [He _] (H1 & H2 & H3 & H4 & _). unfold pieces, apart.
  destruct (decide (_ ∨ _)); [cbn; split_and!; done || lia|].
  assert (Hh : ¬ is_Some (e_hash e) ∨ e_end e - e_start e = 1)
    by (destruct (e_hash e); [right; apply H4; eauto | left; by intros []]).
  destruct (decide _), (decide _); cbn; repeat split; try done; try lia;
    intros Hs; destruct Hh; done || lia.
Qed.

Lemma remove_valid edit hi lo es :
  edit_range edit → extents_valid hi lo es → extents_valid hi lo (remove edit es).
Proof.
  intros He. revert lo. induction es as [|e es IH]; intros lo; [done|]. cbn [extents_valid].
  intros (H1 & H2 & H3 & H4 & Hv). unfold remove. cbn.
  eapply (extents_valid_app (e_end e)); [eapply (pieces_valid _ hi); [done|] | by apply IH | done | lia].
  cbn. split_and!; done.
Qed.

Lemma pieces_are_apart edit e : edit_range edit → Forall (apart edit) (pieces edit e).
Proof.
  intros [He _]. unfold pieces. destruct (decide (apart edit e)); [by apply Forall_singleton|].
  apply Forall_app. split; destruct (decide _); rewrite ?Forall_singleton, ?Forall_nil; try done;
    unfold apart; cbn; lia.
Qed.

Lemma remove_is_apart edit es : edit_range edit → Forall (apart edit) (remove edit es).
Proof.
  intros He. induction es as [|e es IH]; [constructor|]. unfold remove. cbn.
  apply Forall_app. split; [by apply pieces_are_apart | exact IH].
Qed.

(** At most one extent is split in two. *)
Lemma length_remove edit hi lo es :
  extents_valid hi lo es →
  (length (remove edit es) ≤ length es + (if decide (e_end edit ≤ lo)%Z then 0 else 1))%nat.
Proof.
  revert lo. induction es as [|e es IH]; intros lo; [destruct (decide _); cbn; lia|].
  cbn [extents_valid]. intros (H1 & H2 & H3 & _ & Hv%IH). unfold remove in *. cbn. rewrite length_app.
  unfold pieces at 1, apart. destruct (decide (_ ∨ _)); cbn; split_if; cbn in *; lia.
Qed.

(** ** Placing *)

Lemma split_apart edit hi lo l :
  extents_valid hi lo l → Forall (apart edit) l → e_start edit < e_end edit →
  lo ≤ e_start edit → e_end edit ≤ hi →
  ∃ pre post, l = pre ++ post ∧ extents_valid (e_start edit) lo pre ∧
    extents_valid hi (e_end edit) post.
Proof.
  revert lo. induction l as [|e l IH]; intros lo Hv Ha He Hl Hh; [by exists [], []|].
  apply Forall_cons in Ha as [Hd Ha]. pose proof Hv as (H1 & H2 & H3 & H4 & Hv').
  destruct (decide (e_end e ≤ e_start edit)).
  - destruct (IH _ Hv' Ha) as (pre & post & -> & Hpre & Hpost); [lia..|].
    exists (e :: pre), post. by split_and!; try done; cbn; split_and!.
  - exists [], (e :: l). split_and!; try done. destruct Hd; [lia|]. cbn. by split_and!.
Qed.

Lemma place_split edit hash hi lo pre post :
  e_hash edit = Some hash → extents_valid (e_start edit) lo pre → e_start edit < e_end edit →
  extents_valid hi (e_end edit) post → place edit (pre ++ post) = pre ++ edit :: post.
Proof.
  intros Hh Hpre%extents_valid_within He Hpost%extents_valid_within. unfold place. rewrite Hh, !filter_app.
  assert (H1 : Forall (λ e, e_start e < e_start edit) pre).
  { eapply Forall_impl; [exact Hpre|]. cbn. intros; lia. }
  assert (H2 : Forall (λ e, ¬ e_start e < e_start edit) post).
  { eapply Forall_impl; [exact Hpost|]. cbn. intros; lia. }
  rewrite (filter_all _ pre), (filter_none _ post), (filter_all _ post), (filter_none _ pre); try done.
  - by rewrite app_nil_r.
  - eapply Forall_impl; [exact H1|]. cbn. intros; lia.
Qed.

(** The edited list, when the edit's range lies between the bounds of the
    list. *)
Lemma edited_split edit hash hi lo es :
  e_hash edit = Some hash → edit_range edit → extents_valid hi lo es →
  lo ≤ e_start edit → e_end edit ≤ hi →
  ∃ pre post, remove edit es = pre ++ post ∧ edited edit es = pre ++ edit :: post ∧
    extents_valid (e_start edit) lo pre ∧ extents_valid hi (e_end edit) post.
Proof.
  intros Hh He Hv Hl Hr. destruct (split_apart edit hi lo (remove edit es)) as (pre & post & E & H1 & H2);
    [by apply remove_valid | by apply remove_is_apart | apply He | done..|].
  exists pre, post. split_and!; try done. unfold edited. rewrite E.
  eapply place_split; try done. apply He.
Qed.

Lemma edited_none edit es : e_hash edit = None → edited edit es = remove edit es.
Proof. unfold edited, place. by intros ->. Qed.

Lemma edited_valid edit hi lo es :
  edit_range edit → extents_valid hi lo es →
  (is_Some (e_hash edit) → lo ≤ e_start edit ∧ e_end edit ≤ hi) → extents_valid hi lo (edited edit es).
Proof.
  intros He Hv Hin. destruct (e_hash edit) as [hash|] eqn:Eh.
  - destruct Hin as [Hl Hh]; [done|].
    destruct (edited_split edit hash hi lo es) as (pre & post & _ & -> & H1 & H2); try done.
    eapply extents_valid_app; [exact H1 | | destruct He; lia | lia].
    destruct He as [He Hc]. cbn. split_and!; try done; try lia.
  - rewrite edited_none by done. by apply remove_valid.
Qed.

Lemma edited_forall (P : Extent → Prop) edit es :
  (∀ e x, P e → e_start e < x → x < e_end e → P (set_start e x) ∧ P (set_end e x)) →
  edit_range edit → P edit → Forall P es → Forall P (edited edit es).
Proof.
  intros Hp He Hpe Hes%(remove_forall P edit); try done. unfold edited, place.
  destruct (e_hash edit); [|done]. apply Forall_app. split; [by apply Forall_filter|].
  constructor; [done | by apply Forall_filter].
Qed.

(** An edited list is empty only if the edit maps nothing. *)
Lemma edited_some_nonempty edit es : is_Some (e_hash edit) → edited edit es ≠ [].
Proof. unfold edited, place. intros [hash ->]. by intros [_ [=]]%app_nil. Qed.

Lemma length_edited edit hi lo es :
  extents_valid hi lo es → (length (edited edit es) ≤ length es + 2)%nat.
Proof.
  intros Hv%(length_remove edit). unfold edited, place.
  destruct (e_hash edit); [|destruct (decide _); lia].
  rewrite length_app. cbn.
  assert (Hf : ∀ l : list Extent, (length (filter (λ e, e_start e < e_start edit)%Z l) +
    length (filter (λ e, ¬ e_start e < e_start edit)%Z l) = length l)%nat).
  { intros k. induction k as [|x k IH]; [reflexivity|]. rewrite !filter_cons. split_if; cbn; try done; lia. }
  specialize (Hf (remove edit es)). destruct (decide _); lia.
Qed.

(** ** The code of one leaf *)

Lemma try_push_ok {A} capacity (l : list A) x :
  Z.of_nat (length l) < capacity → try_push capacity l x = Ok (l ++ [x]).
Proof. intros. unfold try_push. by rewrite bool_decide_eq_true_2. Qed.

Lemma edit_entry_ok edit e acc :
  Z.of_nat (length (acc ++ pieces edit e)) ≤ LEAVES_CAPACITY →
  edit_entry edit e acc = Ok (acc ++ pieces edit e).
Proof.
  unfold edit_entry, pieces, apart. rewrite <- bool_decide_or.
  destruct (decide (_ ∨ _)) as [Hd|Hd].
  - rewrite bool_decide_eq_true_2 by done. rewrite length_app. cbn. intros. by rewrite try_push_ok by lia.
  - rewrite bool_decide_eq_false_2 by done.
    destruct (decide (e_start e < e_start edit)) as [H1|H1], (decide (e_end edit < e_end e)) as [H2|H2];
      rewrite ?(bool_decide_eq_true_2 _ H1), ?(bool_decide_eq_false_2 _ H1),
        ?(bool_decide_eq_true_2 _ H2), ?(bool_decide_eq_false_2 _ H2), ?length_app; cbn; intros;
      rewrite ?try_push_ok by (rewrite ?length_app; cbn; lia); cbn;
      rewrite ?try_push_ok by (rewrite ?length_app; cbn; lia); rewrite ?app_nil_r, <- ?app_assoc; done.
Qed.

Lemma edit_entries_ok edit es : ∀ acc,
  Z.of_nat (length (acc ++ remove edit es)) ≤ LEAVES_CAPACITY →
  try_fold (edit_entry edit) es acc = Ok (acc ++ remove edit es).
Proof.
  induction es as [|e es IH]; intros acc; cbn [try_fold]; [by rewrite app_nil_r|].
  unfold remove. cbn [fmap list_fmap concat]. rewrite app_assoc. intros Hl.
  rewrite edit_entry_ok by (rewrite length_app in Hl; lia). apply IH. done.
Qed.

Lemma insert_by_start_le x l :
  Forall (λ y, e_start x ≤ e_start y) l → insert_by_start x l = x :: l.
Proof. destruct 1; [done|]. cbn. by rewrite bool_decide_eq_true_2. Qed.

Lemma sort_by_start_prefix hi lo pre l :
  extents_valid hi lo pre → Forall (λ y, hi ≤ e_start y) (sort_by_start l) →
  sort_by_start (pre ++ l) = pre ++ sort_by_start l.
Proof.
  revert lo. induction pre as [|e pre IH]; intros lo; [done|]. cbn [extents_valid].
  intros (H1 & H2 & H3 & _ & Hv) Hl. cbn [app]. unfold sort_by_start at 1. cbn [foldr].
  fold (sort_by_start (pre ++ l)). rewrite (IH _ Hv Hl). apply insert_by_start_le, Forall_app. split.
  - eapply Forall_impl; [by eapply extents_valid_within|]. cbn. intros; lia.
  - eapply Forall_impl; [exact Hl|]. cbn. intros; lia.
Qed.

Lemma sort_by_start_id hi lo l : extents_valid hi lo l → sort_by_start l = l.
Proof.
  intros Hv. rewrite <- (app_nil_r l) at 1.
  rewrite (sort_by_start_prefix hi lo) by (done || constructor). by rewrite app_nil_r.
Qed.

Lemma sort_by_start_last edit hi post :
  edit_range edit → extents_valid hi (e_end edit) post → sort_by_start (post ++ [edit]) = edit :: post.
Proof.
  intros [He _]. induction post as [|e post IH]; [done|]. cbn [extents_valid].
  intros (H1 & H2 & _ & _ & Hv). cbn [app]. unfold sort_by_start. cbn [foldr].
  fold (sort_by_start (post ++ [edit])). rewrite IH by (done || (eapply extents_valid_weaken; [exact Hv | done | lia])).
  cbn. rewrite bool_decide_eq_false_2 by lia. f_equal. apply insert_by_start_le.
  eapply Forall_impl; [by eapply extents_valid_within|]. cbn. intros; lia.
Qed.

Lemma edit_leaf_ok edit hi lo es :
  edit_range edit → extents_valid hi lo es → Z.of_nat (length es) ≤ LEAF_CAPACITY →
  (is_Some (e_hash edit) → lo ≤ e_start edit ∧ e_end edit ≤ hi) →
  edit_leaf es edit = Ok (edited edit es).
Proof.
  intros He Hv Hl Hin. unfold edit_leaf. pose proof (length_remove edit _ _ _ Hv) as Hr.
  assert (Hr' : Z.of_nat (length (remove edit es)) ≤ LEAF_CAPACITY + 1) by (destruct (decide _); lia).
  rewrite edit_entries_ok by (cbn; unfold LEAVES_CAPACITY; lia). cbn [app mbind result_mbind result_bind].
  destruct (e_hash edit) as [hash|] eqn:Eh.
  - destruct Hin as [H1 H2]; [done|]. rewrite try_push_ok by (unfold LEAVES_CAPACITY; lia). cbn.
    destruct (edited_split edit hash hi lo es) as (pre & post & E1 & E2 & V1 & V2); try done.
    rewrite E1, E2, <- app_assoc. f_equal. pose proof (sort_by_start_last _ _ _ He V2) as Hs.
    rewrite (sort_by_start_prefix _ _ _ _ V1), Hs; [done|]. rewrite Hs. constructor; [lia|].
    eapply Forall_impl; [by eapply extents_valid_within|]. destruct He. cbn. intros; lia.
  - cbn. rewrite edited_none by done. f_equal. eapply sort_by_start_id. by apply remove_valid.
Qed.

(** ** Edits and concatenation *)

Lemma clip_app edit lo m hi a b :
  edit_range edit → extents_valid m lo a → extents_valid hi m b → lo ≤ m → m ≤ hi →
  clip edit lo hi (a ++ b) = clip edit lo m a ++ clip edit m hi b.
Proof.
  intros He Ha Hb H1 H2. unfold clip. destruct He as [He Hc].
  assert (Ra : e_end edit ≤ lo ∨ m ≤ e_start edit → remove edit a = a).
  { intros. by eapply remove_apart, apart_all. }
  assert (Rb : e_end edit ≤ m ∨ hi ≤ e_start edit → remove edit b = b).
  { intros. by eapply remove_apart, apart_all. }
  destruct (decide (e_end edit ≤ lo ∨ hi ≤ e_start edit)).
  { rewrite !decide_True by lia. done. }
  destruct (e_hash edit) as [hash|] eqn:Eh.
  2:{ rewrite !edited_none, remove_app by done. f_equal; split_if; auto. }
  assert (Hone : e_end edit - e_start edit = 1) by (apply Hc; eauto). clear Hc.
  unfold edited. rewrite remove_app.
  assert (He' : edit_range edit) by (split; [done|]; by intros).
  unfold place. rewrite Eh, !filter_app.
  destruct (decide (e_start edit < m)).
  - rewrite decide_False, (decide_True (P := e_end edit ≤ m ∨ _)), Rb by lia.
    assert (Fb : Forall (λ e, ¬ e_start e < e_start edit) b).
    { eapply Forall_impl; [by eapply extents_valid_within|]. cbn. intros; lia. }
    by rewrite (filter_none _ b), (filter_all _ b), app_nil_r, <- app_assoc.
  - rewrite (decide_False (P := e_end edit ≤ m ∨ _)), (decide_True (P := e_end edit ≤ lo ∨ _)), Ra by lia.
    assert (Fa : Forall (λ e, e_start e < e_start edit) a).
    { eapply Forall_impl; [by eapply extents_valid_within|]. cbn. intros; lia. }
    rewrite (filter_all _ a), (filter_none (λ e, ¬ _) a), app_nil_l, <- app_assoc; [done| |done].
    eapply Forall_impl; [exact Fa|]. cbn. intros; lia.
Qed.

(** ** Lookups through an edit *)

Definition in_range (edit : Extent) (block : Z) : Prop := e_start edit ≤ block < e_end edit.

Lemma covering_pieces edit e block :
  edit_range edit → e_start e < e_end e →
  e_hash <$> covering block (pieces edit e)
  = if decide (in_range edit block) then None else e_hash <$> covering block [e].
Proof.
  intros [He _] Hlt. unfold pieces, apart, in_range. repeat destruct (decide _); cbn;
    repeat case_bool_decide; try done; lia.
Qed.

Lemma covering_remove edit hi lo es block :
  edit_range edit → extents_valid hi lo es →
  e_hash <$> covering block (remove edit es)
  = if decide (in_range edit block) then None else e_hash <$> covering block es.
Proof.
  intros He. revert lo. induction es as [|e es IH]; intros lo; [by destruct (decide _)|].
  cbn [extents_valid]. intros (_ & Hlt & _ & _ & Hv%IH). unfold remove in *. cbn [fmap list_fmap concat].
  pose proof (covering_pieces edit e block He Hlt) as Hp.
  rewrite covering_app. change (e :: es) with ([e] ++ es). rewrite (covering_app _ [e]).
  destruct (decide (in_range edit block)); destruct (covering block (pieces edit e)) as [x|];
    cbn [fmap option_fmap option_map] in Hp; try done.
  - destruct (covering block [e]); [|done]. injection Hp as Hp. cbn. by rewrite Hp.
  - by destruct (covering block [e]).
Qed.

Lemma fmap_bind_hash (o : option Extent) : o ≫= e_hash = (e_hash <$> o) ≫= id.
Proof. by destruct o. Qed.

(** A lookup through the edited list: the edit's hash on its range, the old
    lookup elsewhere. *)
Lemma covering_edited edit hi lo es block :
  edit_range edit → extents_valid hi lo es →
  (is_Some (e_hash edit) → lo ≤ e_start edit ∧ e_end edit ≤ hi) →
  covering block (edited edit es) ≫= e_hash
  = if decide (in_range edit block) then e_hash edit else covering block es ≫= e_hash.
Proof.
  intros He Hv Hin. pose proof (covering_remove edit _ _ _ block He Hv) as Hr.
  rewrite !fmap_bind_hash. destruct (e_hash edit) as [hash|] eqn:Eh.
  2:{ rewrite edited_none, Hr by done. by destruct (decide _). }
  destruct Hin as [H1 H2]; [done|].
  destruct (edited_split edit hash hi lo es) as (pre & post & E1 & E2 & V1 & V2); try done.
  rewrite E2. rewrite E1, covering_app in Hr. rewrite covering_app. cbn [covering find_first].
  unfold in_range in *. destruct (decide (e_start edit ≤ block < e_end edit)) as [Hb|Hb].
  - rewrite (covering_none _ _ _ _ V1), !bool_decide_eq_true_2 by lia. cbn. by rewrite Eh.
  - rewrite <- Hr. change (find_first _ ?l) with (covering block l).
    replace (bool_decide (e_start edit ≤ block) && bool_decide (block < e_end edit)) with false; [done|].
    symmetry. apply andb_false_iff. destruct (decide (e_start edit ≤ block)).
    + right. apply bool_decide_eq_false_2. lia.
    + left. by apply bool_decide_eq_false_2.
Qed.

(** The extents of a tree after a list of edits. *)
Definition edited_all (edits : list Extent) (es : list Extent) : list Extent :=
  foldl (λ es edit, edited edit es) es edits.

(** The last of the edits whose range holds the block. *)
Definition last_edit (edits : list Extent) (block : Z) : option Extent :=
  last (filter (λ edit, in_range edit block) edits).

Definition edit_admitted (blocks : Z) (edit : Extent) : Prop :=
  Extent_ok edit ∧ edit_range edit ∧ e_end edit ≤ blocks.

#[global] Instance edit_admitted_dec blocks edit : Decision (edit_admitted blocks edit).
Proof. unfold edit_admitted, edit_range. apply _. Defined.

Lemma edit_admitted_start blocks edit : edit_admitted blocks edit → 0 ≤ e_start edit.
Proof. intros (((? & _) & _) & _). lia. Qed.

Lemma edited_all_valid blocks edits es :
  Forall (edit_admitted blocks) edits → extents_valid blocks 0 es →
  extents_valid blocks 0 (edited_all edits es).
Proof.
  intros He. revert es. induction He as [|edit edits H _ IH]; intros es Hv; [done|]. cbn. apply IH.
  pose proof (edit_admitted_start _ _ H). destruct H as (_ & ? & ?). by apply edited_valid.
Qed.

Lemma covering_edited_all blocks edits es block :
  Forall (edit_admitted blocks) edits → extents_valid blocks 0 es →
  covering block (edited_all edits es) ≫= e_hash
  = match last_edit edits block with
    | Some edit => e_hash edit
    | None => covering block es ≫= e_hash
    end.
Proof.
  intros He. revert es. induction He as [|edit edits H _ IH]; intros es Hv; [done|].
  pose proof (edit_admitted_start _ _ H). destruct H as (_ & Hr & Hb). cbn [edited_all foldl].
  change (foldl _ _ edits) with (edited_all edits (edited edit es)).
  rewrite IH by by apply edited_valid. unfold last_edit. rewrite filter_cons.
  rewrite (covering_edited _ _ _ _ _ Hr Hv) by done.
  destruct (decide (in_range edit block)); [|done]. cbn. rewrite last_cons. by destruct (last _).
Qed.
