(* ===== verification/ManifestEditorSpec.v ===== *)
(** * Correctness of the manifest editor

    [subtree store n off es d] says what the page at [off] of a page store
    represents, without cursors: a well-formed tree of level [n] whose leaves
    hold the extents [es] and which has [d] pages at or after the end of the
    committed file.  Every operation of [ManifestEditor] is specified by the
    subtrees it is given and returns, with its page count; [returns] is the
    postcondition predicate of fallible computations.  The theorems: a prepared
    transaction is the edited tree, it never disturbs the old one, and no edit
    writes more pages than planned. *)
From S2P Require Import Prelude Bytes ManifestFormat ManifestTree ManifestEditor ManifestEdit.

(** ** Postconditions *)

(** [m] does not panic, returns a result in [Q], or fails with an error in
    [bad]. *)
Definition returns {A} (m : result A) (bad : error → Prop) (Q : A → Prop) : Prop :=
  match m with Ok a => Q a | Err e => bad e | Panic => False end.

Lemma returns_mono {A} (m : result A) (bad bad' : error → Prop) (P Q : A → Prop) :
  returns m bad P → (∀ e, bad e → bad' e) → (∀ a, P a → Q a) → returns m bad' Q.
Proof. destruct m; cbn; auto. Qed.

Lemma returns_bind {A B} (m : result A) (f : A → result B) bad (P : A → Prop) (Q : B → Prop) :
  returns m bad P → (∀ a, P a → returns (f a) bad Q) → returns (m ≫= f) bad Q.
Proof. destruct m; cbn; auto. Qed.

Lemma returns_bind_eq {A B} (m : result A) (f : A → result B) bad (P : A → Prop) (Q : B → Prop) :
  returns m bad P → (∀ a, m = Ok a → P a → returns (f a) bad Q) → returns (m ≫= f) bad Q.
Proof. destruct m; cbn; auto. Qed.

(** The error of a buffer that its allocator refused to grow. *)
Definition denied (allocator : Z → bool) (e : error) : Prop :=
  e = Error OutOfMemory "page allocation denied" ∧ ∃ capacity, allocator capacity = false.

(** ** Page buffers *)

Lemma push_written_returns p write b :
  Z.of_nat (length (ap_blocks p)) < ap_limit p → write (zeros BLOCK_SIZE) = Ok b →
  returns (push_written p write) (denied (ap_allocator p)) (λ p',
    ap_blocks p' = ap_blocks p ++ [b] ∧ ap_limit p' = ap_limit p ∧
    ap_allocator p' = ap_allocator p).
Proof.
  intros Hl Hw. unfold push_written, AlignedPages_push_zeroed. rewrite bool_decide_eq_false_2 by lia.
  eapply (returns_bind _ _ _ (λ p', ap_blocks p' = ap_blocks p ++ [zeros BLOCK_SIZE] ∧
    ap_limit p' = ap_limit p ∧ ap_allocator p' = ap_allocator p)).
  { unfold AlignedPages_grow. destruct (bool_decide _); [|done].
    destruct (ap_allocator p _) eqn:E; cbn; [done|]. split; [done|]. eauto. }
  intros p' (Hb & H1 & H2). rewrite Hb, last_snoc. cbn [expect mbind result_mbind result_bind].
  rewrite Hw. cbn. rewrite length_app, Nat.add_sub, take_app_length. done.
Qed.

Definition sized (b : bytes) : Prop := blen b = BLOCK_SIZE.

Lemma push_written_sized p write bad Q :
  (∀ b, write (zeros BLOCK_SIZE) = Ok b → sized b) → Forall sized (ap_blocks p) →
  returns (push_written p write) bad Q →
  returns (push_written p write) bad (λ p', Q p' ∧ Forall sized (ap_blocks p')).
Proof.
  intros Hw Hp. destruct (push_written p write) as [p'| |] eqn:E; cbn; [|done|done]. intros HQ. split; [done|].
  unfold push_written, AlignedPages_push_zeroed in E. destruct (bool_decide _); [done|].
  apply result_bind_ok in E as (p1 & Hp1 & E). apply result_bind_ok in Hp1 as (p2 & Hp2 & [= <-]).
  assert (Hb : ap_blocks p2 = ap_blocks p).
  { unfold AlignedPages_grow in Hp2. destruct (bool_decide _); [destruct (ap_allocator p _); [|done]|];
      by injection Hp2 as <-. }
  cbn [ap_blocks] in E. rewrite Hb, last_snoc, length_app, Nat.add_sub, take_app_length in E.
  cbn [expect mbind result_mbind result_bind] in E. apply result_bind_ok in E as (b & Hb' & [= <-]).
  cbn [ap_blocks]. apply Forall_app. split; [done|]. apply Forall_singleton. by apply Hw.
Qed.

Lemma finish_sized `{Crc32} b offset image b' : finish b offset image = Ok b' → sized b'.
Proof. intros (page & (Hl & _)%Page_decode_iff & [= <-])%result_bind_ok. done. Qed.

Lemma leaf_into_sized `{Crc32} b offset image es b' : leaf_into b offset image es = Ok b' → sized b'.
Proof. by intros (_ & _ & (? & _ & ?%finish_sized)%result_bind_ok)%result_bind_ok. Qed.

Lemma branch_into_sized `{Crc32} b offset image level cs b' :
  branch_into b offset image level cs = Ok b' → sized b'.
Proof. by intros (_ & _ & (? & _ & ?%finish_sized)%result_bind_ok)%result_bind_ok. Qed.

Lemma Commit_encode_into_sized `{Crc32} c b offset b' : Commit_encode_into c b offset = Ok b' → sized b'.
Proof. by intros (? & _ & ?%finish_sized)%result_bind_ok. Qed.

(** ** Page stores and subtrees *)

Definition store_le (s s' : PageReader) : Prop := ∀ off b, s off = Ok b → s' off = Ok b.

Record twig : Type := Twig { tw_child : Child; tw_extents : list Extent; tw_drafts : Z }.

Definition tw_start (t : twig) : Z := c_start (tw_child t).
Definition tw_offset (t : twig) : Z := c_offset (tw_child t).

Section Subtree.
Context `{Crc32} (image end_ : Z).

(** A page of the store holds this node. *)
Definition node_at (s : PageReader) (off level : Z) (node : Node) : Prop :=
  fits 64 off ∧ ∃ b page, s off = Ok b ∧ Page_decode b off image = Ok page ∧ Page_level page = level ∧
    match node with
    | LeafNode es => Page_extents page = Ok es
    | BranchNode cs => Page_children page = Ok cs
    end.

(** Whether a page is part of the transaction. *)
Definition own (off : Z) : Z := if decide (off < end_) then 0 else 1.

Fixpoint subtree (s : PageReader) (n : nat) (off : Z) (es : list Extent) (d : Z) : Prop :=
  match n with
  | O => node_at s off 0 (LeafNode es) ∧ es ≠ [] ∧ Z.of_nat (length es) ≤ LEAF_CAPACITY ∧
         Forall Extent_ok es ∧ d = own off
  | S n' =>
      ∃ ts : list twig,
        node_at s off (Z.of_nat n) (BranchNode (tw_child <$> ts)) ∧
        ts ≠ [] ∧ Z.of_nat (length ts) ≤ BRANCH_CAPACITY ∧
        Forall (λ t, subtree s n' (tw_offset t) (tw_extents t) (tw_drafts t) ∧
                     e_start <$> tw_extents t !! 0%nat = Some (tw_start t)) ts ∧
        es = concat (tw_extents <$> ts) ∧ d = own off + sumZ (tw_drafts <$> ts)
  end.

Definition twig_ok (s : PageReader) (n : nat) (t : twig) : Prop :=
  subtree s n (tw_offset t) (tw_extents t) (tw_drafts t) ∧
  e_start <$> tw_extents t !! 0%nat = Some (tw_start t).

Lemma node_at_mono s s' off level node :
  store_le s s' → node_at s off level node → node_at s' off level node.
Proof. intros Hs (Hf & b & page & Hb & ?). split; [done|]. exists b, page. split; [by apply Hs | done]. Qed.

Lemma node_at_inj s off level level' node node' :
  node_at s off level node → node_at s off level' node' → level = level' ∧ node = node'.
Proof.
  intros (_ & b & page & Hb & Hp & <- & Hn) (_ & b' & page' & Hb' & Hp' & <- & Hn').
  rewrite Hb in Hb'. injection Hb' as <-. rewrite Hp in Hp'. injection Hp' as <-.
  unfold Page_extents, Page_children in *.
  split; [done|]. destruct node, node'; apply require_bind in Hn as [Hk Hn], Hn' as [Hk' Hn'];
    breflect; congruence.
Qed.

Lemma subtree_mono s s' n : store_le s s' → ∀ off es d, subtree s n off es d → subtree s' n off es d.
Proof.
  intros Hs. induction n as [|n IH]; intros off es d; cbn [subtree].
  - intros (Hn & ?). split; [by eapply node_at_mono | done].
  - intros (ts & Hn & H1 & H2 & Hf & ?). exists ts. split_and!; try done; try naive_solver.
    + by eapply node_at_mono.
    + eapply Forall_impl; [exact Hf|]. intros t [Ht ?]. split; [by apply IH | done].
Qed.

Lemma twig_ok_mono s s' n t : store_le s s' → twig_ok s n t → twig_ok s' n t.
Proof. intros Hs [H1 H2]. split; [by eapply subtree_mono | done]. Qed.

Lemma twigs_ok_mono s s' n ts : store_le s s' → Forall (twig_ok s n) ts → Forall (twig_ok s' n) ts.
Proof. intros Hs Hf. eapply Forall_impl; [exact Hf|]. intros. by eapply twig_ok_mono. Qed.

Lemma subtree_nonempty s n : ∀ off es d, subtree s n off es d → es ≠ [].
Proof.
  destruct n; intros off es d; cbn [subtree]; [by intros (_ & ? & _)|].
  intros (ts & _ & Hts & _ & Hf & -> & _). destruct Hf as [|t ts [_ Ht]]; [done|].
  cbn. destruct (tw_extents t); done.
Qed.

Lemma subtree_drafts s n : ∀ off es d, subtree s n off es d → own off ≤ d.
Proof.
  induction n as [|n IH]; intros off es d; cbn [subtree]; [intros (_ & _ & _ & _ & ->); lia|].
  intros (ts & _ & _ & _ & Hf & _ & ->).
  assert (Ht : Forall (λ t, 0 ≤ tw_drafts t) ts); [|apply sumZ_nonneg in Ht; lia].
  eapply Forall_impl; [exact Hf|]. intros t [Ht%IH _]. unfold own in Ht. destruct (decide _); lia.
Qed.

(** The store and the address determine the extents. *)
Lemma subtree_inj s n : ∀ off es es' d d',
  subtree s n off es d → subtree s n off es' d' → es = es'.
Proof.
  induction n as [|n IH]; intros off es es' d d'; cbn [subtree].
  - intros (Hn & _) (Hn' & _). destruct (node_at_inj _ _ _ _ _ _ Hn Hn') as [_ [=]]. done.
  - intros (ts & Hn & _ & _ & Hf & -> & _) (ts' & Hn' & _ & _ & Hf' & -> & _).
    destruct (node_at_inj _ _ _ _ _ _ Hn Hn') as [_ [= Hts]]. clear Hn Hn'. f_equal.
    revert ts' Hf' Hts. induction Hf as [|t ts [Ht _] _ IHt]; intros [|t' ts'] Hf' Hts; try done.
    apply Forall_cons in Hf' as [[Ht' _] Hf']. injection Hts as Htt Hts. cbn. f_equal.
    + unfold tw_offset in *. rewrite Htt in Ht. by eapply IH.
    + by apply IHt.
Qed.

Lemma twigs_inj s n ts ts' :
  Forall (twig_ok s n) ts → Forall (twig_ok s n) ts' → tw_child <$> ts = tw_child <$> ts' →
  concat (tw_extents <$> ts) = concat (tw_extents <$> ts').
Proof.
  intros Hf. revert ts'. induction Hf as [|t ts [Ht _] _ IH]; intros [|t' ts'] Hf' E; try done.
  apply Forall_cons in Hf' as [[Ht' _] Hf']. injection E as Et E. cbn. f_equal; [|by apply IH].
  unfold tw_offset in *. rewrite Et in Ht. by eapply subtree_inj.
Qed.

Lemma subtree_head s n off es d : subtree s n off es d →
  ∃ x, e_start <$> es !! 0%nat = Some x ∧
    ∀ node, node_at s off (Z.of_nat n) node → Node_minimum node = Ok x.
Proof.
  destruct n as [|n]; cbn [subtree].
  - intros (Hn & Hne & _). destruct es as [|e es]; [done|]. exists (e_start e). split; [done|].
    intros node Hn'. by destruct (node_at_inj _ _ _ _ _ _ Hn Hn') as [_ <-].
  - intros (ts & Hn & Hne & _ & Hf & -> & _). destruct Hf as [|t ts [_ Ht] _]; [done|].
    exists (tw_start t). split.
    + cbn. by destruct (tw_extents t).
    + intros node Hn'. by destruct (node_at_inj _ _ _ _ _ _ Hn Hn') as [_ <-].
Qed.

Lemma subtree_twig_ok s n off es d x :
  subtree s n off es d → e_start <$> es !! 0%nat = Some x →
  twig_ok s n (Twig {| c_start := x; c_offset := off |} es d).
Proof. done. Qed.

(** *** Pages *)

Lemma node_at_page s off level node :
  node_at s off level node → page_offset off = true ∧ image ≠ 0 ∧ image mod BLOCK_SIZE = 0.
Proof.
  intros (_ & b & page & _ & Hp & _ & Hn). apply Page_decode_iff in Hp as
    (_ & _ & _ & _ & _ & _ & _ & _ & (P1 & P2 & P3 & P4) & _).
  assert (Hk : pg_kind page ≠ FilePage).
  { intros Hk. unfold Page_extents, Page_children in Hn. rewrite Hk in Hn. destruct node; done. }
  split_and!; try done. apply page_offset_iff. split; [|done]. intros E. apply Hk. by apply P4.
Qed.

Lemma branch_node_children s off level cs :
  node_at s off level (BranchNode cs) → 1 ≤ level < MAX_HEIGHT ∧
  children_valid (image / BLOCK_SIZE) off None cs.
Proof.
  intros (_ & b & page & _ & Hp & <- & Hc).
  apply Page_decode_iff in Hp as (_ & _ & _ & _ & Ho & _ & _ & _ & _ & Hb & _ & Hbody).
  unfold Page_children in Hc. rewrite require_bind, bool_decide_eq_true in Hc. destruct Hc as [Hk [= <-]].
  unfold check_body, Page_validate_branch in Hbody.
  rewrite Hk, !require_bind, andb_true_iff, !bool_decide_eq_true in Hbody.
  destruct Hbody as ([Hl _] & _ & Hv%validate_children_valid). split; [done|].
  unfold Page_offset in Hv. subst b. by rewrite Ho in Hv.
Qed.

Lemma children_valid_below blocks page l : ∀ previous,
  children_valid blocks page previous l → Forall (λ c, c_offset c < page) l.
Proof.
  induction l as [|c l IH]; intros previous; [constructor|]. cbn.
  intros (_ & _ & _ & ? & Hv). constructor; [done | by eapply IH].
Qed.

(** A committed page has committed children only. *)
Lemma subtree_old s s' n : (∀ off b, off < end_ → s off = Ok b → s' off = Ok b) →
  ∀ off es d, subtree s n off es d → off < end_ → subtree s' n off es 0 ∧ d = 0.
Proof.
  intros Hs. assert (Hat : ∀ off level node, off < end_ → node_at s off level node → node_at s' off level node).
  { intros off level node Ho (Hf & b & page & Hb & ?). split; [done|]. exists b, page.
    split; [by apply Hs | done]. }
  assert (Hown : ∀ off, off < end_ → own off = 0) by (intros; unfold own; by rewrite decide_True).
  induction n as [|n IH]; intros off es d; cbn [subtree].
  - intros (Hn & H1 & H2 & H3 & ->) Ho. rewrite Hown by done. split; [|done]. split_and!; auto.
  - intros (ts & Hn & H1 & H2 & Hf & -> & ->) Ho. rewrite Hown by done.
    pose proof (branch_node_children _ _ _ _ Hn) as [_ Hc%children_valid_below].
    rewrite Forall_fmap in Hc.
    assert (Hf' : Forall (λ t, subtree s' n (tw_offset t) (tw_extents t) 0 ∧ tw_drafts t = 0 ∧
      e_start <$> tw_extents t !! 0%nat = Some (tw_start t)) ts).
    { apply Forall_forall. intros t Ht. eapply Forall_forall in Hf as [Hf ?]; [|exact Ht].
      eapply Forall_forall in Hc; [|exact Ht]. cbn in Hc.
      destruct (IH _ _ _ Hf) as [? ?]; [unfold tw_offset; lia|]. done. }
    assert (Hz : sumZ (tw_drafts <$> ts) = 0).
    { clear -Hf'. induction Hf' as [|t ts (_ & Hz & _) _ IHz]; [done|]. cbn. lia. }
    split; [|lia]. exists ts. rewrite Hz. split_and!; auto.
    eapply Forall_impl; [exact Hf'|]. cbn. intros t (? & -> & ?). done.
Qed.

End Subtree.

(** ** The bounds of the children of a branch *)

(** The start of the next child, or the upper bound of the branch. *)
Definition next_start (upper : Z) (ts : list twig) : Z :=
  match ts with t :: _ => tw_start t | [] => upper end.

(** Every child's extents lie between its lower bound and the next start. *)
Fixpoint parts_valid (upper lo : Z) (ts : list twig) : Prop :=
  match ts with
  | [] => lo ≤ upper
  | t :: ts' =>
      lo ≤ tw_start t ∧ tw_start t < next_start upper ts' ∧
      extents_valid (next_start upper ts') lo (tw_extents t) ∧
      parts_valid upper (next_start upper ts') ts'
  end.

Lemma parts_valid_concat upper lo ts : parts_valid upper lo ts →
  lo ≤ upper ∧ extents_valid upper lo (concat (tw_extents <$> ts)).
Proof.
  revert lo. induction ts as [|t ts IH]; intros lo; [done|]. cbn. intros (H1 & H2 & Hv & [Hl Hp]%IH).
  split; [lia|]. eapply extents_valid_app; [exact Hv | exact Hp | done | lia].
Qed.

Lemma extents_valid_app_inv hi lo m a b :
  extents_valid hi lo (a ++ b) → (b ≠ [] → e_start <$> b !! 0%nat = Some m) → (b = [] → m = hi) →
  extents_valid m lo a ∧ (m ≤ hi → extents_valid hi m b).
Proof.
  revert lo. induction a as [|e a IH]; intros lo; cbn [app].
  - intros Hv Hb _. split; [done|]. intros Hm. destruct b as [|e b]; [done|].
    destruct Hv as (? & ? & ? & ? & ?). assert (Hs : e_start <$> (e :: b) !! 0%nat = Some m) by by apply Hb.
    injection Hs as <-. by split_and!.
  - intros (H1 & H2 & H3 & H4 & Hv) Hb1 Hb2. destruct (IH _ Hv Hb1 Hb2) as [Ha Hb]. split; [|done].
    split_and!; try done. destruct b as [|x b]; [by rewrite Hb2|].
    assert (Hs : e_start <$> (x :: b) !! 0%nat = Some m) by by apply Hb1. injection Hs as <-.
    clear -Hv H2. apply extents_valid_within in Hv. rewrite Forall_app in Hv. destruct Hv as [_ Hv].
    apply Forall_cons in Hv as [Hv _]. lia.
Qed.

Lemma heads_nonempty (t : twig) : e_start <$> tw_extents t !! 0%nat = Some (tw_start t) →
  ∃ e es, tw_extents t = e :: es ∧ e_start e = tw_start t.
Proof. destruct (tw_extents t) as [|e es]; [done|]. intros [= H]. eauto. Qed.

Lemma concat_parts_valid upper lo ts :
  Forall (λ t, e_start <$> tw_extents t !! 0%nat = Some (tw_start t)) ts → lo ≤ upper →
  extents_valid upper lo (concat (tw_extents <$> ts)) → parts_valid upper lo ts.
Proof.
  intros Hf. revert lo. induction Hf as [|t ts Ht Hts IH]; intros lo Hl; [done|].
  cbn [fmap list_fmap concat parts_valid]. intros Hv.
  pose proof (heads_nonempty _ Ht) as (e & es & He & Hs).
  assert (Hn : concat (tw_extents <$> ts) ≠ [] →
    e_start <$> concat (tw_extents <$> ts) !! 0%nat = Some (next_start upper ts)).
  { destruct Hts as [|t' ts Ht' _]; [done|]. intros _. apply heads_nonempty in Ht' as (e' & es' & He' & Hs').
    cbn. rewrite He'. cbn. by rewrite Hs'. }
  assert (He0 : concat (tw_extents <$> ts) = [] → next_start upper ts = upper).
  { destruct Hts as [|t' ts Ht' _]; [done|]. apply heads_nonempty in Ht' as (e' & es' & He' & _).
    cbn. by rewrite He'. }
  destruct (extents_valid_app_inv _ _ _ _ _ Hv Hn He0) as [Ha Hb].
  rewrite He in Hv, Ha. cbn [app extents_valid] in Hv, Ha.
  destruct Ha as (A1 & A2 & A3 & A4 & A5).
  assert (Hm : next_start upper ts ≤ upper).
  { destruct Hts as [|t' ts Ht' _]; [done|]. apply heads_nonempty in Ht' as (e' & es' & He' & Hs').
    destruct Hv as (_ & _ & _ & _ & Hv). apply extents_valid_within in Hv. cbn in Hv.
    rewrite He' in Hv. apply Forall_app in Hv as [_ Hv]. apply Forall_cons in Hv as [Hv _]. cbn. lia. }
  split_and!; [lia | lia | rewrite He; by split_and! | apply IH; [done | by apply Hb]].
Qed.

Lemma parts_valid_children upper lo ts blocks : parts_valid upper lo ts → upper ≤ blocks →
  ∀ page previous,
  Forall (λ t, page_offset (tw_offset t) = true ∧ tw_offset t < page) ts →
  (match previous with Some p => p < next_start upper ts | None => True end ∨ ts = []) →
  children_valid blocks page previous (tw_child <$> ts).
Proof.
  intros Hp Hu page. revert lo Hp. induction ts as [|t ts IH]; intros lo Hp previous Hf Hprev; [done|].
  apply Forall_cons in Hf as [[H1 H2] Hf]. destruct Hp as (P1 & P2 & _ & Hp).
  pose proof (parts_valid_concat _ _ _ Hp) as [Hle _]. cbn. split_and!; try done.
  - unfold tw_start in *. lia.
  - destruct previous as [p|]; [|done]. cbn. apply bool_decide_eq_true. destruct Hprev; [done|done].
  - eapply IH; [exact Hp | done|]. destruct ts; [by right | by left].
Qed.

(** A cursor that a descent can hold at a subtree with these extents. *)
Definition cursor_ok (cursor : Cursor) (n : nat) (es : list Extent) : Prop :=
  cu_level cursor = Z.of_nat n ∧ extents_valid (cu_upper cursor) (cu_lower cursor) es ∧
  (cu_minimum cursor = None ∨ cu_minimum cursor = e_start <$> es !! 0%nat).

Lemma Node_decode_subtree `{Crc32} image end_ s n cursor es d :
  subtree image end_ s n (cu_offset cursor) es d → cursor_ok cursor n es →
  ∃ b page node, s (cu_offset cursor) = Ok b ∧ Page_decode b (cu_offset cursor) image = Ok page ∧
    Node_decode page cursor = Ok node ∧ node_at image s (cu_offset cursor) (Z.of_nat n) node.
Proof.
  intros Hsub (Hlev & Hv & Hmin). destruct (subtree_head _ _ _ _ _ _ _ Hsub) as (x & Hx & Hm).
  rewrite Hx in Hmin.
  assert (Hat : ∃ node, node_at image s (cu_offset cursor) (Z.of_nat n) node ∧
    match node with
    | LeafNode l => l = es
    | BranchNode cs => Forall (λ c, cu_lower cursor ≤ c_start c ∧ c_start c < cu_upper cursor) cs
    end).
  { destruct n as [|n]; cbn [subtree] in Hsub; [exists (LeafNode es); split; [apply Hsub | done]|].
    destruct Hsub as (ts & Hn & _ & _ & Hf & -> & _). exists (BranchNode (tw_child <$> ts)). split; [done|].
    rewrite Forall_fmap. apply Forall_forall. intros t Ht. cbn.
    eapply Forall_forall in Hf as [_ Hf]; [|exact Ht]. apply heads_nonempty in Hf as (e & es & He & Hs).
    apply extents_valid_within in Hv. rewrite Forall_concat, Forall_fmap in Hv.
    eapply Forall_forall in Hv; [|exact Ht]. cbn in Hv. rewrite He in Hv.
    apply Forall_cons in Hv as [Hv _]. unfold tw_start in Hs. lia. }
  destruct Hat as (node & Hat & Hb). pose proof Hat as (_ & b & page & Hs & Hp & Hl & Hn).
  exists b, page, node. split_and!; try done. unfold Node_decode. rewrite require_bind, bool_decide_eq_true.
  split; [congruence|]. unfold Page_extents, Page_children in Hn.
  destruct node as [l|cs]; apply require_bind in Hn as [Hk Hn]; breflect; rewrite Hk.
  - subst l. unfold Page_extents. rewrite bool_decide_eq_true_2 by done.
    cbn [require mbind result_mbind result_bind]. injection Hn as ->.
    assert (Hall : forallb (λ e, bool_decide (cu_lower cursor ≤ e_start e)
      && bool_decide (e_end e ≤ cu_upper cursor)) es = true).
    { apply forallb_forall. intros e He%list_elem_of_In. apply extents_valid_within in Hv.
      eapply Forall_forall in Hv; [|exact He]. cbn in Hv. by rewrite !bool_decide_eq_true_2 by lia. }
    rewrite Hall. cbn [require mbind result_mbind result_bind]. destruct Hmin as [->| ->]; [done|].
    rewrite (Hm _ Hat). cbn. by rewrite bool_decide_eq_true_2.
  - unfold Page_children. rewrite bool_decide_eq_true_2 by done.
    cbn [require mbind result_mbind result_bind]. injection Hn as ->.
    assert (Hall : forallb (λ c, bool_decide (cu_lower cursor ≤ c_start c)
      && bool_decide (c_start c < cu_upper cursor)) cs = true).
    { apply forallb_forall. intros c Hc%list_elem_of_In.
      eapply Forall_forall in Hb; [|exact Hc]. cbn in Hb. by rewrite !bool_decide_eq_true_2 by lia. }
    rewrite Hall. cbn [require mbind result_mbind result_bind]. destruct Hmin as [->| ->]; [done|].
    rewrite (Hm _ Hat). cbn. by rewrite bool_decide_eq_true_2.
Qed.

(** The children of a branch, at the cursors its code builds. *)
Lemma Cursor_child_eq cursor pre (t : twig) ts n :
  cu_level cursor = Z.of_nat (S n) →
  Cursor_child cursor (tw_child <$> pre ++ t :: ts) (length pre) = Ok {|
    cu_offset := tw_offset t; cu_level := Z.of_nat n; cu_minimum := Some (tw_start t);
    cu_lower := if decide (pre = []) then cu_lower cursor else tw_start t;
    cu_upper := next_start (cu_upper cursor) ts |}.
Proof.
  intros Hl. unfold Cursor_child. rewrite !list_lookup_fmap, (list_lookup_middle _ _ _ (length pre)) by done.
  cbn [fmap option_fmap option_map expect mbind result_mbind result_bind].
  rewrite Hl, checked_sub_fits by lia. cbn [expect mbind result_mbind result_bind].
  rewrite lookup_app_r, Nat.sub_succ_l, Nat.sub_diag by lia. f_equal. f_equal.
  - lia.
  - destruct pre; [done|]. by rewrite !decide_False by done.
  - cbn. destruct ts; done.
Qed.

(** ** The pages of an editor *)

Definition page_store (source : PageReader) (end_ : Z) (blocks : list bytes) : PageReader := λ off,
  if bool_decide (off < end_) then require_before_commit off end_;; source off
  else if is_multiple_of (off - end_) BLOCK_SIZE
       then expect (blocks !! Z.to_nat ((off - end_) / BLOCK_SIZE)) else Panic.

Lemma page_store_app source end_ blocks new :
  store_le (page_store source end_ blocks) (page_store source end_ (blocks ++ new)).
Proof.
  intros off b. unfold page_store. destruct (bool_decide _); [done|]. destruct (is_multiple_of _ _); [|done].
  destruct (blocks !! _) as [x|] eqn:E; [|done]. by rewrite (lookup_app_l_Some _ _ _ _ E).
Qed.

Lemma page_store_new source end_ blocks b :
  page_store source end_ (blocks ++ [b]) (end_ + Z.of_nat (length blocks) * BLOCK_SIZE) = Ok b.
Proof.
  unfold page_store, BLOCK_SIZE. rewrite bool_decide_eq_false_2 by lia.
  replace (end_ + Z.of_nat (length blocks) * 4096 - end_) with (Z.of_nat (length blocks) * 4096) by lia.
  unfold is_multiple_of. rewrite Z.mod_mul, Z.div_mul, bool_decide_eq_true_2, Nat2Z.id by done.
  by rewrite list_lookup_middle.
Qed.

Lemma page_store_bound source end_ blocks off b :
  page_store source end_ blocks off = Ok b →
  off < end_ - BLOCK_SIZE ∨ (end_ ≤ off ∧ off < end_ + Z.of_nat (length blocks) * BLOCK_SIZE).
Proof.
  unfold page_store. destruct (bool_decide _) eqn:E; breflect.
  - unfold require_before_commit. rewrite require_bind, bool_decide_eq_true. intros [? _]. by left.
  - destruct (is_multiple_of _ _) eqn:Em; [|done]. apply is_multiple_of_spec in Em.
    destruct (blocks !! _) as [x|] eqn:Ex; [|done]. intros _. right. apply lookup_lt_Some in Ex.
    unfold BLOCK_SIZE in *. split; [lia|].
    assert ((off - end_) / 4096 < Z.of_nat (length blocks)) by lia.
    pose proof (Z_div_mod_eq_full (off - end_) 4096). lia.
Qed.

Lemma page_store_old source end_ blocks blocks' off b :
  off < end_ → page_store source end_ blocks off = Ok b → page_store source end_ blocks' off = Ok b.
Proof. intros Ho. unfold page_store. by rewrite !bool_decide_eq_true_2 by done. Qed.

Definition ed_store (source : PageReader) (end_ : Z) (ed : Editor) : PageReader :=
  page_store source end_ (ap_blocks (ed_buffer ed)).

Section Editor.
Context `{Crc32} (source : PageReader) (commit : Commit) (end_ limit : Z) (alloc : Z → bool).
Context (Hend : end_ mod BLOCK_SIZE = 0) (Hend0 : 2 * BLOCK_SIZE ≤ end_).
Context (Hlimit : end_ + limit * BLOCK_SIZE ≤ i64_max).
Context (Himage : cm_image_bytes commit ≠ 0) (Himage_mod : cm_image_bytes commit mod BLOCK_SIZE = 0)
        (Himage_fits : fits 64 (cm_image_bytes commit)).

Abbreviation image := (cm_image_bytes commit).
Abbreviation blocks := (cm_image_bytes commit / BLOCK_SIZE).
Abbreviation store ed := (ed_store source end_ ed).
Abbreviation tree := (subtree image end_).
Abbreviation twig_at := (twig_ok image end_).

Record editor_ok (ed : Editor) : Prop := {
  eo_alloc : ap_allocator (ed_buffer ed) = alloc;
  eo_limit : ap_limit (ed_buffer ed) = limit;
  eo_pages : ed_pages ed = Z.of_nat (length (ap_blocks (ed_buffer ed)));
  eo_room : ed_pages ed ≤ limit;
}.

(** [ed'] is [ed] after more pages were written. *)
Record later (ed ed' : Editor) : Prop := {
  la_ok : editor_ok ed';
  la_store : store_le (store ed) (store ed');
  la_root : ed_root ed' = ed_root ed;
  la_max : ed_max_pages_per_change ed' = ed_max_pages_per_change ed;
  la_pages : ed_pages ed ≤ ed_pages ed';
}.

Lemma later_refl ed r : editor_ok ed → later ed (set_reads ed r).
Proof.
  intros [H1 H2 H3 H4]. split; [by split | | done | done | done]. intros ???; done.
Qed.

Lemma later_self ed : editor_ok ed → later ed ed.
Proof. intros Hed. split; [done | by intros ??| done | done | done]. Qed.

Lemma later_trans ed1 ed2 ed3 : later ed1 ed2 → later ed2 ed3 → later ed1 ed3.
Proof. intros [] []. split; [done| |congruence|congruence|lia]. intros ???; auto. Qed.

Lemma blocks_bound : 0 ≤ blocks ≤ 2 ^ 64 - 1.
Proof.
  unfold fits, BLOCK_SIZE in *. split; [apply Z.div_pos; lia|].
  pose proof (Z.div_le_upper_bound image 4096 (2 ^ 64 - 1)). lia.
Qed.

(** The links of a list of subtrees written by an operation, with at most
    [quota] new pages. *)
Record wrote (ed ed' : Editor) (n : nat) (quota drafts : Z) (es : list Extent) (links : list Child)
    : Prop := {
  wr_later : later ed ed';
  wr_quota : ed_pages ed' ≤ ed_pages ed + quota;
  wr_twigs : ∃ ts, links = tw_child <$> ts ∧ Z.of_nat (length ts) ≤ LINKS_CAPACITY ∧
    Forall (twig_at (store ed') n) ts ∧ es = concat (tw_extents <$> ts) ∧
    sumZ (tw_drafts <$> ts) ≤ drafts + (ed_pages ed' - ed_pages ed);
}.

(** ** Writing pages *)

Lemma draft_offset ed : editor_ok ed → ed_pages ed < limit →
  fits 64 (Editor_next_offset end_ ed) ∧ page_offset (Editor_next_offset end_ ed) = true ∧
  own end_ (Editor_next_offset end_ ed) = 1.
Proof.
  intros [_ _ Hp _] Hl. unfold Editor_next_offset, i64_max, fits, own, BLOCK_SIZE in *.
  rewrite page_offset_iff, decide_False by lia. unfold BLOCK_SIZE. split_and!; try done; try lia.
  rewrite Z.mod_add by done. done.
Qed.

Lemma write_part_returns {A} (write : Z → list A → bytes → result bytes) (key : A → Z) part links ed b x :
  editor_ok ed → ed_pages ed < limit → Z.of_nat (length links) < LINKS_CAPACITY →
  write (Editor_next_offset end_ ed) part (zeros BLOCK_SIZE) = Ok b → part !! 0%nat = Some x →
  returns (write_part end_ write key part (links, ed)) (denied alloc) (λ '(links', ed'),
    links' = links ++ [{| c_start := key x; c_offset := Editor_next_offset end_ ed |}] ∧
    later ed ed' ∧ ed_pages ed' = ed_pages ed + 1 ∧ store ed' (Editor_next_offset end_ ed) = Ok b).
Proof.
  intros [H1 H2 H3 H4] Hl Hlinks Hw Hx. unfold write_part.
  eapply returns_bind.
  { rewrite <- H1. apply push_written_returns; [lia | exact Hw]. }
  intros buffer (B1 & B2 & B3). rewrite Hx. cbn [expect mbind result_mbind result_bind].
  rewrite try_push_ok by done. cbn [mbind result_mbind result_bind returns].
  assert (Hs : store_le (store ed) (store (set_buffer ed buffer (ed_pages ed + 1)))).
  { unfold ed_store. cbn. rewrite B1. apply page_store_app. }
  split_and!; [done | split; [split| | | |]; cbn; try congruence; try done; try lia | done |].
  - rewrite B1, length_app. cbn. lia.
  - unfold ed_store, Editor_next_offset. cbn. rewrite B1, H3. apply page_store_new.
Qed.

Definition write_leaf (offset : Z) (part : list Extent) (b : bytes) : result bytes :=
  leaf_into b offset image part.

Lemma write_leaf_returns part links ed :
  editor_ok ed → ed_pages ed < limit → Z.of_nat (length links) < LINKS_CAPACITY →
  part ≠ [] → Z.of_nat (length part) ≤ LEAF_CAPACITY → Forall Extent_ok part →
  extents_valid blocks 0 part →
  returns (write_part end_ write_leaf e_start part (links, ed)) (denied alloc) (λ '(links', ed'),
    ∃ t, links' = links ++ [tw_child t] ∧ later ed ed' ∧ ed_pages ed' = ed_pages ed + 1 ∧
      twig_at (store ed') 0 t ∧ tw_extents t = part ∧ tw_drafts t = 1).
Proof.
  intros Hed Hl Hlinks Hne Hcap Hok Hv. destruct part as [|e part]; [done|].
  destruct (draft_offset ed Hed Hl) as (Hf & Hp & Ho).
  pose proof (leaf_into_iff (zeros BLOCK_SIZE) (Editor_next_offset end_ ed) image (e :: part)
    eq_refl Hf Hok) as Hw. rewrite decide_True in Hw.
  2:{ unfold leaf_valid. split_and!; try done. cbn. lia. }
  destruct Hw as (b & page & Hw & _ & Hd & Hlev & Hes).
  eapply returns_mono; [by apply (write_part_returns write_leaf e_start _ _ _ b e) | done |].
  intros [links' ed'] (-> & Hla & Hpg & Hs).
  exists (Twig {| c_start := e_start e; c_offset := Editor_next_offset end_ ed |} (e :: part) 1).
  split_and!; try done. split; [|done]. cbn. split_and!; try done. split; [done|]. by exists b, page.
Qed.

Definition write_branch (level offset : Z) (part : list Child) (b : bytes) : result bytes :=
  branch_into b offset image level part.

Lemma twig_page s n t : twig_at s n t → page_offset (tw_offset t) = true ∧ fits 64 (tw_offset t) ∧
  ∃ b, s (tw_offset t) = Ok b.
Proof.
  intros [Ht _].
  assert (Hn : ∃ node, node_at image s (tw_offset t) (Z.of_nat n) node).
  { destruct n; cbn [subtree] in Ht; [eexists; apply Ht|]. destruct Ht as (ts & Ht & _). eauto. }
  destruct Hn as (node & Hn). pose proof (node_at_page _ _ _ _ _ Hn) as [? _].
  destruct Hn as (Hf & b & page & Hs & _). eauto.
Qed.

Lemma own_nonneg off : 0 ≤ own end_ off.
Proof. unfold own. destruct (decide _); lia. Qed.

Lemma twig_drafts s n t : twig_at s n t → 0 ≤ tw_drafts t.
Proof. intros [Ht%subtree_drafts _]. pose proof (own_nonneg (tw_offset t)). lia. Qed.

Lemma twigs_below ed ts n : editor_ok ed → Forall (twig_at (store ed) n) ts →
  Forall (λ t, page_offset (tw_offset t) = true ∧ tw_offset t < Editor_next_offset end_ ed) ts.
Proof.
  intros Hed Hf. eapply Forall_impl; [exact Hf|]. intros t (Hp & _ & b & Hs)%twig_page. split; [done|].
  apply page_store_bound in Hs. destruct Hed as [_ _ Hpg _].
  unfold Editor_next_offset, BLOCK_SIZE in *. lia.
Qed.

Lemma twigs_children_ok s n upper lo ts : Forall (twig_at s n) ts → parts_valid upper lo ts →
  0 ≤ lo → upper ≤ blocks → Forall Child_ok (tw_child <$> ts).
Proof.
  intros Hf Hp Hlo Hup. pose proof blocks_bound. rewrite Forall_fmap. revert lo Hlo Hp.
  induction Hf as [|t ts Ht _ IH]; intros lo Hlo Hp; [constructor|]. destruct Hp as (P1 & P2 & _ & Hp).
  pose proof (parts_valid_concat _ _ _ Hp) as [Hle _].
  constructor; [|eapply IH; [|exact Hp]; lia]. apply twig_page in Ht as (_ & Ht & _).
  split; [|done]. unfold tw_start, fits in *. lia.
Qed.

Lemma write_branch_returns n lo ts links ed :
  editor_ok ed → ed_pages ed < limit → Z.of_nat (length links) < LINKS_CAPACITY →
  ts ≠ [] → Z.of_nat (length ts) ≤ BRANCH_CAPACITY → Z.of_nat (S n) < MAX_HEIGHT →
  Forall (twig_at (store ed) n) ts → 0 ≤ lo → extents_valid blocks lo (concat (tw_extents <$> ts)) →
  lo ≤ blocks →
  returns (write_part end_ (write_branch (Z.of_nat (S n))) c_start (tw_child <$> ts) (links, ed))
    (denied alloc) (λ '(links', ed'),
    ∃ t, links' = links ++ [tw_child t] ∧ later ed ed' ∧ ed_pages ed' = ed_pages ed + 1 ∧
      twig_at (store ed') (S n) t ∧ tw_extents t = concat (tw_extents <$> ts) ∧
      tw_drafts t = 1 + sumZ (tw_drafts <$> ts)).
Proof.
  intros Hed Hl Hlinks Hne Hcap Hn Hf Hlo Hv Hle.
  destruct (draft_offset ed Hed Hl) as (Hoff & Hp & Ho).
  assert (Hparts : parts_valid blocks lo ts).
  { apply concat_parts_valid; [|done|done]. eapply Forall_impl; [exact Hf|]. by intros t []. }
  pose proof (branch_into_iff (zeros BLOCK_SIZE) (Editor_next_offset end_ ed) image (Z.of_nat (S n))
    (tw_child <$> ts) eq_refl Hoff ltac:(unfold fits, MAX_HEIGHT in *; lia)
    ltac:(by eapply twigs_children_ok)) as Hw. rewrite decide_True in Hw.
  2:{ unfold branch_valid. split_and!; try done; try lia.
      - rewrite length_fmap. destruct ts; [done|]. cbn. lia.
      - by rewrite length_fmap.
      - eapply parts_valid_children; [exact Hparts | done | by eapply twigs_below | by left]. }
  destruct Hw as (b & page & Hw & _ & Hd & Hlev & Hcs).
  destruct ts as [|t ts]; [done|].
  eapply returns_mono; [by apply (write_part_returns (write_branch _) c_start _ _ _ b (tw_child t)) | done |].
  intros [links' ed'] (-> & Hla & Hpg & Hs).
  exists (Twig {| c_start := c_start (tw_child t); c_offset := Editor_next_offset end_ ed |}
            (concat (tw_extents <$> t :: ts)) (1 + sumZ (tw_drafts <$> t :: ts))).
  assert (Hf' : Forall (twig_at (store ed') n) (t :: ts)) by (eapply twigs_ok_mono; [apply Hla | done]).
  split_and!; try done. split.
  - cbn [subtree]. exists (t :: ts). split_and!; try done.
    + split; [done|]. exists b, page. done.
    + cbn [tw_offset tw_child c_offset]. by rewrite Ho.
  - apply Forall_cons in Hf as [[_ Ht] _]. apply heads_nonempty in Ht as (e & es & He & Hs').
    cbn. rewrite He. cbn. by rewrite Hs'.
Qed.

(** ** One or two nodes *)

Lemma chunks_one {A} (l : list A) : l ≠ [] → chunks (length l) l = [l].
Proof.
  destruct l as [|x l]; [done|]. intros _. unfold chunks. cbn [length chunks_go].
  rewrite firstn_all2 by (cbn; lia). rewrite skipn_all2 by (cbn; lia). by destruct (length l).
Qed.

Lemma chunks_two {A} w (l : list A) : (0 < w)%nat → (w < length l)%nat → (length l ≤ 2 * w)%nat →
  chunks w l = [take w l; drop w l].
Proof.
  intros H0 H1 H2. unfold chunks. destruct l as [|x l]; [cbn in H1; lia|]. cbn [length] in *.
  cbn [chunks_go]. f_equal. destruct (length l) as [|k] eqn:E; [lia|].
  assert (Hd : (length (drop w (x :: l)) ≤ w)%nat) by (rewrite length_drop; cbn; lia).
  assert (Hne : (0 < length (drop w (x :: l)))%nat) by (rewrite length_drop; cbn; lia).
  destruct (drop w (x :: l)) as [|y d]; [cbn in Hne; lia|]. cbn [chunks_go].
  rewrite firstn_all2, skipn_all2 by done. by destruct k.
Qed.

(** [leaves] and [branches] cut a list that is longer than a page in two. *)
Lemma chunks_cases {A} capacity (l : list A) : 1 ≤ capacity → Z.of_nat (length l) ≤ 2 * capacity →
  l = [] ∧ chunks (part_width capacity (length l)) l = [] ∨
  l ≠ [] ∧ Z.of_nat (length l) ≤ capacity ∧ chunks (part_width capacity (length l)) l = [l] ∨
  ∃ a b, l = a ++ b ∧ a ≠ [] ∧ b ≠ [] ∧ Z.of_nat (length a) ≤ capacity ∧ Z.of_nat (length b) ≤ capacity ∧
    capacity < Z.of_nat (length l) ∧ chunks (part_width capacity (length l)) l = [a; b].
Proof.
  intros Hc Hl. unfold part_width. destruct (bool_decide _) eqn:E; breflect.
  - right; right. set (w := Nat.div (length l + 1) 2).
    assert (Hw : (length l ≤ 2 * w ∧ 2 * w ≤ length l + 1)%nat).
    { unfold w. pose proof (Nat.div_mod_eq (length l + 1) 2).
      pose proof (Nat.mod_upper_bound (length l + 1) 2 ltac:(lia)). lia. }
    clearbody w. exists (take w l), (drop w l). rewrite take_drop, length_take, length_drop.
    split_and!; try done; try lia; [| | apply chunks_two; lia]; intros En%(f_equal length).
    + rewrite length_take in En. cbn [length] in En. lia.
    + rewrite length_drop in En. cbn [length] in En. lia.
  - destruct l as [|x l]; [by left|]. right; left.
    split_and!; [done | lia|]. replace (Nat.max (length (x :: l)) 1) with (length (x :: l)) by (cbn [length]; lia). by apply chunks_one.
Qed.

Lemma links_wrote ed ed' n k t0 ts0 es d :
  later ed ed' → ed_pages ed' = ed_pages ed + k → Forall (twig_at (store ed') n) (t0 :: ts0) →
  Z.of_nat (length (t0 :: ts0)) ≤ LINKS_CAPACITY → es = concat (tw_extents <$> t0 :: ts0) →
  sumZ (tw_drafts <$> t0 :: ts0) ≤ d + k → ∀ quota, k ≤ quota →
  wrote ed ed' n quota d es (tw_child <$> t0 :: ts0).
Proof.
  intros Hla Hk Hf Hlen He Hd quota Hq. split; [done | lia |]. exists (t0 :: ts0). split_and!; try done. lia.
Qed.

Lemma Editor_leaves_returns ed es :
  editor_ok ed → ed_pages ed + 2 ≤ limit → Z.of_nat (length es) ≤ LEAVES_CAPACITY →
  Forall Extent_ok es → extents_valid blocks 0 es →
  returns (Editor_leaves commit end_ ed es) (denied alloc) (λ '(links, ed'),
    wrote ed ed' 0 2 0 es links ∧
    (1 ≤ Z.of_nat (length es) ≤ LEAF_CAPACITY → length links = 1%nat ∧ ed_pages ed' = ed_pages ed + 1)).
Proof.
  intros Hed Hl Hcap Hok Hv. unfold Editor_leaves. fold write_leaf.
  destruct (chunks_cases LEAF_CAPACITY es) as [[-> ->]|[(Hne & Hle & ->)|(a & b & -> & Ha & Hb & Hla & Hlb & Hgt & ->)]];
    [done | unfold LEAVES_CAPACITY, LEAF_CAPACITY in *; lia | | |]; cbn [try_fold].
  - cbn. split; [|lia]. split; [by apply later_self | lia | exists []; split_and!; try done; cbn; lia].
  - eapply returns_bind; [apply write_leaf_returns; try done; lia|]. intros [links ed'].
    intros (t & -> & Hla & Hp & Ht & He & Hd). cbn [returns app].
    split; [|done]. apply (links_wrote _ _ _ 1 t []); [done | lia | by constructor | done | | | lia]; cbn.
    + by rewrite He, app_nil_r.
    + lia.
  - apply Forall_app in Hok as [Hoka Hokb].
    destruct (extents_valid_app_inv _ _ (default blocks (e_start <$> b !! 0%nat)) _ _ Hv) as [Va Vb];
      [by destruct b | by intros -> |].
    assert (Hva : extents_valid blocks 0 a).
    { eapply extents_valid_weaken; [exact Va| |lia]. destruct b as [|y b]; [done|]. cbn.
      apply extents_valid_within in Hv. apply Forall_app in Hv as [_ Hv%Forall_cons]. lia. }
    assert (Hvb : extents_valid blocks 0 b).
    { eapply extents_valid_weaken; [apply Vb | done |]; destruct b as [|y b]; try done; cbn;
        apply extents_valid_within in Hv; apply Forall_app in Hv as [_ Hv%Forall_cons]; lia. }
    eapply returns_bind; [apply write_leaf_returns; try done; lia|]. intros [links ed1].
    intros (t1 & -> & Hla1 & Hp1 & Ht1 & He1 & Hd1). cbn [app].
    eapply returns_bind; [apply write_leaf_returns; try done; [apply Hla1 | lia]|]. intros [links ed2].
    intros (t2 & -> & Hla2 & Hp2 & Ht2 & He2 & Hd2). cbn [returns app].
    split; [|rewrite length_app in *; lia]. apply (links_wrote _ _ _ 2 t1 [t2]); cbn; try done; try lia.
    + by eapply later_trans.
    + apply Forall_cons. split; [eapply twig_ok_mono; [apply Hla2 | exact Ht1] | by apply Forall_singleton].
    + by rewrite He1, He2, app_nil_r.
Qed.

Lemma extents_valid_suffix hi lo a b :
  extents_valid hi lo (a ++ b) → extents_valid hi lo b.
Proof.
  revert lo. induction a as [|e a IH]; intros lo; [done|]. cbn. intros (? & ? & _ & _ & Hv%IH).
  eapply extents_valid_weaken; [exact Hv | done | lia].
Qed.

Lemma extents_valid_prefix hi lo a b :
  extents_valid hi lo (a ++ b) → extents_valid hi lo a.
Proof.
  revert lo. induction a as [|e a IH]; intros lo; [done|]. cbn. intros (? & ? & ? & ? & Hv%IH). by split_and!.
Qed.

Lemma Editor_branches_returns ed n ts :
  editor_ok ed → ed_pages ed + 2 ≤ limit → Z.of_nat (length ts) ≤ CHILDREN_CAPACITY →
  Z.of_nat (S n) < MAX_HEIGHT → Forall (twig_at (store ed) n) ts →
  extents_valid blocks 0 (concat (tw_extents <$> ts)) →
  returns (Editor_branches commit end_ ed (Z.of_nat (S n)) (tw_child <$> ts)) (denied alloc)
    (λ '(links, ed'),
      wrote ed ed' (S n) 2 (sumZ (tw_drafts <$> ts)) (concat (tw_extents <$> ts)) links ∧
      (1 ≤ Z.of_nat (length ts) ≤ BRANCH_CAPACITY → length links = 1%nat ∧ ed_pages ed' = ed_pages ed + 1)).
Proof.
  intros Hed Hl Hcap Hn Hf Hv. unfold Editor_branches. fold (write_branch (Z.of_nat (S n))).
  pose proof blocks_bound.
  destruct (chunks_cases BRANCH_CAPACITY (tw_child <$> ts))
    as [[E ->]|[(Hne & Hle & ->)|(a & b & E & Ha & Hb & Hca & Hcb & Hgt & ->)]];
    [done | rewrite length_fmap; unfold CHILDREN_CAPACITY, BRANCH_CAPACITY in *; lia | | |]; cbn [try_fold].
  - apply fmap_nil_inv in E as ->. split; [|cbn; lia].
    split; [by apply later_self | lia | exists []; split_and!; try done; cbn; lia].
  - rewrite length_fmap in Hle.
    eapply returns_bind; [apply (write_branch_returns n 0); try done; try lia; by intros ->|].
    intros [links ed'] (t & -> & Hla & Hp & Ht & He & Hd). cbn [returns app]. split; [|done].
    apply (links_wrote _ _ _ 1 t []); [done | lia | by apply Forall_singleton | done | | | lia]; cbn.
    + by rewrite He, app_nil_r.
    + lia.
  - apply fmap_app_inv in E as (ta & tb & -> & -> & ->). rewrite length_fmap in Hca, Hcb.
    rewrite !fmap_app, concat_app in Hv. rewrite !fmap_app, concat_app. apply Forall_app in Hf as [Hfa Hfb].
    eapply returns_bind; [apply (write_branch_returns n 0); try done; try lia;
      [by intros -> | by eapply extents_valid_prefix]|].
    intros [links ed1] (t1 & -> & Hla1 & Hp1 & Ht1 & He1 & Hd1). cbn [app].
    eapply returns_bind; [apply (write_branch_returns n 0); try done; try lia;
      [apply Hla1 | by intros -> | eapply twigs_ok_mono; [apply Hla1 | done] | by eapply extents_valid_suffix]|].
    intros [links ed2] (t2 & -> & Hla2 & Hp2 & Ht2 & He2 & Hd2). cbn [returns app].
    split.
    + apply (links_wrote _ _ _ 2 t1 [t2]); cbn; try done; try lia.
      * by eapply later_trans.
      * apply Forall_cons. split; [eapply twig_ok_mono; [apply Hla2 | exact Ht1] | by apply Forall_singleton].
      * by rewrite He1, He2, app_nil_r.
      * rewrite Hd1, Hd2, sumZ_app. lia.
    + rewrite length_fmap in Hgt. intros. lia.
Qed.

(** ** Reading *)

Lemma Editor_read_ok ed cursor n es d :
  editor_ok ed → tree (store ed) n (cu_offset cursor) es d → cursor_ok cursor n es →
  ∃ node r, Editor_read source commit end_ ed cursor = Ok (node, set_reads ed r) ∧
    node_at image (store ed) (cu_offset cursor) (Z.of_nat n) node.
Proof.
  intros Hed Hsub Hcur. destruct (Node_decode_subtree _ _ _ _ _ _ _ Hsub Hcur)
    as (b & page & node & Hs & Hp & Hn & Hat). exists node. unfold Editor_read.
  pose proof (page_store_bound _ _ _ _ _ Hs) as Hb.
  unfold ed_store, page_store in Hs. destruct (bool_decide (cu_offset cursor < end_)) eqn:E; breflect.
  - apply result_bind_ok in Hs as ([] & Hr & Hs). unfold Tree_read_node. rewrite Hr.
    cbn [mbind result_mbind result_bind]. rewrite Hs. cbn [mbind result_mbind result_bind].
    rewrite Hp. cbn [mbind result_mbind result_bind]. rewrite Hn. cbn. eauto.
  - exists (ed_reads ed). destruct (is_multiple_of _ _); [|done].
    rewrite bool_decide_eq_true_2 by (destruct Hed; unfold BLOCK_SIZE in *; lia).
    cbn [andb require mbind result_mbind result_bind]. rewrite Hs. cbn [mbind result_mbind result_bind].
    rewrite Hp. cbn [mbind result_mbind result_bind]. rewrite Hn. cbn. by destruct ed.
Qed.

(** ** The nodes an edit rewrites *)

(** An upper bound on the children an edit rewrites between two bounds: one
    for a mapping, one per endpoint strictly inside for a hole. *)
Definition weight (edit : Extent) (lo hi : Z) : Z :=
  match e_hash edit with
  | Some _ => if decide (e_start edit < hi ∧ lo < e_end edit) then 1 else 0
  | None => (if decide (lo < e_start edit < hi) then 1 else 0)
            + (if decide (lo < e_end edit < hi) then 1 else 0)
  end.

Definition touched (edit : Extent) (lo hi : Z) : Prop :=
  ¬ (e_end edit ≤ lo ∨ hi ≤ e_start edit) ∧
  ¬ (e_hash edit = None ∧ e_start edit ≤ lo ∧ hi ≤ e_end edit).

Lemma weight_bounds edit lo hi : 0 ≤ weight edit lo hi ≤ 2.
Proof. unfold weight. destruct (e_hash edit); repeat destruct (decide _); lia. Qed.

Lemma weight_split edit lo m hi :
  edit_range edit → lo ≤ m ≤ hi → weight edit lo m + weight edit m hi ≤ weight edit lo hi.
Proof.
  intros [He Hc] Hm. unfold weight in *. destruct (e_hash edit); [specialize (Hc ltac:(eauto))|];
    repeat destruct (decide _); lia.
Qed.

Lemma weight_touched edit lo hi : edit_range edit → touched edit lo hi → 1 ≤ weight edit lo hi.
Proof.
  intros [He Hc] [H1 H2]. unfold weight. destruct (e_hash edit); repeat destruct (decide _); try lia.
  exfalso. apply H2. split; [done|]. lia.
Qed.

Lemma weight_one edit lo hi : is_Some (e_hash edit) → weight edit lo hi ≤ 1.
Proof. intros [hash Hh]. unfold weight. rewrite Hh. destruct (decide _); lia. Qed.

(** A mapping that touches a range lies in it. *)
Lemma touched_inside edit lo hi :
  edit_range edit → ¬ (e_end edit ≤ lo ∨ hi ≤ e_start edit) → is_Some (e_hash edit) →
  lo ≤ e_start edit ∧ e_end edit ≤ hi.
Proof. intros [He Hc] Hn Hs. specialize (Hc Hs). lia. Qed.

Lemma edited_ok edit es : edit_range edit → Extent_ok edit → Forall Extent_ok es →
  Forall Extent_ok (edited edit es).
Proof.
  intros Hr He Hes. apply edited_forall; try done. intros e x (H1 & H2 & H3) Hx1 Hx2.
  unfold Extent_ok, fits in *. cbn. split_and!; try done; lia.
Qed.

(** ** Rewriting a subtree *)

Section Modify.
Context (edit : Extent) (Hrange : edit_range edit) (Hedit : Extent_ok edit).

Definition quota (n : nat) (lo hi : Z) : Z := 2 * Z.of_nat (S n) * weight edit lo hi.

Lemma quota_split n lo m hi : lo ≤ m ≤ hi → quota n lo m + quota n m hi ≤ quota n lo hi.
Proof.
  intros Hm. pose proof (weight_split edit lo m hi Hrange Hm). unfold quota.
  pose proof (Z.mul_le_mono_nonneg_l (weight edit lo m + weight edit m hi) (weight edit lo hi)
    (2 * Z.of_nat (S n)) ltac:(lia) ltac:(lia)). lia.
Qed.

Lemma quota_nonneg n lo hi : 0 ≤ quota n lo hi.
Proof. pose proof (weight_bounds edit lo hi). unfold quota. apply Z.mul_nonneg_nonneg; lia. Qed.

Definition modify_spec (n : nat) (modify : Editor → Node → Cursor → Extent → result (list Child * Editor))
    : Prop := ∀ ed node cursor es d,
  editor_ok ed → tree (store ed) n (cu_offset cursor) es d → cursor_ok cursor n es →
  0 ≤ cu_lower cursor → cu_upper cursor ≤ blocks → touched edit (cu_lower cursor) (cu_upper cursor) →
  node_at image (store ed) (cu_offset cursor) (Z.of_nat n) node →
  ed_pages ed + quota n (cu_lower cursor) (cu_upper cursor) ≤ limit →
  returns (modify ed node cursor edit) (denied alloc) (λ '(links, ed'),
    wrote ed ed' n (quota n (cu_lower cursor) (cu_upper cursor)) d (edited edit es) links).

Lemma clip_nil lo : clip edit lo lo [] = [].
Proof.
  unfold clip. destruct (decide _) as [|Hnd]; [done|]. unfold edited, place.
  destruct Hrange as [He Hc]. destruct (e_hash edit); [|done]. specialize (Hc ltac:(eauto)). lia.
Qed.

(** The loop over the children has handled the children [pre], which lie
    between [lo] and [m]. *)
Record progress (ed0 ed : Editor) (n : nat) (lo m : Z) (pre : list twig) (children : list Child) : Prop := {
  pr_later : later ed0 ed;
  pr_valid : lo ≤ m ∧ extents_valid m lo (concat (tw_extents <$> pre));
  pr_quota : ed_pages ed ≤ ed_pages ed0 + quota n lo m;
  pr_twigs : ∃ ts, children = tw_child <$> ts ∧ Forall (twig_at (store ed) n) ts ∧
    concat (tw_extents <$> ts) = clip edit lo m (concat (tw_extents <$> pre)) ∧
    Z.of_nat (length ts) ≤ Z.of_nat (length pre) + weight edit lo m ∧
    sumZ (tw_drafts <$> ts) ≤ sumZ (tw_drafts <$> pre) + (ed_pages ed - ed_pages ed0);
}.

(** One more child, replaced by the subtrees [us]. *)
Lemma progress_step ed0 ed ed' n lo m m' pre t ts us :
  progress ed0 ed n lo m pre (tw_child <$> ts) → m ≤ m' → extents_valid m' m (tw_extents t) →
  later ed ed' → ed_pages ed' ≤ ed_pages ed + quota n m m' → Forall (twig_at (store ed) n) ts →
  concat (tw_extents <$> ts) = clip edit lo m (concat (tw_extents <$> pre)) →
  Z.of_nat (length ts) ≤ Z.of_nat (length pre) + weight edit lo m →
  sumZ (tw_drafts <$> ts) ≤ sumZ (tw_drafts <$> pre) + (ed_pages ed - ed_pages ed0) →
  Forall (twig_at (store ed') n) us → concat (tw_extents <$> us) = clip edit m m' (tw_extents t) →
  Z.of_nat (length us) ≤ 1 + weight edit m m' →
  sumZ (tw_drafts <$> us) ≤ tw_drafts t + (ed_pages ed' - ed_pages ed) →
  progress ed0 ed' n lo m' (pre ++ [t]) (tw_child <$> ts ++ us).
Proof.
  intros [P1 [P2 P2'] P3 _] Hm Hv Hla Hq Hts Hc Hlen Hd Hus Huc Hul Hud.
  pose proof (weight_split edit lo m m' Hrange ltac:(lia)). pose proof (quota_split n lo m m' ltac:(lia)).
  split; [by eapply later_trans | | lia |].
  - split; [lia|]. rewrite fmap_app, concat_app. cbn. rewrite app_nil_r.
    by eapply extents_valid_app.
  - exists (ts ++ us). rewrite !fmap_app, !concat_app, !sumZ_app, !length_app. split_and!; [done | | | |].
    + apply Forall_app. split; [eapply twigs_ok_mono; [apply Hla | done] | done].
    + rewrite Hc, Huc. cbn [fmap list_fmap concat]. rewrite app_nil_r. symmetry. by apply clip_app.
    + cbn. lia.
    + cbn. lia.
Qed.

Lemma modify_child_returns n modify cursor pre t suf ed0 ed children :
  modify_spec n modify →
  cu_level cursor = Z.of_nat (S n) → cu_upper cursor ≤ blocks → 0 ≤ cu_lower cursor →
  let lo := if decide (pre = []) then cu_lower cursor else tw_start t in
  let m' := next_start (cu_upper cursor) suf in
  parts_valid (cu_upper cursor) lo (t :: suf) →
  Z.of_nat (length (pre ++ t :: suf)) ≤ BRANCH_CAPACITY → twig_at (store ed0) n t →
  ed_pages ed0 + quota n (cu_lower cursor) (cu_upper cursor) ≤ limit →
  progress ed0 ed n (cu_lower cursor) lo pre children →
  returns (modify_child source commit end_ modify (tw_child <$> pre ++ t :: suf) cursor edit
             (length pre) (children, ed)) (denied alloc)
    (λ '(children', ed'), progress ed0 ed' n (cu_lower cursor) m' (pre ++ [t]) children').
Proof.
  intros Hmod Hlev Hup Hlow lo m' Hparts Hcap Ht0 Hroom Hprog.
  pose proof Hprog as [P1 [P2 P2'] P3 (ts & -> & Hts & Hc & Hlen & Hd)].
  destruct Hparts as (A1 & A2 & A3 & A4). fold m' in A2, A3, A4.
  pose proof (parts_valid_concat _ _ _ A4) as [Hm'up _].
  assert (Ht : twig_at (store ed) n t) by (eapply twig_ok_mono; [apply P1 | done]).
  pose proof (weight_bounds edit (cu_lower cursor) lo). pose proof (weight_bounds edit lo m').
  pose proof (weight_split edit (cu_lower cursor) lo m' Hrange ltac:(lia)) as Hw1.
  pose proof (weight_bounds edit (cu_lower cursor) m').
  pose proof (quota_split n (cu_lower cursor) lo m' ltac:(lia)) as Hq1.
  pose proof (quota_split n (cu_lower cursor) m' (cu_upper cursor) ltac:(lia)) as Hq2.
  pose proof (quota_nonneg n m' (cu_upper cursor)). pose proof (quota_nonneg n lo m').
  rewrite length_app in Hcap. cbn [length] in Hcap. unfold BRANCH_CAPACITY in Hcap.
  unfold modify_child. rewrite (Cursor_child_eq _ _ _ _ _ Hlev), list_lookup_fmap,
    (list_lookup_middle _ _ _ (length pre)) by done.
  cbn [fmap option_fmap option_map expect mbind result_mbind result_bind cu_lower cu_upper].
  fold lo m'. rewrite <- bool_decide_or. destruct (decide (e_end edit ≤ lo ∨ m' ≤ e_start edit)) as [Hdis|Hdis].
  { rewrite bool_decide_eq_true_2 by done. rewrite try_push_ok.
    2:{ rewrite length_fmap. unfold CHILDREN_CAPACITY, BRANCH_CAPACITY. lia. }
    cbn [mbind result_mbind result_bind returns]. change ([tw_child t]) with (tw_child <$> [t]).
    rewrite <- fmap_app. eapply (progress_step ed0 ed ed n _ lo m' pre t ts [t]); try done; try lia.
    - apply later_self, P1.
    - by apply Forall_singleton.
    - cbn. rewrite app_nil_r. unfold clip. by rewrite decide_True.
    - cbn. lia.
    - cbn. lia. }
  rewrite bool_decide_eq_false_2 by done. rewrite <- !bool_decide_and.
  destruct (decide ((e_hash edit = None ∧ e_start edit ≤ lo) ∧ m' ≤ e_end edit)) as [Hcov|Hcov].
  { rewrite bool_decide_eq_true_2 by done. cbn [negb returns].
    rewrite <- (app_nil_r ts). eapply (progress_step ed0 ed ed n _ lo m' pre t ts []); try done; try lia.
    - apply later_self, P1.
    - cbn. unfold clip. rewrite decide_False, edited_none by (done || apply Hcov). symmetry.
      eapply remove_covered; [exact A3 | lia | lia].
    - cbn. lia.
    - cbn. apply twig_drafts in Ht. lia. }
  rewrite bool_decide_eq_false_2 by done. cbn [negb].
  assert (Htouch : touched edit lo m') by (split; [done|]; intros (? & ? & ?); by apply Hcov).
  pose proof (weight_touched _ _ _ Hrange Htouch).
  set (next := {| cu_offset := tw_offset t; cu_level := Z.of_nat n; cu_minimum := Some (tw_start t);
    cu_lower := lo; cu_upper := m' |}).
  assert (Hnext : cursor_ok next n (tw_extents t)).
  { split_and!; [done | exact A3 | right; symmetry; apply Ht]. }
  destruct (Editor_read_ok ed next n (tw_extents t) (tw_drafts t) (la_ok _ _ P1) (proj1 Ht) Hnext)
    as (node & r & -> & Hat). cbn [mbind result_mbind result_bind].
  eapply returns_bind.
  { apply (Hmod (set_reads ed r) node next (tw_extents t) (tw_drafts t)).
    - apply (later_refl ed r), P1.
    - apply Ht.
    - done.
    - cbn. lia.
    - cbn. lia.
    - done.
    - done.
    - cbn. destruct P1. lia. }
  intros [links ed'] [L1 L2 (us & -> & U1 & U2 & U3 & U4)]. cbn [cu_lower cu_upper next ed_pages set_reads] in *.
  unfold try_extend. rewrite !length_fmap, bool_decide_eq_true_2.
  2:{ unfold CHILDREN_CAPACITY, BRANCH_CAPACITY, LINKS_CAPACITY in *. lia. }
  cbn [mbind result_mbind result_bind returns]. rewrite <- fmap_app.
  eapply (progress_step ed0 ed ed' n _ lo m' pre t ts us); try done; try lia.
  - eapply later_trans; [apply (later_refl ed r), P1 | done].
  - unfold clip. by rewrite decide_False.
  - unfold LINKS_CAPACITY in *. lia.
Qed.

Lemma modify_children_returns n modify cursor suf : modify_spec n modify →
  cu_level cursor = Z.of_nat (S n) → cu_upper cursor ≤ blocks → 0 ≤ cu_lower cursor →
  ∀ pre ed0 ed children lo,
  (suf ≠ [] → lo = if decide (pre = []) then cu_lower cursor else next_start (cu_upper cursor) suf) →
  (suf = [] → lo = cu_upper cursor) →
  parts_valid (cu_upper cursor) lo suf →
  Z.of_nat (length (pre ++ suf)) ≤ BRANCH_CAPACITY → Forall (twig_at (store ed0) n) suf →
  ed_pages ed0 + quota n (cu_lower cursor) (cu_upper cursor) ≤ limit →
  progress ed0 ed n (cu_lower cursor) lo pre children →
  returns (try_fold (modify_child source commit end_ modify (tw_child <$> pre ++ suf) cursor edit)
             (seq (length pre) (length suf)) (children, ed)) (denied alloc)
    (λ '(children', ed'), progress ed0 ed' n (cu_lower cursor) (cu_upper cursor) (pre ++ suf) children').
Proof.
  intros Hmod Hlev Hup Hlow. induction suf as [|t suf IH]; intros pre ed0 ed children lo Hlo Hlo' Hp Hcap Ht Hroom Hprog.
  { cbn. rewrite app_nil_r. by rewrite <- Hlo'. }
  specialize (Hlo ltac:(done)). cbn [next_start] in Hlo. subst lo. clear Hlo'.
  apply Forall_cons in Ht as [Ht Hts]. cbn [length seq try_fold].
  eapply returns_bind; [by eapply (modify_child_returns n modify)|]. intros [children' ed'] Hprog'.
  replace (S (length pre)) with (length (pre ++ [t])) by (rewrite length_app; cbn; lia).
  change (t :: suf) with ([t] ++ suf). rewrite (app_assoc pre [t] suf).
  apply (IH (pre ++ [t]) ed0 ed' children' (next_start (cu_upper cursor) suf)); try done.
  - intros _. rewrite decide_False; [done|]. by destruct pre.
  - intros ->. done.
  - apply Hp.
  - by rewrite <- app_assoc.
Qed.

Lemma extents_valid_lt hi lo es : extents_valid hi lo es → es ≠ [] → lo < hi.
Proof. destruct es; [done|]. cbn. intros (? & ? & ? & _) _. lia. Qed.

(** [modify] replaces a subtree by at most two subtrees with the edited
    extents; at most two pages per level and touched endpoint. *)
Lemma Editor_modify_returns n : Z.of_nat n < MAX_HEIGHT → ∀ fuel, (n < fuel)%nat →
  modify_spec n (Editor_modify source commit end_ fuel).
Proof.
  induction n as [|n IH]; intros Hn [|fuel] Hfuel; try lia;
    intros ed node cursor es d Hed Hsub (Hlev & Hv & Hmin) Hlow Hup Htouch Hat Hroom;
    destruct (subtree_head _ _ _ _ _ _ _ Hsub) as (x & Hx & Hm); pose proof (subtree_twig_ok _ _ _ _ _ _ _ _ Hsub Hx) as Htw;
    pose proof (extents_valid_lt _ _ _ Hv (subtree_nonempty _ _ _ _ _ _ _ Hsub)) as Hlt;
    cbn [Editor_modify]; rewrite (Hm _ Hat); cbn [mbind result_mbind result_bind];
    pose proof (weight_touched _ _ _ Hrange Htouch);
    pose proof (touched_inside _ _ _ Hrange (proj1 Htouch)) as Hin;
    pose proof (weight_bounds edit (cu_lower cursor) (cu_upper cursor)).
  - cbn [subtree] in Hsub. destruct Hsub as (Hat' & Hne & Hcap & Hok & ->).
    destruct (node_at_inj _ _ _ _ _ _ _ Hat Hat') as [_ ->].
    rewrite (edit_leaf_ok edit (cu_upper cursor) (cu_lower cursor)) by done.
    cbn [mbind result_mbind result_bind]. destruct (bool_decide _) eqn:E; breflect.
    + cbn [returns]. rewrite E. split; [by apply later_self | unfold quota; lia |].
      exists [Twig {| c_start := x; c_offset := cu_offset cursor |} es (own end_ (cu_offset cursor))].
      split_and!; [done | done | by apply Forall_singleton | cbn; by rewrite app_nil_r | cbn; lia].
    + pose proof (edited_valid edit _ _ _ Hrange Hv Hin) as Hv'.
      pose proof (length_edited edit _ _ _ Hv) as Hlen.
      eapply returns_mono; [apply Editor_leaves_returns; [done | unfold quota in Hroom; lia | | by apply edited_ok | ] | done |].
      * unfold LEAVES_CAPACITY. lia.
      * eapply extents_valid_weaken; [exact Hv' | lia | lia].
      * intros [links ed'] [[W1 W2 (ts & W3 & W4 & W5 & W6 & W7)] _]. split; [done | unfold quota; lia |].
        exists ts. split_and!; try done. pose proof (own_nonneg (cu_offset cursor)). lia.
  - cbn [subtree] in Hsub. destruct Hsub as (ts & Hat' & Hne & Hcap & Hf & -> & ->).
    destruct (node_at_inj _ _ _ _ _ _ _ Hat Hat') as [_ ->]. rewrite length_fmap.
    assert (Hparts : parts_valid (cu_upper cursor) (cu_lower cursor) ts).
    { apply concat_parts_valid; [eapply Forall_impl; [exact Hf|]; by intros t [] | lia | done]. }
    assert (Hq : quota n (cu_lower cursor) (cu_upper cursor) + 2 ≤
      quota (S n) (cu_lower cursor) (cu_upper cursor)) by (unfold quota; lia).
    eapply returns_bind.
    { apply (modify_children_returns n _ cursor ts (IH ltac:(lia) fuel ltac:(lia)) Hlev Hup Hlow [] ed ed []
        (cu_lower cursor)); try done; try lia.
      split; [by apply later_self | split; [|done] | pose proof (quota_nonneg n (cu_lower cursor) (cu_lower cursor)); lia |].
      - lia.
      - exists []. split_and!; try done; cbn; try lia.
        + symmetry. apply clip_nil.
        + pose proof (weight_bounds edit (cu_lower cursor) (cu_lower cursor)). lia. }
    intros [children ed'] [P1 [P2 P2'] P3 (us & -> & U1 & U2 & U3 & U4)].
    cbn [app] in *. unfold clip in U2. rewrite decide_False in U2 by apply Htouch.
    pose proof (edited_valid edit _ _ _ Hrange Hv Hin) as Hv'.
    destruct (bool_decide _) eqn:E; breflect.
    + cbn [returns]. split; [done | lia |].
      exists [Twig {| c_start := x; c_offset := cu_offset cursor |} (concat (tw_extents <$> ts))
                   (own end_ (cu_offset cursor) + sumZ (tw_drafts <$> ts))].
      split_and!; [done | done | | | cbn; destruct P1; lia].
      { apply Forall_singleton. eapply twig_ok_mono; [apply P1 | exact Htw]. }
      cbn. rewrite app_nil_r, <- U2. eapply twigs_inj; [exact U1 | | exact E].
      eapply twigs_ok_mono; [apply P1 | exact Hf].
    + rewrite Hlev. eapply returns_mono; [apply Editor_branches_returns; try done; [apply P1 | lia | |] | done |].
      * unfold CHILDREN_CAPACITY. lia.
      * rewrite U2. eapply extents_valid_weaken; [exact Hv' | lia | lia].
      * intros [links ed2] ([W1 W2 (vs & W3 & W4 & W5 & W6 & W7)] & _). split; [by eapply later_trans | lia |].
        exists vs. split_and!; try done; [congruence|]. destruct W1.
        pose proof (own_nonneg (cu_offset cursor)). lia.
Qed.

End Modify.

(** ** One edit *)

Definition root_ok (ed : Editor) (es : list Extent) : Prop :=
  extents_valid blocks 0 es ∧
  (r_offset (ed_root ed) = 0 ∧ r_height (ed_root ed) = 0 ∧ es = [] ∨
   r_offset (ed_root ed) ≠ 0 ∧ 1 ≤ r_height (ed_root ed) ≤ MAX_HEIGHT ∧
   ∃ n d, r_height (ed_root ed) = Z.of_nat (S n) ∧
     tree (store ed) n (r_offset (ed_root ed)) es d ∧ d ≤ ed_pages ed).

Record applied (ed ed' : Editor) (es : list Extent) (pages height : Z) : Prop := {
  ax_ok : editor_ok ed';
  ax_root : root_ok ed' es;
  ax_pages : ed_pages ed ≤ ed_pages ed' ≤ ed_pages ed + pages;
  ax_height : r_height (ed_root ed') ≤ height;
  ax_max : ed_max_pages_per_change ed' = ed_max_pages_per_change ed;
}.

Lemma applied_trans ed1 ed2 ed3 es es' p q h h' :
  applied ed1 ed2 es p h → applied ed2 ed3 es' q h' → applied ed1 ed3 es' (p + q) h'.
Proof. intros [] []. split; try done; lia. Qed.

Lemma root_cursor_ok root n es : r_height root = Z.of_nat (S n) → extents_valid blocks 0 es →
  ∃ cursor, root_cursor commit root = Ok cursor ∧ cu_offset cursor = r_offset root ∧
    cu_lower cursor = 0 ∧ cu_upper cursor = blocks ∧ cursor_ok cursor n es.
Proof.
  intros Hh Hv. unfold root_cursor. rewrite Hh, checked_sub_fits by lia.
  cbn [expect mbind result_mbind result_bind]. eexists. do 4 (split; [done|]).
  split; [cbn; lia | split; [done | by left]].
Qed.

Lemma tree_page s n off es d : tree s n off es d → page_offset off = true ∧ off ≠ 0 ∧ fits 64 off.
Proof.
  intros Ht. destruct (subtree_head _ _ _ _ _ _ _ Ht) as (x & Hx & _).
  pose proof (subtree_twig_ok _ _ _ _ _ _ _ _ Ht Hx) as (Hp & Hf & _)%twig_page. cbn in Hp, Hf.
  split; [done|]. split; [|done]. by apply page_offset_iff in Hp as [? _].
Qed.

Lemma set_root_ok ed root es n d : editor_ok ed → extents_valid blocks 0 es →
  r_height root = Z.of_nat (S n) → r_height root ≤ MAX_HEIGHT → tree (store ed) n (r_offset root) es d →
  d ≤ ed_pages ed → applied ed (set_root ed root) es 0 (r_height root).
Proof.
  intros [] Hv Hh Hm Ht Hd. split; try done; [|cbn; lia]. split; [done|]. right.
  pose proof (tree_page _ _ _ _ _ Ht) as (_ & H0 & _). split_and!; cbn; try done; [lia..|]. by exists n, d.
Qed.

Lemma set_root_empty ed : editor_ok ed → applied ed (set_root ed Root_default) [] 0 0.
Proof. intros []. split; try done; [|cbn; lia]. split; [done|]. by left. Qed.

Lemma collapse_root_returns fuel : ∀ ed es n d, editor_ok ed → extents_valid blocks 0 es →
  (n ≤ fuel)%nat → r_height (ed_root ed) = Z.of_nat (S n) → r_height (ed_root ed) ≤ MAX_HEIGHT →
  tree (store ed) n (r_offset (ed_root ed)) es d → d ≤ ed_pages ed →
  returns (collapse_root source commit end_ fuel ed) (λ _, False)
    (λ ed', applied ed ed' es 0 (r_height (ed_root ed))).
Proof.
  assert (Hdone : ∀ ed ed' es n d, editor_ok ed → extents_valid blocks 0 es →
    r_height (ed_root ed) = Z.of_nat (S n) → r_height (ed_root ed) ≤ MAX_HEIGHT →
    tree (store ed) n (r_offset (ed_root ed)) es d → d ≤ ed_pages ed →
    ed' = ed ∨ (∃ r, ed' = set_reads ed r) → applied ed ed' es 0 (r_height (ed_root ed))).
  { intros ed ed' es n d Hed Hv Hh Hm Ht Hd He.
    assert (H0 : root_ok ed es).
    { split; [done|]. right. pose proof (tree_page _ _ _ _ _ Ht) as (_ & H0 & _).
      split; [done|]. split; [lia|]. by exists n, d. }
    destruct Hed, He as [->|[r ->]]; split; try done; cbn; lia. }
  induction fuel as [|fuel IH]; intros ed es n d Hed Hv Hn Hh Hm Ht Hd; cbn [collapse_root].
  - rewrite bool_decide_eq_false_2 by lia. eapply Hdone; try done. by left.
  - destruct (bool_decide _) eqn:E; breflect.
    2:{ eapply Hdone; try done. by left. }
    destruct n as [|n]; [lia|].
    destruct (root_cursor_ok _ _ _ Hh Hv) as (cursor & -> & Ho & _ & _ & Hcur).
    cbn [mbind result_mbind result_bind]. rewrite <- Ho in Ht.
    destruct (Editor_read_ok ed cursor _ _ _ Hed Ht Hcur) as (node & r & -> & Hat).
    cbn [mbind result_mbind result_bind]. rewrite Ho in Ht, Hat. pose proof Ht as Ht'. cbn [subtree] in Ht.
    destruct Ht as (ts & Hat' & Hne & _ & Hf & Hes & Hd').
    destruct (node_at_inj _ _ _ _ _ _ _ Hat Hat') as [_ ->].
    destruct (bool_decide _) eqn:E1; breflect; [eapply Hdone; try done; right; by exists r|].
    destruct ts as [|t [|t' ts]]; [done | | by exfalso; apply E1].
    apply Forall_singleton in Hf as [Hf _]. cbn in Hes, Hd'. rewrite app_nil_r in Hes. subst es.
    cbn [fmap list_fmap lookup list_lookup expect mbind result_mbind result_bind].
    set (ed1 := set_root _ _). pose proof (own_nonneg (r_offset (ed_root ed))).
    eapply returns_mono; [apply (IH ed1 (tw_extents t) n (tw_drafts t)) | done |].
    + apply (later_refl ed r) in Hed. destruct Hed as [[] _ _ _ _]. by split.
    + done.
    + lia.
    + cbn. lia.
    + cbn. lia.
    + exact Hf.
    + cbn. lia.
    + cbn. intros ed' [A1 A2 A3 A4 A5]. cbn in *. split; try done; lia.
Qed.

Lemma touched_root edit : edit_admitted blocks edit →
  ¬ (e_hash edit = None ∧ e_start edit = 0 ∧ e_end edit = blocks) → touched edit 0 blocks.
Proof.
  intros Ha Hn. pose proof (edit_admitted_start _ _ Ha). destruct Ha as (_ & [Hr _] & Hb).
  split; [lia|]. intros (H1 & H2 & H3). apply Hn. split_and!; [done | lia | lia].
Qed.

(** The errors of [apply]. *)
Definition exhausted (e : error) : Prop := e = Error InvalidData "manifest height exhausted".

Definition edit_quota (ed : Editor) : Z := 4 * Z.max (r_height (ed_root ed)) 1 + 1.

Lemma apply_empty ed edit : editor_ok ed → edit_admitted blocks edit →
  ed_pages ed + edit_quota ed ≤ limit → r_height (ed_root ed) = 0 → is_Some (e_hash edit) →
  returns ('(links, ed) ← Editor_leaves commit end_ ed [edit];
           link ← expect (links !! 0%nat);
           Ok (set_root ed {| r_offset := c_offset link; r_height := 1 |})) (denied alloc)
    (λ ed', applied ed ed' [edit] (edit_quota ed) 1).
Proof.
  intros Hed Ha Hroom Hh [hash Hhash]. pose proof (edit_admitted_start _ _ Ha) as H0.
  destruct Ha as (Hok & [Hr Hc] & Hb). unfold edit_quota in *. rewrite Hh in *.
  assert (Hv : extents_valid blocks 0 [edit]) by by split_and!.
  eapply returns_bind; [apply Editor_leaves_returns; try done; [lia | by apply Forall_singleton]|].
  intros [links ed1] ([W1 W2 (ts & -> & _ & Hts & Hes & Hd)] & Hone).
  destruct Hone as [Hone Hp1]; [cbn; unfold LEAF_CAPACITY; lia|]. destruct ts as [|t [|t' ts]]; try done.
  apply Forall_singleton in Hts as [Ht _]. cbn in Hes, Hd. rewrite app_nil_r in Hes.
  cbn [fmap list_fmap lookup list_lookup expect mbind result_mbind result_bind returns].
  destruct (set_root_ok ed1 {| r_offset := c_offset (tw_child t); r_height := 1 |} [edit] 0 (tw_drafts t));
    try done; [apply W1 | rewrite Hes; exact Ht | destruct W1, Hed; lia |].
  split; try done; [lia|]. rewrite ax_max0. apply W1.
Qed.

(** Links to subtrees become a root, or two roots below a new one. *)
Lemma apply_links ed0 ed n d es links k :
  editor_ok ed0 → d ≤ ed_pages ed0 → wrote ed0 ed n k d es links → extents_valid blocks 0 es →
  r_height (ed_root ed) = Z.of_nat (S n) → Z.of_nat (S n) ≤ MAX_HEIGHT → ed_pages ed + 2 ≤ limit →
  returns (match links with
           | [] => Ok (set_root ed Root_default)
           | [link] => Ok (set_root ed {| r_offset := c_offset link; r_height := r_height (ed_root ed) |})
           | _ =>
               require (bool_decide (r_height (ed_root ed) < MAX_HEIGHT)) "manifest height exhausted";;
               '(roots, ed) ← Editor_branches commit end_ ed (r_height (ed_root ed)) links;
               link ← expect (roots !! 0%nat);
               Ok (set_root ed {| r_offset := c_offset link; r_height := r_height (ed_root ed) + 1 |})
           end)
    (λ e, denied alloc e ∨ exhausted e ∧ r_height (ed_root ed) = MAX_HEIGHT)
    (λ ed', applied ed ed' es 1 (r_height (ed_root ed) + 1)).
Proof.
  intros Hed0 Hd0 [W1 W2 (ts & -> & Hlen & Hts & -> & Hd)] Hv Hh Hmax Hroom.
  destruct ts as [|t [|t' ts]]; cbn [fmap list_fmap].
  - destruct (set_root_empty ed (la_ok _ _ W1)). cbn. split; try done; lia.
  - apply Forall_singleton in Hts as [Ht _]. cbn [fmap list_fmap concat] in *. cbn in Hd. rewrite app_nil_r in *.
    destruct (set_root_ok ed {| r_offset := c_offset (tw_child t); r_height := r_height (ed_root ed) |}
      (tw_extents t) n (tw_drafts t)); try done; [apply W1 | cbn [r_height]; lia | lia |]. cbn [returns r_height] in *. split; try done; lia.
  - destruct (bool_decide _) eqn:E; breflect; cbn [require mbind result_mbind result_bind returns].
    2:{ right. split; [done | lia]. }
    rewrite Hh. change (tw_child t :: tw_child t' :: list_fmap _ _ tw_child ts) with (tw_child <$> t :: t' :: ts).
    assert (Hcap : Z.of_nat (length (t :: t' :: ts)) ≤ BRANCH_CAPACITY).
    { unfold LINKS_CAPACITY, BRANCH_CAPACITY in *. lia. }
    eapply returns_bind.
    { eapply returns_mono; [apply (Editor_branches_returns ed n (t :: t' :: ts)); try done | by left | intros a Ha; exact Ha].
      - apply W1.
      - unfold CHILDREN_CAPACITY. lia.
      - lia. }
    intros [roots ed2] ([V1 V2 (us & -> & _ & Hus & Hes & Hdu)] & Hone).
    destruct Hone as [Hone Hp]; [cbn [length] in *; lia|]. destruct us as [|u [|u' us]]; try done.
    apply Forall_singleton in Hus as [Hu _].
    cbn [fmap list_fmap lookup list_lookup expect mbind result_mbind result_bind returns].
    assert (Heu : tw_extents u = concat (tw_extents <$> t :: t' :: ts)) by (rewrite Hes; cbn; by rewrite app_nil_r).
    rewrite Heu in Hu. cbn [fmap list_fmap sumZ] in Hdu, Hd. pose proof (la_root _ _ V1) as Hroot.
    destruct (set_root_ok ed2 {| r_offset := c_offset (tw_child u); r_height := r_height (ed_root ed2) + 1 |}
      (concat (tw_extents <$> t :: t' :: ts)) (S n) (tw_drafts u)); try done;
      [apply V1 | cbn [r_height]; rewrite Hroot; lia | cbn [r_height]; rewrite Hroot; lia | lia |].
    cbn [r_height] in *. rewrite Hroot, Hh in *. destruct V1. split; [done | done | lia | lia | congruence].
Qed.

Lemma edited_whole edit es :
  e_hash edit = None → e_start edit = 0 → e_end edit = blocks → extents_valid blocks 0 es →
  edited edit es = [].
Proof. intros H1 H2 H3 Hv. rewrite edited_none by done. eapply remove_covered; [done | lia | lia]. Qed.

Lemma Editor_apply_returns ed edit es :
  editor_ok ed → root_ok ed es → edit_admitted blocks edit → ed_pages ed + edit_quota ed + 1 ≤ limit →
  returns (Editor_apply source commit end_ ed edit)
    (λ e, denied alloc e ∨ exhausted e ∧ r_height (ed_root ed) = MAX_HEIGHT)
    (λ ed', applied ed ed' (edited edit es) (edit_quota ed) (r_height (ed_root ed) + 1)).
Proof.
  intros Hed [Hv Hroot] Ha Hroom. unfold Editor_apply, Editor_blocks. rewrite <- !bool_decide_and.
  assert (Hq : 5 ≤ edit_quota ed) by (unfold edit_quota; lia).
  assert (Hh0 : 0 ≤ r_height (ed_root ed)) by (destruct Hroot as [(_ & -> & _)|(_ & ? & _)]; lia).
  destruct (decide ((e_hash edit = None ∧ e_start edit = 0) ∧ e_end edit = blocks)) as [[[Hn Hs] He]|Hfull].
  { rewrite bool_decide_eq_true_2 by done. rewrite edited_whole by done. cbn [returns].
    destruct (set_root_empty ed Hed). split; try done; lia. }
  rewrite bool_decide_eq_false_2 by done.
  destruct Hroot as [(Hr & Hh & ->)|(Hr & Hh & n & d & Hn & Ht & Hd)].
  - rewrite bool_decide_eq_true_2 by done. destruct (e_hash edit) as [hash|] eqn:Eh.
    + eapply returns_mono; [apply apply_empty; try done; try lia; by rewrite Eh | by left |]. intros ed' [].
      assert (edited edit [] = [edit]) as -> by (unfold edited, place; by rewrite Eh). split; try done. lia.
    + rewrite edited_none by done. cbn. split; try done; [|lia..]. split; [done|]. by left.
  - rewrite bool_decide_eq_false_2 by done.
    destruct (root_cursor_ok _ _ _ Hn Hv) as (cursor & -> & Ho & Hlo & Hup & Hcur).
    cbn [mbind result_mbind result_bind]. rewrite <- Ho in Ht.
    destruct (Editor_read_ok ed cursor _ _ _ Hed Ht Hcur) as (node & r & -> & Hat).
    cbn [mbind result_mbind result_bind].
    assert (Htouch : touched edit 0 blocks).
    { apply touched_root; [done|]. intros (? & ? & ?). by apply Hfull. }
    pose proof (edit_admitted_start _ _ Ha) as H0. destruct Ha as (Hok & Hrange & Hb).
    pose proof (weight_bounds edit 0 blocks) as Hw.
    assert (Hquota : quota edit n 0 blocks + 1 ≤ edit_quota ed).
    { unfold quota, edit_quota. rewrite Hn, Z.max_l by lia.
      pose proof (Z.mul_le_mono_nonneg_l _ _ (2 * Z.of_nat (S n)) ltac:(lia) (proj2 Hw)). lia. }
    pose proof (later_refl ed r Hed) as Hla.
    eapply returns_bind.
    { eapply returns_mono; [apply (Editor_modify_returns edit Hrange Hok n) with (es := es) (d := d)
        | by left | intros a Hpost; exact Hpost]; rewrite ?Hlo, ?Hup; try done; try lia.
      - unfold modify_fuel, MAX_HEIGHT in *. lia.
      - apply Hla.
      - cbn. lia. }
    rewrite Hlo, Hup. intros [links ed1] Hwrote. pose proof Hwrote as [W1 W2 _]. cbn [ed_pages set_reads] in W2.
    pose proof (edited_valid edit blocks 0 es Hrange Hv ltac:(done)) as Hv'.
    pose proof (la_root _ _ W1) as Hroot. cbn [ed_root set_reads] in Hroot. rewrite <- Hroot.
    eapply returns_bind.
    { apply (apply_links (set_reads ed r) ed1 n d (edited edit es) links (quota edit n 0 blocks)); try done.
      - apply Hla.
      - by rewrite Hroot.
      - lia.
      - lia. }
    intros ed2 A. rewrite Hroot in A |- *. pose proof A as [A1 [A2 A2'] A3 A4 A5].
    assert (Hd2 : applied ed ed2 (edited edit es) (edit_quota ed) (r_height (ed_root ed) + 1)).
    { split; try done; [destruct W1; cbn in *; lia|]. destruct W1. cbn in *. congruence. }
    destruct A2' as [(Z1 & Z2 & Z3)|(Z1 & Z2 & n2 & d2 & Z3 & Z4 & Z5)].
    + destruct modify_fuel; cbn [collapse_root]; by rewrite bool_decide_eq_false_2 by lia.
    + eapply returns_mono; [apply (collapse_root_returns _ _ (edited edit es) n2 d2); try done;
        unfold modify_fuel, MAX_HEIGHT in *; lia | done |].
      intros ed3 B. destruct Hd2. destruct B. split; try done; [lia..|]. congruence.
Qed.

Lemma Editor_change_returns ed edit es :
  editor_ok ed → root_ok ed es → edit_admitted blocks edit →
  ed_pages ed + edit_quota ed + 1 ≤ limit → ed_max_pages_per_change ed ≤ 4 * MAX_HEIGHT + 1 →
  returns (Editor_change source commit end_ edit ed)
    (λ e, denied alloc e ∨ exhausted e ∧ r_height (ed_root ed) = MAX_HEIGHT)
    (λ ed', editor_ok ed' ∧ root_ok ed' (edited edit es) ∧ ed_pages ed' ≤ ed_pages ed + edit_quota ed ∧
      r_height (ed_root ed') ≤ r_height (ed_root ed) + 1 ∧
      ed_max_pages_per_change ed' ≤ 4 * MAX_HEIGHT + 1).
Proof.
  intros Hed Hroot Ha Hroom Hmax. unfold Editor_change.
  eapply returns_bind; [by apply (Editor_apply_returns _ _ es)|]. intros ed' [A1 A2 A3 A4 A5].
  assert (Hq : edit_quota ed ≤ 4 * MAX_HEIGHT + 1).
  { destruct Hroot as [_ [(_ & Hh & _)|(_ & Hh & _)]]; unfold edit_quota, MAX_HEIGHT in *; lia. }
  rewrite bool_decide_eq_true_2 by (unfold edit_quota in *; lia).
  cbn [require mbind result_mbind result_bind returns]. split_and!; cbn; try done; [|lia..].
  destruct A1. by split.
Qed.

(** ** All edits *)

Lemma Editor_changes_returns edits : ∀ ed es,
  editor_ok ed → root_ok ed es → Forall (edit_admitted blocks) edits →
  ed_pages ed + Z.of_nat (length edits) * (4 * MAX_HEIGHT + 1) + 1 ≤ limit →
  ed_max_pages_per_change ed ≤ 4 * MAX_HEIGHT + 1 →
  returns (try_fold (Editor_change source commit end_) edits ed)
    (λ e, denied alloc e ∨
          exhausted e ∧ MAX_HEIGHT < r_height (ed_root ed) + Z.of_nat (length edits))
    (λ ed', editor_ok ed' ∧ root_ok ed' (edited_all edits es) ∧
      ed_pages ed' ≤ ed_pages ed + Z.of_nat (length edits) * (4 * MAX_HEIGHT + 1) ∧
      ed_max_pages_per_change ed' ≤ 4 * MAX_HEIGHT + 1).
Proof.
  induction edits as [|edit edits IH]; intros ed es Hed Hroot Ha Hroom Hmax.
  { cbn. split_and!; try done; lia. }
  apply Forall_cons in Ha as [Ha Has]. cbn [try_fold length] in *.
  assert (Hq : edit_quota ed ≤ 4 * MAX_HEIGHT + 1).
  { destruct Hroot as [_ [(_ & Hh & _)|(_ & Hh & _)]]; unfold edit_quota, MAX_HEIGHT in *; lia. }
  eapply returns_bind.
  { eapply returns_mono; [apply (Editor_change_returns ed edit es); try done; unfold MAX_HEIGHT in *; lia | | intros a Hp; exact Hp].
    intros e [He|[He Hh]]; [by left | right; split; [done | lia]]. }
  intros ed1 (B1 & B2 & B3 & B4 & B5). eapply returns_mono; [apply (IH ed1 (edited edit es)); try done; unfold MAX_HEIGHT in *; lia | |].
  - intros e [He|[He Hh]]; [by left | right; split; [done | lia]].
  - intros ed2 (C1 & C2 & C3 & C4). split_and!; try done; unfold MAX_HEIGHT in *; lia.
Qed.

(** ** A page at a time *)

Lemma push_of_write {A} (write : Z → list A → bytes → result bytes) (key : A → Z) part ed bad Q x :
  part !! 0%nat = Some x →
  returns (write_part end_ write key part ([], ed)) bad Q →
  returns (push_written (ed_buffer ed) (write (Editor_next_offset end_ ed) part)) bad (λ buffer,
    Q ([{| c_start := key x; c_offset := Editor_next_offset end_ ed |}],
       set_buffer ed buffer (ed_pages ed + 1))).
Proof.
  intros Hx. unfold write_part. destruct (push_written _ _); cbn [mbind result_mbind result_bind]; [|done|done].
  rewrite Hx. done.
Qed.

End Editor.

(** ** Emission *)

Section Emit.
Context `{Crc32} (source : PageReader) (commit : Commit) (end_ limit : Z) (alloc alloc' : Z → bool).
Context (Hend : end_ mod BLOCK_SIZE = 0) (Hend0 : 2 * BLOCK_SIZE ≤ end_).
Context (Hlimit : end_ + limit * BLOCK_SIZE ≤ i64_max).
Context (Himage : cm_image_bytes commit ≠ 0) (Himage_mod : cm_image_bytes commit mod BLOCK_SIZE = 0)
        (Himage_fits : fits 64 (cm_image_bytes commit)).

Abbreviation image := (cm_image_bytes commit).
Abbreviation blocks := (cm_image_bytes commit / BLOCK_SIZE).
Abbreviation tree := (subtree image end_).
Abbreviation twig_at := (twig_ok image end_).
Abbreviation out_store p := (page_store source end_ (ap_blocks p)).

(** The output buffer, seen as an editor that has written its pages. *)
Definition writer (output : AlignedPages) : Editor := {|
  ed_reads := 0; ed_buffer := output; ed_root := Root_default;
  ed_pages := Z.of_nat (length (ap_blocks output)); ed_max_pages_per_change := 0 |}.

Definition output_ok (output : AlignedPages) : Prop :=
  ap_allocator output = alloc' ∧ ap_limit output = limit ∧
  Z.of_nat (length (ap_blocks output)) ≤ limit ∧ Forall sized (ap_blocks output).

(** [output'] is [output] with at most [d] more pages. *)
Definition emitted (output output' : AlignedPages) (d : Z) : Prop :=
  output_ok output' ∧ store_le (out_store output) (out_store output') ∧
  Z.of_nat (length (ap_blocks output')) ≤ Z.of_nat (length (ap_blocks output)) + d.

Lemma writer_ok output : output_ok output → editor_ok limit alloc' (writer output).
Proof. intros (H1 & H2 & H3 & _). by split. Qed.

Lemma emitted_refl o : output_ok o → emitted o o 0.
Proof. intros Ho. split; [done|]. split; [by intros ??|lia]. Qed.

Lemma emitted_trans o1 o2 o3 d d' : emitted o1 o2 d → emitted o2 o3 d' → emitted o1 o3 (d + d').
Proof. intros (H1 & H2 & H3) (H4 & H5 & H6). split_and!; try done; [|lia]. intros ???; auto. Qed.

Lemma later_emitted ed output output' :
  later source end_ limit alloc' (writer output) ed → ed_buffer ed = output' →
  ed_pages ed = ed_pages (writer output) + 1 → Forall sized (ap_blocks output') → emitted output output' 1.
Proof.
  intros [[O1 O2 O3 O4] Hs _ _ _] <- Hp Hz. cbn in Hp. unfold emitted, output_ok.
  split_and!; [exact O1 | exact O2 | lia | exact Hz | exact Hs | lia].
Qed.

Lemma writer_offset output : Editor_next_offset end_ (writer output) = end_ + AlignedPages_len output.
Proof. done. Qed.

Lemma emit_leaf output es :
  output_ok output → Z.of_nat (length (ap_blocks output)) < limit → es ≠ [] →
  Z.of_nat (length es) ≤ LEAF_CAPACITY → Forall Extent_ok es → extents_valid blocks 0 es →
  returns (push_written output (λ b, leaf_into b (end_ + AlignedPages_len output) image es))
    (denied alloc') (λ output', emitted output output' 1 ∧
      ∃ d, tree (out_store output') 0 (end_ + AlignedPages_len output) es d).
Proof.
  intros Hout Hl Hne Hcap Hok Hv. destruct es as [|e es]; [done|].
  pose proof (write_leaf_returns source commit end_ limit alloc' Hend Hend0 Hlimit Himage Himage_mod
    Himage_fits (e :: es) [] (writer output) (writer_ok _ Hout) Hl ltac:(done) Hne Hcap Hok Hv) as Hw.
  apply (push_of_write end_ _ _ (e :: es) _ _ _ e eq_refl), push_written_sized in Hw;
    [|intros b; apply leaf_into_sized | apply Hout].
  eapply returns_mono; [exact Hw | done |]. cbn beta iota.
  intros output' [(t & Ht & Hla & Hp & [Ht' _] & He & _) Hz]. split; [by eapply later_emitted|].
  injection Ht as Ht. exists (tw_drafts t). rewrite <- He, <- writer_offset.
  unfold tw_offset in Ht'. rewrite <- Ht in Ht'. exact Ht'.
Qed.

Lemma emit_branch output n ts lo :
  output_ok output → Z.of_nat (length (ap_blocks output)) < limit → ts ≠ [] →
  Z.of_nat (length ts) ≤ BRANCH_CAPACITY → Z.of_nat (S n) < MAX_HEIGHT →
  Forall (twig_at (out_store output) n) ts → 0 ≤ lo → lo ≤ blocks →
  extents_valid blocks lo (concat (tw_extents <$> ts)) →
  returns (push_written output
             (λ b, branch_into b (end_ + AlignedPages_len output) image (Z.of_nat (S n)) (tw_child <$> ts)))
    (denied alloc') (λ output', emitted output output' 1 ∧
      ∃ d, tree (out_store output') (S n) (end_ + AlignedPages_len output) (concat (tw_extents <$> ts)) d).
Proof.
  intros Hout Hl Hne Hcap Hn Hts Hlo Hlo' Hv. destruct ts as [|t0 ts]; [done|].
  pose proof (write_branch_returns source commit end_ limit alloc' Hend Hend0 Hlimit Himage Himage_mod
    Himage_fits n lo (t0 :: ts) [] (writer output) (writer_ok _ Hout) Hl ltac:(done) Hne Hcap Hn Hts Hlo
    Hv Hlo') as Hw.
  assert (Hx : (tw_child <$> t0 :: ts) !! 0%nat = Some (tw_child t0)) by done.
  apply (push_of_write end_ _ _ _ _ _ _ _ Hx), push_written_sized in Hw;
    [|intros b; apply branch_into_sized | apply Hout].
  eapply returns_mono; [exact Hw | done |]. cbn beta iota.
  intros output' [(t & Ht & Hla & Hp & [Ht' _] & He & _) Hz]. split; [by eapply later_emitted|].
  injection Ht as Ht. exists (tw_drafts t). rewrite <- He, <- writer_offset.
  unfold tw_offset in Ht'. rewrite <- Ht in Ht'. exact Ht'.
Qed.

Definition emit_spec (n : nat)
    (emit : Editor → Cursor → AlignedPages → result (Z * Editor * AlignedPages)) : Prop :=
  ∀ ed cursor es d output,
  editor_ok limit alloc ed → output_ok output →
  tree (ed_store source end_ ed) n (cu_offset cursor) es d → cursor_ok cursor n es →
  0 ≤ cu_lower cursor → cu_upper cursor ≤ blocks →
  Z.of_nat (length (ap_blocks output)) + d ≤ limit →
  returns (emit ed cursor output) (denied alloc') (λ '(offset, ed', output'),
    (∃ r, ed' = set_reads ed r) ∧ emitted output output' d ∧
    ∃ d', tree (out_store output') n offset es d').

Lemma sum_drafts_nonneg s n ts : Forall (twig_at s n) ts → 0 ≤ sumZ (tw_drafts <$> ts).
Proof. intros Hts. apply sumZ_nonneg. eapply Forall_impl; [exact Hts|]. intros t. apply twig_drafts. Qed.

Lemma editor_ok_reads ed r : editor_ok limit alloc ed → editor_ok limit alloc (set_reads ed r).
Proof. intros []. by split. Qed.

(** The loop over the children: those in [pre] already point to emitted
    pages. *)
Lemma emit_children_returns n emit cursor suf : emit_spec n emit →
  cu_level cursor = Z.of_nat (S n) → cu_upper cursor ≤ blocks → 0 ≤ cu_lower cursor →
  ∀ pre ed output lo,
  editor_ok limit alloc ed → output_ok output →
  (suf ≠ [] → lo = if decide (pre = []) then cu_lower cursor else next_start (cu_upper cursor) suf) →
  0 ≤ lo → parts_valid (cu_upper cursor) lo suf →
  Forall (twig_at (out_store output) n) pre → Forall (twig_at (ed_store source end_ ed) n) suf →
  Z.of_nat (length (ap_blocks output)) + sumZ (tw_drafts <$> suf) ≤ limit →
  returns (try_fold (emit_child emit cursor) (seq (length pre) (length suf))
             (tw_child <$> pre ++ suf, ed, output)) (denied alloc')
    (λ '(children, ed', output'), (∃ r, ed' = set_reads ed r) ∧
      emitted output output' (sumZ (tw_drafts <$> suf)) ∧
      ∃ suf', children = tw_child <$> pre ++ suf' ∧ length suf' = length suf ∧
        Forall (twig_at (out_store output') n) (pre ++ suf') ∧
        concat (tw_extents <$> suf') = concat (tw_extents <$> suf)).
Proof.
  intros Hemit Hlev Hup Hlow. induction suf as [|t suf IH]; intros pre ed output lo Hed Hout Hlo Hlo0 Hp Hpre Hsuf Hroom.
  { cbn. split; [exists (ed_reads ed); by destruct ed|]. split; [by apply emitted_refl|].
    exists []. by rewrite app_nil_r. }
  specialize (Hlo ltac:(done)). cbn [next_start] in Hlo.
  destruct Hp as (A1 & A2 & A3 & A4). pose proof (parts_valid_concat _ _ _ A4) as [Hle _].
  apply Forall_cons in Hsuf as [Ht Hsuf]. cbn [fmap list_fmap sumZ] in Hroom.
  pose proof (sum_drafts_nonneg _ _ _ Hsuf) as Hsum. change (list_fmap _ _ tw_drafts suf) with (tw_drafts <$> suf) in Hroom.
  cbn [length seq try_fold]. eapply (returns_bind _ _ _ (λ '(children, ed', output'), ∃ offset,
      children = <[length pre := set_offset (tw_child t) offset]> (tw_child <$> pre ++ t :: suf) ∧
      (∃ r, ed' = set_reads ed r) ∧ emitted output output' (tw_drafts t) ∧
      ∃ d', tree (out_store output') n offset (tw_extents t) d')).
  { unfold emit_child. rewrite (Cursor_child_eq _ _ _ _ _ Hlev). cbn [mbind result_mbind result_bind].
    rewrite <- Hlo, list_lookup_fmap, (list_lookup_middle _ _ _ (length pre)) by done.
    cbn [fmap option_fmap option_map expect mbind result_mbind result_bind].
    set (next := {| cu_offset := _ |}).
    assert (Hnext : cursor_ok next n (tw_extents t)).
    { split_and!; [done | exact A3 | right; symmetry; apply Ht]. }
    eapply returns_bind; [apply (Hemit ed next (tw_extents t) (tw_drafts t) output); try done; cbn; try lia; apply Ht|].
    intros [[offset ed1] output1] Hpost. cbn. by exists offset. }
  intros [[children ed1] output1] (offset & -> & (r & ->) & Hem & d' & Ht').
  set (t' := Twig (set_offset (tw_child t) offset) (tw_extents t) d').
  assert (Hchildren : <[length pre := set_offset (tw_child t) offset]> (tw_child <$> pre ++ t :: suf)
    = tw_child <$> (pre ++ [t']) ++ suf).
  { rewrite !fmap_app, <- app_assoc. rewrite <- (length_fmap tw_child pre) at 1. by rewrite insert_app_r_alt, Nat.sub_diag by lia. }
  rewrite Hchildren. replace (S (length pre)) with (length (pre ++ [t'])) by (rewrite length_app; cbn; lia).
  eapply returns_mono; [apply (IH (pre ++ [t']) (set_reads ed r) output1 (next_start (cu_upper cursor) suf)) | done |];
    try done.
  - by apply editor_ok_reads.
  - apply Hem.
  - intros _. rewrite decide_False; [done|]. by destruct pre.
  - lia.
  - apply Forall_app. split; [eapply twigs_ok_mono; [apply Hem | done]|].
    apply Forall_singleton. split; [exact Ht' | apply Ht].
  - destruct Hem as (_ & _ & Hem). lia.
  - intros [[children ed2] output2] ((r2 & ->) & Hem2 & suf' & -> & Hls & Hts & Hes).
    split; [by exists r2|]. split; [eapply emitted_trans; done|]. exists (t' :: suf').
    rewrite <- app_assoc in Hts |- *. split_and!; [done | cbn; lia | done |]. cbn. by f_equal.
Qed.

(** [emit] writes the pages of the transaction that the tree reaches to the
    output, children first: the same extents, from committed pages and the
    output alone. *)
Lemma Editor_emit_returns n : Z.of_nat n < MAX_HEIGHT → ∀ fuel, (n < fuel)%nat →
  emit_spec n (Editor_emit source commit end_ fuel).
Proof.
  induction n as [|n IH]; intros Hn [|fuel] Hfuel; try lia;
    intros ed cursor es d output Hed Hout Ht Hcur Hlo Hup Hroom; cbn [Editor_emit];
    (destruct (bool_decide _) eqn:E; breflect;
      [cbn [returns]; split_and!; [exists (ed_reads ed); by destruct ed | |] | ]).
  1,4: pose proof (subtree_drafts _ _ _ _ _ _ _ Ht) as Hd; unfold own in Hd; rewrite decide_True in Hd by done;
    destruct (emitted_refl output Hout) as (? & ? & ?); split_and!; done || lia.
  1,3: eexists; eapply subtree_old; [|exact Ht | done]; intros off b Ho; by apply page_store_old.
  all: destruct (Editor_read_ok source commit end_ limit alloc ed cursor _ _ _ Hed Ht Hcur)
    as (node & r & -> & Hat); cbn [mbind result_mbind result_bind].
  - cbn [subtree] in Ht. destruct Ht as (Hat' & Hne & Hcap & Hok & ->).
    destruct (node_at_inj _ _ _ _ _ _ _ Hat Hat') as [_ ->]. unfold own in Hroom. rewrite decide_False in Hroom by lia.
    eapply returns_bind; [apply emit_leaf; try done; [lia|]|].
    + eapply extents_valid_weaken; [apply Hcur | lia | lia].
    + intros output' [Hem Htree]. cbn [returns]. split; [by exists r|]. unfold own. by rewrite decide_False by lia.
  - cbn [subtree] in Ht. destruct Ht as (ts & Hat' & Hne & Hcap & Hf & -> & ->).
    destruct (node_at_inj _ _ _ _ _ _ _ Hat Hat') as [_ ->]. rewrite length_fmap.
    unfold own in *. rewrite decide_False in * by lia.
    pose proof Hcur as (Hlev & Hv & _).
    assert (Hlt : cu_lower cursor < cu_upper cursor).
    { eapply extents_valid_lt; [exact Hv|]. eapply (subtree_nonempty _ _ _ (S n)). exists ts. by split_and!. }
    eapply returns_bind.
    { apply (emit_children_returns n _ cursor ts (IH ltac:(lia) fuel ltac:(lia)) Hlev Hup Hlo [] (set_reads ed r)
        output (cu_lower cursor)); try done; try lia.
      - by apply editor_ok_reads.
      - apply concat_parts_valid; [eapply Forall_impl; [exact Hf|]; by intros t [] | lia | done]. }
    intros [[children ed'] output'] ((r' & ->) & Hem & ts' & -> & Hlen & Hts' & Hes). cbn [app] in *.
    pose proof Hem as (Ho' & _ & Hl'). rewrite Hlev, <- Hes.
    eapply returns_bind; [apply (emit_branch output' n ts' (cu_lower cursor)); try done; try lia|].
    + destruct ts'; [by destruct ts | done].
    + rewrite Hes. eapply extents_valid_weaken; [exact Hv | lia | lia].
    + intros output2 [Hem2 Htree]. cbn [returns]. split; [by exists r'|]. split; [|exact Htree].
      rewrite Z.add_comm. by eapply emitted_trans.
Qed.

End Emit.
