(* ===== verification/ManifestPrepared.v ===== *)
(** * Prepared manifest transactions

    The end-to-end theorems about [Prepared::build]: the link between the
    cursor-free subtrees of [ManifestEditorSpec] and the walks of
    [ManifestTree], the new COMMIT page, and what a reader finds after the
    prepared bytes were written behind the committed end. *)
From S2P Require Import Prelude Bytes ManifestFormat ManifestTree ManifestEditor ManifestEdit ManifestEditorSpec.

(** ** Committed pages as nodes *)

Lemma fits_field b off n : bytes_ok b → 0 ≤ off → off + Z.of_nat n ≤ blen b →
  fits (8 * Z.of_nat n) (le_decode (slice off (Z.of_nat n) b)).
Proof.
  intros Hb Ho Hn. pose proof (le_decode_range (slice off (Z.of_nat n) b) (bytes_ok_slice _ _ _ Hb)) as Hr.
  by rewrite blen_slice in Hr by lia.
Qed.

Lemma Extent_decode_ok slot : bytes_ok slot → blen slot = 64 → Extent_ok (Extent_decode slot).
Proof.
  intros Hb Hl. unfold Extent_ok, Extent_decode, u64_at. cbn [e_start e_end e_hash].
  split_and!; [apply (fits_field slot 0 8); done || lia | apply (fits_field slot 8 8); done || lia |].
  destruct (bool_decide _); [|done]. rewrite blen_slice; lia.
Qed.

Lemma page_slots {A} (decode : bytes → A) (P : A → Prop) n count b :
  0 < n → 0 ≤ count → 64 + n * count ≤ blen b → bytes_ok b →
  (∀ slot, bytes_ok slot → blen slot = n → P (decode slot)) →
  Forall P (decode <$> as_chunks n (slice 64 (n * count) b)) ∧
  Z.of_nat (length (decode <$> as_chunks n (slice 64 (n * count) b))) = count.
Proof.
  intros Hn Hc Hl Hb HP. rewrite <- (Z2Nat.id count) in Hl |- * by done. rewrite length_fmap.
  rewrite length_as_chunks by lia. split; [|done]. rewrite Forall_fmap. apply Forall_lookup_2.
  intros i slot Hi. pose proof (lookup_lt_Some _ _ _ Hi) as Hlt. rewrite length_as_chunks in Hlt by lia.
  rewrite as_chunks_lookup in Hi by lia. injection Hi as <-. cbn.
  assert (Z.of_nat i * n + n ≤ n * Z.of_nat (Z.to_nat count)) by nia.
  apply HP; [by apply bytes_ok_slice | rewrite blen_slice; lia].
Qed.

Section Committed.
Context `{Crc32} (source : PageReader) (commit : Commit) (end_ : Z).
Context (Hbytes : ∀ off b, source off = Ok b → bytes_ok b).

Abbreviation image := (cm_image_bytes commit).

Lemma Node_decode_minimum page cursor node m :
  Node_decode page cursor = Ok node → cu_minimum cursor = Some m → Node_minimum node = Ok m.
Proof.
  unfold Node_decode. intros (_ & _ & (n & _ & Hm)%result_bind_ok)%result_bind_ok Hc.
  apply result_bind_ok in Hm as ([] & Hm & [= ->]). rewrite Hc in Hm.
  apply result_bind_ok in Hm as (m' & Hm & Hr%require_ok). breflect. congruence.
Qed.

Lemma Node_decode_content page cursor node :
  Node_decode page cursor = Ok node → Page_level page = cu_level cursor ∧
  match node with
  | LeafNode es => Page_extents page = Ok es
  | BranchNode cs => Page_children page = Ok cs
  end.
Proof.
  unfold Node_decode. rewrite require_bind, bool_decide_eq_true. intros [Hl Hn]. split; [done|].
  apply result_bind_ok in Hn as (n & Hn & (_ & _ & [= ->])%result_bind_ok).
  destruct (pg_kind page); [| |done|done].
  - apply result_bind_ok in Hn as (es & -> & (_ & _ & [= <-])%result_bind_ok). done.
  - apply result_bind_ok in Hn as (cs & -> & (_ & _ & [= <-])%result_bind_ok). done.
Qed.

Lemma read_committed cursor node :
  Tree_read_node source commit end_ cursor = Ok node →
  node_at image (page_store source end_ []) (cu_offset cursor) (cu_level cursor) node ∧
  cu_offset cursor < end_ ∧ (∀ m, cu_minimum cursor = Some m → Node_minimum node = Ok m) ∧
  match node with
  | LeafNode es => cu_level cursor = 0 ∧ es ≠ [] ∧ Z.of_nat (length es) ≤ LEAF_CAPACITY ∧ Forall Extent_ok es
  | BranchNode cs => 1 ≤ cu_level cursor ∧ cs ≠ [] ∧ Z.of_nat (length cs) ≤ BRANCH_CAPACITY
  end.
Proof.
  unfold Tree_read_node. intros ([] & Hb & (b & Hs & (page & Hp & Hn)%result_bind_ok)%result_bind_ok)%result_bind_ok.
  pose proof (Node_decode_content _ _ _ Hn) as [Hlev Hc].
  pose proof (Node_decode_ok _ _ _ _ _ _ Hp Hn) as Hok. pose proof (Hbytes _ _ Hs) as Hbs.
  assert (Hlt : cu_offset cursor < end_).
  { unfold require_before_commit in Hb. apply require_ok, bool_decide_eq_true_1 in Hb. unfold BLOCK_SIZE in Hb. lia. }
  pose proof Hp as (Hlen & _ & _ & _ & Hoff & _ & _ & _ & _ & Hpb & Hpc & Hbody)%Page_decode_iff.
  unfold BLOCK_SIZE in Hlen.
  assert (Hcount : 0 ≤ pg_count page) by (rewrite Hpc; apply (fits_field b 14 2); done || lia).
  split_and!; [|done | intros m; by eapply Node_decode_minimum |].
  - split; [rewrite <- Hoff; apply (fits_field b 16 8); done || lia|]. exists b, page. split_and!; try done.
    unfold page_store. rewrite bool_decide_eq_true_2, Hb by done. done.
  - destruct node as [es|cs]; unfold Page_extents, Page_children in Hc;
      apply require_bind in Hc as [Hk [= Hc]]; breflect; unfold check_body in Hbody; rewrite Hk in Hbody;
      unfold Page_validate_leaf, Page_validate_branch in Hbody; apply require_bind in Hbody as [Hcap _]; breflect;
      rewrite Hpb in Hc.
    + destruct (page_slots Extent_decode Extent_ok 64 (pg_count page) b) as [Hf Hl]; try done;
        [unfold LEAF_CAPACITY in *; lia | by intros; apply Extent_decode_ok |].
      rewrite Hc in Hf, Hl. split_and!; [congruence | apply Hok | lia | done].
    + destruct (page_slots Child_decode (λ _, True) 16 (pg_count page) b) as [_ Hl]; try done;
        [unfold BRANCH_CAPACITY in *; lia |].
      rewrite Hc in Hl. split_and!; [apply Hok | apply Hok | lia].
Qed.

Lemma mapM_length {A B} (f : A → result B) l k : mapM f l = Ok k → length k = length l.
Proof.
  revert k. induction l as [|x l IH]; intros k; [by intros [= <-]|].
  intros (y & ys & _ & Hm & ->)%mapM_cons_ok. cbn. f_equal. by apply IH.
Qed.

Lemma zip_extents cs : ∀ ess : list (list Extent), length ess = length cs →
  tw_child <$> zip_with (λ c es, Twig c es 0) cs ess = cs ∧
  tw_extents <$> zip_with (λ c es, Twig c es 0) cs ess = ess ∧
  sumZ (tw_drafts <$> zip_with (λ c es, Twig c es 0) cs ess) = 0.
Proof.
  induction cs as [|c cs IH]; intros [|es ess] Hl; try done. cbn in Hl.
  destruct (IH ess ltac:(lia)) as (H1 & H2 & H3). cbn. rewrite H1, H2. by split_and!.
Qed.

(** A walked subtree is a subtree of committed pages. *)
Lemma contents_subtree fuel : ∀ n cursor es,
  contents source commit end_ fuel cursor = Ok es → cu_level cursor = Z.of_nat n →
  subtree image end_ (page_store source end_ []) n (cu_offset cursor) es 0 ∧
  (∀ m, cu_minimum cursor = Some m → e_start <$> es !! 0%nat = Some m).
Proof.
  induction fuel as [|fuel IH]; intros n cursor es Hc Hlev; [done|]. cbn [contents] in Hc.
  apply result_bind_ok in Hc as (node & Hn & Hc). apply read_committed in Hn as (Hat & Hlt & Hmin & Hnode).
  assert (Hown : own end_ (cu_offset cursor) = 0) by (unfold own; by rewrite decide_True).
  rewrite Hlev in Hat, Hnode.
  assert (Hsub : subtree image end_ (page_store source end_ []) n (cu_offset cursor) es 0).
  { destruct node as [es'|cs].
    - injection Hc as ->. destruct Hnode as (Hn0 & H1 & H2 & H3). destruct n; [|lia]. cbn [subtree]. by rewrite Hown.
    - destruct Hnode as (Hn0 & H1 & H2). destruct n as [|n]; [lia|].
      apply result_bind_ok in Hc as (ess & Hm & [= <-]). pose proof (mapM_length _ _ _ Hm) as Hlen.
      rewrite length_seq in Hlen. destruct (zip_extents cs ess Hlen) as (E1 & E2 & E3).
      apply contents_branch in Hm as [_ Hm]; [|intros; by eapply contents_valid].
      cbn [subtree]. exists (zip_with (λ c es, Twig c es 0) cs ess). rewrite E1, E2, E3, Hown.
      split_and!; try done.
      + intros E. rewrite E in E1. cbn in E1. congruence.
      + by rewrite <- (length_fmap tw_child), E1.
      + apply Forall_lookup_2. intros i t Ht. apply lookup_zip_with_Some in Ht as (c & es & -> & Hci & Hei).
        destruct (Hm i es Hei) as (child & Hchild & Hes).
        apply Cursor_child_ok in Hchild as (c' & Hc' & Ho & Hl & _ & Hmi & _).
        rewrite Hci in Hc'. injection Hc' as <-. cbn [tw_offset tw_child tw_extents tw_drafts].
        destruct (IH n child es Hes ltac:(lia)) as [Hs Hh]. rewrite Ho in Hs. split; [done | by apply Hh]. }
  split; [done|]. intros m Hm. destruct (subtree_head _ _ _ _ _ _ _ Hsub) as (x & Hx & Hxm).
  rewrite Hx. specialize (Hxm _ Hat). specialize (Hmin _ Hm). congruence.
Qed.

End Committed.

(** ** Subtrees are walked *)

Section Walked.
Context `{Crc32} (image end_ : Z) (s : PageReader) (source : PageReader) (commit : Commit) (last : Z).
Context (Hcommit : cm_image_bytes commit = image).
Context (Hread : ∀ off b, s off = Ok b → source off = Ok b ∧ off < last - BLOCK_SIZE).

Lemma subtree_contents n : ∀ fuel cursor es d, (n < fuel)%nat →
  subtree image end_ s n (cu_offset cursor) es d → cursor_ok cursor n es →
  contents source commit last fuel cursor = Ok es.
Proof.
  induction n as [|n IH]; intros [|fuel] cursor es d Hf Hsub Hcur; try lia; cbn [contents];
    destruct (Node_decode_subtree _ _ _ _ _ _ _ Hsub Hcur) as (b & page & node & Hs & Hp & Hn & Hat);
    destruct (Hread _ _ Hs) as [Hr Hb]; unfold Tree_read_node, require_before_commit;
    rewrite bool_decide_eq_true_2 by done; cbn [require mbind result_mbind result_bind];
    rewrite Hr; cbn [mbind result_mbind result_bind]; rewrite Hcommit, Hp;
    cbn [mbind result_mbind result_bind]; rewrite Hn; cbn [mbind result_mbind result_bind].
  - destruct Hsub as (Hat' & _). by destruct (node_at_inj _ _ _ _ _ _ _ Hat Hat') as [_ ->].
  - cbn [subtree] in Hsub. destruct Hsub as (ts & Hat' & Hne & _ & Hts & -> & _).
    destruct (node_at_inj _ _ _ _ _ _ _ Hat Hat') as [_ ->]. destruct Hcur as (Hlev & Hv & _).
    assert (Hparts : parts_valid (cu_upper cursor) (cu_lower cursor) ts).
    { apply concat_parts_valid; [eapply Forall_impl; [exact Hts|]; by intros t [] | | done].
      assert (cu_lower cursor < cu_upper cursor); [|lia]. eapply extents_valid_lt; [exact Hv|].
      destruct Hts as [|t ts (_ & Ht)]; [done|]. cbn. by destruct (tw_extents t). }
    assert (Hgen : ∀ suf pre lo, ts = pre ++ suf → Forall (twig_ok image end_ s n) suf →
      parts_valid (cu_upper cursor) lo suf →
      (suf ≠ [] → lo = if decide (pre = []) then cu_lower cursor else next_start (cu_upper cursor) suf) →
      mapM (λ index, child ← Cursor_child cursor (tw_child <$> ts) index; contents source commit last fuel child)
        (seq (length pre) (length suf)) = Ok (tw_extents <$> suf)).
    2:{ rewrite length_fmap. change 0%nat with (length (@nil twig)). by rewrite (Hgen ts [] (cu_lower cursor)). }
    induction suf as [|t suf IHs]; intros pre lo E Hsuf Hp' Hlo; [done|].
    specialize (Hlo ltac:(done)). apply Forall_cons in Hsuf as [[Ht1 Ht2] Hsuf]. destruct Hp' as (A1 & A2 & A3 & A4).
    cbn [length seq fmap list_fmap]. apply mapM_cons_ok. exists (tw_extents t), (tw_extents <$> suf).
    split_and!; [| |done].
    + rewrite E, (Cursor_child_eq _ _ _ _ _ Hlev). cbn [mbind result_mbind result_bind].
      eapply IH; [lia | exact Ht1 |]. split_and!; [done | | by right]. cbn [cu_upper cu_lower].
      cbn [next_start] in Hlo. by rewrite <- Hlo.
    + replace (S (length pre)) with (length (pre ++ [t])) by (rewrite length_app; cbn; lia).
      apply (IHs (pre ++ [t]) (next_start (cu_upper cursor) suf)); try done.
      * by rewrite <- app_assoc.
      * intros _. rewrite decide_False; [done|]. by destruct pre.
Qed.

Lemma contents_walk fuel cursor es :
  contents source commit last fuel cursor = Ok es →
  Tree_visit fuel source commit last (λ _ s, Ok s) collect cursor [] = Ok es.
Proof. intros Hc. rewrite (visit_contents _ _ _ _ _ _ _ _ Hc). apply try_fold_collect. Qed.

End Walked.

(** ** The checks of [build] *)

Lemma try_fold_require {A} (p : A → bool) msg l :
  try_fold (λ x (_ : unit), require (p x) msg) l tt = if forallb p l then Ok tt else invalid_data msg.
Proof. induction l as [|x l IH]; cbn [try_fold forallb]; [done|]. by destruct (p x). Qed.

Definition admitted_edit (blocks : Z) (edit : Extent) : bool :=
  bool_decide (e_start edit < e_end edit) && bool_decide (e_end edit ≤ blocks)
  && (bool_decide (e_hash edit = None) || bool_decide (e_end edit - e_start edit = 1)).

Lemma Prepared_check_ok current end_ edits durable generation :
  Prepared_check current end_ edits durable = Ok generation → Forall Extent_ok edits →
  Z.of_nat (length edits) ≤ MAX_CHANGES ∧ cm_durable current ≤ durable ∧
  Forall (edit_admitted (cm_image_bytes current / BLOCK_SIZE)) edits ∧
  generation = cm_generation current + 1 ∧ generation < 2 ^ 64 ∧
  end_ + edit_pages edits * BLOCK_SIZE ≤ i64_max.
Proof.
  unfold Prepared_check. rewrite require_bind. intros [Hb Hc] Hok. breflect.
  apply result_bind_ok in Hc as ([] & Hf & Hc).
  change (try_fold _ edits tt) with (try_fold (λ edit (_ : unit),
    require (admitted_edit (cm_image_bytes current / BLOCK_SIZE) edit) "manifest edit range") edits tt) in Hf.
  rewrite try_fold_require in Hf. destruct (forallb _ edits) eqn:Ef; [|done].
  apply result_bind_ok in Hc as (g & Hg & Hc). apply require_bind in Hc as [Hc [= <-]]. breflect.
  destruct (checked_add 64 (cm_generation current) 1) eqn:Eg; [|done]. injection Hg as ->.
  apply checked_add_Some in Eg as [-> ?].
  match goal with H : is_some_and _ _ = true |- _ => rename H into Hs end.
  unfold is_some_and in Hs. destruct (checked_add 64 end_ _) eqn:Ee; [|done]. breflect.
  apply checked_add_Some in Ee as [-> _]. split_and!; try done.
  apply Forall_forall. intros edit Hedit. eapply Forall_forall in Hok; [|exact Hedit].
  pose proof (proj1 (forallb_forall _ _) Ef edit (proj1 (list_elem_of_In _ _) Hedit)) as Hadm.
  unfold admitted_edit in Hadm. breflect.
  split; [done|]. split; [|done]. split; [done|]. intros [hash Hh].
  match goal with H : _ || _ = true |- _ => apply orb_true_iff in H as [?|?] end; breflect; congruence.
Qed.

Lemma Prepared_check_no_panic current end_ edits durable : Prepared_check current end_ edits durable ≠ Panic.
Proof.
  unfold Prepared_check. no_panic.
  - apply try_fold_no_panic. intros. apply require_no_panic.
  - by destruct (checked_add 64 _ _).
Qed.

Lemma Tree_new_ok commit last : Tree_new commit last = Ok tt →
  2 * BLOCK_SIZE ≤ last ∧ last mod BLOCK_SIZE = 0 ∧ last ≤ i64_max ∧
  Commit_validate commit (last - BLOCK_SIZE) = Ok tt.
Proof.
  unfold Tree_new, validate_view. rewrite require_bind, !andb_true_iff, !bool_decide_eq_true,
    is_multiple_of_spec. intuition.
Qed.

(** What [Commit::validate] asks of a root. *)
Definition root_valid (root : Root) (offset : Z) : Prop :=
  r_offset root = 0 ∧ r_height root = 0 ∨
  r_offset root ≠ 0 ∧ page_offset (r_offset root) = true ∧ r_offset root < offset ∧
  1 ≤ r_height root ≤ MAX_HEIGHT.

Lemma Commit_validate_iff c offset : Commit_validate c offset = Ok tt ↔
  page_offset offset = true ∧ cm_store c ≠ zeros 16 ∧ cm_image c ≠ zeros 16 ∧ cm_generation c ≠ 0 ∧
  cm_image_bytes c ≠ 0 ∧ cm_image_bytes c mod BLOCK_SIZE = 0 ∧ root_valid (cm_root c) offset.
Proof.
  unfold Commit_validate, root_valid. rewrite require_bind, require_ok, !andb_true_iff, !bool_decide_eq_true,
    is_multiple_of_spec. destruct (bool_decide (r_offset (cm_root c) = 0)) eqn:E; breflect.
  - rewrite bool_decide_eq_true. intuition.
  - rewrite !andb_true_iff, !bool_decide_eq_true. intuition.
Qed.

(** ** Building *)

Section Build.
Context `{Crc32} (source : PageReader) (current : Commit) (end_ : Z) (es : list Extent).
Context (Hbytes : ∀ off b, source off = Ok b → bytes_ok b).
Context (Hcommit : Commit_ok current) (Hnew : Tree_new current end_ = Ok tt).
Context (Hwalk : Tree_walk source current end_ collect [] = Ok es).

Abbreviation image := (cm_image_bytes current).
Abbreviation blocks := (cm_image_bytes current / BLOCK_SIZE).

Lemma initial_root_ok alloc pages : root_ok source current end_ (Editor_new current alloc pages) es.
Proof.
  pose proof Hnew as (_ & _ & _ & (_ & _ & _ & _ & _ & _ & Hroot)%Commit_validate_iff)%Tree_new_ok.
  unfold Tree_walk, Tree_walk_pages in Hwalk. unfold root_ok, Editor_new. cbn [ed_root ed_pages].
  destruct Hroot as [(Hr & Hh)|(Hr & Hp & Hlt & Hh)].
  - rewrite bool_decide_eq_false_2 in Hwalk by lia. injection Hwalk as <-. split; [done|]. by left.
  - rewrite bool_decide_eq_true_2 in Hwalk by done.
    apply collect_contents in Hwalk as (es' & Hc & ->). cbn [app].
    split; [by apply contents_valid in Hc|]. right. split; [done|]. split; [done|].
    destruct (contents_subtree source current end_ Hbytes _ (Z.to_nat (r_height (cm_root current) - 1)) _ _ Hc)
      as [Ht _]; [cbn; unfold saturating_sub; lia|].
    exists (Z.to_nat (r_height (cm_root current) - 1)), 0. split_and!; [lia | exact Ht | done].
Qed.

(** The errors of [build] once its arguments are checked. *)
Definition build_error (metadata : Allocators) (edits : list Extent) (e : error) : Prop :=
  e = Error OutOfMemory "aligned buffer allocation denied" ∧ al_scratch metadata = false ∨
  denied (al_draft metadata) e ∨ denied (al_output metadata) e ∨
  exhausted e ∧ MAX_HEIGHT < r_height (cm_root current) + Z.of_nat (length edits).

(** The outcome: the pages of the edited tree, and a COMMIT page behind. *)
Record built (edits : list Extent) (durable : Z) (p : Prepared) : Prop := {
  bu_previous : p_previous p = current;
  bu_offset : p_offset p = end_;
  bu_commit : ∃ root, p_commit p = next_commit current root (cm_generation current + 1) durable;
  bu_pages : ∃ pages page, ap_blocks (p_buffer p) = pages ++ [page] ∧ Forall sized (pages ++ [page]) ∧
    Z.of_nat (length pages) ≤ Z.of_nat (length edits) * (4 * MAX_HEIGHT + 1) ∧
    (∃ pg, Page_decode page (end_ + Z.of_nat (length pages) * BLOCK_SIZE) image = Ok pg ∧
           Page_commit pg = Ok (p_commit p)) ∧
    Commit_validate (p_commit p) (end_ + Z.of_nat (length pages) * BLOCK_SIZE) = Ok tt ∧
    (r_offset (cm_root (p_commit p)) = 0 ∧ edited_all edits es = [] ∨
     r_offset (cm_root (p_commit p)) ≠ 0 ∧ ∃ n d, r_height (cm_root (p_commit p)) = Z.of_nat (S n) ∧
       subtree image end_ (page_store source end_ pages) n (r_offset (cm_root (p_commit p)))
         (edited_all edits es) d);
  bu_written : st_written_pages (p_stats p) = Z.of_nat (length (ap_blocks (p_buffer p)));
  bu_changes : st_changes (p_stats p) = Z.of_nat (length edits);
  bu_max : st_max_pages_per_change (p_stats p) ≤ 4 * MAX_HEIGHT + 1;
}.

Lemma emit_root_returns edits alloc alloc' limit ed :
  end_ + limit * BLOCK_SIZE ≤ i64_max → editor_ok limit alloc ed →
  root_ok source current end_ ed (edited_all edits es) → ed_pages ed ≤ limit →
  returns
    (if bool_decide (r_offset (ed_root ed) = 0) then Ok (ed_root ed, ed, AlignedPages_new alloc' limit)
     else
       let cursor := Cursor_root (set_commit_root current (ed_root ed)) in
       '(offset, ed', output) ← Editor_emit source current end_ (Z.to_nat MAX_HEIGHT) ed cursor
                                  (AlignedPages_new alloc' limit);
       Ok ({| r_offset := offset; r_height := r_height (ed_root ed) |}, ed', output))
    (denied alloc') (λ '(root, ed', output),
      (∃ r, ed' = set_reads ed r) ∧
      output_ok limit alloc' output ∧ Z.of_nat (length (ap_blocks output)) ≤ ed_pages ed ∧
      root_valid root (end_ + Z.of_nat (length (ap_blocks output)) * BLOCK_SIZE) ∧ fits 64 (r_offset root) ∧
      (r_offset root = 0 ∧ edited_all edits es = [] ∨
       r_offset root ≠ 0 ∧ ∃ n d, r_height root = Z.of_nat (S n) ∧
         subtree image end_ (page_store source end_ (ap_blocks output)) n (r_offset root) (edited_all edits es) d)).
Proof.
  intros Hlimit Hed [Hv Hroot] Hpages.
  pose proof Hnew as (He0 & Hem & _ & (_ & _ & _ & _ & Hi & Him & _)%Commit_validate_iff)%Tree_new_ok.
  pose proof Hcommit as (_ & _ & _ & _ & _ & _ & Hfi).
  assert (Hed0 : 0 ≤ ed_pages ed) by (destruct Hed as [_ _ -> _]; lia).
  assert (Hout : output_ok limit alloc' (AlignedPages_new alloc' limit)).
  { unfold output_ok. cbn. split_and!; try done. lia. }
  destruct Hroot as [(Hr & Hh & Hnil)|(Hr & Hh & n & d & Hn & Ht & Hd)].
  - rewrite bool_decide_eq_true_2 by done. cbn [returns].
    split; [exists (ed_reads ed); by destruct ed|]. split; [done|]. split; [cbn; lia|].
    split; [by left|]. rewrite Hr. split; [done|]. by left.
  - rewrite bool_decide_eq_false_2 by done. cbv zeta. set (cursor := Cursor_root _).
    assert (Hcur : cursor_ok cursor n (edited_all edits es)).
    { split; [cbn; unfold saturating_sub; lia|]. split; [exact Hv | by left]. }
    eapply returns_bind.
    { apply (Editor_emit_returns source current end_ limit alloc alloc' Hem He0 Hlimit Hi Him Hfi n) with
        (es := edited_all edits es) (d := d); try done; cbn; unfold MAX_HEIGHT in *; lia. }
    intros [[offset ed'] output] (Hr' & (Ho & _ & Hlen) & d' & Htree). cbn [returns].
    pose proof (tree_page current end_ _ _ _ _ _ Htree) as (Hpo & Hne & Hfit).
    split; [done|]. split; [done|]. split; [cbn in Hlen; lia|]. cbn [r_offset r_height].
    split; [right|]. 2:{ split; [done|]. right. split; [done|]. by exists n, d'. }
    do 2 (split; [done|]). split; [|done]. destruct (subtree_head _ _ _ _ _ _ _ Htree) as (x & Hx & _).
    pose proof (subtree_twig_ok _ _ _ _ _ _ _ _ Htree Hx) as (_ & _ & b & Hb)%(twig_page current).
    apply page_store_bound in Hb. cbn [tw_offset tw_child c_offset r_offset] in *. unfold BLOCK_SIZE in *. lia.
Qed.

Lemma Prepared_build_returns edits durable metadata : Forall Extent_ok edits → fits 64 durable →
  returns (Prepared_build source current end_ edits durable metadata)
    (λ e, Prepared_check current end_ edits durable = Err e ∨ build_error metadata edits e)
    (built edits durable).
Proof.
  intros Hedits Hdur. unfold Prepared_build.
  destruct (Prepared_check current end_ edits durable) as [generation|e|] eqn:Ec;
    [|by left | by apply Prepared_check_no_panic in Ec].
  apply Prepared_check_ok in Ec as (Hmax & _ & Hadm & -> & Hgen & Hlimit); [|done].
  cbn [mbind result_mbind result_bind]. rewrite Hnew. cbn [mbind result_mbind result_bind].
  destruct (al_scratch metadata) eqn:Es; [|by right; left]. cbn [mbind result_mbind result_bind].
  pose proof Hnew as (He0 & Hem & _ & (Hpo & Hs & Him' & Hg & Hi & Him & Hrv)%Commit_validate_iff)%Tree_new_ok.
  pose proof Hcommit as (K1 & K2 & K3 & K4 & K5 & K6 & Hfi).
  assert (Hpages : edit_pages edits = Z.of_nat (length edits) * 72 + 1) by done.
  set (limit := edit_pages edits) in *.
  eapply returns_bind.
  { eapply returns_mono.
    - apply (Editor_changes_returns source current end_ limit (al_draft metadata) Hem He0 Hlimit Hi Him Hfi
        edits _ es); [split; cbn; try done; lia | apply initial_root_ok | done | cbn | cbn].
      + unfold MAX_HEIGHT. lia.
      + done.
    - intros e [He|He]; right; right; [by left | by right; right].
    - intros a Ha. exact Ha. }
  intros ed (E1 & E2 & E3 & E4). cbn in E3.
  eapply returns_bind.
  { eapply returns_mono; [apply (emit_root_returns edits (al_draft metadata) (al_output metadata) limit ed);
      try done; apply E1 | | intros a Ha; exact Ha]. intros e He. right; right; right; by left. }
  intros [[root ed'] output] ((r & ->) & (O1 & O2 & O3 & O4) & Hlen & Hroot & Hfit & Htree).
  set (commit := next_commit current root (cm_generation current + 1) durable).
  set (offset := end_ + AlignedPages_len output).
  assert (Hpo' : page_offset offset = true ∧ fits 64 offset).
  { unfold offset, AlignedPages_len. split.
    - apply page_offset_iff. unfold BLOCK_SIZE in *. rewrite Z.mod_add by done. split; [lia | done].
    - unfold fits, i64_max, BLOCK_SIZE in *. lia. }
  assert (Hval : Commit_validate commit offset = Ok tt).
  { apply Commit_validate_iff. cbn. unfold fits in K3. split_and!; try done; [apply Hpo' | lia]. }
  assert (Hcok : Commit_ok commit).
  { unfold Commit_ok. cbn. split_and!; try done; [unfold fits in *; lia|].
    destruct Hroot as [(_ & ->)|(_ & _ & _ & ?)]; unfold fits, MAX_HEIGHT in *; lia. }
  pose proof (commit_into_iff commit (zeros BLOCK_SIZE) offset eq_refl (proj2 Hpo') Hcok) as Hc.
  rewrite Hval in Hc. cbn [is_ok] in Hc. destruct Hc as (page & pg & Hw & Hsz & Hd1 & Hd2).
  eapply returns_bind.
  { eapply returns_mono; [apply push_written_returns; [|exact Hw] | | intros a Ha; exact Ha].
    - rewrite O2. unfold MAX_HEIGHT in *. cbn in Hlen. lia.
    - rewrite O1. intros e He. right; right; right; by left. }
  intros output' (B1 & B2 & B3). cbn [returns]. split; try done.
  - by exists root.
  - exists (ap_blocks output), page. cbn. split_and!; try done.
    + apply Forall_app. split; [done | by apply Forall_singleton].
    + unfold MAX_HEIGHT in *. lia.
    + by exists pg.
  - cbn. unfold AlignedPages_len. by rewrite Z.div_mul.
Qed.

End Build.

(** ** After the write *)

(** The file after the prepared bytes were written at their offset. *)
Definition after_write (source : PageReader) (p : Prepared) : PageReader := λ off,
  if bool_decide (off < p_offset p) then source off
  else Ok (slice (off - p_offset p) BLOCK_SIZE (Prepared_bytes p)).

(** The end of the file then. *)
Definition Prepared_end (p : Prepared) : Z := p_offset p + blen (Prepared_bytes p).

Lemma blen_concat_sized bs : Forall sized bs → blen (concat bs) = Z.of_nat (length bs) * BLOCK_SIZE.
Proof.
  induction 1 as [|b bs Hb _ IH]; [done|]. cbn [concat length]. rewrite blen_app, IH, Hb. lia.
Qed.

Lemma slice_concat_sized bs i b : Forall sized bs → bs !! i = Some b →
  slice (Z.of_nat i * BLOCK_SIZE) BLOCK_SIZE (concat bs) = b.
Proof.
  intros Hf. revert i. induction Hf as [|x bs Hx Hbs IH]; intros i Hi; [done|]. cbn [concat].
  unfold sized in Hx. destruct i as [|i]; cbn in Hi.
  - injection Hi as ->. rewrite slice_app_l by (unfold BLOCK_SIZE in *; lia). by apply slice_all.
  - pose proof (lookup_lt_Some _ _ _ Hi). rewrite slice_app_r by (unfold BLOCK_SIZE in *; lia).
    replace (_ - blen x) with (Z.of_nat i * BLOCK_SIZE) by (rewrite Hx; lia). by apply IH.
Qed.

Section After.
Context `{Crc32} (source : PageReader) (current : Commit) (end_ : Z) (es edits : list Extent).
Context (durable : Z) (p : Prepared) (Hbuilt : built source current end_ es edits durable p).
Context (Hnew : Tree_new current end_ = Ok tt).

Lemma built_bytes pages page : ap_blocks (p_buffer p) = pages ++ [page] → Forall sized (pages ++ [page]) →
  Prepared_bytes p = concat (pages ++ [page]) ∧
  Prepared_end p = end_ + Z.of_nat (length pages) * BLOCK_SIZE + BLOCK_SIZE.
Proof.
  intros Hb Hs. pose proof (blen_concat_sized _ Hs) as Hl. destruct Hbuilt as [_ Ho _ _ Hw _ _].
  assert (Hp : Prepared_bytes p = concat (pages ++ [page])).
  { unfold Prepared_bytes. rewrite Hw, Hb. by apply slice_all. }
  split; [done|]. unfold Prepared_end. rewrite Hp, Hl, Ho, length_app. cbn. unfold BLOCK_SIZE. lia.
Qed.

Lemma after_write_page pages page i b :
  ap_blocks (p_buffer p) = pages ++ [page] → Forall sized (pages ++ [page]) →
  (pages ++ [page]) !! i = Some b → after_write source p (end_ + Z.of_nat i * BLOCK_SIZE) = Ok b.
Proof.
  intros Hb Hs Hi. destruct (built_bytes _ _ Hb Hs) as [Hp _]. unfold after_write.
  rewrite (bu_offset _ _ _ _ _ _ _ Hbuilt), bool_decide_eq_false_2 by (unfold BLOCK_SIZE; lia).
  rewrite Hp. f_equal. replace (end_ + Z.of_nat i * BLOCK_SIZE - end_) with (Z.of_nat i * BLOCK_SIZE) by lia.
  by apply slice_concat_sized.
Qed.

Lemma after_write_store pages page off b :
  ap_blocks (p_buffer p) = pages ++ [page] → Forall sized (pages ++ [page]) →
  page_store source end_ pages off = Ok b →
  after_write source p off = Ok b ∧ off < Prepared_end p - BLOCK_SIZE.
Proof.
  intros Hb Hs Hoff. destruct (built_bytes _ _ Hb Hs) as [_ ->].
  pose proof (page_store_bound _ _ _ _ _ Hoff) as Hbound. split; [|unfold BLOCK_SIZE in *; lia].
  unfold page_store in Hoff. destruct (bool_decide (off < end_)) eqn:E; breflect.
  - apply result_bind_ok in Hoff as (_ & _ & Hoff). unfold after_write.
    by rewrite (bu_offset _ _ _ _ _ _ _ Hbuilt), bool_decide_eq_true_2.
  - destruct (is_multiple_of _ _) eqn:Em; [|done]. apply is_multiple_of_spec in Em.
    destruct (pages !! _) as [x|] eqn:Ex; [|done]. injection Hoff as ->.
    rewrite <- (after_write_page pages page _ b Hb Hs (lookup_app_l_Some _ _ _ _ Ex)). f_equal.
    unfold BLOCK_SIZE in *. pose proof (Z_div_mod_eq_full (off - end_) 4096).
    rewrite Z2Nat.id by (apply Z.div_pos; lia). lia.
Qed.

(** The COMMIT page ends the file and decodes to the new commit. *)
Lemma after_write_commit : ∃ page pg,
  after_write source p (Prepared_end p - BLOCK_SIZE) = Ok page ∧
  Page_decode page (Prepared_end p - BLOCK_SIZE) (cm_image_bytes current) = Ok pg ∧
  Page_commit pg = Ok (p_commit p).
Proof.
  destruct (bu_pages _ _ _ _ _ _ _ Hbuilt) as (pages & page & Hb & Hs & _ & (pg & H1 & H2) & _).
  destruct (built_bytes _ _ Hb Hs) as [_ ->]. exists page, pg.
  replace (_ + BLOCK_SIZE - BLOCK_SIZE) with (end_ + Z.of_nat (length pages) * BLOCK_SIZE) by lia.
  split_and!; try done. apply (after_write_page pages page); try done. by apply list_lookup_middle.
Qed.

Lemma after_write_new : end_ + edit_pages edits * BLOCK_SIZE ≤ i64_max →
  Tree_new (p_commit p) (Prepared_end p) = Ok tt.
Proof.
  intros Hmax. destruct (bu_pages _ _ _ _ _ _ _ Hbuilt) as (pages & page & Hb & Hs & Hl & _ & Hv & _).
  destruct (built_bytes _ _ Hb Hs) as [_ He]. pose proof Hnew as (H1 & H2 & _ & _)%Tree_new_ok.
  unfold Tree_new, validate_view. rewrite require_bind, !andb_true_iff, !bool_decide_eq_true, is_multiple_of_spec, He.
  unfold edit_pages, MAX_HEIGHT, BLOCK_SIZE in *. split_and!; try lia.
  - replace (end_ + Z.of_nat (length pages) * 4096 + 4096) with (end_ + (Z.of_nat (length pages) + 1) * 4096) by lia.
    by rewrite Z.mod_add.
  - by replace (end_ + Z.of_nat (length pages) * 4096 + 4096 - 4096) with (end_ + Z.of_nat (length pages) * 4096) by lia.
Qed.

Lemma after_write_walk : extents_valid (cm_image_bytes current / BLOCK_SIZE) 0 (edited_all edits es) →
  Tree_walk (after_write source p) (p_commit p) (Prepared_end p) collect [] = Ok (edited_all edits es).
Proof.
  intros Hv. destruct (bu_pages _ _ _ _ _ _ _ Hbuilt) as (pages & page & Hb & Hs & _ & _ & Hval & Hroot).
  destruct (bu_commit _ _ _ _ _ _ _ Hbuilt) as (root & Hc).
  unfold Tree_walk, Tree_walk_pages. destruct Hroot as [(Hr & ->)|(Hr & n & d & Hh & Ht)].
  { by rewrite bool_decide_eq_false_2 by lia. }
  rewrite bool_decide_eq_true_2 by done.
  apply Commit_validate_iff in Hval as (_ & _ & _ & _ & _ & _ & [(? & _)|(_ & _ & _ & Hmax)]); [done|].
  assert (Hi : cm_image_bytes (p_commit p) = cm_image_bytes current) by by rewrite Hc.
  eapply contents_walk, (subtree_contents (cm_image_bytes current) end_ (page_store source end_ pages) _ _ _
    Hi (λ off b, after_write_store pages page off b Hb Hs) n _ _ _ d).
  - unfold MAX_HEIGHT in *. lia.
  - exact Ht.
  - split; [cbn; unfold saturating_sub; lia|]. split; [|by left]. unfold Cursor_root. cbn [cu_upper cu_lower]. by rewrite Hi.
Qed.

(** The committed tree is still there. *)
Lemma after_write_old {S} (visitor : Extent → S → result S) (s : S) :
  Tree_walk source current end_ collect [] = Ok es →
  Tree_walk (after_write source p) current end_ visitor s = Tree_walk source current end_ visitor s.
Proof.
  intros _. unfold Tree_walk, Tree_walk_pages. destruct (bool_decide _); [|done].
  generalize (Cursor_root current) as cursor. revert s. generalize (Z.to_nat MAX_HEIGHT) as fuel.
  assert (Hread : ∀ cursor, Tree_read_node (after_write source p) current end_ cursor
    = Tree_read_node source current end_ cursor).
  { intros cursor. unfold Tree_read_node, require_before_commit.
    destruct (bool_decide (cu_offset cursor < end_ - BLOCK_SIZE)) eqn:E; [|done]. breflect.
    unfold after_write. rewrite (bu_offset _ _ _ _ _ _ _ Hbuilt), bool_decide_eq_true_2; [done|].
    unfold BLOCK_SIZE in *. lia. }
  induction fuel as [|fuel IH]; intros s cursor; cbn [Tree_visit]; [done|]. rewrite Hread.
  destruct (Tree_read_node _ _ _ _) as [node| |]; cbn [mbind result_mbind result_bind]; [|done|done].
  destruct node as [entries|children]; [done|].
  revert s. induction (seq 0 (length children)) as [|i ixs IHi]; intros s; cbn [try_fold]; [done|].
  destruct (Cursor_child cursor children i) as [child| |]; cbn [mbind result_mbind result_bind]; [|done|done].
  rewrite IH. destruct (Tree_visit _ _ _ _ _ _ _ _); cbn [mbind result_mbind result_bind]; [apply IHi | done | done].
Qed.

End After.

(** C4: a prepared transaction is the edited tree.  [Prepared::build] on a
    committed tree that a walk accepts never panics.  It fails only when its
    argument checks fail, when an allocator refuses memory, or when the tree
    would outgrow the maximum height, which needs as many edits as the height
    leaves room for: no internal check ([COW edit exceeded], page plan, vector
    capacity, node decoding) ever fails.  When it succeeds, writing its bytes
    behind the committed end gives a file whose last page is a COMMIT page of
    the next generation; that commit's tree is accepted by [Tree::new] and
    walked, its extents are the old ones with the edits applied in order, every
    lookup returns the hash of the last edit covering the block and what the old
    lookup returned if none does, and the old commit's tree is still walked from the same file. *)
Theorem prepared_tree `{Crc32} (source : PageReader) (current : Commit) (end_ : Z)
    (es edits : list Extent) (durable : Z) (metadata : Allocators) :
  (∀ off b, source off = Ok b → bytes_ok b) → Commit_ok current → fits 64 durable →
  Forall Extent_ok edits → Tree_new current end_ = Ok tt →
  Tree_walk source current end_ collect [] = Ok es →
  returns (Prepared_build source current end_ edits durable metadata)
    (λ e, Prepared_check current end_ edits durable = Err e ∨ build_error current metadata edits e)
    (λ p, let file := after_write source p in
      cm_generation (p_commit p) = cm_generation current + 1 ∧ cm_durable (p_commit p) = durable ∧
      (∃ page pg, file (Prepared_end p - BLOCK_SIZE) = Ok page ∧
         Page_decode page (Prepared_end p - BLOCK_SIZE) (cm_image_bytes current) = Ok pg ∧
         Page_commit pg = Ok (p_commit p)) ∧
      Tree_new (p_commit p) (Prepared_end p) = Ok tt ∧
      Tree_walk file (p_commit p) (Prepared_end p) collect [] = Ok (edited_all edits es) ∧
      (∀ block, 0 ≤ block < cm_image_bytes current / BLOCK_SIZE →
         Tree_get file (p_commit p) (Prepared_end p) block
         = match last_edit edits block with
           | Some edit => Ok (e_hash edit)
           | None => Tree_get source current end_ block
           end) ∧
      Tree_walk file current end_ collect [] = Ok es).
Proof.
  intros Hbytes Hcommit Hdur Hedits Hnew Hwalk.
  pose proof (Prepared_build_returns source current end_ es Hbytes Hcommit Hnew Hwalk edits durable metadata
    Hedits Hdur) as Hb.
  destruct (Prepared_build source current end_ edits durable metadata) as [p|e|] eqn:Ep; [|done|done].
  cbn [returns] in Hb |- *. cbv zeta.
  assert (Hcheck : ∃ g, Prepared_check current end_ edits durable = Ok g).
  { unfold Prepared_build in Ep. apply result_bind_ok in Ep as (g & Hg & _). eauto. }
  destruct Hcheck as (g & (_ & _ & Hadm & _ & _ & Hmax)%Prepared_check_ok); [|done].
  pose proof (initial_root_ok source current end_ es Hbytes Hnew Hwalk (λ _, true) 0) as [Hv _].
  pose proof (edited_all_valid _ _ _ Hadm Hv) as Hv'.
  destruct (bu_commit _ _ _ _ _ _ _ Hb) as (root & Hc).
  pose proof (after_write_new _ _ _ _ _ _ _ Hb Hnew Hmax) as Hnew'.
  pose proof (after_write_walk source _ _ _ _ _ _ Hb Hv') as Hwalk'.
  split; [by rewrite Hc|]. split; [by rewrite Hc|]. split; [by eapply after_write_commit|].
  split; [exact Hnew'|]. split; [exact Hwalk'|].
  split; [|by erewrite after_write_old].
  intros block Hblock. destruct (walk_agrees _ _ _ _ Hnew Hwalk) as (_ & _ & ->); [|exact Hblock].
  destruct (walk_agrees _ _ _ _ Hnew' Hwalk') as (_ & _ & ->); [|rewrite Hc; exact Hblock].
  rewrite (covering_edited_all _ _ _ block Hadm Hv). destruct (last_edit edits block); reflexivity.
Qed.

(** C40: no edit outgrows its plan.  One edit of a tree of height at most 8
    writes at most 33 new pages (4H+1, of the 8H+8 that are planned), a
    transaction's file is at most 33 pages per edit and the COMMIT page, it is
    a whole number of pages, it fits the transaction limit and its end stays
    below 2^63. *)
Theorem prepared_bounds `{Crc32} (source : PageReader) (current : Commit) (end_ : Z)
    (es edits : list Extent) (durable : Z) (metadata : Allocators) (p : Prepared) :
  (∀ off b, source off = Ok b → bytes_ok b) → Commit_ok current → fits 64 durable →
  Forall Extent_ok edits → Tree_new current end_ = Ok tt →
  Tree_walk source current end_ collect [] = Ok es →
  Prepared_build source current end_ edits durable metadata = Ok p →
  st_max_pages_per_change (p_stats p) ≤ 4 * MAX_HEIGHT + 1 ∧
  1 ≤ st_written_pages (p_stats p) ≤ Z.of_nat (length edits) * (4 * MAX_HEIGHT + 1) + 1 ∧
  st_written_pages (p_stats p) ≤ edit_pages edits ∧
  blen (Prepared_bytes p) = st_written_pages (p_stats p) * BLOCK_SIZE ∧
  blen (Prepared_bytes p) ≤ MAX_TRANSACTION_BYTES ∧ Prepared_end p ≤ i64_max.
Proof.
  intros Hbytes Hcommit Hdur Hedits Hnew Hwalk Ep.
  pose proof (Prepared_build_returns source current end_ es Hbytes Hcommit Hnew Hwalk edits durable metadata
    Hedits Hdur) as Hb. rewrite Ep in Hb. cbn [returns] in Hb.
  assert (Hcheck : ∃ g, Prepared_check current end_ edits durable = Ok g).
  { unfold Prepared_build in Ep. apply result_bind_ok in Ep as (g & Hg & _). eauto. }
  destruct Hcheck as (g & (Hlen & _ & _ & _ & _ & Hmax)%Prepared_check_ok); [|done].
  destruct (bu_pages _ _ _ _ _ _ _ Hb) as (pages & page & Hblocks & Hs & Hl & _).
  destruct (built_bytes _ _ _ _ _ _ _ Hb _ _ Hblocks Hs) as [Hp He].
  pose proof (bu_written _ _ _ _ _ _ _ Hb) as Hw. rewrite Hblocks, length_app in Hw. cbn [length] in Hw.
  pose proof (bu_max _ _ _ _ _ _ _ Hb) as Hm. rewrite He, Hp, blen_concat_sized, length_app by done.
  cbn [length]. unfold edit_pages, MAX_TRANSACTION_BYTES, MAX_CHANGES, MAX_HEIGHT, BLOCK_SIZE in *.
  split_and!; lia.
Qed.

(** A tree of two leaves is edited: a block is mapped and a leaf is dropped. *)
Definition sample_page (block offset : Z) : bytes :=
  unwrap_or [] (@leaf_into crc_sum (zeros 4096) offset (4 * 4096)
    [ {| e_start := block; e_end := block + 1; e_hash := Some (replicate 32 block) |} ]).

Definition sample_manifest : PageReader := λ offset,
  if decide (offset = 4096) then Ok (sample_page 0 4096)
  else if decide (offset = 8192) then Ok (sample_page 3 8192)
  else @branch_into crc_sum (zeros 4096) 12288 (4 * 4096) 1
         [ {| c_start := 0; c_offset := 4096 |}; {| c_start := 3; c_offset := 8192 |} ].

Definition sample_edits : list Extent :=
  [ {| e_start := 1; e_end := 2; e_hash := Some (replicate 32 7) |};
    {| e_start := 3; e_end := 4; e_hash := None |} ].

Definition sample_grants : Allocators :=
  {| al_scratch := true; al_draft := λ _, true; al_output := λ _, true |}.

Definition sample_extents0 : list Extent :=
  unwrap_or [] (@Tree_walk crc_sum _ sample_manifest sample_tree 20480 collect []).

Lemma sample_manifest_bytes off b : sample_manifest off = Ok b → bytes_ok b.
Proof.
  assert (Hok : ∀ r : result bytes, bool_decide (bytes_ok (unwrap_or [] r)) = true → r = Ok b → bytes_ok b).
  { intros r Hr ->. by apply bool_decide_eq_true in Hr. }
  unfold sample_manifest. destruct (decide (off = 4096)); [|destruct (decide (off = 8192))].
  all: apply Hok; vm_compute; reflexivity.
Qed.

(** Block 1 is mapped, block 3 is not any more, block 0 keeps its hash, and the
    old commit still maps block 3. *)
Lemma prepared_tree_witness :
  ∃ p,
    @Prepared_build crc_sum sample_manifest sample_tree 20480 sample_edits 5 sample_grants = Ok p ∧
    @Tree_get crc_sum (after_write sample_manifest p) (p_commit p) (Prepared_end p) 1
    = Ok (Some (replicate 32 7)) ∧
    @Tree_get crc_sum (after_write sample_manifest p) (p_commit p) (Prepared_end p) 3 = Ok None ∧
    @Tree_walk crc_sum _ (after_write sample_manifest p) sample_tree 20480 collect []
    = Ok sample_extents0.
Proof.
  pose proof (@prepared_tree crc_sum sample_manifest sample_tree 20480 sample_extents0 sample_edits 5
    sample_grants sample_manifest_bytes ltac:(decide_now) ltac:(decide_now) ltac:(decide_now) eq_refl
    ltac:(apply is_ok_unwrap; vm_compute; reflexivity)) as H.
  destruct (@Prepared_build crc_sum sample_manifest sample_tree 20480 sample_edits 5 sample_grants) as [p|e|] eqn:E.
  - exists p. destruct H as (_ & _ & _ & _ & _ & Hget & Hold). split_and!; [done | | | exact Hold].
    + rewrite (Hget 1 ltac:(decide_now)). reflexivity.
    + rewrite (Hget 3 ltac:(decide_now)). reflexivity.
  - apply (f_equal is_ok) in E. vm_compute in E. discriminate.
  - destruct H.
Defined.

Lemma prepared_bounds_witness :
  ∃ p,
    @Prepared_build crc_sum sample_manifest sample_tree 20480 sample_edits 5 sample_grants = Ok p ∧ 1 ≤ st_written_pages (p_stats p) ≤ 67.
Proof.
  destruct (@Prepared_build crc_sum sample_manifest sample_tree 20480 sample_edits 5 sample_grants) as [p|e|] eqn:E.
  - exists p. split; [done|].
    destruct (@prepared_bounds crc_sum sample_manifest sample_tree 20480 sample_extents0 sample_edits 5
      sample_grants p sample_manifest_bytes ltac:(decide_now) ltac:(decide_now) ltac:(decide_now) eq_refl
      ltac:(apply is_ok_unwrap; vm_compute; reflexivity) E) as (_ & Hw & _).
    exact Hw.
  - apply (f_equal is_ok) in E. vm_compute in E. discriminate.
  - apply (f_equal is_ok) in E. vm_compute in E. discriminate.
Defined.
