(* ===== verification/Lru.v ===== *)
(** * The LRU membership table

    Models [crates/cas/core/src/cache/lru.rs]: resident entries in a hash
    table, threaded by [older]/[newer] keys from the oldest to the newest.
    Following a key that has no entry is a panic.  The table refines a list of
    entries in recency order. *)
From S2P Require Import Prelude.

Record Counters : Type := {
  hits : Z;
  misses : Z;
  fills : Z;
  evictions : Z;
  refused : Z;
}.

Definition Counters_default : Counters :=
  {| hits := 0; misses := 0; fills := 0; evictions := 0; refused := 0 |}.

Section Lru.
Context {K V : Type} `{EqDecision K, Countable K}.

Record Entry : Type := {
  en_buffer : V;
  en_older : option K;
  en_newer : option K;
}.

Record Lru : Type := {
  entries : gmap K Entry;
  capacity : nat;
  oldest : option K;
  newest : option K;
  counters : Counters;
}.

(** [reserved] is the answer of [try_reserve] for twice the capacity. *)
Definition Lru_new (capacity : nat) (reserved : bool) : result Lru :=
  slots ← ok_or (Error OutOfMemory "") (checked_mul 64 (Z.of_nat capacity) 2);
  if reserved then
    Ok {| entries := ∅; capacity := capacity; oldest := None; newest := None;
          counters := Counters_default |}
  else out_of_memory "".

Definition Lru_len (s : Lru) : nat := size (entries s).

Definition set_entries (s : Lru) (m : gmap K Entry) : Lru :=
  {| entries := m; capacity := capacity s; oldest := oldest s; newest := newest s;
     counters := counters s |}.

Definition set_oldest (s : Lru) (k : option K) : Lru :=
  {| entries := entries s; capacity := capacity s; oldest := k; newest := newest s;
     counters := counters s |}.

Definition set_newest (s : Lru) (k : option K) : Lru :=
  {| entries := entries s; capacity := capacity s; oldest := oldest s; newest := k;
     counters := counters s |}.

Definition count (s : Lru) (f : Counters → Counters) : Lru :=
  {| entries := entries s; capacity := capacity s; oldest := oldest s; newest := newest s;
     counters := f (counters s) |}.

Definition Lru_buffer (s : Lru) (key : K) : option V := en_buffer <$> entries s !! key.

(** [self.entry(key)]: the entry a link names. *)
Definition Lru_entry (s : Lru) (key : K) : result Entry := expect (entries s !! key).

Definition with_older (e : Entry) (k : option K) : Entry :=
  {| en_buffer := en_buffer e; en_older := k; en_newer := en_newer e |}.
Definition with_newer (e : Entry) (k : option K) : Entry :=
  {| en_buffer := en_buffer e; en_older := en_older e; en_newer := k |}.

Definition Lru_unlink (s : Lru) (key : K) : result Lru :=
  entry ← Lru_entry s key;
  let '(older, newer) := (en_older entry, en_newer entry) in
  s ← match older with
      | Some o => e ← Lru_entry s o; Ok (set_entries s (<[o := with_newer e newer]> (entries s)))
      | None => Ok (set_oldest s newer)
      end;
  match newer with
  | Some n => e ← Lru_entry s n; Ok (set_entries s (<[n := with_older e older]> (entries s)))
  | None => Ok (set_newest s older)
  end.

Definition Lru_link_newest (s : Lru) (key : K) : result Lru :=
  let last := newest s in
  entry ← Lru_entry s key;
  let s := set_entries s
    (<[key := {| en_buffer := en_buffer entry; en_older := last; en_newer := None |}]> (entries s)) in
  s ← match last with
      | Some n => e ← Lru_entry s n; Ok (set_entries s (<[n := with_newer e (Some key)]> (entries s)))
      | None => Ok (set_oldest s (Some key))
      end;
  Ok (set_newest s (Some key)).

Definition Lru_promote (s : Lru) (key : K) : result Lru :=
  if decide (newest s = Some key) then Ok s
  else s ← Lru_unlink s key; Lru_link_newest s key.

Definition Lru_get (s : Lru) (key : K) : result (Lru * option V) :=
  match Lru_buffer s key with
  | None => Ok (count s (λ c, {| hits := hits c; misses := misses c + 1; fills := fills c;
                                 evictions := evictions c; refused := refused c |}), None)
  | Some buffer =>
      s ← Lru_promote s key;
      Ok (count s (λ c, {| hits := hits c + 1; misses := misses c; fills := fills c;
                           evictions := evictions c; refused := refused c |}), Some buffer)
  end.

Definition Lru_insert (s : Lru) (key : K) (buffer : V) : result Lru :=
  if decide (Lru_len s < capacity s)%nat then
    let s := set_entries s
      (<[key := {| en_buffer := buffer; en_older := None; en_newer := None |}]> (entries s)) in
    s ← Lru_link_newest s key;
    Ok (count s (λ c, {| hits := hits c; misses := misses c; fills := fills c + 1;
                         evictions := evictions c; refused := refused c |}))
  else Panic.

(** The evicted buffer is dropped by the caller of the model. *)
Definition Lru_evict (s : Lru) : result (Lru * option V) :=
  match oldest s with
  | None => Ok (s, None)
  | Some key =>
      s ← Lru_unlink s key;
      entry ← Lru_entry s key;
      Ok (count (set_entries s (delete key (entries s)))
            (λ c, {| hits := hits c; misses := misses c; fills := fills c;
                     evictions := evictions c + 1; refused := refused c |}), Some (en_buffer entry))
  end.

(** ** The recency list *)

Implicit Types (m : gmap K Entry) (l a b : list (K * V)).

Definition first_key l (n : option K) : option K :=
  match l with [] => n | (k, _) :: _ => Some k end.

Definition last_key l (p : option K) : option K :=
  match last l with Some (k, _) => Some k | None => p end.

(** The entries of [l] are linked in order between [p] and [n]. *)
Fixpoint chain m (p : option K) l (n : option K) : Prop :=
  match l with
  | [] => True
  | (k, v) :: l' =>
      m !! k = Some {| en_buffer := v; en_older := p; en_newer := first_key l' n |} ∧
      chain m (Some k) l' n
  end.

Definition linked (s : Lru) l : Prop :=
  NoDup l.*1 ∧ oldest s = first_key l None ∧ newest s = last_key l None ∧
  chain (entries s) None l None.

(** [l] lists the residents, oldest first. *)
Definition represents (s : Lru) l : Prop :=
  linked s l ∧ dom (entries s) = list_to_set l.*1.

Lemma last_key_app a b p : last_key (a ++ b) p = last_key b (last_key a p).
Proof.
  unfold last_key. destruct b as [|x b]; [by rewrite app_nil_r|].
  rewrite last_app. destruct (last (x :: b)) as [[]|] eqn:E; [done|]. by apply last_None in E.
Qed.

Lemma first_key_app a b n : first_key (a ++ b) n = first_key a (first_key b n).
Proof. by destruct a as [|[]]. Qed.

Lemma chain_app m a b p n :
  chain m p (a ++ b) n ↔ chain m p a (first_key b n) ∧ chain m (last_key a p) b n.
Proof.
  revert p. induction a as [|[k v] a IH]; intros p; cbn [chain app]; [tauto|].
  rewrite IH, first_key_app. unfold last_key. cbn. destruct a as [|x a]; cbn; [tauto|].
  destruct (last (x :: a)) as [[]|] eqn:E; [tauto|]. by apply last_None in E.
Qed.

Lemma chain_insert_other m k e l p n : k ∉ l.*1 → chain m p l n → chain (<[k := e]> m) p l n.
Proof.
  revert p. induction l as [|[k' v] l IH]; intros p; cbn; [done|].
  intros Hn [Hk Hc]. apply not_elem_of_cons in Hn as [Hne Hn].
  split; [by rewrite lookup_insert_ne | by apply IH].
Qed.

Lemma chain_delete_other m k l p n : k ∉ l.*1 → chain m p l n → chain (delete k m) p l n.
Proof.
  revert p. induction l as [|[k' v] l IH]; intros p; cbn; [done|].
  intros Hn [Hk Hc]. apply not_elem_of_cons in Hn as [Hne Hn].
  split; [by rewrite lookup_delete_ne | by apply IH].
Qed.

Lemma chain_lookup m p l n k v : chain m p l n → (k, v) ∈ l → ∃ e, m !! k = Some e ∧ en_buffer e = v.
Proof.
  revert p. induction l as [|[k' v'] l IH]; intros p; cbn.
  - intros _ []%elem_of_nil.
  - intros [Hk Hc] [[= -> ->]|Hin]%elem_of_cons; [eauto | by eapply IH].
Qed.

(** Redirecting the last or the first link of a chain. *)
Lemma chain_set_last m a o w p n n' e :
  o ∉ a.*1 → chain m p (a ++ [(o, w)]) n → m !! o = Some e →
  chain (<[o := with_newer e n']> m) p (a ++ [(o, w)]) n'.
Proof.
  intros Hn. rewrite !chain_app. cbn. intros (Ha & Ho & _) He. rewrite He in Ho. injection Ho as ->.
  split_and!; [by apply chain_insert_other | by rewrite lookup_insert_eq | done].
Qed.

Lemma chain_set_first m b o w p p' n e :
  o ∉ b.*1 → chain m p ((o, w) :: b) n → m !! o = Some e →
  chain (<[o := with_older e p']> m) p' ((o, w) :: b) n.
Proof.
  intros Hn. cbn. intros (Ho & Hb) He. rewrite He in Ho. injection Ho as ->.
  split; [by rewrite lookup_insert_eq | by apply chain_insert_other].
Qed.

Lemma dom_insert_present m k e : is_Some (m !! k) → dom (<[k := e]> m) = dom m.
Proof. intros Hs. apply set_eq. intros x. rewrite dom_insert, elem_of_union, elem_of_singleton.
  split; [intros [->|?]; [by apply elem_of_dom | done] | by right].
Qed.

(** Removing an entry from the links leaves the others linked in order; its
    own entry stays in the table. *)
Lemma unlink_spec s a k v b :
  linked s (a ++ (k, v) :: b) →
  ∃ s' e, Lru_unlink s k = Ok s' ∧ linked s' (a ++ b) ∧ entries s' !! k = Some e ∧ en_buffer e = v ∧
    dom (entries s') = dom (entries s) ∧ capacity s' = capacity s ∧ counters s' = counters s.
Proof.
  intros (Hnd & Hold & Hnew & Hc). rewrite fmap_app in Hnd. cbn in Hnd.
  apply NoDup_app in Hnd as (Hna & Hdis & Hnb). apply NoDup_cons in Hnb as [Hkb Hnb].
  apply chain_app in Hc as [Hca [Hk Hcb]]. cbn [first_key] in Hca.
  assert (Hka : k ∉ a.*1) by (intros Hin; apply (Hdis k Hin); left).
  unfold Lru_unlink, Lru_entry. rewrite Hk. cbn [expect mbind result_mbind result_bind en_older en_newer].
  rewrite first_key_app in Hold. cbn [first_key] in Hold.
  rewrite last_key_app in Hnew.
  (* first half: the older neighbour *)
  assert (H1 : ∃ s1, match last_key a None with
      | Some o => e ← expect (entries s !! o);
                  Ok (set_entries s (<[o := with_newer e (first_key b None)]> (entries s)))
      | None => Ok (set_oldest s (first_key b None)) end = Ok s1 ∧
    oldest s1 = first_key (a ++ b) None ∧ newest s1 = newest s ∧
    chain (entries s1) None a (first_key b None) ∧ chain (entries s1) (Some k) b None ∧
    entries s1 !! k = Some {| en_buffer := v; en_older := last_key a None; en_newer := first_key b None |} ∧
    dom (entries s1) = dom (entries s) ∧ capacity s1 = capacity s ∧ counters s1 = counters s).
  { destruct a as [|[o w] a _] using rev_ind.
    - cbn [last_key last]. eexists. split; [done|]. cbn. split_and!; done.
    - rewrite last_key_app. cbn [last_key last].
      rewrite fmap_app in Hna, Hka, Hdis. apply NoDup_app in Hna as (Hna & Hdo & _).
      destruct (chain_lookup _ _ _ _ o w Hca) as (e & He & _).
      { apply elem_of_app. right. left. }
      rewrite He. cbn [expect mbind result_mbind result_bind]. eexists. split; [done|].
      unfold set_entries. cbn [oldest newest entries capacity counters].
      assert (Hok : o ≠ k) by (intros ->; apply Hka, elem_of_app; right; left).
      split_and!; try done.
      + rewrite Hold, <- app_assoc, first_key_app. by destruct a as [|[]].
      + eapply chain_set_last; [|exact Hca | exact He]. intros Hin. apply (Hdo o Hin). left.
      + apply chain_insert_other; [|done]. intros Hin. apply (Hdis o); [apply elem_of_app; right; left|].
        by right.
      + by rewrite lookup_insert_ne, Hk, last_key_app.
      + apply dom_insert_present. eauto. }
  destruct H1 as (s1 & -> & Ho1 & Hn1 & Ha1 & Hb1 & Hk1 & Hd1 & Hc1 & Hr1).
  cbn [mbind result_mbind result_bind]. cbn [last_key last] in Hnew.
  assert (Hnd' : NoDup (a ++ b).*1).
  { rewrite fmap_app. apply NoDup_app. split_and!; [done | | done].
    intros x Hx Hxb. apply (Hdis x Hx). by right. }
  destruct b as [|[n w] b]; cbn [first_key].
  - eexists _, _. split; [done|]. unfold set_newest, linked. cbn [oldest newest entries capacity counters].
    rewrite app_nil_r in *. split_and!; try done.
  - destruct (chain_lookup _ _ _ _ n w Hb1) as (e & He & _); [left|]. rewrite He.
    cbn [expect mbind result_mbind result_bind]. unfold set_entries, linked.
    cbn [oldest newest entries capacity counters fmap list_fmap fst] in *.
    apply NoDup_cons in Hnb as [Hnb1 Hnb2]. apply not_elem_of_cons in Hkb as [Hkn Hkb].
    eexists _, _. split; [done|]. cbn [oldest newest entries capacity counters].
    rewrite lookup_insert_ne by done. split_and!; try done.
    + rewrite Hn1, Hnew, last_key_app. unfold last_key. cbn.
      destruct b as [|y b]; [done|]. destruct (last (y :: b)) eqn:E; [done|]. by apply last_None in E.
    + apply chain_app. cbn [first_key] in *. split.
      * apply chain_insert_other; [|done]. intros Hin. apply (Hdis n Hin). right. left.
      * by eapply chain_set_first.
    + rewrite dom_insert_present by eauto. done.
Qed.

Lemma link_newest_spec s l k v e :
  linked s l → k ∉ l.*1 → entries s !! k = Some e → en_buffer e = v →
  ∃ s', Lru_link_newest s k = Ok s' ∧ linked s' (l ++ [(k, v)]) ∧
    dom (entries s') = dom (entries s) ∧ capacity s' = capacity s ∧ counters s' = counters s.
Proof.
  intros (Hnd & Hold & Hnew & Hc) Hk He Hv. unfold Lru_link_newest, Lru_entry. rewrite He.
  cbn [expect mbind result_mbind result_bind]. rewrite Hv.
  set (e' := {| en_buffer := v; en_older := newest s; en_newer := None |}).
  assert (Hnd' : NoDup (l ++ [(k, v)]).*1).
  { rewrite fmap_app. apply NoDup_app. split_and!; [done | | apply NoDup_singleton].
    intros x Hx Hin. apply list_elem_of_singleton in Hin. cbn in Hin. by subst x. }
  destruct l as [|[o w] l _] using rev_ind.
  - rewrite Hnew. cbn [last_key last]. eexists. split; [done|].
    unfold set_newest, set_oldest, set_entries, linked. cbn [oldest newest entries capacity counters].
    split_and!; try done.
    + cbn [app chain]. split; [|done]. rewrite lookup_insert_eq. unfold e'. by rewrite Hnew.
    + apply dom_insert_present. eauto.
  - rewrite last_key_app in Hnew. cbn [last_key last] in Hnew. rewrite Hnew.
    rewrite fmap_app in Hk, Hnd. assert (Hko : k ≠ o).
    { intros ->. apply Hk, elem_of_app. right. left. }
    assert (Hkl : k ∉ l.*1) by (intros Hin; apply Hk, elem_of_app; by left).
    apply NoDup_app in Hnd as (Hnl & Hdo & _).
    destruct (chain_lookup _ _ _ _ o w Hc) as (eo & Heo & _).
    { apply elem_of_app. right. left. }
    unfold set_entries. cbn [entries newest]. rewrite lookup_insert_ne, Heo by done.
    cbn [expect mbind result_mbind result_bind]. eexists. split; [done|].
    unfold set_newest, set_entries, linked. cbn [oldest newest entries capacity counters].
    split_and!; try done.
    + rewrite Hold. by destruct l as [|[]].
    + by rewrite last_key_app.
    + rewrite <- app_assoc. apply chain_app. cbn [app first_key].
      pose proof (chain_set_last (entries s) l o w None None (Some k) eo ltac:(intros Hin; apply (Hdo o Hin); left) Hc Heo) as H1.
      rewrite insert_insert_ne by done. apply chain_app in H1 as [H1 H2].
      split; [by apply chain_insert_other|]. cbn [chain first_key].
      cbn [chain first_key] in H2. destruct H2 as [H2 _].
      split_and!; [| |done].
      * rewrite lookup_insert_ne by done. rewrite H2. done.
      * rewrite lookup_insert_eq. unfold e'. by rewrite Hnew.
    + rewrite !dom_insert_present; [done | eauto |]. rewrite lookup_insert_ne by done. eauto.
Qed.

(** ** The abstract recency list *)

Definition assoc (k : K) l : option V := snd <$> find_first (λ e, bool_decide (e.1 = k)) l.

Definition without (k : K) l : list (K * V) := filter (λ e, e.1 ≠ k) l.

Lemma without_notin k l : k ∉ l.*1 → without k l = l.
Proof.
  intros Hk. unfold without. induction l as [|[k' v] l IH]; [done|]. cbn in Hk.
  apply not_elem_of_cons in Hk as [Hne Hk]. rewrite filter_cons, decide_True by (cbn; congruence).
  by rewrite IH.
Qed.

Lemma without_middle k a v b :
  k ∉ a.*1 → k ∉ b.*1 → without k (a ++ (k, v) :: b) = a ++ b.
Proof.
  intros Ha Hb. unfold without. rewrite filter_app, filter_cons, decide_False by (intros Hf; by apply Hf).
  fold (without k a) (without k b). by rewrite !without_notin.
Qed.

Lemma represents_lookup s l k :
  represents s l →
  match entries s !! k with
  | Some e => assoc k l = Some (en_buffer e) ∧
              (∃ a b, (l = a ++ (k, en_buffer e) :: b) ∧ (k ∉ a.*1) ∧ (k ∉ b.*1))
  | None => assoc k l = None ∧ k ∉ (l.*1)
  end.
Proof.
  intros [(Hnd & _ & _ & Hc) Hdom]. destruct (entries s !! k) as [e|] eqn:He.
  - assert (Hin : k ∈ l.*1).
    { apply (elem_of_list_to_set (C := gset K)). rewrite <- Hdom. apply elem_of_dom. eauto. }
    apply list_elem_of_fmap in Hin as ([k' v] & -> & Hin). cbn in *.
    destruct (chain_lookup _ _ _ _ _ _ Hc Hin) as (e' & He' & <-).
    rewrite He in He'. injection He' as <-.
    apply list_elem_of_split in Hin as (a & b & ->). rewrite fmap_app in Hnd. cbn in Hnd.
    apply NoDup_app in Hnd as (_ & Hdis & [Hb _]%NoDup_cons).
    assert (Ha : k' ∉ a.*1) by (intros Hx; apply (Hdis _ Hx); left).
    split; [|by exists a, b]. unfold assoc. clear -Ha. induction a as [|[k v] a IH]; cbn.
    + by rewrite bool_decide_eq_true_2.
    + cbn in Ha. apply not_elem_of_cons in Ha as [Hne Ha].
      rewrite bool_decide_eq_false_2 by congruence. by apply IH.
  - assert (Hn : k ∉ l.*1).
    { rewrite <- (elem_of_list_to_set (C := gset K)), <- Hdom. apply not_elem_of_dom. done. }
    split; [|done]. unfold assoc. destruct (find_first _ l) as [[k' v]|] eqn:E; [|done].
    apply find_first_Some in E as [Hin Hk]. apply bool_decide_eq_true_1 in Hk. cbn in Hk. subst k'.
    destruct Hn. by apply (list_elem_of_fmap_2 fst _ (k, v)).
Qed.

Lemma buffer_assoc s l k : represents s l → Lru_buffer s k = assoc k l.
Proof.
  intros Hr. pose proof (represents_lookup s l k Hr) as Hl. unfold Lru_buffer.
  destruct (entries s !! k); by destruct Hl as [-> _].
Qed.

Lemma notin_without k l : k ∉ (without k l).*1.
Proof. intros ([k' v] & -> & [Hne _]%list_elem_of_filter)%list_elem_of_fmap. by apply Hne. Qed.

Lemma assoc_snoc k v l : k ∉ l.*1 → assoc k (l ++ [(k, v)]) = Some v.
Proof.
  unfold assoc. induction l as [|[k' w] l IH]; cbn.
  - by rewrite bool_decide_eq_true_2.
  - intros [Hne Hk]%not_elem_of_cons. rewrite bool_decide_eq_false_2 by congruence. by apply IH.
Qed.

Lemma assoc_elem k v l : assoc k l = Some v → (k, v) ∈ l.
Proof.
  unfold assoc. destruct (find_first _ l) as [[k' v']|] eqn:E; [|done]. intros [= ->].
  apply find_first_Some in E as [Hin Hk]. apply bool_decide_eq_true_1 in Hk. cbn in Hk. by subst k'.
Qed.

Lemma assoc_None k l : assoc k l = None → k ∉ l.*1.
Proof.
  unfold assoc. intros Ha ([k' v] & -> & Hin)%list_elem_of_fmap.
  destruct (find_first _ l) eqn:E; [done|]. apply (proj1 (find_first_None _ _)) with (k', v) in E; [|done].
  by apply bool_decide_eq_false_1 in E.
Qed.

Lemma represents_length s l : represents s l → Lru_len s = length l.
Proof.
  intros [(Hnd & _) Hdom]. unfold Lru_len. rewrite <- size_dom, Hdom.
  rewrite size_list_to_set by done. apply length_fmap.
Qed.

Lemma represents_new n s : Lru_new n true = Ok s → represents s [] ∧ capacity s = n.
Proof.
  unfold Lru_new. destruct (checked_mul _ _ _); cbn; [|done]. intros [= <-]. split; [|done].
  split; [|done]. split_and!; try done. apply NoDup_nil_2.
Qed.

Lemma represents_count s l f : represents s l → represents (count s f) l.
Proof. done. Qed.

Lemma promote_spec s l k v :
  represents s l → assoc k l = Some v →
  ∃ s', Lru_promote s k = Ok s' ∧ represents s' (without k l ++ [(k, v)]) ∧
    capacity s' = capacity s ∧ counters s' = counters s.
Proof.
  intros Hr Ha. pose proof (represents_lookup s l k Hr) as Hl.
  destruct (entries s !! k) as [e|] eqn:He; [|destruct Hl; congruence].
  destruct Hl as [Ha' (a & b & -> & Hka & Hkb)]. rewrite Ha in Ha'. injection Ha' as ->.
  rewrite without_middle by done. destruct Hr as [Hlk Hdom]. unfold Lru_promote.
  destruct (decide (newest s = Some k)) as [Hn|Hn].
  - (* already the newest *)
    destruct Hlk as (Hnd & Hold & Hnew & Hc).
    assert (b = []) as ->.
    { rewrite Hn, last_key_app in Hnew. unfold last_key at 1 in Hnew. rewrite last_cons in Hnew.
      destruct (last b) as [[k' w]|] eqn:E; [|by apply last_None in E].
      injection Hnew as ->. apply last_Some_elem_of in E. destruct Hkb.
      by apply (list_elem_of_fmap_2 fst _ (k', w)). }
    rewrite app_nil_r. exists s. split_and!; done.
  - destruct (unlink_spec _ _ _ _ _ Hlk) as (s1 & e1 & -> & Hl1 & He1 & Hv1 & Hd1 & Hc1 & Hr1).
    cbn [mbind result_mbind result_bind].
    destruct (link_newest_spec s1 (a ++ b) k (en_buffer e) e1 Hl1) as (s2 & -> & Hl2 & Hd2 & Hc2 & Hr2);
      [rewrite fmap_app, elem_of_app; tauto | done | done |].
    exists s2. split_and!; [done | | congruence | congruence]. split; [done|].
    rewrite Hd2, Hd1, Hdom. rewrite !fmap_app. cbn. set_solver.
Qed.

Lemma insert_spec s l k v :
  represents s l → k ∉ l.*1 → (length l < capacity s)%nat →
  ∃ s', Lru_insert s k v = Ok s' ∧ represents s' (l ++ [(k, v)]) ∧ capacity s' = capacity s.
Proof.
  intros Hr Hk Hlen. unfold Lru_insert. rewrite (represents_length s l Hr), decide_True by done.
  destruct Hr as [(Hnd & Hold & Hnew & Hc) Hdom].
  set (e := {| en_buffer := v; en_older := None; en_newer := None |}).
  destruct (link_newest_spec (set_entries s (<[k := e]> (entries s))) l k v e)
    as (s2 & -> & Hl2 & Hd2 & Hc2 & Hr2); [|done | by cbn; rewrite lookup_insert_eq | done |].
  { split_and!; try done. by apply chain_insert_other. }
  cbn [mbind result_mbind result_bind]. eexists. split; [done|]. split; [|done].
  apply represents_count. split; [done|]. rewrite Hd2. unfold set_entries. cbn [entries].
  rewrite dom_insert_L, Hdom, fmap_app. cbn. set_solver.
Qed.

Lemma evict_spec s l :
  represents s l →
  match l with
  | [] => Lru_evict s = Ok (s, None)
  | (k, v) :: l' => ∃ s', Lru_evict s = Ok (s', Some v) ∧ represents s' l' ∧ capacity s' = capacity s
  end.
Proof.
  intros [Hlk Hdom]. pose proof Hlk as (Hnd & Hold & _ & _). unfold Lru_evict.
  destruct l as [|[k v] l]; [by rewrite Hold|]. rewrite Hold. cbn [first_key].
  destruct (unlink_spec s [] k v l Hlk) as (s1 & e & -> & (Hnd1 & Ho1 & Hn1 & Hc1) & He & Hv & Hd & Hcap & _).
  cbn [mbind result_mbind result_bind]. unfold Lru_entry. rewrite He.
  cbn [expect mbind result_mbind result_bind]. rewrite Hv. cbn in Hnd. apply NoDup_cons in Hnd as [Hk Hnd].
  eexists. split; [done|]. split; [|done]. apply represents_count. split.
  - split_and!; try done. unfold set_entries. cbn [entries]. by apply chain_delete_other.
  - unfold set_entries. cbn [entries]. rewrite dom_delete_L, Hd, Hdom. cbn. set_solver.
Qed.

(** ** Operation sequences *)

(** [OpFill] is the use the caches make of the table: promote a resident key,
    insert a missing one. *)
Inductive lru_op : Type :=
  | OpGet (k : K)
  | OpFill (k : K) (v : V)
  | OpEvict.

Definition lru_step (s : Lru) (op : lru_op) : result (Lru * option V) :=
  match op with
  | OpGet k => Lru_get s k
  | OpFill k v =>
      match Lru_buffer s k with
      | Some buffer => s ← Lru_promote s k; Ok (s, Some buffer)
      | None => s ← Lru_insert s k v; Ok (s, Some v)
      end
  | OpEvict => Lru_evict s
  end.

Definition list_step (n : nat) l (op : lru_op) : result (list (K * V) * option V) :=
  match op with
  | OpGet k =>
      match assoc k l with
      | Some v => Ok (without k l ++ [(k, v)], Some v)
      | None => Ok (l, None)
      end
  | OpFill k v =>
      match assoc k l with
      | Some w => Ok (without k l ++ [(k, w)], Some w)
      | None => if decide (length l < n)%nat then Ok (l ++ [(k, v)], Some v) else Panic
      end
  | OpEvict => match l with [] => Ok ([], None) | (_, v) :: l' => Ok (l', Some v) end
  end.

Fixpoint lru_run {S} (step : S → lru_op → result (S * option V)) (s : S) (ops : list lru_op)
    : result (list (option V)) :=
  match ops with
  | [] => Ok []
  | op :: ops' => '(s', o) ← step s op; os ← lru_run step s' ops'; Ok (o :: os)
  end.

Lemma lru_step_refines s l op :
  represents s l →
  match list_step (capacity s) l op with
  | Ok (l', o) => ∃ s', lru_step s op = Ok (s', o) ∧ represents s' l' ∧ capacity s' = capacity s
  | Panic => lru_step s op = Panic
  | Err _ => False
  end.
Proof.
  intros Hr. pose proof (represents_lookup s l) as Hl. destruct op as [k|k v|]; cbn [list_step lru_step].
  - specialize (Hl k Hr). unfold Lru_get, Lru_buffer. destruct (entries s !! k) as [e|]; cbn.
    + destruct Hl as [Ha _]. rewrite Ha.
      destruct (promote_spec s l k (en_buffer e) Hr Ha) as (s' & -> & Hr' & Hc & _).
      cbn. eexists. split; [done|]. by split; [apply represents_count|].
    + destruct Hl as [-> _]. eexists. by split_and!; [|apply represents_count|].
  - specialize (Hl k Hr). unfold Lru_buffer. destruct (entries s !! k) as [e|]; cbn.
    + destruct Hl as [Ha _]. rewrite Ha.
      destruct (promote_spec s l k (en_buffer e) Hr Ha) as (s' & -> & Hr' & Hc & _). cbn. eauto.
    + destruct Hl as [-> Hk]. destruct (decide _) as [Hlen|Hlen].
      * destruct (insert_spec s l k v Hr Hk Hlen) as (s' & -> & Hr' & Hc). cbn. eauto.
      * unfold Lru_insert. by rewrite (represents_length s l Hr), decide_False.
  - pose proof (evict_spec s l Hr) as He. destruct l as [|[k v] l]; [|exact He]. rewrite He. eauto.
Qed.

Lemma lru_run_refines ops : ∀ s l,
  represents s l → lru_run lru_step s ops = lru_run (list_step (capacity s)) l ops.
Proof.
  induction ops as [|op ops IH]; intros s l Hr; [done|]. cbn [lru_run].
  pose proof (lru_step_refines s l op Hr) as Hs.
  destruct (list_step (capacity s) l op) as [[l' o]| |]; [|done|by rewrite Hs].
  destruct Hs as (s' & -> & Hr' & Hc). cbn. rewrite (IH s' l' Hr'), Hc. done.
Qed.

(** C29: the linked table is an LRU list: any sequence of lookups, fills and
    evictions on a new table returns what the same operations return on a list
    in recency order (a hit and a refill move the key to the newest end, an
    eviction takes the oldest), and it panics only where a fill exceeds the
    capacity: no link ever names a missing entry. *)
Theorem lru_refines_list (n : nat) (s : Lru) (ops : list lru_op) :
  Lru_new n true = Ok s → lru_run lru_step s ops = lru_run (list_step n) [] ops.
Proof. intros [Hr <-]%represents_new. by apply lru_run_refines. Qed.

End Lru.

Arguments Lru _ _ {_ _}.
Arguments Entry : clear implicits.
Arguments lru_op : clear implicits.

Definition sample_lru : Lru Z Z :=
  unwrap_or {| entries := ∅; capacity := 0; oldest := None; newest := None;
               counters := Counters_default |} (Lru_new 2 true).

Lemma lru_refines_list_witness :
  lru_run lru_step sample_lru
    [OpFill 1 10; OpFill 2 20; OpGet 1; OpEvict; OpGet 2; OpFill 3 30; OpEvict]
  = Ok [Some 10; Some 20; Some 10; Some 20; None; Some 30; Some 10].
Proof. rewrite (lru_refines_list 2 sample_lru _ eq_refl). reflexivity. Defined.
