(* ===== verification/Cache.v ===== *)
(** * The verified block cache

    Models [crates/cas/core/src/cache.rs] over the LRU table of [Lru]: a cache
    of 4 KiB blocks keyed by their BLAKE3 hash.  Readers share the buffers: an
    evicted buffer that a reader still holds keeps its payload credit, so
    [outside] counts those blocks.  Which buffers readers hold and whether the
    metadata budget allows one more buffer are arguments of [Cache_fill]. *)
From S2P Require Import Prelude Bytes Lru.

Record Cache : Type := {
  capacity_bytes : Z;
  state : Lru bytes bytes;
  outside : Z;
}.

(** Bytes charged to the payload budget. *)
Definition payload_bytes (c : Cache) : Z := (Z.of_nat (Lru_len (state c)) + outside c) * BLOCK_SIZE.

(** [reserved] answers the allocation of the table. *)
Definition Cache_new (bytes : Z) (reserved : bool) : result Cache :=
  if bool_decide (bytes = 0) || negb (is_multiple_of bytes BLOCK_SIZE)
  then invalid_input "invalid cache byte limit"
  else
    state ← Lru_new (Z.to_nat (bytes / BLOCK_SIZE)) reserved;
    Ok {| capacity_bytes := bytes; state := state; outside := 0 |}.

Definition set_state (c : Cache) (s : Lru bytes bytes) : Cache :=
  {| capacity_bytes := capacity_bytes c; state := s; outside := outside c |}.

Definition Cache_get (c : Cache) (hash : bytes) : result (Cache * option bytes) :=
  '(s, buffer) ← Lru_get (state c) hash;
  Ok (set_state c s, buffer).

Definition Cache_peek (c : Cache) (hash : bytes) : option bytes := Lru_buffer (state c) hash.

Definition refuse (s : Lru bytes bytes) : Lru bytes bytes :=
  count s (λ n, {| hits := hits n; misses := misses n; fills := fills n; evictions := evictions n;
                   refused := refused n + 1 |}).

(** The allocation loop of [fill]: evict until a block fits the payload budget.
    [held] tells which evicted buffers a reader keeps alive. *)
Fixpoint make_room (fuel : nat) (held : bytes → bool) (c : Cache) : result (Cache * bool) :=
  match fuel with
  | O => Panic
  | S fuel' =>
      if decide (payload_bytes c + BLOCK_SIZE ≤ capacity_bytes c) then Ok (c, true)
      else
        '(s, evicted) ← Lru_evict (state c);
        match evicted with
        | None => Ok (set_state c (refuse s), false)
        | Some buffer =>
            make_room fuel' held
              {| capacity_bytes := capacity_bytes c; state := s;
                 outside := if held buffer then outside c + 1 else outside c |}
        end
  end.

(** [metadata] answers the allocation of the shared buffer handle.  The cache
    is returned with the outcome, since a failed fill may have evicted. *)
Definition Cache_fill `{Blake3} (c : Cache) (held : bytes → bool) (metadata : bool)
    (hash bytes : bytes) : result (Cache * result (option (list Z))) :=
  if bool_decide (blen bytes ≠ BLOCK_SIZE) || bool_decide (blake3_hash bytes ≠ hash)
  then Ok (c, invalid_data "invalid cache fill")
  else
    match Lru_buffer (state c) hash with
    | Some buffer =>
        s ← Lru_promote (state c) hash;
        Ok (set_state c s, Ok (Some buffer))
    | None =>
        '(c, room) ← make_room (S (S (Lru_len (state c)))) held c;
        if room : bool then
          if metadata then
            s ← Lru_insert (state c) hash bytes;
            Ok (set_state c s, Ok (Some bytes))
          else Ok (set_state c (refuse (state c)), out_of_memory "")
        else Ok (c, Ok None)
    end.

(** The loop of [clear]. *)
Fixpoint Cache_clear (fuel : nat) (held : bytes → bool) (c : Cache) : result Cache :=
  match fuel with
  | O => Panic
  | S fuel' =>
      '(s, evicted) ← Lru_evict (state c);
      match evicted with
      | None => Ok (set_state c s)
      | Some buffer =>
          Cache_clear fuel' held
            {| capacity_bytes := capacity_bytes c; state := s;
               outside := if held buffer then outside c + 1 else outside c |}
      end
  end.

(** A reader drops the last reference to an evicted buffer. *)
Definition release (c : Cache) : Cache :=
  {| capacity_bytes := capacity_bytes c; state := state c; outside := outside c - 1 |}.

(** ** The cache invariant *)

Definition blocks_ok `{Blake3} (l : list (bytes * bytes)) : Prop :=
  Forall (λ e, blen e.2 = BLOCK_SIZE ∧ blake3_hash e.2 = e.1) l.

Definition Cache_inv `{Blake3} (c : Cache) (l : list (bytes * bytes)) : Prop :=
  represents (state c) l ∧ blocks_ok l ∧ 0 ≤ outside c ∧
  (Z.of_nat (length l) + outside c) * BLOCK_SIZE ≤ capacity_bytes c ∧
  Z.of_nat (capacity (state c)) = capacity_bytes c / BLOCK_SIZE ∧
  capacity_bytes c mod BLOCK_SIZE = 0.

Section Invariant.
Context `{Blake3}.

Lemma payload_of c l : represents (state c) l →
  payload_bytes c = (Z.of_nat (length l) + outside c) * BLOCK_SIZE.
Proof. intros Hr. unfold payload_bytes. by rewrite (represents_length _ _ Hr). Qed.

Lemma blocks_ok_promote l k v :
  blocks_ok l → assoc k l = Some v → blocks_ok (without k l ++ [(k, v)]).
Proof.
  intros Hl Ha%assoc_elem. unfold blocks_ok in *. rewrite Forall_forall in Hl. apply Forall_forall.
  intros e [[_ He]%list_elem_of_filter | ->%list_elem_of_singleton]%elem_of_app; by apply Hl.
Qed.

Lemma length_without (l : list (bytes * bytes)) k v : NoDup l.*1 → assoc k l = Some v → S (length (without k l)) = length l.
Proof.
  unfold assoc, without. induction l as [|[k' v'] l IH]; cbn [find_first fst]; [done|].
  intros [Hk Hnd]%NoDup_cons. rewrite filter_cons. destruct (bool_decide (k' = k)) eqn:E; breflect.
  - subst k'. intros _. rewrite decide_False by (cbn; tauto). cbn [length]. f_equal.
    fold (without k l). by rewrite without_notin.
  - intros Ha. rewrite decide_True by done. cbn [length]. f_equal. by apply IH.
Qed.

Lemma inv_promote c l k v s :
  Cache_inv c l → assoc k l = Some v → represents s (without k l ++ [(k, v)]) →
  capacity s = capacity (state c) → Cache_inv (set_state c s) (without k l ++ [(k, v)]).
Proof.
  intros (Hr & Hb & Ho & Hp & Hc & Hm) Ha Hs Hcap. unfold Cache_inv. cbn [state outside capacity_bytes set_state].
  rewrite Hcap. split_and!; try done; [by apply blocks_ok_promote|].
  rewrite length_app, Nat.add_comm. cbn [length Nat.add].
  rewrite (length_without l k v); [done | by destruct Hr as [[? _] _] | done].
Qed.

Lemma inv_evict c k v l :
  Cache_inv c ((k, v) :: l) →
  ∃ s, Lru_evict (state c) = Ok (s, Some v) ∧
    ∀ b : bool, Cache_inv {| capacity_bytes := capacity_bytes c; state := s;
                             outside := if b then outside c + 1 else outside c |} l.
Proof.
  intros (Hr & Hb & Ho & Hp & Hc & Hm).
  destruct (evict_spec _ _ Hr) as (s & He & Hr' & Hcap). exists s. split; [done|]. intros b.
  apply Forall_cons in Hb as [_ Hb]. unfold Cache_inv. cbn [state outside capacity_bytes length] in *.
  rewrite Hcap. split_and!; try done; unfold BLOCK_SIZE in *; destruct b; lia.
Qed.

(** The allocation loop evicts the oldest blocks only as long as no block
    fits, and gives up only when nothing is resident any more. *)
Lemma make_room_spec held l : ∀ fuel c,
  (length l < fuel)%nat → Cache_inv c l →
  ∃ c' room l', make_room fuel held c = Ok (c', room) ∧ Cache_inv c' l' ∧ suffix l' l ∧
    capacity_bytes c' = capacity_bytes c ∧
    if room : bool then payload_bytes c' + BLOCK_SIZE ≤ capacity_bytes c'
    else l' = [] ∧ capacity_bytes c < (outside c' + 1) * BLOCK_SIZE.
Proof.
  induction l as [|[k v] l IH]; intros fuel c Hf Hi; (destruct fuel as [|fuel]; [lia|]); cbn [make_room].
  - destruct (decide _) as [Hd|Hd]; [by exists c, true, []|].
    pose proof Hi as (Hr & Hb & Ho & Hp & Hc & Hm). rewrite (evict_spec _ _ Hr). cbn.
    exists (set_state c (refuse (state c))), false, []. split_and!; try done.
    rewrite (payload_of c [] Hr) in Hd. cbn [length] in *. cbn. lia.
  - destruct (decide _) as [Hd|Hd]; [by exists c, true, ((k, v) :: l)|].
    destruct (inv_evict c k v l Hi) as (s & -> & Hi'). cbn [mbind result_mbind result_bind].
    destruct (IH fuel _ ltac:(cbn in Hf; lia) (Hi' (held v))) as (c' & room & l' & -> & H1 & H2 & H3 & H4).
    exists c', room, l'. split_and!; try done. by apply suffix_cons_r.
Qed.

Lemma fill_spec c l held metadata hash b :
  Cache_inv c l →
  ∃ c' r l', Cache_fill c held metadata hash b = Ok (c', r) ∧ Cache_inv c' l' ∧
    capacity_bytes c' = capacity_bytes c ∧
    (r = Ok (Some b) → Lru_buffer (state c') hash = Some b) ∧
    (r = Ok None → l' = [] ∧ capacity_bytes c < (outside c' + 1) * BLOCK_SIZE) ∧
    (∀ b', r = Ok (Some b') → blen b = BLOCK_SIZE ∧ blake3_hash b = hash ∧ blake3_hash b' = hash).
Proof.
  intros Hi. pose proof Hi as (Hr & Hb & Ho & Hp & Hc & Hm). unfold Cache_fill.
  destruct (_ || _) eqn:Ev; [by exists c, (invalid_data "invalid cache fill"), l|].
  apply orb_false_iff in Ev as [E1 E2]. apply bool_decide_eq_false_1, dec_stable in E1, E2.
  rewrite (buffer_assoc _ _ _ Hr). destruct (assoc hash l) as [v|] eqn:Ha.
  - destruct (promote_spec _ _ _ _ Hr Ha) as (s & -> & Hr' & Hcap & _).
    cbn [mbind result_mbind result_bind].
    pose proof (inv_promote c l hash _ s Hi Ha Hr' Hcap) as Hi'.
    eexists _, _, _. split; [done|]. split; [exact Hi'|]. split; [done|].
    assert (Hhash : blake3_hash v = hash).
    { destruct Hi' as (_ & Hb' & _). apply Forall_app in Hb' as [_ Hb'].
      apply Forall_cons in Hb' as [[_ Hb'] _]. done. }
    split_and!; [|done|by intros b' [= <-]]. intros [= <-]. cbn [state set_state].
    rewrite (buffer_assoc _ _ _ Hr'). apply assoc_snoc, notin_without.
  - apply assoc_None in Ha as Hk. rewrite (represents_length _ _ Hr).
    destruct (make_room_spec held l (S (S (length l))) c ltac:(lia) Hi)
      as (c' & room & l' & -> & Hi' & Hsuf & Hcap & Hroom). cbn [mbind result_mbind result_bind].
    destruct room; [|by exists c', (Ok None), l']. pose proof Hi' as (Hr' & Hb' & Ho' & Hp' & Hc' & Hm').
    destruct metadata.
    2:{ exists (set_state c' (refuse (state c'))), (out_of_memory ""), l'. by split_and!. }
    assert (Hk' : hash ∉ l'.*1).
    { intros Hin. apply Hk. destruct Hsuf as [pre ->]. rewrite fmap_app, elem_of_app. by right. }
    rewrite (payload_of c' l' Hr') in Hroom.
    destruct (insert_spec (state c') l' hash b Hr' Hk') as (s & -> & Hrs & Hcs).
    { apply Nat2Z.inj_lt. rewrite Hc'. unfold BLOCK_SIZE in *. apply Z.lt_le_trans with (Z.of_nat (length l') + outside c' + 1); [lia|].
      apply Z.div_le_lower_bound; lia. }
    cbn [mbind result_mbind result_bind]. eexists _, _, _. split; [done|].
    split; [|split; [done|]].
    + split; [exact Hrs|]. cbn [state outside capacity_bytes set_state]. rewrite Hcs.
      split_and!; try done.
      * apply Forall_app. split; [done|]. by repeat constructor.
      * rewrite length_app. cbn [length]. unfold BLOCK_SIZE in *. lia.
    + split_and!; [|done|by intros b' [= <-]]. intros _. cbn [state set_state].
      rewrite (buffer_assoc _ _ _ Hrs). by apply assoc_snoc.
Qed.

End Invariant.

(** ** Reachable caches *)

Inductive cache_step `{Blake3} : Cache → Cache → Prop :=
  | step_get c c' hash r : Cache_get c hash = Ok (c', r) → cache_step c c'
  | step_fill c c' held metadata hash b r :
      Cache_fill c held metadata hash b = Ok (c', r) → cache_step c c'
  | step_clear c c' held :
      Cache_clear (S (Lru_len (state c))) held c = Ok c' → cache_step c c'
  | step_release c : 0 < outside c → cache_step c (release c).

Inductive cache_reachable `{Blake3} (bytes : Z) : Cache → Prop :=
  | reach_new c : Cache_new bytes true = Ok c → cache_reachable bytes c
  | reach_step c c' : cache_reachable bytes c → cache_step c c' → cache_reachable bytes c'.

Section Reachable.
Context `{Blake3}.

Lemma inv_new bytes c :
  0 ≤ bytes → Cache_new bytes true = Ok c → Cache_inv c [] ∧ capacity_bytes c = bytes.
Proof.
  intros H0. unfold Cache_new. destruct (_ || _) eqn:E; [done|].
  intros (s & Hs & [= <-])%result_bind_ok. apply represents_new in Hs as [Hr Hc].
  apply orb_false_iff in E as [E1 E2]. apply negb_false_iff, is_multiple_of_spec in E2.
  unfold Cache_inv. cbn [state outside capacity_bytes length]. rewrite Hc.
  split; [|done]. split_and!; try done; try lia; [constructor|].
  apply Z2Nat.id, Z.div_pos; [lia | done].
Qed.

Lemma get_spec c l hash :
  Cache_inv c l →
  ∃ c' l', Cache_get c hash = Ok (c', assoc hash l) ∧ Cache_inv c' l' ∧
           capacity_bytes c' = capacity_bytes c.
Proof.
  intros Hi. pose proof Hi as (Hr & Hb & Ho & Hp & Hc & Hm). unfold Cache_get, Lru_get.
  rewrite (buffer_assoc _ _ _ Hr). destruct (assoc hash l) as [v|] eqn:Ha.
  - destruct (promote_spec _ _ _ _ Hr Ha) as (s & -> & Hr' & Hcap & _). cbn [mbind result_mbind result_bind].
    eexists _, _. split; [done|]. split; [|done]. by eapply inv_promote.
  - eexists _, l. split; [done|]. done.
Qed.

Lemma clear_spec held l : ∀ fuel c,
  (length l < fuel)%nat → Cache_inv c l →
  ∃ c', Cache_clear fuel held c = Ok c' ∧ Cache_inv c' [] ∧ capacity_bytes c' = capacity_bytes c.
Proof.
  induction l as [|[k v] l IH]; intros fuel c Hf Hi; (destruct fuel as [|fuel]; [lia|]); cbn [Cache_clear].
  - rewrite (evict_spec _ _ (proj1 Hi)). cbn. eexists. split; [done|]. done.
  - destruct (inv_evict c k v l Hi) as (s & -> & Hi'). cbn [mbind result_mbind result_bind].
    destruct (IH fuel _ ltac:(cbn in Hf; lia) (Hi' (held v))) as (c' & -> & H1 & H2). eauto.
Qed.

Lemma cache_reachable_inv bytes c :
  0 ≤ bytes → cache_reachable bytes c → (∃ l, Cache_inv c l) ∧ capacity_bytes c = bytes.
Proof.
  intros H0. induction 1 as [c Hc | c c' _ [[l Hi] Hcap] Hs].
  - apply inv_new in Hc as [? ?]; eauto.
  - destruct Hs as [c c' hash r Hg | c c' held metadata hash b r Hf | c c' held Hcl | c Ho].
    + destruct (get_spec c l hash Hi) as (c1 & l1 & Hg1 & Hi1 & Hc1).
      rewrite Hg1 in Hg. injection Hg as <- _. split; [by exists l1 | congruence].
    + destruct (fill_spec c l held metadata hash b Hi) as (c1 & r1 & l1 & Hf1 & Hi1 & Hc1 & _).
      rewrite Hf1 in Hf. injection Hf as <- _. split; [by exists l1 | congruence].
    + destruct (clear_spec held l (S (Lru_len (state c))) c) as (c1 & Hc1 & Hi1 & Hcap1); [|done|].
      { rewrite (represents_length _ _ (proj1 Hi)). lia. }
      rewrite Hc1 in Hcl. injection Hcl as <-. split; [by exists [] | congruence].
    + split; [|done]. exists l. destruct Hi as (? & ? & ? & ? & ? & ?).
      unfold Cache_inv. cbn [state outside capacity_bytes release].
      split_and!; try done; unfold BLOCK_SIZE in *; lia.
Qed.

End Reachable.

(** C28: the cache never serves wrong bytes and never exceeds its budget.
    After any interleaving of fills (whatever readers hold and the allocators
    answer), lookups, clears and buffer releases, every cached block has the
    block size and hashes to its key, the payload budget covers the residents
    and the blocks readers still hold, and no operation panics. *)
Theorem cache_safe `{Blake3} (bytes : Z) (c : Cache) :
  0 ≤ bytes → cache_reachable bytes c →
  (∀ hash b, Cache_peek c hash = Some b → blen b = BLOCK_SIZE ∧ blake3_hash b = hash) ∧
  payload_bytes c ≤ bytes ∧
  (∀ hash, Cache_get c hash ≠ Panic) ∧
  (∀ held metadata hash b, Cache_fill c held metadata hash b ≠ Panic) ∧
  (∀ held, Cache_clear (S (Lru_len (state c))) held c ≠ Panic).
Proof.
  intros H0 [[l Hi] <-]%cache_reachable_inv; [|done]. pose proof Hi as (Hr & Hb & _ & Hp & _).
  split_and!.
  - intros hash b. unfold Cache_peek. rewrite (buffer_assoc _ _ _ Hr). intros Hin%assoc_elem.
    unfold blocks_ok in Hb. rewrite Forall_forall in Hb. by apply Hb in Hin.
  - by rewrite (payload_of c l Hr).
  - intros hash. destruct (get_spec c l hash Hi) as (? & ? & -> & _). done.
  - intros held metadata hash b.
    destruct (fill_spec c l held metadata hash b Hi) as (? & ? & ? & -> & _). done.
  - intros held. destruct (clear_spec held l (S (Lru_len (state c))) c) as (? & -> & _); [|done|done].
    rewrite (represents_length _ _ Hr). lia.
Qed.

(** What a fill does.  On a reachable cache a fill with the bytes of the
    hash is refused only when no block is resident any more and the blocks held
    by readers leave no room for another; when it returns a buffer, the buffer
    hashes to the key, and if that buffer is the one offered it is resident
    afterwards; bytes that do not hash to the key are rejected. *)
Lemma cache_fill_outcome `{Blake3} (bytes : Z) (c : Cache) (held : list Z → bool) (metadata : bool)
    (hash b : list Z) :
  0 ≤ bytes → cache_reachable bytes c →
  ∃ c' r, Cache_fill c held metadata hash b = Ok (c', r) ∧ cache_reachable bytes c' ∧
    match r with
    | Ok (Some b') => blake3_hash b = hash ∧ blake3_hash b' = hash ∧
                      (b' = b → Cache_peek c' hash = Some b)
    | Ok None => Lru_len (state c') = O ∧ bytes < (outside c' + 1) * BLOCK_SIZE
    | Err e => e = Error InvalidData "invalid cache fill" ∨ e = Error OutOfMemory ""
    | Panic => False
    end.
Proof.
  intros H0 Hreach. pose proof Hreach as [[l Hi] Hcap]%cache_reachable_inv; [|done].
  destruct (fill_spec c l held metadata hash b Hi) as (c' & r & l' & Hf & Hi' & Hc' & H1 & H2 & H3).
  exists c', r. split; [done|]. split; [eapply reach_step; [done | by eapply step_fill]|].
  destruct r as [[b'|]|e|].
  - destruct (H3 b' eq_refl) as (_ & ? & ?). split_and!; try done. intros ->. by apply H1.
  - destruct (H2 eq_refl) as [-> ?]. rewrite (represents_length _ _ (proj1 Hi')). split; [done|]. congruence.
  - unfold Cache_fill in Hf. destruct (_ || _); [simplify_eq; by left|].
    destruct (Lru_buffer _ _); [by apply result_bind_ok in Hf as (? & _ & ?)|].
    apply result_bind_ok in Hf as ([c1 room] & _ & Hf). destruct room; [|simplify_eq].
    destruct metadata; [by apply result_bind_ok in Hf as (? & _ & ?)|]. simplify_eq. by right.
  - unfold Cache_fill in Hf. destruct (_ || _); [simplify_eq|].
    destruct (Lru_buffer _ _); [by apply result_bind_ok in Hf as (? & _ & ?)|].
    apply result_bind_ok in Hf as ([c1 room] & _ & Hf). destruct room; [|simplify_eq].
    destruct metadata; [by apply result_bind_ok in Hf as (? & _ & ?)|]. simplify_eq.
Qed.

(** A stand-in hash for concrete evaluation: the first 32 bytes. *)
Lemma prefix_hash_shape b :
  blen (take 32 ((λ x, x mod 256) <$> b ++ replicate 32 0)) = 32 ∧
  bytes_ok (take 32 ((λ x, x mod 256) <$> b ++ replicate 32 0)).
Proof.
  split.
  - unfold blen. rewrite length_take, length_fmap, length_app, length_replicate. lia.
  - apply Forall_take, Forall_fmap, Forall_true. intros x. unfold compose, fits.
    change (2 ^ 8) with 256. apply Z.mod_pos_bound. lia.
Qed.

Definition prefix_hash : Blake3 := {|
  blake3_hash b := take 32 ((λ x, x mod 256) <$> b ++ replicate 32 0);
  blake3_shape := prefix_hash_shape |}.

Definition sample_empty : Lru bytes bytes :=
  {| entries := ∅; capacity := 0; oldest := None; newest := None; counters := Counters_default |}.

Definition sample_cache : Cache :=
  unwrap_or {| capacity_bytes := 0; state := sample_empty; outside := 0 |} (Cache_new 8192 true).

Definition sample_block : list Z := replicate 4096 7.

Lemma cache_safe_witness :
  payload_bytes sample_cache ≤ 8192 ∧ Cache_peek sample_cache (replicate 32 7) = None.
Proof.
  destruct (@cache_safe prefix_hash 8192 sample_cache) as (_ & H & _).
  - lia.
  - apply reach_new. reflexivity.
  - split; [exact H | reflexivity].
Defined.
