(* ===== verification/Scheduler.v ===== *)
(** * The IO scheduler

    Models [crates/cas/core/src/scheduler.rs]: images and one background owner
    share submission opportunities; every fourth opportunity belongs to the
    background when it is ready, and demand rotates over the ready images.
    Wake-ups go through event descriptors: [notify] returns whom it wakes, and
    the outcome of the write is an argument of the operations. *)
From S2P Require Import Prelude.

Inductive Selected : Type := Demand (image : Z) | Background.

#[global] Instance Selected_eq_dec : EqDecision Selected.
Proof. solve_decision. Defined.

Record Image : Type := { ready : bool; wake : bool }.

Record Counters : Type := {
  demand : Z;
  background : Z;
  borrowed_demand : Z;
  borrowed_background : Z;
  demand_requested_bytes : Z;
  background_requested_bytes : Z;
}.

Record State : Type := {
  images : list Image;
  next_image : Z;
  opportunity : Z;
  background_ready : bool;
  counters : Counters;
}.

Definition image_ready (s : State) (i : Z) : bool :=
  match images s !! Z.to_nat i with Some im => ready im | None => false end.

Definition count_images (s : State) : Z := Z.of_nat (length (images s)).

Definition State_selected (s : State) : option Selected :=
  let order := (λ offset, (next_image s + Z.of_nat offset) mod count_images s)
                 <$> seq 0 (length (images s)) in
  let demand := Demand <$> find_first (image_ready s) order in
  if background_ready s && (bool_decide (opportunity s = 0) || bool_decide (demand = None))
  then Some Background
  else demand.

Definition set_ready (s : State) (i : Z) (b : bool) : State :=
  {| images := alter (λ im, {| ready := b; wake := wake im |}) (Z.to_nat i) (images s);
     next_image := next_image s; opportunity := opportunity s;
     background_ready := background_ready s; counters := counters s |}.

Definition set_background (s : State) (b : bool) : State :=
  {| images := images s; next_image := next_image s; opportunity := opportunity s;
     background_ready := b; counters := counters s |}.

Definition State_grant (s : State) (selected : Selected) (bytes : Z) : State :=
  let c := counters s in
  let s' :=
    match selected with
    | Demand image =>
        let s := set_ready s image false in
        {| images := images s; next_image := (image + 1) mod count_images s;
           opportunity := opportunity s; background_ready := background_ready s;
           counters := {|
             demand := demand c + 1; background := background c;
             borrowed_demand := borrowed_demand c + Z.b2z (bool_decide (opportunity s = 0));
             borrowed_background := borrowed_background c;
             demand_requested_bytes := demand_requested_bytes c + bytes;
             background_requested_bytes := background_requested_bytes c |} |}
    | Background =>
        {| images := images s; next_image := next_image s; opportunity := opportunity s;
           background_ready := false;
           counters := {|
             demand := demand c; background := background c + 1;
             borrowed_demand := borrowed_demand c;
             borrowed_background := borrowed_background c + Z.b2z (bool_decide (opportunity s ≠ 0));
             demand_requested_bytes := demand_requested_bytes c;
             background_requested_bytes := background_requested_bytes c + bytes |} |}
    end in
  {| images := images s'; next_image := next_image s';
     opportunity := (opportunity s' + 1) mod 4;
     background_ready := background_ready s'; counters := counters s' |}.

(** [available] answers the allocation of the table. *)
Definition Scheduler_new (count : Z) (available : bool) : result State :=
  if bool_decide (count = 0) then invalid_input ""
  else if available then
    Ok {| images := replicate (Z.to_nat count) {| ready := false; wake := false |};
          next_image := 0; opportunity := 0; background_ready := false;
          counters := {| demand := 0; background := 0; borrowed_demand := 0;
                         borrowed_background := 0; demand_requested_bytes := 0;
                         background_requested_bytes := 0 |} |}
  else out_of_memory "".

Definition Scheduler_bind (s : State) (image : Z) : result State :=
  match images s !! Z.to_nat image with
  | None => invalid_input ""
  | Some entry =>
      if wake entry then other "duplicate IO scheduler binding"
      else Ok {| images := <[Z.to_nat image := {| ready := ready entry; wake := true |}]> (images s);
                 next_image := next_image s; opportunity := opportunity s;
                 background_ready := background_ready s; counters := counters s |}
  end.

(** Whom [notify] wakes: the background waiter, or the event descriptor of the
    selected image if one is bound; [writable] answers the descriptor. *)
Definition Scheduler_notify (s : State) (writable : bool) : result (option Selected) :=
  match State_selected s with
  | Some Background => Ok (Some Background)
  | Some (Demand image) =>
      match images s !! Z.to_nat image with
      | Some im => if wake im then
                     if writable then Ok (Some (Demand image)) else other "eventfd"
                   else Ok None
      | None => Panic
      end
  | None => Ok None
  end.

Definition Port_ready (s : State) (image : Z) (b writable : bool) : State * result (option Selected) :=
  let s := set_ready s image b in
  (s, Scheduler_notify s writable).

(** The grant stands even when the wake-up of the next owner fails. *)
Definition Port_take (s : State) (image bytes : Z) (more_ready writable : bool)
    : State * result bool :=
  if decide (State_selected s = Some (Demand image)) then
    let s := State_grant s (Demand image) bytes in
    let s := set_ready s image more_ready in
    (s, Scheduler_notify s writable;; Ok true)
  else (s, Ok false).

(** [wait_background], one part per acquisition of the lock: the registration,
    then one round of the loop per wake-up, [expired] being the deadline test.
    [None] means that the waiter goes to sleep again. *)
Definition wait_background_start (s : State) : State * result unit :=
  if background_ready s then (s, other "more than one compaction IO owner")
  else (set_background s true, Ok tt).

Definition wait_background_round (s : State) (bytes : Z) (expired writable : bool)
    : State * option (result unit) :=
  if decide (State_selected s = Some Background) then
    let s := State_grant s Background bytes in
    (s, Some (Scheduler_notify s writable;; Ok tt))
  else if expired then
    let s := set_background s false in
    (s, Some (Scheduler_notify s writable;;
              Err (Error TimedOut "background IO submission deadline expired")))
  else
    match Scheduler_notify s writable with
    | Ok _ => (s, None)
    | Err e => (set_background s false, Some (Err e))
    | Panic => (s, Some Panic)
    end.

(** ** Selection *)

Definition wf (s : State) : Prop :=
  images s ≠ [] ∧ 0 ≤ next_image s < count_images s ∧ 0 ≤ opportunity s < 4.

(** Places from the rotation pointer to image [i]. *)
Definition distance (s : State) (i : Z) : Z := (i - next_image s) mod count_images s.

Lemma find_first_map {A B} (p : B → bool) (f : A → B) l :
  find_first p (f <$> l) = f <$> find_first (λ x, p (f x)) l.
Proof. induction l as [|x l IH]; cbn; [done|]. by destruct (p (f x)). Qed.

Lemma find_first_seq (p : nat → bool) n : ∀ k,
  match find_first p (seq k n) with
  | Some j => (k ≤ j < k + n)%nat ∧ p j = true ∧ ∀ i, (k ≤ i < j)%nat → p i = false
  | None => ∀ i, (k ≤ i < k + n)%nat → p i = false
  end.
Proof.
  induction n as [|n IH]; intros k; cbn [seq find_first]; [lia|].
  destruct (p k) eqn:E; [split_and!; [lia | lia | done | lia]|].
  specialize (IH (S k)). destruct (find_first p (seq (S k) n)) as [j|].
  - destruct IH as (? & ? & IH). split_and!; [lia | lia | done |]. intros i Hi.
    destruct (decide (i = k)) as [->|]; [done|]. apply IH. lia.
  - intros i Hi. destruct (decide (i = k)) as [->|]; [done|]. apply IH. lia.
Qed.

Lemma wf_count s : wf s → 0 < count_images s.
Proof. intros [Hn _]. unfold count_images. destruct (images s); [done|]. cbn [length]. lia. Qed.

Lemma distance_offset s i : wf s → 0 ≤ i < count_images s →
  0 ≤ distance s i < count_images s ∧ (next_image s + distance s i) mod count_images s = i.
Proof.
  intros Hw Hi. pose proof (wf_count s Hw). unfold distance. split; [by apply Z.mod_pos_bound|].
  rewrite Zplus_mod_idemp_r. replace (next_image s + (i - next_image s)) with i by lia.
  by apply Z.mod_small.
Qed.

Lemma offset_distance s o : wf s → 0 ≤ o < count_images s →
  distance s ((next_image s + o) mod count_images s) = o.
Proof.
  intros Hw Ho. unfold distance. rewrite Zminus_mod_idemp_l.
  replace (next_image s + o - next_image s) with o by lia. by apply Z.mod_small.
Qed.

(** The demand choice is the ready image closest after the pointer. *)
Lemma demand_choice s :
  wf s →
  match State_selected s with
  | Some (Demand j) =>
      0 ≤ j < count_images s ∧ image_ready s j = true ∧
      (background_ready s = true → opportunity s ≠ 0) ∧
      ∀ i, 0 ≤ i < count_images s → image_ready s i = true → distance s j ≤ distance s i
  | Some Background =>
      background_ready s = true ∧
      (opportunity s = 0 ∨ ∀ i, 0 ≤ i < count_images s → image_ready s i = false)
  | None => background_ready s = false ∧ ∀ i, 0 ≤ i < count_images s → image_ready s i = false
  end.
Proof.
  intros Hw. unfold State_selected. rewrite find_first_map.
  set (p := λ x : nat, image_ready s ((next_image s + Z.of_nat x) mod count_images s)).
  pose proof (find_first_seq p (length (images s)) 0) as Hf.
  assert (Hnone : find_first p (seq 0 (length (images s))) = None →
    ∀ i, 0 ≤ i < count_images s → image_ready s i = false).
  { intros E i Hi. rewrite E in Hf. destruct (distance_offset s i Hw Hi) as [Hd Heq].
    specialize (Hf (Z.to_nat (distance s i)) ltac:(unfold count_images in *; lia)). unfold p in Hf.
    by rewrite Z2Nat.id, Heq in Hf by lia. }
  destruct (find_first p _) as [o|] eqn:E; cbn [fmap option_fmap option_map].
  - destruct Hf as (Ho & Hp & Hmin).
    assert (Hdem : let j := (next_image s + Z.of_nat o) mod count_images s in
      0 ≤ j < count_images s ∧ image_ready s j = true ∧
      ∀ i, 0 ≤ i < count_images s → image_ready s i = true → distance s j ≤ distance s i).
    { pose proof (wf_count s Hw) as Hc. cbn zeta. split; [by apply Z.mod_pos_bound|].
      split; [exact Hp|]. intros i Hi Hr. rewrite offset_distance by (unfold count_images in *; lia || done).
      destruct (decide (distance s i < Z.of_nat o)) as [Hlt|]; [|lia]. exfalso.
      destruct (distance_offset s i Hw Hi) as [Hd Heq].
      specialize (Hmin (Z.to_nat (distance s i)) ltac:(lia)). unfold p in Hmin.
      rewrite Z2Nat.id, Heq in Hmin by lia. congruence. }
    destruct Hdem as (? & ? & ?). rewrite (bool_decide_eq_false_2 (Some _ = None)) by done.
    rewrite orb_false_r. destruct (background_ready s) eqn:Eb; cbn [andb].
    + destruct (bool_decide (opportunity s = 0)) eqn:Eo; breflect; [by split; [|left]|].
      do 2 (split; [done|]). done.
    + do 2 (split; [done|]). done.
  - rewrite (bool_decide_eq_true_2 (None = None)), orb_true_r, andb_true_r by done.
    destruct (background_ready s); split; auto.
Qed.

(** ** Executions *)

(** What [take] granted, read off its answer: [Ok(false)] is a refusal, and
    anything else a grant (the failure of a wake-up comes after the grant). *)
Definition taken (j : Z) (r : result bool) : option Selected :=
  match r with Ok false => None | _ => Some (Demand j) end.

(** What a round of the background waiter granted: the ledger counts it. *)
Definition waited (s s' : State) : option Selected :=
  if decide (background (counters s) < background (counters s')) then Some Background else None.

(** One transition of the scheduler: any image asks for a submission, whether
    it is granted or refused (with its follow-up readiness); a readiness change;
    a registration or a round of the background waiter. *)
Inductive sched_step : State → option Selected → State → Prop :=
  | step_take s j bytes more writable s' r :
      0 ≤ j < count_images s → Port_take s j bytes more writable = (s', r) →
      sched_step s (taken j r) s'
  | step_ready s j b writable :
      0 ≤ j < count_images s → sched_step s None (Port_ready s j b writable).1
  | step_register s s' :
      wait_background_start s = (s', Ok tt) → sched_step s None s'
  | step_round s bytes expired writable s' r :
      background_ready s = true → wait_background_round s bytes expired writable = (s', r) →
      sched_step s (waited s s') s'.

(** Runs with their grants, along which [Q] holds. *)
Inductive sched_run (Q : State → Prop) : State → list Selected → State → Prop :=
  | run_nil s : Q s → sched_run Q s [] s
  | run_cons s g s' gs s'' :
      Q s → sched_step s g s' → sched_run Q s' gs s'' →
      sched_run Q s (match g with Some x => x :: gs | None => gs end) s''.

Definition demands (gs : list Selected) : Z :=
  Z.of_nat (length (filter (λ g, g ≠ Background) gs)).

Lemma set_ready_wf s j b : wf s → wf (set_ready s j b).
Proof.
  intros (Hn & Hx & Ho). unfold wf, count_images, set_ready in *. cbn [images next_image opportunity].
  rewrite length_alter. split; [|done]. destruct (images s); [done|]. intros E%(f_equal length).
  rewrite length_alter in E. done.
Qed.

Lemma set_ready_lookup s j b i :
  0 ≤ j → 0 ≤ i → 0 ≤ j < count_images s →
  image_ready (set_ready s j b) i = if decide (i = j) then b else image_ready s i.
Proof.
  intros Hj Hi Hc. unfold image_ready, set_ready. cbn [images]. destruct (decide (i = j)) as [->|Hne].
  - rewrite list_lookup_alter_eq. unfold count_images in Hc.
    destruct (lookup_lt_is_Some_2 (images s) (Z.to_nat j)) as [im ->]; [lia|]. done.
  - by rewrite list_lookup_alter_ne by lia.
Qed.

(** A [take] is granted exactly to the image selected, and a refused one
    changes nothing. *)
Lemma take_spec s j bytes more writable s' r :
  wf s → Port_take s j bytes more writable = (s', r) →
  match taken j r with
  | Some _ =>
      State_selected s = Some (Demand j) ∧
      wf s' ∧ count_images s' = count_images s ∧ next_image s' = (j + 1) mod count_images s ∧
      opportunity s' = (opportunity s + 1) mod 4 ∧ background_ready s' = background_ready s
  | None => State_selected s ≠ Some (Demand j) ∧ s' = s
  end.
Proof.
  intros Hw. unfold Port_take. destruct (decide _) as [Hsel|Hsel]; [|by intros [= <- <-]].
  pose proof (wf_count s Hw) as Hc. intros [= <- <-].
  assert (∀ o : result (option Selected), taken j (o;; Ok true) = Some (Demand j)) as ->.
  { by intros [|?|]. }
  unfold State_grant, set_ready, count_images. cbn [images next_image opportunity background_ready counters].
  rewrite !length_alter. split_and!; try done.
  unfold wf, count_images. cbn [images next_image opportunity]. rewrite !length_alter. split_and!.
  - intros E%(f_equal length). rewrite !length_alter in E. unfold count_images in Hc.
    destruct (images s); [done|]. done.
  - apply Z.mod_pos_bound. exact Hc.
  - apply Z.mod_pos_bound. exact Hc.
  - apply Z.mod_pos_bound. lia.
  - apply Z.mod_pos_bound. lia.
Qed.

(** A round of the waiter grants exactly when the background is selected;
    otherwise it only withdraws the registration, if that. *)
Lemma round_spec s bytes expired writable s' r :
  wait_background_round s bytes expired writable = (s', r) →
  match waited s s' with
  | Some _ => State_selected s = Some Background ∧ images s' = images s ∧
              next_image s' = next_image s ∧ opportunity s' = (opportunity s + 1) mod 4
  | None => s' = s ∨ s' = set_background s false
  end.
Proof.
  unfold wait_background_round, waited. destruct (decide (State_selected s = _)) as [Hsel|Hsel].
  - intros [= <- _]. rewrite decide_True by (cbn; lia). done.
  - destruct expired; [intros [= <- _]; rewrite decide_False by (cbn; lia); by right|].
    destruct (Scheduler_notify s writable); intros [= <- _]; rewrite decide_False by (cbn; lia); tauto.
Qed.

(** A demand grant to another image brings the pointer closer. *)
Lemma distance_take s s' i j :
  wf s → 0 ≤ i < count_images s → 0 ≤ j < count_images s → j ≠ i →
  distance s j ≤ distance s i → count_images s' = count_images s →
  next_image s' = (j + 1) mod count_images s → distance s' i ≤ distance s i - 1.
Proof.
  intros Hw Hi Hj Hne Hd Hc Hn. pose proof (wf_count s Hw) as Hpos.
  destruct (distance_offset s i Hw Hi) as [Hdi Hei]. destruct (distance_offset s j Hw Hj) as [Hdj Hej].
  assert (distance s j ≠ distance s i) by congruence.
  assert (Heq : distance s' i = (distance s i - distance s j - 1) mod count_images s).
  { unfold distance at 1. rewrite Hc, Hn, Zminus_mod_idemp_r. unfold distance.
    rewrite (Z.mod_eq (i - next_image s)), (Z.mod_eq (j - next_image s)) by lia.
    replace (_ - _ - 1) with (i - (j + 1) + ((j - next_image s) / count_images s
      - (i - next_image s) / count_images s) * count_images s) by lia.
    by rewrite Z.mod_add by lia. }
  rewrite Heq. rewrite Z.mod_small by lia. lia.
Qed.

Lemma sched_step_wf s g s' : wf s → sched_step s g s' → wf s' ∧ count_images s' = count_images s.
Proof.
  intros Hw Hs. destruct Hs as [s j bytes more writable s' r Hj Ht | s j b writable Hj
    | s s' Hb | s bytes expired writable s' r Hbg Hround].
  - apply take_spec in Ht; [|done]. destruct (taken j r); [tauto|]. by destruct Ht as [_ ->].
  - split; [by apply set_ready_wf|]. unfold count_images. cbn. by rewrite length_alter.
  - unfold wait_background_start in Hb. destruct (background_ready s); [done|]. by injection Hb as <-.
  - apply round_spec in Hround. destruct (waited s s'); [|by destruct Hround as [->| ->]].
    destruct Hround as (_ & Hi & Hn & Ho), Hw as (W1 & W2 & W3). unfold wf, count_images.
    rewrite Hi, Hn, Ho. split_and!; [done | apply W2 | apply W2 | apply Z.mod_pos_bound; lia.. | done].
Qed.

Lemma taken_background j r : taken j r ≠ Some Background.
Proof. by destruct r as [[]|e|]. Qed.

Lemma waited_demand s s' j : waited s s' ≠ Some (Demand j).
Proof. unfold waited. by destruct (decide _). Qed.

(** Only a demand grant moves the rotation pointer, and it moves it behind the
    image selected. *)
Lemma sched_step_next s g s' :
  wf s → sched_step s g s' →
  match g with
  | Some (Demand j) => State_selected s = Some (Demand j) ∧ next_image s' = (j + 1) mod count_images s
  | _ => next_image s' = next_image s
  end.
Proof.
  intros Hw Hs. destruct Hs as [s j bytes more writable s' r Hj Ht| |s s' Hb|s bytes expired writable s' r Hbg Hround];
    [|done| |].
  - apply take_spec in Ht; [|done]. destruct r as [[]|e|]; cbn [taken] in *; [tauto | | tauto..].
    by destruct Ht as [_ ->].
  - unfold wait_background_start in Hb. destruct (background_ready s); [done|]. by injection Hb as <-.
  - apply round_spec in Hround. pose proof (waited_demand s s') as Hd.
    destruct (waited s s') as [[j|]|]; [by destruct (Hd j) | tauto | by destruct Hround as [->| ->]].
Qed.

Lemma step_distance i s g s' :
  wf s → 0 ≤ i < count_images s → image_ready s i = true → g ≠ Some (Demand i) → sched_step s g s' →
  distance s' i ≤ distance s i - match g with Some (Demand _) => 1 | _ => 0 end.
Proof.
  intros Hw Hi Hr Hg Hs. destruct (sched_step_wf s g s' Hw Hs) as [Hw' Hc].
  pose proof (sched_step_next s g s' Hw Hs) as Hn. destruct g as [[j|]|];
    [|unfold distance; rewrite Hc, Hn; lia..].
  destruct Hn as [Hsel Hnx]. pose proof (demand_choice s Hw) as Hd. rewrite Hsel in Hd.
  destruct Hd as (Hj & _ & _ & Hmin).
  apply (distance_take s s' i j Hw Hi Hj); [congruence | by apply Hmin | done | done].
Qed.

(** C39: demand is fair: from any state, an image that keeps asking and is not
    granted sees at most as many demand grants go to other images as there are
    places between the rotation pointer and it, hence fewer than the number of
    images, whatever the other images and the background owner do: any image
    may ask at any moment, in or out of its turn, and a grant is what [take]
    does not answer with a refusal. *)
Theorem demand_is_fair (i : Z) (s s' : State) (gs : list Selected) :
  wf s → 0 ≤ i < count_images s → sched_run (λ s, image_ready s i = true) s gs s' →
  Demand i ∉ gs → demands gs ≤ distance s i < count_images s.
Proof.
  intros Hw Hi Hrun Hg. split; [|by apply Z.mod_pos_bound, wf_count]. revert Hw Hi Hg.
  induction Hrun as [s|s g s' gs s'' Hq Hs _ IH]; intros Hw Hi Hg.
  { unfold demands. cbn. apply Z.mod_pos_bound, wf_count, Hw. }
  assert (Hgi : g ≠ Some (Demand i)).
  { intros ->. apply Hg. left. }
  assert (Hgs : Demand i ∉ gs).
  { intros Hin. apply Hg. destruct g; [by right | done]. }
  destruct (sched_step_wf s g s' Hw Hs) as [Hw' Hc].
  pose proof (step_distance i s g s' Hw Hi Hq Hgi Hs) as Hd.
  specialize (IH Hw' ltac:(lia) Hgs). unfold demands in *. destruct g as [[j|]|]; [| |lia].
  - rewrite filter_cons, decide_True by done. cbn [length]. lia.
  - rewrite filter_cons, decide_False by (intros Hf; by apply Hf). lia.
Qed.

(** The background owner gets every fourth opportunity: once it has
    registered, at most three demand grants precede its own, whatever the
    images ask for. *)
Lemma background_within_four (s s' : State) (gs : list Selected) :
  wf s → sched_run (λ s, background_ready s = true) s gs s' → Background ∉ gs →
  Z.of_nat (length gs) ≤ (4 - opportunity s) mod 4 ≤ 3.
Proof.
  intros Hw Hrun Hg. split; [|pose proof (Z.mod_pos_bound (4 - opportunity s) 4); lia]. revert Hw Hg.
  induction Hrun as [s|s g s' gs s'' Hq Hs Hrun IH]; intros Hw Hg.
  { cbn. apply Z.mod_pos_bound. lia. }
  assert (Hgs : Background ∉ gs).
  { intros Hin. apply Hg. destruct g; [by right | done]. }
  destruct (sched_step_wf s g s' Hw Hs) as [Hw' Hc]. specialize (IH Hw' Hgs).
  assert (Hq' : background_ready s' = true) by (by destruct Hrun).
  destruct Hs as [s j bytes more writable s' r Hj Ht | s j b writable Hj
    | s s' Hb | s bytes expired writable s' r Hbg Hround].
  - apply take_spec in Ht; [|done]. destruct (taken j r); [|by destruct Ht as [_ ->]].
    destruct Ht as (Hsel & _ & _ & _ & Hop & _).
    pose proof (demand_choice s Hw) as Hd. rewrite Hsel in Hd. destruct Hd as (_ & _ & Ho & _).
    specialize (Ho Hq). destruct Hw as (_ & _ & Hw). cbn [length]. rewrite Hop in IH.
    assert (Hm : (4 - (opportunity s + 1) mod 4) mod 4 = 3 - opportunity s ∧
                 (4 - opportunity s) mod 4 = 4 - opportunity s).
    { assert (opportunity s = 1 ∨ opportunity s = 2 ∨ opportunity s = 3) as [E|[E|E]] by lia;
        rewrite E; done. }
    lia.
  - exact IH.
  - unfold wait_background_start in Hb. rewrite Hq in Hb. done.
  - apply round_spec in Hround. unfold waited in *. destruct (decide _); [destruct Hg; left|].
    destruct Hround as [->| ->]; [done | exact IH].
Qed.

(** Two images and the background all asking. *)
Definition sample_scheduler : State :=
  {| images := replicate 2 {| ready := true; wake := false |}; next_image := 0; opportunity := 1;
     background_ready := true;
     counters := {| demand := 0; background := 0; borrowed_demand := 0; borrowed_background := 0;
                    demand_requested_bytes := 0; background_requested_bytes := 0 |} |}.

Lemma demand_is_fair_witness : demands [Demand 0] ≤ distance sample_scheduler 1 < 2.
Proof.
  apply (demand_is_fair 1 sample_scheduler (Port_take sample_scheduler 0 1 true true).1).
  - split; [discriminate | split; decide_now].
  - decide_now.
  - apply (run_cons _ _ (Some (Demand 0)) (Port_take sample_scheduler 0 1 true true).1 []).
    + reflexivity.
    + apply (step_take _ 0 1 true true _ (Ok true)); [split; decide_now | vm_compute; reflexivity].
    + apply run_nil. reflexivity.
  - intros [[=]|[]%elem_of_nil]%elem_of_cons.
Defined.
