(* ===== verification/Space.v ===== *)
(** * Disk accounting

    Models [crates/cas/core/src/space.rs] and the permits of
    [crates/cas/core/src/space/filesystem.rs]: one account of allocated and
    promised bytes, foreground and background reservations, the pressure
    hysteresis and the observation that settles a finished operation.  A
    reservation is owned by its caller; the account and the reservations that
    are alive make up the state of the theorems.  Filesystem observations are
    arguments. *)
From S2P Require Import Prelude Bytes.

Definition METADATA_MARGIN : Z := 16 * 1024 * 1024.

Record Limits : Type := { limit_capacity : Z; limit_reserve : Z }.

Definition Limits_new (capacity segment manifest_transaction : Z) : result Limits :=
  reserve ← ok_or (Error InvalidInput "disk reserve overflow")
    (n ← checked_mul 64 segment 3;
     n ← checked_add 64 n manifest_transaction;
     checked_add 64 n METADATA_MARGIN);
  if bool_decide (segment = 0) || bool_decide (manifest_transaction = 0)
     || bool_decide (capacity ≤ reserve)
  then invalid_input "disk capacity cannot preserve the progress reserve"
  else Ok {| limit_capacity := capacity; limit_reserve := reserve |}.

Record Status : Type := {
  allocated : Z;
  promised : Z;
  peak_used : Z;
  pressured : bool;
  background_active : bool;
  rejected : Z;
  failed : bool;
}.

Definition update_pressure (limits : Limits) (s : Status) : Status :=
  let used := allocated s + promised s in
  let percent := used * 100 in
  {| allocated := allocated s;
     promised := promised s;
     peak_used := Z.max (peak_used s) (Z.min used u64_max);
     pressured :=
       if decide (limit_capacity limits - limit_reserve limits ≤ used) then true
       else if decide (percent < limit_capacity limits * 60) then false
       else pressured s;
     background_active := background_active s;
     rejected := rejected s;
     failed := failed s |}.

Record Space : Type := { limits : Limits; status : Status }.

Definition Space_new (l : Limits) (allocated : Z) : result Space :=
  if bool_decide (limit_reserve l = 0) || bool_decide (limit_capacity l ≤ limit_reserve l)
     || bool_decide (limit_capacity l < allocated)
  then invalid_input "invalid initial disk accounting"
  else
    Ok {| limits := l;
          status := update_pressure l
            {| allocated := allocated; promised := 0; peak_used := allocated; pressured := false;
               background_active := false; rejected := 0; failed := false |} |}.

Record Reservation : Type := { remaining : Z; is_background : bool }.

Definition set_pressured (s : Status) (b : bool) : Status :=
  {| allocated := allocated s; promised := promised s; peak_used := peak_used s; pressured := b;
     background_active := background_active s; rejected := rejected s; failed := failed s |}.

Definition set_failed (s : Status) : Status :=
  {| allocated := allocated s; promised := promised s; peak_used := peak_used s;
     pressured := pressured s; background_active := background_active s; rejected := rejected s;
     failed := true |}.

Definition Space_reserve (s : Space) (bytes : Z) (bg : bool) : Space * result Reservation :=
  let st := status s in
  let used := saturating_add 64 (allocated st) (promised st) in
  let limit := if bg then limit_capacity (limits s)
               else limit_capacity (limits s) - limit_reserve (limits s) in
  if failed st then (s, other "disk account failed; explicit recovery required")
  else
    let denied := bool_decide (bytes = 0)
      || bool_decide (saturating_sub limit used < bytes)
      || (bg && (background_active st || bool_decide (limit_reserve (limits s) < bytes)))
      || (negb bg && pressured st) in
    if denied then
      let st := if negb bg && bool_decide (bytes ≤ limit)
                   && bool_decide (saturating_sub limit used < bytes)
                then set_pressured st true else st in
      ({| limits := limits s;
          status := {| allocated := allocated st; promised := promised st; peak_used := peak_used st;
                       pressured := pressured st; background_active := background_active st;
                       rejected := saturating_add 64 (rejected st) 1; failed := failed st |} |},
       Err (Error WouldBlock "disk admission waits for reclamation or the background owner"))
    else
      ({| limits := limits s;
          status := update_pressure (limits s)
            {| allocated := allocated st; promised := promised st + bytes; peak_used := peak_used st;
               pressured := pressured st; background_active := background_active st || bg;
               rejected := rejected st; failed := failed st |} |},
       Ok {| remaining := bytes; is_background := bg |}).

Definition Space_foreground (s : Space) (bytes : Z) := Space_reserve s bytes false.
Definition Space_background (s : Space) (bytes : Z) := Space_reserve s bytes true.

Definition Space_fail (s : Space) : Space :=
  {| limits := limits s; status := set_failed (status s) |}.

(** The free function [observed]: recheck the account after an observation. *)
Definition observed (l : Limits) (s : Status) : Status * result unit :=
  let s := update_pressure l s in
  if decide (limit_capacity l < allocated s + promised s)
  then (set_failed s, other "observed filesystem allocation exceeds capacity")
  else (s, Ok tt).

Definition set_allocated (s : Status) (a : Z) : Status :=
  {| allocated := a; promised := promised s; peak_used := peak_used s; pressured := pressured s;
     background_active := background_active s; rejected := rejected s; failed := failed s |}.

Definition Space_observed (s : Space) (a : Z) : Space * result unit :=
  let '(st, r) := observed (limits s) (set_allocated (status s) a) in
  ({| limits := limits s; status := st |}, r).

(** [finish], [unknown] and [drop] consume the reservation.  The subtraction of
    the promise panics if it underflows. *)
Definition Reservation_finish (s : Space) (r : Reservation) (previous a : Z)
    : result (Space * result unit) :=
  let st := status s in
  let excess := bool_decide (remaining r < saturating_sub a previous) in
  p ← expect (checked_sub (promised st) (remaining r));
  let st := {| allocated := a; promised := p; peak_used := peak_used st; pressured := pressured st;
               background_active := if is_background r then false else background_active st;
               rejected := rejected st; failed := failed st |} in
  let '(st, seen) := observed (limits s) st in
  match seen with
  | Ok _ =>
      if excess
      then Ok ({| limits := limits s; status := set_failed st |},
               other "observed output exceeds its disk promise")
      else Ok ({| limits := limits s; status := st |}, Ok tt)
  | Err e => Ok ({| limits := limits s; status := st |}, Err e)
  | Panic => Panic
  end.

(** The promise stays charged to the failed account. *)
Definition Reservation_unknown (s : Space) (r : Reservation) : Space := Space_fail s.

Definition Reservation_drop (s : Space) (r : Reservation) : result Space :=
  let st := status s in
  p ← expect (checked_sub (promised st) (remaining r));
  Ok {| limits := limits s;
        status := update_pressure (limits s)
          {| allocated := allocated st; promised := p; peak_used := peak_used st;
             pressured := pressured st;
             background_active := if is_background r then false else background_active st;
             rejected := rejected st; failed := failed st |} |}.

(** ** Permits *)

(** [Governor::lock]: a failed account refuses every owner. *)
Definition Governor_lock (s : Space) : result unit :=
  require (negb (failed (status s))) "filesystem account failed; explicit recovery required".

(** Dropping a reservation that [finish] or [unknown] has emptied. *)
Definition drop_emptied (s : Space) : Space :=
  {| limits := limits s; status := update_pressure (limits s) (status s) |}.

(** [Attempt::finish] with the observation of the filesystem. *)
Definition Attempt_finish (s : Space) (r : Reservation) (previous : Z) (sample : result Z)
    : result (Space * result unit) :=
  match sample with
  | Ok a => '(s, seen) ← Reservation_finish s r previous a; Ok (drop_emptied s, seen)
  | Err e => Ok (drop_emptied (Reservation_unknown s r), Err e)
  | Panic => Panic
  end.

(** The operation unwound: the attempt is settled and the account fails. *)
Definition Attempt_drop (s : Space) (r : Reservation) (previous : Z) (sample : result Z)
    : result Space :=
  '(s, _) ← Attempt_finish s r previous sample; Ok (Space_fail s).

(** [Governor::refresh] under the owner lock. *)
Definition Governor_refresh (s : Space) (sample : result Z) : Space * result Z :=
  match Governor_lock s with
  | Ok _ =>
      match sample with
      | Ok a => match Space_observed s a with
                | (s', Ok _) => (s', Ok a)
                | (s', Err e) => (Space_fail s', Err e)
                | (s', Panic) => (s', Panic)
                end
      | Err e => (Space_fail s, Err e)
      | Panic => (s, Panic)
      end
  | Err e => (s, Err e)
  | Panic => (s, Panic)
  end.

(** ** The account and its live reservations *)

Record Account : Type := {
  space : Space;
  live : list Reservation;
  (** promises of attempts whose outcome could not be observed *)
  unknown : Z;
}.

(** One call on the account, with the outcome its caller sees. *)
Inductive space_step : Account → Account → Prop :=
  | step_reserved w bytes bg s r :
      0 ≤ bytes → Space_reserve (space w) bytes bg = (s, Ok r) →
      space_step w {| space := s; live := r :: live w; unknown := unknown w |}
  | step_denied w bytes bg s e :
      0 ≤ bytes → Space_reserve (space w) bytes bg = (s, Err e) →
      space_step w {| space := s; live := live w; unknown := unknown w |}
  | step_dropped w pre r post s :
      live w = pre ++ r :: post → Reservation_drop (space w) r = Ok s →
      space_step w {| space := s; live := pre ++ post; unknown := unknown w |}
  | step_finished w pre r post previous a s res :
      live w = pre ++ r :: post → 0 ≤ a →
      Attempt_finish (space w) r previous (Ok a) = Ok (s, res) →
      space_step w {| space := s; live := pre ++ post; unknown := unknown w |}
  | step_unobserved w pre r post previous e s res :
      live w = pre ++ r :: post →
      Attempt_finish (space w) r previous (Err e) = Ok (s, res) →
      space_step w {| space := s; live := pre ++ post; unknown := unknown w + remaining r |}
  | step_unwound w pre r post previous a s :
      live w = pre ++ r :: post → 0 ≤ a → Attempt_drop (space w) r previous (Ok a) = Ok s →
      space_step w {| space := s; live := pre ++ post; unknown := unknown w |}
  | step_refreshed w sample s res :
      (∀ a, sample = Ok a → 0 ≤ a) → Governor_refresh (space w) sample = (s, res) →
      space_step w {| space := s; live := live w; unknown := unknown w |}.

Inductive space_reachable (l : Limits) (initial : Z) : Account → Prop :=
  | reach_new s :
      Space_new l initial = Ok s →
      space_reachable l initial {| space := s; live := []; unknown := 0 |}
  | reach_step w w' :
      space_reachable l initial w → space_step w w' → space_reachable l initial w'.

Definition backgrounds (l : list Reservation) : Z :=
  sumZ ((λ r, Z.b2z (is_background r)) <$> l).

Definition promises (l : list Reservation) : Z := sumZ (remaining <$> l).

Record space_inv (l : Limits) (w : Account) : Prop := {
  si_limits : limits (space w) = l;
  si_live : Forall (λ r, 0 ≤ remaining r) (live w);
  si_allocated : 0 ≤ allocated (status (space w));
  si_promised : promised (status (space w)) = promises (live w) + unknown w;
  si_unknown : 0 ≤ unknown w;
  si_single : 0 ≤ backgrounds (live w) ≤ 1;
  si_active : backgrounds (live w) = 1 → background_active (status (space w)) = true;
  si_failed : failed (status (space w)) = false →
    unknown w = 0 ∧
    allocated (status (space w)) + promised (status (space w)) ≤ limit_capacity l;
}.

Lemma promises_app a b : promises (a ++ b) = promises a + promises b.
Proof. unfold promises. by rewrite fmap_app, sumZ_app. Qed.

Lemma backgrounds_app a b : backgrounds (a ++ b) = backgrounds a + backgrounds b.
Proof. unfold backgrounds. by rewrite fmap_app, sumZ_app. Qed.

Lemma promises_nonneg l : Forall (λ r, 0 ≤ remaining r) l → 0 ≤ promises l.
Proof. unfold promises. induction 1; cbn in *; lia. Qed.

Lemma backgrounds_nonneg l : 0 ≤ backgrounds l.
Proof. unfold backgrounds. induction l as [|r l IH]; cbn in *; [lia|]. destruct (is_background r); cbn; lia. Qed.

(** Removing one reservation from the live ones. *)
Lemma live_split w l pre r post :
  space_inv l w → live w = pre ++ r :: post →
  0 ≤ remaining r ∧ Forall (λ r, 0 ≤ remaining r) (pre ++ post) ∧
  promised (status (space w)) = remaining r + promises (pre ++ post) + unknown w ∧
  0 ≤ promises (pre ++ post) ∧ 0 ≤ unknown w ∧
  backgrounds (pre ++ post) = backgrounds (live w) - Z.b2z (is_background r) ∧
  0 ≤ backgrounds (pre ++ post) ≤ 1.
Proof.
  intros [_ Hl _ Hp Hu Hs _ _] E. rewrite E in *. apply Forall_app in Hl as [H1 H2].
  apply Forall_cons in H2 as [Hr H2].
  assert (Hf : Forall (λ r, 0 ≤ remaining r) (pre ++ post)) by (by apply Forall_app).
  pose proof (promises_nonneg _ Hf). pose proof (backgrounds_nonneg (pre ++ post)).
  rewrite Hp, !promises_app in *. rewrite !backgrounds_app in *.
  change (promises (r :: post)) with (remaining r + promises post) in *.
  change (backgrounds (r :: post)) with (Z.b2z (is_background r) + backgrounds post) in *.
  destruct (is_background r); cbn [Z.b2z] in *; split_and!; try done; lia.
Qed.

(** The Rust types of the limits. *)
Definition Limits_ok (l : Limits) : Prop := fits 64 (limit_capacity l) ∧ fits 64 (limit_reserve l).

Lemma Space_new_inv l initial s :
  0 ≤ initial → Space_new l initial = Ok s →
  space_inv l {| space := s; live := []; unknown := 0 |}.
Proof.
  intros H0. unfold Space_new. destruct (_ || _) eqn:E; [done|]. intros [= <-]. breflect.
  split; cbn; try done; lia.
Qed.

(** A granted reservation fits under its limit. *)
Lemma reserve_granted s bytes bg s' r :
  Limits_ok (limits s) → 0 ≤ allocated (status s) + promised (status s) →
  allocated (status s) + promised (status s) ≤ limit_capacity (limits s) →
  0 ≤ bytes → Space_reserve s bytes bg = (s', Ok r) →
  r = {| remaining := bytes; is_background := bg |} ∧ failed (status s) = false ∧
  0 < bytes ∧ allocated (status s) + promised (status s) + bytes ≤
    limit_capacity (limits s) - (if bg then 0 else limit_reserve (limits s)) ∧
  (if bg then background_active (status s) = false ∧ bytes ≤ limit_reserve (limits s)
   else pressured (status s) = false) ∧
  s' = {| limits := limits s; status := update_pressure (limits s)
    {| allocated := allocated (status s); promised := promised (status s) + bytes;
       peak_used := peak_used (status s); pressured := pressured (status s);
       background_active := background_active (status s) || bg; rejected := rejected (status s);
       failed := failed (status s) |} |}.
Proof.
  intros [[_ Hc] [Hr _]] H0 Hcap Hb. unfold Space_reserve.
  destruct (failed (status s)) eqn:Ef; [done|]. destruct (_ || _ || _ || _) eqn:Ed; [done|].
  intros [= <- <-]. rewrite !orb_false_iff in Ed. destruct Ed as [[[E1 E2] E3] E4]. breflect.
  unfold saturating_sub, saturating_add in *.
  split_and!; try done; try lia.
  - destruct bg; cbn [andb negb] in *; lia.
  - destruct bg; cbn [andb negb] in *; [|done]. breflect. split; [done | lia].
Qed.

Lemma reserve_inv l w bytes bg s r :
  Limits_ok l → space_inv l w → 0 ≤ bytes → Space_reserve (space w) bytes bg = (s, Ok r) →
  space_inv l {| space := s; live := r :: live w; unknown := unknown w |}.
Proof.
  intros Hok [Hlim Hl Ha Hp Hu Hs Hact Hf] Hb Hres. pose proof (promises_nonneg _ Hl).
  assert (Ef : failed (status (space w)) = false).
  { unfold Space_reserve in Hres. by destruct (failed _). }
  destruct (Hf Ef) as [Hu0 Hcap]. rewrite <- Hlim in Hok, Hcap.
  destruct (reserve_granted _ _ _ _ _ Hok ltac:(lia) Hcap Hb Hres) as (-> & _ & Hpos & Hfit & Hbg & ->).
  rewrite Hlim in *. destruct Hok as [_ [Hr _]].
  split; cbn [space live unknown limits status update_pressure allocated promised failed
    background_active]; try done.
  - by constructor.
  - change (promises (_ :: live w)) with (bytes + promises (live w)). lia.
  - change (backgrounds (_ :: live w)) with (Z.b2z bg + backgrounds (live w)).
    destruct bg; cbn [Z.b2z] in *; [|lia]. destruct Hbg as [Hbg _].
    assert (backgrounds (live w) ≠ 1) by (intros H1%Hact; congruence). lia.
  - change (backgrounds (_ :: live w)) with (Z.b2z bg + backgrounds (live w)).
    destruct bg; cbn [Z.b2z]; [by rewrite orb_true_r|]. intros H1. rewrite Hact by lia. done.
  - intros _. split; [done|]. destruct bg; lia.
Qed.

Lemma denied_inv l w bytes bg s e :
  space_inv l w → Space_reserve (space w) bytes bg = (s, Err e) →
  space_inv l {| space := s; live := live w; unknown := unknown w |}.
Proof.
  intros Hi. unfold Space_reserve. destruct (failed (status (space w))) eqn:Ef.
  - intros [= <- _]. by destruct w.
  - destruct (_ || _ || _ || _); [|done]. intros [= <- _]. destruct Hi as [Hlim Hl Ha Hp Hu Hs Hact Hf].
    destruct (negb bg && _ && _); split; cbn [space live unknown limits status set_pressured allocated
      promised failed background_active]; try done.
Qed.

Lemma settled_inv l w pre r post st u :
  space_inv l w → live w = pre ++ r :: post → 0 ≤ allocated st →
  promised st = promises (pre ++ post) + u → 0 ≤ u →
  background_active st = (if is_background r then false else background_active (status (space w))) →
  (failed st = false → u = 0 ∧ allocated st + promised st ≤ limit_capacity l) →
  space_inv l {| space := {| limits := l; status := st |}; live := pre ++ post; unknown := u |}.
Proof.
  intros Hi E Ha Hp Hu Hb Hf. destruct (live_split w l pre r post Hi E) as (_ & Hl & _ & _ & _ & Hbg & H01).
  split; cbn [space live unknown limits status]; try done. intros H1. rewrite Hb.
  destruct Hi as [_ _ _ _ _ Hs Hact _]. destruct (is_background r); cbn [Z.b2z] in Hbg; [lia|].
  apply Hact. lia.
Qed.

Lemma drop_inv l w pre r post :
  space_inv l w → live w = pre ++ r :: post →
  ∃ s, Reservation_drop (space w) r = Ok s ∧
    space_inv l {| space := s; live := pre ++ post; unknown := unknown w |}.
Proof.
  intros Hi E. destruct (live_split w l pre r post Hi E) as (Hr & _ & Hp & Hpp & Hu & _).
  unfold Reservation_drop. rewrite (proj2 (checked_sub_Some _ _ _)) by (split; [done | lia]).
  cbn [expect mbind result_mbind result_bind]. eexists. split; [done|].
  rewrite (si_limits _ _ Hi). eapply settled_inv; [exact Hi | exact E | | | | |];
    cbn [update_pressure allocated promised background_active failed]; try done.
  - apply Hi.
  - lia.
  - intros Hf. destruct (si_failed _ _ Hi Hf). lia.
Qed.

Lemma finish_inv l w pre r post previous a :
  space_inv l w → live w = pre ++ r :: post → 0 ≤ a →
  ∃ s res, Attempt_finish (space w) r previous (Ok a) = Ok (s, res) ∧ res ≠ Panic ∧
    space_inv l {| space := s; live := pre ++ post; unknown := unknown w |}.
Proof.
  intros Hi E H0. destruct (live_split w l pre r post Hi E) as (Hr & _ & Hp & Hpp & Hu & _).
  unfold Attempt_finish, Reservation_finish. rewrite (proj2 (checked_sub_Some _ _ _)) by (split; [done | lia]).
  cbn [expect mbind result_mbind result_bind]. rewrite (si_limits _ _ Hi). unfold observed.
  set (st := {| allocated := a; promised := _ |}).
  assert (Hst : ∀ f, f = true ∨ (f = failed (status (space w)) ∧
    allocated st + promised st ≤ limit_capacity l) →
    space_inv l {| space := drop_emptied {| limits := l; status := {| allocated := a; promised := promised st;
      peak_used := peak_used (update_pressure l st); pressured := pressured (update_pressure l st);
      background_active := background_active st; rejected := rejected st; failed := f |} |};
      live := pre ++ post; unknown := unknown w |}).
  { intros f Hf. unfold drop_emptied. cbn [limits status]. eapply settled_inv; [exact Hi | exact E | | | | |];
      cbn [update_pressure allocated promised background_active failed]; try done.
    - unfold st. cbn. lia.
    - intros ->. destruct Hf as [?|[Hf Hc]]; [done|]. symmetry in Hf.
      destruct (si_failed _ _ Hi Hf). split; [done|]. exact Hc. }
  change (allocated (update_pressure l st)) with (allocated st).
  change (promised (update_pressure l st)) with (promised st).
  destruct (decide (limit_capacity l < allocated st + promised st)) as [Hx|Hx].
  - cbn [mbind result_mbind result_bind]. eexists _, _. split; [done|]. split; [done|].
    apply Hst. by left.
  - destruct (bool_decide _); cbn [mbind result_mbind result_bind]; eexists _, _;
      (split; [done|]; split; [done|]); apply Hst; [by left|]. right. split; [done | lia].
Qed.

Lemma unknown_inv l w pre r post :
  space_inv l w → live w = pre ++ r :: post →
  space_inv l {| space := drop_emptied (Reservation_unknown (space w) r); live := pre ++ post;
                 unknown := unknown w + remaining r |}.
Proof.
  intros Hi E. destruct (live_split w l pre r post Hi E) as (Hr & Hl & Hp & Hpp & Hu & Hbg & H01).
  destruct Hi as [Hlim _ Ha _ _ Hs Hact Hf].
  split; cbn [space live unknown drop_emptied Reservation_unknown Space_fail update_pressure set_failed
    limits status allocated promised background_active failed]; try done; try lia.
  intros H1. apply Hact. destruct (is_background r); cbn in Hbg; lia.
Qed.

Lemma fail_inv l w :
  space_inv l w → space_inv l {| space := Space_fail (space w); live := live w; unknown := unknown w |}.
Proof. intros []. by split. Qed.

Lemma observed_inv l w a :
  space_inv l w → 0 ≤ a →
  space_inv l {| space := (Space_observed (space w) a).1; live := live w; unknown := unknown w |}.
Proof.
  intros [Hlim Hl Ha Hp Hu Hs Hact Hf] H0. unfold Space_observed, observed. rewrite Hlim.
  destruct (decide _) as [Hx|Hx]; cbn [fst update_pressure set_allocated set_failed allocated promised] in *;
    split; cbn [space live unknown limits status update_pressure set_failed set_allocated allocated
      promised background_active failed]; try done; try lia.
  intros Hf0. destruct (Hf Hf0). lia.
Qed.

Lemma refresh_inv l w sample s res :
  space_inv l w → (∀ a, sample = Ok a → 0 ≤ a) → Governor_refresh (space w) sample = (s, res) →
  space_inv l {| space := s; live := live w; unknown := unknown w |}.
Proof.
  intros Hi Hs. unfold Governor_refresh. assert (Hw : w = {| space := space w; live := live w; unknown := unknown w |})
    by (by destruct w).
  destruct (Governor_lock (space w)); [|by intros [= <- _]; rewrite <- Hw..].
  destruct sample as [x| |].
  - pose proof (observed_inv l w x Hi (Hs x eq_refl)) as Ho.
    destruct (Space_observed (space w) x) as [s' [| |]]; cbn [fst] in Ho; intros [= <- _];
      [done | exact (fail_inv _ _ Ho) | done].
  - intros [= <- _]. by apply fail_inv.
  - intros [= <- _]. by rewrite <- Hw.
Qed.

Lemma space_reachable_inv l initial w :
  Limits_ok l → 0 ≤ initial → space_reachable l initial w → space_inv l w.
Proof.
  intros Hok H0. induction 1 as [s Hs|w w' _ IH Hs]; [by eapply Space_new_inv|].
  destruct Hs as [w bytes bg s r Hb Hr | w bytes bg s e Hb Hr | w pre r post s E Hd
    | w pre r post previous a s res E Ha Hf | w pre r post previous e s res E Hf
    | w pre r post previous a s E Ha Hf | w sample s res Hs Hr].
  - by eapply reserve_inv.
  - by eapply denied_inv.
  - destruct (drop_inv l w pre r post IH E) as (s' & Hd' & Hi). rewrite Hd in Hd'. by injection Hd' as ->.
  - destruct (finish_inv l w pre r post previous a IH E Ha) as (s' & res' & Hf' & _ & Hi).
    rewrite Hf in Hf'. by injection Hf' as -> ->.
  - injection Hf as <- _. by apply unknown_inv.
  - destruct (finish_inv l w pre r post previous a IH E Ha) as (s' & res' & Hf' & _ & Hi).
    unfold Attempt_drop in Hf. rewrite Hf' in Hf. injection Hf as <-. exact (fail_inv _ _ Hi).
  - by eapply refresh_inv.
Qed.

(** C24: the disk account balances.  After any interleaving of reservations,
    refusals, cancellations, finished, unobservable and unwound operations and
    refreshes, the promised bytes are exactly those of the live reservations
    and of the unobservable operations; a healthy account never commits more
    than the capacity; at most one background reservation is alive; and
    settling a live reservation never underflows. *)
Theorem space_account_balances (l : Limits) (initial : Z) (w : Account) :
  Limits_ok l → 0 ≤ initial → space_reachable l initial w →
  promised (status (space w)) = promises (live w) + unknown w ∧
  (failed (status (space w)) = false →
     unknown w = 0 ∧ allocated (status (space w)) + promised (status (space w)) ≤ limit_capacity l) ∧
  backgrounds (live w) ≤ 1 ∧
  (∀ r, r ∈ live w → Reservation_drop (space w) r ≠ Panic ∧
     ∀ previous a, 0 ≤ a → Attempt_finish (space w) r previous (Ok a) ≠ Panic).
Proof.
  intros Hok H0 Hr. pose proof (space_reachable_inv l initial w Hok H0 Hr) as Hi.
  split_and!; [apply Hi | apply Hi | apply Hi |].
  intros r (pre & post & E)%list_elem_of_split. split.
  - destruct (drop_inv l w pre r post Hi E) as (s & -> & _). done.
  - intros previous a Ha. destruct (finish_inv l w pre r post previous a Hi E Ha) as (s & res & -> & _). done.
Qed.

(** Foreground writes never spend the progress reserve: a foreground
    reservation is granted only to a healthy account that is not under
    pressure, and leaves the committed bytes within the capacity less the
    reserve; a background one is granted only to the single owner, for at most
    the reserve, within the capacity. *)
Lemma reserve_is_preserved (l : Limits) (initial bytes : Z) (bg : bool) (w : Account)
    (s : Space) (r : Reservation) :
  Limits_ok l → 0 ≤ initial → space_reachable l initial w → 0 ≤ bytes →
  Space_reserve (space w) bytes bg = (s, Ok r) →
  remaining r = bytes ∧ 0 < bytes ∧ failed (status (space w)) = false ∧
  allocated (status s) = allocated (status (space w)) ∧
  if bg
  then backgrounds (live w) = 0 ∧ bytes ≤ limit_reserve l ∧
       allocated (status s) + promised (status s) ≤ limit_capacity l
  else pressured (status (space w)) = false ∧
       allocated (status s) + promised (status s) ≤ limit_capacity l - limit_reserve l.
Proof.
  intros Hok H0 Hr Hb Hres. pose proof (space_reachable_inv l initial w Hok H0 Hr) as Hi.
  assert (Ef : failed (status (space w)) = false).
  { unfold Space_reserve in Hres. by destruct (failed _). }
  destruct Hi as [Hlim Hl Ha Hp Hu Hs Hact Hf]. pose proof (promises_nonneg _ Hl).
  destruct (Hf Ef) as [Hu0 Hcap]. rewrite <- Hlim in Hok, Hcap.
  destruct (reserve_granted _ _ _ _ _ Hok ltac:(lia) Hcap Hb Hres) as (-> & _ & Hpos & Hfit & Hbg & ->).
  rewrite Hlim in *. cbn [remaining status update_pressure allocated promised].
  split_and!; try done. destruct bg; [|split; [done | lia]]. destruct Hbg as [Hbg ?].
  assert (backgrounds (live w) ≠ 1) by (intros Hone%Hact; congruence). split_and!; lia.
Qed.

(** Pressure has hysteresis: every settlement of the account (grant,
    cancellation or observation) raises the pressure when the committed bytes
    reach the capacity less the reserve, clears it only below 60% of the
    capacity, and keeps it in between. *)
Lemma pressure_hysteresis (l : Limits) (s : Status) :
  let used := allocated s + promised s in
  let s' := update_pressure l s in
  allocated s' = allocated s ∧ promised s' = promised s ∧
  (limit_capacity l - limit_reserve l ≤ used → pressured s' = true) ∧
  (used < limit_capacity l - limit_reserve l → used * 100 < limit_capacity l * 60 → pressured s' = false) ∧
  (used < limit_capacity l - limit_reserve l → limit_capacity l * 60 ≤ used * 100 →
   pressured s' = pressured s) ∧
  update_pressure l s' = s'.
Proof.
  cbn zeta. unfold update_pressure. cbn [allocated promised pressured peak_used background_active rejected failed].
  split_and!; try done.
  - intros. by rewrite decide_True.
  - intros. rewrite decide_False, decide_True by lia. done.
  - intros. rewrite !decide_False by lia. done.
  - f_equal; [lia|]. repeat case_decide; done.
Qed.

Definition sample_limits : Limits := {| limit_capacity := 1000; limit_reserve := 200 |}.

Definition sample_space : Space :=
  unwrap_or {| limits := sample_limits; status := {| allocated := 0; promised := 0; peak_used := 0;
    pressured := false; background_active := false; rejected := 0; failed := true |} |}
    (Space_new sample_limits 590).

Definition sample_granted : Account :=
  {| space := (Space_foreground sample_space 100).1;
     live := [{| remaining := 100; is_background := false |}]; unknown := 0 |}.

Lemma sample_granted_reachable : space_reachable sample_limits 590 sample_granted.
Proof.
  eapply reach_step; [apply (reach_new _ _ sample_space); reflexivity|].
  exact (step_reserved {| space := sample_space; live := []; unknown := 0 |} 100 false _ _
    ltac:(lia) (pair_snd _ _ eq_refl)).
Qed.

Lemma space_account_balances_witness :
  promised (status (space sample_granted)) = 100 ∧ backgrounds (live sample_granted) ≤ 1.
Proof.
  destruct (space_account_balances sample_limits 590 sample_granted) as (H1 & _ & H2 & _).
  - split; decide_now.
  - lia.
  - exact sample_granted_reachable.
  - split; [exact H1 | exact H2].
Defined.
