(* ===== verification/Segments.v ===== *)
(** * Segment tickets

    Models [crates/cas/core/src/segments.rs]: the names of segment files, the
    scan of the names a store retains and the allocator of segment numbers.
    File names are byte strings; the directory listing and the outcome of
    creating a file are arguments.  The theorems show that a name determines
    its number, that the scan sees every retained ticket, and that allocation
    never hands out a number twice. *)
From S2P Require Import Prelude Bytes ChunkIndex.

(** ** Names *)

Definition PREFIX : bytes := Eval vm_compute in ascii_bytes "segment-".
Definition SUFFIX : bytes := Eval vm_compute in ascii_bytes ".v2".
Definition REJECTED : bytes := Eval vm_compute in ascii_bytes "rejected".
Definition FROM : bytes := Eval vm_compute in ascii_bytes "-from-".

(** The [w] lowest decimal digits, most significant first. *)
Fixpoint digits (w : nat) (n : Z) : bytes :=
  match w with
  | O => []
  | S w' => digits w' (n / 10) ++ [48 + n mod 10]
  end.

(** [{number:020}]: a [u64] has at most twenty digits. *)
Definition name (number : Z) : bytes := PREFIX ++ digits 20 number ++ SUFFIX.

Definition is_ascii_digit (b : Z) : bool := bool_decide (48 ≤ b ≤ 57).

Definition strip_prefix (prefix s : bytes) : option bytes :=
  if decide (take (length prefix) s = prefix) then Some (drop (length prefix) s) else None.

(** [digits.parse::<u64>()]. *)
Definition parse_digits (s : bytes) : Z := fold_left (λ n b, n * 10 + (b - 48)) s 0.

Definition parse_u64 (s : bytes) : option Z :=
  let n := parse_digits s in
  if decide (n < 2 ^ 64) then Some n else None.

Definition number (s : bytes) : option Z :=
  rest ← strip_prefix PREFIX s;
  digits ← (if decide (length rest < 20)%nat then None else Some (take 20 rest));
  if negb (forallb is_ascii_digit digits) then None
  else
    value ← parse_u64 digits;
    if decide (value ≠ 0) then Some value else None.

(** ** Tickets *)

Record Status : Type := { highest : Z; ticket_failed : bool }.

(** [create] is called with the new number under the allocator's lock: it
    changes the world it runs in (the store's directory, say) and answers
    whether the file was created and synced.  The allocator stays failed when
    it did not. *)
Definition Tickets_allocate {W T} (s : Status) (create : Z → W → W * result T) (w : W)
    : Status * W * result T :=
  if ticket_failed s then (s, w, other "segment allocator failed; explicit recovery required")
  else
    match n ← checked_add 64 (highest s) 1; if decide (n ≤ MAX_SEGMENT) then Some n else None with
    | None => (s, w, other "segment tickets exhausted")
    | Some next =>
        let '(w', r) := create next w in
        match r with
        | Ok owner => ({| highest := next; ticket_failed := false |}, w', Ok owner)
        | Err e => ({| highest := highest s; ticket_failed := true |}, w', Err e)
        | Panic => ({| highest := highest s; ticket_failed := true |}, w', Panic)
        end
    end.

(** ** The scan of retained names *)

(** A directory entry: the archive directory with its files, or a name (None
    if it is not UTF-8) with whether it is a regular file. *)
Inductive DirEntry : Type :=
  | Archives (files : list (option bytes * bool))
  | Plain (filename : option bytes) (is_file : bool).

Record Scan : Type := { scan_highest : Z; scan_live : list Z }.

Definition Scan_observe (s : Scan) (filename : bytes) : result (Scan * Z) :=
  n ← ok_or (Error InvalidData "invalid segment ticket")
        (n ← number filename; if decide (n ≤ MAX_SEGMENT) then Some n else None);
  Ok ({| scan_highest := Z.max (scan_highest s) n; scan_live := scan_live s |}, n).

Definition starts_with (prefix s : bytes) : bool := bool_decide (take (length prefix) s = prefix).

Fixpoint Scan_archives (s : Scan) (files : list (option bytes * bool)) : result Scan :=
  match files with
  | [] => Ok s
  | (filename, is_file) :: files' =>
      filename ← ok_or (Error Other "archive filename encoding") filename;
      '(s, n) ← Scan_observe s filename;
      require (starts_with (name n ++ FROM) filename && is_file)
        "invalid segment archive filename/type";;
      Scan_archives s files'
  end.

(** [reserved] is the answer of the metadata budget for the table of live
    tickets. *)
Fixpoint Scan_directory (reserved : bool) (s : Scan) (files : list DirEntry) : result Scan :=
  match files with
  | [] => Ok s
  | Archives archived :: files' =>
      s ← Scan_archives s archived;
      Scan_directory reserved s files'
  | Plain filename is_file :: files' =>
      filename ← ok_or (Error Other "segment filename encoding") filename;
      '(s, n) ← Scan_observe s filename;
      require (bool_decide (filename = name n) && is_file) "invalid live segment filename/type";;
      require (bool_decide (find_first (λ old, bool_decide (old = n)) (scan_live s) = None))
        "duplicate live segment ticket";;
      (if reserved then Ok tt else out_of_memory "segment scan metadata budget exhausted");;
      Scan_directory reserved
        {| scan_highest := scan_highest s; scan_live := n :: scan_live s |} files'
  end.

(** [Tickets::open] over the store directory and the staging directories. *)
Fixpoint Scan_directories (reserved : bool) (s : Scan) (directories : list (list DirEntry))
    : result Scan :=
  match directories with
  | [] => Ok s
  | files :: directories' =>
      s ← Scan_directory reserved s files;
      Scan_directories reserved s directories'
  end.

Definition Tickets_open (reserved : bool) (directories : list (list DirEntry)) : result Status :=
  scan ← Scan_directories reserved {| scan_highest := 0; scan_live := [] |} directories;
  Ok {| highest := scan_highest scan; ticket_failed := false |}.

(** ** Names and numbers *)

Lemma length_digits w n : length (digits w n) = w.
Proof. revert n. induction w as [|w IH]; intros n; cbn; [done|]. rewrite length_app, IH. cbn. lia. Qed.

Lemma digits_ascii w n : forallb is_ascii_digit (digits w n) = true.
Proof.
  revert n. induction w as [|w IH]; intros n; cbn; [done|]. rewrite forallb_app, IH. cbn.
  unfold is_ascii_digit. rewrite bool_decide_eq_true_2; [done|].
  pose proof (Z.mod_pos_bound n 10). lia.
Qed.

Lemma parse_digits_digits w n : 0 ≤ n < 10 ^ Z.of_nat w → parse_digits (digits w n) = n.
Proof.
  revert n. induction w as [|w IH]; intros n Hn.
  { change (10 ^ Z.of_nat 0) with 1 in Hn. cbn. lia. }
  cbn [digits]. unfold parse_digits in *. rewrite fold_left_app. cbn [fold_left]. rewrite IH.
  - pose proof (Z.div_mod n 10). lia.
  - replace (Z.of_nat (S w)) with (Z.of_nat w + 1) in Hn by lia. rewrite Z.pow_add_r in Hn by lia.
    split; [apply Z.div_pos; lia|]. apply Z.div_lt_upper_bound; lia.
Qed.

Lemma number_name n suffix :
  0 < n < 2 ^ 64 → number (PREFIX ++ digits 20 n ++ suffix) = Some n.
Proof.
  intros Hn. unfold number, strip_prefix.
  rewrite (take_app_length' PREFIX), decide_True by done. cbn [mbind option_bind].
  rewrite drop_app_length by done. cbn [mbind option_bind].
  rewrite decide_False by (rewrite length_app, length_digits; lia). cbn [mbind option_bind].
  rewrite take_app_length' by (by rewrite length_digits). rewrite digits_ascii. cbn [negb].
  unfold parse_u64. rewrite parse_digits_digits by lia. rewrite decide_True by lia.
  cbn [mbind option_bind]. rewrite decide_True by lia. done.
Qed.

(** Names and numbers correspond: the number of a canonical segment name,
    or of any archive name that extends it, is the ticket it was made from,
    and two tickets never share a name. *)
Lemma segment_name_roundtrip (n m : Z) (suffix : bytes) :
  0 < n < 2 ^ 64 →
  number (name n) = Some n ∧ number (name n ++ suffix) = Some n ∧
  (0 < m < 2 ^ 64 → name n = name m → n = m).
Proof.
  intros Hn. assert (Hname : ∀ k, 0 < k < 2 ^ 64 → number (name k) = Some k).
  { intros k Hk. by apply number_name. }
  split_and!.
  - by apply Hname.
  - unfold name. rewrite <- !app_assoc. by apply number_name.
  - intros Hm E. apply Hname in Hm. rewrite <- E, Hname in Hm by done. by injection Hm.
Qed.

(** ** Scans *)

(** The names a listing retains, archived or live. *)
Definition retained (files : list DirEntry) : list bytes :=
  concat ((λ f, match f with
                | Archives a => omap fst a
                | Plain n _ => option_list n
                end) <$> files).

Definition covers (s : Scan) (names : list bytes) : Prop :=
  ∀ f, f ∈ names → ∃ n, number f = Some n ∧ n ≤ scan_highest s.

Lemma observe_spec s f s' n :
  Scan_observe s f = Ok (s', n) →
  number f = Some n ∧ n ≤ MAX_SEGMENT ∧ scan_highest s ≤ scan_highest s' ∧ n ≤ scan_highest s' ∧
  scan_live s' = scan_live s ∧ (scan_highest s ≤ MAX_SEGMENT → scan_highest s' ≤ MAX_SEGMENT).
Proof.
  unfold Scan_observe. destruct (number f) as [k|]; cbn; [|done]. destruct (decide _); cbn; [|done].
  intros [= <- <-]. cbn. split_and!; try done; lia.
Qed.

Lemma archives_spec files : ∀ s s',
  Scan_archives s files = Ok s' →
  scan_highest s ≤ scan_highest s' ∧ scan_live s' = scan_live s ∧ covers s' (omap fst files) ∧
  (scan_highest s ≤ MAX_SEGMENT → scan_highest s' ≤ MAX_SEGMENT).
Proof.
  induction files as [|[f is_file] files IH]; intros s s'; cbn [Scan_archives].
  { intros [= <-]. split_and!; try done. intros f []%elem_of_nil. }
  destruct f as [f|]; cbn [ok_or mbind result_mbind result_bind]; [|done].
  intros ([s1 n] & Ho & H)%result_bind_ok. apply require_bind in H as [_ H].
  apply observe_spec in Ho as (Hn & _ & H1 & H2 & H3 & H4).
  apply IH in H as (G1 & G2 & G3 & G4). split_and!; [lia | congruence | | tauto].
  cbn. intros g [->|Hg]%elem_of_cons; [exists n; split; [done | lia] | by apply G3].
Qed.

Lemma directory_spec reserved files : ∀ s s',
  Scan_directory reserved s files = Ok s' →
  NoDup (scan_live s) →
  scan_highest s ≤ scan_highest s' ∧ NoDup (scan_live s') ∧ covers s' (retained files) ∧
  (scan_highest s ≤ MAX_SEGMENT → scan_highest s' ≤ MAX_SEGMENT).
Proof.
  induction files as [|[archived|f is_file] files IH]; intros s s'; cbn [Scan_directory].
  - intros [= <-] Hn. split_and!; try done. intros f []%elem_of_nil.
  - intros (s1 & Ha & H)%result_bind_ok Hn. apply archives_spec in Ha as (A1 & A2 & A3 & A4).
    apply IH in H as (G1 & G2 & G3 & G4); [|congruence]. split_and!; [lia | done | | tauto].
    intros f [Hf|Hf]%elem_of_app; [|by apply G3].
    destruct (A3 f Hf) as (n & Hn' & ?). exists n. split; [done | lia].
  - destruct f as [f|]; cbn [ok_or mbind result_mbind result_bind]; [|done].
    intros ([s1 n] & Ho & H)%result_bind_ok Hnd. rewrite !require_bind in H. destruct H as (_ & Hd & H).
    apply result_bind_ok in H as (_ & _ & H). apply observe_spec in Ho as (Hn & _ & H1 & H2 & H3 & H4).
    apply IH in H as (G1 & G2 & G3 & G4); cbn [scan_highest scan_live] in *.
    + split_and!; [lia | done | | tauto].
      intros g [->%list_elem_of_singleton|Hg]%elem_of_app; [exists n; split; [done | lia] | by apply G3].
    + apply NoDup_cons. rewrite H3 in *. split; [|done]. intros Hin.
      apply bool_decide_eq_true_1 in Hd. apply (proj1 (find_first_None _ _)) with n in Hd; [|done].
      by apply bool_decide_eq_false_1 in Hd.
Qed.

Lemma directories_spec reserved directories : ∀ s s',
  Scan_directories reserved s directories = Ok s' →
  NoDup (scan_live s) →
  scan_highest s ≤ scan_highest s' ∧ covers s' (concat (retained <$> directories)) ∧
  (scan_highest s ≤ MAX_SEGMENT → scan_highest s' ≤ MAX_SEGMENT).
Proof.
  induction directories as [|files directories IH]; intros s s'; cbn [Scan_directories].
  - intros [= <-] Hn. split_and!; try done. intros f []%elem_of_nil.
  - intros (s1 & Hf & H)%result_bind_ok Hn. apply directory_spec in Hf as (A1 & A2 & A3 & A4); [|done].
    apply IH in H as (G1 & G2 & G3); [|done]. split_and!; [lia | | tauto].
    intros f [Hf|Hf]%elem_of_app; [|by apply G2].
    destruct (A3 f Hf) as (n & Hn' & ?). exists n. split; [done | lia].
Qed.

(** ** Allocation *)

(** A [create] that only writes down the number it is called with, and whose
    answer is given. *)
Definition recording (outcome : result unit) (n : Z) (calls : list Z) : list Z * result unit :=
  (calls ++ [n], outcome).

(** A sequence of allocations, each with the outcome of its file creation:
    the numbers [create] was called with, in order, and the final allocator. *)
Fixpoint allocations (s : Status) (calls : list Z) (outcomes : list (result unit))
    : list Z * Status :=
  match outcomes with
  | [] => (calls, s)
  | outcome :: outcomes' =>
      let '(s', calls', _) := Tickets_allocate s (recording outcome) calls in
      allocations s' calls' outcomes'
  end.

Lemma allocate_spec {W T} s (create : Z → W → W * result T) w :
  0 ≤ highest s ≤ MAX_SEGMENT →
  Tickets_allocate s create w =
    if ticket_failed s then (s, w, other "segment allocator failed; explicit recovery required")
    else if decide (highest s + 1 ≤ MAX_SEGMENT) then
      match create (highest s + 1) w with
      | (w', Ok owner) => ({| highest := highest s + 1; ticket_failed := false |}, w', Ok owner)
      | (w', Err e) => ({| highest := highest s; ticket_failed := true |}, w', Err e)
      | (w', Panic) => ({| highest := highest s; ticket_failed := true |}, w', Panic)
      end
    else (s, w, other "segment tickets exhausted").
Proof.
  intros Hh. unfold Tickets_allocate. destruct (ticket_failed s); [done|].
  rewrite (proj2 (checked_add_Some 64 (highest s) 1 (highest s + 1))).
  2:{ split; [done|]. unfold MAX_SEGMENT in Hh. change (Z.shiftl 1 48) with (2 ^ 48) in Hh. lia. }
  cbn [mbind option_bind]. destruct (decide _); [|done].
  by destruct (create (highest s + 1) w) as [w' [?|?|]].
Qed.

(** Strictly ascending, above [low]. *)
Fixpoint ascending_from (low : Z) (l : list Z) : Prop :=
  match l with [] => True | n :: l' => low < n ≤ MAX_SEGMENT ∧ ascending_from n l' end.

Lemma ascending_weaken low low' l : low' ≤ low → ascending_from low l → ascending_from low' l.
Proof. destruct l; cbn; [done|]. intros ? [? ?]. split; [lia | done]. Qed.

Lemma failed_allocations outcomes : ∀ s calls,
  ticket_failed s = true → allocations s calls outcomes = (calls, s).
Proof.
  induction outcomes as [|o outcomes IH]; intros s calls Hf; cbn [allocations]; [done|].
  unfold Tickets_allocate. rewrite Hf. by rewrite IH.
Qed.

(** The calls made from [s] on extend those made before, ascending above its
    highest ticket. *)
Lemma allocations_ascending outcomes : ∀ s calls,
  0 ≤ highest s ≤ MAX_SEGMENT →
  ∃ new, (allocations s calls outcomes).1 = calls ++ new ∧ ascending_from (highest s) new.
Proof.
  induction outcomes as [|o outcomes IH]; intros s calls Hh; cbn [allocations].
  { exists []. by rewrite app_nil_r. }
  rewrite allocate_spec by done. destruct (ticket_failed s) eqn:Ef; [by apply IH|].
  destruct (decide (highest s + 1 ≤ MAX_SEGMENT)) as [Hm|Hm]; [|by apply IH].
  cbn [recording]. destruct o as [u|e|].
  - destruct (IH {| highest := highest s + 1; ticket_failed := false |} (calls ++ [highest s + 1]))
      as (new & E & Ha); [cbn; lia|].
    exists ((highest s + 1) :: new). rewrite E, <- app_assoc. split; [done|]. split; [lia | done].
  - exists [highest s + 1]. rewrite failed_allocations by done. split; [done|]. cbn. lia.
  - exists [highest s + 1]. rewrite failed_allocations by done. split; [done|]. cbn. lia.
Qed.

(** Without a failure every allocation asks for its own number, until the
    address space of 48 bits is used up. *)
Lemma allocations_all n : ∀ s calls,
  0 ≤ highest s → ticket_failed s = false → highest s + Z.of_nat n ≤ MAX_SEGMENT →
  allocations s calls (replicate n (Ok tt)) =
    (calls ++ seqZ (highest s + 1) (Z.of_nat n),
     {| highest := highest s + Z.of_nat n; ticket_failed := false |}).
Proof.
  induction n as [|n IH]; intros s calls H0 Hf Hm; cbn [allocations replicate].
  { rewrite app_nil_r, Z.add_0_r. destruct s; cbn in *; congruence. }
  rewrite allocate_spec by lia. rewrite Hf, decide_True by lia. cbn [recording].
  rewrite IH by (cbn; first [lia | done]). cbn [highest].
  rewrite (seqZ_cons (highest s + 1)) by lia. rewrite <- app_assoc. cbn [app].
  replace (Z.pred (Z.of_nat (S n))) with (Z.of_nat n) by lia.
  replace (highest s + 1 + Z.of_nat n) with (highest s + Z.of_nat (S n)) by lia.
  by replace (Z.succ (highest s + 1)) with (highest s + 1 + 1) by lia.
Qed.

(** C36: a ticket is never used twice.  When the scan of the retained names
    succeeds, the numbers with which the allocator calls [create], over any
    sequence of successful and failed creations, are each above every
    retained ticket, live or archived, and above all earlier ones, and fit the
    48 bits of an address; while the creations succeed and numbers are left,
    every allocation calls [create], with the next number; and after the first
    failed creation it is never called again. *)
Theorem tickets_never_reused (reserved : bool) (directories : list (list DirEntry)) (s : Status)
    (outcomes : list (result unit)) :
  Tickets_open reserved directories = Ok s →
  (∀ f, f ∈ concat (retained <$> directories) → ∃ n, number f = Some n ∧ n ≤ highest s) ∧
  ascending_from (highest s) (allocations s [] outcomes).1 ∧
  (∀ n, highest s + Z.of_nat n ≤ MAX_SEGMENT →
   (allocations s [] (replicate n (Ok tt))).1 = seqZ (highest s + 1) (Z.of_nat n)) ∧
  (ticket_failed (allocations s [] outcomes).2 = true →
   ∀ calls more, allocations (allocations s [] outcomes).2 calls more
                 = (calls, (allocations s [] outcomes).2)).
Proof.
  unfold Tickets_open. intros (scan & Hs & [= <-])%result_bind_ok.
  apply directories_spec in Hs as (H1 & H2 & H3); [|apply NoDup_nil_2]. cbn [scan_highest] in *.
  split_and!.
  - exact H2.
  - destruct (allocations_ascending outcomes {| highest := scan_highest scan; ticket_failed := false |} [])
      as (new & -> & Ha); [|exact Ha]. cbn. split; [done|]. apply H3. by vm_compute.
  - intros n Hn. by rewrite allocations_all.
  - intros Hf calls more. by apply failed_allocations.
Qed.

Definition sample_status : Status :=
  unwrap_or {| highest := 0; ticket_failed := true |}
    (Tickets_open true [[Plain (Some (name 3)) true; Archives [(Some (name 7 ++ FROM), true)]]]).

Lemma tickets_never_reused_witness :
  ascending_from 7 (allocations sample_status [] [Ok tt; Ok tt; Err (Error Other ""); Ok tt]).1.
Proof.
  apply (tickets_never_reused true [[Plain (Some (name 3)) true; Archives [(Some (name 7 ++ FROM), true)]]]
    sample_status). vm_compute. reflexivity.
Defined.
