(* ===== verification/Staging.v ===== *)
(** * WAL staging quotas

    Models [crates/cas/core/src/space/staging.rs]: a quota for the host and one
    per image, permits that promise bytes before a segment is allocated, the
    receipt that turns a promise into an allocation, and the gate that stops
    admission at the capacity and reopens it below sixty percent.  Every call
    is one step of the account under its mutex; the live permits are explicit,
    so the theorems speak about every interleaving of their owners. *)
From S2P Require Import Prelude Bytes.

Record QuotaImage : Type := { qi_allocated : Z; qi_capacity : Z }.

Record Usage : Type := {
  allocated : Z;
  promised : Z;
  capacity : Z;
  compaction : bool;
  stopped : bool;
}.

Definition used (u : Usage) : Z := allocated u + promised u.

(** [u128] arithmetic: the products are exact. *)
Definition Usage_update (u : Usage) : Usage :=
  let stopped :=
    if decide (capacity u ≤ used u) then true
    else if decide (used u * 100 < capacity u * 60) then false
    else stopped u in
  {| allocated := allocated u; promised := promised u; capacity := capacity u;
     compaction := stopped || bool_decide (capacity u * 75 ≤ used u * 100);
     stopped := stopped |}.

Definition Usage_new (image : QuotaImage) : result Usage :=
  require (bool_decide (0 < qi_capacity image ∧ qi_allocated image ≤ qi_capacity image))
    "invalid staging capacity";;
  Ok (Usage_update {| allocated := qi_allocated image; promised := 0;
        capacity := qi_capacity image; compaction := false; stopped := false |}).

Definition Usage_admit (u : Usage) (bytes : Z) : Usage * bool :=
  let used := saturating_add 64 (allocated u) (promised u) in
  if decide (saturating_sub (capacity u) used < bytes)
  then ({| allocated := allocated u; promised := promised u; capacity := capacity u;
           compaction := true; stopped := true |}, false)
  else (u, negb (stopped u)).

Definition set_promised (u : Usage) (p : Z) : Usage :=
  {| allocated := allocated u; promised := p; capacity := capacity u;
     compaction := compaction u; stopped := stopped u |}.

Definition set_allocated (u : Usage) (a : Z) : Usage :=
  {| allocated := a; promised := promised u; capacity := capacity u;
     compaction := compaction u; stopped := stopped u |}.

Record State : Type := { host : Usage; images : list Usage; failed : bool }.

Record Permit : Type := { p_image : nat; p_bytes : Z; p_running : bool }.

Definition fail (s : State) : State := {| host := host s; images := images s; failed := true |}.

(** The images are summed in order; the first error is the answer. *)
Fixpoint collect_images (l : list QuotaImage) (total : Z) : result (list Usage * Z) :=
  match l with
  | [] => Ok ([], total)
  | image :: l =>
      total ← ok_or (Error Other "staging total overflow")
        (checked_add 64 total (qi_allocated image));
      u ← Usage_new image;
      '(us, total) ← collect_images l total;
      Ok (u :: us, total)
  end.

(** [reserved] and [owned]: whether the metadata budget grants the table and the
    shared owner. *)
Definition Staging_new (cap : Z) (l : list QuotaImage) (reserved owned : bool) : result State :=
  if negb reserved then out_of_memory ""
  else
    '(us, total) ← collect_images l 0;
    h ← Usage_new {| qi_allocated := total; qi_capacity := cap |};
    if owned then Ok {| host := h; images := us; failed := false |} else out_of_memory "".

Definition Staging_admits (s : State) (image : nat) : bool :=
  negb (failed s) && negb (stopped (host s)) &&
  is_some_and (images s !! image) (λ u, negb (stopped u)).

(** [promised += bytes] then [update]; the addition panics on overflow. *)
Definition promise (u : Usage) (bytes : Z) : result Usage :=
  p ← expect (checked_add 64 (promised u) bytes); Ok (Usage_update (set_promised u p)).

(** [promised -= bytes] then [update]; the subtraction panics on underflow. *)
Definition refund (u : Usage) (bytes : Z) : result Usage :=
  p ← expect (checked_sub (promised u) bytes); Ok (Usage_update (set_promised u p)).

Definition Staging_reserve (s : State) (image : nat) (bytes : Z)
    : result (State * result Permit) :=
  if failed s
  then Ok (s, invalid_data "staging account failed; explicit recovery required")
  else match images s !! image with
  | None => Ok (s, invalid_input "")
  | Some u =>
      if decide (bytes = 0 ∨ capacity u < bytes ∨ capacity (host s) < bytes)
      then Ok (s, invalid_input "")
      else
        let '(h, host_fits) := Usage_admit (host s) bytes in
        let '(u, image_fits) := Usage_admit u bytes in
        if host_fits && image_fits
        then
          h ← promise h bytes;
          u ← promise u bytes;
          Ok ({| host := h; images := <[image := u]> (images s); failed := false |},
              Ok {| p_image := image; p_bytes := bytes; p_running := false |})
        else Ok ({| host := h; images := <[image := u]> (images s); failed := false |},
                 Err (Error WouldBlock ""))
  end.

Definition Staging_reclaimed (s : State) (image : nat) (a : Z) : result (State * result bool) :=
  if failed s then Ok (s, invalid_data "staging account failed")
  else match images s !! image with
  | None => Ok (s, invalid_input "")
  | Some u =>
      if decide (allocated u < a)
      then Ok (fail s, other "unreserved staging growth during reclamation")
      else
        ha ← expect (checked_sub (allocated (host s)) (allocated u - a));
        let h := Usage_update (set_allocated (host s) ha) in
        let u' := Usage_update (set_allocated u a) in
        Ok ({| host := h; images := <[image := u']> (images s); failed := false |},
            Ok ((stopped (host s) && negb (stopped h)) || (stopped u && negb (stopped u'))))
  end.

Definition Permit_start (p : Permit) : Permit :=
  {| p_image := p_image p; p_bytes := p_bytes p; p_running := true |}.

(** [installed] consumes the permit.  The flag tells whether its promise was
    retired: an invalid receipt leaves the promise charged. *)
Definition Permit_installed (s : State) (p : Permit) (a : Z)
    : result (State * bool * result unit) :=
  u ← expect (images s !! p_image p);
  let old := allocated u in
  if negb (p_running p) || failed s || bool_decide (a < old)
  then Ok (fail s, false, other "invalid staging installation receipt")
  else
    let valid := is_some_and (checked_sub a old) (λ n, bool_decide (n ≤ p_bytes p)) in
    let total := n ← checked_sub (allocated (host s)) old; checked_add 64 n a in
    hp ← expect (checked_sub (promised (host s)) (p_bytes p));
    up ← expect (checked_sub (promised u) (p_bytes p));
    let ha := match total with Some n => n | None => u64_max end in
    let h := Usage_update (set_promised (set_allocated (host s) ha) hp) in
    let u := Usage_update (set_promised (set_allocated u a) up) in
    let s' := {| host := h; images := <[p_image p := u]> (images s); failed := false |} in
    if negb valid || bool_decide (total = None) || bool_decide (capacity h < allocated h) ||
       bool_decide (capacity u < a)
    then Ok (fail s', true, other "staging receipt exceeds its reservation")
    else Ok (s', true, Ok tt).

(** A running permit keeps its promise and fails the account. *)
Definition Permit_drop (s : State) (p : Permit) : result (State * bool) :=
  if decide (p_bytes p = 0) then Ok (s, true)
  else if p_running p then Ok (fail s, false)
  else
    h ← refund (host s) (p_bytes p);
    u ← expect (images s !! p_image p);
    u ← refund u (p_bytes p);
    Ok ({| host := h; images := <[p_image p := u]> (images s); failed := failed s |}, true).

(** ** The account and its permits *)

Record Ledger : Type := {
  account : State;
  permits : list Permit;
  (** permits that disappeared without retiring their promise *)
  lost : list Permit;
}.

Inductive stage_step : Ledger → Ledger → Prop :=
  | stage_reserved w image bytes s p :
      0 ≤ bytes → Staging_reserve (account w) image bytes = Ok (s, Ok p) →
      stage_step w {| account := s; permits := p :: permits w; lost := lost w |}
  | stage_refused w image bytes s e :
      0 ≤ bytes → Staging_reserve (account w) image bytes = Ok (s, Err e) →
      stage_step w {| account := s; permits := permits w; lost := lost w |}
  | stage_started w pre p post :
      permits w = pre ++ p :: post →
      stage_step w {| account := account w; permits := pre ++ Permit_start p :: post;
                      lost := lost w |}
  | stage_installed w pre p post a s retired r :
      permits w = pre ++ p :: post → fits 64 a →
      Permit_installed (account w) p a = Ok (s, retired, r) →
      stage_step w {| account := s; permits := pre ++ post;
                      lost := if retired : bool then lost w else p :: lost w |}
  | stage_dropped w pre p post s retired :
      permits w = pre ++ p :: post → Permit_drop (account w) p = Ok (s, retired) →
      stage_step w {| account := s; permits := pre ++ post;
                      lost := if retired : bool then lost w else p :: lost w |}
  | stage_reclaimed w image a s r :
      0 ≤ a → Staging_reclaimed (account w) image a = Ok (s, r) →
      stage_step w {| account := s; permits := permits w; lost := lost w |}.

Inductive stage_reachable (cap : Z) (l : list QuotaImage) : Ledger → Prop :=
  | stage_new s :
      Staging_new cap l true true = Ok s →
      stage_reachable cap l {| account := s; permits := []; lost := [] |}
  | stage_next w w' :
      stage_reachable cap l w → stage_step w w' → stage_reachable cap l w'.

(** The bytes that permits of the list promise on image [i], and in total. *)
Definition promised_on (i : nat) (l : list Permit) : Z :=
  sumZ ((λ p, if decide (p_image p = i) then p_bytes p else 0) <$> l).

Definition promised_all (l : list Permit) : Z := sumZ (p_bytes <$> l).

(** The account against the permits [o] whose promises are outstanding. *)
Record account_inv (s : State) (o : list Permit) : Prop := {
  ai_permits : Forall (λ p, 0 < p_bytes p ∧ (p_image p < length (images s))%nat) o;
  ai_host : promised (host s) = promised_all o;
  ai_images : ∀ i u, images s !! i = Some u →
    promised u = promised_on i o ∧ 0 ≤ allocated u ∧ fits 64 (capacity u);
  ai_range : 0 ≤ allocated (host s) ∧ fits 64 (capacity (host s));
  ai_total : failed s = false → allocated (host s) = sumZ (allocated <$> images s);
  ai_bound : failed s = false → Forall (λ u, used u ≤ capacity u) (host s :: images s);
}.

Definition ledger_inv (w : Ledger) : Prop :=
  account_inv (account w) (permits w ++ lost w) ∧ (lost w ≠ [] → failed (account w) = true).

(** ** Lemmas *)

Lemma Usage_admit_spec u bytes u' b :
  Usage_admit u bytes = (u', b) →
  allocated u' = allocated u ∧ promised u' = promised u ∧ capacity u' = capacity u ∧
  (b = true → 0 < bytes → fits 64 (capacity u) → used u + bytes ≤ capacity u) ∧
  (stopped u = true → stopped u' = true ∧ b = false).
Proof.
  unfold Usage_admit, saturating_sub, saturating_add, used, fits. destruct (decide _) as [H|H]; intros [= <- <-]; cbn.
  - split_and!; try done.
  - split_and!; try done; [lia|]. intros ->. done.
Qed.

Lemma promised_on_perm i o o' : o ≡ₚ o' → promised_on i o = promised_on i o'.
Proof. induction 1; cbn in *; unfold promised_on in *; lia. Qed.

Lemma promised_all_perm o o' : o ≡ₚ o' → promised_all o = promised_all o'.
Proof. induction 1; cbn in *; unfold promised_all in *; lia. Qed.

Lemma promised_on_nonneg i o : Forall (λ p, 0 < p_bytes p) o → 0 ≤ promised_on i o ≤ promised_all o.
Proof.
  unfold promised_on, promised_all. induction 1; cbn; [lia|]. case_decide; lia.
Qed.

Lemma account_inv_perm s o o' : o ≡ₚ o' → account_inv s o → account_inv s o'.
Proof.
  intros Hp []. split; [|by rewrite <- (promised_all_perm _ _ Hp)| |done..].
  - by rewrite <- Hp.
  - intros i u Hu. rewrite <- (promised_on_perm i _ _ Hp). eauto.
Qed.

Lemma account_inv_fail s o : account_inv s o → account_inv (fail s) o.
Proof. intros []. by split. Qed.

Lemma account_inv_weaker s p o : account_inv s (p :: o) → Forall (λ p, 0 < p_bytes p) (p :: o).
Proof. intros []. eapply Forall_impl; [done|]. by intros ? []. Qed.

(** Replacing the host's usage and one image's usage. *)
Lemma account_inv_update s o o' i u h' u' f' :
  account_inv s o → images s !! i = Some u →
  Forall (λ p, 0 < p_bytes p ∧ (p_image p < length (images s))%nat) o' →
  promised h' = promised_all o' → promised u' = promised_on i o' →
  (∀ j, j ≠ i → promised_on j o' = promised_on j o) →
  capacity h' = capacity (host s) → capacity u' = capacity u →
  0 ≤ allocated h' → 0 ≤ allocated u' →
  (f' = false → failed s = false ∧
     allocated h' - allocated (host s) = allocated u' - allocated u ∧
     used h' ≤ capacity h' ∧ used u' ≤ capacity u') →
  account_inv {| host := h'; images := <[i := u']> (images s); failed := f' |} o'.
Proof.
  intros [H1 H2 H3 H4 H5 H6] Hu Ho Hh Hp Hj Ch Cu Ah Au Hf.
  split; cbn.
  - by rewrite length_insert.
  - done.
  - intros j v [(-> & -> & _)|[Hne Hv]]%lookup_insert_cases.
    + destruct (H3 _ _ Hu) as (_ & _ & ?). rewrite Cu. done.
    + rewrite Hj by done. by apply H3.
  - rewrite Ch. split; [done | apply H4].
  - intros [F T]%Hf. rewrite (sumZ_fmap_insert allocated _ _ _ u' Hu). specialize (H5 F). lia.
  - intros [F (T & B1 & B2)]%Hf. constructor; [done|]. specialize (H6 F).
    apply Forall_cons in H6 as [_ H6]. by apply Forall_insert.
Qed.

Lemma account_inv_used s o i u :
  account_inv s o → images s !! i = Some u → failed s = false →
  used (host s) ≤ capacity (host s) ∧ used u ≤ capacity u ∧ allocated u ≤ allocated (host s).
Proof.
  intros [H1 H2 H3 H4 H5 H6] Hu F. specialize (H5 F). specialize (H6 F).
  apply Forall_cons in H6 as [B1 B2]. split; [done|]. split; [by eapply (Forall_lookup_1 _ _ _ _ B2)|].
  rewrite H5. apply (sumZ_fmap_lookup allocated _ i); [|done].
  apply Forall_lookup. intros j v Hv. by apply (H3 j).
Qed.

(** A permit's image exists and its promise is part of both promises. *)
Lemma account_inv_head s p o :
  account_inv s (p :: o) →
  ∃ u, images s !! p_image p = Some u ∧ 0 < p_bytes p ∧
    promised u = p_bytes p + promised_on (p_image p) o ∧ 0 ≤ promised_on (p_image p) o ∧
    promised (host s) = p_bytes p + promised_all o ∧ 0 ≤ promised_all o.
Proof.
  intros Hi. pose proof (account_inv_weaker _ _ _ Hi) as Hw. destruct Hi as [H1 H2 H3 H4 H5 H6].
  apply Forall_cons in H1 as [[Hb Hl] _]. apply Forall_cons in Hw as [_ Hw].
  apply lookup_lt_is_Some in Hl as [u Hu]. exists u. split_and!; try done.
  - destruct (H3 _ _ Hu) as [-> _]. unfold promised_on. cbn. by rewrite decide_True.
  - by apply promised_on_nonneg.
  - pose proof (promised_on_nonneg (p_image p) o Hw). lia.
Qed.

Lemma promised_on_cons j p o :
  promised_on j (p :: o) = (if decide (p_image p = j) then p_bytes p else 0) + promised_on j o.
Proof. done. Qed.

#[local] Arguments promised_on : simpl never.
#[local] Arguments promised_all : simpl never.

Lemma reserve_ok s o image bytes :
  account_inv s o → 0 ≤ bytes →
  ∃ s' r, Staging_reserve s image bytes = Ok (s', r) ∧ (failed s = true → failed s' = true) ∧
    match r with
    | Ok p => p_image p = image ∧ p_bytes p = bytes ∧ account_inv s' (p :: o)
    | Err _ => account_inv s' o
    | Panic => False
    end.
Proof.
  intros Hi Hb. unfold Staging_reserve. destruct (failed s) eqn:F; [by eauto 7|].
  destruct (images s !! image) as [u|] eqn:Hu; [|by eauto 7].
  case_decide as Hz; [by eauto 7|].
  destruct (account_inv_used _ _ _ _ Hi Hu F) as (B1 & B2 & B3).
  destruct (Usage_admit (host s) bytes) as [h hf] eqn:Eh. apply Usage_admit_spec in Eh as (E1 & E2 & E3 & E4 & _).
  destruct (Usage_admit u bytes) as [v vf] eqn:Ev. apply Usage_admit_spec in Ev as (V1 & V2 & V3 & V4 & _).
  pose proof Hi as [H1 H2 H3 [R1 R2] H5 H6]. destruct (H3 _ _ Hu) as (P1 & P2 & P3).
  destruct (hf && vf) eqn:Ef.
  - apply andb_true_iff in Ef as [-> ->]. specialize (E4 eq_refl ltac:(lia) R2).
    specialize (V4 eq_refl ltac:(lia) P3). unfold used, fits in *.
    assert (0 ≤ promised u ∧ 0 ≤ promised (host s)) as [Q1 Q2].
    { rewrite P1, H2. assert (Hw : Forall (λ p, 0 < p_bytes p) o).
      { eapply Forall_impl; [exact H1|]. by intros ? []. }
      pose proof (promised_on_nonneg image o Hw). lia. }
    unfold promise. rewrite !checked_add_fits by lia. cbn.
    eexists _, _. split; [done|]. split; [done|]. cbn. split_and!; [done..|].
    apply (account_inv_update s o _ _ u); cbn; try done; try lia.
    + constructor; [|done]. cbn. split; [lia|]. by eapply lookup_lt_Some.
    + unfold promised_all in *. cbn. lia.
    + rewrite promised_on_cons. cbn. rewrite decide_True by done. lia.
    + intros j Hj. rewrite promised_on_cons. cbn. rewrite decide_False by done. lia.
    + intros _. unfold used. cbn. split; [done|]. lia.
  - eexists _, _. split; [done|]. split; [done|]. cbn.
    apply (account_inv_update s o _ _ u); try done; try lia.
    intros _. unfold used in *. split; [done|]. lia.
Qed.

Lemma reclaimed_ok s o image a :
  account_inv s o → 0 ≤ a →
  ∃ s' r, Staging_reclaimed s image a = Ok (s', r) ∧ r ≠ Panic ∧
    (failed s = true → failed s' = true) ∧ account_inv s' o.
Proof.
  intros Hi Ha. unfold Staging_reclaimed. destruct (failed s) eqn:F; [by eauto 8|].
  destruct (images s !! image) as [u|] eqn:Hu; [|by eauto 8].
  case_decide as Hz; [by eauto 8 using account_inv_fail|].
  destruct (account_inv_used _ _ _ _ Hi Hu F) as (B1 & B2 & B3).
  pose proof Hi as [H1 H2 H3 [R1 R2] H5 H6]. destruct (H3 _ _ Hu) as (P1 & P2 & P3).
  rewrite checked_sub_fits by lia. cbn. eexists _, _. split; [done|]. split; [done|]. split; [done|].
  apply (account_inv_update s o _ _ u); cbn; try done; try lia.
  intros _. unfold used in *. cbn. split; [done|]. lia.
Qed.

Lemma drop_ok s p o :
  account_inv s (p :: o) →
  ∃ s' retired, Permit_drop s p = Ok (s', retired) ∧ (failed s = true → failed s' = true) ∧
    (retired = false → failed s' = true) ∧
    account_inv s' (if retired : bool then o else p :: o).
Proof.
  intros Hi. destruct (account_inv_head _ _ _ Hi) as (u & Hu & Hb & P1 & P2 & P3 & P4).
  unfold Permit_drop. rewrite decide_False by lia.
  destruct (p_running p); [by eauto 8 using account_inv_fail|].
  unfold refund. rewrite checked_sub_fits by lia. cbn. rewrite Hu. cbn.
  rewrite checked_sub_fits by lia. cbn. eexists _, true. split; [done|]. split; [done|]. split; [done|].
  pose proof Hi as [H1 H2 H3 [R1 R2] H5 H6]. destruct (H3 _ _ Hu) as (P5 & P6 & P7).
  apply (account_inv_update s (p :: o) _ _ u); cbn; try done; try lia.
  - by apply Forall_cons in H1 as [_ H1].
  - intros j Hj. rewrite promised_on_cons, decide_False by done. lia.
  - intros F. destruct (account_inv_used _ _ _ _ Hi Hu F). unfold used in *. cbn. split; [done|]. lia.
Qed.

Lemma installed_ok s p o a :
  account_inv s (p :: o) → fits 64 a →
  ∃ s' retired r, Permit_installed s p a = Ok (s', retired, r) ∧ r ≠ Panic ∧
    (failed s = true → failed s' = true) ∧ (retired = false → failed s' = true) ∧
    account_inv s' (if retired : bool then o else p :: o).
Proof.
  intros Hi Ha. destruct (account_inv_head _ _ _ Hi) as (u & Hu & Hb & P1 & P2 & P3 & P4).
  unfold Permit_installed. rewrite Hu. cbn [expect mbind result_mbind result_bind].
  destruct (_ || _) eqn:Ho; [by eauto 10 using account_inv_fail|].
  apply orb_false_iff in Ho as [[_ F]%orb_false_iff Hlt%bool_decide_eq_false].
  destruct (account_inv_used _ _ _ _ Hi Hu F) as (B1 & B2 & B3).
  pose proof Hi as [H1 H2 H3 [R1 R2] H5 H6]. destruct (H3 _ _ Hu) as (P5 & P6 & P7).
  rewrite (checked_sub_fits (promised (host s))), (checked_sub_fits (promised u)) by lia.
  rewrite (checked_sub_fits a), (checked_sub_fits (allocated (host s))) by lia.
  cbn [expect mbind result_mbind result_bind option_bind is_some_and].
  assert (Hinv : ∀ ha f', 0 ≤ ha →
    (f' = false → ha = allocated (host s) - allocated u + a ∧ a - allocated u ≤ p_bytes p) →
    account_inv {| host := Usage_update (set_promised (set_allocated (host s) ha)
                              (promised (host s) - p_bytes p));
                   images := <[p_image p := Usage_update (set_promised (set_allocated u a)
                              (promised u - p_bytes p))]> (images s);
                   failed := f' |} o).
  { intros ha f' Hha Hf. unfold fits in Ha. apply (account_inv_update s (p :: o) _ _ u); cbn; try done; try lia.
    - by apply Forall_cons in H1 as [_ H1].
    - intros j Hj. rewrite promised_on_cons, decide_False by done. lia.
    - intros [-> G]%Hf. unfold used in *. cbn. split; [done|]. lia. }
  destruct (checked_add 64 _ a) as [n|] eqn:En.
  - apply checked_add_Some in En as [-> En].
    destruct (negb _ || _ || _ || _) eqn:Ev.
    + eexists _, true, _. split; [done|]. split; [done|]. split; [done|]. split; [done|].
      apply Hinv; [unfold fits in *; lia | done].
    + eexists _, true, _. split; [done|]. split; [done|]. split; [by rewrite F|]. split; [done|].
      apply Hinv; [unfold fits in *; lia|]. intros _. split; [lia|].
      rewrite !orb_false_iff, negb_false_iff, bool_decide_eq_true in Ev. by destruct Ev as [[[? _] _] _].
  - rewrite (bool_decide_true (@None Z = None)), orb_true_r by done. cbn [orb].
    eexists _, true, _. split; [done|]. split; [done|]. split; [done|]. split; [done|].
    by apply Hinv.
Qed.

Lemma ledger_inv_step w w' : ledger_inv w → stage_step w w' → ledger_inv w'.
Proof.
  intros [Hi Hl] Hs. destruct Hs as [w image bytes s p Hb E | w image bytes s e Hb E
    | w pre p post Hp | w pre p post a s retired r Hp Ha E | w pre p post s retired Hp E
    | w image a s r Ha E]; unfold ledger_inv; cbn.
  - destruct (reserve_ok _ _ image bytes Hi Hb) as (s' & r & E' & F & Hr). rewrite E in E'.
    injection E' as <- <-. split; [apply Hr | auto].
  - destruct (reserve_ok _ _ image bytes Hi Hb) as (s' & r & E' & F & Hr). rewrite E in E'.
    injection E' as <- <-. split; [apply Hr | auto].
  - rewrite Hp in Hi. split; [|done]. destruct Hi as [H1 H2 H3 H4 H5 H6].
    rewrite <- !app_assoc in *. cbn in *. split; try done.
    + apply Forall_app in H1 as [? [? ?]%Forall_cons]. apply Forall_app. split; [done|]. by constructor.
    + rewrite H2. unfold promised_all. rewrite !fmap_app. done.
    + intros i u Hu. destruct (H3 i u Hu) as [-> ?]. split; [|done]. unfold promised_on.
      rewrite !fmap_app. done.
  - apply (account_inv_perm _ _ (p :: (pre ++ post) ++ lost w)) in Hi; [|rewrite Hp; solve_Permutation].
    destruct (installed_ok _ _ _ a Hi Ha) as (s' & t & r' & E' & _ & F & Ft & Hr). rewrite E in E'.
    injection E' as <- <- <-. split; [|destruct retired; auto].
    destruct retired; [done|]. eapply account_inv_perm; [|exact Hr]. solve_Permutation.
  - apply (account_inv_perm _ _ (p :: (pre ++ post) ++ lost w)) in Hi; [|rewrite Hp; solve_Permutation].
    destruct (drop_ok _ _ _ Hi) as (s' & t & E' & F & Ft & Hr). rewrite E in E'.
    injection E' as <- <-. split; [|destruct retired; auto].
    destruct retired; [done|]. eapply account_inv_perm; [|exact Hr]. solve_Permutation.
  - destruct (reclaimed_ok _ _ image a Hi Ha) as (s' & r' & E' & _ & F & Hr). rewrite E in E'.
    injection E' as <- <-. auto.
Qed.

Definition QuotaImage_ok (q : QuotaImage) : Prop := fits 64 (qi_allocated q) ∧ fits 64 (qi_capacity q).

Lemma Usage_new_spec q u :
  Usage_new q = Ok u →
  allocated u = qi_allocated q ∧ promised u = 0 ∧ capacity u = qi_capacity q ∧ used u ≤ capacity u.
Proof.
  unfold Usage_new. intros [H%bool_decide_eq_true E]%require_bind. injection E as <-. unfold used. cbn. lia.
Qed.

Lemma collect_images_spec l total us n :
  Forall QuotaImage_ok l → collect_images l total = Ok (us, n) →
  n = total + sumZ (allocated <$> us) ∧
  Forall (λ u, promised u = 0 ∧ 0 ≤ allocated u ∧ fits 64 (capacity u) ∧ used u ≤ capacity u) us.
Proof.
  intros Hl. revert total us n. induction Hl as [|q l [Hq1 Hq2] Hl IH]; intros total us n; cbn [collect_images].
  - intros [= <- <-]. cbn. split; [lia|done].
  - destruct (checked_add 64 total (qi_allocated q)) as [t|] eqn:Et; cbn; [|done].
    apply checked_add_Some in Et as [-> _].
    destruct (Usage_new q) as [u| |] eqn:Eu; cbn; [|done..]. apply Usage_new_spec in Eu as (U1 & U2 & U3 & U4).
    destruct (collect_images l _) as [[us' n']| |] eqn:Ec; cbn; [|done..]. intros [= <- <-].
    apply IH in Ec as [-> Hus]. cbn. unfold fits in *. split; [lia|]. constructor; [lia|done].
Qed.

Lemma ledger_inv_new cap l s :
  Forall QuotaImage_ok l → fits 64 cap → Staging_new cap l true true = Ok s →
  ledger_inv {| account := s; permits := []; lost := [] |}.
Proof.
  intros Hl Hc. unfold Staging_new. cbn [negb].
  destruct (collect_images l 0) as [[us n]| |] eqn:Ec; cbn [mbind result_mbind result_bind]; [|done..].
  apply collect_images_spec in Ec as [-> Hus]; [|done].
  destruct (Usage_new _) as [h| |] eqn:Eh; cbn; [|done..]. intros [= <-].
  apply Usage_new_spec in Eh as (U1 & U2 & U3 & U4). cbn in *.
  split; [|done]. cbn. split; cbn; try done.
  - intros i u Hu. apply (Forall_lookup_1 _ _ _ _ Hus) in Hu. unfold promised_on. cbn. tauto.
  - rewrite U3. split; [|done]. rewrite U1. cbn. apply sumZ_nonneg.
    eapply Forall_impl; [exact Hus|]. by intros ? (_ & ? & _).
  - intros _. constructor; [done|]. eapply Forall_impl; [exact Hus|]. by intros ? (_ & _ & _ & ?).
Qed.

Lemma stage_reachable_inv cap l w :
  Forall QuotaImage_ok l → fits 64 cap → stage_reachable cap l w → ledger_inv w.
Proof. intros Hl Hc. induction 1; eauto using ledger_inv_new, ledger_inv_step. Qed.

(** ** The gate *)

(** [v] follows [u] with the gate latched: a stopped quota stays stopped while
    at least sixty percent of it is in use. *)
Definition latched (u v : Usage) : Prop :=
  capacity v = capacity u ∧ (stopped u = true → capacity v * 60 ≤ used v * 100 → stopped v = true).

Lemma latched_refl u : latched u u.
Proof. by split. Qed.

Lemma latched_update u v : capacity v = capacity u → stopped v = stopped u → latched u (Usage_update v).
Proof.
  intros Hc Hs. split; [done|]. intros Hu Hb. unfold Usage_update, used in *. cbn in *.
  repeat case_decide; [done|lia|congruence].
Qed.

Lemma latched_admit u bytes v b : Usage_admit u bytes = (v, b) → latched u v.
Proof.
  intros (_ & _ & Hc & _ & Hs)%Usage_admit_spec. split; [done|]. intros Hu. by apply Hs in Hu as [].
Qed.

Definition states_latched (s s' : State) : Prop :=
  latched (host s) (host s') ∧ length (images s') = length (images s) ∧
  ∀ i u u', images s !! i = Some u → images s' !! i = Some u' → latched u u'.

Lemma states_latched_refl s s' : host s' = host s → images s' = images s → states_latched s s'.
Proof.
  intros H1 H2. split; [rewrite H1; apply latched_refl|]. rewrite H2. split; [done|].
  intros i u u' ? ?. simplify_eq. apply latched_refl.
Qed.

Lemma states_latched_update s h i u v f :
  images s !! i = Some u → latched (host s) h → latched u v →
  states_latched s {| host := h; images := <[i := v]> (images s); failed := f |}.
Proof.
  intros Hu Hh Hv. split; [done|]. cbn. split; [by rewrite length_insert|].
  intros j w w' Hw [(-> & -> & _)|[Hne Hw']]%lookup_insert_cases; simplify_eq; [done|apply latched_refl].
Qed.

Lemma reserve_latched s image bytes s' r :
  Staging_reserve s image bytes = Ok (s', r) →
  states_latched s s' ∧
  (is_ok r = true → stopped (host s) = false ∧ Staging_admits s image = true).
Proof.
  unfold Staging_reserve, Staging_admits. destruct (failed s) eqn:F; [intros [= <- <-]; by split; [apply states_latched_refl|]|].
  destruct (images s !! image) as [u|] eqn:Hu; [|intros [= <- <-]; by split; [apply states_latched_refl|]].
  case_decide; [intros [= <- <-]; by split; [apply states_latched_refl|]|].
  destruct (Usage_admit (host s) bytes) as [h hf] eqn:Eh. destruct (Usage_admit u bytes) as [v vf] eqn:Ev.
  pose proof (latched_admit _ _ _ _ Eh) as Lh. pose proof (latched_admit _ _ _ _ Ev) as Lv.
  destruct (hf && vf) eqn:Ef.
  - apply andb_true_iff in Ef as [-> ->].
    apply Usage_admit_spec in Eh as (_ & _ & _ & _ & Eh), Ev as (_ & _ & _ & _ & Ev).
    unfold promise. destruct (checked_add 64 (promised h) bytes); cbn; [|done].
    destruct (checked_add 64 (promised v) bytes); cbn; [|done]. intros [= <- <-].
    assert (stopped (host s) = false) as Sh by (destruct (stopped (host s)); [by destruct Eh|done]).
    assert (stopped u = false) as Su by (destruct (stopped u); [by destruct Ev|done]).
    split; [|by rewrite Sh, Su]. apply (states_latched_update _ _ _ u); [done|..].
    + split; [apply Lh|]. by rewrite Sh.
    + split; [apply Lv|]. by rewrite Su.
  - intros [= <- <-]. split; [|done]. by apply (states_latched_update _ _ _ u).
Qed.

Lemma step_latched w w' : stage_step w w' → states_latched (account w) (account w').
Proof.
  destruct 1 as [w image bytes s p Hb E | w image bytes s e Hb E
    | w pre p post Hp | w pre p post a s retired r Hp Ha E | w pre p post s retired Hp E
    | w image a s r Ha E]; cbn.
  - by apply reserve_latched in E as [].
  - by apply reserve_latched in E as [].
  - by apply states_latched_refl.
  - unfold Permit_installed in E. destruct (images _ !! _) as [u|] eqn:Hu; cbn in E; [|done].
    destruct (_ || _); [injection E as <- <- <-; by apply states_latched_refl|].
    destruct (checked_sub (promised (host _)) _); cbn in E; [|done].
    destruct (checked_sub (promised u) _); cbn in E; [|done].
    destruct (negb _ || _ || _ || _); injection E as <- <- <-;
      (apply (states_latched_update _ _ _ u); [done|by apply latched_update..]).
  - unfold Permit_drop, refund in E. case_decide; [injection E as <- <-; by apply states_latched_refl|].
    destruct (p_running p); [injection E as <- <-; by apply states_latched_refl|].
    destruct (checked_sub _ _); cbn in E; [|done].
    destruct (images _ !! _) as [u|] eqn:Hu; cbn in E; [|done].
    destruct (checked_sub (promised u) _); cbn in E; [|done]. injection E as <- <-.
    apply (states_latched_update _ _ _ u); [done|by apply latched_update..].
  - unfold Staging_reclaimed in E.
    destruct (failed _); [injection E as <- <-; by apply states_latched_refl|].
    destruct (images _ !! _) as [u|] eqn:Hu; [|injection E as <- <-; by apply states_latched_refl].
    case_decide; [injection E as <- <-; by apply states_latched_refl|].
    destruct (checked_sub _ _); cbn in E; [|done]. injection E as <- <-.
    apply (states_latched_update _ _ _ u); [done|by apply latched_update..].
Qed.

(** ** Properties *)

(** C25: the staging account balances under every interleaving.  The host's and
    each image's promised bytes are exactly those of the permits still
    outstanding; while the account has not failed no promise was lost, the
    host's allocation is the sum of the images' and neither the host nor any
    image has allocated and promised more than its capacity; and no call on the
    account or on a live permit panics. *)
Theorem staging_balanced cap l w :
  Forall QuotaImage_ok l → fits 64 cap → stage_reachable cap l w →
  promised (host (account w)) = promised_all (permits w ++ lost w) ∧
  (∀ i u, images (account w) !! i = Some u → promised u = promised_on i (permits w ++ lost w)) ∧
  (failed (account w) = false →
     lost w = [] ∧
     allocated (host (account w)) = sumZ (allocated <$> images (account w)) ∧
     Forall (λ u, allocated u + promised u ≤ capacity u)
       (host (account w) :: images (account w))) ∧
  (∀ image bytes, 0 ≤ bytes → is_ok (Staging_reserve (account w) image bytes) = true) ∧
  (∀ image a, 0 ≤ a → is_ok (Staging_reclaimed (account w) image a) = true) ∧
  (∀ p a, p ∈ permits w → fits 64 a →
     is_ok (Permit_drop (account w) p) = true ∧ is_ok (Permit_installed (account w) p a) = true).
Proof.
  intros Hl Hc Hr. destruct (stage_reachable_inv _ _ _ Hl Hc Hr) as [Hi Hlost].
  pose proof Hi as [H1 H2 H3 H4 H5 H6]. split_and!.
  - done.
  - intros i u Hu. by apply H3.
  - intros F. split_and!; [|by apply H5|by apply H6].
    destruct (lost w); [done|]. by rewrite Hlost in F.
  - intros image bytes Hb. by destruct (reserve_ok _ _ image bytes Hi Hb) as (? & ? & -> & _).
  - intros image a Ha. by destruct (reclaimed_ok _ _ image a Hi Ha) as (? & ? & -> & _).
  - intros p a Hp Ha. apply elem_of_Permutation in Hp as [k Hk].
    apply (account_inv_perm _ _ (p :: k ++ lost w)) in Hi; [|by rewrite Hk].
    destruct (drop_ok _ _ _ Hi) as (? & ? & -> & _).
    by destruct (installed_ok _ _ _ a Hi Ha) as (? & ? & ? & -> & _).
Qed.

(** The admission gate has hysteresis.  Whatever step the account takes, a
    stopped host or image stays stopped while at least sixty percent of its
    capacity is in use; and a reservation is only ever granted when the account
    has not failed and neither the host nor the image was stopped. *)
Lemma staging_gate w w' :
  stage_step w w' →
  (stopped (host (account w)) = true →
     capacity (host (account w')) * 60 ≤ used (host (account w')) * 100 →
     stopped (host (account w')) = true) ∧
  (∀ i u, images (account w) !! i = Some u → stopped u = true →
     ∃ u', images (account w') !! i = Some u' ∧ capacity u' = capacity u ∧
       (capacity u' * 60 ≤ used u' * 100 → stopped u' = true)) ∧
  (∀ image bytes s p, Staging_reserve (account w) image bytes = Ok (s, Ok p) →
     Staging_admits (account w) image = true).
Proof.
  intros [[_ Hh] [Hlen Hi]]%step_latched. split; [done|]. split.
  - intros i u Hu Hs. destruct (lookup_lt_is_Some_2 (images (account w')) i) as [u' Hu'].
    { rewrite Hlen. by eapply lookup_lt_Some. }
    exists u'. destruct (Hi _ _ _ Hu Hu') as [Hc Hl]. by auto.
  - intros image bytes s p [_ H]%reserve_latched. by apply H.
Qed.

Definition sample_quota : State :=
  {| host := {| allocated := 100; promised := 0; capacity := 1000; compaction := false; stopped := false |};
     images := [{| allocated := 100; promised := 0; capacity := 600; compaction := false; stopped := false |};
                {| allocated := 0; promised := 0; capacity := 600; compaction := false; stopped := false |}];
     failed := false |}.

Definition sample_full : State :=
  {| host := {| allocated := 100; promised := 500; capacity := 1000; compaction := false; stopped := false |};
     images := [{| allocated := 100; promised := 500; capacity := 600; compaction := true; stopped := true |};
                {| allocated := 0; promised := 0; capacity := 600; compaction := false; stopped := false |}];
     failed := false |}.

Definition sample_permit : Permit := {| p_image := 0; p_bytes := 500; p_running := false |}.

(** A permit that fills the first image's quota. *)
Lemma staging_balanced_witness :
  promised (host sample_full) = 500 ∧ is_ok (Permit_drop sample_full sample_permit) = true.
Proof.
  destruct (staging_balanced 1000
    [{| qi_allocated := 100; qi_capacity := 600 |}; {| qi_allocated := 0; qi_capacity := 600 |}]
    {| account := sample_full; permits := [sample_permit]; lost := [] |}) as (H & _ & _ & _ & _ & Hp).
  - repeat constructor; cbn; lia.
  - split; cbn; lia.
  - apply (stage_next _ _ {| account := sample_quota; permits := []; lost := [] |}).
    + apply stage_new. vm_compute. reflexivity.
    + apply (stage_reserved {| account := sample_quota; permits := []; lost := [] |} 0 500 sample_full
               sample_permit); [lia|]. vm_compute. reflexivity.
  - split; [exact H|]. apply (Hp sample_permit 0); [left | split; cbn; lia].
Defined.

(** The full image refuses a reservation and stays stopped. *)
