(* ===== verification/Fair.v ===== *)
(** * Fair admission

    Models [crates/cas/daemon/src/local/host/fair.rs]: bounded queues of request
    heads per image, first-in first-out among the ready heads of an image and
    deficit round robin between images.  Every definition below is one critical
    section of the scheduler's mutex; [Fair_resources_released], [Ticket_drop]
    and [Turn_drop] compose a section with the wake-up that follows it.  The
    step relation interleaves the sections of all owners. *)
From S2P Require Import Prelude Bytes.

Definition QUANTUM : Z := MAX_REQUEST_BYTES.
Definition HEADS : nat := 8.

Inductive Kind : Type := Control | Read (bytes : Z) | Write (bytes : Z).

Record Request : Type := { rq_id : Z; rq_bytes : Z; rq_ready : bool }.

Record Image : Type := {
  queue : list Request;
  deficit : Z;
  admitted_bytes : Z;
  admitted : Z;
  canceled : Z;
  deferred : Z;
}.

Record State : Type := {
  images : list Image;
  cursor : nat;
  replenish : bool;
  next_id : Z;
  granted : option (nat * Z);
  released_during_turn : bool;
}.

Record Ticket : Type := { t_image : nat; t_id : Z }.

Definition set_queue (im : Image) (q : list Request) : Image :=
  {| queue := q; deficit := deficit im; admitted_bytes := admitted_bytes im;
     admitted := admitted im; canceled := canceled im; deferred := deferred im |}.

Definition set_deficit (im : Image) (d : Z) : Image :=
  {| queue := queue im; deficit := d; admitted_bytes := admitted_bytes im;
     admitted := admitted im; canceled := canceled im; deferred := deferred im |}.

Definition set_image (s : State) (i : nat) (im : Image) : State :=
  {| images := <[i := im]> (images s); cursor := cursor s; replenish := replenish s;
     next_id := next_id s; granted := granted s; released_during_turn := released_during_turn s |}.

Definition set_replenish (s : State) (b : bool) : State :=
  {| images := images s; cursor := cursor s; replenish := b;
     next_id := next_id s; granted := granted s; released_during_turn := released_during_turn s |}.

Definition set_granted (s : State) (g : option (nat * Z)) (released : bool) : State :=
  {| images := images s; cursor := cursor s; replenish := replenish s;
     next_id := next_id s; granted := g; released_during_turn := released |}.

Definition set_ready (r : Request) (b : bool) : Request :=
  {| rq_id := rq_id r; rq_bytes := rq_bytes r; rq_ready := b |}.

Definition has_id (id : Z) (r : Request) : bool := bool_decide (rq_id r = id).

(** [Fair::new]; [available] says whether the metadata budget grants the
    queues and the shared owner. *)
Definition Fair_new (count : nat) (available : bool) : result State :=
  if decide (count = 0%nat) then invalid_input ""
  else if negb available then out_of_memory ""
  else Ok {| images := replicate count {| queue := []; deficit := 0; admitted_bytes := 0;
                                          admitted := 0; canceled := 0; deferred := 0 |};
             cursor := 0; replenish := true; next_id := 1; granted := None;
             released_during_turn := false |}.

Definition State_advance (s : State) : State :=
  {| images := images s; cursor := (S (cursor s) mod length (images s))%nat; replenish := true;
     next_id := next_id s; granted := granted s; released_during_turn := released_during_turn s |}.

(** The body of the loop of [choose]: one visit of the image at the cursor,
    which either selects its first ready head or moves on. *)
Definition visit (s : State) : result (State * option (nat * Z)) :=
  im ← expect (images s !! cursor s);
  match find_first rq_ready (queue im) with
  | None => Ok (State_advance (set_image s (cursor s) (set_deficit im 0)), None)
  | Some r =>
      let d := if replenish s && bool_decide (deficit im < rq_bytes r)
               then deficit im + QUANTUM else deficit im in
      let s := set_replenish (set_image s (cursor s) (set_deficit im d)) false in
      if decide (rq_bytes r ≤ d) then Ok (s, Some (cursor s, rq_id r))
      else Ok (State_advance s, None)
  end.

Fixpoint visits (n : nat) (s : State) : result (State * option (nat * Z)) :=
  match n with
  | O => Ok (s, None)
  | S n => '(s, chosen) ← visit s;
           match chosen with Some c => Ok (s, Some c) | None => visits n s end
  end.

(** [0..=self.images.len()] visits. *)
Definition State_choose (s : State) : result (State * option (nat * Z)) :=
  match granted s with
  | Some _ => Ok (s, None)
  | None => visits (S (length (images s))) s
  end.

Definition woken (next : option (nat * Z)) : option nat := fst <$> next.

(** The image to wake is the answer. *)
Definition Fair_wake_next (s : State) : result (State * option nat) :=
  '(s, next) ← State_choose s; Ok (s, woken next).

Definition mark_ready (s : State) : State :=
  {| images := (λ im, set_queue im ((λ r, set_ready r true) <$> queue im)) <$> images s;
     cursor := cursor s; replenish := replenish s; next_id := next_id s; granted := granted s;
     released_during_turn :=
       match granted s with Some _ => true | None => released_during_turn s end |}.

Definition Fair_resources_released (s : State) : result (State * option nat) :=
  Fair_wake_next (mark_ready s).

Definition Port_ticket (s : State) (image : nat) (kind : Kind) : State * result (option Ticket) :=
  match kind with
  | Control => (s, Ok None)
  | Read b | Write b =>
      let bytes := Z.max b BLOCK_SIZE in
      if decide (QUANTUM < bytes) then (s, invalid_input "")
      else
        let id := next_id s in
        match checked_add 64 id 1 with
        | None => (s, other "admission ticket IDs exhausted")
        | Some next =>
            match images s !! image with
            | None => (s, invalid_input "")
            | Some im =>
                if decide (length (queue im) = HEADS)
                then (s, other "image admission head capacity exceeded")
                else
                  let im := set_queue im (queue im ++
                    [{| rq_id := id; rq_bytes := bytes; rq_ready := true |}]) in
                  ({| images := <[image := im]> (images s); cursor := cursor s;
                      replenish := replenish s; next_id := next; granted := granted s;
                      released_during_turn := released_during_turn s |},
                   Ok (Some {| t_image := image; t_id := id |}))
            end
        end
  end.

(** [Ticket::turn]: whether the turn was granted, and else the image to wake. *)
Definition Ticket_turn (s : State) (t : Ticket) : result (State * result (bool * option nat)) :=
  im ← expect (images s !! t_image t);
  match find_first (has_id (t_id t)) (queue im) with
  | None => Ok (s, other "admission ticket already consumed")
  | Some _ =>
      let q := update_first (has_id (t_id t)) (λ r, set_ready r true) (queue im) in
      '(s, next) ← State_choose (set_image s (t_image t) (set_queue im q));
      if decide (next = Some (t_image t, t_id t))
      then Ok (set_granted s next false, Ok (true, None))
      else Ok (s, Ok (false, woken next))
  end.

(** [Turn::commit]: the assertion, then the granted head leaves its queue and
    is charged to its image. *)
Definition Turn_commit (s : State) (t : Ticket) : result State :=
  if decide (granted s = Some (t_image t, t_id t)) then
    im ← expect (images s !! t_image t);
    index ← expect (position (has_id (t_id t)) (queue im));
    head ← expect (queue im !! index);
    d ← expect (checked_sub (deficit im) (rq_bytes head));
    Ok (set_image s (t_image t)
      {| queue := vec_remove index (queue im); deficit := d;
         admitted_bytes := admitted_bytes im + rq_bytes head; admitted := admitted im + 1;
         canceled := canceled im; deferred := deferred im |})
  else Panic.

(** [queue[index..].rotate_left(1)] after writing the head's readiness. *)
Definition rejoin (index : nat) (retry : bool) (q : list Request) : list Request :=
  match q !! index with
  | Some r => vec_remove index q ++ [set_ready r retry]
  | None => q
  end.

Definition Turn_settle (s : State) (t : Ticket) (committed : bool) : result State :=
  if decide (granted s = Some (t_image t, t_id t)) then
    let retry := released_during_turn s in
    let s := set_granted s None retry in
    if committed then Ok s
    else
      im ← expect (images s !! t_image t);
      index ← expect (position (has_id (t_id t)) (queue im));
      Ok (State_advance (set_image s (t_image t)
        {| queue := rejoin index retry (queue im); deficit := deficit im;
           admitted_bytes := admitted_bytes im; admitted := admitted im;
           canceled := canceled im; deferred := deferred im + 1 |}))
  else Panic.

Definition Turn_drop (s : State) (t : Ticket) (committed : bool) : result (State * option nat) :=
  s ← Turn_settle s t committed; Fair_wake_next s.

Definition Ticket_cancel (s : State) (t : Ticket) : result State :=
  im ← expect (images s !! t_image t);
  match position (has_id (t_id t)) (queue im) with
  | None => Ok s
  | Some index =>
      Ok (set_image s (t_image t)
        {| queue := vec_remove index (queue im); deficit := deficit im;
           admitted_bytes := admitted_bytes im; admitted := admitted im;
           canceled := canceled im + 1; deferred := deferred im |})
  end.

Definition Ticket_drop (s : State) (t : Ticket) : result (State * option nat) :=
  s ← Ticket_cancel s t; Fair_wake_next s.

(** ** Interleavings *)

(** A live turn borrows its ticket; [committed] is its flag. *)
Record Owners : Type := {
  sched : State;
  tickets : list Ticket;
  turns : list (Ticket * bool);
}.

Inductive fair_step : Owners → Owners → Prop :=
  | fair_ticket w image kind s t :
      Port_ticket (sched w) image kind = (s, Ok (Some t)) →
      fair_step w {| sched := s; tickets := t :: tickets w; turns := turns w |}
  | fair_wake w s next :
      Fair_wake_next (sched w) = Ok (s, next) →
      fair_step w {| sched := s; tickets := tickets w; turns := turns w |}
  | fair_released w :
      fair_step w {| sched := mark_ready (sched w); tickets := tickets w; turns := turns w |}
  | fair_turn w t s b next :
      t ∈ tickets w → Ticket_turn (sched w) t = Ok (s, Ok (b, next)) →
      fair_step w {| sched := s; tickets := tickets w;
                     turns := if b : bool then turns w ++ [(t, false)] else turns w |}
  | fair_commit w pre t post s :
      turns w = pre ++ (t, false) :: post → Turn_commit (sched w) t = Ok s →
      fair_step w {| sched := s; tickets := tickets w; turns := pre ++ (t, true) :: post |}
  | fair_settle w pre t committed post s :
      turns w = pre ++ (t, committed) :: post → Turn_settle (sched w) t committed = Ok s →
      fair_step w {| sched := s; tickets := tickets w; turns := pre ++ post |}
  | fair_cancel w pre t post s :
      tickets w = pre ++ t :: post → t ∉ fst <$> turns w → Ticket_cancel (sched w) t = Ok s →
      fair_step w {| sched := s; tickets := pre ++ post; turns := turns w |}.

Inductive fair_reachable (count : nat) : Owners → Prop :=
  | fair_start s :
      Fair_new count true = Ok s → fair_reachable count {| sched := s; tickets := []; turns := [] |}
  | fair_next w w' : fair_reachable count w → fair_step w w' → fair_reachable count w'.

Definition image_ok (next : Z) (im : Image) : Prop :=
  Forall (λ r, BLOCK_SIZE ≤ rq_bytes r ≤ QUANTUM ∧ rq_id r < next) (queue im) ∧
  NoDup (rq_id <$> queue im) ∧ (length (queue im) ≤ HEADS)%nat ∧ 0 ≤ deficit im < 2 * QUANTUM.

(** ** Choosing a head *)

Definition state_ok (s : State) : Prop :=
  (cursor s < length (images s))%nat ∧ Forall (image_ok (next_id s)) (images s).

(** Only deficits, the cursor and the replenishing flag differ. *)
Definition same_queues (s s' : State) : Prop :=
  (queue <$> images s') = (queue <$> images s) ∧ next_id s' = next_id s ∧
  granted s' = granted s ∧ released_during_turn s' = released_during_turn s.

(** Image [i] has a ready head; [id] is its first and it can be paid. *)
Definition has_ready (s : State) (i : nat) : Prop :=
  ∃ im r, images s !! i = Some im ∧ r ∈ queue im ∧ rq_ready r = true.

Definition selects (s : State) (i : nat) (id : Z) : Prop :=
  cursor s = i ∧ replenish s = false ∧
  ∃ im r, images s !! i = Some im ∧ find_first rq_ready (queue im) = Some r ∧ rq_id r = id ∧
    rq_bytes r ≤ deficit im.

Lemma same_queues_length s s' : same_queues s s' → length (images s') = length (images s).
Proof. intros [H _]. apply (f_equal length) in H. by rewrite !length_fmap in H. Qed.

Lemma same_queues_trans s1 s2 s3 : same_queues s1 s2 → same_queues s2 s3 → same_queues s1 s3.
Proof. unfold same_queues. intros (-> & -> & -> & ->) (-> & -> & -> & ->). done. Qed.

Lemma same_queues_image s s' i im :
  same_queues s s' → images s !! i = Some im → ∃ im', images s' !! i = Some im' ∧ queue im' = queue im.
Proof.
  intros [H _] Hi. apply (f_equal (λ l, l !! i)) in H. rewrite !list_lookup_fmap, Hi in H.
  destruct (images s' !! i) as [im'|]; cbn in H; [|done]. injection H as H. eauto.
Qed.

Lemma same_queues_ready s s' i : same_queues s s' → has_ready s i → has_ready s' i.
Proof.
  intros Hs (im & r & Hi & Hr & Hd). destruct (same_queues_image _ _ _ _ Hs Hi) as (im' & Hi' & Hq).
  exists im', r. by rewrite Hq.
Qed.

Lemma fmap_insert_same {A B} (f : A → B) (l : list A) i x y :
  l !! i = Some x → f y = f x → f <$> <[i := y]> l = f <$> l.
Proof.
  intros Hi Hf. rewrite list_fmap_insert, Hf. apply list_insert_id. by rewrite list_lookup_fmap, Hi.
Qed.

Lemma image_ok_deficit n im d : image_ok n im → 0 ≤ d < 2 * QUANTUM → image_ok n (set_deficit im d).
Proof. unfold image_ok. cbn. tauto. Qed.

Lemma advance_cursor n c : (c < n)%nat → (S c mod n < n)%nat.
Proof. intros. apply Nat.mod_upper_bound. lia. Qed.

(** One visit: what it keeps, what it selects and where it moves. *)
Lemma visit_spec s :
  state_ok s →
  ∃ s' c, visit s = Ok (s', c) ∧ state_ok s' ∧ same_queues s s' ∧
    match c with
    | Some (i, id) => selects s' i id
    | None => cursor s' = (S (cursor s) mod length (images s))%nat ∧ replenish s' = true ∧
        (replenish s = true → ¬ has_ready s (cursor s))
    end.
Proof.
  intros [Hc Hi]. unfold visit. destruct (lookup_lt_is_Some_2 _ _ Hc) as [im Him]. rewrite Him. cbn.
  pose proof (Forall_lookup_1 _ _ _ _ Hi Him) as Hok. pose proof Hok as (Hq & Hn & Hl & Hd).
  destruct (find_first rq_ready (queue im)) as [r|] eqn:Ef.
  - destruct (find_first_Some _ _ _ Ef) as [Hr Hready].
    destruct (Forall_forall (λ r, BLOCK_SIZE ≤ rq_bytes r ≤ QUANTUM ∧ rq_id r < next_id s) (queue im))
      as [Hq' _]. specialize (Hq' Hq r Hr) as [Hb _].
    set (d := if _ && _ then _ else _).
    assert (0 ≤ d < 2 * QUANTUM ∧ (replenish s = true → rq_bytes r ≤ d)) as [Hd1 Hd2].
    { unfold d. destruct (replenish s); cbn [andb]; [|split; [done|done]].
      case_bool_decide; split; try done; lia. }
    assert (Hst : state_ok (set_replenish (set_image s (cursor s) (set_deficit im d)) false)).
    { split; cbn; [by rewrite length_insert|]. apply Forall_insert; [done|]. by apply image_ok_deficit. }
    assert (Hsq : same_queues s (set_replenish (set_image s (cursor s) (set_deficit im d)) false)).
    { split; [|done]. cbn. by apply (fmap_insert_same queue _ _ im). }
    case_decide as Hle.
    + eexists _, _. split; [done|]. split; [done|]. split; [done|].
      split; [done|]. split; [done|].
      exists (set_deficit im d), r. cbn. rewrite list_lookup_insert_eq by done. done.
    + eexists _, _. split; [done|]. split; [|split; [done|]].
      * split; [|apply Hst]. cbn. rewrite length_insert. by apply advance_cursor.
      * cbn. rewrite length_insert. split_and!; [done..|]. intros R. by apply Hd2 in R.
  - pose proof (proj1 (find_first_None _ _) Ef) as Hnone.
    eexists _, _. split; [done|]. split; [|split].
    + split; cbn; [rewrite length_insert; by apply advance_cursor|].
      apply Forall_insert; [done|]. apply image_ok_deficit; [done|]. unfold QUANTUM, MAX_REQUEST_BYTES. lia.
    + split; [|done]. cbn. by apply (fmap_insert_same queue _ _ im).
    + cbn. rewrite length_insert. split_and!; [done..|]. intros _ (im' & r & Him' & Hr & Hready).
      simplify_eq. rewrite (Hnone r Hr) in Hready. done.
Qed.

Lemma visits_spec n s :
  state_ok s →
  ∃ s' c, visits n s = Ok (s', c) ∧ state_ok s' ∧ same_queues s s' ∧
    match c with
    | Some (i, id) => selects s' i id
    | None => replenish s = true → ∀ k, (k < n)%nat →
        ¬ has_ready s ((cursor s + k) mod length (images s))
    end.
Proof.
  revert s. induction n as [|n IH]; intros s Hs; cbn [visits].
  - exists s, None. split_and!; [done..|]. lia.
  - destruct (visit_spec s Hs) as (s1 & c1 & -> & Hs1 & Hq1 & H1). cbn.
    destruct c1 as [[i id]|]; [by eauto 8|].
    destruct H1 as (C1 & R1 & N1). destruct (IH s1 Hs1) as (s2 & c2 & -> & Hs2 & Hq2 & H2).
    exists s2, c2. split; [done|]. split; [done|]. split; [by eapply same_queues_trans|].
    destruct c2 as [[i id]|]; [done|]. intros R [|k] Hk.
    + rewrite Nat.add_0_r, Nat.mod_small by apply Hs. auto.
    + intros Hr%(same_queues_ready _ _ _ Hq1). apply (H2 R1 k); [lia|].
      rewrite (same_queues_length _ _ Hq1), C1.
      rewrite Nat.Div0.add_mod_idemp_l. by replace (S (cursor s) + k)%nat with (cursor s + S k)%nat by lia.
Qed.

Lemma choose_spec s :
  state_ok s →
  ∃ s' c, State_choose s = Ok (s', c) ∧ state_ok s' ∧ same_queues s s' ∧
    match c with
    | Some (i, id) => selects s' i id ∧ granted s = None
    | None => granted s = None → ∀ i, ¬ has_ready s i
    end.
Proof.
  intros Hs. unfold State_choose. destruct (granted s) as [g|] eqn:G; [by exists s, None|].
  cbn [visits]. destruct (visit_spec s Hs) as (s1 & c1 & -> & Hs1 & Hq1 & H1). cbn.
  destruct c1 as [[i id]|]; [by eauto 8|]. destruct H1 as (C1 & R1 & _).
  destruct (visits_spec (length (images s)) s1 Hs1) as (s2 & c2 & -> & Hs2 & Hq2 & H2).
  exists s2, c2. split; [done|]. split; [done|]. split; [by eapply same_queues_trans|].
  destruct c2 as [[i id]|]; [done|]. intros _ i Hr.
  assert (Hi : (i < length (images s))%nat). { destruct Hr as (im & _ & Him & _). by eapply lookup_lt_Some. }
  pose proof (same_queues_length _ _ Hq1) as L. destruct Hs1 as [Hc1 _]. rewrite L in Hc1.
  set (n := length (images s)) in *.
  apply (H2 R1 ((i + n - cursor s1) mod n)%nat); [apply Nat.mod_upper_bound; lia|].
  rewrite L. rewrite Nat.Div0.add_mod_idemp_r.
  replace (cursor s1 + (i + n - cursor s1))%nat with (i + 1 * n)%nat by lia.
  rewrite Nat.Div0.mod_add, Nat.mod_small by done. by eapply same_queues_ready.
Qed.

(** ** The invariant of all owners *)

(** The granted head is still queued and its image can pay for it. *)
Definition payable (s : State) (t : Ticket) : Prop :=
  ∃ im r, images s !! t_image t = Some im ∧ r ∈ queue im ∧ rq_id r = t_id t ∧
    rq_bytes r ≤ deficit im.

Record fair_inv (w : Owners) : Prop := {
  fi_state : state_ok (sched w);
  fi_tickets : Forall (λ t, (t_image t < length (images (sched w)))%nat) (tickets w);
  fi_single : (length (turns w) ≤ 1)%nat;
  fi_granted : granted (sched w) = (λ p, (t_image p.1, t_id p.1)) <$> head (turns w);
  fi_turn : ∀ t committed, (t, committed) ∈ turns w →
    (t_image t < length (images (sched w)))%nat ∧ (committed = false → payable (sched w) t);
}.

Lemma single_turn w pre x post :
  fair_inv w → turns w = pre ++ x :: post → pre = [] ∧ post = [].
Proof.
  intros [_ _ H _ _] E. rewrite E, length_app in H. cbn in H.
  destruct pre, post; cbn in H; try done; lia.
Qed.

Lemma position_has_id q r id :
  r ∈ q → rq_id r = id → ∃ k x, position (has_id id) q = Some k ∧ q !! k = Some x ∧ rq_id x = id.
Proof.
  intros Hr Hid. destruct (position (has_id id) q) as [k|] eqn:E.
  - destruct (position_Some _ _ _ E) as (x & Hx & Hh). apply bool_decide_eq_true in Hh. eauto.
  - exfalso. induction q as [|y q IH]; [by apply elem_of_nil in Hr|]. cbn in E.
    destruct (has_id id y) eqn:Ey; [done|]. destruct (position _ q) eqn:Eq; [done|].
    apply elem_of_cons in Hr as [<-|Hr]; [|by apply IH].
    unfold has_id in Ey. by apply bool_decide_eq_false in Ey.
Qed.

Lemma vec_remove_Permutation {A} (l : list A) i x : l !! i = Some x → l ≡ₚ x :: vec_remove i l.
Proof.
  intros H. unfold vec_remove. rewrite <- (take_drop_middle l i x H) at 1. by rewrite Permutation_middle.
Qed.

Lemma image_ok_perm n im im' r :
  image_ok n im → queue im ≡ₚ r :: queue im' → 0 ≤ deficit im' < 2 * QUANTUM → image_ok n im'.
Proof.
  intros (H1 & H2 & H3 & H4) Hp Hd. rewrite Hp in H1, H2, H3. apply Forall_cons in H1 as [_ H1].
  rewrite fmap_cons in H2. apply NoDup_cons in H2 as [_ H2]. cbn in H3.
  split_and!; [done..| |lia|lia]. lia.
Qed.

Lemma image_ok_rejoin n im im' i r b :
  image_ok n im → queue im !! i = Some r → queue im' = rejoin i b (queue im) → deficit im' = deficit im →
  image_ok n im'.
Proof.
  intros (H1 & H2 & H3 & H4) Hr Hq Hd. unfold rejoin in Hq. rewrite Hr in Hq.
  pose proof (vec_remove_Permutation _ _ _ Hr) as Hp. rewrite Hp in H1, H2, H3. cbn in H3.
  apply Forall_cons in H1 as [H0 H1]. unfold image_ok. rewrite Hq, Hd. split_and!; try lia.
  - apply Forall_app. split; [done|]. by constructor.
  - rewrite fmap_app. cbn. rewrite Permutation_app_comm. by rewrite fmap_cons in H2.
  - rewrite length_app. cbn. lia.
Qed.

Lemma image_ok_weaken n n' im : n ≤ n' → image_ok n im → image_ok n' im.
Proof.
  intros Hn (H1 & H2). split; [|done]. eapply Forall_impl; [exact H1|]. cbn. intros. lia.
Qed.

Lemma image_ok_ids n im q :
  image_ok n im → Forall2 (λ r r', rq_id r' = rq_id r ∧ rq_bytes r' = rq_bytes r) (queue im) q →
  image_ok n (set_queue im q).
Proof.
  intros (H1 & H2 & H3 & H4) Hq. unfold image_ok. cbn.
  split_and!; try lia.
  - clear -H1 Hq. induction Hq as [|r r' q q' [E1 E2] Hq IH]; [done|]. apply Forall_cons in H1 as [H0 H1].
    constructor; [by rewrite E1, E2 | auto].
  - replace (rq_id <$> q) with (rq_id <$> queue im); [done|]. clear -Hq.
    induction Hq as [|r r' q q' [E1 E2] Hq IH]; [done|]. rewrite !fmap_cons. congruence.
  - by rewrite <- (Forall2_length _ _ _ Hq).
Qed.

Lemma update_first_ids id q :
  Forall2 (λ r r', rq_id r' = rq_id r ∧ rq_bytes r' = rq_bytes r) q
    (update_first (has_id id) (λ r, set_ready r true) q).
Proof.
  induction q as [|r q IH]; cbn; [done|]. destruct (has_id id r).
  - constructor; [done|]. clear. induction q; by constructor.
  - by constructor.
Qed.

Lemma payable_insert s s' t i im im' :
  payable s t → images s !! i = Some im → images s' = <[i := im']> (images s) →
  (i = t_image t → deficit im ≤ deficit im' ∧
     ∀ r, r ∈ queue im → rq_id r = t_id t →
       ∃ r', r' ∈ queue im' ∧ rq_id r' = rq_id r ∧ rq_bytes r' = rq_bytes r) →
  payable s' t.
Proof.
  intros (im0 & r & H1 & H2 & H3 & H4) Hi Hs H. unfold payable. rewrite Hs.
  destruct (decide (i = t_image t)) as [->|Hne].
  - simplify_eq. destruct (H eq_refl) as [Hd Hr]. destruct (Hr r H2 H3) as (r' & R1 & R2 & R3).
    exists im', r'. rewrite list_lookup_insert_eq by (by eapply lookup_lt_Some). split_and!; [done..|congruence|lia].
  - exists im0, r. rewrite list_lookup_insert_ne by done. done.
Qed.

Lemma Forall2_elem {A} (R : A → A → Prop) l k x : Forall2 R l k → x ∈ l → ∃ y, y ∈ k ∧ R x y.
Proof.
  intros H [i Hi]%list_elem_of_lookup. destruct (Forall2_lookup_l _ _ _ _ _ H Hi) as (y & Hy & HR).
  exists y. split; [by eapply list_elem_of_lookup_2|done].
Qed.

(** Replacing one image without touching the cursor. *)
Lemma state_ok_insert s s' i im' :
  state_ok s → images s' = <[i := im']> (images s) → cursor s' = cursor s → next_id s ≤ next_id s' →
  image_ok (next_id s') im' → state_ok s'.
Proof.
  intros [Hc Hi] Hs Hcur Hn Him. split; rewrite Hs, ?Hcur; [by rewrite length_insert|].
  apply Forall_insert; [|done]. eapply Forall_impl; [exact Hi|]. intros. by eapply image_ok_weaken.
Qed.

Lemma ticket_inv w image kind s t :
  fair_inv w → Port_ticket (sched w) image kind = (s, Ok (Some t)) →
  fair_inv {| sched := s; tickets := t :: tickets w; turns := turns w |}.
Proof.
  intros [Hs Ht Hone Hg Hu].
  assert (∀ b, Port_ticket (sched w) image (Read b) = (s, Ok (Some t)) →
    fair_inv {| sched := s; tickets := t :: tickets w; turns := turns w |}) as Hread.
  2:{ destruct kind as [|b|b]; [done|..]; apply (Hread b). }
  intros b. unfold Port_ticket. case_decide as Hb; [done|].
  destruct (checked_add 64 _ 1) as [next|] eqn:En; [|done]. apply checked_add_Some in En as [-> En].
  destruct (images (sched w) !! image) as [im|] eqn:Him; [|done]. case_decide as Hh; [done|].
  intros [= <- <-].
  pose proof (Forall_lookup_1 _ _ _ _ (proj2 Hs) Him) as (Q1 & Q2 & Q3 & Q4).
  split; cbn.
  - eapply (state_ok_insert (sched w) _ image); [done|cbn; done..|cbn; lia|].
    unfold image_ok. cbn. split_and!; try lia.
    + apply Forall_app. split; [eapply Forall_impl; [exact Q1|]; cbn; intros; lia|].
      constructor; [cbn; unfold BLOCK_SIZE in *; lia|done].
    + rewrite fmap_app. apply NoDup_app. split; [done|]. split; [|apply NoDup_singleton].
      intros x [r [-> Hr]]%list_elem_of_fmap Hx%list_elem_of_singleton. cbn in Hx.
      rewrite Forall_forall in Q1. destruct (Q1 r Hr). lia.
    + rewrite length_app. cbn. unfold HEADS in *. lia.
  - rewrite length_insert. constructor; [by eapply lookup_lt_Some|done].
  - done.
  - done.
  - intros t' c Htc. rewrite length_insert. destruct (Hu _ _ Htc) as [L P]. split; [done|].
    intros Hc. eapply payable_insert; [by apply P|exact Him|done|]. intros _. cbn. split; [done|].
    intros r Hr _. exists r. split; [|done]. apply elem_of_app. by left.
Qed.

Lemma choose_inv w s c :
  fair_inv w → State_choose (sched w) = Ok (s, c) →
  fair_inv {| sched := s; tickets := tickets w; turns := turns w |} ∧
  same_queues (sched w) s.
Proof.
  intros Hw E. pose proof (fi_granted _ Hw) as Hg. destruct (turns w) as [|[t0 c0] ts] eqn:T.
  - destruct Hw as [Hs Ht _ _ _]. destruct (choose_spec _ Hs) as (s' & c' & E' & Hs' & Hq & _).
    rewrite E in E'. injection E' as <- <-. split; [|done]. pose proof (same_queues_length _ _ Hq) as L.
    split; cbn; [done|by rewrite L|lia| |by intros ? ? ?%elem_of_nil].
    destruct Hq as (_ & _ & -> & _). by rewrite Hg.
  - unfold State_choose in E. rewrite Hg in E.
    cbn in E. injection E as <- <-. rewrite <- T. split; [by destruct w | done].
Qed.

Lemma mark_ready_inv w :
  fair_inv w → fair_inv {| sched := mark_ready (sched w); tickets := tickets w; turns := turns w |}.
Proof.
  intros [[Hc Hi] Ht Hone Hg Hu].
  assert (Hids : ∀ q, Forall2 (λ r r', rq_id r' = rq_id r ∧ rq_bytes r' = rq_bytes r) q
    ((λ r, set_ready r true) <$> q)) by (intros q; induction q; by constructor).
  split; cbn.
  - split; cbn; [by rewrite length_fmap|]. apply Forall_fmap. eapply Forall_impl; [exact Hi|].
    intros im Him. by apply image_ok_ids.
  - by rewrite length_fmap.
  - done.
  - done.
  - intros t c Htc. rewrite length_fmap. destruct (Hu _ _ Htc) as [L P]. split; [done|].
    intros (im & r & H1 & H2 & H3 & H4)%P. eexists _, (set_ready r true). cbn.
    rewrite list_lookup_fmap, H1. cbn. split; [done|]. cbn. split; [|done].
    apply list_elem_of_fmap. eauto.
Qed.

Lemma set_queue_inv w i im q :
  fair_inv w → images (sched w) !! i = Some im →
  Forall2 (λ r r', rq_id r' = rq_id r ∧ rq_bytes r' = rq_bytes r) (queue im) q →
  fair_inv {| sched := set_image (sched w) i (set_queue im q); tickets := tickets w; turns := turns w |}.
Proof.
  intros [Hs Ht Hone Hg Hu] Him Hq. split; cbn.
  - eapply (state_ok_insert (sched w) _ i); [done|cbn; done..|].
    apply image_ok_ids; [by eapply (Forall_lookup_1 _ _ _ _ (proj2 Hs))|done].
  - by rewrite length_insert.
  - done.
  - done.
  - intros t' c Htc. rewrite length_insert. destruct (Hu _ _ Htc) as [L P]. split; [done|].
    intros Hc. eapply payable_insert; [by apply P|exact Him|done|]. intros _. cbn. split; [done|].
    intros r Hr _. by apply (Forall2_elem _ _ _ _ Hq).
Qed.

Lemma turn_ok w t :
  fair_inv w → t ∈ tickets w →
  ∃ s r, Ticket_turn (sched w) t = Ok (s, r) ∧ r ≠ Panic ∧
    ∀ b next, r = Ok (b, next) →
      fair_inv {| sched := s; tickets := tickets w;
                  turns := if b : bool then turns w ++ [(t, false)] else turns w |}.
Proof.
  intros Hw Hin. pose proof (proj1 (Forall_forall _ _) (fi_tickets _ Hw) t Hin) as Hlen.
  unfold Ticket_turn. destruct (lookup_lt_is_Some_2 _ _ Hlen) as [im Him]. rewrite Him. cbn.
  destruct (find_first _ _) as [f0|]; [|by eexists _, _].
  pose proof (set_queue_inv _ _ _ _ Hw Him (update_first_ids (t_id t) (queue im))) as H1.
  destruct (choose_spec _ (fi_state _ H1)) as (s & c & E & Hs & Hq & Hc). cbn in E. rewrite E.
  destruct (choose_inv _ _ _ H1 E) as [H2 _]. cbn in H2, Hc. cbn.
  case_decide as Hd.
  - subst c. eexists _, _. split; [done|]. split; [done|]. intros b next [= <- <-].
    destruct Hc as [(_ & _ & im' & r & R1 & R2 & R3 & R4) Hnone]. destruct H2 as [K1 K2 _ _ _]. cbn in *.
    pose proof (fi_granted _ Hw) as Hg. rewrite Hnone in Hg.
    destruct (turns w); [|done]. cbn. split; cbn; [done..|].
    intros t' c' [= -> ->]%list_elem_of_singleton. split; [by eapply lookup_lt_Some|]. intros _.
    exists im', r. by destruct (find_first_Some _ _ _ R2).
  - eexists _, _. split; [done|]. split; [done|]. by intros b next [= <- <-].
Qed.

Lemma commit_ok w pre t post :
  fair_inv w → turns w = pre ++ (t, false) :: post →
  ∃ s, Turn_commit (sched w) t = Ok s ∧
    fair_inv {| sched := s; tickets := tickets w; turns := pre ++ (t, true) :: post |}.
Proof.
  intros Hw T. destruct (single_turn _ _ _ _ Hw T) as [-> ->]. destruct Hw as [Hs Ht Hone Hg Hu].
  cbn [app] in *. assert (Tin : (t, false) ∈ turns w) by (rewrite T; left).
  destruct (Hu _ _ Tin) as [L P]. destruct (P eq_refl) as (im & r & H1 & H2 & H3 & H4).
  rewrite T in Hg. cbn in Hg. unfold Turn_commit. rewrite decide_True by done. rewrite H1. cbn.
  destruct (position_has_id _ _ _ H2 H3) as (k & x & -> & Hx & Hid). cbn. rewrite Hx. cbn.
  pose proof (Forall_lookup_1 _ _ _ _ (proj2 Hs) H1) as Hok. pose proof Hok as (Q1 & Q2 & Q3 & Q4).
  assert (x = r) as ->.
  { apply list_elem_of_lookup in H2 as [j Hj]. assert (k = j) as ->.
    { apply (NoDup_lookup _ _ _ (t_id t) Q2); rewrite list_lookup_fmap.
      - rewrite Hx. cbn. congruence.
      - rewrite Hj. cbn. congruence. }
    congruence. }
  rewrite checked_sub_fits by done. cbn. eexists. split; [done|].
  assert (0 ≤ rq_bytes r).
  { apply (proj1 (Forall_forall _ _) Q1) in H2 as [? _]. unfold BLOCK_SIZE in *. lia. }
  split; cbn; [|by rewrite length_insert|done|done|].
  - eapply (state_ok_insert (sched w) _ (t_image t)); [done|cbn; done..|].
    apply (image_ok_perm _ im _ r); [done|cbn; by apply vec_remove_Permutation|cbn; lia].
  - intros t' c [= -> ->]%list_elem_of_singleton. by rewrite length_insert.
Qed.

Lemma settle_ok w pre t committed post :
  fair_inv w → turns w = pre ++ (t, committed) :: post →
  ∃ s, Turn_settle (sched w) t committed = Ok s ∧
    fair_inv {| sched := s; tickets := tickets w; turns := pre ++ post |}.
Proof.
  intros Hw T. destruct (single_turn _ _ _ _ Hw T) as [-> ->]. destruct Hw as [Hs Ht Hone Hg Hu].
  cbn [app] in *. assert (Tin : (t, committed) ∈ turns w) by (rewrite T; left).
  assert (∀ t' c' (P : Prop), (t', c') ∈ @nil (Ticket * bool) → P) as Hnil.
  { by intros ? ? ? ?%elem_of_nil. }
  destruct (Hu _ _ Tin) as [L P]. rewrite T in Hg. cbn in Hg.
  unfold Turn_settle. rewrite decide_True by done. destruct committed.
  - eexists. split; [done|]. split; cbn; [done | done | lia | done |]. intros t' c'. apply Hnil.
  - destruct (P eq_refl) as (im & r & H1 & H2 & H3 & H4). cbn. rewrite H1. cbn.
    destruct (position_has_id _ _ _ H2 H3) as (k & x & -> & Hx & Hid). cbn. eexists. split; [done|].
    pose proof (Forall_lookup_1 _ _ _ _ (proj2 Hs) H1) as Hok.
    split; cbn; [|by rewrite length_insert|lia|done|intros t' c'; apply Hnil]. destruct Hs as [Hc Hi]. split; cbn.
    + rewrite length_insert. by apply advance_cursor.
    + apply Forall_insert; [done|]. by eapply (image_ok_rejoin _ im _ k x).
Qed.

Lemma vec_remove_keeps {A} (l : list A) k x y : l !! k = Some x → y ∈ l → y ≠ x → y ∈ vec_remove k l.
Proof.
  intros Hk Hy Hne. rewrite (vec_remove_Permutation _ _ _ Hk) in Hy. by apply elem_of_cons in Hy as [?|?].
Qed.

Lemma cancel_ok w pre t post :
  fair_inv w → tickets w = pre ++ t :: post → t ∉ fst <$> turns w →
  ∃ s, Ticket_cancel (sched w) t = Ok s ∧
    fair_inv {| sched := s; tickets := pre ++ post; turns := turns w |}.
Proof.
  intros [Hs Ht Hone Hg Hu] Hp Hne. rewrite Hp in Ht. apply Forall_app in Ht as [T1 [T2 T3]%Forall_cons].
  unfold Ticket_cancel. destruct (lookup_lt_is_Some_2 _ _ T2) as [im Him]. rewrite Him. cbn.
  destruct (position _ _) as [k|] eqn:Ek.
  - destruct (position_Some _ _ _ Ek) as (x & Hx & Hid%bool_decide_eq_true). eexists. split; [done|].
    split; cbn; rewrite ?length_insert; [|by apply Forall_app|done|done|].
    + eapply (state_ok_insert (sched w) _ (t_image t)); [done|cbn; done..|].
      pose proof (Forall_lookup_1 _ _ _ _ (proj2 Hs) Him) as Hok. pose proof Hok as (_ & _ & _ & Q4).
      apply (image_ok_perm _ im _ x); [done|cbn; by apply vec_remove_Permutation|done].
    + intros t' c Htc. destruct (Hu _ _ Htc) as [L P]. split; [done|]. intros Hc.
      eapply payable_insert; [by apply P|exact Him|done|]. intros Himg. cbn. split; [done|].
      intros r Hr Hrid. exists r. split; [|done]. apply (vec_remove_keeps _ _ x); [done..|].
      intros ->. apply Hne. apply list_elem_of_fmap. exists (t', c). split; [|done].
      destruct t, t'. cbn in *. congruence.
  - eexists. split; [done|]. split; cbn; [done|by apply Forall_app|done|done|done].
Qed.

Lemma fair_inv_step w w' : fair_inv w → fair_step w w' → fair_inv w'.
Proof.
  intros Hw Hs. destruct Hs as [w image kind s t E | w s next E | w | w t s b next Hin E | w tpre t tpost s T E
    | w tpre t committed tpost s T E | w pre t post s Hp Hne E].
  - by eapply ticket_inv.
  - unfold Fair_wake_next in E. destruct (State_choose (sched w)) as [[s' c]| |] eqn:Ec; cbn in E; [|done..].
    injection E as <- <-. by apply (choose_inv _ _ c).
  - by apply mark_ready_inv.
  - destruct (turn_ok _ _ Hw Hin) as (s' & r & E' & _ & H). rewrite E in E'. injection E' as <- <-. by apply (H b next).
  - destruct (commit_ok _ _ _ _ Hw T) as (s' & E' & H). congruence.
  - destruct (settle_ok _ _ _ _ _ Hw T) as (s' & E' & H). congruence.
  - destruct (cancel_ok _ _ _ _ Hw Hp Hne) as (s' & E' & H). congruence.
Qed.

Lemma fair_reachable_inv count w : fair_reachable count w → fair_inv w.
Proof.
  induction 1 as [s E|]; [|by eapply fair_inv_step]. unfold Fair_new in E. case_decide; [done|].
  cbn in E. injection E as <-. split; cbn; [|done|lia|done|by intros ? ? ?%elem_of_nil]. split; cbn; [rewrite length_replicate; lia|].
  apply Forall_replicate. unfold image_ok. cbn. split_and!; [done|apply NoDup_nil_2|unfold HEADS; lia|done..].
Qed.

Lemma update_first_ready q r id :
  NoDup (rq_id <$> q) → r ∈ q → rq_id r = id → rq_ready r = true →
  update_first (has_id id) (λ r, set_ready r true) q = q.
Proof.
  intros Hn Hr Hid Hready. induction q as [|x q IH]; [done|]. cbn.
  rewrite fmap_cons in Hn. apply NoDup_cons in Hn as [Hx Hn].
  destruct (has_id id x) eqn:Ex.
  - apply bool_decide_eq_true in Ex. apply elem_of_cons in Hr as [<-|Hr].
    + f_equal. destruct r. cbn in *. by subst.
    + destruct Hx. rewrite Ex, <- Hid. apply list_elem_of_fmap. eauto.
  - f_equal. apply IH; [done|]. apply elem_of_cons in Hr as [->|Hr]; [|done].
    unfold has_id in Ex. by apply bool_decide_eq_false in Ex.
Qed.

(** A selected head stays selected until something changes. *)
Lemma selects_visits n s i id :
  selects s i id → (0 < n)%nat → ∃ s', visits n s = Ok (s', Some (i, id)).
Proof.
  intros (Hc & Hrep & im & r & Him & Hf & Hid & Hd) Hn. destruct n as [|n]; [lia|]. cbn [visits].
  unfold visit. rewrite Hc, Him. cbn. rewrite Hf, Hrep. cbn [andb]. rewrite decide_True by done. cbn.
  rewrite Hc, Hid. eauto.
Qed.

Lemma selects_turn w i id :
  fair_inv w → turns w = [] → selects (sched w) i id →
  ∃ s, Ticket_turn (sched w) {| t_image := i; t_id := id |} = Ok (s, Ok (true, None)).
Proof.
  intros [Hs _ _ Hg _] T Hsel. rewrite T in Hg. cbn in Hg. pose proof Hsel as (_ & _ & im & r & Him & Hf & Hid & _).
  destruct (find_first_Some _ _ _ Hf) as [Hr Hready].
  pose proof (Forall_lookup_1 _ _ _ _ (proj2 Hs) Him) as (_ & Hn & _).
  unfold Ticket_turn. cbn. rewrite Him. cbn.
  destruct (find_first (has_id id) (queue im)) as [x|] eqn:Ex.
  2:{ rewrite find_first_None in Ex. specialize (Ex r Hr). by apply bool_decide_eq_false in Ex. }
  rewrite (update_first_ready _ r) by done.
  assert (set_image (sched w) i (set_queue im (queue im)) = sched w) as ->.
  { unfold set_image, set_queue. destruct im. cbn. rewrite list_insert_id by done. by destruct (sched w). }
  unfold State_choose. rewrite Hg.
  destruct (selects_visits (S (length (images (sched w)))) _ _ _ Hsel) as [s' Hv]; [lia|].
  rewrite Hv. cbn. rewrite decide_True by done. eauto.
Qed.

(** ** Properties *)

(** C26: the admission scheduler is safe under every interleaving of its
    owners.  Never are two turns alive: [Ticket::turn] grants none while
    another is out, whoever asks, and the state's [granted] is the live one;
    every image keeps at most [HEADS] heads with distinct identities, each of at least
    one block and at most a quantum, and a deficit below two quanta; and no
    critical section panics: the assertions of [commit] and of the turn's drop
    hold, the granted head is always found and its charge never exceeds the
    deficit. *)
Theorem fair_safe count w :
  fair_reachable count w →
  (length (turns w) ≤ 1)%nat ∧
  granted (sched w) = (λ p, (t_image p.1, t_id p.1)) <$> head (turns w) ∧
  (∀ t, t ∈ tickets w → turns w ≠ [] →
     match Ticket_turn (sched w) t with Ok (_, Ok (b, _)) => b = false | _ => True end) ∧
  Forall (λ im, NoDup (rq_id <$> queue im) ∧ (length (queue im) ≤ HEADS)%nat ∧
                Forall (λ r, BLOCK_SIZE ≤ rq_bytes r ≤ QUANTUM) (queue im) ∧
                0 ≤ deficit im < 2 * QUANTUM) (images (sched w)) ∧
  is_ok (Fair_wake_next (sched w)) = true ∧
  is_ok (Fair_resources_released (sched w)) = true ∧
  (∀ t, t ∈ tickets w → is_ok (Ticket_turn (sched w) t) = true) ∧
  (∀ t, (t, false) ∈ turns w → is_ok (Turn_commit (sched w) t) = true) ∧
  (∀ t committed, (t, committed) ∈ turns w →
     is_ok (Turn_drop (sched w) t committed) = true) ∧
  (∀ t, t ∈ tickets w → t ∉ fst <$> turns w → is_ok (Ticket_drop (sched w) t) = true).
Proof.
  intros Hr. pose proof (fair_reachable_inv _ _ Hr) as Hw.
  assert (Hwake : ∀ w, fair_inv w → is_ok (Fair_wake_next (sched w)) = true).
  { intros v Hv. unfold Fair_wake_next. by destruct (choose_spec _ (fi_state _ Hv)) as (? & ? & -> & _). }
  split_and!.
  - apply Hw.
  - apply Hw.
  - intros t Ht Hlive. destruct (turn_ok _ _ Hw Ht) as (s & r & -> & _ & H).
    destruct r as [[[] next]| |]; try done. specialize (H true next eq_refl).
    pose proof (fi_single _ H) as Hone. cbn in Hone. rewrite length_app in Hone. cbn in Hone.
    destruct (turns w); [done | cbn in Hone; lia].
  - eapply Forall_impl; [apply (fi_state _ Hw)|]. intros im (H1 & H2 & H3 & H4). split_and!; [done..| |lia|lia].
    eapply Forall_impl; [exact H1|]. by intros ? [].
  - auto.
  - apply (Hwake _ (mark_ready_inv _ Hw)).
  - intros t Ht. by destruct (turn_ok _ _ Hw Ht) as (? & ? & -> & _).
  - intros t (pre & post & Ht)%list_elem_of_split. by destruct (commit_ok _ _ _ _ Hw Ht) as (? & -> & _).
  - intros t c (pre & post & Ht)%list_elem_of_split. unfold Turn_drop.
    destruct (settle_ok _ _ _ _ _ Hw Ht) as (? & -> & Hv). apply (Hwake _ Hv).
  - intros t (pre & post & Ht)%list_elem_of_split Hne. unfold Ticket_drop.
    destruct (cancel_ok _ _ _ _ Hw Ht Hne) as (? & -> & Hv). apply (Hwake _ Hv).
Qed.

(** C27: admission is work-conserving.  In a reachable scheduler with no turn
    granted, whenever some image has a ready head, one pass of [choose] selects
    the first ready head of some image, and that head's own [turn] is then
    granted: no wake-up is spent on a head that would be refused, and the bound
    of one visit per image plus one is enough. *)
Theorem fair_progress count w i :
  fair_reachable count w → turns w = [] → has_ready (sched w) i →
  ∃ s j id im r, State_choose (sched w) = Ok (s, Some (j, id)) ∧
    images (sched w) !! j = Some im ∧ find_first rq_ready (queue im) = Some r ∧ rq_id r = id ∧
    ∃ s', Ticket_turn s {| t_image := j; t_id := id |} = Ok (s', Ok (true, None)).
Proof.
  intros Hr T Hi. pose proof (fair_reachable_inv _ _ Hr) as Hw. pose proof (fi_granted _ Hw) as Hg.
  rewrite T in Hg. cbn in Hg.
  destruct (choose_spec _ (fi_state _ Hw)) as (s & c & E & Hs & Hq & Hc).
  destruct c as [[j id]|]; [|by destruct (Hc Hg i)]. destruct Hc as [Hsel _].
  pose proof Hsel as (_ & _ & im' & r & Him' & Hf & Hid & _).
  assert (∃ im, images (sched w) !! j = Some im ∧ queue im = queue im')
    as (im & Him & Hqe).
  { destruct (images (sched w) !! j) as [im|] eqn:Him.
    - exists im. split; [done|]. destruct (same_queues_image _ _ _ _ Hq Him) as (x & Hx & Hqx). congruence.
    - apply lookup_ge_None in Him. apply lookup_lt_Some in Him'. rewrite (same_queues_length _ _ Hq) in Him'. lia. }
  exists s, j, id, im, r. rewrite Hqe. split_and!; [done..|].
  destruct (choose_inv _ _ _ Hw E) as [Hw' _]. by apply (selects_turn _ _ _ Hw').
Qed.

Definition sample_new : State :=
  Eval vm_compute in unwrap_or
    {| images := []; cursor := 0; replenish := true; next_id := 0; granted := None;
       released_during_turn := false |} (Fair_new 2 true).

Definition sample_head : State * result (option Ticket) :=
  Eval vm_compute in Port_ticket sample_new 1 (Write 8192).

Definition sample_owners : Owners :=
  {| sched := fst sample_head; tickets := [{| t_image := 1; t_id := 1 |}]; turns := [] |}.

(** One queued write on the second image. *)
Lemma fair_safe_witness :
  is_ok (Ticket_turn (sched sample_owners) {| t_image := 1; t_id := 1 |}) = true ∧
  granted (sched sample_owners) = None.
Proof.
  destruct (fair_safe 2 sample_owners) as (_ & Hg & _ & _ & _ & _ & Ht & _).
  - apply (fair_next _ {| sched := sample_new; tickets := []; turns := [] |}).
    + apply fair_start. vm_compute. reflexivity.
    + apply (fair_ticket {| sched := sample_new; tickets := []; turns := [] |} 1 (Write 8192)).
      vm_compute. reflexivity.
  - split; [apply Ht; left | exact Hg].
Defined.

Lemma fair_progress_witness :
  ∃ s, State_choose (sched sample_owners) = Ok (s, Some (1%nat, 1)).
Proof.
  destruct (fair_progress 2 sample_owners 1) as (s & j & id & im & r & E & _).
  - apply (fair_next _ {| sched := sample_new; tickets := []; turns := [] |}).
    + apply fair_start. vm_compute. reflexivity.
    + apply (fair_ticket {| sched := sample_new; tickets := []; turns := [] |} 1 (Write 8192)).
      vm_compute. reflexivity.
  - reflexivity.
  - eexists _, _. split; [reflexivity|]. split; [left|reflexivity].
  - exists s. rewrite E. vm_compute in E. injection E as <- <- <-. reflexivity.
Defined.
