(* ===== verification/AppendLog.v ===== *)
(** * The staging log

    Models the state machine of the write-ahead log: [append.rs] (the [Log],
    its configuration and publication), [append/submission.rs] (physical
    reservation, ordered publication, fences and syncs), [append/rotation.rs]
    (preparing and installing a successor segment) under [crates/cas/core/src].
    A submission carries the segment it belongs to by its number: numbers are
    never reused, so comparing numbers is comparing the shared owners.  The
    manifest base, the compaction cursor and the allocation of metadata are not
    part of the state; [available] arguments answer the fallible allocations.
    The step relation of [AppendWorld] drives these operations. *)
From S2P Require Import Prelude Bytes AppendFormat AppendPacking IntervalIndex.

Record Config : Type := {
  cf_store : bytes;
  cf_image : bytes;
  cf_image_bytes : Z;
  cf_segment_bytes : Z;
}.

Record Limits : Type := { lm_staging_bytes : Z; lm_intervals : Z }.

Definition Config_header (c : Config) (epoch number preceding_sequence : Z) : SegmentHeader := {|
  sh_store := cf_store c;
  sh_image := cf_image c;
  sh_epoch := epoch;
  sh_number := number;
  sh_capacity := cf_segment_bytes c;
  sh_image_bytes := cf_image_bytes c;
  sh_preceding_sequence := preceding_sequence;
|}.

Definition Config_validate (c : Config) (l : Limits) : result unit :=
  SegmentHeader_validate (Config_header c 1 1 0);;
  if bool_decide (cf_segment_bytes c < MAX_BATCH_BYTES + 2 * BLOCK_SIZE) ||
     bool_decide (lm_staging_bytes l < cf_segment_bytes c) ||
     bool_decide (lm_intervals l < 2 * MAX_DESCRIPTORS)
  then Err (Error LogCapacity "") else Ok tt.

Definition Config_matches (c : Config) (h : SegmentHeader) : bool :=
  bool_decide (cf_store c = sh_store h) && bool_decide (cf_image c = sh_image h) &&
  bool_decide (cf_image_bytes c = sh_image_bytes h) &&
  bool_decide (cf_segment_bytes c = sh_capacity h).

Record Cohort : Type := { co_segment : Z; co_batch : Z; co_boundary : Z }.

#[global] Instance Cohort_eq_dec : EqDecision Cohort.
Proof. solve_decision. Defined.

Record Log : Type := {
  lg_config : Config;
  lg_limits : Limits;
  lg_segments : list SegmentHeader;
  lg_index : Index;
  lg_offset : Z;
  lg_next_batch : Z;
  lg_highest_segment : Z;
  lg_published : Z;
  lg_issued : Z;
  lg_pending_descriptors : Z;
  lg_cohort : option Cohort;
  lg_durable : Z;
  lg_encoded_bytes : Z;
  lg_allocated_bytes : Z;
  lg_failed : bool;
  lg_fenced : bool;
  lg_rotating : bool;
}.

(** [Log::empty] with the index of [Index::new]. *)
Definition Log_empty (c : Config) (l : Limits) (highest published : Z) : Log := {|
  lg_config := c;
  lg_limits := l;
  lg_segments := [];
  lg_index := {| ix_map := []; ix_limit := lm_intervals l |};
  lg_offset := BLOCK_SIZE;
  lg_next_batch := 1;
  lg_highest_segment := highest;
  lg_published := published;
  lg_issued := 0;
  lg_pending_descriptors := 0;
  lg_cohort := None;
  lg_durable := 0;
  lg_encoded_bytes := 0;
  lg_allocated_bytes := 0;
  lg_failed := false;
  lg_fenced := false;
  lg_rotating := false;
|}.

(** ** Pins of a segment *)

(** [pn_batches] counts the readers of the batch at each block of a segment. *)
Record Pins : Type := { pn_batches : list Z; pn_readers : Z }.

Definition u32_max : Z := 2 ^ 32 - 1.

Definition Pins_new (capacity : Z) : result Pins :=
  let blocks := capacity / BLOCK_SIZE in
  if decide (u32_max < blocks) then other "staging pin table exceeds address bound"
  else Ok {| pn_batches := replicate (Z.to_nat blocks) 0; pn_readers := 0 |}.

(** [Log::create_in], where creating the first segment file made [segment]
    with [allocated] bytes; its errors before that leave no log either. *)
Definition Log_create (c : Config) (l : Limits) (segment : SegmentHeader) (allocated : Z)
    : result Log :=
  Config_validate c l;;
  Pins_new (cf_segment_bytes c);;
  if decide (lm_staging_bytes l < allocated) then Err (Error LogCapacity "")
  else
    let log := Log_empty c l (sh_number segment) 0 in
    Ok {|
      lg_config := lg_config log; lg_limits := lg_limits log; lg_segments := [segment];
      lg_index := lg_index log; lg_offset := lg_offset log; lg_next_batch := lg_next_batch log;
      lg_highest_segment := lg_highest_segment log; lg_published := lg_published log;
      lg_issued := lg_issued log; lg_pending_descriptors := lg_pending_descriptors log;
      lg_cohort := lg_cohort log; lg_durable := lg_durable log;
      lg_encoded_bytes := BLOCK_SIZE; lg_allocated_bytes := allocated;
      lg_failed := lg_failed log; lg_fenced := lg_fenced log; lg_rotating := lg_rotating log;
    |}.

Definition Log_current (s : Log) : result SegmentHeader := expect (last (lg_segments s)).

Definition Log_healthy (s : Log) : result unit :=
  if lg_failed s then Err (Error LogFailed "") else Ok tt.

Definition Log_fail (s : Log) : Log := {|
  lg_config := lg_config s; lg_limits := lg_limits s; lg_segments := lg_segments s;
  lg_index := lg_index s; lg_offset := lg_offset s; lg_next_batch := lg_next_batch s;
  lg_highest_segment := lg_highest_segment s; lg_published := lg_published s;
  lg_issued := lg_issued s; lg_pending_descriptors := lg_pending_descriptors s;
  lg_cohort := lg_cohort s; lg_durable := lg_durable s;
  lg_encoded_bytes := lg_encoded_bytes s; lg_allocated_bytes := lg_allocated_bytes s;
  lg_failed := true; lg_fenced := lg_fenced s; lg_rotating := lg_rotating s;
|}.

(** ** Submissions *)

Record Submission : Type := { sb_batch : Batch; sb_segment : Z; sb_offset : Z }.

Record Position : Type := {
  ps_segment : Z;
  ps_capacity : Z;
  ps_end : Z;
  ps_issued : Z;
  ps_fenced : Z;
  ps_initial_fence : bool;
}.

#[global] Instance Position_eq_dec : EqDecision Position.
Proof. solve_decision. Defined.

Definition Cohort_from (sub : Submission) : Cohort :=
  let envelope := bt_envelope (sb_batch sub) in
  {| co_segment := env_segment envelope; co_batch := env_batch envelope;
     co_boundary := env_last envelope |}.

Definition Log_position (s : Log) : result Position :=
  current ← Log_current s;
  Ok {| ps_segment := sh_number current;
        ps_capacity := cf_segment_bytes (lg_config s);
        ps_end := lg_offset s;
        ps_issued := lg_issued s;
        ps_fenced := match lg_cohort s with Some c => co_boundary c | None => lg_durable s end;
        ps_initial_fence := negb (lg_fenced s) && bool_decide (lg_cohort s = None) |}.

Definition Log_covers_flush (s : Log) (boundary : Z) : bool :=
  lg_fenced s && bool_decide (boundary ≤ lg_durable s).

Definition Log_append_capacity (s : Log) : Z :=
  saturating_sub (saturating_sub (lm_intervals (lg_limits s)) (Index_len (lg_index s)) / 2)
    (lg_pending_descriptors s).

Definition Log_check_append (s : Log) (builder : Builder) : result unit :=
  Log_healthy s;;
  if bool_decide (lg_cohort s ≠ None) || lg_rotating s then Err (Error LogPending "")
  else if bool_decide (bd_descriptors builder = 0) ||
          bool_decide (bd_image_bytes builder ≠ cf_image_bytes (lg_config s))
  then Err (Error FormatError "empty append or builder image mismatch")
  else if decide (Log_append_capacity s < bd_descriptors builder)
  then Err (Error LogCapacity "")
  else
    ok_or (Error LogExhausted "") (checked_add 64 (lg_issued s) (bd_descriptors builder));;
    ok_or (Error LogExhausted "") (checked_add 64 (lg_next_batch s) 1);;
    let bytes := BLOCK_SIZE + bd_payload_bytes builder in
    if decide (cf_segment_bytes (lg_config s) < lg_offset s + bytes + BLOCK_SIZE)
    then Err (Error LogRollover "") else Ok tt.

Definition Log_reserve (s : Log) (batch : Batch) : result (Log * Submission) :=
  current ← Log_current s;
  let sub := {| sb_batch := batch; sb_segment := sh_number current; sb_offset := lg_offset s |} in
  let bytes := blen (Batch_bytes batch) in
  Ok ({|
    lg_config := lg_config s; lg_limits := lg_limits s; lg_segments := lg_segments s;
    lg_index := lg_index s; lg_offset := lg_offset s + bytes;
    lg_next_batch := lg_next_batch s + 1;
    lg_highest_segment := lg_highest_segment s; lg_published := lg_published s;
    lg_issued := lg_issued s; lg_pending_descriptors := lg_pending_descriptors s;
    lg_cohort := lg_cohort s; lg_durable := lg_durable s;
    lg_encoded_bytes := lg_encoded_bytes s + bytes; lg_allocated_bytes := lg_allocated_bytes s;
    lg_failed := lg_failed s; lg_fenced := lg_fenced s; lg_rotating := lg_rotating s;
  |}, sub).

Definition Log_prepare_append `{Crc32} (s : Log) (builder : Builder) : result (Log * Submission) :=
  Log_check_append s builder;;
  let descriptors := bd_descriptors builder in
  current ← Log_current s;
  batch ← Builder_seal builder (sh_number current) (lg_next_batch s) (lg_issued s + 1);
  '(s, sub) ← Log_reserve s batch;
  Ok ({|
    lg_config := lg_config s; lg_limits := lg_limits s; lg_segments := lg_segments s;
    lg_index := lg_index s; lg_offset := lg_offset s; lg_next_batch := lg_next_batch s;
    lg_highest_segment := lg_highest_segment s; lg_published := lg_published s;
    lg_issued := env_last (bt_envelope (sb_batch sub));
    lg_pending_descriptors := lg_pending_descriptors s + descriptors;
    lg_cohort := lg_cohort s; lg_durable := lg_durable s;
    lg_encoded_bytes := lg_encoded_bytes s; lg_allocated_bytes := lg_allocated_bytes s;
    lg_failed := lg_failed s; lg_fenced := lg_fenced s; lg_rotating := lg_rotating s;
  |}, sub).

Definition Log_owns (s : Log) (sub : Submission) : result unit :=
  current ← Log_current s;
  if decide (sh_number current = sb_segment sub) then Ok tt
  else Err (Error FormatError "submission belongs to another writer or segment").

(** ** Publication *)

(** What a descriptor of a batch at [offset] of [segment] maps its range to. *)
Definition descriptor_mapping (segment offset : Z) (d : Descriptor) : Mapping := {|
  mp_end := d_offset d + d_length d;
  mp_sequence := d_sequence d;
  mp_source :=
    match d_kind d with
    | Write => Some ({|
        pl_segment := segment;
        pl_offset := offset + BLOCK_SIZE + d_payload_offset d;
        pl_bytes := d_payload_length d;
        pl_sequence := d_sequence d;
        pl_crc := d_payload_crc d;
        pl_batch_block := (offset / BLOCK_SIZE) mod 2 ^ 32;
      |}, 0)
    | Zero => None
    end;
|}.

(** The loop of [publish] over the descriptors. *)
Fixpoint publish_descriptors (segment offset : Z) (ds : list Descriptor) (ix : Index)
    : result Index :=
  match ds with
  | [] => Ok ix
  | d :: ds =>
      ix ← Index_replace ix (d_offset d) (descriptor_mapping segment offset d);
      publish_descriptors segment offset ds ix
  end.

Definition Log_set_published (s : Log) (ix : Index) (published pending : Z) : Log := {|
  lg_config := lg_config s; lg_limits := lg_limits s; lg_segments := lg_segments s;
  lg_index := ix; lg_offset := lg_offset s; lg_next_batch := lg_next_batch s;
  lg_highest_segment := lg_highest_segment s; lg_published := published;
  lg_issued := lg_issued s; lg_pending_descriptors := pending;
  lg_cohort := lg_cohort s; lg_durable := lg_durable s;
  lg_encoded_bytes := lg_encoded_bytes s; lg_allocated_bytes := lg_allocated_bytes s;
  lg_failed := lg_failed s; lg_fenced := lg_fenced s; lg_rotating := lg_rotating s;
|}.

Definition Log_publish (s : Log) (h : Header) (segment offset : Z) : result Log :=
  ix ← publish_descriptors segment offset (Header_descriptors h) (lg_index s);
  Ok (Log_set_published s ix (env_last (hdr_envelope h)) (lg_pending_descriptors s)).

Definition Log_publish_append `{Crc32} (s : Log) (sub : Submission) : result Log :=
  Log_healthy s;;
  Log_owns s sub;;
  h ← Header_decode (slice 0 BLOCK_SIZE (Batch_bytes (sb_batch sub))) (cf_image_bytes (lg_config s));
  let envelope := hdr_envelope h in
  if env_fence envelope || bool_decide (env_first envelope ≤ lg_published s)
  then Err (Error FormatError "not an unpublished append")
  else if decide (checked_add 64 (lg_published s) 1 ≠ Some (env_first envelope))
  then Err (Error LogPending "")
  else
    s ← Log_publish s h (sb_segment sub) (sb_offset sub);
    pending ← expect (checked_sub (lg_pending_descriptors s) (env_descriptors envelope));
    Ok (Log_set_published s (lg_index s) (lg_published s) pending).

(** ** Fences *)

Definition Log_prepare_fence `{Crc32} (s : Log) : result (Log * Submission) :=
  Log_healthy s;;
  if bool_decide (lg_cohort s ≠ None) || lg_rotating s then Err (Error LogPending "")
  else if decide (cf_segment_bytes (lg_config s) < lg_offset s + BLOCK_SIZE)
  then Err (Error LogRollover "")
  else
    ok_or (Error LogExhausted "") (checked_add 64 (lg_next_batch s) 1);;
    current ← Log_current s;
    fence ← Batch_fence (sh_number current) (lg_next_batch s) (lg_issued s);
    '(s, sub) ← Log_reserve s fence;
    Ok ({|
      lg_config := lg_config s; lg_limits := lg_limits s; lg_segments := lg_segments s;
      lg_index := lg_index s; lg_offset := lg_offset s; lg_next_batch := lg_next_batch s;
      lg_highest_segment := lg_highest_segment s; lg_published := lg_published s;
      lg_issued := lg_issued s; lg_pending_descriptors := lg_pending_descriptors s;
      lg_cohort := Some (Cohort_from sub); lg_durable := lg_durable s;
      lg_encoded_bytes := lg_encoded_bytes s; lg_allocated_bytes := lg_allocated_bytes s;
      lg_failed := lg_failed s; lg_fenced := lg_fenced s; lg_rotating := lg_rotating s;
    |}, sub).

Definition Log_ready_to_sync (s : Log) (fence : Submission) : result bool :=
  Log_healthy s;;
  Log_owns s fence;;
  let envelope := bt_envelope (sb_batch fence) in
  if negb (env_fence envelope) || bool_decide (lg_cohort s ≠ Some (Cohort_from fence))
  then Err (Error FormatError "fence does not identify the active cohort")
  else Ok (bool_decide (lg_pending_descriptors s = 0) &&
           bool_decide (lg_published s = env_last envelope)).

Definition Log_complete_sync (s : Log) (fence : Submission) : result (Log * Z) :=
  ready ← Log_ready_to_sync s fence;
  if negb ready then Err (Error LogPending "")
  else
    let durable := env_last (bt_envelope (sb_batch fence)) in
    Ok ({|
      lg_config := lg_config s; lg_limits := lg_limits s; lg_segments := lg_segments s;
      lg_index := lg_index s; lg_offset := lg_offset s; lg_next_batch := lg_next_batch s;
      lg_highest_segment := lg_highest_segment s; lg_published := lg_published s;
      lg_issued := lg_issued s; lg_pending_descriptors := lg_pending_descriptors s;
      lg_cohort := None; lg_durable := durable;
      lg_encoded_bytes := lg_encoded_bytes s; lg_allocated_bytes := lg_allocated_bytes s;
      lg_failed := lg_failed s; lg_fenced := true; lg_rotating := lg_rotating s;
    |}, durable).

Definition Log_drained (s : Log) : result unit :=
  Log_healthy s;;
  if lg_rotating s || bool_decide (lg_cohort s ≠ None) ||
     bool_decide (lg_pending_descriptors s ≠ 0) ||
     bool_decide (lg_issued s ≠ lg_published s) ||
     bool_decide (lg_durable s ≠ lg_published s)
  then Err (Error LogPending "") else Ok tt.

(** ** Rotation *)

Inductive RotationKind : Type := Rollover | FreshAttachment.

Record Boundary : Type := {
  bn_segment : Z;
  bn_offset : Z;
  bn_next_batch : Z;
  bn_issued : Z;
  bn_published : Z;
  bn_durable : Z;
}.

Definition Boundary_matches (b : Boundary) (s : Log) : result unit :=
  current ← Log_current s;
  Bytes.require (lg_rotating s && bool_decide (bn_segment b = sh_number current) &&
    bool_decide (bn_offset b = lg_offset s) && bool_decide (bn_next_batch b = lg_next_batch s) &&
    bool_decide (bn_issued b = lg_issued s) && bool_decide (bn_published b = lg_published s) &&
    bool_decide (bn_durable b = lg_durable s)) "rotation no longer owns its sequenced boundary".

Record Rotation : Type := {
  ro_boundary : Boundary;
  ro_config : Config;
  ro_highest : Z;
  ro_epoch : option Z;
}.

Record Rotated : Type := {
  rd_boundary : Boundary;
  rd_segment : SegmentHeader;
  rd_allocated : Z;
}.

Definition Log_set_rotating (s : Log) (b : bool) : Log := {|
  lg_config := lg_config s; lg_limits := lg_limits s; lg_segments := lg_segments s;
  lg_index := lg_index s; lg_offset := lg_offset s; lg_next_batch := lg_next_batch s;
  lg_highest_segment := lg_highest_segment s; lg_published := lg_published s;
  lg_issued := lg_issued s; lg_pending_descriptors := lg_pending_descriptors s;
  lg_cohort := lg_cohort s; lg_durable := lg_durable s;
  lg_encoded_bytes := lg_encoded_bytes s; lg_allocated_bytes := lg_allocated_bytes s;
  lg_failed := lg_failed s; lg_fenced := lg_fenced s; lg_rotating := b;
|}.

(** [available] answers the pin table, the segment table and the directory. *)
Definition Log_rotation (s : Log) (epoch : option Z) (available : result unit)
    : result (Log * Rotation) :=
  Log_healthy s;;
  if lg_rotating s || bool_decide (lg_cohort s ≠ None) ||
     bool_decide (lg_issued s ≠ lg_published s)
  then Err (Error LogPending "")
  else if is_none_or (checked_add 64 (lg_allocated_bytes s) (cf_segment_bytes (lg_config s)))
            (λ bytes, bool_decide (lm_staging_bytes (lg_limits s) < bytes))
  then Err (Error LogCapacity "")
  else
    ok_or (Error LogExhausted "") (checked_add 64 (lg_encoded_bytes s) BLOCK_SIZE);;
    Pins_new (cf_segment_bytes (lg_config s));;
    available;;
    current ← Log_current s;
    Ok (Log_set_rotating s true, {|
      ro_boundary := {|
        bn_segment := sh_number current; bn_offset := lg_offset s;
        bn_next_batch := lg_next_batch s; bn_issued := lg_issued s;
        bn_published := lg_published s; bn_durable := lg_durable s |};
      ro_config := lg_config s; ro_highest := lg_highest_segment s; ro_epoch := epoch |}).

Definition Log_prepare_rotation (s : Log) (kind : RotationKind) (available : result unit)
    : result (Log * Rotation) :=
  Log_drained s;;
  match kind with
  | Rollover => current ← Log_current s; Log_rotation s (Some (sh_epoch current)) available
  | FreshAttachment => Log_rotation s None available
  end.

Definition Log_cancel_rotation (s : Log) (r : Rotation) : result Log :=
  Log_healthy s;;
  Boundary_matches (ro_boundary r) s;;
  Ok (Log_set_rotating s false).

(** [Rotation::create] with the number its ticket gave and the observed
    allocation. *)
Definition Rotation_create (r : Rotation) (number allocated : Z) : Rotated := {|
  rd_boundary := ro_boundary r;
  rd_segment :=
    Config_header (ro_config r) (match ro_epoch r with Some e => e | None => number end) number
      (bn_published (ro_boundary r));
  rd_allocated := allocated;
|}.

Definition Log_install_rotation (s : Log) (created : Rotated) : Log * result unit :=
  match (Log_healthy s;; Boundary_matches (rd_boundary created) s) with
  | Ok _ =>
      match checked_add 64 (lg_allocated_bytes s) (rd_allocated created) with
      | Some allocated =>
          if decide (allocated ≤ lm_staging_bytes (lg_limits s))
          then ({|
            lg_config := lg_config s; lg_limits := lg_limits s;
            lg_segments := lg_segments s ++ [rd_segment created];
            lg_index := lg_index s; lg_offset := BLOCK_SIZE; lg_next_batch := 1;
            lg_highest_segment := sh_number (rd_segment created); lg_published := lg_published s;
            lg_issued := lg_issued s; lg_pending_descriptors := lg_pending_descriptors s;
            lg_cohort := lg_cohort s; lg_durable := lg_durable s;
            lg_encoded_bytes := lg_encoded_bytes s + BLOCK_SIZE; lg_allocated_bytes := allocated;
            lg_failed := lg_failed s; lg_fenced := false; lg_rotating := false;
          |}, Ok tt)
          else (Log_fail s, Err (Error LogCapacity ""))
      | None => (Log_fail s, Err (Error LogCapacity ""))
      end
  | Err e => (s, Err e)
  | Panic => (s, Panic)
  end.
