(* ===== verification/AppendWorld.v ===== *)
(** * Asynchronous appends, publication and reads of the staging log

    Drives the [Log] of [AppendLog] against the segment files it writes.  A
    prepared submission is in flight until its write completes; completions
    arrive in any order, publication is ordered by the log, and fences, syncs
    and rotations interleave with them.  [contents] is the specification: the
    image that results from applying the published mutations in sequence
    order.  The theorems show that looking a byte up through the interval index
    and reading it from the file it points to gives exactly that image in every
    reachable state, and that the log's counters and framing stay consistent. *)
From S2P Require Import Prelude Bytes AppendFormat AppendPacking IntervalIndex AppendLog.

(** ** The specification *)

Abbreviation Mutation := (Descriptor * bytes)%type (only parsing).

(** The byte of an image, [None] where nothing was ever staged. *)
Definition apply_mutation (im : Z → option Z) (m : Mutation) : Z → option Z := λ x,
  if decide (d_offset m.1 ≤ x < d_offset m.1 + d_length m.1)
  then match d_kind m.1 with
       | Write => m.2 !! Z.to_nat (x - d_offset m.1)
       | Zero => Some 0
       end
  else im x.

Definition contents (l : list Mutation) : Z → option Z := fold_left apply_mutation l (λ _, None).

(** The byte an index entry stands for, read from the segment files. *)
Definition resolve (disk : gmap Z bytes) (v : option (Z * option (Payload * Z))) : option Z :=
  match v with
  | None => None
  | Some (_, None) => Some 0
  | Some (_, Some (p, k)) =>
      match disk !! pl_segment p with
      | Some file => file !! Z.to_nat (pl_offset p + k)
      | None => None
      end
  end.

(** A completed write at [offset]: the file grows to hold it, a gap before it
    reads as zeroes.  Preallocation keeps the size of a file, so its length is
    what was written. *)
Definition write_at (file : bytes) (offset : Z) (src : bytes) : bytes :=
  splice offset src (file ++ zeros (Z.max 0 (offset + blen src - blen file))).

(** ** Submissions in flight *)

Record Flight : Type := {
  fl_sub : Submission;
  fl_mutations : list Mutation;
  fl_written : bool;
}.

Definition fl_bytes (f : Flight) : bytes := Batch_bytes (sb_batch (fl_sub f)).
Definition fl_start (f : Flight) : Z := sb_offset (fl_sub f).
Definition fl_end (f : Flight) : Z := fl_start f + blen (fl_bytes f).
Definition fl_envelope (f : Flight) : Envelope := bt_envelope (sb_batch (fl_sub f)).

Record World : Type := {
  wd_log : Log;
  wd_disk : gmap Z bytes;
  wd_flights : list Flight;
  (** every mutation issued so far, numbered, in sequence order *)
  wd_issued : list Mutation;
  wd_rotation : option Rotation;
  (** the bytes of the current segment a completed sync covers *)
  wd_synced : Z;
}.

Definition numbered (first : Z) (l : list Mutation) : list Mutation := zip (number first l.*1) l.*2.

Definition mark_written (f : Flight) : Flight :=
  {| fl_sub := fl_sub f; fl_mutations := fl_mutations f; fl_written := true |}.

Inductive world_step `{Crc32} : World → World → Prop :=
  | world_append w cap builder l log sub :
      0 ≤ cap → bytes_ok (bd_buffer builder) → packed_by (cf_image_bytes (lg_config (wd_log w))) cap builder l →
      Log_prepare_append (wd_log w) builder = Ok (log, sub) →
      world_step w {|
        wd_log := log; wd_disk := wd_disk w;
        wd_flights := wd_flights w ++ [{| fl_sub := sub; fl_mutations := l; fl_written := false |}];
        wd_issued := wd_issued w ++ numbered (lg_issued (wd_log w) + 1) l;
        wd_rotation := wd_rotation w; wd_synced := wd_synced w |}
  | world_write w pre f post file :
      wd_flights w = pre ++ f :: post → fl_written f = false →
      wd_disk w !! sb_segment (fl_sub f) = Some file →
      world_step w {|
        wd_log := wd_log w;
        wd_disk := <[sb_segment (fl_sub f) := write_at file (fl_start f) (fl_bytes f)]> (wd_disk w);
        wd_flights := pre ++ mark_written f :: post;
        wd_issued := wd_issued w; wd_rotation := wd_rotation w; wd_synced := wd_synced w |}
  | world_publish w pre f post log :
      wd_flights w = pre ++ f :: post → fl_written f = true →
      Log_publish_append (wd_log w) (fl_sub f) = Ok log →
      world_step w {|
        wd_log := log; wd_disk := wd_disk w; wd_flights := pre ++ post;
        wd_issued := wd_issued w; wd_rotation := wd_rotation w; wd_synced := wd_synced w |}
  | world_fence w log sub :
      Log_prepare_fence (wd_log w) = Ok (log, sub) →
      world_step w {|
        wd_log := log; wd_disk := wd_disk w;
        wd_flights := wd_flights w ++ [{| fl_sub := sub; fl_mutations := []; fl_written := false |}];
        wd_issued := wd_issued w; wd_rotation := wd_rotation w; wd_synced := wd_synced w |}
  | world_sync w pre f post log durable :
      wd_flights w = pre ++ f :: post → fl_written f = true →
      Log_complete_sync (wd_log w) (fl_sub f) = Ok (log, durable) →
      world_step w {|
        wd_log := log; wd_disk := wd_disk w; wd_flights := pre ++ post;
        wd_issued := wd_issued w; wd_rotation := wd_rotation w; wd_synced := fl_end f |}
  | world_rotate w kind log r :
      Log_prepare_rotation (wd_log w) kind (Ok tt) = Ok (log, r) →
      world_step w {|
        wd_log := log; wd_disk := wd_disk w; wd_flights := wd_flights w;
        wd_issued := wd_issued w; wd_rotation := Some r; wd_synced := wd_synced w |}
  | world_cancel w r log :
      wd_rotation w = Some r → Log_cancel_rotation (wd_log w) r = Ok log →
      world_step w {|
        wd_log := log; wd_disk := wd_disk w; wd_flights := wd_flights w;
        wd_issued := wd_issued w; wd_rotation := None; wd_synced := wd_synced w |}
  | world_install w r number allocated file log res :
      wd_rotation w = Some r →
      (* the ticket is fresh, the new file holds its synced header block *)
      wd_disk w !! number = None → ro_highest r < number → fits 64 number → 0 ≤ allocated →
      SegmentHeader_encode (rd_segment (Rotation_create r number allocated)) = Ok file →
      Log_install_rotation (wd_log w) (Rotation_create r number allocated) = (log, res) →
      world_step w {|
        wd_log := log; wd_disk := <[number := file]> (wd_disk w); wd_flights := wd_flights w;
        wd_issued := wd_issued w; wd_rotation := None;
        wd_synced := if is_ok res then BLOCK_SIZE else wd_synced w |}
  | world_fail w :
      world_step w {|
        wd_log := Log_fail (wd_log w); wd_disk := wd_disk w; wd_flights := wd_flights w;
        wd_issued := wd_issued w; wd_rotation := wd_rotation w; wd_synced := wd_synced w |}.

Definition Limits_ok (l : Limits) : Prop := 0 ≤ lm_staging_bytes l ∧ lm_intervals l < 2 ^ 64.

(** The Rust types of a configuration. *)
Definition Config_ok (c : Config) : Prop := SegmentHeader_ok (Config_header c 1 1 0).

Inductive world_reachable `{Crc32} (c : Config) (l : Limits) : World → Prop :=
  | world_new number allocated file log :
      fits 64 number → Config_ok c → Limits_ok l →
      SegmentHeader_encode (Config_header c number number 0) = Ok file →
      Log_create c l (Config_header c number number 0) allocated = Ok log →
      world_reachable c l {| wd_log := log; wd_disk := {[ number := file ]}; wd_flights := [];
                             wd_issued := []; wd_rotation := None; wd_synced := BLOCK_SIZE |}
  | world_next w w' : world_reachable c l w → world_step w w' → world_reachable c l w'.

(** ** Publishing descriptors *)

Fixpoint overlay (segment offset : Z) (ds : list Descriptor)
    (v : Z → option (Z * option (Payload * Z))) : Z → option (Z * option (Payload * Z)) :=
  match ds with
  | [] => v
  | d :: ds => overlay segment offset ds (λ x,
      if decide (d_offset d ≤ x < d_offset d + d_length d)
      then Some (d_sequence d, shift (x - d_offset d)
                   (mp_source (descriptor_mapping segment offset d)))
      else v x)
  end.

Lemma overlay_ext segment offset ds v v' x :
  (∀ x, v x = v' x) → overlay segment offset ds v x = overlay segment offset ds v' x.
Proof.
  revert v v'. induction ds as [|d ds IH]; intros v v' H; cbn; [done|]. apply IH. intros y. by rewrite H.
Qed.

Lemma publish_descriptors_spec segment offset ds : ∀ ix,
  wf (ix_map ix) → Forall (λ d, 0 < d_length d) ds →
  Index_len ix + 2 * Z.of_nat (length ds) ≤ ix_limit ix → ix_limit ix < 2 ^ 64 →
  ∃ ix', publish_descriptors segment offset ds ix = Ok ix' ∧ wf (ix_map ix') ∧
    Index_len ix' ≤ Index_len ix + 2 * Z.of_nat (length ds) ∧ ix_limit ix' = ix_limit ix ∧
    ∀ x, view (ix_map ix') x = overlay segment offset ds (view (ix_map ix)) x.
Proof.
  induction ds as [|d ds IH]; intros ix Hw Hd Hl Hm; cbn [publish_descriptors overlay].
  - exists ix. split_and!; try done. cbn. lia.
  - apply Forall_cons in Hd as [Hd0 Hd]. cbn [length] in Hl.
    destruct (Index_replace_spec ix (d_offset d) (descriptor_mapping segment offset d))
      as (ix1 & E1 & W1 & L1 & M1 & V1); [done|cbn; lia|lia|done|].
    rewrite E1. cbn [mbind result_mbind result_bind].
    destruct (IH ix1) as (ix2 & E2 & W2 & L2 & M2 & V2); [done|done|rewrite M1; lia|by rewrite M1|].
    exists ix2. split_and!; [done|done|cbn [length]; lia|congruence|].
    intros x. rewrite V2. apply overlay_ext. intros y. rewrite V1. done.
Qed.

(** ** What a sealed batch guarantees its publisher *)

Record batch_ok `{Crc32} (image : Z) (t : Batch) (l : list Mutation) : Prop := {
  bo_decode : ∃ h, Header_decode (slice 0 BLOCK_SIZE (Batch_bytes t)) image = Ok h ∧
    hdr_envelope h = bt_envelope t ∧
    Header_descriptors h = number (env_first (bt_envelope t)) l.*1 ∧
    Header_verify_payload h
      (slice BLOCK_SIZE (env_payload_bytes (bt_envelope t)) (Batch_bytes t)) = Ok tt;
  bo_len : blen (Batch_bytes t) = BLOCK_SIZE + env_payload_bytes (bt_envelope t);
  bo_payload : 0 ≤ env_payload_bytes (bt_envelope t);
  bo_count : env_descriptors (bt_envelope t) = Z.of_nat (length l);
  bo_first : 0 < env_first (bt_envelope t);
  bo_last : env_last (bt_envelope t) = env_first (bt_envelope t) + Z.of_nat (length l) - 1;
  bo_nonempty : l ≠ [];
  bo_fence : env_fence (bt_envelope t) = false;
  bo_data : Forall (λ m, 0 < d_length m.1 ∧
    (d_kind m.1 = Write → d_payload_length m.1 = d_length m.1 ∧ blen m.2 = d_length m.1 ∧
       0 ≤ d_payload_offset m.1 ∧
       d_payload_offset m.1 + d_length m.1 ≤ env_payload_bytes (bt_envelope t) ∧
       slice (BLOCK_SIZE + d_payload_offset m.1) (d_length m.1) (Batch_bytes t) = m.2)) l;
  bo_zero : Forall (λ m, d_kind m.1 = Zero → m.2 = []) l;
}.

Lemma chain_lengths image ds pe serial :
  chain image ds pe serial →
  Forall (λ d, d_length d ≠ 0 ∧ (d_kind d = Write → d_payload_length d = d_length d)) ds.
Proof.
  induction 1 as [|ds d pe serial Hc IH He]; [done|]. apply Forall_app. split; [done|].
  constructor; [|done]. destruct He as (_ & _ & Hv & Hk). split.
  - unfold valid_range in Hv. rewrite !andb_true_iff, bool_decide_eq_true in Hv. tauto.
  - intros E. rewrite E in Hk. by destruct Hk.
Qed.

Lemma packed_zero_data `{Crc32} image cap s l :
  packed_by image cap s l → Forall (λ m, d_kind m.1 = Zero → m.2 = []) l.
Proof. induction 1; try done; apply Forall_app; (split; [done|]); by constructor. Qed.

Lemma sealed_batch_ok `{Crc32} image cap s l segment batch first t :
  0 ≤ cap → packed_by image cap s l → fits 64 segment → fits 64 batch → fits 64 first →
  Builder_seal s segment batch first = Ok t →
  batch_ok image t l ∧ bt_envelope t = {| env_segment := segment; env_batch := batch;
    env_descriptors := Z.of_nat (length l); env_payload_bytes := bd_payload_bytes s;
    env_first := first; env_last := first + (Z.of_nat (length l) - 1); env_fence := false |}.
Proof.
  intros Hcap Hp Hseg Hbat Hf Hs. pose proof (packed_by_inv _ _ _ _ Hcap Hp) as Hi.
  destruct (Builder_seal_sealed _ _ _ _ _ _ _ _ Hi Hf Hs) as (He & Hne & Hf0 & _ & _ & Hlast & Hse).
  split; [|done].
  destruct (sealed_reads_back _ _ _ _ _ _ _ _ Hcap Hp Hseg Hbat Hf Hs) as (h & D1 & D2 & D3 & _ & D5).
  pose proof (bi_bound _ _ _ _ Hi) as Hb. pose proof (bi_len _ _ _ _ Hi) as Hl.
  pose proof (se_len _ _ _ _ Hse) as Hl'. unfold fits in Hf.
  assert (Hblen : blen (Batch_bytes t) = BLOCK_SIZE + bd_payload_bytes s).
  { unfold Batch_bytes. rewrite He. cbn [env_payload_bytes]. rewrite blen_slice; unfold BLOCK_SIZE in *; lia. }
  split; rewrite ?He in *; cbn [env_payload_bytes env_descriptors env_first env_last env_fence] in *;
    try done; try lia.
  - by exists h.
  - apply Forall_lookup. intros i m Hm.
    assert (Hm1 : l.*1 !! i = Some m.1) by (by rewrite list_lookup_fmap, Hm).
    pose proof (chain_lengths _ _ _ _ (bi_chain _ _ _ _ Hi)) as Hc.
    apply (Forall_lookup_1 _ _ _ _ Hc) in Hm1 as Hc1. destruct Hc1 as [Hc1 Hc2].
    pose proof (Forall_lookup_1 _ _ _ _ (bi_ok _ _ _ _ Hi) Hm1) as Hok.
    destruct Hok as (_ & _ & _ & _ & _ & _ & [Hlen _] & _). split; [lia|]. intros K.
    pose proof (Forall_lookup_1 _ _ _ _ (bi_data _ _ _ _ Hi) Hm) as Hd. destruct (Hd K) as (_ & P1 & P2 & P3).
    specialize (Hc2 K). rewrite Hc2 in P2, P3.
    assert (slice (BLOCK_SIZE + d_payload_offset m.1) (d_length m.1) (Batch_bytes t) = m.2) as Hsl.
    { rewrite <- P3. rewrite <- (se_payload _ _ _ _ Hse) by lia. unfold Batch_bytes. rewrite He.
      cbn [env_payload_bytes]. unfold BLOCK_SIZE in *. rewrite slice_slice by lia. by rewrite Z.add_0_l. }
    split_and!; [done| |done|done|done]. rewrite <- Hsl. apply blen_slice; unfold BLOCK_SIZE in *; lia.
  - by eapply packed_zero_data.
Qed.

(** ** Reading published bytes *)

Lemma apply_mutation_ext im im' m x : (∀ y, im y = im' y) → apply_mutation im m x = apply_mutation im' m x.
Proof. intros E. unfold apply_mutation. by rewrite E. Qed.

Lemma apply_all_ext l im im' x :
  (∀ y, im y = im' y) → fold_left apply_mutation l im x = fold_left apply_mutation l im' x.
Proof.
  revert im im'. induction l as [|m l IH]; intros im im' E; cbn; [done|]. apply IH.
  intros y. by apply apply_mutation_ext.
Qed.

(** The payload of [m] is in [disk], where a batch at [offset] keeps it. *)
Definition stored (disk : gmap Z bytes) (segment offset : Z) (m : Mutation) : Prop :=
  0 < d_length m.1 ∧
  (d_kind m.1 = Write → blen m.2 = d_length m.1 ∧ 0 ≤ offset + BLOCK_SIZE + d_payload_offset m.1 ∧
     ∃ file, disk !! segment = Some file ∧
       slice (offset + BLOCK_SIZE + d_payload_offset m.1) (d_length m.1) file = m.2).

Lemma overlay_resolve disk segment offset ms : ∀ v x,
  Forall (stored disk segment offset) ms →
  resolve disk (overlay segment offset ms.*1 v x)
  = fold_left apply_mutation ms (λ y, resolve disk (v y)) x.
Proof.
  induction ms as [|m ms IH]; intros v x Hs; cbn [fmap list_fmap overlay fold_left]; [done|].
  apply Forall_cons in Hs as [Hm Hs]. rewrite IH by done. apply apply_all_ext. intros y.
  unfold apply_mutation. destruct (decide _) as [Hy|]; [|done].
  unfold descriptor_mapping, shift. cbn. destruct (d_kind m.1) eqn:K; cbn; [|done].
  destruct Hm as [_ Hm]. destruct (Hm K) as (Hl & Ho & file & -> & Hf). rewrite <- Hf.
  rewrite lookup_slice by lia. f_equal. lia.
Qed.

(** ** The invariant *)

(** Flights occupy disjoint, ascending extents of [lo, hi). *)
Fixpoint ordered (lo hi : Z) (l : list Flight) : Prop :=
  match l with
  | [] => lo ≤ hi
  | f :: l => lo ≤ fl_start f ∧ ordered (fl_end f) hi l
  end.

(** A position some unfinished write may still change. *)
Definition busy (l : list Flight) (x : Z) : Prop :=
  ∃ f, f ∈ l ∧ fl_written f = false ∧ fl_start f ≤ x < fl_end f.

(** The payload byte an index entry points to is on disk for good. *)
Definition settled (w : World) (cur : SegmentHeader) (v : option (Z * option (Payload * Z))) : Prop :=
  match v with
  | Some (_, Some (p, k)) =>
      ∃ file, wd_disk w !! pl_segment p = Some file ∧ 0 ≤ pl_offset p + k < blen file ∧
        (pl_segment p = sh_number cur → ¬ busy (wd_flights w) (pl_offset p + k))
  | _ => True
  end.

Definition is_fence (f : Flight) : bool := env_fence (fl_envelope f).

(** The appends in flight carry the sequences from [p] to [q] in order. *)
Fixpoint sequenced (p q : Z) (l : list Flight) : Prop :=
  match l with
  | [] => p = q
  | f :: l => if is_fence f then sequenced p q l
              else env_first (fl_envelope f) = p + 1 ∧ sequenced (env_last (fl_envelope f)) q l
  end.

Record flight_ok `{Crc32} (w : World) (cur : SegmentHeader) (file : bytes) (f : Flight) : Prop := {
  fo_segment : sb_segment (fl_sub f) = sh_number cur;
  fo_written : fl_written f = true →
    fl_end f ≤ blen file ∧ slice (fl_start f) (blen (fl_bytes f)) file = fl_bytes f;
  fo_fence : is_fence f = true → fl_mutations f = [] ∧ blen (fl_bytes f) = BLOCK_SIZE ∧
    ∀ image, ∃ h, Header_decode (slice 0 BLOCK_SIZE (fl_bytes f)) image = Ok h ∧
      hdr_envelope h = fl_envelope f;
  fo_append : is_fence f = false →
    batch_ok (cf_image_bytes (lg_config (wd_log w))) (sb_batch (fl_sub f)) (fl_mutations f) ∧
    env_last (fl_envelope f) ≤ lg_issued (wd_log w) ∧
    take (length (fl_mutations f)) (drop (Z.to_nat (env_first (fl_envelope f) - 1)) (wd_issued w))
    = numbered (env_first (fl_envelope f)) (fl_mutations f);
}.

Record world_inv `{Crc32} (c : Config) (lim : Limits) (w : World) (cur : SegmentHeader)
    (file : bytes) : Prop := {
  wi_config : lg_config (wd_log w) = c ∧ lg_limits (wd_log w) = lim;
  wi_static : fits 64 (cf_segment_bytes c) ∧ lm_intervals lim < 2 ^ 64;
  wi_segments : last (lg_segments (wd_log w)) = Some cur;
  wi_number : fits 64 (sh_number cur) ∧ sh_number cur ≠ 0;
  wi_file : wd_disk w !! sh_number cur = Some file ∧
    BLOCK_SIZE ≤ blen file ≤ lg_offset (wd_log w);
  wi_order : 0 ≤ lg_durable (wd_log w) ≤ lg_published (wd_log w) ∧
    lg_published (wd_log w) ≤ lg_issued (wd_log w) < 2 ^ 64;
  wi_issued : Z.of_nat (length (wd_issued w)) = lg_issued (wd_log w);
  wi_pending : lg_pending_descriptors (wd_log w) = lg_issued (wd_log w) - lg_published (wd_log w) ∧
    lg_pending_descriptors (wd_log w) =
      sumZ ((λ f, Z.of_nat (length (fl_mutations f))) <$> wd_flights w);
  wi_index : wf (ix_map (lg_index (wd_log w))) ∧
    ix_limit (lg_index (wd_log w)) = lm_intervals lim ∧
    Index_len (lg_index (wd_log w)) + 2 * lg_pending_descriptors (wd_log w) ≤ lm_intervals lim;
  wi_frame : 1 ≤ lg_next_batch (wd_log w) < 2 ^ 64 ∧ BLOCK_SIZE ≤ lg_offset (wd_log w) ∧
    lg_offset (wd_log w) ≤ cf_segment_bytes c;
  wi_flights : Forall (flight_ok w cur file) (wd_flights w);
  wi_ordered : ordered BLOCK_SIZE (lg_offset (wd_log w)) (wd_flights w);
  wi_cohort : sumZ ((λ f, Z.b2z (is_fence f)) <$> wd_flights w) =
    match lg_cohort (wd_log w) with Some _ => 1 | None => 0 end;
  wi_rotating : lg_rotating (wd_log w) = true → wd_flights w = [];
  wi_view : ∀ x, resolve (wd_disk w) (view (ix_map (lg_index (wd_log w))) x) =
    contents (take (Z.to_nat (lg_published (wd_log w))) (wd_issued w)) x;
  wi_settled : ∀ x, settled w cur (view (ix_map (lg_index (wd_log w))) x);
  wi_sequence : sequenced (lg_published (wd_log w)) (lg_issued (wd_log w)) (wd_flights w);
}.

(** ** Lemmas on flights *)

Lemma fl_end_start f : fl_start f ≤ fl_end f.
Proof. unfold fl_end. pose proof (blen_nonneg (fl_bytes f)). lia. Qed.

Lemma ordered_le lo hi l : ordered lo hi l → lo ≤ hi.
Proof.
  revert lo. induction l as [|f l IH]; intros lo; cbn; [done|]. intros [H1 H2%IH].
  pose proof (fl_end_start f). lia.
Qed.

Lemma ordered_app lo hi l k : ordered lo hi (l ++ k) ↔ ∃ mid, ordered lo mid l ∧ ordered mid hi k.
Proof.
  revert lo. induction l as [|f l IH]; intros lo; cbn.
  - split; [intros H; exists lo; split; [lia|done]|]. intros (mid & H1 & H2).
    destruct k as [|f k]; cbn in *; [lia|]. split; [lia|tauto].
  - rewrite IH. naive_solver.
Qed.

Lemma ordered_weaken lo hi lo' hi' l : ordered lo hi l → lo' ≤ lo → hi ≤ hi' → ordered lo' hi' l.
Proof.
  revert lo lo'. induction l as [|f l IH]; intros lo lo'; cbn; [lia|].
  intros [H1 H2] H3 H4. split; [lia|]. eapply IH; [done|lia|done].
Qed.

Lemma ordered_remove lo hi l f k : ordered lo hi (l ++ f :: k) → ordered lo hi (l ++ k).
Proof.
  rewrite !ordered_app. intros (mid & H1 & H2 & H3). exists mid. split; [done|].
  eapply ordered_weaken; [done| |done]. pose proof (fl_end_start f). lia.
Qed.

Lemma ordered_elem lo hi l f : ordered lo hi l → f ∈ l → lo ≤ fl_start f ∧ fl_end f ≤ hi.
Proof.
  revert lo. induction l as [|g l IH]; intros lo Ho Hf; [by apply elem_of_nil in Hf|].
  destruct Ho as [H1 H2]. apply elem_of_cons in Hf as [->|Hf].
  - apply ordered_le in H2. lia.
  - apply (IH _ H2) in Hf. pose proof (fl_end_start g). lia.
Qed.

(** Two flights at different places do not overlap. *)
Lemma ordered_disjoint lo hi l f k g :
  ordered lo hi (l ++ f :: k) → g ∈ l ++ k → fl_end g ≤ fl_start f ∨ fl_end f ≤ fl_start g.
Proof.
  rewrite ordered_app. intros (mid & H1 & H2 & H3) [Hg|Hg]%elem_of_app.
  - apply (ordered_elem _ _ _ _ H1) in Hg. lia.
  - apply (ordered_elem _ _ _ _ H3) in Hg. lia.
Qed.

Lemma sequenced_app p q l k : sequenced p q (l ++ k) ↔ ∃ m, sequenced p m l ∧ sequenced m q k.
Proof.
  revert p. induction l as [|f l IH]; intros p; cbn; [naive_solver|].
  destruct (is_fence f); [apply IH|]. rewrite IH. naive_solver.
Qed.

Lemma sequenced_lower p q pre f post :
  sequenced p q (pre ++ f :: post) →
  (∀ g, g ∈ pre → is_fence g = false → env_first (fl_envelope g) ≤ env_last (fl_envelope g)) →
  is_fence f = false → p < env_first (fl_envelope f).
Proof.
  revert p. induction pre as [|g pre IH]; intros p; cbn.
  - intros Hs _ Hf. rewrite Hf in Hs. lia.
  - intros Hs Hg Hf. destruct (is_fence g) eqn:Eg.
    + apply IH; [done| |done]. intros g' Hg'. apply Hg. by right.
    + destruct Hs as [H1 H2]. apply IH in H2; [|intros g' Hg'; apply Hg; by right|done].
      specialize (Hg g ltac:(left) Eg). lia.
Qed.

(** The append that comes next is the first one in flight. *)
Lemma sequenced_next p q pre f post :
  sequenced p q (pre ++ f :: post) →
  (∀ g, g ∈ pre → is_fence g = false → env_first (fl_envelope g) ≤ env_last (fl_envelope g)) →
  is_fence f = false → env_first (fl_envelope f) = p + 1 →
  sequenced (env_last (fl_envelope f)) q (pre ++ post).
Proof.
  induction pre as [|g pre IH]; cbn.
  - intros Hs _ Hf _. rewrite Hf in Hs. by destruct Hs.
  - intros Hs Hg Hf He. destruct (is_fence g) eqn:Eg.
    + apply IH; [done| |done|done]. intros g' Hg'. apply Hg. by right.
    + destruct Hs as [H1 H2]. apply sequenced_lower in H2; [|intros g' Hg'; apply Hg; by right|done].
      specialize (Hg g ltac:(left) Eg). lia.
Qed.

Lemma sequenced_remove_fence p q pre f post :
  is_fence f = true → sequenced p q (pre ++ f :: post) → sequenced p q (pre ++ post).
Proof. intros Hf. rewrite !sequenced_app. cbn. by rewrite Hf. Qed.

Lemma sumZ_elem_zero {A} (g : A → Z) l :
  (∀ x, 0 ≤ g x) → sumZ (g <$> l) = 0 → Forall (λ x, g x = 0) l.
Proof.
  intros Hg. induction l as [|x l IH]; cbn; intros Hs; constructor.
  - pose proof (Hg x). assert (0 ≤ sumZ (g <$> l)) by (apply sumZ_nonneg, Forall_forall; auto). lia.
  - apply IH. pose proof (Hg x). assert (0 ≤ sumZ (g <$> l)) by (apply sumZ_nonneg, Forall_forall; auto). lia.
Qed.

Lemma contents_app l k x : contents (l ++ k) x = fold_left apply_mutation k (contents l) x.
Proof. unfold contents. by rewrite fold_left_app. Qed.

(** ** Appending *)

Lemma check_append_ok s b u :
  Log_check_append s b = Ok u →
  lg_failed s = false ∧ lg_cohort s = None ∧ lg_rotating s = false ∧ bd_descriptors b ≠ 0 ∧
  bd_image_bytes b = cf_image_bytes (lg_config s) ∧ bd_descriptors b ≤ Log_append_capacity s ∧
  lg_issued s + bd_descriptors b < 2 ^ 64 ∧ lg_next_batch s + 1 < 2 ^ 64 ∧
  lg_offset s + (BLOCK_SIZE + bd_payload_bytes b) + BLOCK_SIZE ≤ cf_segment_bytes (lg_config s).
Proof.
  unfold Log_check_append, Log_healthy. destruct (lg_failed s); cbn [mbind result_mbind result_bind]; [done|].
  destruct (bool_decide (lg_cohort s ≠ None) || lg_rotating s) eqn:E1; [done|].
  destruct (bool_decide (bd_descriptors b = 0) || _) eqn:E2; [done|]. destruct (decide (Log_append_capacity s < _)) as [E3|E3]; [done|].
  destruct (checked_add 64 (lg_issued s) _) as [n|] eqn:E4; cbn [ok_or mbind result_mbind result_bind]; [|done].
  destruct (checked_add 64 (lg_next_batch s) 1) as [m|] eqn:E5; cbn [ok_or mbind result_mbind result_bind]; [|done].
  destruct (decide (cf_segment_bytes _ < _)) as [E6|E6]; [done|]. intros _.
  apply checked_add_Some in E4 as [_ E4], E5 as [_ E5].
  rewrite orb_false_iff, bool_decide_eq_false in E1, E2. rewrite bool_decide_eq_false in E2.
  destruct E1 as [E1 ->], E2 as [E2 E2']. apply dec_stable in E1. apply dec_stable in E2'.
  split_and!; try done; try lia.
Qed.

Lemma prepare_append_ok `{Crc32} s b s' sub cur :
  Log_prepare_append s b = Ok (s', sub) → last (lg_segments s) = Some cur →
  ∃ batch, Builder_seal b (sh_number cur) (lg_next_batch s) (lg_issued s + 1) = Ok batch ∧
    Log_check_append s b = Ok tt ∧
    sub = {| sb_batch := batch; sb_segment := sh_number cur; sb_offset := lg_offset s |} ∧
    s' = {|
      lg_config := lg_config s; lg_limits := lg_limits s; lg_segments := lg_segments s;
      lg_index := lg_index s; lg_offset := lg_offset s + blen (Batch_bytes batch);
      lg_next_batch := lg_next_batch s + 1; lg_highest_segment := lg_highest_segment s;
      lg_published := lg_published s; lg_issued := env_last (bt_envelope batch);
      lg_pending_descriptors := lg_pending_descriptors s + bd_descriptors b;
      lg_cohort := lg_cohort s; lg_durable := lg_durable s;
      lg_encoded_bytes := lg_encoded_bytes s + blen (Batch_bytes batch);
      lg_allocated_bytes := lg_allocated_bytes s; lg_failed := lg_failed s;
      lg_fenced := lg_fenced s; lg_rotating := lg_rotating s |}.
Proof.
  intros E Hc. unfold Log_prepare_append, Log_reserve, Log_current in E. rewrite Hc in E.
  destruct (Log_check_append s b) as [[]| |]; cbn in E; [|done..].
  destruct (Builder_seal _ _ _ _) as [batch| |]; cbn in E; [|done..]. injection E as <- <-.
  by exists batch.
Qed.

Lemma append_capacity_bound s n :
  0 < n → 0 ≤ lg_pending_descriptors s → n ≤ Log_append_capacity s →
  Index_len (lg_index s) + 2 * (lg_pending_descriptors s + n) ≤ lm_intervals (lg_limits s).
Proof.
  intros Hn Hp. unfold Log_append_capacity, saturating_sub. intros H.
  set (a := lm_intervals _) in *. set (b := Index_len _) in *.
  pose proof (Z.div_mod (Z.max (a - b) 0) 2 ltac:(lia)).
  pose proof (Z.mod_pos_bound (Z.max (a - b) 0) 2 ltac:(lia)). lia.
Qed.

Lemma length_numbered first l : length (numbered first l) = length l.
Proof.
  unfold numbered. rewrite length_zip_with, number_length, !length_fmap. lia.
Qed.

(** A flight stays good when only later mutations are issued. *)
Lemma flight_ok_issued `{Crc32} w w' cur file f more :
  flight_ok w cur file f → lg_config (wd_log w') = lg_config (wd_log w) →
  lg_issued (wd_log w) ≤ lg_issued (wd_log w') →
  Z.of_nat (length (wd_issued w)) = lg_issued (wd_log w) →
  wd_issued w' = wd_issued w ++ more → flight_ok w' cur file f.
Proof.
  intros [H1 H2 H3 H4] Hc Hi Hl Hm. split; [done..|]. intros (B & L & T)%H4.
  rewrite Hc, Hm. split; [done|]. split; [lia|]. rewrite <- T.
  pose proof (bo_first _ _ _ B). pose proof (bo_last _ _ _ B). unfold fl_envelope in *.
  rewrite drop_app_le by lia. rewrite take_app_le; [done|]. rewrite length_drop. lia.
Qed.

Lemma settled_flights w w' cur file v :
  settled w cur v → wd_disk w' = wd_disk w → wd_disk w !! sh_number cur = Some file →
  (∀ x, x < blen file → busy (wd_flights w') x → busy (wd_flights w) x) →
  settled w' cur v.
Proof.
  unfold settled. destruct v as [[q [[p k]|]]|]; [|done..]. intros (z & H1 & H2 & H3) -> Hf Hb.
  exists z. split; [done|]. split; [done|]. intros E. specialize (H3 E). intros Hx. apply H3, Hb; [|done].
  rewrite E, Hf in H1. injection H1 as <-. lia.
Qed.

Lemma append_inv `{Crc32} c lim w cur file sy cap b l log sub :
  world_inv c lim w cur file → 0 ≤ cap →
  packed_by (cf_image_bytes (lg_config (wd_log w))) cap b l →
  Log_prepare_append (wd_log w) b = Ok (log, sub) →
  world_inv c lim {|
    wd_log := log; wd_disk := wd_disk w;
    wd_flights := wd_flights w ++ [{| fl_sub := sub; fl_mutations := l; fl_written := false |}];
    wd_issued := wd_issued w ++ numbered (lg_issued (wd_log w) + 1) l;
    wd_rotation := wd_rotation w; wd_synced := sy |} cur file.
Proof.
  intros Hw Hcap Hp E. pose proof Hw as [W1 W2 W3 W4 W5 W6 W7 W8 W9 W10 W11 W12 W13 W14 W15 W16 W17].
  destruct (prepare_append_ok _ _ _ _ _ E W3) as (batch & Hseal & Hck & -> & ->).
  apply check_append_ok in Hck as (C1 & C2 & C3 & C4 & C5 & C6 & C7 & C8 & C9).
  destruct W1 as [W1a W1b], W6 as [W6a W6b], W8 as [W8a W8b], W9 as (W9a & W9b & W9c), W10 as (W10a & W10b & W10c).
  pose proof (packed_by_inv _ _ _ _ Hcap Hp) as Hi.
  pose proof (bi_count _ _ _ _ Hi) as Hn. pose proof (bi_bound _ _ _ _ Hi) as Hpb.
  destruct (sealed_batch_ok _ cap b l (sh_number cur) (lg_next_batch (wd_log w)) (lg_issued (wd_log w) + 1)
    batch Hcap Hp (proj1 W4) ltac:(unfold fits; lia) ltac:(unfold fits; lia) Hseal) as [Hb He].
  pose proof (bo_len _ _ _ Hb) as Hlen. rewrite He in Hlen. cbn in Hlen.
  assert (Hlast : env_last (bt_envelope batch) = lg_issued (wd_log w) + Z.of_nat (length l)).
  { rewrite He. cbn [env_last]. lia. }
  rewrite Hn in C4, C6, C7 |- *.
  assert (Hl0 : (0 < length l)%nat) by lia. rewrite W1a in C9.
  split; cbn [wd_log wd_disk wd_flights wd_issued wd_rotation lg_config lg_limits lg_segments lg_index
    lg_offset lg_next_batch lg_published lg_issued lg_pending_descriptors lg_cohort lg_durable lg_rotating];
    rewrite ?Hlast; try done; try (unfold BLOCK_SIZE in *; lia).
  - split; [apply W5|]. unfold BLOCK_SIZE in *. lia.
  - rewrite length_app, length_numbered. lia.
  - split; [lia|]. rewrite fmap_app, sumZ_app. cbn. lia.
  - split; [done|]. split; [done|]. rewrite <- W1b. apply append_capacity_bound; [lia|lia|done].
  - apply Forall_app. split.
    + eapply Forall_impl; [exact W11|]. intros f Hf. eapply flight_ok_issued; [exact Hf|done| |done|done].
      cbn. lia.
    + constructor; [|done]. split; cbn; try done.
      * unfold is_fence, fl_envelope. cbn. by rewrite (bo_fence _ _ _ Hb).
      * intros _. unfold fl_envelope. cbn. rewrite W1a in *. split; [done|]. split; [lia|]. rewrite He. cbn.
        replace (Z.to_nat (lg_issued (wd_log w) + 1 - 1)) with (length (wd_issued w)) by lia.
        rewrite drop_app_length, take_ge; [done|]. rewrite length_numbered. lia.
  - rewrite ordered_app. exists (lg_offset (wd_log w)). split; [done|]. cbn. unfold fl_start, fl_end, fl_bytes. cbn.
    unfold fl_start. cbn. lia.
  - rewrite fmap_app, sumZ_app, W13. cbn. unfold is_fence, fl_envelope. cbn. rewrite (bo_fence _ _ _ Hb).
    destruct (lg_cohort _); cbn; lia.
  - intros R. congruence.
  - intros x. rewrite W15. f_equal. rewrite take_app_le by lia. done.
  - intros x. eapply settled_flights; [apply W16|done|apply W5|]. cbn.
    intros y Hy (f & [Hf|Hf]%elem_of_app & F1 & F2); [by exists f|].
    apply list_elem_of_singleton in Hf as ->. unfold fl_start in F2. cbn in F2. destruct W5 as [_ W5]. lia.
  - rewrite sequenced_app. exists (lg_issued (wd_log w)). split; [done|]. cbn.
    unfold is_fence, fl_envelope. cbn. rewrite (bo_fence _ _ _ Hb), He. cbn. lia.
Qed.

(** ** Completing a write *)

Lemma blen_write_at file off src :
  0 ≤ off → blen (write_at file off src) = Z.max (blen file) (off + blen src).
Proof.
  intros Ho. unfold write_at. rewrite blen_splice, blen_app, blen_zeros by lia. lia.
Qed.

Lemma slice_write_at_eq file off src : 0 ≤ off → slice off (blen src) (write_at file off src) = src.
Proof.
  intros Ho. apply slice_splice_eq; [done|done|]. rewrite blen_app, blen_zeros; lia.
Qed.

Lemma slice_write_at_ne file off src o n :
  0 ≤ off → 0 ≤ o → 0 ≤ n → o + n ≤ blen file → o + n ≤ off ∨ off + blen src ≤ o →
  slice o n (write_at file off src) = slice o n file.
Proof.
  intros Ho H1 H2 H3 H4. unfold write_at. rewrite slice_splice_ne by lia. by rewrite slice_app_l by lia.
Qed.

Lemma lookup_write_at_ne off src (b : bytes) x :
  0 ≤ off → 0 ≤ x < blen b → x < off ∨ off + blen src ≤ x →
  write_at b off src !! Z.to_nat x = b !! Z.to_nat x.
Proof.
  intros H1 [H2 H2'] H3. unfold write_at. 
  rewrite <- (lookup_app_l b (zeros (Z.max 0 (off + blen src - blen b)))) by (unfold blen in *; lia).
  destruct H3 as [H3|H3]; unfold splice, blen in *.
  - apply list_lookup_inserts_lt. lia.
  - apply list_lookup_inserts_ge. lia.
Qed.

Lemma resolve_write w cur v off src file :
  settled w cur v → wd_disk w !! sh_number cur = Some file → 0 ≤ off →
  (∀ x, ¬ busy (wd_flights w) x → x < off ∨ off + blen src ≤ x) →
  resolve (<[sh_number cur := write_at file off src]> (wd_disk w)) v = resolve (wd_disk w) v.
Proof.
  intros Hs Hf Ho Hb. unfold resolve. destruct v as [[q [[p k]|]]|]; [|done..].
  destruct Hs as (z & H1 & H2 & H3). destruct (decide (pl_segment p = sh_number cur)) as [E|E].
  - rewrite E, lookup_insert_eq, Hf. rewrite E, Hf in H1. injection H1 as <-.
    apply lookup_write_at_ne; auto.
  - by rewrite lookup_insert_ne by done.
Qed.

Lemma busy_marked pre f post x :
  busy (pre ++ mark_written f :: post) x → busy (pre ++ f :: post) x.
Proof.
  intros (g & Hg & F1 & F2). exists g. split; [|done]. set_unfold.
  destruct Hg as [Hg|[->|Hg]]; [by auto|done|by auto].
Qed.

Lemma write_inv `{Crc32} c lim w cur file pre f post :
  world_inv c lim w cur file → wd_flights w = pre ++ f :: post → fl_written f = false →
  sb_segment (fl_sub f) = sh_number cur →
  world_inv c lim {|
    wd_log := wd_log w;
    wd_disk := <[sh_number cur := write_at file (fl_start f) (fl_bytes f)]> (wd_disk w);
    wd_flights := pre ++ mark_written f :: post;
    wd_issued := wd_issued w; wd_rotation := wd_rotation w; wd_synced := wd_synced w |} cur
    (write_at file (fl_start f) (fl_bytes f)).
Proof.
  intros [W1 W2 W3 W4 W5 W6 W7 W8 W9 W10 W11 W12 W13 W14 W15 W16 W17] Hf Hu Hseg.
  rewrite Hf in *. destruct W5 as [W5a W5b], W10 as (W10a & W10b & W10c).
  assert (Hin : BLOCK_SIZE ≤ fl_start f ∧ fl_end f ≤ lg_offset (wd_log w)).
  { apply (ordered_elem _ _ _ _ W12). set_solver. }
  unfold fl_end, BLOCK_SIZE in Hin.
  set (new := write_at file (fl_start f) (fl_bytes f)).
  assert (Hnew : blen new = Z.max (blen file) (fl_start f + blen (fl_bytes f))) by (apply blen_write_at; lia).
  assert (Hkeep : ∀ w' g, g ∈ pre ++ post → flight_ok w cur file g → wd_log w' = wd_log w →
    wd_issued w' = wd_issued w → flight_ok w' cur new g).
  { intros w' g Hg [G1 G2 G3 G4] E1 E2. split; [done| |done|by rewrite E1, E2]. intros G.
    destruct (G2 G) as [G5 G6]. split; [rewrite Hnew; lia|]. rewrite <- G6 at 2.
    pose proof (ordered_disjoint _ _ _ _ _ _ W12 Hg) as Hd. unfold fl_end in *.
    assert (BLOCK_SIZE ≤ fl_start g) by (apply (ordered_elem _ _ _ g W12); set_solver).
    pose proof (blen_nonneg (fl_bytes g)). apply slice_write_at_ne; unfold BLOCK_SIZE in *; lia. }
  apply Forall_app in W11 as [F1 [F2 F3]%Forall_cons].
  split; cbn [wd_log wd_disk wd_flights wd_issued wd_rotation]; try done.
  - rewrite lookup_insert_eq. split; [done|]. rewrite Hnew. lia.
  - rewrite fmap_app, fmap_cons in *. done.
  - apply Forall_app. split; [|constructor].
    + rewrite Forall_forall in *. intros g Hg. apply Hkeep; [set_solver|auto|done|done].
    + destruct F2 as [G1 G2 G3 G4]. split; [done| |done|done]. intros _.
      change (fl_start (mark_written f)) with (fl_start f). change (fl_end (mark_written f)) with (fl_end f).
      change (fl_bytes (mark_written f)) with (fl_bytes f). unfold fl_end. split; [rewrite Hnew; lia|].
      apply slice_write_at_eq. lia.
    + rewrite Forall_forall in *. intros g Hg. apply Hkeep; [set_solver|auto|done|done].
  - rewrite ordered_app in *. done.
  - rewrite fmap_app, fmap_cons in *. done.
  - intros R%W14. by destruct pre.
  - intros x. rewrite <- W15. eapply resolve_write; [apply W16|done|lia|].
    intros y Hn. rewrite Hf in Hn. destruct (decide (y < fl_start f)); [by left|]. right.
    destruct (decide (fl_start f + blen (fl_bytes f) ≤ y)); [done|]. destruct Hn. exists f.
    split; [set_solver|]. split; [done|]. unfold fl_end. lia.
  - intros x. specialize (W16 x). unfold settled in *. cbn [wd_log wd_disk wd_flights].
    destruct (view _ x) as [[q [[p k]|]]|]; [|done..]. destruct W16 as (z & S1 & S2 & S3).
    destruct (decide (pl_segment p = sh_number cur)) as [E|E].
    + rewrite E, W5a in S1. injection S1 as <-. exists new. rewrite E, lookup_insert_eq.
      split; [done|]. split; [rewrite Hnew; lia|]. intros _ Hb%busy_marked. apply S3; [done|]. by rewrite Hf.
    + exists z. rewrite lookup_insert_ne by done. by intuition.
  - rewrite sequenced_app in *. done.
Qed.

(** ** Publishing *)

Lemma publish_append_ok `{Crc32} s sub s' cur :
  Log_publish_append s sub = Ok s' → last (lg_segments s) = Some cur →
  ∃ h ix, Header_decode (slice 0 BLOCK_SIZE (Batch_bytes (sb_batch sub)))
      (cf_image_bytes (lg_config s)) = Ok h ∧
    env_fence (hdr_envelope h) = false ∧ env_first (hdr_envelope h) = lg_published s + 1 ∧
    publish_descriptors (sb_segment sub) (sb_offset sub) (Header_descriptors h) (lg_index s) = Ok ix ∧
    env_descriptors (hdr_envelope h) ≤ lg_pending_descriptors s ∧
    s' = Log_set_published s ix (env_last (hdr_envelope h))
           (lg_pending_descriptors s - env_descriptors (hdr_envelope h)).
Proof.
  intros E Hc. unfold Log_publish_append in E.
  apply result_bind_ok in E as ([] & _ & E). apply result_bind_ok in E as ([] & _ & E).
  apply result_bind_ok in E as (h & Eh & E). cbv zeta in E.
  destruct (env_fence (hdr_envelope h) || _) eqn:Ef; [done|]. apply orb_false_iff in Ef as [Ef _].
  destruct (decide (checked_add 64 (lg_published s) 1 ≠ _)) as [|Ec]; [done|].
  apply dec_stable, checked_add_Some in Ec as [Ec _].
  apply result_bind_ok in E as (s1 & Ei & E). apply result_bind_ok in Ei as (ix & Ei & E3).
  injection E3 as <-. apply result_bind_ok in E as (n & En & E). injection E as <-.
  destruct (checked_sub _ _) as [n'|] eqn:En'; [|done]. injection En as <-.
  apply checked_sub_Some in En' as [-> En']. exists h, ix. done.
Qed.

Lemma zip_fst_number first (l : list Mutation) : (numbered first l).*1 = number first l.*1.
Proof.
  unfold numbered. apply fst_zip. rewrite number_length, !length_fmap. done.
Qed.

Lemma numbered_elem first l m :
  m ∈ numbered first l → ∃ m0 q, m0 ∈ l ∧ m = (set_sequence m0.1 q, m0.2).
Proof.
  intros [i Hi]%list_elem_of_lookup. unfold numbered in Hi.
  apply lookup_zip_with_Some in Hi as (d & data & -> & Hd & Hdata).
  apply number_lookup in Hd as (d0 & Hd0 & ->). rewrite list_lookup_fmap in Hd0. rewrite list_lookup_fmap in Hdata.
  destruct (l !! i) as [m0|] eqn:Hm; [|done]. injection Hd0 as <-. injection Hdata as <-.
  exists m0. eexists. split; [by eapply list_elem_of_lookup_2|done].
Qed.

(** The mutations of a written batch are stored where publication says. *)
Lemma batch_stored `{Crc32} image t l disk segment offset file first :
  batch_ok image t l → disk !! segment = Some file → 0 ≤ offset →
  slice offset (blen (Batch_bytes t)) file = Batch_bytes t →
  Forall (stored disk segment offset) (numbered first l).
Proof.
  intros Hb Hd Ho Hs. apply Forall_forall. intros m (m0 & q & Hm & ->)%numbered_elem.
  pose proof (proj1 (Forall_forall _ _) (bo_data _ _ _ Hb) m0 Hm) as [D1 D2].
  split; [done|]. cbn. intros K. destruct (D2 K) as (P1 & P2 & P3 & P4 & P5).
  pose proof (bo_len _ _ _ Hb) as Hl. unfold BLOCK_SIZE in *.
  split; [done|]. split; [lia|]. exists file. split; [done|].
  rewrite <- P5, <- Hs, slice_slice by lia. f_equal. lia.
Qed.

(** What publication adds stays settled when its place is. *)
Lemma settled_overlay w cur segment offset ds : ∀ v x,
  (∀ y, settled w cur (v y)) →
  (∀ d y, d ∈ ds → d_offset d ≤ y < d_offset d + d_length d →
     settled w cur (Some (d_sequence d,
       shift (y - d_offset d) (mp_source (descriptor_mapping segment offset d))))) →
  settled w cur (overlay segment offset ds v x).
Proof.
  induction ds as [|d ds IH]; intros v x Hv Hd; cbn [overlay]; [done|]. apply IH.
  - intros y. case_decide; [|done]. apply Hd; [left|done].
  - intros d' y Hin. apply Hd. by right.
Qed.

Lemma busy_removed pre f post x : busy (pre ++ post) x → busy (pre ++ f :: post) x.
Proof. intros (g & Hg & F). exists g. split; [set_solver|done]. Qed.

Lemma flight_ok_weaken `{Crc32} w w' cur file f :
  flight_ok w cur file f → lg_config (wd_log w') = lg_config (wd_log w) →
  lg_issued (wd_log w') = lg_issued (wd_log w) → wd_issued w' = wd_issued w →
  flight_ok w' cur file f.
Proof. intros [H1 H2 H3 H4] Hc Hi Hm. split; [done..|]. by rewrite Hc, Hi, Hm. Qed.

Lemma publish_inv `{Crc32} c lim w cur file sy pre f post log :
  world_inv c lim w cur file → wd_flights w = pre ++ f :: post → fl_written f = true →
  Log_publish_append (wd_log w) (fl_sub f) = Ok log →
  world_inv c lim {|
    wd_log := log; wd_disk := wd_disk w; wd_flights := pre ++ post;
    wd_issued := wd_issued w; wd_rotation := wd_rotation w; wd_synced := sy |} cur file.
Proof.
  intros [W1 W2 W3 W4 W5 W6 W7 W8 W9 W10 W11 W12 W13 W14 W15 W16 W17] Hf Hw E.
  destruct (publish_append_ok _ _ _ _ E W3) as (h & ix & D1 & D2 & D3 & D4 & D5 & ->).
  rewrite Hf in *. apply Forall_app in W11 as [F1 [F2 F3]%Forall_cons].
  assert (Hfen : is_fence f = false).
  { destruct (is_fence f) eqn:Hfe; [|done]. destruct (fo_fence _ _ _ _ F2 Hfe) as (_ & _ & Hdec).
    destruct (Hdec (cf_image_bytes (lg_config (wd_log w)))) as (h' & Hh' & He').
    unfold fl_bytes in Hh'. rewrite D1 in Hh'. injection Hh' as <-. unfold is_fence in Hfe. congruence. }
  destruct (fo_append _ _ _ _ F2 Hfen) as (Hb & Hlast & Htake).
  destruct (bo_decode _ _ _ Hb) as (h' & Hh' & B1 & B2 & _). rewrite D1 in Hh'. injection Hh' as <-.
  pose proof (fo_segment _ _ _ _ F2) as Hseg. pose proof (bo_count _ _ _ Hb) as Hcount.
  pose proof (bo_last _ _ _ Hb) as Hlst. set (l := fl_mutations f) in *.
  rewrite B1 in *. unfold fl_envelope in *. set (e := bt_envelope (sb_batch (fl_sub f))) in *.
  destruct W1 as [W1a W1b], W5 as [W5a W5b], W8 as [W8a W8b], W9 as (W9a & W9b & W9c), W10 as (W10a & W10b & W10c).
  assert (Hin : BLOCK_SIZE ≤ fl_start f ∧ fl_end f ≤ lg_offset (wd_log w)).
  { apply (ordered_elem _ _ _ _ W12). set_solver. }
  assert (Hst : Forall (stored (wd_disk w) (sh_number cur) (fl_start f)) (numbered (env_first e) l)).
  { eapply batch_stored; [exact Hb|exact W5a|unfold BLOCK_SIZE in *; lia|].
    apply (fo_written _ _ _ _ F2 Hw). }
  rewrite fmap_app, fmap_cons, sumZ_app in W8b. cbn [sumZ] in W8b. fold l in W8b.
  rewrite B2, <- zip_fst_number in D4. rewrite Hseg in D4.
  destruct (publish_descriptors_spec (sh_number cur) (sb_offset (fl_sub f)) (numbered (env_first e) l).*1
    (lg_index (wd_log w))) as (ix' & E' & I1 & I2 & I3 & I4); [done| | |lia|].
  { apply Forall_fmap. eapply Forall_impl; [exact Hst|]. by intros ? []. }
  { rewrite length_fmap, length_numbered. rewrite Hcount in D5. lia. }
  rewrite D4 in E'. injection E' as <-. rewrite length_fmap, length_numbered in I2.
  assert (Hsplit : take (Z.to_nat (env_last e)) (wd_issued w)
    = take (Z.to_nat (lg_published (wd_log w))) (wd_issued w) ++ numbered (env_first e) l).
  { rewrite <- Htake, D3.
    replace (Z.to_nat (env_last e)) with (Z.to_nat (lg_published (wd_log w)) + length l)%nat by lia.
    replace (Z.to_nat (lg_published (wd_log w) + 1 - 1)) with (Z.to_nat (lg_published (wd_log w))) by lia.
    by rewrite take_take_drop. }
  split; cbn [wd_log wd_disk wd_flights wd_issued wd_rotation lg_config lg_limits lg_segments lg_index
    lg_offset lg_next_batch lg_published lg_issued lg_pending_descriptors lg_cohort lg_durable lg_rotating
    Log_set_published]; try done.
  - lia.
  - rewrite Hcount. split; [lia|]. rewrite fmap_app, sumZ_app. lia.
  - split; [done|]. split; [congruence|]. lia.
  - apply Forall_app. split; (eapply Forall_impl; [eassumption|]; intros g Hg; by eapply flight_ok_weaken).
  - by apply ordered_remove in W12.
  - rewrite fmap_app, fmap_cons, sumZ_app in W13. cbn [sumZ] in W13. rewrite Hfen in W13. cbn in W13.
    rewrite fmap_app, sumZ_app. lia.
  - intros R%W14. by destruct pre.
  - intros x. rewrite I4, overlay_resolve by done. rewrite Hsplit, contents_app. apply apply_all_ext. done.
  - intros x. rewrite I4. apply settled_overlay.
    + intros y. eapply settled_flights; [apply W16|done|exact W5a|]. intros z _. rewrite Hf. apply busy_removed.
    + intros d y Hd Hy. unfold descriptor_mapping, shift. cbn. destruct (d_kind d) eqn:K; cbn; [|done].
      rewrite zip_fst_number in Hd.
      apply list_elem_of_lookup in Hd as [i (d0 & Hd0 & ->)%number_lookup].
      rewrite list_lookup_fmap in Hd0. destruct (l !! i) as [m|] eqn:Hm; [|done]. injection Hd0 as <-.
      pose proof (Forall_lookup_1 _ _ _ _ (bo_data _ _ _ Hb) Hm) as [L1 L2]. cbn in K, Hy |- *.
      destruct (L2 K) as (_ & _ & L3 & L4 & _). pose proof (bo_len _ _ _ Hb) as Hlen.
      destruct (fo_written _ _ _ _ F2 Hw) as [Hend _].
      unfold fl_end, fl_start, fl_bytes in *. unfold BLOCK_SIZE in *.
      fold e in L4, Hlen. exists file. cbn [wd_disk].
      split; [done|]. split; [lia|]. intros _.
      intros (g & Hg & G1 & G2). pose proof (ordered_disjoint _ _ _ _ _ _ W12 Hg) as Hdis.
      unfold fl_end, fl_start, fl_bytes in *. lia.
  - apply (sequenced_next _ _ _ _ _ W17); [|done|done]. intros g Hg Eg.
    rewrite Forall_forall in F1. destruct (fo_append _ _ _ _ (F1 g Hg) Eg) as (Hbg & _).
    pose proof (bo_last _ _ _ Hbg). pose proof (bo_nonempty _ _ _ Hbg) as Hne. unfold fl_envelope.
    destruct (fl_mutations g); [done|]. cbn [length] in *. lia.
Qed.

(** ** Fences and syncs *)

Lemma prepare_fence_ok `{Crc32} s s' sub cur :
  Log_prepare_fence s = Ok (s', sub) → last (lg_segments s) = Some cur →
  lg_cohort s = None ∧ lg_rotating s = false ∧ lg_next_batch s + 1 < 2 ^ 64 ∧
  lg_offset s + BLOCK_SIZE ≤ cf_segment_bytes (lg_config s) ∧
  ∃ batch, Batch_fence (sh_number cur) (lg_next_batch s) (lg_issued s) = Ok batch ∧
    sub = {| sb_batch := batch; sb_segment := sh_number cur; sb_offset := lg_offset s |} ∧
    s' = {|
      lg_config := lg_config s; lg_limits := lg_limits s; lg_segments := lg_segments s;
      lg_index := lg_index s; lg_offset := lg_offset s + blen (Batch_bytes batch);
      lg_next_batch := lg_next_batch s + 1; lg_highest_segment := lg_highest_segment s;
      lg_published := lg_published s; lg_issued := lg_issued s;
      lg_pending_descriptors := lg_pending_descriptors s;
      lg_cohort := Some (Cohort_from sub); lg_durable := lg_durable s;
      lg_encoded_bytes := lg_encoded_bytes s + blen (Batch_bytes batch);
      lg_allocated_bytes := lg_allocated_bytes s; lg_failed := lg_failed s;
      lg_fenced := lg_fenced s; lg_rotating := lg_rotating s |}.
Proof.
  intros E Hc. unfold Log_prepare_fence in E. apply result_bind_ok in E as ([] & _ & E).
  destruct (bool_decide (lg_cohort s ≠ None) || lg_rotating s) eqn:E1; [done|].
  rewrite orb_false_iff, bool_decide_eq_false in E1. destruct E1 as [E1 E2]. apply dec_stable in E1.
  destruct (decide (cf_segment_bytes _ < _)) as [|E3]; [done|].
  apply result_bind_ok in E as (n & E4 & E). destruct (checked_add _ _ _) eqn:E5; [|done].
  apply checked_add_Some in E5 as [_ E5]. apply result_bind_ok in E as (cur' & E6 & E).
  unfold Log_current in E6. rewrite Hc in E6. injection E6 as <-.
  apply result_bind_ok in E as (batch & E7 & E). apply result_bind_ok in E as ([s1 sub1] & E8 & E).
  unfold Log_reserve, Log_current in E8. rewrite Hc in E8. cbn [expect mbind result_mbind result_bind] in E8.
  injection E8 as <- <-. injection E as <- <-. split_and!; [done|done|done|lia|]. by exists batch.
Qed.

Lemma fence_inv `{Crc32} c lim w cur file sy log sub :
  world_inv c lim w cur file → Log_prepare_fence (wd_log w) = Ok (log, sub) →
  world_inv c lim {|
    wd_log := log; wd_disk := wd_disk w;
    wd_flights := wd_flights w ++ [{| fl_sub := sub; fl_mutations := []; fl_written := false |}];
    wd_issued := wd_issued w; wd_rotation := wd_rotation w; wd_synced := sy |} cur file.
Proof.
  intros [W1 W2 W3 W4 W5 W6 W7 W8 W9 W10 W11 W12 W13 W14 W15 W16 W17] E.
  destruct (prepare_fence_ok _ _ _ _ E W3) as (C1 & C2 & C3 & C4 & batch & Hf & -> & ->).
  destruct W1 as [W1a W1b], W6 as [W6a W6b], W8 as [W8a W8b], W10 as (W10a & W10b & W10c).
  assert (Hdec := λ image, fence_decodes (sh_number cur) (lg_next_batch (wd_log w)) (lg_issued (wd_log w)) image
    batch (proj1 W4) ltac:(unfold fits; lia) ltac:(unfold fits; lia) Hf).
  destruct (Hdec 0) as (He & _ & _ & Hlen & _).
  rewrite W1a in C4. rewrite C1 in W13.
  split; cbn [wd_log wd_disk wd_flights wd_issued wd_rotation lg_config lg_limits lg_segments lg_index
    lg_offset lg_next_batch lg_published lg_issued lg_pending_descriptors lg_cohort lg_durable lg_rotating];
    try done; try (rewrite Hlen; unfold BLOCK_SIZE in *; lia).
  - split; [apply W5|]. rewrite Hlen. unfold BLOCK_SIZE in *. lia.
  - split; [done|]. rewrite fmap_app, sumZ_app. cbn. lia.
  - apply Forall_app. split.
    + eapply Forall_impl; [exact W11|]. intros f Hf'. by eapply flight_ok_weaken.
    + constructor; [|done]. split; cbn; try done.
      * intros _. split; [done|]. split; [done|]. intros image.
        destruct (Hdec image) as (_ & _ & _ & _ & h & D1 & D2 & _). exists h. unfold fl_bytes. cbn.
        rewrite slice_all by done. done.
      * unfold is_fence, fl_envelope. cbn. by rewrite He.
  - rewrite ordered_app. exists (lg_offset (wd_log w)). split; [done|]. cbn. unfold fl_end, fl_start, fl_bytes. cbn.
    lia.
  - rewrite fmap_app, sumZ_app, W13. cbn. unfold is_fence, fl_envelope. cbn. by rewrite He.
  - intros R. congruence.
  - intros x. eapply settled_flights; [apply W16|done|apply W5|]. cbn.
    intros y Hy (f & [Hf'|Hf']%elem_of_app & F1 & F2); [by exists f|].
    apply list_elem_of_singleton in Hf' as ->. unfold fl_start in F2. cbn in F2. destruct W5 as [_ W5]. lia.
  - rewrite sequenced_app. exists (lg_issued (wd_log w)). split; [done|]. cbn.
    unfold is_fence, fl_envelope. cbn. by rewrite He.
Qed.

Lemma complete_sync_ok s f s' durable :
  Log_complete_sync s f = Ok (s', durable) →
  env_fence (bt_envelope (sb_batch f)) = true ∧ lg_cohort s = Some (Cohort_from f) ∧
  lg_pending_descriptors s = 0 ∧ lg_published s = env_last (bt_envelope (sb_batch f)) ∧
  durable = lg_published s ∧
  s' = {|
      lg_config := lg_config s; lg_limits := lg_limits s; lg_segments := lg_segments s;
      lg_index := lg_index s; lg_offset := lg_offset s; lg_next_batch := lg_next_batch s;
      lg_highest_segment := lg_highest_segment s; lg_published := lg_published s;
      lg_issued := lg_issued s; lg_pending_descriptors := lg_pending_descriptors s;
      lg_cohort := None; lg_durable := durable;
      lg_encoded_bytes := lg_encoded_bytes s; lg_allocated_bytes := lg_allocated_bytes s;
      lg_failed := lg_failed s; lg_fenced := true; lg_rotating := lg_rotating s |}.
Proof.
  unfold Log_complete_sync, Log_ready_to_sync. intros E. apply result_bind_ok in E as (ready & E1 & E).
  apply result_bind_ok in E1 as ([] & _ & E1). apply result_bind_ok in E1 as ([] & _ & E1).
  cbv zeta in E1. destruct (negb _ || _) eqn:E2; [done|]. injection E1 as <-.
  rewrite orb_false_iff, negb_false_iff, bool_decide_eq_false in E2. destruct E2 as [E2 E3].
  apply dec_stable in E3.
  destruct (bool_decide (lg_pending_descriptors s = 0) && _) eqn:E4; cbn [negb] in E; [|done].
  rewrite andb_true_iff, !bool_decide_eq_true in E4. destruct E4 as [E4 E5]. injection E as <- <-.
  by rewrite <- E5.
Qed.

(** With no pending descriptors and no cohort nothing is in flight. *)
Lemma no_flights `{Crc32} c lim w cur file :
  world_inv c lim w cur file → lg_pending_descriptors (wd_log w) = 0 →
  Forall (λ f, is_fence f = true) (wd_flights w) ∧
  (lg_cohort (wd_log w) = None → wd_flights w = []).
Proof.
  intros [W1 W2 W3 W4 W5 W6 W7 W8 W9 W10 W11 W12 W13 W14 W15 W16 W17] Hp. destruct W8 as [_ W8b].
  rewrite Hp in W8b. symmetry in W8b.
  apply sumZ_elem_zero in W8b; [|intros; lia].
  assert (Hall : Forall (λ f, is_fence f = true) (wd_flights w)).
  { rewrite Forall_forall in *. intros f Hf. destruct (is_fence f) eqn:Ef; [done|].
    destruct (fo_append _ _ _ _ (W11 f Hf) Ef) as (Hb & _). pose proof (bo_nonempty _ _ _ Hb) as Hn.
    specialize (W8b f Hf). destruct (fl_mutations f); cbn in *; [done|lia]. }
  split; [done|]. intros Hc. rewrite Hc in W13. destruct (wd_flights w) as [|f fs]; [done|].
  apply Forall_cons in Hall as [Hf _]. rewrite fmap_cons in W13. cbn [sumZ] in W13. rewrite Hf in W13.
  assert (0 ≤ sumZ ((λ f, Z.b2z (is_fence f)) <$> fs)).
  { apply sumZ_nonneg, Forall_forall. intros g _. destruct (is_fence g); cbn; lia. }
  cbn in W13. lia.
Qed.

Lemma sync_inv `{Crc32} c lim w cur file sy pre f post log durable :
  world_inv c lim w cur file → wd_flights w = pre ++ f :: post →
  Log_complete_sync (wd_log w) (fl_sub f) = Ok (log, durable) →
  world_inv c lim {|
    wd_log := log; wd_disk := wd_disk w; wd_flights := pre ++ post;
    wd_issued := wd_issued w; wd_rotation := wd_rotation w; wd_synced := sy |} cur file.
Proof.
  intros Hw Hf E. pose proof Hw as [W1 W2 W3 W4 W5 W6 W7 W8 W9 W10 W11 W12 W13 W14 W15 W16 W17].
  apply complete_sync_ok in E as (S1 & S2 & S3 & S4 & -> & ->).
  destruct (no_flights _ _ _ _ _ Hw S3) as [Hall _].
  rewrite Hf in *. apply Forall_app in W11 as [F1 [F2 F3]%Forall_cons].
  apply Forall_app in Hall as [A1 [A2 A3]%Forall_cons].
  destruct (fo_fence _ _ _ _ F2 A2) as (Hm & _ & _).
  split; cbn [wd_log wd_disk wd_flights wd_issued wd_rotation lg_config lg_limits lg_segments lg_index
    lg_offset lg_next_batch lg_published lg_issued lg_pending_descriptors lg_cohort lg_durable lg_rotating];
    try done.
  - lia.
  - rewrite fmap_app, fmap_cons, sumZ_app in W8. cbn [sumZ] in W8. rewrite Hm in W8. cbn in W8.
    rewrite fmap_app, sumZ_app. lia.
  - apply Forall_app. split; (eapply Forall_impl; [exact F1 || exact F3|]; intros g Hg; by eapply flight_ok_weaken).
  - by apply ordered_remove in W12.
  - rewrite fmap_app, fmap_cons, sumZ_app, S2 in W13. cbn [sumZ] in W13. rewrite A2 in W13. cbn in W13.
    rewrite fmap_app, sumZ_app. lia.
  - intros R%W14. by destruct pre.
  - intros x. eapply settled_flights; [apply W16|done|apply W5|]. intros z _. rewrite Hf. apply busy_removed.
  - by apply (sequenced_remove_fence _ _ _ f).
Qed.

(** ** Rotation and failure *)

(** Operations that keep everything the invariant reads but the flags. *)
Lemma world_inv_flags `{Crc32} c lim w cur file sy log rot :
  world_inv c lim w cur file →
  (∀ x, x = log → lg_config x = lg_config (wd_log w) ∧ lg_limits x = lg_limits (wd_log w) ∧
     lg_segments x = lg_segments (wd_log w) ∧ lg_index x = lg_index (wd_log w) ∧
     lg_offset x = lg_offset (wd_log w) ∧ lg_next_batch x = lg_next_batch (wd_log w) ∧
     lg_published x = lg_published (wd_log w) ∧ lg_issued x = lg_issued (wd_log w) ∧
     lg_pending_descriptors x = lg_pending_descriptors (wd_log w) ∧
     lg_cohort x = lg_cohort (wd_log w) ∧ lg_durable x = lg_durable (wd_log w)) →
  (lg_rotating log = true → wd_flights w = []) →
  world_inv c lim {| wd_log := log; wd_disk := wd_disk w; wd_flights := wd_flights w;
    wd_issued := wd_issued w; wd_rotation := rot; wd_synced := sy |} cur file.
Proof.
  intros [W1 W2 W3 W4 W5 W6 W7 W8 W9 W10 W11 W12 W13 W14 W15 W16 W17] Hl Hr.
  destruct (Hl _ eq_refl) as (E1 & E2 & E3 & E4 & E5 & E6 & E7 & E8 & E9 & E10 & E11).
  split; cbn [wd_log wd_disk wd_flights wd_issued wd_rotation];
    rewrite ?E1, ?E2, ?E3, ?E4, ?E5, ?E6, ?E7, ?E8, ?E9, ?E10, ?E11; try done.
  - eapply Forall_impl; [exact W11|]. intros f Hf. by eapply flight_ok_weaken.
Qed.

Lemma rotate_inv `{Crc32} c lim w cur file sy kind log r :
  world_inv c lim w cur file → Log_prepare_rotation (wd_log w) kind (Ok tt) = Ok (log, r) →
  world_inv c lim {| wd_log := log; wd_disk := wd_disk w; wd_flights := wd_flights w;
    wd_issued := wd_issued w; wd_rotation := Some r; wd_synced := sy |} cur file.
Proof.
  intros Hw E. unfold Log_prepare_rotation, Log_drained in E. apply result_bind_ok in E as ([] & Hd & E).
  apply result_bind_ok in Hd as ([] & _ & Hd).
  destruct (lg_rotating _ || _ || _ || _ || _) eqn:Ed; [done|].
  rewrite !orb_false_iff, !bool_decide_eq_false in Ed. destruct Ed as ((((_ & D1) & D2) & _) & _).
  apply dec_stable in D1. apply dec_stable in D2.
  assert (Hlog : log = Log_set_rotating (wd_log w) true).
  { assert (∀ epoch, Log_rotation (wd_log w) epoch (Ok tt) = Ok (log, r) → log = Log_set_rotating (wd_log w) true)
      as Hr.
    { intros epoch Er. unfold Log_rotation in Er. apply result_bind_ok in Er as ([] & _ & Er).
      destruct (lg_rotating _ || _ || _); [done|]. destruct (is_none_or _ _); [done|].
      apply result_bind_ok in Er as (? & _ & Er). apply result_bind_ok in Er as (? & _ & Er).
      apply result_bind_ok in Er as (? & _ & Er). apply result_bind_ok in Er as (? & _ & Er).
      by injection Er as <- <-. }
    destruct kind; [apply result_bind_ok in E as (? & _ & E)|]; by apply Hr in E. }
  subst log. destruct (no_flights _ _ _ _ _ Hw D2) as [_ Hn]. specialize (Hn D1).
  eapply world_inv_flags; [done|by intros x ->|done].
Qed.

Lemma cancel_inv `{Crc32} c lim w cur file sy r log :
  world_inv c lim w cur file → Log_cancel_rotation (wd_log w) r = Ok log →
  world_inv c lim {| wd_log := log; wd_disk := wd_disk w; wd_flights := wd_flights w;
    wd_issued := wd_issued w; wd_rotation := None; wd_synced := sy |} cur file.
Proof.
  intros Hw E. unfold Log_cancel_rotation in E. apply result_bind_ok in E as ([] & _ & E).
  apply result_bind_ok in E as ([] & _ & E). injection E as <-.
  eapply world_inv_flags; [done|by intros x ->|done].
Qed.

(** A new file cannot be what an index entry points to. *)
Lemma world_inv_new_file `{Crc32} c lim w cur file sy number new rot :
  world_inv c lim w cur file → wd_disk w !! number = None →
  world_inv c lim {| wd_log := wd_log w; wd_disk := <[number := new]> (wd_disk w);
    wd_flights := wd_flights w; wd_issued := wd_issued w; wd_rotation := rot; wd_synced := sy |} cur file.
Proof.
  intros [W1 W2 W3 W4 W5 W6 W7 W8 W9 W10 W11 W12 W13 W14 W15 W16 W17] Hn.
  split; cbn [wd_log wd_disk wd_flights wd_issued wd_rotation]; try done.
  - rewrite lookup_insert_ne; [done|]. intros ->. destruct W5 as [W5 _]. congruence.
  - eapply Forall_impl; [exact W11|]. intros f Hf. by eapply flight_ok_weaken.
  - intros x. rewrite <- W15. specialize (W16 x). unfold resolve, settled in *.
    destruct (view _ x) as [[q [[p k]|]]|]; [|done..]. destruct W16 as (z & Hz & _).
    rewrite lookup_insert_ne; [done|]. intros ->. congruence.
  - intros x. specialize (W16 x). unfold settled in *. cbn [wd_log wd_disk wd_flights].
    destruct (view _ x) as [[q [[p k]|]]|]; [|done..]. destruct W16 as (z & Hz & H2 & H3).
    exists z. rewrite lookup_insert_ne; [done|]. intros ->. congruence.
Qed.

Lemma blen_SegmentHeader_encode `{Crc32} h b : SegmentHeader_encode h = Ok b → blen b = BLOCK_SIZE.
Proof.
  intros [_ ->]%SegmentHeader_encode_iff. unfold put32. by rewrite blen_splice, blen_SegmentHeader_image.
Qed.

Lemma SegmentHeader_encode_number `{Crc32} h b : SegmentHeader_encode h = Ok b → sh_number h ≠ 0.
Proof. intros [Hv%SegmentHeader_validate_iff _]%SegmentHeader_encode_iff. tauto. Qed.

(** What an installation does to the log. *)
Lemma install_ok s created log :
  Log_install_rotation s created = (log, Ok tt) →
  lg_rotating s = true ∧ log = {|
    lg_config := lg_config s; lg_limits := lg_limits s;
    lg_segments := lg_segments s ++ [rd_segment created];
    lg_index := lg_index s; lg_offset := BLOCK_SIZE; lg_next_batch := 1;
    lg_highest_segment := sh_number (rd_segment created); lg_published := lg_published s;
    lg_issued := lg_issued s; lg_pending_descriptors := lg_pending_descriptors s;
    lg_cohort := lg_cohort s; lg_durable := lg_durable s;
    lg_encoded_bytes := lg_encoded_bytes s + BLOCK_SIZE;
    lg_allocated_bytes := lg_allocated_bytes s + rd_allocated created;
    lg_failed := lg_failed s; lg_fenced := false; lg_rotating := false |} ∧
  bn_published (rd_boundary created) = lg_published s.
Proof.
  unfold Log_install_rotation. intros E. destruct (Log_healthy s;; _) as [[]| |] eqn:Em; [|done..].
  destruct (checked_add _ _ _) as [a|] eqn:Eadd; [|done]. apply checked_add_Some in Eadd as [-> _].
  destruct (decide (_ ≤ _)); [|done]. injection E as <-.
  apply result_bind_ok in Em as ([] & _ & Em). unfold Boundary_matches in Em.
  apply result_bind_ok in Em as (cur' & _ & Em). unfold Bytes.require in Em.
  destruct (_ && _) eqn:Ea in Em; [|done]. rewrite !andb_true_iff, !bool_decide_eq_true in Ea. tauto.
Qed.

Lemma install_failed s created log res :
  Log_install_rotation s created = (log, res) → is_ok res = false → log = s ∨ log = Log_fail s.
Proof.
  unfold Log_install_rotation. destruct (Log_healthy s;; _) as [[]| |]; [|intros [= <- <-]; auto..].
  destruct (checked_add _ _ _); [|intros [= <- <-]; auto]. case_decide; intros [= <- <-]; [done|auto].
Qed.

Lemma install_inv `{Crc32} c lim w cur file sy r number allocated new log res :
  world_inv c lim w cur file → wd_disk w !! number = None → fits 64 number →
  SegmentHeader_encode (rd_segment (Rotation_create r number allocated)) = Ok new →
  Log_install_rotation (wd_log w) (Rotation_create r number allocated) = (log, res) →
  ∃ cur' file', world_inv c lim {| wd_log := log; wd_disk := <[number := new]> (wd_disk w);
    wd_flights := wd_flights w; wd_issued := wd_issued w; wd_rotation := None; wd_synced := sy |} cur' file'.
Proof.
  intros Hw Hn Hfit Henc E. pose proof (world_inv_new_file _ _ _ _ _ sy _ new None Hw Hn) as Hw'.
  pose proof (blen_SegmentHeader_encode _ _ Henc) as Hlen.
  pose proof (SegmentHeader_encode_number _ _ Henc) as Hne.
  destruct (is_ok res) eqn:Er; cycle 1.
  { exists cur, file. destruct (install_failed _ _ _ _ E Er) as [-> | ->]; [done|].
    apply (world_inv_flags _ _ _ _ _ sy (Log_fail (wd_log w)) None Hw'); [by intros x ->|]. cbn. apply Hw. }
  destruct res as [[]| |]; [|done..]. apply install_ok in E as (R & -> & _).
  destruct Hw as [W1 W2 W3 W4 W5 W6 W7 W8 W9 W10 W11 W12 W13 W14 W15 W16 W17]. specialize (W14 R).
  destruct Hw' as [V1 V2 V3 V4 V5 V6 V7 V8 V9 V10 V11 V12 V13 V14 V15 V16 V17].
  cbn [wd_log wd_disk wd_flights wd_issued wd_rotation] in *. rewrite W14 in *.
  exists (rd_segment (Rotation_create r number allocated)), new.
  split; cbn [wd_log wd_disk wd_flights wd_issued wd_rotation lg_config lg_limits lg_segments lg_index
    lg_offset lg_next_batch lg_published lg_issued lg_pending_descriptors lg_cohort lg_durable lg_rotating];
    try done.
  - apply last_snoc.
  - cbn. rewrite lookup_insert_eq. split; [done|lia].
  - unfold BLOCK_SIZE in *. lia.
  - intros x. specialize (W16 x). unfold settled in *. cbn [wd_log wd_disk wd_flights].
    destruct (view _ x) as [[q [[p k]|]]|]; [|done..]. destruct W16 as (z & Hz & H2 & H3).
    exists z. rewrite lookup_insert_ne by (intros ->; congruence). split; [done|]. split; [done|].
    cbn. intros Hp. rewrite Hp in Hz. congruence.
Qed.

Lemma world_inv_step `{Crc32} c lim w w' cur file :
  world_inv c lim w cur file → world_step w w' → ∃ cur' file', world_inv c lim w' cur' file'.
Proof.
  intros Hw Hs. destruct Hs as [w cap b l log sub Hcap Hbytes Hp E | w pre f post file0 Hf Hu Hd
    | w pre f post log Hf Hu E | w log sub E | w pre f post log durable Hf Hu E | w kind log r E
    | w r log Hr E | w r number allocated new log res Hr Hn Hhi Hfit Ha Henc E | w].
  - eauto using append_inv.
  - assert (Hok : flight_ok w cur file f).
    { apply (proj1 (Forall_forall _ _) (wi_flights _ _ _ _ _ Hw)). rewrite Hf. set_solver. }
    pose proof (fo_segment _ _ _ _ Hok) as Hseg. rewrite Hseg in *.
    destruct (wi_file _ _ _ _ _ Hw) as [Hfile _]. simplify_eq. eexists _, _. by apply write_inv.
  - eauto using publish_inv.
  - eauto using fence_inv.
  - eauto using sync_inv.
  - eauto using rotate_inv.
  - eauto using cancel_inv.
  - by eapply install_inv.
  - exists cur, file. eapply world_inv_flags; [done|by intros x ->|]. apply Hw.
Qed.

Lemma Pins_new_ok capacity p : Pins_new capacity = Ok p → capacity / BLOCK_SIZE < 2 ^ 32.
Proof. unfold Pins_new, u32_max. case_decide; [done|]. lia. Qed.

Lemma Log_create_pins c lim segment allocated log :
  Log_create c lim segment allocated = Ok log → cf_segment_bytes c / BLOCK_SIZE < 2 ^ 32.
Proof. unfold Log_create. by intros ([] & _ & (? & Hp%Pins_new_ok & _)%result_bind_ok)%result_bind_ok. Qed.

(** A log only exists over segments whose blocks have 32-bit numbers. *)
Lemma reachable_pins `{Crc32} c lim w : world_reachable c lim w → cf_segment_bytes c / BLOCK_SIZE < 2 ^ 32.
Proof. induction 1; [by eapply Log_create_pins|done]. Qed.

Lemma world_inv_new `{Crc32} c lim number allocated file log :
  fits 64 number → Config_ok c → Limits_ok lim →
  SegmentHeader_encode (Config_header c number number 0) = Ok file →
  Log_create c lim (Config_header c number number 0) allocated = Ok log →
  world_inv c lim {| wd_log := log; wd_disk := {[ number := file ]}; wd_flights := [];
    wd_issued := []; wd_rotation := None; wd_synced := BLOCK_SIZE |} (Config_header c number number 0) file.
Proof.
  intros Hn (_ & _ & _ & _ & _ & _ & Hc & _) [Hl1 Hl2] Hf E.
  pose proof (blen_SegmentHeader_encode _ _ Hf) as Hlen. pose proof (SegmentHeader_encode_number _ _ Hf) as Hne.
  unfold Log_create in E. apply result_bind_ok in E as ([] & Hv & E).
  apply result_bind_ok in E as (? & _ & E). unfold Config_validate in Hv. apply result_bind_ok in Hv as ([] & _ & Hv).
  destruct (_ || _ || _) eqn:Ev in Hv; [done|]. rewrite !orb_false_iff, !bool_decide_eq_false in Ev.
  destruct Ev as [[V1 V2] V3]. destruct (decide (lm_staging_bytes lim < allocated)); [done|]. injection E as <-.
  unfold MAX_BATCH_BYTES, MAX_REQUEST_BYTES, BLOCK_SIZE, MAX_DESCRIPTORS in *.
  split; cbn; unfold BLOCK_SIZE; try done; try lia.
  - rewrite lookup_singleton_eq. split; [done|lia].
  - split; [|unfold Index_len; cbn; lia].
    split; cbn; [done|intros ? ?; by rewrite ?bt_get_nil|by intros].
Qed.

Lemma world_reachable_inv `{Crc32} c lim w :
  world_reachable c lim w → ∃ cur file, world_inv c lim w cur file.
Proof.
  induction 1 as [number allocated file log H1 H2 H3 H4 H5|w w' _ (cur & file & Hw) Hs].
  - eexists _, _. by eapply world_inv_new.
  - by eapply world_inv_step.
Qed.

Lemma bind_Ok {A B} (f : A → result B) a : (Ok a ≫= f) = f a.
Proof. done. Qed.

Lemma publish_append_eval `{Crc32} s sub cur h ix :
  lg_failed s = false → last (lg_segments s) = Some cur → sh_number cur = sb_segment sub →
  Header_decode (slice 0 BLOCK_SIZE (Batch_bytes (sb_batch sub))) (cf_image_bytes (lg_config s)) = Ok h →
  env_fence (hdr_envelope h) = false → lg_published s < env_first (hdr_envelope h) →
  publish_descriptors (sb_segment sub) (sb_offset sub) (Header_descriptors h) (lg_index s) = Ok ix →
  env_descriptors (hdr_envelope h) ≤ lg_pending_descriptors s →
  Log_publish_append s sub =
    if decide (checked_add 64 (lg_published s) 1 ≠ Some (env_first (hdr_envelope h)))
    then Err (Error LogPending "")
    else Ok (Log_set_published s ix (env_last (hdr_envelope h))
      (lg_pending_descriptors s - env_descriptors (hdr_envelope h))).
Proof.
  intros H1 H2 H3 H4 H5 H6 H7 H8. unfold Log_publish_append, Log_healthy, Log_owns, Log_current.
  rewrite H1, H2, bind_Ok. change (expect (Some cur)) with (@Ok SegmentHeader cur).
  rewrite bind_Ok, decide_True, bind_Ok by done.
  rewrite H4, bind_Ok. cbv zeta. rewrite H5, bool_decide_false by lia. cbn [orb].
  destruct (decide _); [done|]. unfold Log_publish. rewrite H7, !bind_Ok.
  cbn [lg_pending_descriptors Log_set_published]. rewrite checked_sub_fits by done. done.
Qed.

(** ** Properties *)

(** C1: reads see exactly the published prefix.  After any interleaving of
    asynchronous appends, out-of-order write completions, ordered publications,
    fences, syncs, rotations and failures, resolving a byte of the image
    through the interval index and the segment file it names gives the byte
    that applying the first [published] mutations in sequence order gives; and
    the durable, published and issued sequences are ordered. *)
Theorem published_image `{Crc32} c lim w :
  world_reachable c lim w →
  (∀ x, resolve (wd_disk w) (view (ix_map (lg_index (wd_log w))) x) =
        contents (take (Z.to_nat (lg_published (wd_log w))) (wd_issued w)) x) ∧
  0 ≤ lg_durable (wd_log w) ≤ lg_published (wd_log w) ∧
  lg_published (wd_log w) ≤ lg_issued (wd_log w) ∧
  lg_issued (wd_log w) = Z.of_nat (length (wd_issued w)) ∧
  lg_offset (wd_log w) ≤ cf_segment_bytes c.
Proof.
  intros (cur & file & Hw)%world_reachable_inv. destruct (wi_order _ _ _ _ _ Hw).
  split; [apply Hw|]. split; [lia|]. split; [lia|]. split; [|apply Hw]. symmetry. apply Hw.
Qed.

(** ** Draining *)

Definition is_append (f : Flight) : bool := negb (is_fence f).

(** An append in flight publishes exactly when it is the next one. *)
Lemma publish_flight `{Crc32} c lim w f :
  world_reachable c lim w → f ∈ wd_flights w → is_fence f = false → lg_failed (wd_log w) = false →
  lg_published (wd_log w) < env_first (fl_envelope f) ∧
  (env_first (fl_envelope f) = lg_published (wd_log w) + 1 →
     ∃ ix pending, Log_publish_append (wd_log w) (fl_sub f)
                   = Ok (Log_set_published (wd_log w) ix (env_last (fl_envelope f)) pending)) ∧
  (env_first (fl_envelope f) ≠ lg_published (wd_log w) + 1 →
     Log_publish_append (wd_log w) (fl_sub f) = Err (Error LogPending "")).
Proof.
  intros (cur & file & Hw)%world_reachable_inv Hin Hfe Hfail.
  pose proof Hw as [W1 W2 W3 W4 W5 W6 W7 W8 W9 W10 W11 W12 W13 W14 W15 W16 W17].
  pose proof (proj1 (Forall_forall _ _) W11) as Hall. pose proof (Hall f Hin) as Hok.
  destruct (fo_append _ _ _ _ Hok Hfe) as (Hb & Hlast & _).
  apply list_elem_of_split in Hin as (pre & post & Hf).
  assert (Hlow : lg_published (wd_log w) < env_first (fl_envelope f)).
  { rewrite Hf in W17. apply (sequenced_lower _ _ _ _ _ W17); [|done]. intros g Hg Eg.
    destruct (fo_append _ _ _ _ (Hall g ltac:(rewrite Hf; set_solver)) Eg) as (Hbg & _).
    pose proof (bo_last _ _ _ Hbg). pose proof (bo_nonempty _ _ _ Hbg) as Hne. unfold fl_envelope.
    destruct (fl_mutations g); [done|]. cbn [length] in *. lia. }
  split; [done|].
  destruct (bo_decode _ _ _ Hb) as (h & D1 & D2 & D3 & _).
  destruct W6 as [W6a W6b], W8 as [W8a W8b], W9 as (W9a & W9b & W9c).
  assert (Hcnt : Z.of_nat (length (fl_mutations f)) ≤ lg_pending_descriptors (wd_log w)).
  { rewrite W8b. rewrite Hf, fmap_app, sumZ_app, fmap_cons. cbn [sumZ].
    pose proof (sumZ_nonneg (λ f, Z.of_nat (length (fl_mutations f))) pre ltac:(apply Forall_forall; intros; lia)).
    pose proof (sumZ_nonneg (λ f, Z.of_nat (length (fl_mutations f))) post ltac:(apply Forall_forall; intros; lia)).
    lia. }
  pose proof (bo_count _ _ _ Hb) as Hcount. unfold fl_envelope in *.
  destruct (publish_descriptors_spec (sb_segment (fl_sub f)) (sb_offset (fl_sub f)) (Header_descriptors h)
    (lg_index (wd_log w)) W9a) as (ix & Hix & _); [| |lia|].
  { rewrite D3. apply Forall_lookup. intros i d (d0 & Hd0 & ->)%number_lookup. cbn.
    rewrite list_lookup_fmap in Hd0. destruct (fl_mutations f !! i) as [m|] eqn:Hm; [|done].
    injection Hd0 as <-. apply (Forall_lookup_1 _ _ _ _ (bo_data _ _ _ Hb) Hm). }
  { rewrite D3, number_length, length_fmap. lia. }
  assert (Hpub : Log_publish_append (wd_log w) (fl_sub f) =
    if decide (checked_add 64 (lg_published (wd_log w)) 1 ≠ Some (env_first (bt_envelope (sb_batch (fl_sub f)))))
    then Err (Error LogPending "")
    else Ok (Log_set_published (wd_log w) ix (env_last (bt_envelope (sb_batch (fl_sub f))))
      (lg_pending_descriptors (wd_log w) - env_descriptors (bt_envelope (sb_batch (fl_sub f)))))).
  { erewrite publish_append_eval; [|done|done|symmetry; apply Hok|exact D1|by rewrite D2, (bo_fence _ _ _ Hb)
      |by rewrite D2|exact Hix|rewrite D2; lia]. by rewrite D2. }
  pose proof (bo_last _ _ _ Hb) as Hl2. pose proof (bo_nonempty _ _ _ Hb) as Hne.
  assert (length (fl_mutations f) ≠ 0%nat) by (by destruct (fl_mutations f)).
  rewrite Hpub, checked_add_fits by lia. split; intros He.
  - rewrite decide_False by (intros Hx; apply Hx; congruence). by eexists _, _.
  - rewrite decide_True by congruence. done.
Qed.

(** The appends in flight, in the order they were issued. *)
Definition appends (w : World) : list Flight := List.filter is_append (wd_flights w).

Lemma appends_split l f rest :
  List.filter is_append l = f :: rest →
  ∃ pre post, l = pre ++ f :: post ∧ is_fence f = false ∧ List.filter is_append post = rest ∧
    List.filter is_append pre = [].
Proof.
  revert rest. induction l as [|g l IH]; intros rest; cbn; [done|]. unfold is_append at 1.
  destruct (is_fence g) eqn:Eg; cbn.
  - intros (pre & post & -> & Hf & Hp & Hn)%IH. exists (g :: pre), post. split_and!; try done.
    cbn. unfold is_append at 1. by rewrite Eg.
  - intros [= -> <-]. by exists [], l.
Qed.

Lemma sequenced_fences p q pre l : List.filter is_append pre = [] → sequenced p q (pre ++ l) → sequenced p q l.
Proof.
  induction pre as [|g pre IH]; cbn; [done|]. unfold is_append at 1.
  destruct (is_fence g); cbn; [apply IH | done].
Qed.

(** The first append in flight carries the sequence after the published ones. *)
Lemma appends_next `{Crc32} c lim w :
  world_reachable c lim w →
  match appends w with
  | [] => lg_published (wd_log w) = lg_issued (wd_log w)
  | f :: _ => env_first (fl_envelope f) = lg_published (wd_log w) + 1
  end.
Proof.
  intros (cur & file & Hw)%world_reachable_inv. pose proof (wi_sequence _ _ _ _ _ Hw) as Hs.
  unfold appends. destruct (List.filter is_append (wd_flights w)) as [|f rest] eqn:E.
  - rewrite <- (app_nil_r (wd_flights w)) in Hs. apply (sequenced_fences _ _ _ [] E) in Hs. exact Hs.
  - apply appends_split in E as (pre & post & E & Hf & _ & Hn). rewrite E in Hs.
    apply sequenced_fences in Hs; [|done].
    cbn in Hs. rewrite Hf in Hs. apply Hs.
Qed.

(** The write of a flight can complete whenever it is outstanding. *)
Lemma flight_completes `{Crc32} c lim w pre f post :
  world_reachable c lim w → wd_flights w = pre ++ f :: post → fl_written f = false →
  ∃ w', world_step w w' ∧ wd_flights w' = pre ++ mark_written f :: post ∧
    wd_log w' = wd_log w ∧ wd_issued w' = wd_issued w.
Proof.
  intros (cur & file & Hw)%world_reachable_inv Hf Hn.
  pose proof (proj1 (Forall_forall _ _) (wi_flights _ _ _ _ _ Hw) f ltac:(rewrite Hf; set_solver)) as Hok.
  eexists. split; [eapply (world_write w pre f post file); [done | done |]|done].
  rewrite (fo_segment _ _ _ _ Hok). apply (wi_file _ _ _ _ _ Hw).
Qed.

(** The next append reaches publication: at most its write and the
    publication itself are needed. *)
Lemma publish_next `{Crc32} c lim w f rest :
  world_reachable c lim w → lg_failed (wd_log w) = false → appends w = f :: rest →
  ∃ w', rtc world_step w w' ∧ appends w' = rest ∧ lg_failed (wd_log w') = false ∧
    wd_issued w' = wd_issued w ∧ lg_issued (wd_log w') = lg_issued (wd_log w).
Proof.
  intros Hr Hfail Ha. pose proof (appends_next _ _ _ Hr) as Hnext. rewrite Ha in Hnext.
  destruct (appends_split _ _ _ Ha) as (pre & post & Hf & Hfe & Hp & Hn).
  assert (∃ w1 g, rtc world_step w w1 ∧ wd_flights w1 = pre ++ g :: post ∧ wd_log w1 = wd_log w ∧
    wd_issued w1 = wd_issued w ∧ fl_written g = true ∧ fl_sub g = fl_sub f) as (w1 & g & Hrtc & Hf1 & Hl1 & Hi1 & Hg & Hsub).
  { destruct (fl_written f) eqn:Hwr; [by exists w, f; split_and!|].
    destruct (flight_completes _ _ _ _ _ _ Hr Hf Hwr) as (w1 & Hs & Hf1 & Hl1 & Hi1).
    exists w1, (mark_written f). split_and!; try done. by apply rtc_once. }
  assert (Hr1 : world_reachable c lim w1).
  { clear -Hr Hrtc. induction Hrtc as [|x y z Hxy _ IH]; [done|]. apply IH. by eapply world_next. }
  assert (Henv : fl_envelope g = fl_envelope f) by (unfold fl_envelope; by rewrite Hsub).
  assert (Hge : is_fence g = false) by (unfold is_fence; by rewrite Henv).
  destruct (publish_flight c lim w1 g) as (_ & Hpub & _);
    [done | rewrite Hf1; set_solver | done | by rewrite Hl1 |].
  destruct Hpub as (ix & pending & Hpub); [by rewrite Henv, Hl1|].
  eexists. split; [eapply rtc_r; [exact Hrtc | eapply world_publish; [exact Hf1 | exact Hg | exact Hpub]]|].
  unfold appends. cbn. rewrite Hl1, Hi1. split_and!; try done.
  by rewrite List.filter_app, Hn, Hp.
Qed.

Lemma drain `{Crc32} c lim n : ∀ w,
  length (appends w) = n → world_reachable c lim w → lg_failed (wd_log w) = false →
  ∃ w', rtc world_step w w' ∧ appends w' = [] ∧ lg_failed (wd_log w') = false ∧
    wd_issued w' = wd_issued w ∧ lg_issued (wd_log w') = lg_issued (wd_log w) ∧
    world_reachable c lim w'.
Proof.
  induction n as [|n IH]; intros w Hn Hr Hfail.
  - exists w. split_and!; try done. by destruct (appends w).
  - destruct (appends w) as [|f rest] eqn:Ha; [done|].
    destruct (publish_next _ _ _ _ _ Hr Hfail Ha) as (w1 & Hs1 & Ha1 & Hf1 & Hi1 & Hl1).
    assert (Hr1 : world_reachable c lim w1).
    { clear -Hr Hs1. induction Hs1 as [|x y z Hxy _ IH]; [done|]. apply IH. by eapply world_next. }
    destruct (IH w1) as (w2 & Hs2 & Ha2 & Hf2 & Hi2 & Hl2 & Hr2); [by rewrite Ha1; injection Hn | done | done |].
    exists w2. split_and!; try done; [by etrans | congruence | congruence].
Qed.

(** C17: publication is ordered and never gets stuck.  While the log has not
    failed, an append in flight publishes exactly when it carries the next
    sequence (and then advances the published prefix to its last sequence,
    without exhausting the interval index or its counters); every other append
    is answered [Pending].  While something issued is unpublished, some append
    in flight does carry the next sequence; and the run can always go on, without
    issuing anything more, to a state where everything issued is published. *)
Theorem publication_in_order `{Crc32} c lim w :
  world_reachable c lim w → lg_failed (wd_log w) = false →
  (∀ f, f ∈ wd_flights w → is_fence f = false →
     lg_published (wd_log w) < env_first (fl_envelope f) ∧
     (env_first (fl_envelope f) = lg_published (wd_log w) + 1 →
        ∃ log, Log_publish_append (wd_log w) (fl_sub f) = Ok log ∧
          lg_published log = env_last (fl_envelope f)) ∧
     (env_first (fl_envelope f) ≠ lg_published (wd_log w) + 1 →
        Log_publish_append (wd_log w) (fl_sub f) = Err (Error LogPending ""))) ∧
  (lg_published (wd_log w) < lg_issued (wd_log w) →
     ∃ f, f ∈ wd_flights w ∧ is_fence f = false ∧
       env_first (fl_envelope f) = lg_published (wd_log w) + 1) ∧
  (∃ w', rtc world_step w w' ∧ wd_issued w' = wd_issued w ∧ lg_failed (wd_log w') = false ∧
     lg_published (wd_log w') = lg_issued (wd_log w) ∧ lg_issued (wd_log w') = lg_issued (wd_log w)).
Proof.
  intros Hr Hfail. split_and!.
  - intros f Hf Hfe. destruct (publish_flight _ _ _ _ Hr Hf Hfe Hfail) as (H1 & H2 & H3).
    split_and!; [done | | done]. intros (ix & pending & He)%H2. eexists. split; [exact He|done].
  - intros Hlt. pose proof (appends_next _ _ _ Hr) as Hn.
    destruct (appends w) as [|f rest] eqn:Ha; [lia|]. exists f.
    apply appends_split in Ha as (pre & post & -> & Hfe & _). set_solver.
  - destruct (drain _ _ _ w eq_refl Hr Hfail) as (w' & Hs & Ha & Hf & Hi & Hl & Hr').
    exists w'. pose proof (appends_next _ _ _ Hr') as Hn. rewrite Ha in Hn. split_and!; try done. congruence.
Qed.

(** ** A concrete run *)

Definition sample_config : Config := {|
  cf_store := replicate 16 1; cf_image := replicate 16 2;
  cf_image_bytes := 16384; cf_segment_bytes := 1064960 |}.

Definition sample_log_limits : Limits := {| lm_staging_bytes := 4194304; lm_intervals := 1024 |}.

Definition sample_log0 : Log :=
  unwrap_or (Log_empty sample_config sample_log_limits 0 0)
    (Log_create sample_config sample_log_limits (Config_header sample_config 1 1 0) 1064960).

Definition sample_zero_builder : Builder :=
  (Builder_zero (unwrap_or sample_builder0 (Builder_new 16384 0)) (sample_id 1) 4096 8192).1.

Definition sample_prepared : Log * Submission :=
  unwrap_or (sample_log0, {| sb_batch := sample_batch; sb_segment := 0; sb_offset := 0 |})
    (@Log_prepare_append crc_sum sample_log0 sample_zero_builder).

Definition sample_mutations : list Mutation := [(zero_descriptor (sample_id 1) 4096 8192, [])].

Definition sample_flight : Flight :=
  {| fl_sub := sample_prepared.2; fl_mutations := sample_mutations; fl_written := false |}.

Definition sample_file : bytes :=
  unwrap_or [] (@SegmentHeader_encode crc_sum (Config_header sample_config 1 1 0)).

Definition sample_world0 : World :=
  {| wd_log := sample_log0; wd_disk := {[ 1 := sample_file ]}; wd_flights := []; wd_issued := [];
     wd_rotation := None; wd_synced := BLOCK_SIZE |}.

Definition sample_world1 : World :=
  {| wd_log := sample_prepared.1; wd_disk := {[ 1 := sample_file ]}; wd_flights := [sample_flight];
     wd_issued := numbered 1 sample_mutations; wd_rotation := None; wd_synced := BLOCK_SIZE |}.

Definition sample_world2 : World :=
  {| wd_log := sample_prepared.1;
     wd_disk := <[1 := write_at sample_file (fl_start sample_flight) (fl_bytes sample_flight)]>
                  {[ 1 := sample_file ]};
     wd_flights := [mark_written sample_flight];
     wd_issued := numbered 1 sample_mutations; wd_rotation := None; wd_synced := BLOCK_SIZE |}.

Definition sample_world3 : World :=
  {| wd_log := unwrap_or sample_log0 (@Log_publish_append crc_sum sample_prepared.1 sample_prepared.2);
     wd_disk := wd_disk sample_world2; wd_flights := [];
     wd_issued := numbered 1 sample_mutations; wd_rotation := None; wd_synced := BLOCK_SIZE |}.

Lemma sample_segment_is_one : sb_segment (fl_sub sample_flight) = 1.
Proof. vm_compute. reflexivity. Qed.

Lemma sample_reachable0 : @world_reachable crc_sum sample_config sample_log_limits sample_world0.
Proof.
  apply (@world_new crc_sum sample_config sample_log_limits 1 1064960 sample_file sample_log0);
    [decide_now|unfold Config_ok; decide_now|split; decide_now|apply is_ok_unwrap; vm_compute; reflexivity|].
  apply is_ok_unwrap. vm_compute. reflexivity.
Qed.

Lemma sample_packed : @packed_by crc_sum 16384 0 sample_zero_builder sample_mutations.
Proof.
  refine (@packed_zero crc_sum 16384 0 (unwrap_or sample_builder0 (Builder_new 16384 0)) [] (sample_id 1)
    4096 8192 sample_zero_builder (@packed_new crc_sum 16384 0 _ _) _ _ _ _);
    first [decide_now | apply is_ok_unwrap; reflexivity | idtac].
  apply pair_snd. vm_compute. reflexivity.
Qed.

Lemma sample_reachable1 : @world_reachable crc_sum sample_config sample_log_limits sample_world1.
Proof.
  eapply world_next; [apply sample_reachable0|].
  refine (@world_append crc_sum sample_world0 0 sample_zero_builder sample_mutations _ _ _ _ _ _);
    [done|decide_now|exact sample_packed|].
  rewrite <- surjective_pairing. apply is_ok_unwrap. vm_compute. reflexivity.
Qed.

Lemma sample_reachable3 : @world_reachable crc_sum sample_config sample_log_limits sample_world3.
Proof.
  apply (world_next _ _ sample_world2); [apply (world_next _ _ sample_world1); [apply sample_reachable1|]|].
  - unfold sample_world2. rewrite <- sample_segment_is_one at 1.
    apply (@world_write crc_sum sample_world1 [] sample_flight [] sample_file); [done|done|].
    rewrite sample_segment_is_one. apply lookup_singleton_eq.
  - apply (@world_publish crc_sum sample_world2 [] (mark_written sample_flight) []); [done|done|].
    apply is_ok_unwrap. vm_compute. reflexivity.
Qed.

(** A zeroed range that was appended, written and published. *)
Lemma published_image_witness :
  resolve (wd_disk sample_world3) (view (ix_map (lg_index (wd_log sample_world3))) 5000) = Some 0.
Proof.
  destruct (@published_image crc_sum sample_config sample_log_limits sample_world3) as [Hv _].
  - apply sample_reachable3.
  - rewrite Hv. vm_compute. reflexivity.
Defined.

Lemma publication_in_order_witness :
  ∃ log, @Log_publish_append crc_sum (wd_log sample_world1) (fl_sub sample_flight) = Ok log ∧
    lg_published log = 1.
Proof.
  destruct (@publication_in_order crc_sum sample_config sample_log_limits sample_world1) as (Hall & _).
  - apply sample_reachable1.
  - vm_compute. reflexivity.
  - destruct (Hall sample_flight) as (_ & Hp & _); [left | vm_compute; reflexivity |].
    destruct Hp as (log & H1 & H2); [vm_compute; reflexivity|]. exists log. split; [exact H1|].
    rewrite H2. vm_compute. reflexivity.
Defined.
