(* ===== verification/AppendRecovery.v ===== *)
(** * Recovering the staging log

    Models the inspection, repair and live replay of
    [crates/cas/core/src/append/recovery.rs] over segment files given as byte
    sequences.  Inspection opens the candidates in order, checks that they form
    one chain, replays their batches into a fresh log and stops at the first
    one that does not follow; repair truncates or removes what was rejected.
    Reads fail only by being short and metadata allocations are granted: any
    other failure ends recovery with its error before the first repair. *)
From S2P Require Import Prelude Bytes AppendFormat AppendPacking IntervalIndex AppendLog AppendWorld.

(** ** Files *)

Record Candidate : Type := { cd_number : Z; cd_file : bytes }.

(** [direct::read_bytes] of [length] bytes at [offset]. *)
Definition read_bytes (file : bytes) (offset length : Z) : result bytes :=
  if decide (offset + length ≤ blen file) then Ok (slice offset length file)
  else Err (Error UnexpectedEof "short direct read").

(** [Segment::open]: the header block, decoded and matched with the name. *)
Definition Segment_open `{Crc32} (number : Z) (file : bytes) : result SegmentHeader :=
  buffer ← read_bytes file 0 BLOCK_SIZE;
  header ← match SegmentHeader_decode buffer with
           | Ok h => Ok h
           | Err e => Err (Error Other (error_message e))
           | Panic => Panic
           end;
  if decide (sh_number header ≠ number) then other "segment filename/header mismatch"
  else
    Pins_new (sh_capacity header);;
    Ok header.

(** ** Replay *)

(** What [replay_one] leaves behind once a batch of [length] bytes was taken. *)
Definition Log_advance (s : Log) (ix : Index) (published length next_batch : Z) : Log := {|
  lg_config := lg_config s; lg_limits := lg_limits s; lg_segments := lg_segments s;
  lg_index := ix; lg_offset := lg_offset s + length; lg_next_batch := next_batch;
  lg_highest_segment := lg_highest_segment s; lg_published := published;
  lg_issued := lg_issued s; lg_pending_descriptors := lg_pending_descriptors s;
  lg_cohort := lg_cohort s; lg_durable := lg_durable s;
  lg_encoded_bytes := lg_encoded_bytes s + length; lg_allocated_bytes := lg_allocated_bytes s;
  lg_failed := lg_failed s; lg_fenced := lg_fenced s; lg_rotating := lg_rotating s;
|}.

(** The payload of a batch that must be replayed, or [None] when it is bad. *)
Definition replay_payload `{Crc32} (s : Log) (h : Header) (file : bytes) : result bool :=
  let n := env_payload_bytes (hdr_envelope h) in
  if decide (n = 0) then Ok true
  else
    payload ← read_bytes file (lg_offset s + BLOCK_SIZE) n;
    Ok (is_ok (Header_verify_payload h payload)).

Definition Log_replay_one `{Crc32} (s : Log) (segment : SegmentHeader) (file : bytes) (base : Z)
    : result (Log * bool) :=
  let file_length := blen file in
  if decide (file_length - lg_offset s < BLOCK_SIZE) then Ok (s, false)
  else
    buffer ← read_bytes file (lg_offset s) BLOCK_SIZE;
    match Header_decode buffer (cf_image_bytes (lg_config s)) with
    | Panic => Panic
    | Err _ => Ok (s, false)
    | Ok h =>
        let envelope := hdr_envelope h in
        let length := BLOCK_SIZE + env_payload_bytes envelope in
        if negb (Header_follows h segment (lg_next_batch s) (lg_published s) (lg_offset s)
                   file_length)
        then Ok (s, false)
        else
          let finish ix published :=
            next ← ok_or (Error LogExhausted "") (checked_add 64 (lg_next_batch s) 1);
            Ok (Log_advance s ix published length next, true) in
          if env_fence envelope then finish (lg_index s) (lg_published s)
          else if bool_decide (env_first envelope ≤ base) && bool_decide (base < env_last envelope)
          then other "manifest D splits a staging batch"
          else if decide (env_last envelope ≤ base) then finish (lg_index s) (env_last envelope)
          else if decide (lm_intervals (lg_limits s)
                          < Index_len (lg_index s) + 2 * env_descriptors envelope)
          then Err (Error LogCapacity "")
          else
            intact ← replay_payload s h file;
            if negb intact then Ok (s, false)
            else
              ix ← publish_descriptors (sh_number segment) (lg_offset s) (Header_descriptors h)
                     (lg_index s);
              finish ix (env_last envelope)
    end.

(** The loop over one segment: whether a suffix of it was rejected.  A batch
    takes at least one block, so the number of blocks is enough fuel. *)
Fixpoint replay_loop `{Crc32} (fuel : nat) (s : Log) (segment : SegmentHeader) (file : bytes)
    (base : Z) : result (Log * bool) :=
  if decide (blen file ≤ lg_offset s) then Ok (s, false)
  else match fuel with
  | O => Panic
  | S fuel =>
      '(s, more) ← Log_replay_one s segment file base;
      if negb more then Ok (s, true) else replay_loop fuel s segment file base
  end.

Definition replay_fuel (file : bytes) : nat := Z.to_nat (blen file / BLOCK_SIZE) + 1.

(** Attaching one opened segment and replaying it. *)
Definition attach_segment (s : Log) (segment : SegmentHeader) (allocated : Z) : Log := {|
  lg_config := lg_config s; lg_limits := lg_limits s;
  lg_segments := lg_segments s ++ [segment];
  lg_index := lg_index s; lg_offset := BLOCK_SIZE; lg_next_batch := 1;
  lg_highest_segment := lg_highest_segment s; lg_published := lg_published s;
  lg_issued := lg_issued s; lg_pending_descriptors := lg_pending_descriptors s;
  lg_cohort := lg_cohort s; lg_durable := lg_durable s;
  lg_encoded_bytes := lg_encoded_bytes s + BLOCK_SIZE;
  lg_allocated_bytes := lg_allocated_bytes s + allocated;
  lg_failed := lg_failed s; lg_fenced := lg_fenced s; lg_rotating := lg_rotating s;
|}.

Definition chains (s : Log) (c : Config) (h : SegmentHeader) : bool :=
  Config_matches c h && bool_decide (sh_preceding_sequence h = lg_published s) &&
  match last (lg_segments s) with
  | Some previous => bool_decide (sh_epoch previous ≤ sh_epoch h)
  | None => true
  end.

(** The loop over the candidates from position [index]: the log and where the
    rejected suffix begins.  [allocated] gives the blocks each file occupies. *)
Fixpoint inspect_candidates `{Crc32} (s : Log) (c : Config) (allocated : Z → Z) (base : Z)
    (index : nat) (l : list Candidate) : result (Log * option (nat * Z)) :=
  match l with
  | [] => Ok (s, None)
  | cd :: l =>
      match Segment_open (cd_number cd) (cd_file cd) with
      | Panic => Panic
      | Err e =>
          if decide (error_kind e = UnexpectedEof) then Ok (s, Some (index, 0)) else Err e
      | Ok segment =>
          if negb (chains s c segment) then other "inconsistent staging segment chain"
          else
            let s := attach_segment s segment (allocated (cd_number cd)) in
            '(s, rejected) ← replay_loop (replay_fuel (cd_file cd)) s segment (cd_file cd) base;
            if (rejected : bool) then Ok (s, Some (index, lg_offset s))
            else inspect_candidates s c allocated base (S index) l
      end
  end.

Record Recovery : Type := {
  rc_log : Log;
  rc_candidates : list Candidate;
  rc_rejected : option (nat * Z);
}.

Definition set_issued (s : Log) (n : Z) : Log := {|
  lg_config := lg_config s; lg_limits := lg_limits s; lg_segments := lg_segments s;
  lg_index := lg_index s; lg_offset := lg_offset s; lg_next_batch := lg_next_batch s;
  lg_highest_segment := lg_highest_segment s; lg_published := lg_published s;
  lg_issued := n; lg_pending_descriptors := lg_pending_descriptors s;
  lg_cohort := lg_cohort s; lg_durable := lg_durable s;
  lg_encoded_bytes := lg_encoded_bytes s; lg_allocated_bytes := lg_allocated_bytes s;
  lg_failed := lg_failed s; lg_fenced := lg_fenced s; lg_rotating := lg_rotating s;
|}.

(** [Log::inspect_in] on the candidates in ascending order. *)
Definition Log_inspect `{Crc32} (limits : Limits) (highest : Z) (allocated : Z → Z) (base : Z)
    (candidates : list Candidate) : result Recovery :=
  match candidates with
  | [] => other "no valid image segment"
  | first :: _ =>
      h ← Segment_open (cd_number first) (cd_file first);
      if decide (base < sh_preceding_sequence h)
      then other "missing staging prefix above manifest D"
      else
        let config := {| cf_store := sh_store h; cf_image := sh_image h;
                         cf_image_bytes := sh_image_bytes h;
                         cf_segment_bytes := sh_capacity h |} in
        if decide (cf_segment_bytes config < MAX_BATCH_BYTES + 2 * BLOCK_SIZE)
        then Err (Error LogCapacity "")
        else
          '(s, rejected) ← inspect_candidates
            (Log_empty config limits highest (sh_preceding_sequence h)) config allocated
            base 0 candidates;
          if decide (lg_published s < base) then Err (Error LogPrefix "")
          else Ok {| rc_log := set_issued s (lg_published s);
                     rc_candidates := candidates; rc_rejected := rejected |}
  end.

Definition Recovery_require_prefix (r : Recovery) (required : Z) : result unit :=
  if decide (lg_published (rc_log r) < required) then Err (Error LogPrefix "") else Ok tt.

(** The files [repair] leaves: the rejected suffix was archived first, then
    the first rejected file is truncated, unless nothing of it was accepted, and
    the later ones are removed. *)
Definition Recovery_repair (r : Recovery) : list Candidate :=
  match rc_rejected r with
  | None => rc_candidates r
  | Some (index, offset) =>
      take index (rc_candidates r) ++
      match rc_candidates r !! index with
      | Some cd =>
          if decide (offset ≠ 0)
          then [{| cd_number := cd_number cd; cd_file := take (Z.to_nat offset) (cd_file cd) |}]
          else []
      | None => []
      end
  end.

(** ** One replayed batch *)

(** The mutations the batch at the log's position carries. *)
Definition carried (file : bytes) (offset : Z) (h : Header) : list Mutation :=
  (λ d, (d, match d_kind d with
            | Write => slice (offset + BLOCK_SIZE + d_payload_offset d) (d_payload_length d) file
            | Zero => []
            end)) <$> Header_descriptors h.

(** Taking the batch at the position of [s] gives [s'] and publishes [l]. *)
Inductive replay_step `{Crc32} (segment : SegmentHeader) (file : bytes) (base : Z) (s : Log)
    : list Mutation → Log → Prop :=
  | replay_step_intro h ix published l :
      lg_offset s + BLOCK_SIZE ≤ blen file →
      Header_decode (slice (lg_offset s) BLOCK_SIZE file) (cf_image_bytes (lg_config s)) = Ok h →
      Header_follows h segment (lg_next_batch s) (lg_published s) (lg_offset s) (blen file) = true →
      lg_next_batch s + 1 < 2 ^ 64 →
      ((l = [] ∧ ix = lg_index s ∧
        if env_fence (hdr_envelope h) then published = lg_published s
        else env_last (hdr_envelope h) ≤ base ∧ published = env_last (hdr_envelope h)) ∨
       (env_fence (hdr_envelope h) = false ∧ base < env_first (hdr_envelope h) ∧
        base < env_last (hdr_envelope h) ∧
        Index_len (lg_index s) + 2 * env_descriptors (hdr_envelope h) ≤ lm_intervals (lg_limits s) ∧
        replay_payload s h file = Ok true ∧
        publish_descriptors (sh_number segment) (lg_offset s) (Header_descriptors h) (lg_index s) = Ok ix ∧
        published = env_last (hdr_envelope h) ∧ l = carried file (lg_offset s) h)) →
      replay_step segment file base s l
        (Log_advance s ix published (BLOCK_SIZE + env_payload_bytes (hdr_envelope h)) (lg_next_batch s + 1)).

Lemma read_bytes_ok file offset length b :
  read_bytes file offset length = Ok b ↔ offset + length ≤ blen file ∧ b = slice offset length file.
Proof. unfold read_bytes. case_decide; split; [by intros [= <-]|by intros [_ ->]|done|by intros []]. Qed.

Lemma replay_one_step `{Crc32} s segment file base s' :
  Log_replay_one s segment file base = Ok (s', true) ↔ ∃ l, replay_step segment file base s l s'.
Proof.
  unfold Log_replay_one. split.
  - destruct (decide (blen file - lg_offset s < BLOCK_SIZE)) as [|Hl]; [done|]. intros E.
    apply result_bind_ok in E as (buffer & [_ ->]%read_bytes_ok & E).
    destruct (Header_decode _ _) as [h|e|] eqn:Hd; [|done..]. cbv zeta in E.
    destruct (Header_follows _ _ _ _ _ _) eqn:Hfo; cbn [negb] in E; [|done].
    assert (Hfin : ∀ ix p, (next ← ok_or (Error LogExhausted "") (checked_add 64 (lg_next_batch s) 1);
        Ok (Log_advance s ix p (BLOCK_SIZE + env_payload_bytes (hdr_envelope h)) next, true)) = Ok (s', true) →
      lg_next_batch s + 1 < 2 ^ 64 ∧ s' = Log_advance s ix p (BLOCK_SIZE + env_payload_bytes (hdr_envelope h))
        (lg_next_batch s + 1)).
    { intros ix p Hp. apply result_bind_ok in Hp as (n & Hn & Hp). destruct (checked_add _ _ _) eqn:Hc; [|done].
      apply checked_add_Some in Hc as [-> Hc]. injection Hn as <-. by injection Hp as <-. }
    destruct (env_fence (hdr_envelope h)) eqn:Hfe.
    { apply Hfin in E as [Hn ->]. exists []. econstructor; [lia|done|done|done|]. left. by rewrite Hfe. }
    destruct (bool_decide (env_first _ ≤ base) && _) eqn:Hsp; [done|].
    destruct (decide (env_last _ ≤ base)) as [Hla|Hla].
    { apply Hfin in E as [Hn ->]. exists []. econstructor; [lia|done|done|done|]. left. by rewrite Hfe. }
    destruct (decide (lm_intervals _ < _)) as [|Hcap]; [done|].
    apply result_bind_ok in E as (intact & Hi & E). destruct intact; cbn [negb] in E; [|done].
    apply result_bind_ok in E as (ix & Hix & E). apply Hfin in E as [Hn ->].
    rewrite andb_false_iff, !bool_decide_eq_false in Hsp.
    exists (carried file (lg_offset s) h). econstructor; [lia|done|done|done|]. right. split_and!; try done; try lia.
  - intros [l [h ix published l' Hl Hd Hfo Hn Hc]]. rewrite decide_False by lia.
    rewrite (proj2 (read_bytes_ok _ _ _ _) (conj Hl eq_refl)), bind_Ok, Hd. cbv zeta. rewrite Hfo. cbn [negb].
    rewrite checked_add_fits by lia. destruct Hc as [(_ & -> & Hc)|(C1 & C2 & C3 & C4 & C5 & C6 & -> & _)].
    + destruct (env_fence _); [by rewrite Hc|]. destruct Hc as [Hc ->].
      rewrite (bool_decide_false (base < _)), andb_false_r, decide_True by lia. done.
    + rewrite C1, bool_decide_false, decide_False, decide_False by lia. cbn [andb].
      rewrite C5, bind_Ok. cbn [negb]. by rewrite C6, bind_Ok.
Qed.


(** ** What a decoded header says of the file *)

Lemma as_chunks_go_ok count n b : bytes_ok b → Forall bytes_ok (as_chunks_go count n b).
Proof.
  revert b. induction count as [|count IH]; intros b Hb; cbn [as_chunks_go]; constructor.
  - by apply bytes_ok_slice.
  - apply IH. by apply Forall_drop.
Qed.

Lemma u32_at_nonneg b off : bytes_ok b → 0 ≤ u32_at b off.
Proof. intros Hb. apply (le_decode_range (slice off 4 b)). by apply bytes_ok_slice. Qed.

Lemma u64_at_nonneg b off : bytes_ok b → 0 ≤ u64_at b off.
Proof. intros Hb. apply (le_decode_range (slice off 8 b)). by apply bytes_ok_slice. Qed.

Lemma payload_before_le ds i :
  Forall (λ d, 0 ≤ d_payload_length d) ds → (i ≤ length ds)%nat →
  0 ≤ payload_before ds i ≤ payload_before ds (length ds).
Proof.
  intros Hd Hi. unfold payload_before. rewrite (take_ge ds (length ds)) by lia.
  rewrite <- (take_drop i ds) at 3. rewrite fmap_app, sumZ_app.
  assert (0 ≤ sumZ (d_payload_length <$> drop i ds)) by (apply sumZ_nonneg, Forall_drop; done).
  assert (0 ≤ sumZ (d_payload_length <$> take i ds)) by (apply sumZ_nonneg, Forall_take; done). lia.
Qed.

Record decoded `{Crc32} (h : Header) : Prop := {
  de_payload : 0 ≤ env_payload_bytes (hdr_envelope h);
  de_count : Z.of_nat (length (Header_descriptors h)) = env_descriptors (hdr_envelope h);
  de_fence : env_fence (hdr_envelope h) = true → env_payload_bytes (hdr_envelope h) = 0;
  de_mutations : env_fence (hdr_envelope h) = false → 0 < env_first (hdr_envelope h) ∧
    env_last (hdr_envelope h) = env_first (hdr_envelope h) + env_descriptors (hdr_envelope h) - 1;
  de_nonempty : env_fence (hdr_envelope h) = false → 0 < env_descriptors (hdr_envelope h);
  de_data : Forall (λ d, 0 < d_length d ∧ (d_kind d = Write → d_payload_length d = d_length d ∧
    0 ≤ d_payload_offset d ∧ d_payload_offset d + d_length d ≤ env_payload_bytes (hdr_envelope h)))
    (Header_descriptors h);
}.

Lemma Header_decode_decoded `{Crc32} b image h :
  bytes_ok b → Header_decode b image = Ok h → decoded h.
Proof.
  intros Hb Hd. destruct (Header_decode_facts _ _ _ Hd Hb) as (F1 & F2 & F3 & _ & F5).
  apply Header_decode_iff in Hd as (_ & _ & _ & _ & _ & _ & _ & _ & _ & _ & _ & ->).
  assert (Hslots : Forall (λ d, 0 ≤ d_length d ∧ 0 ≤ d_payload_length d)
    (Header_descriptors {| hdr_envelope := envelope_of b; hdr_bytes := b |})).
  { unfold Header_descriptors. apply Forall_fmap. eapply Forall_impl.
    - apply as_chunks_go_ok, bytes_ok_slice. exact Hb.
    - intros slot Hs. split; [by apply u64_at_nonneg|by apply u32_at_nonneg]. }
  set (ds := Header_descriptors _) in *. cbn [hdr_envelope] in *.
  destruct F2 as (_ & _ & F2a & F2b & F2c & F2d). split; cbn [hdr_envelope]; fold ds.
  - apply u32_at_nonneg. done.
  - done.
  - intros Hf. rewrite Hf in F2d. tauto.
  - intros Hf. rewrite Hf in F2d. pose proof (u64_at_nonneg b 40 Hb). cbn in *. lia.
  - intros Hf. rewrite Hf in F2d. lia.
  - apply Forall_lookup. intros i d Hi. destruct (F3 i d Hi) as (_ & Hv & Hk).
    pose proof (Forall_lookup_1 _ _ _ _ Hslots Hi) as [Hl0 _].
    unfold valid_range in Hv. rewrite !andb_true_iff, bool_decide_eq_true in Hv. split; [lia|].
    intros K. rewrite K in Hk. destruct Hk as [-> Hk].
    assert (Hp : Forall (λ d, 0 ≤ d_payload_length d) ds) by (eapply Forall_impl; [exact Hslots|]; by intros ? []).
    apply lookup_lt_Some in Hi as Hlt. pose proof (payload_before_le ds i Hp ltac:(lia)).
    pose proof (payload_before_le ds (S i) Hp ltac:(lia)) as Hs.
    unfold payload_before in Hs at 1. unfold payload_before in Hs at 1.
    rewrite (take_S_r _ _ d) in Hs by done. rewrite fmap_app, sumZ_app in Hs. cbn in Hs.
    fold (payload_before ds i) in Hs. destruct (F3 i d Hi) as (_ & _ & Hk2). rewrite K in Hk2. lia.
Qed.

(** ** What a replayed batch does to the log *)

Record replayable (s : Log) : Prop := {
  ra_wf : wf (ix_map (lg_index s));
  ra_limit : ix_limit (lg_index s) = lm_intervals (lg_limits s);
  ra_intervals : lm_intervals (lg_limits s) < 2 ^ 64;
  ra_published : 0 ≤ lg_published s;
  ra_batch : 1 ≤ lg_next_batch s;
  ra_offset : lg_next_batch s * BLOCK_SIZE ≤ lg_offset s;
}.

(** Reading the image through the index of [s] gives what [l] wrote. *)
Definition holds (disk : gmap Z bytes) (s : Log) (l : list Mutation) : Prop :=
  ∀ x, resolve disk (view (ix_map (lg_index s)) x) = contents l x.

Lemma carried_stored `{Crc32} disk segment file offset h :
  decoded h → disk !! segment = Some file → 0 ≤ offset →
  offset + BLOCK_SIZE + env_payload_bytes (hdr_envelope h) ≤ blen file →
  Forall (stored disk segment offset) (carried file offset h).
Proof.
  intros Hd Hf Ho Hl. unfold carried. apply Forall_fmap. eapply Forall_impl; [apply Hd|].
  intros d [H1 H2]. split; cbn; [done|]. intros K. destruct (H2 K) as (P1 & P2 & P3). rewrite K, P1.
  unfold BLOCK_SIZE in *. split; [apply blen_slice; lia|]. split; [lia|]. by exists file.
Qed.

Lemma carried_fst file offset h : (carried file offset h).*1 = Header_descriptors h.
Proof. unfold carried. rewrite <- list_fmap_compose. apply list_fmap_id. Qed.

Lemma replay_step_decoded `{Crc32} file s h :
  bytes_ok file → Header_decode (slice (lg_offset s) BLOCK_SIZE file) (cf_image_bytes (lg_config s)) = Ok h →
  decoded h.
Proof. intros Hb. apply Header_decode_decoded. by apply bytes_ok_slice. Qed.

Lemma decoded_lengths `{Crc32} h : decoded h → Forall (λ d, 0 < d_length d) (Header_descriptors h).
Proof. intros Hd. eapply Forall_impl; [apply Hd|]. by intros ? []. Qed.

Ltac advance := cbn [Log_advance lg_index lg_limits lg_published lg_next_batch lg_offset].

Lemma replay_step_ok `{Crc32} segment file s l s' :
  bytes_ok file → replayable s → replay_step segment file 0 s l s' →
  replayable s' ∧ lg_offset s + BLOCK_SIZE ≤ lg_offset s' ≤ blen file ∧
  lg_published s' = lg_published s + Z.of_nat (length l) ∧
  ∀ disk l0, disk !! sh_number segment = Some file → holds disk s l0 → holds disk s' (l0 ++ l).
Proof.
  intros Hb [R1 R2 R3 R4 R5 R6] Hs. destruct Hs as [h ix published l Hl Hd Hfo Hn Hc].
  pose proof (replay_step_decoded _ _ _ Hb Hd) as Hde.
  apply Header_follows_spec in Hfo as (F1 & F2 & F3 & F4 & F5 & F6 & F7).
  pose proof (de_payload _ Hde) as Hp. unfold BLOCK_SIZE in *. cbn [Log_advance lg_offset lg_published].
  destruct Hc as [(-> & -> & Hc)|(C1 & C2 & C3 & C4 & C5 & C6 & -> & ->)].
  - assert (published = lg_published s) as ->.
    { destruct (env_fence _) eqn:Hfe; [done|]. destruct (de_mutations _ Hde Hfe).
      pose proof (de_nonempty _ Hde Hfe). lia. }
    split_and!; [by split; advance; unfold BLOCK_SIZE; try done; lia|lia|lia|cbn [length]; lia|].
    intros disk l0 _ Hh x. advance. rewrite app_nil_r. apply Hh.
  - pose proof (de_count _ Hde) as Hcnt. rewrite C1 in F7. destruct (de_mutations _ Hde C1) as [M1 M2].
    assert (Hlen : length (carried file (lg_offset s) h) = length (Header_descriptors h)) by apply length_fmap.
    destruct (publish_descriptors_spec (sh_number segment) (lg_offset s) (Header_descriptors h) (lg_index s) R1
      (decoded_lengths _ Hde) ltac:(rewrite R2; lia) ltac:(lia)) as (ix' & E & W & L & M & V).
    rewrite C6 in E. injection E as <-.
    split_and!; [split; advance; [done|by rewrite M|done|lia|lia|unfold BLOCK_SIZE; lia]|lia|lia|lia|].
    intros disk l0 Hf Hh x. advance. rewrite V, contents_app, <- (carried_fst file (lg_offset s)).
    rewrite overlay_resolve.
    + apply apply_all_ext. apply Hh.
    + eapply carried_stored; [done|done|lia|unfold BLOCK_SIZE; lia].
Qed.

Lemma slice_prefix_eq n o k (a b : bytes) :
  slice 0 n a = slice 0 n b → 0 ≤ o → o + k ≤ n → slice o k a = slice o k b.
Proof.
  intros E Ho Hk. pose proof (slice_slice 0 n o k a ltac:(lia) Ho Hk) as Ha.
  pose proof (slice_slice 0 n o k b ltac:(lia) Ho Hk) as Hb. rewrite Z.add_0_l in Ha, Hb. congruence.
Qed.

(** Only the bytes a batch occupies matter. *)
Lemma replay_step_ext `{Crc32} segment file file' s l s' :
  bytes_ok file → replayable s → replay_step segment file 0 s l s' →
  lg_offset s' ≤ blen file' → slice 0 (lg_offset s') file' = slice 0 (lg_offset s') file →
  replay_step segment file' 0 s l s'.
Proof.
  intros Hb Hr Hs Hl' He. pose proof (replay_step_ok _ _ _ _ _ Hb Hr Hs) as (_ & Hoff & _).
  destruct Hr as [R1 R2 R3 R4 R5 R6]. destruct Hs as [h ix published l Hl Hd Hfo Hn Hc].
  pose proof (replay_step_decoded _ _ _ Hb Hd) as Hde. pose proof (de_payload _ Hde) as Hp.
  cbn [Log_advance lg_offset] in *.
  assert (Hsl : ∀ o k, 0 ≤ o → o + k ≤ lg_offset s + (BLOCK_SIZE + env_payload_bytes (hdr_envelope h)) →
    slice o k file' = slice o k file) by (intros; by eapply slice_prefix_eq).
  unfold BLOCK_SIZE in *.
  econstructor; [unfold BLOCK_SIZE; lia|unfold BLOCK_SIZE; rewrite Hsl by lia; exact Hd| |done|].
  - apply Header_follows_spec. apply Header_follows_spec in Hfo. unfold BLOCK_SIZE in *. cbn zeta in *. intuition lia.
  - destruct Hc as [Hc|(C1 & C2 & C3 & C4 & C5 & C6 & C7 & ->)]; [by left|]. right. split_and!; try done.
    + rewrite <- C5. unfold replay_payload, read_bytes, BLOCK_SIZE in *. case_decide; [done|].
      rewrite !decide_True by lia. rewrite Hsl by lia. done.
    + unfold carried. apply list_fmap_ext. intros i d Hi.
      pose proof (Forall_lookup_1 _ _ _ _ (de_data _ Hde) Hi) as [_ D]. f_equal.
      destruct (d_kind d) eqn:K; [|done]. destruct (D eq_refl) as (-> & D2 & D3). unfold BLOCK_SIZE in *.
      symmetry. apply Hsl; lia.
Qed.

(** ** The loop over a segment *)

Inductive replays `{Crc32} (segment : SegmentHeader) (file : bytes) : Log → list Mutation → Log → Prop :=
  | replays_nil s : replays segment file s [] s
  | replays_cons s l s1 l' s' :
      replay_step segment file 0 s l s1 → replays segment file s1 l' s' →
      replays segment file s (l ++ l') s'.

Lemma replays_app `{Crc32} segment file s l s1 l' s' :
  replays segment file s l s1 → replays segment file s1 l' s' → replays segment file s (l ++ l') s'.
Proof.
  induction 1; intros Hr; [done|]. rewrite <- app_assoc. econstructor; eauto.
Qed.

Lemma replays_snoc `{Crc32} segment file s l s1 l' s' :
  replays segment file s l s1 → replay_step segment file 0 s1 l' s' → replays segment file s (l ++ l') s'.
Proof.
  intros Hr Hs. eapply replays_app; [done|]. rewrite <- (app_nil_r l'). econstructor; [done|constructor].
Qed.

Lemma replays_ok `{Crc32} segment file s l s' :
  bytes_ok file → replayable s → replays segment file s l s' →
  replayable s' ∧ lg_offset s ≤ lg_offset s' ∧ (lg_offset s ≤ blen file → lg_offset s' ≤ blen file) ∧
  lg_published s' = lg_published s + Z.of_nat (length l) ∧
  ∀ disk l0, disk !! sh_number segment = Some file → holds disk s l0 → holds disk s' (l0 ++ l).
Proof.
  intros Hb Hr Hs. induction Hs as [s|s l s1 l' s' H1 H2 IH].
  { split_and!; [done|done|done|cbn; lia|]. intros. by rewrite app_nil_r. }
  destruct (replay_step_ok _ _ _ _ _ Hb Hr H1) as (R1 & O1 & P1 & I1).
  destruct (IH R1) as (R2 & O2 & O3 & P2 & I2). unfold BLOCK_SIZE in *. rewrite length_app.
  split_and!; [done|lia|lia|lia|]. intros disk l0 Hd Hh. rewrite app_assoc. auto.
Qed.

Lemma replays_ext `{Crc32} segment file file' s l s' :
  bytes_ok file → replayable s → replays segment file s l s' →
  lg_offset s' ≤ blen file' → slice 0 (lg_offset s') file' = slice 0 (lg_offset s') file →
  replays segment file' s l s'.
Proof.
  intros Hb Hr Hs Hl He. induction Hs as [s|s l s1 l' s' H1 H2 IH]; [constructor|].
  destruct (replay_step_ok _ _ _ _ _ Hb Hr H1) as (R1 & O1 & _).
  destruct (replays_ok _ _ _ _ _ Hb R1 H2) as (_ & O2 & _).
  econstructor; [|by apply IH]. eapply replay_step_ext; [exact Hb|done|done|lia|].
  eapply slice_prefix_eq; [exact He|lia|lia].
Qed.

Lemma bind_not_Panic {A B} (m : result A) (f : A → result B) :
  m ≠ Panic → (∀ a, f a ≠ Panic) → (m ≫= f) ≠ Panic.
Proof. destruct m; cbn; auto. Qed.

Lemma require_not_Panic c m : AppendFormat.require c m ≠ Panic.
Proof. unfold AppendFormat.require. by destruct c. Qed.

Lemma check_slots_not_Panic env image slots : ∀ index st, check_slots env image index slots st ≠ Panic.
Proof.
  induction slots as [|slot slots IH]; intros index [pe serial]; cbn [check_slots]; [done|].
  apply bind_not_Panic; [|auto]. unfold check_slot.
  repeat (apply bind_not_Panic; [apply require_not_Panic|intros _]). cbv zeta.
  destruct (d_kind _); repeat (apply bind_not_Panic; [apply require_not_Panic|intros _]); done.
Qed.

Lemma Header_decode_not_Panic `{Crc32} b image : Header_decode b image ≠ Panic.
Proof.
  unfold Header_decode. repeat (apply bind_not_Panic; [apply require_not_Panic|intros _]). cbv zeta.
  repeat (apply bind_not_Panic; [apply require_not_Panic|intros _]).
  apply bind_not_Panic; [case_match; apply require_not_Panic|intros _].
  apply bind_not_Panic; [apply check_slots_not_Panic|intros st].
  apply bind_not_Panic; [apply require_not_Panic|done].
Qed.

Lemma replay_one_total `{Crc32} s segment file :
  bytes_ok file → replayable s →
  Log_replay_one s segment file 0 = Ok (s, false) ∨
  (∃ l s', replay_step segment file 0 s l s' ∧ Log_replay_one s segment file 0 = Ok (s', true)) ∨
  Log_replay_one s segment file 0 = Err (Error LogCapacity "").
Proof.
  intros Hb Hr.
  assert (Hyes : ∀ l s', replay_step segment file 0 s l s' →
    ∃ l s', replay_step segment file 0 s l s' ∧ Log_replay_one s segment file 0 = Ok (s', true)).
  { intros l s' Hs. exists l, s'. split; [done|]. apply replay_one_step. eauto. }
  destruct Hr as [R1 R2 R3 R4 R5 R6].
  destruct (decide (blen file - lg_offset s < BLOCK_SIZE)) as [Hlt|Hl].
  { left. unfold Log_replay_one. by rewrite decide_True. }
  assert (Hrd : read_bytes file (lg_offset s) BLOCK_SIZE = Ok (slice (lg_offset s) BLOCK_SIZE file)).
  { apply read_bytes_ok. split; [lia|done]. }
  destruct (Header_decode (slice (lg_offset s) BLOCK_SIZE file) (cf_image_bytes (lg_config s))) as [h|e|] eqn:Hd.
  3:{ by apply Header_decode_not_Panic in Hd. }
  2:{ left. unfold Log_replay_one. rewrite decide_False by done. by rewrite Hrd, bind_Ok, Hd. }
  unfold Log_replay_one. rewrite decide_False by done.
  rewrite Hrd, bind_Ok, Hd.
  cbv zeta. destruct (Header_follows _ _ _ _ _ _) eqn:Hfo; cbn [negb]; [|by left].
  pose proof (replay_step_decoded _ _ _ Hb Hd) as Hde. pose proof (de_payload _ Hde) as Hp.
  pose proof (proj1 (Header_follows_spec _ _ _ _ _ _) Hfo) as (F1 & F2 & F3 & F4 & F5 & F6 & F7).
  unfold BLOCK_SIZE in R6, F3, F4. rewrite checked_add_fits by lia.
  destruct (env_fence (hdr_envelope h)) eqn:Hfe.
  { right. left. eexists [], _. split; [|done]. econstructor; [lia|done|done|lia|]. left. by rewrite Hfe. }
  destruct (de_mutations _ Hde Hfe) as [M1 M2]. pose proof (de_nonempty _ Hde Hfe) as M3.
  rewrite bool_decide_false, decide_False by lia. cbn [andb].
  destruct (decide (lm_intervals _ < _)) as [|Hcap]; [by right; right|].
  destruct (publish_descriptors_spec (sh_number segment) (lg_offset s)
    (Header_descriptors h) (lg_index s) R1 (decoded_lengths _ Hde)
    ltac:(rewrite R2, (de_count _ Hde); lia) ltac:(lia)) as (ix' & E & _).
  assert (Hpay : ∃ b, replay_payload s h file = Ok b).
  { unfold replay_payload. case_decide; [eauto|]. unfold read_bytes, BLOCK_SIZE.
    rewrite decide_True by lia. rewrite bind_Ok. eauto. }
  destruct Hpay as [[] Hpay]; rewrite Hpay, bind_Ok; cbn [negb]; [|by left].
  right. left. rewrite E, bind_Ok. eexists (carried file (lg_offset s) h), _. split; [|done].
  econstructor; [lia|done|done|lia|]. right. split_and!; try done; lia.
Qed.

(** Enough fuel for the part of the file that is left. *)
Definition enough (file : bytes) (s : Log) (fuel : nat) : Prop :=
  blen file - lg_offset s < Z.of_nat fuel * BLOCK_SIZE.

Lemma enough_fuel file s : 0 ≤ lg_offset s → enough file s (replay_fuel file).
Proof.
  intros Ho. unfold enough, replay_fuel, BLOCK_SIZE.
  pose proof (Z.div_mod (blen file) 4096 ltac:(lia)). pose proof (Z.mod_pos_bound (blen file) 4096 ltac:(lia)).
  pose proof (Z.div_pos (blen file) 4096 (blen_nonneg file) ltac:(lia)). lia.
Qed.

(** The loop runs through every batch that replays. *)
Lemma replay_loop_through `{Crc32} segment file s l s' fuel :
  bytes_ok file → replayable s → replays segment file s l s' → enough file s fuel →
  ∃ fuel', enough file s' fuel' ∧ replay_loop fuel s segment file 0 = replay_loop fuel' s' segment file 0.
Proof.
  intros Hb Hr Hs. revert fuel Hr. induction Hs as [s|s l s1 l' s' H1 H2 IH]; intros fuel Hr He; [eauto|].
  destruct (replay_step_ok _ _ _ _ _ Hb Hr H1) as (R1 & O1 & _). unfold enough, BLOCK_SIZE in *.
  destruct fuel as [|fuel]; [lia|]. destruct (IH fuel R1 ltac:(lia)) as (fuel' & E1 & E2).
  exists fuel'. split; [done|]. rewrite <- E2. cbn [replay_loop]. rewrite decide_False by lia.
  rewrite (proj2 (replay_one_step _ _ _ _ _) (ex_intro _ _ H1)), bind_Ok. done.
Qed.

(** It ends at the first batch that does not, or for want of intervals. *)
Lemma replay_loop_total `{Crc32} segment file fuel : ∀ s,
  bytes_ok file → replayable s → enough file s fuel →
  (∃ l s' rejected, replay_loop fuel s segment file 0 = Ok (s', rejected) ∧ replays segment file s l s' ∧
     if (rejected : bool) then lg_offset s' < blen file ∧ Log_replay_one s' segment file 0 = Ok (s', false)
     else blen file ≤ lg_offset s') ∨
  replay_loop fuel s segment file 0 = Err (Error LogCapacity "").
Proof.
  induction fuel as [|fuel IH]; intros s Hb Hr He; cbn [replay_loop]; (destruct (decide (blen file ≤ lg_offset s));
    [left; eexists [], _, false; split; [done|]; split; [constructor|done]|]).
  { unfold enough in He. lia. }
  destruct (replay_one_total s segment file Hb Hr) as [E|[(l & s1 & Hs & E)|E]]; rewrite E; [|rewrite bind_Ok|by right].
  - left. rewrite bind_Ok. eexists [], s, true. split; [done|]. split; [constructor|]. split; [lia|done].
  - cbn [negb]. destruct (replay_step_ok _ _ _ _ _ Hb Hr Hs) as (R1 & O1 & _).
    destruct (IH s1 Hb R1 ltac:(unfold enough, BLOCK_SIZE in *; lia)) as [(l' & s' & r & L1 & L2 & L3)|L]; [|by right].
    left. eexists _, s', r. split; [done|]. split; [by econstructor|done].
Qed.

(** ** The chain of segments *)

Lemma attach_replayable s segment allocated : replayable s → replayable (attach_segment s segment allocated).
Proof. intros [R1 R2 R3 R4 R5 R6]. by split. Qed.

Lemma empty_replayable c lim highest published :
  lm_intervals lim < 2 ^ 64 → 0 ≤ published → replayable (Log_empty c lim highest published).
Proof.
  intros Hl Hp. by split.
Qed.

(** Segments that are opened, follow one another and replay to their end. *)
Inductive recovers `{Crc32} (c : Config) (allocated : Z → Z) : Log → list Candidate → list Mutation → Log → Prop :=
  | recovers_nil s : recovers c allocated s [] [] s
  | recovers_cons s cd segment l s1 cds l' s' :
      Segment_open (cd_number cd) (cd_file cd) = Ok segment → chains s c segment = true →
      replays segment (cd_file cd) (attach_segment s segment (allocated (cd_number cd))) l s1 →
      lg_offset s1 = blen (cd_file cd) → recovers c allocated s1 cds l' s' →
      recovers c allocated s (cd :: cds) (l ++ l') s'.

Definition on_disk (disk : gmap Z bytes) (cds : list Candidate) : Prop :=
  Forall (λ cd, disk !! cd_number cd = Some (cd_file cd)) cds.

Definition clean (cds : list Candidate) : Prop := Forall (λ cd, bytes_ok (cd_file cd)) cds.

Lemma Segment_open_ok `{Crc32} number file segment :
  Segment_open number file = Ok segment →
  sh_number segment = number ∧ BLOCK_SIZE ≤ blen file ∧ SegmentHeader_decode (slice 0 BLOCK_SIZE file) = Ok segment.
Proof.
  unfold Segment_open. intros E. apply result_bind_ok in E as (b & [Hl ->]%read_bytes_ok & E).
  apply result_bind_ok in E as (h & Hh & E). destruct (SegmentHeader_decode _); [|done..]. injection Hh as ->.
  case_decide as Hn; [done|]. apply result_bind_ok in E as (? & _ & E). injection E as ->.
  by rewrite Z.add_0_l in Hl.
Qed.

Lemma recovers_ok `{Crc32} c allocated s cds l s' :
  clean cds → replayable s → recovers c allocated s cds l s' →
  replayable s' ∧ lg_published s' = lg_published s + Z.of_nat (length l) ∧
  ∀ disk l0, on_disk disk cds → holds disk s l0 → holds disk s' (l0 ++ l).
Proof.
  intros Hc Hr Hs. induction Hs as [s|s cd segment l s1 cds l' s' H1 H2 H3 H4 H5 IH].
  { split_and!; [done|cbn; lia|]. intros. by rewrite app_nil_r. }
  apply Forall_cons in Hc as [Hb Hc].
  destruct (replays_ok _ _ _ _ _ Hb (attach_replayable s segment (allocated (cd_number cd)) Hr) H3)
    as (R1 & _ & _ & P1 & I1).
  destruct (IH Hc R1) as (R2 & P2 & I2). rewrite length_app. cbn [attach_segment lg_published] in P1.
  split_and!; [done|lia|]. intros disk l0 [Hd1 Hd2]%Forall_cons Hh. rewrite app_assoc. apply I2; [done|].
  apply I1; [|done]. by destruct (Segment_open_ok _ _ _ H1) as [-> _].
Qed.

(** One whole segment in the loop over the candidates. *)
Lemma inspect_segment `{Crc32} c allocated s cd segment l s1 index cds :
  bytes_ok (cd_file cd) → replayable s →
  Segment_open (cd_number cd) (cd_file cd) = Ok segment → chains s c segment = true →
  replays segment (cd_file cd) (attach_segment s segment (allocated (cd_number cd))) l s1 →
  lg_offset s1 = blen (cd_file cd) →
  inspect_candidates s c allocated 0 index (cd :: cds) = inspect_candidates s1 c allocated 0 (S index) cds.
Proof.
  intros Hb Hr H1 H2 H3 H4. cbn [inspect_candidates]. rewrite H1, H2. cbn [negb]. cbv zeta.
  pose proof (attach_replayable s segment (allocated (cd_number cd)) Hr) as Hra.
  destruct (replay_loop_through _ _ _ _ _ (replay_fuel (cd_file cd)) Hb Hra H3) as (fuel & _ & E).
  { by apply enough_fuel. }
  rewrite E. destruct fuel; cbn [replay_loop]; rewrite decide_True by lia; by rewrite bind_Ok.
Qed.

Lemma recovers_inspect `{Crc32} c allocated s cds l s' rest : ∀ index,
  clean cds → replayable s → recovers c allocated s cds l s' →
  inspect_candidates s c allocated 0 index (cds ++ rest) =
  inspect_candidates s' c allocated 0 (index + length cds) rest.
Proof.
  intros index Hc Hr Hs. revert index. induction Hs as [s|s cd segment l s1 cds l' s' H1 H2 H3 H4 H5 IH]; intros index.
  { cbn. by rewrite Nat.add_0_r. }
  apply Forall_cons in Hc as [Hb Hc]. cbn [app].
  destruct (replays_ok _ _ _ _ _ Hb (attach_replayable s segment (allocated (cd_number cd)) Hr) H3) as (R1 & _).
  rewrite (inspect_segment _ _ _ _ _ _ _ _ _ Hb Hr H1 H2 H3 H4), IH by done. f_equal. cbn. lia.
Qed.

Lemma recovers_snoc `{Crc32} c allocated s cds l s1 cd segment l' s' :
  recovers c allocated s cds l s1 →
  Segment_open (cd_number cd) (cd_file cd) = Ok segment → chains s1 c segment = true →
  replays segment (cd_file cd) (attach_segment s1 segment (allocated (cd_number cd))) l' s' →
  lg_offset s' = blen (cd_file cd) → recovers c allocated s (cds ++ [cd]) (l ++ l') s'.
Proof.
  intros Hs H1 H2 H3 H4. induction Hs as [s|s cd0 segment0 l0 s0 cds l1 s1 G1 G2 G3 G4 G5 IH]; cbn [app].
  - rewrite <- (app_nil_r l'). econstructor; [done|done|done|done|constructor].
  - rewrite <- app_assoc. econstructor; eauto.
Qed.

Lemma inspect_outcome `{Crc32} c allocated cds : ∀ s index s' rejected,
  clean cds → replayable s → inspect_candidates s c allocated 0 index cds = Ok (s', rejected) →
  (rejected = None ∧ ∃ l, recovers c allocated s cds l s') ∨
  (∃ pre cd post l s1 off, cds = pre ++ cd :: post ∧ recovers c allocated s pre l s1 ∧
     rejected = Some ((index + length pre)%nat, off) ∧
     ((off = 0 ∧ s' = s1 ∧ is_ok (Segment_open (cd_number cd) (cd_file cd)) = false) ∨
      (∃ segment l', Segment_open (cd_number cd) (cd_file cd) = Ok segment ∧ chains s1 c segment = true ∧
         replays segment (cd_file cd) (attach_segment s1 segment (allocated (cd_number cd))) l' s' ∧
         off = lg_offset s' ∧ BLOCK_SIZE ≤ off < blen (cd_file cd)))).
Proof.
  induction cds as [|cd cds IH]; intros s index s' rejected Hc Hr E; cbn [inspect_candidates] in E.
  { injection E as <- <-. left. split; [done|]. eexists. constructor. }
  apply Forall_cons in Hc as [Hb Hc].
  destruct (Segment_open (cd_number cd) (cd_file cd)) as [segment|e|] eqn:Ho; [| |done].
  2:{ case_decide; [|done]. injection E as <- <-. right. exists [], cd, cds, [], s, 0.
      split; [done|]. split; [constructor|]. split; [f_equal; f_equal; cbn; lia|]. left. by rewrite Ho. }
  destruct (chains s c segment) eqn:Hch; cbn [negb] in E; [|done]. cbv zeta in E.
  pose proof (attach_replayable s segment (allocated (cd_number cd)) Hr) as Hra.
  destruct (Segment_open_ok _ _ _ Ho) as (_ & Hlen & _).
  destruct (replay_loop_total segment (cd_file cd) (replay_fuel (cd_file cd)) _ Hb Hra)
    as [(l & s1 & r & L1 & L2 & L3)|L]; [by apply enough_fuel| |by rewrite L in E].
  rewrite L1, bind_Ok in E. destruct (replays_ok _ _ _ _ _ Hb Hra L2) as (R1 & O1 & O2 & _).
  cbn [attach_segment lg_offset] in O1, O2. destruct r.
  - injection E as <- <-. right. exists [], cd, cds, [], s, (lg_offset s1).
    split; [done|]. split; [constructor|]. split; [f_equal; f_equal; cbn; lia|]. right.
    exists segment, l. split_and!; try done. lia.
  - specialize (O2 Hlen). assert (Heq : lg_offset s1 = blen (cd_file cd)) by lia.
    destruct (IH s1 (S index) s' rejected Hc R1 E) as [[-> [l' Hl']]|(pre & cd' & post & l' & s2 & off & E1 & E2 & E3 & E4)].
    + left. split; [done|]. exists (l ++ l'). by econstructor.
    + right. exists (cd :: pre), cd', post, (l ++ l'), s2, off. rewrite E1. split; [done|].
      split; [by econstructor|]. split; [rewrite E3; do 2 f_equal; cbn; lia|done].
Qed.

(** ** Allocation does not influence replay *)

Definition set_allocated (s : Log) (n : Z) : Log := {|
  lg_config := lg_config s; lg_limits := lg_limits s; lg_segments := lg_segments s;
  lg_index := lg_index s; lg_offset := lg_offset s; lg_next_batch := lg_next_batch s;
  lg_highest_segment := lg_highest_segment s; lg_published := lg_published s;
  lg_issued := lg_issued s; lg_pending_descriptors := lg_pending_descriptors s;
  lg_cohort := lg_cohort s; lg_durable := lg_durable s;
  lg_encoded_bytes := lg_encoded_bytes s; lg_allocated_bytes := n;
  lg_failed := lg_failed s; lg_fenced := lg_fenced s; lg_rotating := lg_rotating s;
|}.

Lemma replays_allocated `{Crc32} segment file s l s' n :
  replays segment file s l s' → replays segment file (set_allocated s n) l (set_allocated s' n).
Proof.
  intros Hs. induction Hs as [s|s l s1 l' s' H1 H2 IH]; econstructor; [|done].
  destruct H1 as [h ix published l Hl Hd Hfo Hn Hc]. by apply (replay_step_intro segment file 0 (set_allocated s n) h ix).
Qed.

Lemma recovers_allocated `{Crc32} c allocated allocated' s cds l s' n :
  recovers c allocated s cds l s' → ∃ n', recovers c allocated' (set_allocated s n) cds l (set_allocated s' n').
Proof.
  intros Hs. revert n. induction Hs as [s|s cd segment l s1 cds l' s' H1 H2 H3 H4 H5 IH]; intros n.
  { exists n. constructor. }
  destruct (IH (n + allocated' (cd_number cd))) as [n' Hn']. exists n'.
  exact (recovers_cons c allocated' (set_allocated s n) cd segment l _ _ _ _ H1 H2
    (replays_allocated _ _ _ _ _ (n + allocated' (cd_number cd)) H3) H4 Hn').
Qed.

Lemma recovers_app `{Crc32} c allocated s cds l s1 cds' l' s' :
  recovers c allocated s cds l s1 → recovers c allocated s1 cds' l' s' →
  recovers c allocated s (cds ++ cds') (l ++ l') s'.
Proof. induction 1; intros; cbn [app]; [done|]. rewrite <- app_assoc. econstructor; eauto. Qed.

Lemma replays_holds `{Crc32} segment file s l s' disk l0 :
  bytes_ok file → replayable s → replays segment file s l s' →
  disk !! sh_number segment = Some file → holds disk s l0 → holds disk s' (l0 ++ l).
Proof. intros Hb Hr Hs. by destruct (replays_ok _ _ _ _ _ Hb Hr Hs) as (_ & _ & _ & _ & Hh); auto. Qed.

Lemma recovers_holds `{Crc32} c allocated s cds l s' disk l0 :
  clean cds → replayable s → recovers c allocated s cds l s' → on_disk disk cds →
  holds disk s l0 → holds disk s' (l0 ++ l).
Proof. intros Hc Hr Hs. by destruct (recovers_ok _ _ _ _ _ _ Hc Hr Hs) as (_ & _ & Hh); auto. Qed.

(** The files a repair leaves are a chain that replays to its end, and hold
    every byte the recovered index refers to. *)
Lemma repaired_recovers `{Crc32} c allocated s0 cds s rejected log first rest h :
  clean cds → replayable s0 → (∀ disk, holds disk s0 []) →
  inspect_candidates s0 c allocated 0 0 cds = Ok (s, rejected) →
  cds = first :: rest → Segment_open (cd_number first) (cd_file first) = Ok h →
  let kept := Recovery_repair {| rc_log := log; rc_candidates := cds; rc_rejected := rejected |} in
  ∃ first' rest' l, kept = first' :: rest' ∧ Segment_open (cd_number first') (cd_file first') = Ok h ∧
    clean kept ∧ recovers c allocated s0 kept l s ∧ ∀ disk, on_disk disk cds → holds disk s l.
Proof.
  intros Hc Hr Hh E Hfirst Hopen. unfold Recovery_repair. cbn [rc_candidates rc_rejected].
  destruct (inspect_outcome _ _ _ _ _ _ _ Hc Hr E)
    as [[-> [l Hl]]|(pre & cd & post & l & s1 & off & Hcds & H1 & -> & Hoff)].
  { exists first, rest, l. split_and!; try done. intros disk Hd. by apply (recovers_holds _ _ _ _ _ _ disk [] Hc Hr Hl). }
  cbn [Nat.add]. pose proof Hc as Hc'. rewrite Hcds in Hc'. apply Forall_app in Hc' as [Hc1 [Hb _]%Forall_cons].
  assert (Hpre : ∀ disk, on_disk disk cds → holds disk s1 l).
  { intros disk Hd. rewrite Hcds in Hd. apply Forall_app in Hd as [Hd _].
    by apply (recovers_holds _ _ _ _ _ _ disk [] Hc1 Hr H1). }
  replace (take (length pre) cds) with pre by (by rewrite Hcds, take_app_length).
  replace (cds !! length pre) with (Some cd) by (by rewrite Hcds, list_lookup_middle).
  destruct Hoff as [(-> & -> & Hno)|(segment & l' & G1 & G2 & G3 & -> & G4)].
  { rewrite decide_False by (by intros []). rewrite app_nil_r. destruct pre as [|f pre].
    - cbn in Hcds. rewrite Hfirst in Hcds. injection Hcds as -> _. by rewrite Hopen in Hno.
    - rewrite Hfirst in Hcds. injection Hcds as <- _. by exists first, pre, l. }
  unfold BLOCK_SIZE in G4. rewrite decide_True by lia.
  destruct (recovers_ok _ _ _ _ _ _ Hc1 Hr H1) as (R1 & _).
  set (cut := take (Z.to_nat (lg_offset s)) (cd_file cd)).
  assert (Hcut : blen cut = lg_offset s) by (unfold cut, blen in *; rewrite length_take; lia).
  assert (Hslice : slice 0 (lg_offset s) cut = slice 0 (lg_offset s) (cd_file cd)).
  { rewrite (slice_all cut) by done. unfold slice. by rewrite Z2Nat.inj_0, drop_0. }
  assert (Hopen' : Segment_open (cd_number cd) cut = Ok segment).
  { revert G1. unfold Segment_open, read_bytes, BLOCK_SIZE. rewrite !decide_True by lia.
    by rewrite (slice_prefix_eq (lg_offset s) 0 4096 cut (cd_file cd)) by (done || lia). }
  assert (Hhead : ∃ first' rest', pre ++ [{| cd_number := cd_number cd; cd_file := cut |}] = first' :: rest' ∧
    Segment_open (cd_number first') (cd_file first') = Ok h).
  { rewrite Hfirst in Hcds. destruct pre as [|f pre]; cbn in *; injection Hcds as <- _; eexists _, _;
      (split; [done|]); cbn; congruence. }
  destruct Hhead as (first' & rest' & Hhead & Hhead'). exists first', rest', (l ++ l').
  split; [done|]. split; [done|]. split.
  { apply Forall_app. split; [done|]. constructor; [|done]. by apply Forall_take. }
  split.
  - eapply recovers_snoc; [done|exact Hopen'|done| |symmetry; exact Hcut]; cbn [cd_number cd_file].
    eapply replays_ext; [exact Hb|by apply attach_replayable|exact G3|lia|exact Hslice].
  - intros disk Hd. apply (replays_holds _ _ _ _ _ disk l Hb (attach_replayable s1 segment _ R1) G3).
    + rewrite Hcds in Hd. apply Forall_app in Hd as [_ [Hd _]%Forall_cons].
      by destruct (Segment_open_ok _ _ _ G1) as [-> _].
    + exact (Hpre disk Hd).
Qed.

Lemma holds_empty disk c lim highest published : holds disk (Log_empty c lim highest published) [].
Proof. intros x. reflexivity. Qed.

Definition header_config (h : SegmentHeader) : Config :=
  {| cf_store := sh_store h; cf_image := sh_image h; cf_image_bytes := sh_image_bytes h;
     cf_segment_bytes := sh_capacity h |}.

Lemma Segment_open_preceding `{Crc32} number file h :
  bytes_ok file → Segment_open number file = Ok h → 0 ≤ sh_preceding_sequence h.
Proof.
  intros Hb (_ & _ & Hd)%Segment_open_ok.
  apply SegmentHeader_decode_ok in Hd; [|by apply bytes_ok_slice]. apply Hd.
Qed.

(** What a successful inspection went through. *)
Lemma inspect_ok `{Crc32} lim highest allocated cds r :
  clean cds → Log_inspect lim highest allocated 0 cds = Ok r →
  ∃ first rest h s rejected, cds = first :: rest ∧ Segment_open (cd_number first) (cd_file first) = Ok h ∧
    sh_preceding_sequence h = 0 ∧ MAX_BATCH_BYTES + 2 * BLOCK_SIZE ≤ sh_capacity h ∧
    inspect_candidates (Log_empty (header_config h) lim highest 0) (header_config h) allocated 0 0 cds
      = Ok (s, rejected) ∧ 0 ≤ lg_published s ∧
    r = {| rc_log := set_issued s (lg_published s); rc_candidates := cds; rc_rejected := rejected |}.
Proof.
  intros Hc E. unfold Log_inspect in E. destruct cds as [|first rest]; [done|].
  apply result_bind_ok in E as (h & Ho & E). apply Forall_cons in Hc as [Hb _].
  pose proof (Segment_open_preceding _ _ _ Hb Ho). destruct (decide (0 < _)) as [|Hz]; [done|].
  assert (Hp : sh_preceding_sequence h = 0) by lia. rewrite Hp in E. cbv zeta in E.
  destruct (decide (_ < MAX_BATCH_BYTES + _)) as [|Hcap]; [done|].
  apply result_bind_ok in E as ([s rejected] & Hi & E). destruct (decide (_ < 0)) as [|Hpub]; [done|].
  injection E as <-. exists first, rest, h, s, rejected. cbn [cf_segment_bytes] in Hcap. split_and!; try done; lia.
Qed.

Lemma inspect_complete `{Crc32} lim highest allocated first rest h s rejected :
  Segment_open (cd_number first) (cd_file first) = Ok h → sh_preceding_sequence h = 0 →
  MAX_BATCH_BYTES + 2 * BLOCK_SIZE ≤ sh_capacity h →
  inspect_candidates (Log_empty (header_config h) lim highest 0) (header_config h) allocated 0 0 (first :: rest)
    = Ok (s, rejected) → 0 ≤ lg_published s →
  Log_inspect lim highest allocated 0 (first :: rest) =
    Ok {| rc_log := set_issued s (lg_published s); rc_candidates := first :: rest; rc_rejected := rejected |}.
Proof.
  intros Ho Hp Hcap Hi Hpub. unfold Log_inspect. rewrite Ho, bind_Ok, Hp, decide_False by lia. cbv zeta.
  cbn [cf_segment_bytes]. rewrite decide_False by lia. unfold header_config in Hi. rewrite Hi, bind_Ok.
  by rewrite decide_False by lia.
Qed.

(** C31: repair is a fixed point and loses nothing.  After an inspection with
    no manifest, inspecting the files the repair leaves succeeds, rejects
    nothing and finds the same log (up to the disk blocks in use); and the
    bytes the index refers to read the same from the repaired files. *)
Theorem repair_idempotent `{Crc32} lim highest allocated allocated' cds r :
  clean cds → lm_intervals lim < 2 ^ 64 → Log_inspect lim highest allocated 0 cds = Ok r →
  (∃ n, Log_inspect lim highest allocated' 0 (Recovery_repair r) = Ok {|
     rc_log := set_allocated (rc_log r) n; rc_candidates := Recovery_repair r; rc_rejected := None |}) ∧
  (∀ disk disk' x, on_disk disk cds → on_disk disk' (Recovery_repair r) →
     resolve disk' (view (ix_map (lg_index (rc_log r))) x) =
     resolve disk (view (ix_map (lg_index (rc_log r))) x)).
Proof.
  intros Hc Hlim E.
  destruct (inspect_ok _ _ _ _ _ Hc E) as (first & rest & h & s & rejected & Hf & Ho & Hp & Hcap & Hi & Hpub & ->).
  pose proof (empty_replayable (header_config h) lim highest 0 Hlim ltac:(done)) as Hr.
  destruct (repaired_recovers _ _ _ _ _ _ (set_issued s (lg_published s)) _ _ _ Hc Hr
    (λ disk, holds_empty disk _ _ _ _) Hi Hf Ho) as (first' & rest' & l & Hk & Ho' & Hck & Hrec & Hh).
  set (kept := Recovery_repair _) in *. cbn [rc_log]. split.
  - destruct (recovers_allocated _ _ allocated' _ _ _ _ 0 Hrec) as [n Hn]. exists n.
    pose proof (recovers_inspect _ _ _ _ _ _ [] 0 Hck Hr Hn) as Hins. rewrite app_nil_r in Hins.
    rewrite Hk in Hins |- *. by erewrite inspect_complete by done.
  - intros disk disk' x Hd Hd'. cbn [set_issued lg_index]. rewrite (Hh disk Hd x).
    by rewrite (recovers_holds _ _ _ _ _ _ disk' [] Hck Hr Hrec Hd' (holds_empty _ _ _ _ _) x).
Qed.

Lemma Segment_open_not_Panic `{Crc32} number file : Segment_open number file ≠ Panic.
Proof.
  assert (Hd : ∀ b, SegmentHeader_decode b ≠ Panic).
  { intros b. unfold SegmentHeader_decode, SegmentHeader_validate.
    repeat (apply bind_not_Panic; [apply require_not_Panic|intros _]). cbv zeta.
    apply bind_not_Panic; [|done]. repeat (apply bind_not_Panic; [apply require_not_Panic|intros _]).
    apply require_not_Panic. }
  unfold Segment_open. apply bind_not_Panic; [unfold read_bytes; by case_decide|intros b].
  apply bind_not_Panic; [specialize (Hd b); by destruct (SegmentHeader_decode b)|intros h].
  case_decide; [done|]. apply bind_not_Panic; [|done]. unfold Pins_new. by case_decide.
Qed.
