(* ===== verification/AppendDurable.v ===== *)
(** * Durability of the staging log

    Connects the running log of [AppendWorld] with the recovery of
    [AppendRecovery].  The invariant [layout] says that the segment files of a
    reachable world are a chain of batches that replays, segment by segment, to
    the log's index and published prefix, with the submissions in flight queued
    behind it.  A crash keeps the closed segments and the synced part of the
    current one and leaves anything after it; inspection of what is left
    recovers at least the durable prefix, with its contents. *)
From S2P Require Import Prelude Bytes AppendFormat AppendPacking IntervalIndex AppendLog AppendWorld AppendRecovery.

(** ** What is written are bytes *)

Lemma bytes_ok_Envelope_encode `{Crc32} e b : bytes_ok b → bytes_ok (Envelope_encode e b).
Proof.
  intros Hb. unfold Envelope_encode, put16, put32, put64.
  repeat (apply bytes_ok_splice; [apply le_encode_ok|]). apply bytes_ok_splice; [|done].
  apply (bool_decide_unpack _). vm_compute. exact I.
Qed.

Lemma bytes_ok_assign_sequences count : ∀ index first b,
  bytes_ok b → bytes_ok (assign_sequences count index first b).
Proof.
  induction count as [|count IH]; intros index first b Hb; cbn [assign_sequences]; [done|].
  apply IH. apply bytes_ok_splice; [apply le_encode_ok|done].
Qed.

Lemma bytes_ok_seal `{Crc32} s segment batch first t :
  bytes_ok (bd_buffer s) → Builder_seal s segment batch first = Ok t → bytes_ok (Batch_bytes t).
Proof.
  intros Hb E. unfold Builder_seal in E. apply result_bind_ok in E as ([] & _ & E).
  apply result_bind_ok in E as (last & _ & E). injection E as <-.
  apply bytes_ok_slice. cbn [bt_buffer].
  pose proof (bytes_ok_assign_sequences (Z.to_nat (bd_descriptors s)) 0 first _ Hb) as Ha.
  apply bytes_ok_splice; [|done]. apply bytes_ok_Envelope_encode. by apply bytes_ok_slice.
Qed.

Lemma bytes_ok_fence `{Crc32} segment batch boundary t :
  Batch_fence segment batch boundary = Ok t → bytes_ok (Batch_bytes t).
Proof.
  intros E. unfold Batch_fence in E. apply result_bind_ok in E as ([] & _ & E). injection E as <-.
  apply bytes_ok_slice, bytes_ok_Envelope_encode, bytes_ok_zeros.
Qed.

Lemma bytes_ok_header `{Crc32} h b :
  SegmentHeader_ok h → SegmentHeader_encode h = Ok b → bytes_ok b.
Proof.
  intros (_ & H1 & _ & H2 & _) [_ ->]%SegmentHeader_encode_iff. unfold put32, SegmentHeader_image.
  repeat (apply bytes_ok_splice; [first [apply le_encode_ok | done]|]). apply bytes_ok_splice; [|apply bytes_ok_zeros].
  apply (bool_decide_unpack _). vm_compute. exact I.
Qed.

Lemma bytes_ok_write_at file off src : bytes_ok file → bytes_ok src → bytes_ok (write_at file off src).
Proof. intros Hf Hs. apply bytes_ok_splice; [done|]. apply bytes_ok_app. split; [done|apply bytes_ok_zeros]. Qed.

(** A new segment file opens as its header. *)
Lemma Segment_open_encoded `{Crc32} h b :
  SegmentHeader_ok h → sh_capacity h / BLOCK_SIZE < 2 ^ 32 → SegmentHeader_encode h = Ok b →
  Segment_open (sh_number h) b = Ok h.
Proof.
  intros Hok Hc He. pose proof (blen_SegmentHeader_encode _ _ He) as Hl. unfold Segment_open, read_bytes.
  rewrite decide_True by lia. rewrite bind_Ok, slice_all by done. rewrite (SegmentHeader_decode_encode _ _ Hok He).
  rewrite bind_Ok, decide_False by auto. unfold Pins_new, u32_max. by rewrite decide_False by lia.
Qed.

(** Only the header block decides how a segment opens. *)
Lemma Segment_open_ext `{Crc32} number file file' :
  BLOCK_SIZE ≤ blen file → BLOCK_SIZE ≤ blen file' → slice 0 BLOCK_SIZE file' = slice 0 BLOCK_SIZE file →
  Segment_open number file' = Segment_open number file.
Proof. intros H1 H2 E. unfold Segment_open, read_bytes. rewrite !decide_True by lia. by rewrite E. Qed.

(** ** The layout of the current segment *)

(** The submissions in flight follow one another from [offset] and [batch]. *)
Fixpoint queued (number capacity offset batch : Z) (l : list Flight) (offset' batch' : Z) : Prop :=
  match l with
  | [] => offset = offset' ∧ batch = batch'
  | f :: l =>
      fl_start f = offset ∧ env_segment (fl_envelope f) = number ∧ env_batch (fl_envelope f) = batch ∧
      bytes_ok (fl_bytes f) ∧
      (if is_fence f then l = [] else fl_end f + BLOCK_SIZE ≤ capacity) ∧
      queued number capacity (fl_end f) (batch + 1) l offset' batch'
  end.

Lemma queued_snoc number capacity f : ∀ l offset batch offset' batch',
  queued number capacity offset batch l offset' batch' → Forall (λ g, is_fence g = false) l →
  fl_start f = offset' → env_segment (fl_envelope f) = number → env_batch (fl_envelope f) = batch' →
  bytes_ok (fl_bytes f) → (is_fence f = false → fl_end f + BLOCK_SIZE ≤ capacity) →
  queued number capacity offset batch (l ++ [f]) (fl_end f) (batch' + 1).
Proof.
  induction l as [|g l IH]; intros offset batch offset' batch'; cbn [queued app].
  - intros [-> ->] _ H1 H2 H3 H4 H5. split_and!; try done. destruct (is_fence f); auto.
  - intros (Q1 & Q2 & Q3 & Q4 & Q5 & Q6) [Hg Hl]%Forall_cons H1 H2 H3 H4 H5. rewrite Hg in *.
    split_and!; try done. by eapply IH.
Qed.

Lemma queued_marked number capacity f : ∀ pre post offset batch offset' batch',
  queued number capacity offset batch (pre ++ f :: post) offset' batch' →
  queued number capacity offset batch (pre ++ mark_written f :: post) offset' batch'.
Proof.
  induction pre as [|g pre IH]; intros post offset batch offset' batch'; cbn [queued app]; [done|].
  intros (Q1 & Q2 & Q3 & Q4 & Q5 & Q6). split_and!; try done; [|by apply IH].
  destruct (is_fence g); [|done]. by destruct pre.
Qed.

(** Everything queued lies behind [offset]. *)
Lemma queued_after number capacity f : ∀ l offset batch offset' batch',
  queued number capacity offset batch l offset' batch' → f ∈ l → offset ≤ fl_start f.
Proof.
  induction l as [|g l IH]; intros offset batch offset' batch'; [by intros _ ?%elem_of_nil|].
  intros (Q1 & _ & _ & _ & _ & Q6) [->|Hf]%elem_of_cons; [lia|]. apply (IH _ _ _ _ Q6) in Hf.
  pose proof (fl_end_start g). lia.
Qed.

(** The next append to publish is the first one queued. *)
Lemma queued_next number capacity f pre post offset batch offset' batch' p q :
  queued number capacity offset batch (pre ++ f :: post) offset' batch' →
  sequenced p q (pre ++ f :: post) →
  (∀ g, g ∈ pre → is_fence g = false → env_first (fl_envelope g) ≤ env_last (fl_envelope g)) →
  is_fence f = false → env_first (fl_envelope f) = p + 1 → pre = [].
Proof.
  destruct pre as [|g pre]; [done|]. cbn [app queued sequenced]. intros (_ & _ & _ & _ & Q & _) Hs Hg Hf He.
  destruct (is_fence g) eqn:Eg; [by destruct pre|]. destruct Hs as [H1 H2].
  apply sequenced_lower in H2; [|intros g' Hg'; apply Hg; by right|done].
  specialize (Hg g ltac:(left) Eg). lia.
Qed.

(** ** A written batch replays *)

Lemma carried_batch `{Crc32} image t l file offset h :
  batch_ok image t l → 0 ≤ offset → slice offset (blen (Batch_bytes t)) file = Batch_bytes t →
  Header_descriptors h = number (env_first (bt_envelope t)) l.*1 →
  carried file offset h = numbered (env_first (bt_envelope t)) l.
Proof.
  intros Hb Ho Hs Hd. unfold carried, numbered. rewrite Hd. apply list_eq. intros i.
  rewrite list_lookup_fmap. destruct (number _ l.*1 !! i) as [d|] eqn:Hi; cbn [fmap option_fmap option_map].
  - pose proof Hi as Hi'. apply number_lookup in Hi as (d0 & Hd0 & ->). rewrite list_lookup_fmap in Hd0.
    destruct (l !! i) as [m|] eqn:Hm; [|done]. injection Hd0 as <-.
    symmetry. apply lookup_zip_with_Some. eexists _, m.2. split; [|split; [exact Hi'|by rewrite list_lookup_fmap, Hm]].
    f_equal. cbn [set_sequence d_kind d_payload_offset d_payload_length].
    pose proof (Forall_lookup_1 _ _ _ _ (bo_data _ _ _ Hb) Hm) as [_ D].
    pose proof (Forall_lookup_1 _ _ _ _ (bo_zero _ _ _ Hb) Hm) as Z0. pose proof (bo_len _ _ _ Hb) as Hl.
    destruct (d_kind m.1) eqn:K; [|by rewrite Z0].
    destruct (D eq_refl) as (-> & _ & D3 & D4 & D5). rewrite <- D5, <- Hs. unfold BLOCK_SIZE in *.
    rewrite slice_slice by lia. f_equal. lia.
  - symmetry. apply lookup_ge_None_2. apply lookup_ge_None_1 in Hi.
    rewrite length_zip_with. lia.
Qed.

Lemma slice_block (file b : bytes) offset :
  0 ≤ offset → BLOCK_SIZE ≤ blen b → slice offset (blen b) file = b →
  slice offset BLOCK_SIZE file = slice 0 BLOCK_SIZE b.
Proof.
  intros Ho Hl Hs. rewrite <- Hs at 1. unfold BLOCK_SIZE in *. rewrite slice_slice by lia. f_equal. lia.
Qed.

Lemma written_append_replays `{Crc32} cur file s t l ix :
  batch_ok (cf_image_bytes (lg_config s)) t l → 0 ≤ lg_offset s →
  slice (lg_offset s) (blen (Batch_bytes t)) file = Batch_bytes t →
  lg_offset s + blen (Batch_bytes t) ≤ blen file →
  env_segment (bt_envelope t) = sh_number cur → env_batch (bt_envelope t) = lg_next_batch s →
  env_first (bt_envelope t) = lg_published s + 1 → env_last (bt_envelope t) < 2 ^ 64 →
  lg_offset s + blen (Batch_bytes t) + BLOCK_SIZE ≤ sh_capacity cur → sh_capacity cur < 2 ^ 64 →
  lg_next_batch s + 1 < 2 ^ 64 → 0 ≤ lg_published s →
  Index_len (lg_index s) + 2 * Z.of_nat (length l) ≤ lm_intervals (lg_limits s) →
  publish_descriptors (sh_number cur) (lg_offset s) (number (lg_published s + 1) l.*1) (lg_index s) = Ok ix →
  replay_step cur file 0 s (numbered (lg_published s + 1) l)
    (Log_advance s ix (env_last (bt_envelope t)) (blen (Batch_bytes t)) (lg_next_batch s + 1)).
Proof.
  intros Hb Ho Hs Hl E1 E2 E3 E4 Hc Hc' Hn Hp Hi Hix. destruct (bo_decode _ _ _ Hb) as (h & D1 & D2 & D3 & D4).
  pose proof (bo_len _ _ _ Hb) as Hlen. pose proof (bo_payload _ _ _ Hb). pose proof (bo_count _ _ _ Hb) as Hcnt.
  pose proof (bo_last _ _ _ Hb) as Hlast. pose proof (bo_fence _ _ _ Hb) as Hfe.
  assert (Hl0 : 0 < Z.of_nat (length l)) by (pose proof (bo_nonempty _ _ _ Hb); destruct l; cbn; [done|lia]).
  rewrite <- E3, <- (carried_batch _ _ _ file (lg_offset s) h Hb Ho Hs D3), Hlen, <- D2.
  unfold BLOCK_SIZE in *.
  apply (replay_step_intro cur file 0 s h ix (env_last (hdr_envelope h))); unfold BLOCK_SIZE; rewrite ?D2; try lia.
  - rewrite <- D1. f_equal. apply slice_block; [done|unfold BLOCK_SIZE; lia|done].
  - apply Header_follows_spec. cbn zeta. rewrite D2, Hfe. unfold BLOCK_SIZE. split_and!; try done; lia.
  - right. split_and!; try done; try lia.
    + unfold replay_payload, read_bytes, BLOCK_SIZE. rewrite D2. case_decide; [done|]. rewrite decide_True by lia.
      rewrite bind_Ok. f_equal.
      replace (slice (lg_offset s + 4096) _ file) with (slice 4096 (env_payload_bytes (bt_envelope t)) (Batch_bytes t));
        [by rewrite D4|]. rewrite <- Hs, slice_slice by lia. done.
    + by rewrite D3, E3.
Qed.

Lemma written_fence_replays `{Crc32} cur file s t h :
  Header_decode (slice 0 BLOCK_SIZE (Batch_bytes t)) (cf_image_bytes (lg_config s)) = Ok h →
  hdr_envelope h = bt_envelope t → env_fence (bt_envelope t) = true →
  blen (Batch_bytes t) = BLOCK_SIZE → env_payload_bytes (bt_envelope t) = 0 → 0 ≤ lg_offset s →
  slice (lg_offset s) (blen (Batch_bytes t)) file = Batch_bytes t →
  lg_offset s + BLOCK_SIZE ≤ blen file → lg_offset s + BLOCK_SIZE ≤ sh_capacity cur → sh_capacity cur < 2 ^ 64 →
  env_segment (bt_envelope t) = sh_number cur → env_batch (bt_envelope t) = lg_next_batch s →
  env_last (bt_envelope t) = lg_published s → lg_next_batch s + 1 < 2 ^ 64 →
  replay_step cur file 0 s []
    (Log_advance s (lg_index s) (lg_published s) (blen (Batch_bytes t)) (lg_next_batch s + 1)).
Proof.
  intros D1 D2 Hfe Hlen Hp Ho Hs Hl Hc Hc' E1 E2 E3 Hn. 
  replace (blen (Batch_bytes t)) with (BLOCK_SIZE + env_payload_bytes (hdr_envelope h)) by (rewrite D2; lia).
  constructor; [done| | |done|].
  - rewrite <- D1. f_equal. apply slice_block; [done|lia|done].
  - apply Header_follows_spec. cbn zeta. rewrite D2, Hfe, Hp. unfold BLOCK_SIZE in *. split_and!; try done; lia.
  - left. by rewrite D2, Hfe.
Qed.

Lemma replays_static `{Crc32} segment file s l s' :
  replays segment file s l s' →
  lg_config s' = lg_config s ∧ lg_limits s' = lg_limits s ∧ lg_segments s' = lg_segments s.
Proof. induction 1 as [s|s l s1 l' s' Hs _ IH]; [done|]. by destruct Hs. Qed.

Lemma recovers_static `{Crc32} c allocated s cds l s' :
  recovers c allocated s cds l s' → lg_config s' = lg_config s ∧ lg_limits s' = lg_limits s.
Proof.
  induction 1 as [s|s cd segment l s1 cds l' s' _ _ Hr _ _ IH]; [done|].
  destruct (replays_static _ _ _ _ _ Hr) as (E1 & E2 & _). cbn in *. intuition congruence.
Qed.

(** ** The invariant *)

Section layout.
Context `{Crc32} (c : Config) (lim : Limits) (allocated : Z → Z) (highest : Z).

Record layout (w : World) (cur : SegmentHeader) (file : bytes) (cl : list Candidate)
    (s0 sd s : Log) (lc ld l : list Mutation) : Prop := {
  ly_config : Config_ok c ∧ Limits_ok lim ∧ MAX_BATCH_BYTES + 2 * BLOCK_SIZE ≤ cf_segment_bytes c ∧
    cf_segment_bytes c / BLOCK_SIZE < 2 ^ 32;
  (** closed segments: a chain that replays to its end *)
  ly_clean : clean cl;
  ly_closed : recovers c allocated (Log_empty c lim highest 0) cl lc s0;
  ly_disk : Forall (λ cd, wd_disk w !! cd_number cd = Some (cd_file cd) ∧ cd_number cd < sh_number cur) cl;
  ly_numbers : sh_number <$> lg_segments (wd_log w) = (cd_number <$> cl) ++ [sh_number cur];
  (** the current segment: header, synced batches, published batches, queue *)
  ly_bytes : bytes_ok file;
  ly_open : Segment_open (sh_number cur) file = Ok cur;
  ly_chain : chains s0 c cur = true;
  ly_synced : replays cur file (attach_segment s0 cur (allocated (sh_number cur))) ld sd;
  ly_durable : lg_published sd = lg_durable (wd_log w) ∧ lg_offset sd = wd_synced w;
  ly_replays : replays cur file sd l s;
  ly_state : lg_index s = lg_index (wd_log w) ∧ lg_published s = lg_published (wd_log w);
  ly_queue : queued (sh_number cur) (cf_segment_bytes c) (lg_offset s) (lg_next_batch s) (wd_flights w)
    (lg_offset (wd_log w)) (lg_next_batch (wd_log w));
  ly_issued : lc ++ ld ++ l = take (Z.to_nat (lg_published (wd_log w))) (wd_issued w);
  (** rotation *)
  ly_epoch : sh_epoch cur ≤ sh_number cur ≤ lg_highest_segment (wd_log w);
  ly_header : SegmentHeader_ok cur;
  ly_drained : lg_rotating (wd_log w) = true → lg_durable (wd_log w) = lg_published (wd_log w);
  ly_rotation : ∀ r, wd_rotation w = Some r → ro_config r = c ∧
    ro_highest r = lg_highest_segment (wd_log w) ∧ (∀ e, ro_epoch r = Some e → e = sh_epoch cur);
}.

Lemma layout_replayable w cur file cl s0 sd s lc ld l :
  layout w cur file cl s0 sd s lc ld l →
  replayable s0 ∧ replayable sd ∧ replayable s ∧ lg_config s = c ∧ lg_limits s = lim ∧
  BLOCK_SIZE ≤ lg_offset sd ≤ lg_offset s ∧ lg_offset s ≤ blen file ∧ sh_capacity cur = cf_segment_bytes c ∧
  lg_published s0 = Z.of_nat (length lc).
Proof.
  intros L. destruct (ly_config _ _ _ _ _ _ _ _ _ _ L) as (_ & [_ Hl] & _).
  pose proof (empty_replayable c lim highest 0 Hl ltac:(done)) as Re.
  destruct (recovers_ok _ _ _ _ _ _ (ly_clean _ _ _ _ _ _ _ _ _ _ L) Re (ly_closed _ _ _ _ _ _ _ _ _ _ L)) as (R0 & P0 & _).
  pose proof (attach_replayable s0 cur (allocated (sh_number cur)) R0) as Ra.
  pose proof (ly_bytes _ _ _ _ _ _ _ _ _ _ L) as Hb.
  destruct (replays_ok _ _ _ _ _ Hb Ra (ly_synced _ _ _ _ _ _ _ _ _ _ L)) as (Rd & O1 & O2 & _).
  destruct (replays_ok _ _ _ _ _ Hb Rd (ly_replays _ _ _ _ _ _ _ _ _ _ L)) as (Rs & O3 & O4 & _).
  destruct (recovers_static _ _ _ _ _ _ (ly_closed _ _ _ _ _ _ _ _ _ _ L)) as (S1 & S2).
  destruct (replays_static _ _ _ _ _ (ly_synced _ _ _ _ _ _ _ _ _ _ L)) as (S3 & S4 & _).
  destruct (replays_static _ _ _ _ _ (ly_replays _ _ _ _ _ _ _ _ _ _ L)) as (S5 & S6 & _).
  destruct (Segment_open_ok _ _ _ (ly_open _ _ _ _ _ _ _ _ _ _ L)) as (_ & Hlen & _).
  cbn [attach_segment lg_offset lg_config lg_limits Log_empty] in *.
  pose proof (ly_chain _ _ _ _ _ _ _ _ _ _ L) as Hch. unfold chains, Config_matches in Hch.
  rewrite !andb_true_iff, !bool_decide_eq_true in Hch. cbn [lg_published Log_empty] in P0.
  split_and!; try done; try (intuition congruence); lia.
Qed.

(** Steps that keep the files and what the layout reads of the log. *)
Lemma layout_flags w w' cur file cl s0 sd s lc ld l :
  layout w cur file cl s0 sd s lc ld l →
  wd_disk w' = wd_disk w → wd_synced w' = wd_synced w → wd_issued w' = wd_issued w →
  wd_flights w' = wd_flights w → lg_segments (wd_log w') = lg_segments (wd_log w) →
  lg_durable (wd_log w') = lg_durable (wd_log w) → lg_index (wd_log w') = lg_index (wd_log w) →
  lg_published (wd_log w') = lg_published (wd_log w) → lg_offset (wd_log w') = lg_offset (wd_log w) →
  lg_next_batch (wd_log w') = lg_next_batch (wd_log w) →
  lg_highest_segment (wd_log w') = lg_highest_segment (wd_log w) →
  (lg_rotating (wd_log w') = true → lg_durable (wd_log w) = lg_published (wd_log w)) →
  (∀ r, wd_rotation w' = Some r → ro_config r = c ∧
    ro_highest r = lg_highest_segment (wd_log w) ∧ (∀ e, ro_epoch r = Some e → e = sh_epoch cur)) →
  layout w' cur file cl s0 sd s lc ld l.
Proof.
  intros [L1 L2 L3 L4 L5 L6 L7 L8 L9 L10 L11 L12 L13 L14 L15 L16 L17 L18] E1 E2 E3 E4 E5 E6 E7 E8 E9 E10 E11 E12 E13.
  split; rewrite ?E1, ?E2, ?E3, ?E4, ?E5, ?E6, ?E7, ?E8, ?E9, ?E10, ?E11; done.
Qed.

(** ** Preservation *)

Lemma no_fences w cur file :
  world_inv c lim w cur file → lg_cohort (wd_log w) = None → Forall (λ g, is_fence g = false) (wd_flights w).
Proof.
  intros W Hc. pose proof (wi_cohort _ _ _ _ _ W) as Hs. rewrite Hc in Hs.
  apply sumZ_elem_zero in Hs; [|intros f; destruct (is_fence f); cbn; lia].
  eapply Forall_impl; [exact Hs|]. intros f Hf. cbn in Hf. by destruct (is_fence f).
Qed.

Lemma append_layout w cur file cl s0 sd s lc ld l cap b ms log sub :
  world_inv c lim w cur file → layout w cur file cl s0 sd s lc ld l → 0 ≤ cap → bytes_ok (bd_buffer b) →
  packed_by (cf_image_bytes (lg_config (wd_log w))) cap b ms →
  Log_prepare_append (wd_log w) b = Ok (log, sub) →
  layout {|
    wd_log := log; wd_disk := wd_disk w;
    wd_flights := wd_flights w ++ [{| fl_sub := sub; fl_mutations := ms; fl_written := false |}];
    wd_issued := wd_issued w ++ numbered (lg_issued (wd_log w) + 1) ms;
    wd_rotation := wd_rotation w; wd_synced := wd_synced w |} cur file cl s0 sd s lc ld l.
Proof.
  intros W L Hcap Hbb Hp E. pose proof W as [W1 W2 W3 W4 W5 W6 W7 W8 W9 W10 W11 W12 W13 W14 W15 W16 W17].
  destruct (prepare_append_ok _ _ _ _ _ E W3) as (batch & Hseal & Hck & -> & ->).
  apply check_append_ok in Hck as (C1 & C2 & C3 & C4 & C5 & C6 & C7 & C8 & C9).
  pose proof (packed_by_inv _ _ _ _ Hcap Hp) as Hi. pose proof (bi_count _ _ _ _ Hi) as Hn.
  destruct (sealed_batch_ok _ cap b ms (sh_number cur) (lg_next_batch (wd_log w)) (lg_issued (wd_log w) + 1)
    batch Hcap Hp (proj1 W4) ltac:(unfold fits; lia) ltac:(unfold fits; lia) Hseal) as [Hb He].
  pose proof (bo_len _ _ _ Hb) as Hlen. rewrite He in Hlen. cbn in Hlen.
  destruct W1 as [W1a W1b]. rewrite W1a in C9.
  destruct L as [L1 L2 L3 L4 L5 L6 L7 L8 L9 L10 L11 L12 L13 L14 L15 L16 L17 L18].
  split; cbn [wd_log wd_disk wd_flights wd_issued wd_rotation wd_synced lg_segments lg_durable lg_index lg_published
    lg_offset lg_next_batch lg_highest_segment lg_rotating]; try done.
  - change (lg_offset (wd_log w) + blen (Batch_bytes batch)) with
      (fl_end {| fl_sub := {| sb_batch := batch; sb_segment := sh_number cur; sb_offset := lg_offset (wd_log w) |};
                 fl_mutations := ms; fl_written := false |}).
    eapply queued_snoc; [exact L13|by eapply no_fences|done|..]; unfold fl_envelope, fl_bytes; cbn.
    + by rewrite He.
    + by rewrite He.
    + by eapply bytes_ok_seal.
    + intros _. unfold fl_end, fl_start, fl_bytes. cbn. lia.
  - rewrite take_app_le by lia. done.
Qed.

Lemma fence_layout w cur file cl s0 sd s lc ld l log sub :
  world_inv c lim w cur file → layout w cur file cl s0 sd s lc ld l →
  Log_prepare_fence (wd_log w) = Ok (log, sub) →
  layout {|
    wd_log := log; wd_disk := wd_disk w;
    wd_flights := wd_flights w ++ [{| fl_sub := sub; fl_mutations := []; fl_written := false |}];
    wd_issued := wd_issued w; wd_rotation := wd_rotation w; wd_synced := wd_synced w |} cur file cl s0 sd s lc ld l.
Proof.
  intros W L E. pose proof W as [W1 W2 W3 W4 W5 W6 W7 W8 W9 W10 W11 W12 W13 W14 W15 W16 W17].
  destruct (prepare_fence_ok _ _ _ _ E W3) as (C1 & C2 & C3 & C4 & batch & Hf & -> & ->).
  destruct (fence_decodes (sh_number cur) (lg_next_batch (wd_log w)) (lg_issued (wd_log w)) 0
    batch (proj1 W4) ltac:(unfold fits; lia) ltac:(unfold fits; lia) Hf) as (He & _ & _ & Hlen & _).
  destruct L as [L1 L2 L3 L4 L5 L6 L7 L8 L9 L10 L11 L12 L13 L14 L15 L16 L17 L18].
  split; cbn [wd_log wd_disk wd_flights wd_issued wd_rotation wd_synced lg_segments lg_durable lg_index lg_published
    lg_offset lg_next_batch lg_highest_segment lg_rotating]; try done.
  change (lg_offset (wd_log w) + blen (Batch_bytes batch)) with
    (fl_end {| fl_sub := {| sb_batch := batch; sb_segment := sh_number cur; sb_offset := lg_offset (wd_log w) |};
               fl_mutations := []; fl_written := false |}).
  eapply queued_snoc; [exact L13|by eapply no_fences|done|..]; unfold fl_envelope, fl_bytes; cbn.
  - by rewrite He.
  - by rewrite He.
  - by eapply bytes_ok_fence.
  - unfold is_fence, fl_envelope. cbn. by rewrite He.
Qed.

Lemma write_layout w cur file cl s0 sd s lc ld l pre f post :
  world_inv c lim w cur file → layout w cur file cl s0 sd s lc ld l →
  wd_flights w = pre ++ f :: post → sb_segment (fl_sub f) = sh_number cur → bytes_ok (fl_bytes f) →
  layout {|
    wd_log := wd_log w;
    wd_disk := <[sh_number cur := write_at file (fl_start f) (fl_bytes f)]> (wd_disk w);
    wd_flights := pre ++ mark_written f :: post;
    wd_issued := wd_issued w; wd_rotation := wd_rotation w; wd_synced := wd_synced w |} cur
    (write_at file (fl_start f) (fl_bytes f)) cl s0 sd s lc ld l.
Proof.
  intros W L Hf Hseg Hbf. destruct (layout_replayable _ _ _ _ _ _ _ _ _ _ L) as (R0 & Rd & Rs & _ & _ & O1 & O2 & _).
  destruct L as [L1 L2 L3 L4 L5 L6 L7 L8 L9 L10 L11 L12 L13 L14 L15 L16 L17 L18]. rewrite Hf in *.
  unfold BLOCK_SIZE in *.
  assert (Hst : lg_offset s ≤ fl_start f) by (eapply queued_after; [exact L13|set_solver]).
  assert (Hpre : ∀ n, 0 ≤ n → n ≤ lg_offset s → slice 0 n (write_at file (fl_start f) (fl_bytes f)) = slice 0 n file).
  { intros n H1 H2. apply slice_write_at_ne; lia. }
  assert (Hlen : blen file ≤ blen (write_at file (fl_start f) (fl_bytes f))) by (rewrite blen_write_at; lia).
  split; cbn [wd_log wd_disk wd_flights wd_issued wd_rotation wd_synced]; try done.
  - eapply Forall_impl; [exact L4|]. intros cd [H1 H2]. split; [|done]. by rewrite lookup_insert_ne by lia.
  - by apply bytes_ok_write_at.
  - rewrite <- L7. apply Segment_open_ext; unfold BLOCK_SIZE; [lia|lia|]. apply Hpre; lia.
  - eapply replays_ext; [exact L6|by apply attach_replayable|done|lia|]. apply Hpre; lia.
  - eapply replays_ext; [exact L6|done|done|lia|]. apply Hpre; lia.
  - by apply queued_marked.
Qed.

Lemma publish_layout w cur file cl s0 sd s lc ld l pre f post log :
  world_inv c lim w cur file → layout w cur file cl s0 sd s lc ld l →
  wd_flights w = pre ++ f :: post → fl_written f = true →
  Log_publish_append (wd_log w) (fl_sub f) = Ok log →
  ∃ s' l', layout {|
    wd_log := log; wd_disk := wd_disk w; wd_flights := pre ++ post;
    wd_issued := wd_issued w; wd_rotation := wd_rotation w; wd_synced := wd_synced w |} cur file cl s0 sd s' lc ld l'.
Proof.
  intros W L Hf Hwr E. destruct (layout_replayable _ _ _ _ _ _ _ _ _ _ L) as (R0 & Rd & Rs & Sc & Sl & O1 & O2 & Hcap & _).
  pose proof W as [W1 W2 W3 W4 W5 W6 W7 W8 W9 W10 W11 W12 W13 W14 W15 W16 W17].
  destruct (publish_append_ok _ _ _ _ E W3) as (h & ix & D1 & D2 & D3 & D4 & D5 & ->).
  pose proof (proj1 (Forall_forall _ _) W11) as Hall.
  assert (F2 : flight_ok w cur file f) by (apply Hall; rewrite Hf; set_solver).
  assert (Hfen : is_fence f = false).
  { destruct (is_fence f) eqn:Hfe; [|done]. destruct (fo_fence _ _ _ _ F2 Hfe) as (_ & _ & Hdec).
    destruct (Hdec (cf_image_bytes (lg_config (wd_log w)))) as (h' & Hh' & He').
    unfold fl_bytes in Hh'. rewrite D1 in Hh'. injection Hh' as <-. unfold is_fence in Hfe. congruence. }
  destruct (fo_append _ _ _ _ F2 Hfen) as (Hb & Hlast & Htake).
  destruct (bo_decode _ _ _ Hb) as (h' & Hh' & B1 & B2 & _). rewrite D1 in Hh'. injection Hh' as <-.
  pose proof (bo_last _ _ _ Hb) as Hlst. pose proof (bo_count _ _ _ Hb) as Hcnt. rewrite B1 in *.
  destruct L as [L1 L2 L3 L4 L5 L6 L7 L8 L9 L10 L11 L12 L13 L14 L15 L16 L17 L18]. rewrite Hf in *.
  assert (pre = []) as ->.
  { eapply queued_next; [exact L13|exact W17| |done|exact D3]. intros g Hg Eg.
    destruct (fo_append _ _ _ _ (Hall g ltac:(set_solver)) Eg) as (Hbg & _).
    pose proof (bo_last _ _ _ Hbg). pose proof (bo_nonempty _ _ _ Hbg) as Hne. unfold fl_envelope.
    destruct (fl_mutations g); [done|]. cbn [length] in *. lia. }
  cbn [app queued] in *. rewrite Hfen in *. destruct L13 as (Q1 & Q2 & Q3 & Q4 & Q5 & Q6).
  destruct (fo_written _ _ _ _ F2 Hwr) as [Hend Hsl]. unfold fl_end, fl_bytes, fl_envelope in *.
  destruct W1 as [W1a W1b], L12 as [L12a L12b], W10 as (W10a & W10b & W10c). rewrite Q1 in *.
  assert (Hnb : lg_next_batch s + 1 ≤ lg_next_batch (wd_log w)).
  { clear -Q6. revert Q6. generalize (lg_offset s + blen (Batch_bytes (sb_batch (fl_sub f)))), (lg_next_batch s + 1).
    induction post as [|g post IH]; cbn [queued]; [lia|]. intros o n (_ & _ & _ & _ & _ & Q). apply IH in Q. lia. }
  unfold BLOCK_SIZE in O1.
  assert (Hstep := written_append_replays cur file s (sb_batch (fl_sub f)) (fl_mutations f) ix
    ltac:(rewrite Sc, <- W1a; exact Hb) ltac:(lia) Hsl Hend Q2 Q3 ltac:(lia) ltac:(lia)
    ltac:(lia) ltac:(rewrite Hcap; apply W2) ltac:(lia) ltac:(rewrite L12b; lia) ltac:(rewrite L12a, Sl; lia)
    ltac:(rewrite L12a, L12b, <- D3, <- B2, <- (fo_segment _ _ _ _ F2), <- Q1; exact D4)).
  pose proof (replays_snoc _ _ _ _ _ _ _ L11 Hstep) as Hnew. revert Hnew. set (s' := Log_advance _ _ _ _ _) in *. intros Hnew.
  exists s', (l ++ numbered (lg_published s + 1) (fl_mutations f)). split; cbn [wd_log wd_disk wd_flights wd_issued wd_rotation wd_synced lg_segments lg_durable lg_index
    lg_published lg_offset lg_next_batch lg_highest_segment lg_rotating Log_set_published]; try done.
  - rewrite !app_assoc, <- (app_assoc lc), L14, L12b, <- D3, <- Htake.
    replace (Z.to_nat (env_last _)) with
      (Z.to_nat (lg_published (wd_log w)) + length (fl_mutations f))%nat by lia.
    rewrite D3. replace (Z.to_nat (lg_published (wd_log w) + 1 - 1)) with (Z.to_nat (lg_published (wd_log w))) by lia.
    by rewrite take_take_drop.
  - intros R%W14. done.
Qed.

Lemma sync_layout w cur file cl s0 sd s lc ld l pre f post log durable :
  world_inv c lim w cur file → layout w cur file cl s0 sd s lc ld l →
  wd_flights w = pre ++ f :: post → fl_written f = true →
  Log_complete_sync (wd_log w) (fl_sub f) = Ok (log, durable) →
  ∃ s', layout {|
    wd_log := log; wd_disk := wd_disk w; wd_flights := pre ++ post;
    wd_issued := wd_issued w; wd_rotation := wd_rotation w; wd_synced := fl_end f |} cur file cl s0 s' s' lc (ld ++ l) [].
Proof.
  intros W L Hf Hwr E. destruct (layout_replayable _ _ _ _ _ _ _ _ _ _ L) as (R0 & Rd & Rs & Sc & Sl & O1 & O2 & Hcap & _).
  apply complete_sync_ok in E as (S1 & S2 & S3 & S4 & -> & ->).
  destruct (no_flights _ _ _ _ _ W S3) as [Hfences _].
  pose proof W as [W1 W2 W3 W4 W5 W6 W7 W8 W9 W10 W11 W12 W13 W14 W15 W16 W17].
  destruct L as [L1 L2 L3 L4 L5 L6 L7 L8 L9 L10 L11 L12 L13 L14 L15 L16 L17 L18]. rewrite Hf in *.
  assert (F2 : flight_ok w cur file f) by (apply (proj1 (Forall_forall _ _) W11); set_solver).
  assert (pre = [] ∧ post = []) as [-> ->].
  { destruct pre as [|g pre]; cbn [app queued] in L13.
    - apply Forall_cons in Hfences as [Hfe _]. rewrite Hfe in L13. tauto.
    - apply Forall_cons in Hfences as [Hfe _]. rewrite Hfe in L13. destruct L13 as (_ & _ & _ & _ & Q & _).
      by destruct pre. }
  cbn [app queued] in *. destruct L13 as (Q1 & Q2 & Q3 & Q4 & _ & Q6 & Q7).
  destruct (fo_written _ _ _ _ F2 Hwr) as [Hend Hsl]. apply Forall_cons in Hfences as [Hfe _].
  destruct (fo_fence _ _ _ _ F2 Hfe) as (Hm & Hlen & Hdec).
  destruct (Hdec (cf_image_bytes (lg_config s))) as (h & D1 & D2).
  unfold fl_end, fl_bytes, fl_envelope, is_fence, fl_envelope in *. rewrite Q1 in *.
  destruct W1 as [W1a W1b], L12 as [L12a L12b], W10 as (W10a & W10b & W10c).
  assert (Hpay : env_payload_bytes (bt_envelope (sb_batch (fl_sub f))) = 0).
  { rewrite <- D2. apply Header_decode_decoded in D1; [|by apply bytes_ok_slice]. apply D1. by rewrite D2. }
  unfold BLOCK_SIZE in *.
  assert (Hstep := written_fence_replays cur file s (sb_batch (fl_sub f)) h D1 D2 Hfe Hlen Hpay ltac:(lia) Hsl
    ltac:(unfold BLOCK_SIZE; lia) ltac:(unfold BLOCK_SIZE; lia) ltac:(rewrite Hcap; apply W2) Q2 Q3 ltac:(lia)
    ltac:(lia)).
  exists (Log_advance s (lg_index s) (lg_published s) (blen (Batch_bytes (sb_batch (fl_sub f)))) (lg_next_batch s + 1)).
  split; cbn [wd_log wd_disk wd_flights wd_issued wd_rotation wd_synced lg_segments lg_durable lg_index
    lg_published lg_offset lg_next_batch lg_highest_segment lg_rotating]; try done.
  - eapply replays_app; [exact L9|]. rewrite <- (app_nil_r l). eapply replays_snoc; [exact L11|exact Hstep].
  - constructor.
  - by rewrite app_nil_r.
Qed.

Lemma prepare_rotation_ok s kind log r cur :
  Log_prepare_rotation s kind (Ok tt) = Ok (log, r) → last (lg_segments s) = Some cur →
  log = Log_set_rotating s true ∧ lg_durable s = lg_published s ∧ ro_config r = lg_config s ∧
  ro_highest r = lg_highest_segment s ∧ ∀ e, ro_epoch r = Some e → e = sh_epoch cur.
Proof.
  intros E Hc. unfold Log_prepare_rotation, Log_drained in E. apply result_bind_ok in E as ([] & Hd & E).
  apply result_bind_ok in Hd as ([] & _ & Hd).
  destruct (lg_rotating _ || _ || _ || _ || _) eqn:Ed; [done|].
  rewrite !orb_false_iff, !bool_decide_eq_false in Ed. destruct Ed as (_ & D). apply dec_stable in D.
  assert (Hr : ∀ epoch, Log_rotation s epoch (Ok tt) = Ok (log, r) →
    log = Log_set_rotating s true ∧ ro_config r = lg_config s ∧ ro_highest r = lg_highest_segment s ∧ ro_epoch r = epoch).
  { intros epoch Er. unfold Log_rotation in Er. apply result_bind_ok in Er as ([] & _ & Er).
    destruct (lg_rotating _ || _ || _); [done|]. destruct (is_none_or _ _); [done|].
    apply result_bind_ok in Er as (? & _ & Er). apply result_bind_ok in Er as (? & _ & Er).
    apply result_bind_ok in Er as (? & _ & Er). apply result_bind_ok in Er as (? & _ & Er).
    by injection Er as <- <-. }
  destruct kind.
  - apply result_bind_ok in E as (cur' & Hc' & E). unfold Log_current in Hc'. rewrite Hc in Hc'.
    injection Hc' as <-. destruct (Hr _ E) as (-> & R1 & R2 & R3). split_and!; try done. rewrite R3. by intros e [= <-].
  - destruct (Hr _ E) as (-> & R1 & R2 & R3). split_and!; try done. rewrite R3. by intros e [=].
Qed.

Lemma rotate_layout w cur file cl s0 sd s lc ld l kind log r :
  world_inv c lim w cur file → layout w cur file cl s0 sd s lc ld l →
  Log_prepare_rotation (wd_log w) kind (Ok tt) = Ok (log, r) →
  layout {| wd_log := log; wd_disk := wd_disk w; wd_flights := wd_flights w;
    wd_issued := wd_issued w; wd_rotation := Some r; wd_synced := wd_synced w |} cur file cl s0 sd s lc ld l.
Proof.
  intros W L E. destruct (prepare_rotation_ok _ _ _ _ _ E (wi_segments _ _ _ _ _ W)) as (-> & H1 & H2 & H3 & H4).
  eapply layout_flags; [exact L|done..|]. intros r' [= <-]. rewrite H2. split; [apply (wi_config _ _ _ _ _ W)|done].
Qed.

Lemma cancel_layout w cur file cl s0 sd s lc ld l r log :
  layout w cur file cl s0 sd s lc ld l → Log_cancel_rotation (wd_log w) r = Ok log →
  layout {| wd_log := log; wd_disk := wd_disk w; wd_flights := wd_flights w;
    wd_issued := wd_issued w; wd_rotation := None; wd_synced := wd_synced w |} cur file cl s0 sd s lc ld l.
Proof.
  intros L E. unfold Log_cancel_rotation in E. apply result_bind_ok in E as ([] & _ & E).
  apply result_bind_ok in E as ([] & _ & E). injection E as <-. by eapply layout_flags.
Qed.

Lemma fail_layout w cur file cl s0 sd s lc ld l rot :
  layout w cur file cl s0 sd s lc ld l → (∀ r, rot = Some r → wd_rotation w = Some r) →
  layout {| wd_log := Log_fail (wd_log w); wd_disk := wd_disk w; wd_flights := wd_flights w;
    wd_issued := wd_issued w; wd_rotation := rot; wd_synced := wd_synced w |} cur file cl s0 sd s lc ld l.
Proof. intros L Hr. eapply layout_flags; [exact L|done..|apply L|]. intros r Hr'. apply L, Hr, Hr'. Qed.

(** A new file disturbs none of the segments. *)
Lemma new_file_layout w cur file cl s0 sd s lc ld l number new rot :
  layout w cur file cl s0 sd s lc ld l → wd_disk w !! number = None → (∀ r, rot = Some r → wd_rotation w = Some r) →
  layout {| wd_log := wd_log w; wd_disk := <[number := new]> (wd_disk w); wd_flights := wd_flights w;
    wd_issued := wd_issued w; wd_rotation := rot; wd_synced := wd_synced w |} cur file cl s0 sd s lc ld l.
Proof.
  intros [L1 L2 L3 L4 L5 L6 L7 L8 L9 L10 L11 L12 L13 L14 L15 L16 L17 L18] Hn Hr.
  split; cbn [wd_log wd_disk wd_flights wd_issued wd_rotation wd_synced]; try done; [|by auto].
  eapply Forall_impl; [exact L4|]. intros cd [H1 H2]. split; [|done]. rewrite lookup_insert_ne; [done|].
  intros Heq. congruence.
Qed.

Lemma install_layout w cur file cl s0 sd s lc ld l r number allocated' new log :
  world_inv c lim w cur file → layout w cur file cl s0 sd s lc ld l →
  wd_rotation w = Some r → wd_disk w !! number = None → ro_highest r < number → fits 64 number →
  SegmentHeader_encode (rd_segment (Rotation_create r number allocated')) = Ok new →
  Log_install_rotation (wd_log w) (Rotation_create r number allocated') = (log, Ok tt) →
  ∃ cl' s' lc', layout {| wd_log := log; wd_disk := <[number := new]> (wd_disk w);
    wd_flights := wd_flights w; wd_issued := wd_issued w; wd_rotation := None; wd_synced := BLOCK_SIZE |}
    (rd_segment (Rotation_create r number allocated')) new cl' s s' s' lc' [] [].
Proof.
  intros W L Hr Hn Hhi Hfit Henc E. destruct (layout_replayable _ _ _ _ _ _ _ _ _ _ L) as (R0 & Rd & Rs & Sc & Sl & O1 & O2 & Hcap & Hp0).
  apply install_ok in E as (Hrot & -> & Hbp).
  pose proof W as [W1 W2 W3 W4 W5 W6 W7 W8 W9 W10 W11 W12 W13 W14 W15 W16 W17]. specialize (W14 Hrot).
  destruct L as [L1 L2 L3 L4 L5 L6 L7 L8 L9 L10 L11 L12 L13 L14 L15 L16 L17 L18].
  specialize (L17 Hrot). destruct (L18 _ Hr) as (V1 & V2 & V3). rewrite W14 in *. cbn [queued] in L13.
  destruct L13 as [Q1 Q2], W5 as [W5a W5b], W6 as [W6a W6b], L12 as [L12a L12b].
  set (epoch := match ro_epoch r with Some e => e | None => number end).
  assert (Hcur' : rd_segment (Rotation_create r number allocated') =
    Config_header c epoch number (lg_published (wd_log w))).
  { unfold Rotation_create. cbn [rd_segment]. rewrite V1. cbn in Hbp. by rewrite Hbp. }
  rewrite Hcur' in *. cbn [sh_number Config_header].
  assert (Hep : sh_epoch cur ≤ epoch ≤ number ∧ fits 64 epoch).
  { unfold epoch. destruct L16 as (_ & _ & _ & _ & L16 & _). destruct (ro_epoch r) as [e|] eqn:Ee.
    - rewrite (V3 e eq_refl). split; [lia|done].
    - split; [lia|done]. }
  assert (Hok : SegmentHeader_ok (Config_header c epoch number (lg_published (wd_log w)))).
  { destruct L1 as ((C1 & C2 & C3 & C4 & _ & _ & C5 & C6 & _) & _).
    unfold SegmentHeader_ok in *. cbn in *. unfold fits in *. split_and!; try done; lia. }
  exists
    (cl ++ [{| cd_number := sh_number cur; cd_file := file |}]),
    (attach_segment s (Config_header c epoch number (lg_published (wd_log w))) (allocated number)), (lc ++ ld ++ l).
  split; cbn [wd_log wd_disk wd_flights wd_issued wd_rotation wd_synced lg_segments lg_durable lg_index
    lg_published lg_offset lg_next_batch lg_highest_segment lg_rotating attach_segment sh_number Config_header
    sh_epoch]; rewrite ?W14; try done.
  - apply Forall_app. by split; [|constructor].
  - eapply recovers_snoc; [exact L3|done|done| |]; cbn [cd_number cd_file].
    + eapply replays_app; [exact L9|exact L11].
    + lia.
  - apply Forall_app. split.
    + eapply Forall_impl; [exact L4|]. intros cd [H1 H2]. split; [|lia]. rewrite lookup_insert_ne; [done|].
      intros Heq. congruence.
    + constructor; [|done]. cbn [cd_number cd_file]. split; [|lia]. rewrite lookup_insert_ne; [done|]. lia.
  - rewrite !fmap_app, L5. done.
  - by eapply bytes_ok_header.
  - apply (Segment_open_encoded (Config_header c epoch number (lg_published (wd_log w)))); [done|apply L1|done].
  - unfold chains, Config_matches. cbn. rewrite !bool_decide_true by done.
    destruct (replays_static _ _ _ _ _ L11) as (_ & _ & S1). destruct (replays_static _ _ _ _ _ L9) as (_ & _ & S2).
    rewrite S1, S2. cbn [attach_segment lg_segments]. rewrite last_snoc. by rewrite bool_decide_true by lia.
  - constructor.
  - split; [lia|done].
  - constructor.
  - by rewrite !app_nil_r.
  - lia.
Qed.

Lemma new_layout number allocated' file log :
  fits 64 number → Config_ok c → Limits_ok lim →
  SegmentHeader_encode (Config_header c number number 0) = Ok file →
  Log_create c lim (Config_header c number number 0) allocated' = Ok log →
  ∃ s, layout {| wd_log := log; wd_disk := {[ number := file ]}; wd_flights := [];
    wd_issued := []; wd_rotation := None; wd_synced := BLOCK_SIZE |}
    (Config_header c number number 0) file [] (Log_empty c lim highest 0) s s [] [] [].
Proof.
  intros Hn Hc Hl Hf E. pose proof (Log_create_pins _ _ _ _ _ E) as Hpins.
  unfold Log_create in E. apply result_bind_ok in E as ([] & Hv & E). apply result_bind_ok in E as (? & _ & E).
  unfold Config_validate in Hv. apply result_bind_ok in Hv as ([] & _ & Hv).
  destruct (_ || _ || _) eqn:Ev in Hv; [done|]. rewrite !orb_false_iff, !bool_decide_eq_false in Ev.
  destruct Ev as [[V1 V2] V3]. destruct (decide (lm_staging_bytes lim < allocated')); [done|]. injection E as <-.
  assert (Hok : SegmentHeader_ok (Config_header c number number 0)).
  { destruct Hc as (C1 & C2 & C3 & C4 & _ & _ & C5 & C6 & _). unfold SegmentHeader_ok. cbn in *. split_and!; done. }
  exists (attach_segment (Log_empty c lim highest 0) (Config_header c number number 0) (allocated number)).
  split; cbn [wd_log wd_disk wd_flights wd_issued wd_rotation wd_synced lg_segments lg_durable lg_index
    lg_published lg_offset lg_next_batch lg_highest_segment lg_rotating attach_segment sh_number Config_header
    sh_epoch Log_empty]; try done; try constructor.
  - done.
  - split; [done|lia].
  - by eapply bytes_ok_header.
  - by apply (Segment_open_encoded (Config_header c number number 0)).
  - unfold chains, Config_matches. cbn. by rewrite !bool_decide_true by done.
Qed.

Lemma layout_step w w' cur file cl s0 sd s lc ld l :
  world_inv c lim w cur file → layout w cur file cl s0 sd s lc ld l → world_step w w' →
  ∃ cur' file' cl' s0' sd' s' lc' ld' l',
    world_inv c lim w' cur' file' ∧ layout w' cur' file' cl' s0' sd' s' lc' ld' l'.
Proof.
  intros W L Hs. destruct Hs as [w cap b ms log sub Hcap Hbytes Hp E | w pre f post file0 Hf Hu Hd
    | w pre f post log Hf Hu E | w log sub E | w pre f post log durable Hf Hu E | w kind log r E
    | w r log Hr E | w r number allocated' new log res Hr Hn Hhi Hfit Ha Henc E | w].
  - eexists cur, file, _, _, _, _, _, _, _. split; [by eapply append_inv|by eapply append_layout].
  - assert (Hok : flight_ok w cur file f).
    { apply (proj1 (Forall_forall _ _) (wi_flights _ _ _ _ _ W)). rewrite Hf. set_solver. }
    pose proof (fo_segment _ _ _ _ Hok) as Hseg. rewrite Hseg in *.
    destruct (wi_file _ _ _ _ _ W) as [Hfile _]. rewrite Hfile in Hd. injection Hd as <-.
    eexists cur, _, _, _, _, _, _, _, _. split; [by apply write_inv|]. apply write_layout; [done|exact L|done|done|].
    pose proof (ly_queue _ _ _ _ _ _ _ _ _ _ L) as Hq. rewrite Hf in Hq. clear -Hq. revert Hq.
    generalize (lg_offset s), (lg_next_batch s). induction pre as [|g pre IH]; cbn [app queued]; [tauto|].
    intros o n (_ & _ & _ & _ & _ & Hq). by apply IH in Hq.
  - destruct (publish_layout _ _ _ _ _ _ _ _ _ _ _ _ _ _ W L Hf Hu E) as (s' & l' & L').
    eexists cur, file, _, _, _, _, _, _, _. split; [by eapply publish_inv|exact L'].
  - eexists cur, file, _, _, _, _, _, _, _. split; [by eapply fence_inv|by eapply fence_layout].
  - destruct (sync_layout _ _ _ _ _ _ _ _ _ _ _ _ _ _ _ W L Hf Hu E) as (s' & L').
    eexists cur, file, _, _, _, _, _, _, _. split; [by eapply sync_inv|exact L'].
  - eexists cur, file, _, _, _, _, _, _, _. split; [by eapply rotate_inv|by eapply rotate_layout].
  - eexists cur, file, _, _, _, _, _, _, _. split; [by eapply cancel_inv|by eapply cancel_layout].
  - destruct (is_ok res) eqn:Er.
    + destruct res as [[]| |]; [|done..].
      destruct (install_inv _ _ _ _ _ BLOCK_SIZE _ _ _ _ _ _ W Hn Hfit Henc E) as (cur' & file' & W').
      destruct (install_layout _ _ _ _ _ _ _ _ _ _ _ _ _ _ _ W L Hr Hn Hhi Hfit Henc E) as (cl' & s' & lc' & L').
      assert (cur' = rd_segment (Rotation_create r number allocated')) as ->.
      { pose proof (wi_segments _ _ _ _ _ W') as Hc'. apply install_ok in E as (_ & -> & _). cbn in Hc'.
        rewrite last_snoc in Hc'. by injection Hc' as <-. }
      assert (file' = new) as ->.
      { destruct (wi_file _ _ _ _ _ W') as [Hf' _]. cbn in Hf'. rewrite lookup_insert_eq in Hf'. by injection Hf' as <-. }
      eexists _, new, _, _, _, _, _, _, _. split; [exact W'|exact L'].
    + pose proof (world_inv_new_file _ _ _ _ _ (wd_synced w) _ new None W Hn) as W'.
      pose proof (new_file_layout _ _ _ _ _ _ _ _ _ _ _ new None L Hn ltac:(by intros r' [=])) as L'.
      eexists cur, file, _, _, _, _, _, _, _.
      destruct (install_failed _ _ _ _ E Er) as [-> | ->]; [by split|]. split; [|by eapply (fail_layout _ _ _ _ _ _ _ _ _ _ None L')].
      apply (world_inv_flags _ _ _ _ _ (wd_synced w) (Log_fail (wd_log w)) None W'); [by intros x ->|]. cbn. apply W.
  - eexists cur, file, _, _, _, _, _, _, _. split; [|by eapply fail_layout].
    eapply world_inv_flags; [done|by intros x ->|]. apply W.
Qed.

Lemma layout_reachable w :
  world_reachable c lim w → ∃ cur file cl s0 sd s lc ld l,
    world_inv c lim w cur file ∧ layout w cur file cl s0 sd s lc ld l.
Proof.
  induction 1 as [number allocated' file log H1 H2 H3 H4 H5|w w' _ (cur & file & cl & s0 & sd & s & lc & ld & l & W & L) Hs].
  - destruct (new_layout number allocated' file log H1 H2 H3 H4 H5) as (s & L).
    eexists _, _, _, _, _, _, _, _, _. split; [by eapply world_inv_new|exact L].
  - by eapply layout_step.
Qed.

End layout.

(** ** Crashes *)

(** What a crash leaves: the closed segments, and of the current one at least
    the synced bytes.  After them the file may end, keep what was written, or
    hold anything else. *)
Inductive crash (disk : gmap Z bytes) (synced : Z) : list Z → list Candidate → Prop :=
  | crash_current number file file' :
      disk !! number = Some file → bytes_ok file' → synced ≤ blen file' →
      slice 0 synced file' = slice 0 synced file →
      crash disk synced [number] [{| cd_number := number; cd_file := file' |}]
  | crash_closed number file numbers cds :
      disk !! number = Some file → crash disk synced numbers cds →
      crash disk synced (number :: numbers) ({| cd_number := number; cd_file := file |} :: cds).

Lemma crash_nonempty disk synced numbers cds : crash disk synced numbers cds → numbers ≠ [].
Proof. by destruct 1. Qed.

Lemma crash_split disk synced cl number file : ∀ cds,
  Forall (λ cd, disk !! cd_number cd = Some (cd_file cd)) cl → disk !! number = Some file →
  crash disk synced ((cd_number <$> cl) ++ [number]) cds →
  ∃ file', cds = cl ++ [{| cd_number := number; cd_file := file' |}] ∧ bytes_ok file' ∧
    synced ≤ blen file' ∧ slice 0 synced file' = slice 0 synced file.
Proof.
  induction cl as [|cd cl IH]; intros cds Hd Hf Hc; cbn in Hc.
  - inversion Hc as [? file0 file' E1 E2 E3 E4 E5 E6|? ? ? ? ? Hn]; simplify_eq; [|by apply crash_nonempty in Hn].
    by exists file'.
  - apply Forall_cons in Hd as [Hd1 Hd]. inversion Hc as [? ? ? ? ? ? ? E|? file1 ? cds' E1 Hn]; simplify_eq.
    { by destruct cl. }
    destruct (IH cds' Hd Hf Hn) as (file' & -> & F1 & F2 & F3). exists file'. split_and!; [|done..].
    by destruct cd.
Qed.

Lemma chains_config s c h : chains s c h = true → header_config h = c ∧ sh_preceding_sequence h = lg_published s.
Proof.
  unfold chains, Config_matches. rewrite !andb_true_iff, !bool_decide_eq_true.
  intros (((((H1 & H2) & H3) & H4) & H5) & _). split; [|done]. unfold header_config. destruct c. cbn in *. congruence.
Qed.

(** The first file of a chain decides its configuration. *)
Lemma first_segment `{Crc32} c allocated lim highest cl l s0 last h :
  recovers c allocated (Log_empty c lim highest 0) cl l s0 →
  Segment_open (cd_number last) (cd_file last) = Ok h → chains s0 c h = true →
  ∃ first rest h0, cl ++ [last] = first :: rest ∧ Segment_open (cd_number first) (cd_file first) = Ok h0 ∧
    header_config h0 = c ∧ sh_preceding_sequence h0 = 0.
Proof.
  intros Hr Ho Hc. inversion Hr as [|? cd segment l1 s1 cds l2 s2 H1 H2 H3 H4 H5]; subst; cbn [app].
  - destruct (chains_config _ _ _ Hc) as [E1 E2]. by eexists _, _, _.
  - destruct (chains_config _ _ _ H2) as [E1 E2]. by eexists _, _, _.
Qed.

(** What is left of the synced part after a crash, and the loop from there. *)
Lemma crash_scan `{Crc32} c lim w highest allocated cds :
  world_reachable c lim w →
  crash (wd_disk w) (wd_synced w) (sh_number <$> lg_segments (wd_log w)) cds →
  ∃ first rest h0 cl cur file' s0 sd lc ld,
    cds = first :: rest ∧ Segment_open (cd_number first) (cd_file first) = Ok h0 ∧ header_config h0 = c ∧
    sh_preceding_sequence h0 = 0 ∧ MAX_BATCH_BYTES + 2 * BLOCK_SIZE ≤ sh_capacity h0 ∧
    cds = cl ++ [{| cd_number := sh_number cur; cd_file := file' |}] ∧ clean cl ∧ bytes_ok file' ∧
    replayable s0 ∧ recovers c allocated (Log_empty c lim highest 0) cl lc s0 ∧
    Segment_open (sh_number cur) file' = Ok cur ∧ chains s0 c cur = true ∧
    replays cur file' (attach_segment s0 cur (allocated (sh_number cur))) ld sd ∧
    lg_published sd = lg_durable (wd_log w) ∧ lg_offset sd = wd_synced w ∧ wd_synced w ≤ blen file' ∧
    lc ++ ld = take (Z.to_nat (lg_durable (wd_log w))) (wd_issued w).
Proof.
  intros Hw Hc. destruct (layout_reachable c lim allocated highest w Hw)
    as (cur & file & cl & s0 & sd & s & lc & ld & l & W & L).
  destruct (layout_replayable _ _ _ _ _ _ _ _ _ _ _ _ _ _ L) as (R0 & Rd & Rs & Sc & Sl & O1 & O2 & Hcap & Hp0).
  pose proof (ly_issued _ _ _ _ _ _ _ _ _ _ _ _ _ _ L) as Hiss.
  destruct L as [L1 L2 L3 L4 L5 L6 L7 L8 L9 L10 L11 L12 L13 _ L15 L16 L17 L18].
  destruct (wi_file _ _ _ _ _ W) as [Hfile _]. destruct L10 as [L10a L10b]. rewrite L5 in Hc.
  destruct (crash_split (wd_disk w) (wd_synced w) cl (sh_number cur) file cds) as (file' & Hcds & F1 & F2 & F3); [|done|done|].
  { eapply Forall_impl; [exact L4|]. by intros cd []. }
  unfold BLOCK_SIZE in O1. rewrite <- L10b in F2, F3.
  assert (Hopen : Segment_open (sh_number cur) file' = Ok cur).
  { rewrite <- L7. apply Segment_open_ext; unfold BLOCK_SIZE; [lia|lia|]. eapply slice_prefix_eq; [exact F3|lia|lia]. }
  destruct (first_segment c allocated lim highest cl lc s0 {| cd_number := sh_number cur; cd_file := file' |} cur L3 Hopen L8)
    as (first & rest & h0 & E1 & E2 & E3 & E4).
  exists first, rest, h0, cl, cur, file', s0, sd, lc, ld. rewrite <- L10b. split_and!; try done; try congruence.
  - rewrite <- E3 in L1. apply L1.
  - eapply replays_ext; [exact L6|by apply attach_replayable|exact L9|done|exact F3].
  - pose proof (replays_ok _ _ _ _ _ L6 (attach_replayable s0 cur (allocated (sh_number cur)) R0) L9) as (_ & _ & _ & P1 & _).
    cbn [attach_segment lg_published] in P1.
    assert (Hd : Z.to_nat (lg_durable (wd_log w)) = length (lc ++ ld)) by (rewrite length_app; lia).
    pose proof (wi_order _ _ _ _ _ W). rewrite app_assoc in Hiss.
    rewrite Hd, <- (take_app_length (lc ++ ld) l) at 1. rewrite Hiss, take_take. f_equal. lia.
Qed.

Lemma world_limits `{Crc32} c lim w : world_reachable c lim w → lm_intervals lim < 2 ^ 64.
Proof. intros (cur & file & W)%world_reachable_inv. apply W. Qed.

(** ** Properties *)

(** C2: acknowledged writes survive a crash.  Take any reachable state of the
    log and any crash that keeps the closed segments and the bytes of the
    current one covered by the last completed sync, with anything at all after
    them.  Inspection then either refuses for want of intervals or recovers a
    prefix that contains every durable mutation: [require_prefix] of the
    durable sequence holds, the published sequence counts the durable mutations
    and the further ones found, and the image read back is theirs. *)
Theorem crash_recovery `{Crc32} c lim w highest allocated cds :
  world_reachable c lim w →
  crash (wd_disk w) (wd_synced w) (sh_number <$> lg_segments (wd_log w)) cds →
  Log_inspect lim highest allocated 0 cds = Err (Error LogCapacity "") ∨
  ∃ r more, Log_inspect lim highest allocated 0 cds = Ok r ∧
    Recovery_require_prefix r (lg_durable (wd_log w)) = Ok tt ∧
    lg_published (rc_log r) = lg_durable (wd_log w) + Z.of_nat (length more) ∧
    ∀ disk x, on_disk disk cds →
      resolve disk (view (ix_map (lg_index (rc_log r))) x) =
      contents (take (Z.to_nat (lg_durable (wd_log w))) (wd_issued w) ++ more) x.
Proof.
  intros Hw Hc. pose proof (world_limits _ _ _ Hw) as Hlim.
  destruct (crash_scan _ _ _ highest allocated _ Hw Hc) as (first & rest & h0 & cl & cur & file' & s0 & sd & lc & ld &
    E0 & E1 & E2 & E3 & E4 & Hcds & Hcl & Hb & R0 & Hrec & Ho & Hch & Hrep & P & O & Hlen & Hiss).
  pose proof (empty_replayable c lim highest 0 Hlim ltac:(done)) as Re.
  pose proof (attach_replayable s0 cur (allocated (sh_number cur)) R0) as Ra.
  destruct (replays_ok _ _ _ _ _ Hb Ra Hrep) as (Rd & _).
  destruct (replay_loop_through _ _ _ _ _ (replay_fuel file') Hb Ra Hrep) as (fuel & Hfuel & Hloop);
    [by apply enough_fuel|].
  assert (Hins : ∀ r : result (Log * bool), replay_loop fuel sd cur file' 0 = r →
    inspect_candidates (Log_empty c lim highest 0) c allocated 0 0 cds =
    '(s, rejected) ← r; if (rejected : bool) then Ok (s, Some (length cl, lg_offset s)) else Ok (s, None)).
  { intros r Hr. rewrite Hcds, (recovers_inspect _ _ _ _ _ _ _ 0 Hcl Re Hrec). cbn [inspect_candidates cd_number cd_file].
    rewrite Ho, Hch. cbn [negb]. cbv zeta. by rewrite Hloop, Hr. }
  destruct (replay_loop_total cur file' fuel sd Hb Rd Hfuel) as [(more & s' & rejected & L1 & L2 & _)|L1];
    specialize (Hins _ L1); [right|left].
  - rewrite bind_Ok in Hins. pose proof (replays_ok _ _ _ _ _ Hb Rd L2) as (R1 & _ & _ & P1 & _).
    assert (Hins' : ∃ rj, inspect_candidates (Log_empty c lim highest 0) c allocated 0 0 cds = Ok (s', rj))
      by (destruct rejected; eauto). destruct Hins' as [rj Hins'].
    rewrite E0, <- E2 in Hins'. exists {| rc_log := set_issued s' (lg_published s'); rc_candidates := cds; rc_rejected := rj |}, more.
    pose proof (ra_published _ R1). rewrite E0.
    split; [by erewrite inspect_complete by done|]. split; [|split].
    + unfold Recovery_require_prefix. cbn [rc_log set_issued lg_published]. by rewrite decide_False by lia.
    + cbn [rc_log set_issued lg_published]. lia.
    + rewrite <- E0, <- Hiss, <- app_assoc. intros disk x Hd. cbn [rc_log set_issued lg_index].
      rewrite Hcds in Hd. apply Forall_app in Hd as [Hd1 [Hd2 _]%Forall_cons].
      pose proof (recovers_holds _ _ _ _ _ _ disk [] Hcl Re Hrec Hd1 (holds_empty _ _ _ _ _)) as H1.
      pose proof (replays_holds _ _ _ _ _ disk lc Hb Ra Hrep Hd2 H1) as H2.
      rewrite app_assoc. exact (replays_holds _ _ _ _ _ disk (lc ++ ld) Hb Rd L2 Hd2 H2 x).
  - cbn [mbind result_mbind result_bind] in Hins. rewrite E0, <- E2 in Hins. unfold Log_inspect. rewrite E0, E1, bind_Ok, E3.
    rewrite decide_False by lia. cbv zeta. cbn [cf_segment_bytes]. rewrite decide_False by lia.
    unfold header_config in Hins. by rewrite Hins.
Qed.

(** C30: a crash right at the last sync is recovered exactly.  When the
    current segment ends with its synced bytes, inspection succeeds, rejects
    nothing, and recovers the durable prefix with its contents. *)
Theorem crash_at_fence `{Crc32} c lim w highest allocated cds cd :
  world_reachable c lim w →
  crash (wd_disk w) (wd_synced w) (sh_number <$> lg_segments (wd_log w)) cds →
  last cds = Some cd → blen (cd_file cd) = wd_synced w →
  ∃ r, Log_inspect lim highest allocated 0 cds = Ok r ∧ rc_rejected r = None ∧
    lg_published (rc_log r) = lg_durable (wd_log w) ∧
    ∀ disk x, on_disk disk cds →
      resolve disk (view (ix_map (lg_index (rc_log r))) x) =
      contents (take (Z.to_nat (lg_durable (wd_log w))) (wd_issued w)) x.
Proof.
  intros Hw Hc Hl Hcd. pose proof (world_limits _ _ _ Hw) as Hlim.
  destruct (crash_scan _ _ _ highest allocated _ Hw Hc) as (first & rest & h0 & cl & cur & file' & s0 & sd & lc & ld &
    E0 & E1 & E2 & E3 & E4 & Hcds & Hcl & Hb & R0 & Hrec & Ho & Hch & Hrep & P & O & Hlen & Hiss).
  pose proof (empty_replayable c lim highest 0 Hlim ltac:(done)) as Re.
  assert (cd = {| cd_number := sh_number cur; cd_file := file' |}) as ->.
  { rewrite Hcds, last_snoc in Hl. by injection Hl as <-. }
  assert (Hall : recovers c allocated (Log_empty c lim highest 0) cds (lc ++ ld) sd).
  { rewrite Hcds. eapply recovers_snoc; [exact Hrec|exact Ho|done|exact Hrep|]. cbn [cd_file] in *. lia. }
  assert (Hclean : clean cds).
  { rewrite Hcds. apply Forall_app. split; [done|]. by constructor. }
  pose proof (recovers_inspect _ _ _ _ _ _ [] 0 Hclean Re Hall) as Hins. rewrite app_nil_r, E0, <- E2 in Hins.
  pose proof (recovers_ok _ _ _ _ _ _ Hclean Re Hall) as (R1 & _). pose proof (ra_published _ R1).
  eexists. rewrite E0. split; [by erewrite inspect_complete by done|].
  split; [done|]. split; [done|]. rewrite <- E0, <- Hiss. intros disk x Hd. cbn [rc_log set_issued lg_index].
  exact (recovers_holds _ _ _ _ _ _ disk [] Hclean Re Hall Hd (holds_empty _ _ _ _ _) x).
Qed.

(** Every reachable state can crash, with any bytes behind the synced ones. *)
Lemma crash_exists `{Crc32} c lim w tail :
  world_reachable c lim w → bytes_ok tail →
  ∃ cds cd, crash (wd_disk w) (wd_synced w) (sh_number <$> lg_segments (wd_log w)) cds ∧
    last cds = Some cd ∧ blen (cd_file cd) = wd_synced w + blen tail.
Proof.
  intros Hw Ht. destruct (layout_reachable c lim (λ _, 0) 0 w Hw) as (cur & file & cl & s0 & sd & s & lc & ld & l & W & L).
  destruct (layout_replayable _ _ _ _ _ _ _ _ _ _ _ _ _ _ L) as (_ & _ & _ & _ & _ & O1 & O2 & _).
  destruct L as [L1 L2 L3 L4 L5 L6 L7 L8 L9 L10 _ _ _ _ _ _ _ _]. destruct (wi_file _ _ _ _ _ W) as [Hfile _].
  destruct L10 as [_ L10]. rewrite L10 in *. unfold BLOCK_SIZE in O1. rewrite L5.
  set (last := {| cd_number := sh_number cur; cd_file := slice 0 (wd_synced w) file ++ tail |}).
  assert (Hlen : blen (slice 0 (wd_synced w) file) = wd_synced w) by (apply blen_slice; lia).
  exists (cl ++ [last]), last. split_and!; [|apply last_snoc|unfold last; cbn; rewrite blen_app; lia].
  assert (Hd : Forall (λ cd, wd_disk w !! cd_number cd = Some (cd_file cd)) cl)
    by (eapply Forall_impl; [exact L4|by intros ? []]).
  clear -Hd Hfile Hlen L6 Ht O1. induction Hd as [|[n f] cl Hn _ IH]; cbn; [|by constructor].
  eapply crash_current; [exact Hfile|..].
  - apply bytes_ok_app. split; [by apply bytes_ok_slice|done].
  - rewrite blen_app. pose proof (blen_nonneg tail). lia.
  - rewrite slice_app_l, slice_slice by lia. done.
Qed.

(** ** A concrete crash *)

Definition sample_fenced : Log * Submission :=
  unwrap_or sample_prepared (@Log_prepare_fence crc_sum (wd_log sample_world3)).

Definition sample_fence : Flight := {| fl_sub := sample_fenced.2; fl_mutations := []; fl_written := false |}.

Definition sample_data_file : bytes := write_at sample_file (fl_start sample_flight) (fl_bytes sample_flight).

Definition sample_synced_file : bytes := write_at sample_data_file (fl_start sample_fence) (fl_bytes sample_fence).

Definition sample_world4 : World :=
  {| wd_log := sample_fenced.1; wd_disk := wd_disk sample_world3;
     wd_flights := wd_flights sample_world3 ++ [sample_fence]; wd_issued := wd_issued sample_world3;
     wd_rotation := wd_rotation sample_world3; wd_synced := wd_synced sample_world3 |}.

Definition sample_world5 : World :=
  {| wd_log := wd_log sample_world4;
     wd_disk := <[sb_segment (fl_sub sample_fence) := sample_synced_file]> (wd_disk sample_world4);
     wd_flights := [] ++ mark_written sample_fence :: []; wd_issued := wd_issued sample_world4;
     wd_rotation := wd_rotation sample_world4; wd_synced := wd_synced sample_world4 |}.

Definition sample_world6 : World :=
  {| wd_log := (unwrap_or (sample_log0, 0) (Log_complete_sync sample_fenced.1 sample_fenced.2)).1;
     wd_disk := wd_disk sample_world5; wd_flights := [] ++ []; wd_issued := wd_issued sample_world5;
     wd_rotation := wd_rotation sample_world5; wd_synced := fl_end (mark_written sample_fence) |}.

Lemma sample_fence_segment : sb_segment (fl_sub sample_fence) = 1.
Proof. vm_compute. reflexivity. Qed.

Lemma sample_disk3 : wd_disk sample_world3 !! 1 = Some sample_data_file.
Proof.
  unfold sample_world3, sample_world2, sample_data_file. cbn [wd_disk]. by rewrite lookup_insert_eq.
Qed.

Lemma sample_disk6 : wd_disk sample_world6 !! 1 = Some sample_synced_file.
Proof. unfold sample_world6, sample_world5. cbn [wd_disk]. by rewrite sample_fence_segment, lookup_insert_eq. Qed.

Lemma sample_reachable6 : @world_reachable crc_sum sample_config sample_log_limits sample_world6.
Proof.
  apply (world_next _ _ sample_world5); [apply (world_next _ _ sample_world4);
    [apply (world_next _ _ sample_world3); [apply sample_reachable3|]|]|].
  - apply (@world_fence crc_sum sample_world3 sample_fenced.1 sample_fenced.2). rewrite <- surjective_pairing.
    apply is_ok_unwrap. vm_compute. reflexivity.
  - apply (@world_write crc_sum sample_world4 [] sample_fence [] sample_data_file); [done|done|].
    rewrite sample_fence_segment. exact sample_disk3.
  - apply (@world_sync crc_sum sample_world5 [] (mark_written sample_fence) [] _
      (unwrap_or (sample_log0, 0) (Log_complete_sync sample_fenced.1 sample_fenced.2)).2); [done|done|].
    rewrite <- surjective_pairing. apply is_ok_unwrap. vm_compute. reflexivity.
Qed.

Lemma sample_numbers : sh_number <$> lg_segments (wd_log sample_world6) = [1].
Proof. vm_compute. reflexivity. Qed.

Lemma sample_durable : lg_durable (wd_log sample_world6) = 1.
Proof. vm_compute. reflexivity. Qed.

(** A crash at the last sync with garbage behind it. *)
Lemma crash_recovery_witness :
  ∃ cds, crash (wd_disk sample_world6) (wd_synced sample_world6) [1] cds ∧
    (@Log_inspect crc_sum sample_log_limits 1 (λ _, 1064960) 0 cds = Err (Error LogCapacity "") ∨
     ∃ r, @Log_inspect crc_sum sample_log_limits 1 (λ _, 1064960) 0 cds = Ok r ∧ 1 ≤ lg_published (rc_log r)).
Proof.
  destruct (@crash_exists crc_sum sample_config sample_log_limits sample_world6 (replicate 500 7))
    as (cds & cd & Hc & _); [apply sample_reachable6|decide_now|]. exists cds.
  split; [by rewrite sample_numbers in Hc|].
  destruct (@crash_recovery crc_sum sample_config sample_log_limits sample_world6 1 (λ _, 1064960) cds)
    as [E|(r & more & E & _ & Hp & _)]; [apply sample_reachable6|exact Hc|by left|].
  right. exists r. split; [exact E|]. rewrite Hp, sample_durable. lia.
Defined.

Lemma crash_at_fence_witness :
  ∃ cds r, crash (wd_disk sample_world6) (wd_synced sample_world6) [1] cds ∧
    @Log_inspect crc_sum sample_log_limits 1 (λ _, 1064960) 0 cds = Ok r ∧
    rc_rejected r = None ∧ lg_published (rc_log r) = 1.
Proof.
  destruct (@crash_exists crc_sum sample_config sample_log_limits sample_world6 [])
    as (cds & cd & Hc & Hl & Hn); [apply sample_reachable6|constructor|]. exists cds.
  destruct (@crash_at_fence crc_sum sample_config sample_log_limits sample_world6 1 (λ _, 1064960) cds cd)
    as (r & E & Hr & Hp & _); [apply sample_reachable6|exact Hc|exact Hl|rewrite Hn; apply Z.add_0_r|].
  exists r. rewrite Hp. split_and!; [by rewrite sample_numbers in Hc|exact E|exact Hr|exact sample_durable].
Defined.

(** A segment with nothing but its header and garbage behind it. *)
Definition sample_survivor : list Candidate := [{| cd_number := 1; cd_file := sample_file ++ replicate 50 7 |}].

Definition sample_recovery : Recovery :=
  unwrap_or {| rc_log := sample_log0; rc_candidates := []; rc_rejected := None |}
    (@Log_inspect crc_sum sample_log_limits 1 (λ _, 1064960) 0 sample_survivor).

Lemma sample_clean : clean sample_survivor.
Proof. constructor; [|done]. decide_now. Qed.

Lemma sample_inspects : is_ok (@Log_inspect crc_sum sample_log_limits 1 (λ _, 1064960) 0 sample_survivor) = true.
Proof. vm_compute. reflexivity. Qed.

Lemma sample_rejects : from_option (λ _, true) false (rc_rejected sample_recovery) = true.
Proof. vm_compute. reflexivity. Qed.

Lemma repair_idempotent_witness :
  from_option (λ _, true) false (rc_rejected sample_recovery) = true ∧
  ∃ n, @Log_inspect crc_sum sample_log_limits 1 (λ _, 4096) 0 (Recovery_repair sample_recovery) = Ok {|
    rc_log := set_allocated (rc_log sample_recovery) n; rc_candidates := Recovery_repair sample_recovery;
    rc_rejected := None |}.
Proof.
  split; [exact sample_rejects|].
  apply (@repair_idempotent crc_sum sample_log_limits 1 (λ _, 1064960) (λ _, 4096) sample_survivor sample_recovery).
  - exact sample_clean.
  - decide_now.
  - apply is_ok_unwrap. exact sample_inspects.
Defined.
