(* ===== verification/AppendFraming.v ===== *)
(** * What the staging files hold

    The framing of the segment files, stated without the log that reads them:
    from the block behind a segment's header, batches follow one another, each
    with the segment's number, the next batch number and the next sequence, and
    with a payload that matches its checksums.  A scan of the files in order
    takes every such batch and stops at the first place that holds none.  The
    theorem says that [Log::inspect] of [append/recovery.rs] computes exactly
    this, over any files and above any manifest prefix [D]: the recovered log
    publishes what the scan finds, and its index reads back the mutations
    behind [D].  A batch that the manifest covers is not verified, and one that
    [D] would split is refused. *)
From S2P Require Import Prelude Bytes AppendFormat AppendPacking IntervalIndex AppendLog AppendWorld AppendRecovery AppendDurable.

(** ** Frames *)

(** Where a scan is in a segment: the offset of the next batch, its number and
    the sequence it follows. *)
Record Place : Type := { at_offset : Z; at_batch : Z; at_sequence : Z }.

Definition segment_start (seg : SegmentHeader) : Place :=
  {| at_offset := BLOCK_SIZE; at_batch := 1; at_sequence := sh_preceding_sequence seg |}.

Definition next_place (p : Place) (h : Header) : Place := {|
  at_offset := at_offset p + (BLOCK_SIZE + env_payload_bytes (hdr_envelope h));
  at_batch := at_batch p + 1;
  at_sequence := if env_fence (hdr_envelope h) then at_sequence p else env_last (hdr_envelope h);
|}.

Section framing.
  Context `{Crc32} (base image : Z).

  (** A batch stands at [p]: its header decodes and follows, and the manifest
      covers it, or its payload is the one it was sealed with. *)
Record frame_ok (seg : SegmentHeader) (file : bytes) (p : Place) (h : Header) : Prop := {
    fr_read : at_offset p + BLOCK_SIZE ≤ blen file;
    fr_decode : Header_decode (slice (at_offset p) BLOCK_SIZE file) image = Ok h;
    fr_follows : Header_follows h seg (at_batch p) (at_sequence p) (at_offset p) (blen file) = true;
    fr_batch : at_batch p + 1 < 2 ^ 64;
    fr_payload : env_fence (hdr_envelope h) = false →
      env_last (hdr_envelope h) ≤ base ∨
      (base < env_first (hdr_envelope h) ∧
       Header_verify_payload h
         (slice (at_offset p + BLOCK_SIZE) (env_payload_bytes (hdr_envelope h)) file) = Ok tt);
  }.

Inductive frames (seg : SegmentHeader) (file : bytes) : Place → list (Place * Header) → Place → Prop :=
    | frames_nil p : frames seg file p [] p
    | frames_cons p h l p' :
        frame_ok seg file p h → frames seg file (next_place p h) l p' →
        frames seg file p ((p, h) :: l) p'.

  (** No batch stands at [p], of any kind. *)
Definition torn (seg : SegmentHeader) (file : bytes) (p : Place) : Prop :=
    at_offset p < blen file ∧ ∀ h, ¬ frame_ok seg file p h.
End framing.

(** The mutations of a batch: its descriptors, each with the bytes of the file
    its payload offset names. *)
Definition frame_mutations (file : bytes) (f : Place * Header) : list Mutation :=
  if env_fence (hdr_envelope f.2) then [] else carried file (at_offset f.1) f.2.

Definition frames_mutations (file : bytes) (l : list (Place * Header)) : list Mutation :=
  concat (frame_mutations file <$> l).

(** ** The chain of segments *)

(** A file continues the chain of [c] behind sequence [q] and segment [prev]. *)
Definition continues (c : Config) (prev : option SegmentHeader) (q : Z) (seg : SegmentHeader) : Prop :=
  Config_matches c seg = true ∧ sh_preceding_sequence seg = q ∧
  match prev with Some p => sh_epoch p ≤ sh_epoch seg | None => True end.

(** The scan of [cds] in order, from sequence [q] behind segment [prev]: the
    mutations [l] it finds, the sequence it ends at, and where it stopped, if
    not at the end: the number of whole files, and the offset in the next one
    ([0] if not even its header block is there). *)
Inductive scanned `{Crc32} (base : Z) (c : Config)
    : option SegmentHeader → Z → list Candidate → list Mutation → Z → option (nat * Z) → Prop :=
  | scanned_nil prev q : scanned base c prev q [] [] q None
  | scanned_whole prev q cd cds seg fs p l q' rejected :
      Segment_open (cd_number cd) (cd_file cd) = Ok seg → continues c prev q seg →
      frames base (cf_image_bytes c) seg (cd_file cd) (segment_start seg) fs p →
      at_offset p = blen (cd_file cd) →
      scanned base c (Some seg) (at_sequence p) cds l q' rejected →
      scanned base c prev q (cd :: cds) (frames_mutations (cd_file cd) fs ++ l) q'
        ((λ r, (S r.1, r.2)) <$> rejected)
  | scanned_torn prev q cd cds seg fs p :
      Segment_open (cd_number cd) (cd_file cd) = Ok seg → continues c prev q seg →
      frames base (cf_image_bytes c) seg (cd_file cd) (segment_start seg) fs p →
      torn base (cf_image_bytes c) seg (cd_file cd) p →
      scanned base c prev q (cd :: cds) (frames_mutations (cd_file cd) fs) (at_sequence p)
        (Some (O, at_offset p))
  | scanned_short prev q cd cds :
      blen (cd_file cd) < BLOCK_SIZE → scanned base c prev q (cd :: cds) [] q (Some (O, 0)).

(** What the manifest does not hold yet. *)
Definition above (base : Z) (l : list Mutation) : list Mutation :=
  filter (λ m, base < d_sequence m.1) l.

(** ** Lemmas on frames *)

Lemma above_app base l k : above base (l ++ k) = above base l ++ above base k.
Proof. apply filter_app. Qed.

Lemma above_all base l : Forall (λ m, base < d_sequence m.1) l → above base l = l.
Proof.
  unfold above. induction 1 as [|m l Hm Hl IH]; [done|]. by rewrite filter_cons_True, IH.
Qed.

Lemma above_none base l : Forall (λ m, d_sequence m.1 ≤ base) l → above base l = [].
Proof.
  unfold above. induction 1 as [|m l Hm Hl IH]; [done|]. rewrite filter_cons_False; [done|]. cbn. lia.
Qed.

Lemma frame_decoded `{Crc32} base image seg file p h :
  bytes_ok file → frame_ok base image seg file p h → decoded h.
Proof.
  intros Hb Hf. eapply Header_decode_decoded; [|apply (fr_decode _ _ _ _ _ _ Hf)]. by apply bytes_ok_slice.
Qed.

(** The mutations of a batch are numbered densely behind the place's sequence. *)
Lemma frame_numbered `{Crc32} base image seg file p h :
  bytes_ok file → frame_ok base image seg file p h →
  (∀ i m, frame_mutations file (p, h) !! i = Some m → d_sequence m.1 = at_sequence p + 1 + Z.of_nat i) ∧
  at_sequence (next_place p h) = at_sequence p + Z.of_nat (length (frame_mutations file (p, h))) ∧
  at_offset p + BLOCK_SIZE ≤ at_offset (next_place p h) ≤ blen file ∧
  (env_fence (hdr_envelope h) = false → env_first (hdr_envelope h) = at_sequence p + 1).
Proof.
  intros Hb Hf. pose proof (frame_decoded _ _ _ _ _ _ Hb Hf) as Hd.
  destruct (Header_decode_facts _ _ _ (fr_decode _ _ _ _ _ _ Hf)) as (_ & _ & Hq & _); [by apply bytes_ok_slice|].
  pose proof (fr_follows _ _ _ _ _ _ Hf) as (_ & _ & _ & F4 & _ & _ & F7)%Header_follows_spec.
  pose proof (de_payload _ Hd) as Hp. unfold frame_mutations. cbn [fst snd next_place at_sequence at_offset].
  destruct (env_fence (hdr_envelope h)) eqn:Hfe.
  - split_and!; [by intros [|i] m|cbn; lia|unfold BLOCK_SIZE in *; lia|lia|done].
  - destruct F7 as [F7 _]. destruct (de_mutations _ Hd Hfe) as [_ Hl]. pose proof (de_count _ Hd) as Hc.
    split_and!; [|unfold carried; rewrite length_fmap; lia|unfold BLOCK_SIZE in *; lia|lia|done].
    intros i m Hm. unfold carried in Hm. rewrite list_lookup_fmap in Hm.
    destruct (Header_descriptors h !! i) as [d|] eqn:Hi; [|done]. injection Hm as <-. cbn.
    destruct (Hq i d Hi) as [-> _]. lia.
Qed.

Lemma frame_above `{Crc32} base image seg file p h :
  bytes_ok file → frame_ok base image seg file p h → env_fence (hdr_envelope h) = false →
  above base (frame_mutations file (p, h)) =
    if decide (env_last (hdr_envelope h) ≤ base) then [] else carried file (at_offset p) h.
Proof.
  intros Hb Hf Hfe. destruct (frame_numbered _ _ _ _ _ _ Hb Hf) as (Hq & Hl & _ & Hfirst). specialize (Hfirst Hfe).
  pose proof (fr_payload _ _ _ _ _ _ Hf Hfe) as Hp. cbn [next_place at_sequence] in Hl. rewrite Hfe in Hl.
  assert (Hall : Forall (λ m, at_sequence p < d_sequence m.1 ≤ env_last (hdr_envelope h)) (frame_mutations file (p, h))).
  { apply Forall_lookup. intros i m Hi. rewrite (Hq i m Hi). apply lookup_lt_Some in Hi. lia. }
  assert (Heq : frame_mutations file (p, h) = carried file (at_offset p) h).
  { unfold frame_mutations. cbn [fst snd]. by rewrite Hfe. }
  destruct (decide _).
  - apply above_none. eapply Forall_impl; [exact Hall|]. cbn. lia.
  - rewrite above_all; [done|]. eapply Forall_impl; [exact Hall|]. cbn. lia.
Qed.

Lemma frames_numbered `{Crc32} base image seg file p l p' :
  bytes_ok file → frames base image seg file p l p' →
  (∀ i m, frames_mutations file l !! i = Some m → d_sequence m.1 = at_sequence p + 1 + Z.of_nat i) ∧
  at_sequence p' = at_sequence p + Z.of_nat (length (frames_mutations file l)).
Proof.
  intros Hb Hf. unfold frames_mutations.
  induction Hf as [p|p h l p' Ho _ [I1 I2]]; [split; [by intros [|i] m|cbn; lia]|].
  destruct (frame_numbered _ _ _ _ _ _ Hb Ho) as (Hq & Hl & _). cbn [fmap list_fmap concat].
  rewrite length_app. split; [|lia]. intros i m [Hi|[Hge Hi]]%lookup_app_Some; [by apply Hq|].
  rewrite (I1 _ _ Hi). lia.
Qed.

(** What a scan finds is numbered densely from where it starts. *)
Lemma scanned_numbered `{Crc32} base c prev q cds l q' rejected :
  clean cds → scanned base c prev q cds l q' rejected →
  (∀ i m, l !! i = Some m → d_sequence m.1 = q + 1 + Z.of_nat i) ∧ q' = q + Z.of_nat (length l).
Proof.
  intros Hc Hs. induction Hs as [prev q|prev q cd cds seg fs p l q' rejected Ho (_ & Hq & _) Hf Hp _ IH
    |prev q cd cds seg fs p Ho (_ & Hq & _) Hf _|prev q cd cds _].
  - split; [by intros [|i] m|cbn; lia].
  - apply Forall_cons in Hc as [Hb Hc]. destruct (IH Hc) as [I1 I2].
    destruct (frames_numbered _ _ _ _ _ _ _ Hb Hf) as [N1 N2]. cbn [segment_start at_sequence] in *.
    rewrite Hq in *. rewrite length_app. split; [|lia]. intros i m [Hi|[Hge Hi]]%lookup_app_Some; [by apply N1|].
    rewrite (I1 _ _ Hi). lia.
  - apply Forall_cons in Hc as [Hb _]. rewrite <- Hq. by apply (frames_numbered _ _ _ _ _ _ _ Hb Hf).
  - split; [by intros [|i] m|cbn; lia].
Qed.

(** ** Replay computes the frames *)

(** Where the log stands in its last segment. *)
Definition log_place (s : Log) : Place :=
  {| at_offset := lg_offset s; at_batch := lg_next_batch s; at_sequence := lg_published s |}.

(** A batch without payload only zeroes. *)
Lemma verify_empty `{Crc32} h :
  decoded h → env_payload_bytes (hdr_envelope h) = 0 → Header_verify_payload h [] = Ok tt.
Proof.
  intros Hd Hn. unfold Header_verify_payload. rewrite Hn. cbn [require bool_decide]. rewrite append_require_bind.
  split; [done|]. pose proof (de_data _ Hd) as Hf. rewrite Hn in Hf.
  induction Hf as [|d ds [H1 H2] Hf IH]; [done|]. cbn [verify_descriptors].
  destruct (d_kind d) eqn:K; [destruct (H2 eq_refl); lia|]. exact IH.
Qed.

Lemma replay_payload_spec `{Crc32} s h file :
  decoded h → lg_offset s + (BLOCK_SIZE + env_payload_bytes (hdr_envelope h)) ≤ blen file →
  replay_payload s h file =
    Ok (is_ok (Header_verify_payload h
      (slice (lg_offset s + BLOCK_SIZE) (env_payload_bytes (hdr_envelope h)) file))).
Proof.
  intros Hd Hl. unfold replay_payload. case_decide as Hz.
  - rewrite Hz. unfold slice. rewrite Z2Nat.inj_0, take_0. by rewrite verify_empty.
  - unfold read_bytes. by rewrite decide_True by lia.
Qed.

Record advanced (s s' : Log) : Prop := {
  ad_config : lg_config s' = lg_config s;
  ad_segments : lg_segments s' = lg_segments s;
  ad_offset : lg_offset s ≤ lg_offset s';
}.

Lemma replay_step_sound `{Crc32} base seg file s l s' :
  bytes_ok file → replayable s → replay_step seg file base s l s' →
  ∃ h, frame_ok base (cf_image_bytes (lg_config s)) seg file (log_place s) h ∧
    log_place s' = next_place (log_place s) h ∧
    l = above base (frame_mutations file (log_place s, h)) ∧ replayable s' ∧ advanced s s' ∧
    ∀ disk l0, disk !! sh_number seg = Some file → holds disk s l0 → holds disk s' (l0 ++ l).
Proof.
  intros Hb [R1 R2 R3 R4 R5 R6] Hs. destruct Hs as [h ix published l Hl Hd Hfo Hn Hc].
  pose proof (replay_step_decoded _ _ _ Hb Hd) as Hde. pose proof (de_payload _ Hde) as Hp.
  pose proof Hfo as (F1 & F2 & F3 & F4 & F5 & F6 & F7)%Header_follows_spec.
  pose proof (eq_refl : BLOCK_SIZE = 4096) as HB.
  assert (Hfr : frame_ok base (cf_image_bytes (lg_config s)) seg file (log_place s) h).
  { split; cbn [log_place at_offset at_batch at_sequence]; [done|done|done|done|]. intros Hfe.
    destruct Hc as [(_ & _ & Hc)|(_ & C2 & _ & _ & C5 & _)]; [rewrite Hfe in Hc; left; apply Hc|right].
    split; [done|]. rewrite replay_payload_spec in C5 by (done || lia). injection C5 as C5.
    by destruct (Header_verify_payload _ _) as [[]| |]. }
  destruct (frame_numbered _ _ _ _ _ _ Hb Hfr) as (_ & _ & _ & Hfirst). exists h. split; [done|].
  assert (Hgoal : published = at_sequence (next_place (log_place s) h) ∧
    l = above base (frame_mutations file (log_place s, h)) ∧ lg_published s ≤ published ∧
    wf (ix_map ix) ∧ ix_limit ix = ix_limit (lg_index s) ∧
    ∀ disk l0, disk !! sh_number seg = Some file → holds disk s l0 →
      ∀ x, resolve disk (view (ix_map ix) x) = contents (l0 ++ l) x).
  { cbn [next_place at_sequence log_place]. destruct (env_fence (hdr_envelope h)) eqn:Hfe.
    - destruct Hc as [(-> & -> & ->)|(C1 & _)]; [|done]. unfold frame_mutations. cbn [fst snd]. rewrite Hfe.
      split_and!; try done; try lia. intros disk l0 _ Hh x. rewrite app_nil_r. apply Hh.
    - rewrite (frame_above _ _ _ _ _ _ Hb Hfr Hfe). cbn [log_place at_offset].
      destruct (de_mutations _ Hde Hfe) as [M1 M2]. pose proof (de_nonempty _ Hde Hfe). specialize (Hfirst eq_refl).
      cbn [log_place at_sequence] in Hfirst.
      destruct Hc as [(-> & -> & Hc & ->)|(_ & C2 & C3 & C4 & C5 & C6 & -> & ->)].
      + rewrite decide_True by done. split_and!; try done; try lia. intros disk l0 _ Hh x. rewrite app_nil_r. apply Hh.
      + rewrite decide_False by lia. pose proof (de_count _ Hde) as Hcnt.
        destruct (publish_descriptors_spec (sh_number seg) (lg_offset s) (Header_descriptors h) (lg_index s) R1
          (decoded_lengths _ Hde) ltac:(rewrite R2; lia) ltac:(lia)) as (ix' & E & W & L & M & V).
        rewrite C6 in E. injection E as <-. split_and!; try done; try lia.
        intros disk l0 Hf Hh x. rewrite V, contents_app, <- (carried_fst file (lg_offset s)), overlay_resolve.
        * apply apply_all_ext. apply Hh.
        * eapply carried_stored; [done|done|lia|lia]. }
  destruct Hgoal as (-> & -> & G3 & G4 & G5 & G6). split; [done|]. split; [done|].
  split; [split; advance; try done; [congruence|lia|lia|lia]|].
  split; [split; advance; [done|done|lia]|]. intros disk l0 Hf Hh x. advance. by apply G6.
Qed.

(** The rest of one round behind its checks. *)
Lemma replay_one_false `{Crc32} base seg file s s' :
  Log_replay_one s seg file base = Ok (s', false) → s' = s.
Proof.
  unfold Log_replay_one. case_decide; [by intros [= <-]|].
  intros (b & _ & E)%result_bind_ok. destruct (Header_decode _ _) as [h|e|]; [|by injection E as <-|done].
  cbv zeta in E. destruct (Header_follows _ _ _ _ _ _); cbn [negb] in E; [|by injection E as <-].
  destruct (env_fence _); [by apply result_bind_ok in E as (? & _ & E)|].
  destruct (bool_decide _ && _); [done|]. case_decide; [by apply result_bind_ok in E as (? & _ & E)|].
  case_decide; [done|]. apply result_bind_ok in E as (intact & _ & E).
  destruct intact; cbn [negb] in E; [|by injection E as <-].
  apply result_bind_ok in E as (? & _ & E). by apply result_bind_ok in E as (? & _ & E).
Qed.

Lemma replay_one_not_Panic `{Crc32} base seg file s :
  bytes_ok file → replayable s → Log_replay_one s seg file base ≠ Panic.
Proof.
  intros Hb [R1 R2 R3 R4 R5 R6]. unfold Log_replay_one. case_decide as Hl; [done|].
  assert (Hrd : read_bytes file (lg_offset s) BLOCK_SIZE = Ok (slice (lg_offset s) BLOCK_SIZE file)).
  { apply read_bytes_ok. split; [lia|done]. }
  rewrite Hrd, bind_Ok. destruct (Header_decode _ _) as [h|e|] eqn:Hd; [|done|by apply Header_decode_not_Panic in Hd].
  cbv zeta. pose proof (replay_step_decoded _ _ _ Hb Hd) as Hde.
  destruct (Header_follows _ _ _ _ _ _) eqn:Hfo; cbn [negb]; [|done].
  apply Header_follows_spec in Hfo as (_ & _ & F3 & F4 & _ & _ & F7).
  assert (Hfin : ∀ ix p, (next ← ok_or (Error LogExhausted "") (checked_add 64 (lg_next_batch s) 1);
    Ok (Log_advance s ix p (BLOCK_SIZE + env_payload_bytes (hdr_envelope h)) next, true)) ≠ Panic).
  { intros ix p. apply bind_not_Panic; [by destruct (checked_add _ _ _)|done]. }
  destruct (env_fence _) eqn:Hfe; [apply Hfin|]. destruct (bool_decide _ && _); [done|].
  case_decide; [apply Hfin|]. case_decide as Hcap; [done|].
  rewrite replay_payload_spec, bind_Ok by (done || lia). destruct (is_ok _); cbn [negb]; [|done].
  destruct (publish_descriptors_spec (sh_number seg) (lg_offset s) (Header_descriptors h) (lg_index s) R1
    (decoded_lengths _ Hde)) as (ix' & -> & _); [rewrite R2, (de_count _ Hde); lia|lia|].
  rewrite bind_Ok. apply Hfin.
Qed.

(** One round of the replay: it takes the batch that stands here, or there is
    none, or it gives up for want of intervals or at a batch [D] splits. *)
Lemma replay_one_cases `{Crc32} base seg file s :
  bytes_ok file → replayable s → lg_offset s < blen file →
  (∃ e, Log_replay_one s seg file base = Err e) ∨
  (∃ l s', Log_replay_one s seg file base = Ok (s', true) ∧ replay_step seg file base s l s') ∨
  (Log_replay_one s seg file base = Ok (s, false) ∧
   torn base (cf_image_bytes (lg_config s)) seg file (log_place s)).
Proof.
  intros Hb Hr Hlt. destruct (Log_replay_one s seg file base) as [[s' []]|e|] eqn:E; [| |by left; eauto|].
  - right. left. pose proof E as [l Hl]%replay_one_step. eauto.
  - right. right.
    assert (Hno : ∀ h, ¬ frame_ok base (cf_image_bytes (lg_config s)) seg file (log_place s) h).
    { intros h [H1 H2 H3 H4 H5]. cbn [log_place at_offset at_batch at_sequence] in *.
      pose proof (replay_step_decoded _ _ _ Hb H2) as Hde. pose proof (de_payload _ Hde) as Hp.
      pose proof H3 as (_ & _ & F3 & F4 & _)%Header_follows_spec. revert E. unfold Log_replay_one.
      rewrite decide_False by lia. rewrite (proj2 (read_bytes_ok _ _ _ _) (conj H1 eq_refl)), bind_Ok, H2.
      cbv zeta. rewrite H3. cbn [negb]. destruct Hr as [R1 R2 R3 R4 R5 R6]. rewrite checked_add_fits by lia.
      destruct (env_fence (hdr_envelope h)) eqn:Hfe; [done|].
      destruct (bool_decide (env_first _ ≤ base) && _) eqn:Hsp; [done|].
      destruct (decide (env_last _ ≤ base)) as [|Hla]; [done|]. destruct (decide _) as [|Hcap]; [done|].
      destruct (H5 eq_refl) as [H6|[_ H6]]; [lia|]. rewrite replay_payload_spec, H6, bind_Ok by (done || lia).
      cbn [negb is_ok]. by destruct (publish_descriptors _ _ _ _). }
    apply replay_one_false in E as ->. split; [done|]. split; [done|exact Hno].
  - by apply replay_one_not_Panic in E.
Qed.

Lemma replay_loop_sound `{Crc32} base seg file fuel : ∀ s,
  bytes_ok file → replayable s → enough file s fuel → lg_offset s ≤ blen file →
  (∃ e, replay_loop fuel s seg file base = Err e) ∨
  ∃ s' rejected fs, replay_loop fuel s seg file base = Ok (s', rejected) ∧
    frames base (cf_image_bytes (lg_config s)) seg file (log_place s) fs (log_place s') ∧
    (if (rejected : bool) then torn base (cf_image_bytes (lg_config s)) seg file (log_place s')
     else lg_offset s' = blen file) ∧
    replayable s' ∧ advanced s s' ∧
    ∀ disk l0, disk !! sh_number seg = Some file → holds disk s l0 →
      holds disk s' (l0 ++ above base (frames_mutations file fs)).
Proof.
  induction fuel as [|fuel IH]; intros s Hb Hr He Hle; cbn [replay_loop]; (destruct (decide (blen file ≤ lg_offset s));
    [right; exists s, false, []; split; [done|]; split; [constructor|]; split; [lia|]; split; [done|];
     split; [split; (done || lia)|]; intros; by rewrite app_nil_r|]).
  { unfold enough in He. lia. }
  destruct (replay_one_cases base seg file s Hb Hr) as [[e E]|[(l & s1 & E & Hs)|[E Ht]]]; [lia|..]; rewrite E.
  - left. by exists e.
  - rewrite bind_Ok. cbn [negb].
    destruct (replay_step_sound _ _ _ _ _ _ Hb Hr Hs) as (h & G1 & G2 & -> & G4 & [A1 A2 A3] & G6).
    destruct (frame_numbered _ _ _ _ _ _ Hb G1) as (_ & _ & Hoff & _). rewrite <- G2 in Hoff.
    cbn [log_place at_offset] in Hoff. rewrite <- A1 in G1 |- *.
    destruct (IH s1 Hb G4) as [[e L]|(s' & r & fs & L1 & L2 & L3 & L4 & [B1 B2 B3] & L6)];
      [unfold enough in *; lia|lia|left; by exists e|right].
    exists s', r, ((log_place s, h) :: fs). split; [done|]. split; [constructor; [done|by rewrite <- G2]|].
    split; [done|]. split; [done|]. split; [split; [congruence|congruence|lia]|]. intros disk l0 Hd Hh.
    unfold frames_mutations. cbn [fmap list_fmap concat]. rewrite above_app, app_assoc. auto.
  - right. exists s, true, []. split; [done|]. split; [constructor|]. split; [done|]. split; [done|].
    split; [split; (done || lia)|]. intros. by rewrite app_nil_r.
Qed.

(** ** Inspection computes the scan *)

Definition shift_rejected (index : nat) (r : option (nat * Z)) : option (nat * Z) :=
  (λ r, ((index + r.1)%nat, r.2)) <$> r.

Lemma shift_rejected_0 r : shift_rejected 0 r = r.
Proof. by destruct r as [[]|]. Qed.

Lemma shift_rejected_S index r : shift_rejected (S index) r = shift_rejected index ((λ r, (S r.1, r.2)) <$> r).
Proof. destruct r as [[n z]|]; [|done]. cbn. by rewrite <- plus_n_Sm. Qed.

Lemma Segment_open_short `{Crc32} number file e :
  Segment_open number file = Err e → error_kind e = UnexpectedEof → blen file < BLOCK_SIZE.
Proof.
  unfold Segment_open, read_bytes. case_decide; [|lia]. rewrite bind_Ok.
  destruct (SegmentHeader_decode _); cbn [mbind result_mbind result_bind]; [|by intros [= <-]|done].
  case_decide; [by intros [= <-]|]. unfold Pins_new. case_decide; [by intros [= <-]|done].
Qed.

Lemma chains_continues s c h : chains s c h = true → continues c (last (lg_segments s)) (lg_published s) h.
Proof.
  unfold chains, continues. rewrite !andb_true_iff, !bool_decide_eq_true. intros [[H1 H2] H3].
  split_and!; [done|done|]. destruct (last _); [by apply bool_decide_eq_true in H3|done].
Qed.

Lemma inspect_candidates_scanned `{Crc32} c allocated base cds : ∀ s index,
  clean cds → replayable s → lg_config s = c →
  (∃ e, inspect_candidates s c allocated base index cds = Err e) ∨
  ∃ s' l rejected,
    inspect_candidates s c allocated base index cds = Ok (s', shift_rejected index rejected) ∧
    scanned base c (last (lg_segments s)) (lg_published s) cds l (lg_published s') rejected ∧
    ∀ disk l0, on_disk disk cds → holds disk s l0 → holds disk s' (l0 ++ above base l).
Proof.
  induction cds as [|cd cds IH]; intros s index Hc Hr Hcfg; cbn [inspect_candidates].
  { right. exists s, [], None. split; [done|]. split; [constructor|]. intros. by rewrite app_nil_r. }
  apply Forall_cons in Hc as [Hb Hc].
  destruct (Segment_open _ _) as [seg|e|] eqn:Ho; [| |by apply Segment_open_not_Panic in Ho].
  2:{ case_decide as He; [right|left; by exists e]. exists s, [], (Some (O, 0)).
      split; [cbn; by rewrite Nat.add_0_r|]. split; [constructor; by eapply Segment_open_short|].
      intros. by rewrite app_nil_r. }
  destruct (chains s c seg) eqn:Hch; cbn [negb]; [|left; by eexists]. apply chains_continues in Hch. cbv zeta.
  pose proof (attach_replayable s seg (allocated (cd_number cd)) Hr) as Hra.
  destruct (Segment_open_ok _ _ _ Ho) as (Hnum & Hlen & _). pose proof Hch as (_ & Hpre & _).
  destruct (replay_loop_sound base seg (cd_file cd) (replay_fuel (cd_file cd)) _ Hb Hra)
    as [[e L]|(s1 & r & fs & L1 & L2 & L3 & L4 & [B1 B2 B3] & L6)];
    [apply enough_fuel; cbn; unfold BLOCK_SIZE; lia|cbn; lia|rewrite L; left; by exists e|].
  assert (Hplace : log_place (attach_segment s seg (allocated (cd_number cd))) = segment_start seg).
  { unfold log_place, segment_start. cbn. by rewrite Hpre. }
  rewrite Hplace in L2. cbn [attach_segment lg_config lg_segments] in L2, L3, B1, B2. rewrite Hcfg in *.
  rewrite L1, bind_Ok. destruct r.
  - right. exists s1, (frames_mutations (cd_file cd) fs), (Some (O, lg_offset s1)).
    split; [cbn; by rewrite Nat.add_0_r|].
    split; [exact (scanned_torn base c _ _ cd cds seg fs (log_place s1) Ho Hch L2 L3)|].
    intros disk l0 [Hd _]%Forall_cons Hh. apply L6; [by rewrite Hnum|exact Hh].
  - destruct (IH s1 (S index) Hc L4 B1) as [[e E]|(s' & l & rej & E1 & E2 & E3)]; [left; by exists e|right].
    exists s', (frames_mutations (cd_file cd) fs ++ l), ((λ r, (S r.1, r.2)) <$> rej).
    rewrite B2, last_snoc in E2. split; [by rewrite E1, shift_rejected_S|].
    split; [exact (scanned_whole base c _ _ cd cds seg fs (log_place s1) l _ rej Ho Hch L2 L3 E2)|].
    intros disk l0 [Hd Hds]%Forall_cons Hh. rewrite above_app, app_assoc. apply E3; [done|].
    apply L6; [by rewrite Hnum|exact Hh].
Qed.

(** ** Properties *)

(** C32: inspection ends on every input and finds exactly what the files hold.
    Whatever bytes the segment files hold and whatever prefix [D] the manifest
    covers, inspection returns a log or an error and never trips an assertion
    or runs past its bound.  The log it returns is that of the scan: the
    batches framed in the files one after another from the first segment's
    header on, up to the first place where none stands, which is where repair
    will cut.  Its published sequence is at least [D] and counts the mutations
    of these batches, which are numbered densely by their descriptors; and
    every byte read through its index is the one that the mutations behind [D],
    each with the payload bytes its descriptor names, wrote last. *)
Theorem inspection_total `{Crc32} lim highest allocated base cds :
  clean cds → lm_intervals lim < 2 ^ 64 →
  match Log_inspect lim highest allocated base cds with
  | Ok r => ∃ first rest h l,
      cds = first :: rest ∧ Segment_open (cd_number first) (cd_file first) = Ok h ∧
      scanned base (header_config h) None (sh_preceding_sequence h) cds l
        (lg_published (rc_log r)) (rc_rejected r) ∧
      rc_candidates r = cds ∧ lg_issued (rc_log r) = lg_published (rc_log r) ∧
      0 ≤ sh_preceding_sequence h ≤ base ∧ base ≤ lg_published (rc_log r) ∧
      lg_published (rc_log r) = sh_preceding_sequence h + Z.of_nat (length l) ∧
      (∀ i m, l !! i = Some m → d_sequence m.1 = sh_preceding_sequence h + 1 + Z.of_nat i) ∧
      ∀ disk x, on_disk disk cds →
        resolve disk (view (ix_map (lg_index (rc_log r))) x) = contents (above base l) x
  | Err _ => True
  | Panic => False
  end.
Proof.
  intros Hc Hlim. unfold Log_inspect. destruct cds as [|first rest]; [done|].
  destruct (Segment_open _ _) as [h|e|] eqn:Ho; [|done|by apply Segment_open_not_Panic in Ho].
  rewrite bind_Ok. case_decide as Hlow; [done|]. cbv zeta. case_decide as Hcap; [done|].
  assert (Hp : 0 ≤ sh_preceding_sequence h).
  { apply Forall_cons in Hc as [Hb _]. by apply (Segment_open_preceding _ _ _ Hb Ho). }
  destruct (inspect_candidates_scanned (header_config h) allocated base (first :: rest)
    (Log_empty (header_config h) lim highest (sh_preceding_sequence h)) 0 Hc)
    as [[e E]|(s & l & rej & E & Hs & Hh)]; [by apply empty_replayable|done|..];
    unfold header_config in E; rewrite E; [done|].
  rewrite bind_Ok. case_decide as Hpre; [done|]. rewrite shift_rejected_0.
  cbn [Log_empty lg_segments last lg_published] in Hs. destruct (scanned_numbered _ _ _ _ _ _ _ _ Hc Hs) as [N1 N2].
  exists first, rest, h, l. cbn [rc_log rc_rejected rc_candidates set_issued lg_published lg_issued lg_index].
  split_and!; try done; try lia.
  intros disk x Hd. exact (Hh disk [] Hd (holds_empty _ _ _ _ _) x).
Qed.

Definition sample_written : list Candidate :=
  [{| cd_number := 1;
      cd_file := write_at sample_file (fl_start sample_flight) (fl_bytes sample_flight) ++ replicate 50 7 |}].

Lemma sample_written_clean : clean sample_written.
Proof. constructor; [|done]. decide_now. Qed.

Lemma sample_written_inspects :
  match @Log_inspect crc_sum sample_log_limits 1 (λ _, 1064960) 0 sample_written with
  | Ok r => bool_decide (lg_published (rc_log r) = 1)
  | _ => false
  end = true.
Proof. vm_compute. reflexivity. Qed.

(** One batch of one zeroed range and a torn end. *)
Lemma inspection_total_witness :
  ∃ r l, @Log_inspect crc_sum sample_log_limits 1 (λ _, 1064960) 0 sample_written = Ok r ∧ length l = 1%nat ∧
    (∀ i m, l !! i = Some m → d_sequence m.1 = 1 + Z.of_nat i) ∧
    ∀ disk x, on_disk disk sample_written →
      resolve disk (view (ix_map (lg_index (rc_log r))) x) = contents (above 0 l) x.
Proof.
  pose proof (@inspection_total crc_sum sample_log_limits 1 (λ _, 1064960) 0 sample_written
    sample_written_clean ltac:(decide_now)) as Ht.
  pose proof sample_written_inspects as Hi.
  destruct (@Log_inspect crc_sum sample_log_limits 1 (λ _, 1064960) 0 sample_written) as [r|e|]; [|done..].
  apply bool_decide_eq_true in Hi. destruct Ht as (first & rest & h & l & _ & _ & _ & _ & _ & Hb & Hb' & Hl & Hq & Hx).
  assert (sh_preceding_sequence h = 0) as Hz by lia.
  exists r, l. split; [reflexivity|]. rewrite Hz in *. split; [lia|]. split; [|exact Hx].
  intros i m Hm. rewrite (Hq i m Hm). lia.
Defined.
