(* ===== verification/AppendRead.v ===== *)
(** * Reads of the staging log

    Models [crates/cas/core/src/append/read.rs] and
    [crates/cas/core/src/append/segment/pins.rs]: a read captures an immutable
    plan of payload ranges while it pins the batches they are in, and executes
    it later against the segment files, filling the blocks the log does not
    stage from the manifest.  [Log]'s [base] view is an argument of
    [Log_read_plan], as is the answer of the metadata budget.  The theorems
    show that a plan captured in any reachable state of [AppendWorld] and run
    in any later state returns the image as it was published at capture, and
    that dropping the plan gives every pin back. *)
From S2P Require Import Prelude Bytes AppendFormat AppendPacking BTreeMap IntervalIndex AppendLog AppendWorld AppendRecovery AppendDurable ManifestFormat ManifestTree.

(** ** Pins *)

Definition Pins_at (p : Pins) (block : Z) : result Z := expect (pn_batches p !! Z.to_nat block).

Definition Pins_acquire (p : Pins) (block : Z) : result Pins :=
  old ← Pins_at p block;
  if negb (bool_decide (old < u32_max)) then Panic
  else if negb (bool_decide (pn_readers p < u32_max)) then Panic
  else Ok {| pn_batches := <[Z.to_nat block := old + 1]> (pn_batches p); pn_readers := pn_readers p + 1 |}.

Definition Pins_release (p : Pins) (block : Z) : result Pins :=
  old ← Pins_at p block;
  if negb (bool_decide (old ≠ 0)) then Panic
  else if negb (bool_decide (pn_readers p ≠ 0)) then Panic
  else Ok {| pn_batches := <[Z.to_nat block := old - 1]> (pn_batches p); pn_readers := pn_readers p - 1 |}.

(** A background scan holds the whole segment through the header block. *)
Definition Pins_hold_scan (p : Pins) : result Pins := Pins_acquire p 0.
Definition Pins_release_scan (p : Pins) : result Pins := Pins_release p 0.
Definition Pins_scan_held (p : Pins) : result bool := n ← Pins_at p 0; Ok (bool_decide (n ≠ 0)).

(** The pins of all segments, by number. *)
Abbreviation PinTable := (gmap Z Pins) (only parsing).

Definition acquire (pins : PinTable) (p : Payload) : result PinTable :=
  t ← expect (pins !! pl_segment p);
  t ← Pins_acquire t (pl_batch_block p);
  Ok (<[pl_segment p := t]> pins).

Definition release (pins : PinTable) (p : Payload) : result PinTable :=
  t ← expect (pins !! pl_segment p);
  t ← Pins_release t (pl_batch_block p);
  Ok (<[pl_segment p := t]> pins).

(** ** Plans *)

(** [Range]s are pairs of their bounds. *)
Record ReadRange : Type := {
  rr_payload : Payload;
  rr_source : Z * Z;
  rr_destination : Z * Z;
}.

(** A view of the manifest: the reader of its file, the COMMIT and its end. *)
Record View : Type := { vw_source : PageReader; vw_commit : Commit; vw_end : Z }.

Record ReadPlan : Type := {
  rp_offset : Z;
  rp_bytes : Z;
  rp_ranges : list ReadRange;
  rp_covered : list Z;
  rp_base : option View;
}.

Definition ReadRange_direct_to_response (r : ReadRange) : bool :=
  bool_decide (rr_source r = (0, pl_bytes (rr_payload r))).

Definition verify_read_crc `{Crc32} (b : bytes) (crc : Z) : result unit :=
  if decide (crc_hash b ≠ crc) then other "corrupt staging payload" else Ok tt.

Definition ReadRange_verify `{Crc32} (r : ReadRange) (input : bytes) : result unit :=
  if decide (blen input ≠ pl_bytes (rr_payload r)) then other "short staging payload read"
  else verify_read_crc input (pl_crc (rr_payload r)).

(** [covered[block / 64] & (1 << (block % 64)) != 0]. *)
Definition ReadPlan_staged (p : ReadPlan) (block : Z) : result bool :=
  if negb (bool_decide (block < rp_bytes p / BLOCK_SIZE)) then Panic
  else
    word ← expect (rp_covered p !! Z.to_nat (block / 64));
    Ok (bool_decide (Z.land word (Z.shiftl 1 (block mod 64)) ≠ 0)).

(** [covered[block / 64] |= 1 << (block % 64)]. *)
Definition cover (block : Z) (covered : list Z) : result (list Z) :=
  word ← expect (covered !! Z.to_nat (block / 64));
  Ok (<[Z.to_nat (block / 64) := Z.lor word (Z.shiftl 1 (block mod 64))]> covered).

(** The body of the loop over the overlapping mappings. *)
Definition plan_entry (offset last : Z) (e : Z * Mapping) (st : PinTable * list ReadRange * list Z)
    : result (PinTable * list ReadRange * list Z) :=
  let '(pins, ranges, covered) := st in
  let '(begin, mapping) := e in
  let first := Z.max begin offset in
  let final := Z.min (mp_end mapping) last in
  let lo := (first - offset) / BLOCK_SIZE in
  covered ← try_fold cover (seqZ lo ((final - offset) / BLOCK_SIZE - lo)) covered;
  match mp_source mapping with
  | None => Ok (pins, ranges, covered)
  | Some (payload, payload_offset) =>
      let skip := payload_offset + first - begin in
      if negb (bool_decide (skip + final - first ≤ pl_bytes payload)) then Panic
      else if negb (bool_decide (pl_sequence payload = mp_sequence mapping)) then Panic
      else
        pins ← acquire pins payload;
        Ok (pins, ranges ++ [{| rr_payload := payload; rr_source := (skip, skip + final - first);
                                rr_destination := (first - offset, final - offset) |}], covered)
  end.

(** [Log::read_plan]; [room] is whether the metadata budget grants the ranges. *)
Definition Log_read_plan (s : Log) (pins : PinTable) (base : option View) (room : bool)
    (offset bytes boundary : Z) : result (PinTable * ReadPlan) :=
  Log_healthy s;;
  last ← ok_or (Error LogExhausted "") (checked_add 64 offset bytes);
  if bool_decide (bytes = 0) || negb (is_multiple_of offset BLOCK_SIZE)
     || negb (is_multiple_of bytes BLOCK_SIZE) || bool_decide (cf_image_bytes (lg_config s) < last)
     || bool_decide (MAX_REQUEST_BYTES < bytes)
  then Err (Error FormatError "read range")
  else if decide (lg_published s < boundary) then Err (Error LogPending "")
  else if negb room then out_of_memory "read plan metadata exhausted"
  else
    '(pins, ranges, covered) ←
      try_fold (plan_entry offset last) (Index_overlapping (lg_index s) offset last)
        (pins, [], replicate 4 0);
    if negb (bool_decide (Z.of_nat (length ranges) ≤ bytes / BLOCK_SIZE)) then Panic
    else Ok (pins, {| rp_offset := offset; rp_bytes := bytes; rp_ranges := ranges;
                      rp_covered := covered; rp_base := base |}).

(** Dropping a plan drops its ranges, each of which releases its pin. *)
Definition ReadPlan_drop (pins : PinTable) (p : ReadPlan) : result PinTable :=
  try_fold (λ r pins, release pins (rr_payload r)) (rp_ranges p) pins.

(** ** Execution *)

(** Whether [lo..hi] is a range of a slice of [n] elements. *)
Definition in_slice (r : Z * Z) (n : Z) : bool :=
  bool_decide (0 ≤ r.1 ≤ r.2) && bool_decide (r.2 ≤ n).

Definition fill_range `{Crc32} (disk : gmap Z bytes) (r : ReadRange) (buffer : bytes) : result bytes :=
  let destination := rr_destination r in
  let length := destination.2 - destination.1 in
  if negb (in_slice destination (blen buffer)) then Panic
  else
    file ← expect (disk !! pl_segment (rr_payload r));
    if ReadRange_direct_to_response r then
      input ← read_bytes file (pl_offset (rr_payload r)) length;
      ReadRange_verify r input;;
      Ok (splice destination.1 input buffer)
    else
      input ← read_bytes file (pl_offset (rr_payload r)) (pl_bytes (rr_payload r));
      ReadRange_verify r input;;
      let source := rr_source r in
      if negb (in_slice source (blen input) && bool_decide (source.2 - source.1 = length)) then Panic
      else Ok (splice destination.1 (slice source.1 length input) buffer).

(** [(0..blocks).any(|block| !self.staged(block))]. *)
Fixpoint any_unstaged (p : ReadPlan) (blocks : list Z) : result bool :=
  match blocks with
  | [] => Ok false
  | block :: blocks =>
      staged ← ReadPlan_staged p block;
      if (staged : bool) then any_unstaged p blocks else Ok true
  end.

(** [load(hash, destination)] fills a block of the buffer. *)
Definition fill_block `{Crc32} (load : bytes → bytes → result bytes) (p : ReadPlan) (base : View)
    (block : Z) (buffer : bytes) : result bytes :=
  staged ← ReadPlan_staged p block;
  if (staged : bool) then Ok buffer
  else
    hash ← Tree_get (vw_source base) (vw_commit base) (vw_end base) (rp_offset p / BLOCK_SIZE + block);
    match hash with
    | None => Ok buffer
    | Some hash =>
        data ← load hash (slice (block * BLOCK_SIZE) BLOCK_SIZE buffer);
        Ok (splice (block * BLOCK_SIZE) data buffer)
    end.

Definition ReadPlan_read_with `{Crc32} (disk : gmap Z bytes) (load : bytes → bytes → result bytes)
    (p : ReadPlan) (buffer : bytes) : result bytes :=
  if decide (blen buffer ≠ rp_bytes p) then other "read response length differs from plan"
  else
    buffer ← try_fold (fill_range disk) (rp_ranges p) (zeros (blen buffer));
    let blocks := seqZ 0 (rp_bytes p / BLOCK_SIZE) in
    match rp_base p with
    | None => Ok buffer
    | Some base =>
        any ← any_unstaged p blocks;
        if (any : bool) then
          Tree_new (vw_commit base) (vw_end base);;
          try_fold (fill_block load p base) blocks buffer
        else Ok buffer
    end.

Definition ReadPlan_read_into `{Crc32} (disk : gmap Z bytes) (p : ReadPlan) (buffer : bytes) : result bytes :=
  ReadPlan_read_with disk (λ _ _, other "manifest chunk requires a verified store loader") p buffer.

(** ** Payloads stay what they are *)

Lemma settled_write w cur v off src file w' :
  settled w cur v → wd_disk w !! sh_number cur = Some file →
  blen file ≤ blen (write_at file off src) →
  wd_disk w' = <[sh_number cur := write_at file off src]> (wd_disk w) →
  (∀ x, busy (wd_flights w') x → busy (wd_flights w) x) → settled w' cur v.
Proof.
  intros Hs Hf Hlen Hd Hb. unfold settled in *. destruct v as [[q [[p k]|]]|]; [|done..].
  destruct Hs as (z & S1 & S2 & S3). rewrite Hd. destruct (decide (pl_segment p = sh_number cur)) as [E|E].
  - rewrite E, Hf in S1. injection S1 as <-. exists (write_at file off src). rewrite E, lookup_insert_eq.
    split; [done|]. split; [lia|]. intros _ Hx%Hb. by apply S3.
  - exists z. rewrite lookup_insert_ne by done. by intuition.
Qed.

(** The bytes of a settled payload do not change. *)
Lemma settled_step `{Crc32} c lim w w' cur file cur' v :
  world_inv c lim w cur file → world_step w w' → last (lg_segments (wd_log w')) = Some cur' →
  settled w cur v → settled w' cur' v ∧ resolve (wd_disk w') v = resolve (wd_disk w) v.
Proof.
  intros W Hs Hl Hv. pose proof W as [W1 W2 W3 W4 W5 W6 W7 W8 W9 W10 W11 W12 W13 W14 W15 W16 W17].
  destruct W5 as [W5a W5b].
  destruct Hs as [w cap b l log sub Hcap Hbytes Hp E | w pre f post file0 Hf Hu Hd
    | w pre f post log Hf Hu E | w log sub E | w pre f post log durable Hf Hu E | w kind log r E
    | w r log Hr E | w r number allocated new log res Hr Hn Hhi Hfit Ha Henc E | w]; cbn [wd_log wd_disk] in *.
  - destruct (prepare_append_ok _ _ _ _ _ E W3) as (batch & Hseal & Hck & -> & ->).
    cbn in Hl. rewrite W3 in Hl. injection Hl as <-. split; [|done].
    eapply settled_flights; [exact Hv|done|exact W5a|]. cbn.
    intros y Hy (g & [Hg|Hg]%elem_of_app & F1 & F2); [by exists g|].
    apply list_elem_of_singleton in Hg as ->. unfold fl_start in F2. cbn in F2. lia.
  - rewrite W3 in Hl. injection Hl as <-.
    assert (Hok : flight_ok w cur file f) by (apply (proj1 (Forall_forall _ _) W11); rewrite Hf; set_solver).
    rewrite (fo_segment _ _ _ _ Hok) in Hd |- *. assert (file0 = file) as -> by congruence.
    assert (Hin : BLOCK_SIZE ≤ fl_start f ∧ fl_end f ≤ lg_offset (wd_log w)).
    { apply (ordered_elem _ _ _ _ W12). rewrite Hf. set_solver. }
    unfold fl_end, BLOCK_SIZE in Hin. split.
    + eapply settled_write; [exact Hv|exact W5a| |done|]; [rewrite blen_write_at; lia|].
      cbn. rewrite Hf. apply busy_marked.
    + eapply resolve_write; [exact Hv|done|lia|]. intros y Hy. rewrite Hf in Hy.
      destruct (decide (y < fl_start f)); [by left|]. right.
      destruct (decide (fl_start f + blen (fl_bytes f) ≤ y)); [done|]. destruct Hy. exists f.
      split; [set_solver|]. split; [done|]. unfold fl_end. lia.
  - destruct (publish_append_ok _ _ _ _ E W3) as (h & ix & _ & _ & _ & _ & _ & ->). cbn in Hl.
    rewrite W3 in Hl. injection Hl as <-. split; [|done].
    eapply settled_flights; [exact Hv|done|exact W5a|]. intros z _. rewrite Hf. apply busy_removed.
  - destruct (prepare_fence_ok _ _ _ _ E W3) as (C1 & C2 & C3 & C4 & batch & Hf & -> & ->). cbn in Hl.
    rewrite W3 in Hl. injection Hl as <-. split; [|done].
    eapply settled_flights; [exact Hv|done|exact W5a|]. cbn.
    intros y Hy (g & [Hg|Hg]%elem_of_app & F1 & F2); [by exists g|].
    apply list_elem_of_singleton in Hg as ->. unfold fl_start in F2. cbn in F2. lia.
  - apply complete_sync_ok in E as (_ & _ & _ & _ & _ & ->). cbn in Hl. rewrite W3 in Hl. injection Hl as <-. split; [|done].
    eapply settled_flights; [exact Hv|done|exact W5a|]. intros z _. rewrite Hf. apply busy_removed.
  - destruct (prepare_rotation_ok _ _ _ _ _ E W3) as (-> & _). cbn in Hl. rewrite W3 in Hl. by injection Hl as <-.
  - unfold Log_cancel_rotation in E. apply result_bind_ok in E as ([] & _ & E).
    apply result_bind_ok in E as ([] & _ & E). injection E as <-. cbn in Hl. rewrite W3 in Hl. by injection Hl as <-.
  - assert (Hres : resolve (<[number:=new]> (wd_disk w)) v = resolve (wd_disk w) v).
    { unfold resolve, settled in *. destruct v as [[q [[p k]|]]|]; [|done..]. destruct Hv as (z & Hz & _).
      rewrite lookup_insert_ne; [done|]. intros ->. congruence. }
    split; [|exact Hres].
    unfold settled in *. cbn [wd_disk wd_flights]. destruct v as [[q [[p k]|]]|]; [|done..].
    destruct Hv as (z & Hz & H2 & H3). exists z.
    rewrite lookup_insert_ne by (intros ->; congruence). split; [done|]. split; [done|].
    destruct (is_ok res) eqn:Er; cycle 1.
    { destruct (install_failed _ _ _ _ E Er) as [-> | ->]; cbn in Hl; rewrite W3 in Hl; by injection Hl as <-. }
    destruct res as [[]| |]; [|done..]. apply install_ok in E as (_ & -> & _). cbn in Hl.
    rewrite last_snoc in Hl. injection Hl as <-. cbn. intros Hp. congruence.
  - cbn in Hl. rewrite W3 in Hl. by injection Hl as <-.
Qed.

(** A payload all of whose bytes are settled, with its checksum. *)
Record intact `{Crc32} (c : Config) (w : World) (cur : SegmentHeader) (p : Payload) : Prop := {
  in_range : 0 ≤ pl_offset p ∧ 0 < pl_bytes p;
  in_block : 0 ≤ pl_batch_block p < cf_segment_bytes c / BLOCK_SIZE;
  in_settled : ∀ k, 0 ≤ k < pl_bytes p → settled w cur (Some (0, Some (p, k)));
  in_file : ∃ file, wd_disk w !! pl_segment p = Some file ∧ pl_offset p + pl_bytes p ≤ blen file ∧
    crc_hash (slice (pl_offset p) (pl_bytes p) file) = pl_crc p;
}.

(** The bytes of a payload. *)
Definition payload_data (disk : gmap Z bytes) (p : Payload) : option bytes :=
  slice (pl_offset p) (pl_bytes p) <$> disk !! pl_segment p.

Lemma intact_step `{Crc32} c lim w w' cur file cur' p :
  world_inv c lim w cur file → world_step w w' → last (lg_segments (wd_log w')) = Some cur' →
  intact c w cur p → intact c w' cur' p ∧ payload_data (wd_disk w') p = payload_data (wd_disk w) p.
Proof.
  intros W Hs Hl [[I1 I1'] I2 I3 (z & Z1 & Z2 & Z3)].
  assert (Hstep : ∀ k, 0 ≤ k < pl_bytes p → settled w' cur' (Some (0, Some (p, k))) ∧
    resolve (wd_disk w') (Some (0, Some (p, k))) = resolve (wd_disk w) (Some (0, Some (p, k)))).
  { intros k Hk. eapply settled_step; [exact W|exact Hs|exact Hl|]. by apply I3. }
  destruct (Hstep (pl_bytes p - 1) ltac:(lia)) as [(z' & Y1 & Y2 & _) _].
  assert (Heq : slice (pl_offset p) (pl_bytes p) z' = slice (pl_offset p) (pl_bytes p) z).
  { apply slice_ext. intros i Hi. destruct (Hstep (Z.of_nat i - pl_offset p) ltac:(lia)) as [_ R].
    cbn in R. rewrite Y1, Z1 in R. by replace (Z.to_nat (pl_offset p + (Z.of_nat i - pl_offset p))) with i in R by lia. }
  split; [split; [done|done|by intros k Hk; apply Hstep|]|].
  - exists z'. rewrite Heq. split_and!; [done|lia|done].
  - unfold payload_data. rewrite Y1, Z1. cbn. by rewrite Heq.
Qed.

Lemma reachable_later `{Crc32} c lim w w' : world_reachable c lim w → rtc world_step w w' → world_reachable c lim w'.
Proof. intros Hw Hs. induction Hs as [|w w1 w2 H1 _ IH]; [done|]. apply IH. by eapply world_next. Qed.

Lemma intact_later `{Crc32} c lim w w' cur p :
  world_reachable c lim w → rtc world_step w w' → last (lg_segments (wd_log w)) = Some cur →
  intact c w cur p → ∃ cur', intact c w' cur' p ∧ payload_data (wd_disk w') p = payload_data (wd_disk w) p.
Proof.
  intros Hw Hs. revert cur. induction Hs as [w|w w1 w2 H1 _ IH]; intros cur Hl Hi; [by exists cur|].
  destruct (world_reachable_inv _ _ _ Hw) as (cur0 & file & W).
  assert (Hw1 : world_reachable c lim w1) by (by eapply world_next).
  destruct (world_reachable_inv _ _ _ Hw1) as (cur1 & file1 & W1).
  rewrite (wi_segments _ _ _ _ _ W) in Hl. injection Hl as ->.
  destruct (intact_step _ _ _ _ _ _ cur1 _ W H1 (wi_segments _ _ _ _ _ W1) Hi) as [Hi1 E1].
  destruct (IH Hw1 cur1 (wi_segments _ _ _ _ _ W1) Hi1) as (cur' & Hi2 & E2). exists cur'. split; [done|]. congruence.
Qed.

(** ** The boundaries of the index *)

Definition on_blocks (e : Z * Mapping) : Prop := e.1 mod BLOCK_SIZE = 0 ∧ mp_end e.2 mod BLOCK_SIZE = 0.

Lemma insert_on_blocks k mp m :
  on_blocks (k, mp) → Forall on_blocks m → Forall on_blocks (bt_insert k mp m).
Proof.
  rewrite !Forall_forall. intros Hk Hm e [->|He]%bt_insert_elem; [done|by apply Hm].
Qed.

Lemma remove_on_blocks k m : Forall on_blocks m → Forall on_blocks (bt_remove k m).
Proof. rewrite !Forall_forall. intros Hm e He%bt_remove_elem. by apply Hm. Qed.

Lemma split_on_blocks start last m :
  bt_sorted m → start mod BLOCK_SIZE = 0 → last mod BLOCK_SIZE = 0 → Forall on_blocks m →
  Forall on_blocks (split_predecessor start last m).
Proof.
  intros Hs H1 H2 Hm. unfold split_predecessor. destruct (bt_last_below start m) as [[k old]|] eqn:E; [|done].
  apply bt_last_below_Some in E as (Hg & _); [|done]. apply bt_get_elem in Hg; [|done].
  destruct (proj1 (Forall_forall _ _) Hm _ Hg) as [B1 B2]. cbn in B1, B2.
  repeat case_decide; try done; repeat apply insert_on_blocks; done.
Qed.

Lemma remove_covered_on_blocks start last fuel : ∀ m,
  bt_sorted m → last mod BLOCK_SIZE = 0 → Forall on_blocks m → Forall on_blocks (remove_covered fuel start last m).
Proof.
  induction fuel as [|fuel IH]; intros m Hs H2 Hm; cbn [remove_covered]; [done|].
  destruct (bt_first_in start last m) as [[k old]|] eqn:E; [|done].
  apply bt_first_in_Some in E as (Hg & _); [|done]. apply bt_get_elem in Hg; [|done].
  destruct (proj1 (Forall_forall _ _) Hm _ Hg) as [B1 B2]. cbn in B1, B2.
  apply IH; [by apply remove_one_sorted|done|]. unfold remove_one. pose proof (remove_on_blocks k m Hm).
  case_decide; [|done]. by apply insert_on_blocks.
Qed.

Lemma replace_on_blocks ix start mapping ix' :
  wf (ix_map ix) → start mod BLOCK_SIZE = 0 → mp_end mapping mod BLOCK_SIZE = 0 → Forall on_blocks (ix_map ix) →
  Index_replace ix start mapping = Ok ix' → Forall on_blocks (ix_map ix').
Proof.
  intros Hw H1 H2 Hm E. unfold Index_replace in E. destruct (is_some_and _ _); [|done]. injection E as <-. cbn.
  apply insert_on_blocks; [done|]. pose proof (wf_sorted _ Hw) as Hs.
  apply remove_covered_on_blocks; [by apply split_predecessor_sorted|done|]. by apply split_on_blocks.
Qed.

Lemma publish_on_blocks segment offset ds : ∀ ix ix',
  wf (ix_map ix) → Forall (λ d, 0 < d_length d ∧ d_offset d mod BLOCK_SIZE = 0 ∧ d_length d mod BLOCK_SIZE = 0) ds →
  Index_len ix + 2 * Z.of_nat (length ds) ≤ ix_limit ix → ix_limit ix < 2 ^ 64 → Forall on_blocks (ix_map ix) →
  publish_descriptors segment offset ds ix = Ok ix' → Forall on_blocks (ix_map ix').
Proof.
  induction ds as [|d ds IH]; intros ix ix' Hw Hd Hl Hm Hb E; cbn [publish_descriptors] in E; [by injection E as <-|].
  apply Forall_cons in Hd as [(D1 & D2 & D3) Hd]. cbn [length] in Hl.
  destruct (Index_replace_spec ix (d_offset d) (descriptor_mapping segment offset d))
    as (ix1 & E1 & W1 & L1 & M1 & _); [done|cbn; lia|lia|done|].
  rewrite E1 in E. cbn [mbind result_mbind result_bind] in E.
  apply (IH ix1 ix'); [done|done|rewrite M1; lia|by rewrite M1| |done].
  eapply replace_on_blocks; [exact Hw|exact D2| |exact Hb|exact E1]. cbn.
  rewrite Z.add_mod by done. by rewrite D2, D3.
Qed.

(** ** What a reachable state guarantees its readers *)

Record readable `{Crc32} (c : Config) (w : World) (cur : SegmentHeader) : Prop := {
  rd_payloads : ∀ x q p k, view (ix_map (lg_index (wd_log w))) x = Some (q, Some (p, k)) →
    intact c w cur p ∧ 0 ≤ k < pl_bytes p ∧ pl_sequence p = q;
  rd_blocks : Forall on_blocks (ix_map (lg_index (wd_log w)));
}.

Lemma queued_bytes_ok number capacity l : ∀ offset batch offset' batch' f,
  queued number capacity offset batch l offset' batch' → f ∈ l → bytes_ok (fl_bytes f).
Proof.
  induction l as [|g l IH]; intros offset batch offset' batch' f Hq Hf; [by apply elem_of_nil in Hf|].
  cbn [queued] in Hq. destruct Hq as (_ & _ & _ & Hb & _ & Hq). apply elem_of_cons in Hf as [->|Hf]; [done|by eapply IH].
Qed.

(** The descriptors of an append in flight, checked and in place. *)
Lemma flight_descriptors `{Crc32} c lim w cur file f h :
  world_reachable c lim w → world_inv c lim w cur file → f ∈ wd_flights w → is_fence f = false →
  Header_decode (slice 0 BLOCK_SIZE (fl_bytes f)) (cf_image_bytes (lg_config (wd_log w))) = Ok h →
  Forall (λ d, 0 < d_length d ∧ d_offset d mod BLOCK_SIZE = 0 ∧ d_length d mod BLOCK_SIZE = 0 ∧
    (d_kind d = Write → d_payload_length d = d_length d ∧ 0 ≤ d_payload_offset d ∧
     BLOCK_SIZE + d_payload_offset d + d_length d ≤ blen (fl_bytes f) ∧
     crc_hash (slice (BLOCK_SIZE + d_payload_offset d) (d_length d) (fl_bytes f)) = d_payload_crc d))
    (Header_descriptors h) ∧
  Z.of_nat (length (Header_descriptors h)) ≤ lg_pending_descriptors (wd_log w).
Proof.
  intros Hw W Hin Hfe Hd. destruct (layout_reachable c lim (λ _, 0) 0 w Hw)
    as (cur' & file' & cl & s0 & sd & s & lc & ld & l & _ & L).
  pose proof (queued_bytes_ok _ _ _ _ _ _ _ _ (ly_queue _ _ _ _ _ _ _ _ _ _ _ _ _ _ L) Hin) as Hbytes.
  pose proof (Header_decode_facts _ _ _ Hd (bytes_ok_slice _ _ _ Hbytes)) as (_ & _ & F3 & _).
  pose proof (Header_decode_decoded _ _ _ (bytes_ok_slice _ _ _ Hbytes) Hd) as De.
  destruct (fo_append _ _ _ _ (proj1 (Forall_forall _ _) (wi_flights _ _ _ _ _ W) f Hin) Hfe) as (Hb & _).
  destruct (bo_decode _ _ _ Hb) as (h' & Hh' & B1 & B2 & B3). unfold fl_bytes in *. rewrite Hd in Hh'. injection Hh' as <-.
  pose proof (bo_len _ _ _ Hb) as Hlen. split; cycle 1.
  { rewrite (de_count _ De), B1, (bo_count _ _ _ Hb). destruct (wi_pending _ _ _ _ _ W) as [_ ->].
    apply list_elem_of_lookup in Hin as [i Hi].
    apply (sumZ_fmap_lookup (λ f, Z.of_nat (length (fl_mutations f))) _ i f); [|done]. apply Forall_forall. intros. lia. }
  unfold Header_verify_payload in B3. apply result_bind_ok in B3 as ([] & _ & B3).
  assert (Hcrc : Forall (λ d, d_kind d = Write → crc_hash (slice (d_payload_offset d) (d_payload_length d)
    (slice BLOCK_SIZE (env_payload_bytes (bt_envelope (sb_batch (fl_sub f)))) (Batch_bytes (sb_batch (fl_sub f)))))
    = d_payload_crc d) (Header_descriptors h)).
  { revert B3. generalize (Header_descriptors h). clear. intros ds. induction ds as [|d ds IH]; cbn; [constructor|].
    intros ([] & E1 & E2)%result_bind_ok. constructor; [|by apply IH]. intros K. rewrite K in E1.
    unfold AppendFormat.require in E1. case_bool_decide; done. }
  apply Forall_lookup. intros i d Hi. destruct (F3 i d Hi) as (_ & Hv & _).
  destruct (Forall_lookup_1 _ _ _ _ (de_data _ De) Hi) as [L1 L2].
  unfold valid_range in Hv. rewrite !andb_true_iff, !is_multiple_of_spec in Hv.
  split; [done|]. split; [tauto|]. split; [tauto|]. intros K. destruct (L2 K) as (P1 & P2 & P3). rewrite B1 in P3.
  split; [done|]. split; [done|]. split; [lia|].
  rewrite <- (Forall_lookup_1 _ _ _ _ Hcrc Hi K), slice_slice by (unfold BLOCK_SIZE; lia). by rewrite P1.
Qed.

Lemma overlay_payload segment offset ds : ∀ v x q p k,
  overlay segment offset ds v x = Some (q, Some (p, k)) →
  v x = Some (q, Some (p, k)) ∨ ∃ d, d ∈ ds ∧ d_kind d = Write ∧ q = d_sequence d ∧ k = x - d_offset d ∧
    d_offset d ≤ x < d_offset d + d_length d ∧ p = {| pl_segment := segment;
      pl_offset := offset + BLOCK_SIZE + d_payload_offset d; pl_bytes := d_payload_length d;
      pl_sequence := d_sequence d; pl_crc := d_payload_crc d; pl_batch_block := (offset / BLOCK_SIZE) mod 2 ^ 32 |}.
Proof.
  induction ds as [|d ds IH]; intros v x q p k E; cbn [overlay] in E; [by left|].
  apply IH in E as [E|(d' & Hd' & R)]; [|right; exists d'; split; [by right|done]].
  case_decide as Hx; [|by left]. right. exists d. split; [by left|].
  unfold descriptor_mapping, shift in E. cbn in E. destruct (d_kind d); cbn in E; [|done].
  injection E as <- <- <-. split_and!; (done || lia).
Qed.

Lemma published_intact `{Crc32} c lim w cur file pre f post log d :
  world_reachable c lim w → world_inv c lim w cur file → wd_flights w = pre ++ f :: post → fl_written f = true →
  0 < d_length d → d_payload_length d = d_length d → 0 ≤ d_payload_offset d →
  BLOCK_SIZE + d_payload_offset d + d_length d ≤ blen (fl_bytes f) →
  crc_hash (slice (BLOCK_SIZE + d_payload_offset d) (d_length d) (fl_bytes f)) = d_payload_crc d →
  intact c {| wd_log := log; wd_disk := wd_disk w; wd_flights := pre ++ post; wd_issued := wd_issued w;
      wd_rotation := wd_rotation w; wd_synced := wd_synced w |} cur
    {| pl_segment := sh_number cur; pl_offset := fl_start f + BLOCK_SIZE + d_payload_offset d;
       pl_bytes := d_payload_length d; pl_sequence := d_sequence d; pl_crc := d_payload_crc d;
       pl_batch_block := (fl_start f / BLOCK_SIZE) mod 2 ^ 32 |}.
Proof.
  intros Hr W Hf Hwr D1 D2 D3 D4 D5. pose proof (reachable_pins _ _ _ Hr) as Hpins. pose proof W as [W1 W2 W3 W4 W5 W6 W7 W8 W9 W10 W11 W12 W13 W14 W15 W16 W17].
  destruct W5 as [W5a W5b], W10 as (W10a & W10b & W10c).
  assert (Hok : flight_ok w cur file f) by (apply (proj1 (Forall_forall _ _) W11); rewrite Hf; set_solver).
  destruct (fo_written _ _ _ _ Hok Hwr) as [Hend Hsl]. rewrite Hf in W12.
  assert (Hin : BLOCK_SIZE ≤ fl_start f ∧ fl_end f ≤ lg_offset (wd_log w)).
  { apply (ordered_elem _ _ _ _ W12). set_solver. }
  unfold fl_end, BLOCK_SIZE in *. split; cbn [pl_segment pl_offset pl_bytes pl_crc pl_batch_block wd_disk].
  - lia.
  - unfold BLOCK_SIZE in *. assert (0 ≤ fl_start f / 4096) by (apply Z.div_pos; lia).
    assert (fl_start f / 4096 < cf_segment_bytes c / 4096).
    { apply Z.lt_le_trans with ((fl_start f + 4096) / 4096); [|apply Z.div_le_mono; lia].
      replace (fl_start f + 4096) with (fl_start f + 1 * 4096) by lia. rewrite Z.div_add by lia. lia. }
    rewrite Z.mod_small by lia. done.
  - intros k Hk. cbn. exists file. split; [done|]. split; [lia|]. intros _ (g & Hg & G1 & G2).
    pose proof (ordered_disjoint _ _ _ _ _ _ W12 Hg) as Hdis. unfold fl_end in *. lia.
  - exists file. split; [done|]. split; [lia|]. rewrite <- D5, <- Hsl, D2, slice_slice by lia. do 2 f_equal. lia.
Qed.

Lemma publish_readable `{Crc32} c lim w cur file pre f post log :
  world_reachable c lim w → world_inv c lim w cur file → readable c w cur →
  wd_flights w = pre ++ f :: post → fl_written f = true → Log_publish_append (wd_log w) (fl_sub f) = Ok log →
  readable c {| wd_log := log; wd_disk := wd_disk w; wd_flights := pre ++ post; wd_issued := wd_issued w;
    wd_rotation := wd_rotation w; wd_synced := wd_synced w |} cur.
Proof.
  intros Hw W [R1 R2] Hf Hwr E. pose proof W as [W1 W2 W3 W4 W5 W6 W7 W8 W9 W10 W11 W12 W13 W14 W15 W16 W17].
  assert (Hin : f ∈ wd_flights w) by (rewrite Hf; set_solver).
  pose proof (proj1 (Forall_forall _ _) W11 f Hin) as Hok.
  destruct (publish_append_ok _ _ _ _ E W3) as (h & ix & D1 & D2 & D3 & D4 & D5 & Hlog).
  assert (Hfen : is_fence f = false).
  { destruct (is_fence f) eqn:Hfe; [|done]. destruct (fo_fence _ _ _ _ Hok Hfe) as (_ & _ & Hdec).
    destruct (Hdec (cf_image_bytes (lg_config (wd_log w)))) as (h' & Hh' & He').
    unfold fl_bytes in Hh'. rewrite D1 in Hh'. injection Hh' as <-. unfold is_fence in Hfe. congruence. }
  destruct (flight_descriptors _ _ _ _ _ _ h Hw W Hin Hfen D1) as [Hds Hcount].
  destruct W9 as (W9a & W9b & W9c), W2 as [_ W2].
  destruct (publish_descriptors_spec (sb_segment (fl_sub f)) (sb_offset (fl_sub f)) (Header_descriptors h)
    (lg_index (wd_log w)) W9a) as (ix' & E' & _ & _ & _ & I4); [|lia|lia|].
  { eapply Forall_impl; [exact Hds|]. tauto. }
  rewrite D4 in E'. injection E' as <-. subst log. split; cbn [wd_log lg_index Log_set_published].
  - intros x q p k Hx. rewrite I4 in Hx. apply overlay_payload in Hx as [Hx|(d & Hd & K & -> & -> & Hr & ->)].
    + destruct (R1 _ _ _ _ Hx) as ([I1 I2 I3 I5] & Hk & Hq). split; [|done]. split; [done|done| |done].
      intros j Hj. eapply settled_flights; [by apply I3|done|apply W5|]. intros z _. rewrite Hf. apply busy_removed.
    + destruct (proj1 (Forall_forall _ _) Hds d Hd) as (L1 & _ & _ & L2). destruct (L2 K) as (P1 & P2 & P3 & P4).
      rewrite (fo_segment _ _ _ _ Hok). split; [|split; [cbn; lia|done]].
      by apply (published_intact c lim w cur file pre f post _ d Hw W Hf Hwr).
  - apply (publish_on_blocks _ _ _ _ _ W9a) in D4; [done| |lia|lia|exact R2]. eapply Forall_impl; [exact Hds|]. tauto.
Qed.

(** Every other step keeps the index. *)
Lemma step_keeps_index `{Crc32} c lim w w' cur file :
  world_inv c lim w cur file → world_step w w' →
  lg_index (wd_log w') = lg_index (wd_log w) ∨
  ∃ pre f post log, wd_flights w = pre ++ f :: post ∧ fl_written f = true ∧
    Log_publish_append (wd_log w) (fl_sub f) = Ok log ∧
    w' = {| wd_log := log; wd_disk := wd_disk w; wd_flights := pre ++ post; wd_issued := wd_issued w;
      wd_rotation := wd_rotation w; wd_synced := wd_synced w |}.
Proof.
  intros W Hs. pose proof (wi_segments _ _ _ _ _ W) as W3.
  destruct Hs as [w cap b l log sub Hcap Hbytes Hp E | w pre f post file0 Hf Hu Hd
    | w pre f post log Hf Hu E | w log sub E | w pre f post log durable Hf Hu E | w kind log r E
    | w r log Hr E | w r number allocated new log res Hr Hn Hhi Hfit Ha Henc E | w]; cbn [wd_log].
  - destruct (prepare_append_ok _ _ _ _ _ E W3) as (batch & _ & _ & _ & ->). by left.
  - by left.
  - right. by eexists _, _, _, _.
  - destruct (prepare_fence_ok _ _ _ _ E W3) as (_ & _ & _ & _ & batch & _ & _ & ->). by left.
  - apply complete_sync_ok in E as (_ & _ & _ & _ & _ & ->). by left.
  - destruct (prepare_rotation_ok _ _ _ _ _ E W3) as (-> & _). by left.
  - unfold Log_cancel_rotation in E. apply result_bind_ok in E as ([] & _ & E).
    apply result_bind_ok in E as ([] & _ & E). injection E as <-. by left.
  - left. destruct (is_ok res) eqn:Er; [|destruct (install_failed _ _ _ _ E Er) as [-> | ->]; done].
    destruct res as [[]| |]; [|done..]. by apply install_ok in E as (_ & -> & _).
  - by left.
Qed.

Lemma readable_reachable `{Crc32} c lim w cur :
  world_reachable c lim w → last (lg_segments (wd_log w)) = Some cur → readable c w cur.
Proof.
  intros Hw. revert cur. induction Hw as [number allocated file log H1 H2 H3 H4 H5|w w' Hw IH Hs]; intros cur' Hl.
  - unfold Log_create in H5. apply result_bind_ok in H5 as ([] & _ & H5).
    apply result_bind_ok in H5 as (? & _ & H5). case_decide; [done|].
    injection H5 as <-. by split.
  - destruct (world_reachable_inv _ _ _ Hw) as (cur & file & W). specialize (IH cur (wi_segments _ _ _ _ _ W)).
    destruct (step_keeps_index _ _ _ _ _ _ W Hs) as [Hix|(pre & f & post & log & Hf & Hwr & E & ->)].
    + destruct IH as [R1 R2]. split; rewrite Hix; [|done]. intros x q p k Hx.
      destruct (R1 _ _ _ _ Hx) as (Hi & R). split; [|done]. by eapply intact_step.
    + pose proof (publish_inv _ _ _ _ _ (wd_synced w) _ _ _ _ W Hf Hwr E) as W'.
      rewrite (wi_segments _ _ _ _ _ W') in Hl. injection Hl as <-. by eapply publish_readable.
Qed.

(** ** The coverage bitmap *)

Definition bit_of (covered : list Z) (block : Z) : bool :=
  match covered !! Z.to_nat (block / 64) with
  | Some word => Z.testbit word (block mod 64)
  | None => false
  end.

Lemma land_bit word j : 0 ≤ j → bool_decide (Z.land word (Z.shiftl 1 j) ≠ 0) = Z.testbit word j.
Proof.
  intros Hj. assert (Hb : ∀ i, 0 ≤ i → Z.testbit (Z.shiftl 1 j) i = bool_decide (i = j)).
  { intros i Hi. rewrite Z.shiftl_spec by done. destruct (decide (i = j)) as [->|Hne].
    - by rewrite Z.sub_diag, bool_decide_true.
    - rewrite bool_decide_false by done. destruct (decide (i < j)); [by apply Z.testbit_neg_r; lia|].
      apply (Z.bits_above_log2 1); cbn; lia. }
  destruct (Z.testbit word j) eqn:E.
  - apply bool_decide_eq_true. intros H0. apply (f_equal (λ z, Z.testbit z j)) in H0.
    rewrite Z.land_spec, Hb, E, bool_decide_true, Z.bits_0 in H0 by done. done.
  - apply bool_decide_eq_false. intros H0. apply H0. apply Z.bits_inj'. intros i Hi.
    rewrite Z.land_spec, Hb, Z.bits_0 by done. case_bool_decide; [subst; by rewrite E|by rewrite andb_false_r].
Qed.

Lemma lor_bit word j i : 0 ≤ j → 0 ≤ i →
  Z.testbit (Z.lor word (Z.shiftl 1 j)) i = Z.testbit word i || bool_decide (i = j).
Proof.
  intros Hj Hi. rewrite Z.lor_spec, Z.shiftl_spec by done. f_equal. destruct (decide (i = j)) as [->|Hne].
  - by rewrite Z.sub_diag, bool_decide_true.
  - rewrite bool_decide_false by done. destruct (decide (i < j)); [by apply Z.testbit_neg_r; lia|].
    apply (Z.bits_above_log2 1); cbn; lia.
Qed.

Lemma staged_bit p block :
  0 ≤ block < rp_bytes p / BLOCK_SIZE → rp_bytes p / BLOCK_SIZE ≤ 64 * Z.of_nat (length (rp_covered p)) →
  ReadPlan_staged p block = Ok (bit_of (rp_covered p) block).
Proof.
  intros Hb Hl. unfold ReadPlan_staged, bit_of. rewrite bool_decide_true by lia. cbn [negb].
  destruct (lookup_lt_is_Some_2 (rp_covered p) (Z.to_nat (block / 64))) as [word ->].
  { assert (block / 64 < Z.of_nat (length (rp_covered p))) by (apply Z.div_lt_upper_bound; lia).
    pose proof (Z.div_pos block 64). lia. }
  cbn. rewrite land_bit; [done|]. apply Z.mod_pos_bound. lia.
Qed.

Lemma cover_spec block covered :
  0 ≤ block < 64 * Z.of_nat (length covered) →
  ∃ covered', cover block covered = Ok covered' ∧ length covered' = length covered ∧
    ∀ i, 0 ≤ i → bit_of covered' i = bit_of covered i || bool_decide (i = block).
Proof.
  intros Hb. unfold cover.
  assert (Hlt : (Z.to_nat (block / 64) < length covered)%nat).
  { assert (block / 64 < Z.of_nat (length covered)) by (apply Z.div_lt_upper_bound; lia).
    pose proof (Z.div_pos block 64). lia. }
  destruct (lookup_lt_is_Some_2 covered _ Hlt) as [word Hw]. rewrite Hw. cbn.
  eexists. split; [done|]. split; [apply length_insert|]. intros i Hi. unfold bit_of.
  pose proof (Z.mod_pos_bound block 64 ltac:(lia)). pose proof (Z.mod_pos_bound i 64 ltac:(lia)).
  pose proof (Z.div_mod i 64 ltac:(lia)) as Hdi. pose proof (Z.div_mod block 64 ltac:(lia)) as Hdb.
  pose proof (Z.div_pos i 64 Hi ltac:(lia)). pose proof (Z.div_pos block 64 ltac:(lia) ltac:(lia)).
  destruct (decide (i / 64 = block / 64)) as [E|E].
  - rewrite E, list_lookup_insert_eq by done. rewrite Hw, lor_bit by lia. f_equal.
    apply bool_decide_ext. rewrite Hdi, Hdb at 2. lia.
  - rewrite list_lookup_insert_ne by lia. rewrite (bool_decide_false (i = block)), orb_false_r by congruence. done.
Qed.

Lemma cover_range lo n : ∀ covered,
  0 ≤ lo → 0 ≤ n → lo + n ≤ 64 * Z.of_nat (length covered) →
  ∃ covered', try_fold cover (seqZ lo n) covered = Ok covered' ∧ length covered' = length covered ∧
    ∀ i, 0 ≤ i → bit_of covered' i = bit_of covered i || bool_decide (lo ≤ i < lo + n).
Proof.
  intros covered Hlo Hn. revert lo covered Hlo. pattern n. apply natlike_ind; [| |done]; clear n Hn.
  - intros lo covered Hlo Hl. rewrite seqZ_nil by lia. cbn. exists covered. split; [done|]. split; [done|].
    intros i Hi. rewrite bool_decide_false by lia. by rewrite orb_false_r.
  - intros n Hn IH lo covered Hlo Hl. rewrite seqZ_cons by lia. cbn [try_fold].
    destruct (cover_spec lo covered) as (c1 & -> & L1 & B1); [lia|]. rewrite bind_Ok.
    rewrite Z.pred_succ. destruct (IH (Z.succ lo) c1) as (c2 & -> & L2 & B2); [lia|lia|].
    exists c2. split; [done|]. split; [congruence|]. intros i Hi. rewrite B2, B1 by done.
    rewrite <- orb_assoc. f_equal. repeat case_bool_decide; cbn; (done || lia).
Qed.

Lemma wf_cons_inv e m : wf (e :: m) → wf m ∧ ∀ f, f ∈ m → mp_end e.2 ≤ f.1 ∧ f.1 < mp_end f.2.
Proof.
  intros [H1 H2 H3]. destruct e as [k0 m0]. pose proof H1 as [Hs1 Hs2]. cbn [fst snd].
  assert (Hget : ∀ k mp, bt_get k m = Some mp → bt_get k ((k0, m0) :: m) = Some mp).
  { intros k mp Hk. apply bt_get_elem; [done|]. right. by apply bt_get_elem. }
  split; [split; [done|by eauto|by eauto]|].
  intros [k mp] Hf. pose proof (Hs1 _ _ Hf) as Hk.
  assert (Hgf : bt_get k m = Some mp) by (by apply bt_get_elem). split; [|by apply (H2 k mp), Hget].
  apply (H3 k0 m0 k mp); [|by apply Hget|done]. apply bt_get_elem; [done|]. by left.
Qed.

Lemma wf_filter (P : Z * Mapping → Prop) `{∀ e, Decision (P e)} m : wf m → wf (filter P m).
Proof.
  intros [H1 H2 H3]. pose proof (bt_filter_sorted P m H1) as Hs.
  assert (Hget : ∀ k mp, bt_get k (filter P m) = Some mp → bt_get k m = Some mp).
  { intros k mp Hk. apply bt_get_elem in Hk; [|done]. apply bt_get_elem; [done|].
    by apply list_elem_of_filter in Hk as [_ Hk]. }
  split; [done|by eauto|by eauto].
Qed.

Lemma view_filter (P : Z * Mapping → Prop) `{∀ e, Decision (P e)} m x :
  (∀ e, e ∈ m → e.1 ≤ x < mp_end e.2 → P e) → view (filter P m) x = view m x.
Proof.
  intros HP. unfold view. cut (find_first (λ e, bool_decide (e.1 ≤ x < mp_end e.2)) (filter P m) =
    find_first (λ e, bool_decide (e.1 ≤ x < mp_end e.2)) m); [by intros ->|].
  induction m as [|e m IH]; [done|]. rewrite filter_cons. assert (IH' := IH ltac:(intros f Hf; apply HP; by right)).
  cbn [find_first]. case_decide as Hp; cbn [find_first]; [by rewrite IH'|].
  rewrite bool_decide_false; [done|]. intros Hx. apply Hp, HP; [left|done].
Qed.

(** ** Building a plan *)

Section plan.
Context (offset last : Z) (Hlt : offset < last).
Context (Hoff : offset mod BLOCK_SIZE = 0) (Hlast : last mod BLOCK_SIZE = 0).

(** What [overlapping] yields in a reachable state. *)
Record entry_ok (e : Z * Mapping) : Prop := {
  eo_blocks : on_blocks e;
  eo_nonempty : e.1 < mp_end e.2;
  eo_window : e.1 < last ∧ offset < mp_end e.2;
  eo_source : ∀ p k, mp_source e.2 = Some (p, k) →
    0 ≤ k ∧ k + (mp_end e.2 - e.1) ≤ pl_bytes p ∧ pl_sequence p = mp_sequence e.2;
}.

Definition entry_range (e : Z * Mapping) : list ReadRange :=
  let first := Z.max e.1 offset in
  let final := Z.min (mp_end e.2) last in
  match mp_source e.2 with
  | None => []
  | Some (p, k) => [{| rr_payload := p; rr_source := (k + first - e.1, k + first - e.1 + final - first);
                       rr_destination := (first - offset, final - offset) |}]
  end.

Lemma block_bounds e i :
  on_blocks e → e.1 < last → offset < mp_end e.2 → 0 ≤ i < (last - offset) / BLOCK_SIZE →
  ((Z.max e.1 offset - offset) / BLOCK_SIZE ≤ i < (Z.min (mp_end e.2) last - offset) / BLOCK_SIZE ↔
   e.1 ≤ offset + i * BLOCK_SIZE < mp_end e.2).
Proof.
  intros [B1 B2] H1 H2 Hi. unfold BLOCK_SIZE in *.
  apply Z.mod_divide in B1 as [a Ha], B2 as [b Hb], Hoff as [o Ho], Hlast as [t Ht]; [|done..].
  replace (Z.max e.1 offset - offset) with ((Z.max a o - o) * 4096) by lia.
  replace (Z.min (mp_end e.2) last - offset) with ((Z.min b t - o) * 4096) by lia.
  replace (last - offset) with ((t - o) * 4096) in Hi by lia. rewrite !Z.div_mul in * by done. lia.
Qed.

Lemma view_cons e m x :
  view (e :: m) x = if decide (e.1 ≤ x < mp_end e.2) then Some (mp_sequence e.2, shift (x - e.1) (mp_source e.2)) else view m x.
Proof.
  unfold view. cbn [find_first]. destruct (decide _) as [Hx|Hx].
  - rewrite bool_decide_true by done. by destruct e.
  - by rewrite bool_decide_false by done.
Qed.

Abbreviation acquire_all rs pins := (try_fold (λ r pins, acquire pins (rr_payload r)) rs pins).

Lemma plan_entry_spec e pins ranges covered :
  entry_ok e → (last - offset) / BLOCK_SIZE ≤ 64 * Z.of_nat (length covered) →
  ∃ covered', length covered' = length covered ∧
    (∀ i, 0 ≤ i < (last - offset) / BLOCK_SIZE →
       bit_of covered' i = bit_of covered i || bool_decide (e.1 ≤ offset + i * BLOCK_SIZE < mp_end e.2)) ∧
    plan_entry offset last e (pins, ranges, covered) =
      pins' ← acquire_all (entry_range e) pins; Ok (pins', ranges ++ entry_range e, covered').
Proof.
  intros [E1 E2 [E3 E3'] E4] Hc. destruct e as [k mp]. cbn [fst snd] in *. unfold plan_entry, entry_range.
  cbn [fst snd]. cbv zeta.
  set (lo := (Z.max k offset - offset) / BLOCK_SIZE). set (hi := (Z.min (mp_end mp) last - offset) / BLOCK_SIZE).
  assert (Hlo : 0 ≤ lo) by (apply Z.div_pos; unfold BLOCK_SIZE; lia).
  assert (Hhi : lo ≤ hi ≤ (last - offset) / BLOCK_SIZE) by (split; apply Z.div_le_mono; unfold BLOCK_SIZE; lia).
  destruct (cover_range lo (hi - lo) covered Hlo) as (c1 & -> & L1 & B1); [lia|lia|]. rewrite bind_Ok.
  exists c1. split; [done|]. split.
  - intros i Hi. rewrite B1 by lia. f_equal. apply bool_decide_ext. replace (lo + (hi - lo)) with hi by lia.
    apply (block_bounds (k, mp) i E1 E3 E3' Hi).
  - destruct (mp_source mp) as [[p o]|] eqn:Hsrc; [|by rewrite app_nil_r].
    destruct (E4 p o eq_refl) as (S1 & S2 & S3). rewrite !bool_decide_true by (lia || done). cbn [negb try_fold rr_payload].
    by destruct (acquire pins p).
Qed.

Lemma plan_fold es : ∀ pins ranges covered,
  Forall entry_ok es → (last - offset) / BLOCK_SIZE ≤ 64 * Z.of_nat (length covered) →
  ∃ covered', length covered' = length covered ∧
    (∀ i, 0 ≤ i < (last - offset) / BLOCK_SIZE →
       bit_of covered' i = bit_of covered i || bool_decide (is_Some (view es (offset + i * BLOCK_SIZE)))) ∧
    try_fold (plan_entry offset last) es (pins, ranges, covered) =
      pins' ← acquire_all (mjoin (entry_range <$> es)) pins;
      Ok (pins', ranges ++ mjoin (entry_range <$> es), covered').
Proof.
  induction es as [|e es IH]; intros pins ranges covered He Hc.
  { exists covered. split; [done|]. split.
    - intros i _. cbn. by rewrite orb_false_r.
    - cbn. by rewrite app_nil_r. }
  apply Forall_cons in He as [He1 He]. cbn [try_fold fmap list_fmap mjoin list_join].
  destruct (plan_entry_spec e pins ranges covered He1 Hc) as (c1 & L1 & B1 & ->). rewrite try_fold_app.
  assert (Hfin : ∀ c2, length c2 = length c1 → (∀ i, 0 ≤ i < (last - offset) / BLOCK_SIZE →
    bit_of c2 i = bit_of c1 i || bool_decide (is_Some (view es (offset + i * BLOCK_SIZE)))) →
    length c2 = length covered ∧ ∀ i, 0 ≤ i < (last - offset) / BLOCK_SIZE →
    bit_of c2 i = bit_of covered i || bool_decide (is_Some (view (e :: es) (offset + i * BLOCK_SIZE)))).
  { intros c2 L2 B2. split; [congruence|]. intros i Hi. rewrite B2, B1, view_cons by done.
    rewrite <- orb_assoc. f_equal. case_decide as Hx; [|by rewrite bool_decide_false by done].
    rewrite bool_decide_true by done. symmetry. apply bool_decide_eq_true. by eexists. }
  destruct (acquire_all (entry_range e) pins) as [pins1|er|]; cbn [mbind result_mbind result_bind].
  - destruct (IH pins1 (ranges ++ entry_range e) c1 He) as (c2 & L2 & B2 & ->); [by rewrite L1|].
    exists c2. destruct (Hfin c2 L2 B2). by rewrite <- app_assoc.
  - destruct (IH pins ranges c1 He) as (c2 & L2 & B2 & _); [by rewrite L1|]. exists c2. by destruct (Hfin c2 L2 B2).
  - destruct (IH pins ranges c1 He) as (c2 & L2 & B2 & _); [by rewrite L1|]. exists c2. by destruct (Hfin c2 L2 B2).
Qed.

(** Entries of whole blocks: no more than the blocks of the window. *)
Lemma entries_bound es : ∀ lo,
  Forall entry_ok es → wf es → lo mod BLOCK_SIZE = 0 → lo ≤ last →
  (∀ e, e ∈ es → lo < mp_end e.2) → (es ≠ [] → lo < last) → Z.of_nat (length es) * BLOCK_SIZE ≤ last - lo.
Proof.
  induction es as [|e es IH]; intros lo He Hw Hlo Hle Hin Hlol; [cbn; lia|]. specialize (Hlol ltac:(done)).
  apply Forall_cons in He as [[[E1 E1'] E2 [E3 E3'] _] He].
  pose proof (Hin e ltac:(left)) as He1.
  destruct (wf_cons_inv e es Hw) as [Hw' Hnext]. cbn [length]. unfold BLOCK_SIZE in *.
  assert (lo + 4096 ≤ mp_end e.2).
  { apply Z.mod_divide in Hlo as [a ->], E1' as [b Hb]; [|done..]. rewrite Hb in *. lia. }
  destruct (decide (mp_end e.2 ≤ last)) as [Hc|Hc].
  - pose proof (IH (mp_end e.2) He Hw' E1' Hc) as Hi. assert (Z.of_nat (length es) * 4096 ≤ last - mp_end e.2); [|lia].
    apply Hi; [intros f Hf; destruct (Hnext f Hf); lia|]. intros Hne. destruct es as [|f es]; [done|].
    destruct (Hnext f ltac:(left)). apply Forall_cons in He as [[_ _ [F _] _] _]. lia.
  - assert (es = []) as ->.
    { destruct es as [|f es]; [done|]. destruct (Hnext f ltac:(left)).
      apply Forall_cons in He as [[_ _ [F _] _] _]. lia. }
    cbn [length].
    apply Z.mod_divide in Hlo as [a ->], Hlast as [b Hb]; [|done..]. lia.
Qed.
End plan.

(** ** Executing a plan *)

Lemma lookup_splice off src b i :
  0 ≤ off → off + blen src ≤ blen b → 0 ≤ i →
  splice off src b !! Z.to_nat i =
  if decide (off ≤ i < off + blen src) then src !! Z.to_nat (i - off) else b !! Z.to_nat i.
Proof.
  intros H1 H2 H3. unfold splice, blen in *. case_decide as Hi.
  - rewrite list_lookup_inserts by lia. f_equal. lia.
  - destruct (decide (i < off)); [apply list_lookup_inserts_lt; lia|apply list_lookup_inserts_ge; lia].
Qed.

(** A payload that reads back with its checksum. *)
Definition served `{Crc32} (disk : gmap Z bytes) (p : Payload) : Prop :=
  ∃ file, disk !! pl_segment p = Some file ∧ 0 ≤ pl_offset p ∧ pl_offset p + pl_bytes p ≤ blen file ∧
    crc_hash (slice (pl_offset p) (pl_bytes p) file) = pl_crc p.

Lemma fill_range_spec `{Crc32} disk r buffer file :
  let p := rr_payload r in
  disk !! pl_segment p = Some file → 0 ≤ pl_offset p → pl_offset p + pl_bytes p ≤ blen file →
  crc_hash (slice (pl_offset p) (pl_bytes p) file) = pl_crc p →
  0 ≤ (rr_source r).1 ≤ (rr_source r).2 → (rr_source r).2 ≤ pl_bytes p →
  (rr_source r).2 - (rr_source r).1 = (rr_destination r).2 - (rr_destination r).1 →
  0 ≤ (rr_destination r).1 → (rr_destination r).2 ≤ blen buffer →
  fill_range disk r buffer = Ok (splice (rr_destination r).1
    (slice (pl_offset p + (rr_source r).1) ((rr_destination r).2 - (rr_destination r).1) file) buffer).
Proof.
  intros p Hf H1 H2 Hcrc [H3 H4] H5 H6 H7 H8. unfold fill_range, in_slice. fold p.
  rewrite !bool_decide_true by lia. cbn [andb negb]. rewrite Hf. cbn [expect]. rewrite bind_Ok.
  assert (Hlen : blen (slice (pl_offset p) (pl_bytes p) file) = pl_bytes p) by (apply blen_slice; lia).
  unfold ReadRange_direct_to_response, ReadRange_verify, verify_read_crc, read_bytes. fold p.
  destruct (rr_source r) as [s0 s1]. cbn [fst snd] in *.
  case_bool_decide as Hd.
  - injection Hd as -> ->. replace ((rr_destination r).2 - (rr_destination r).1) with (pl_bytes p) by lia.
    rewrite decide_True by lia. rewrite bind_Ok, Hlen, decide_False by auto. rewrite Hcrc, decide_False by auto.
    rewrite bind_Ok. by rewrite Z.add_0_r.
  - rewrite decide_True by lia. rewrite bind_Ok, Hlen, decide_False by auto. rewrite Hcrc, decide_False by auto.
    rewrite bind_Ok. rewrite !bool_decide_true by lia. cbn [andb negb]. by rewrite slice_slice by lia.
Qed.

Section execute.
Context `{Crc32} (offset last : Z) (Hlt : offset < last) (disk : gmap Z bytes).

Lemma fill_entries es : ∀ buffer,
  wf es → Forall (entry_ok offset last) es → blen buffer = last - offset →
  (∀ e p k, e ∈ es → mp_source e.2 = Some (p, k) → served disk p) →
  ∃ out, try_fold (fill_range disk) (mjoin (entry_range offset last <$> es)) buffer = Ok out ∧
    blen out = last - offset ∧
    ∀ i, 0 ≤ i < last - offset →
      out !! Z.to_nat i = match view es (offset + i) with
                          | Some (q, Some s) => resolve disk (Some (q, Some s))
                          | _ => buffer !! Z.to_nat i
                          end.
Proof.
  induction es as [|e es IH]; intros buffer Hw He Hl Hs; [by exists buffer|].
  apply Forall_cons in He as [[_ E2 [E3 E3'] E4] He]. destruct (wf_cons_inv _ _ Hw) as [Hw' Hnext].
  assert (Hs' : ∀ f p k, f ∈ es → mp_source f.2 = Some (p, k) → served disk p).
  { intros f p k Hf. apply Hs. by right. }
  assert (Hnone : ∀ x, x < mp_end e.2 → view es x = None).
  { intros x Hx. unfold view. rewrite (proj2 (find_first_None _ _)); [done|]. intros f Hf.
    apply bool_decide_eq_false. destruct (Hnext f Hf). lia. }
  cbn [fmap list_fmap mjoin list_join]. rewrite try_fold_app.
  destruct (mp_source e.2) as [[p k]|] eqn:Hsrc; cycle 1.
  { assert (entry_range offset last e = []) as -> by (unfold entry_range; by rewrite Hsrc).
    cbn [try_fold mbind result_mbind result_bind]. destruct (IH buffer Hw' He Hl Hs') as (out & E & L & B).
    exists out. split; [exact E|]. split; [done|]. intros i Hi. rewrite B, view_cons, Hsrc by done.
    case_decide; [|done]. by rewrite Hnone by lia. }
  destruct (E4 p k eq_refl) as (S1 & S2 & _). destruct (Hs e p k ltac:(left) Hsrc) as (file & F1 & F2 & F3 & F4).
  assert (entry_range offset last e = [{| rr_payload := p; rr_source := (k + Z.max e.1 offset - e.1,
      k + Z.max e.1 offset - e.1 + Z.min (mp_end e.2) last - Z.max e.1 offset);
    rr_destination := (Z.max e.1 offset - offset, Z.min (mp_end e.2) last - offset) |}]) as ->
    by (unfold entry_range; by rewrite Hsrc).
  cbn [try_fold]. erewrite fill_range_spec; [|exact F1|..]; cbn [rr_payload rr_source rr_destination fst snd];
    [|done|done|done|lia|lia|lia|lia|lia].
  cbn [mbind result_mbind result_bind]. set (buffer1 := splice _ _ _).
  assert (Hl1 : blen buffer1 = last - offset) by (unfold buffer1; by rewrite blen_splice).
  destruct (IH buffer1 Hw' He Hl1 Hs') as (out & E & L & B). exists out. split; [exact E|]. split; [done|].
  intros i Hi. rewrite B, view_cons, Hsrc by done. unfold shift. cbn [fmap option_fmap option_map fst snd].
  assert (Hbl : blen (slice (pl_offset p + (k + Z.max e.1 offset - e.1))
    (Z.min (mp_end e.2) last - offset - (Z.max e.1 offset - offset)) file) = Z.min (mp_end e.2) last - Z.max e.1 offset).
  { rewrite blen_slice; lia. }
  case_decide as Hx.
  - rewrite Hnone by lia. unfold buffer1. rewrite lookup_splice by lia. rewrite Hbl, decide_True by lia.
    cbn [resolve]. rewrite F1, lookup_slice by lia. f_equal. lia.
  - destruct (view es (offset + i)) as [[q [s|]]|]; [done|..]; unfold buffer1;
      rewrite lookup_splice by lia; rewrite Hbl, decide_False by lia; done.
Qed.
End execute.

(** ** The blocks of the manifest *)

(** [data] is what the manifest and the chunk loader hold for the blocks from
    [first] on. *)
Definition base_serves `{Crc32} (load : bytes → bytes → result bytes) (base : View) (first n : Z)
    (data : Z → bytes) : Prop :=
  ∀ b, 0 ≤ b < n → blen (data (first + b)) = BLOCK_SIZE ∧
    ∃ h, Tree_get (vw_source base) (vw_commit base) (vw_end base) (first + b) = Ok h ∧
      match h with
      | None => data (first + b) = zeros BLOCK_SIZE
      | Some hash => ∀ dst, load hash dst = Ok (data (first + b))
      end.

Lemma block_index b i : b * BLOCK_SIZE ≤ i < b * BLOCK_SIZE + BLOCK_SIZE ↔ b = i / BLOCK_SIZE.
Proof.
  unfold BLOCK_SIZE. pose proof (Z.div_mod i 4096 ltac:(done)). pose proof (Z.mod_pos_bound i 4096 ltac:(lia)).
  split; [|lia]. intros Hi. apply (Z.div_unique i 4096 b (i - b * 4096)); lia.
Qed.

Lemma block_offset b i : i / BLOCK_SIZE = b → i mod BLOCK_SIZE = i - b * BLOCK_SIZE ∧ 0 ≤ i - b * BLOCK_SIZE < BLOCK_SIZE.
Proof. intros <-. unfold BLOCK_SIZE. pose proof (Z.div_mod i 4096 ltac:(done)). pose proof (Z.mod_pos_bound i 4096 ltac:(lia)). lia. Qed.

Section base.
Context `{Crc32} (load : bytes → bytes → result bytes) (p : ReadPlan) (base : View) (data : Z → bytes) (n : Z).
Context (Hn : rp_bytes p / BLOCK_SIZE = n) (Hcov : n ≤ 64 * Z.of_nat (length (rp_covered p))).
Context (Hbase : base_serves load base (rp_offset p / BLOCK_SIZE) n data).

Lemma fill_block_spec b buffer :
  0 ≤ b < n → blen buffer = n * BLOCK_SIZE →
  (bit_of (rp_covered p) b = false → ∀ i, i / BLOCK_SIZE = b → buffer !! Z.to_nat i = Some 0) →
  ∃ out, fill_block load p base b buffer = Ok out ∧ blen out = n * BLOCK_SIZE ∧
    ∀ i, 0 ≤ i < n * BLOCK_SIZE → out !! Z.to_nat i =
      if bool_decide (i / BLOCK_SIZE = b) && negb (bit_of (rp_covered p) b)
      then data (rp_offset p / BLOCK_SIZE + b) !! Z.to_nat (i mod BLOCK_SIZE) else buffer !! Z.to_nat i.
Proof.
  intros Hb Hl Hz. unfold fill_block. rewrite staged_bit by lia. rewrite bind_Ok.
  destruct (bit_of (rp_covered p) b) eqn:Hbit.
  { exists buffer. split; [done|]. split; [done|]. intros i Hi. by rewrite andb_false_r. }
  destruct (Hbase b Hb) as (Hd & h & -> & Hh). rewrite bind_Ok. cbn [negb].
  assert (Hmod : ∀ i, i / BLOCK_SIZE = b → i mod BLOCK_SIZE = i - b * BLOCK_SIZE).
  { intros i Hi. by apply block_offset. }
  destruct h as [hash|].
  - rewrite Hh, bind_Ok. eexists. split; [done|]. split; [by rewrite blen_splice|]. intros i Hi.
    rewrite andb_true_r, lookup_splice, Hd by (unfold BLOCK_SIZE in *; lia).
    destruct (decide (i / BLOCK_SIZE = b)) as [Hib|Hib].
    + rewrite bool_decide_true by done. rewrite decide_True by (apply block_index; done). by rewrite Hmod.
    + rewrite bool_decide_false by done. rewrite decide_False; [done|]. rewrite block_index. congruence.
  - exists buffer. split; [done|]. split; [done|]. intros i Hi. rewrite andb_true_r. case_bool_decide as Hib; [|done].
    rewrite Hz, Hh, Hmod by done. unfold zeros. rewrite lookup_replicate_2; [done|].
    destruct (block_offset b i Hib). unfold BLOCK_SIZE in *. lia.
Qed.

Lemma fill_blocks blocks : ∀ buffer,
  NoDup blocks → (∀ b, b ∈ blocks → 0 ≤ b < n) → blen buffer = n * BLOCK_SIZE →
  (∀ b i, b ∈ blocks → bit_of (rp_covered p) b = false → i / BLOCK_SIZE = b → buffer !! Z.to_nat i = Some 0) →
  ∃ out, try_fold (fill_block load p base) blocks buffer = Ok out ∧ blen out = n * BLOCK_SIZE ∧
    ∀ i, 0 ≤ i < n * BLOCK_SIZE → out !! Z.to_nat i =
      if bool_decide (i / BLOCK_SIZE ∈ blocks) && negb (bit_of (rp_covered p) (i / BLOCK_SIZE))
      then data (rp_offset p / BLOCK_SIZE + i / BLOCK_SIZE) !! Z.to_nat (i mod BLOCK_SIZE) else buffer !! Z.to_nat i.
Proof.
  induction blocks as [|b blocks IH]; intros buffer Hnd Hb Hl Hz.
  { exists buffer. split; [done|]. split; [done|]. intros i Hi. by rewrite bool_decide_false by set_solver. }
  apply NoDup_cons in Hnd as [Hni Hnd]. cbn [try_fold].
  destruct (fill_block_spec b buffer (Hb b ltac:(left)) Hl) as (b1 & -> & L1 & B1).
  { intros Hbit i Hi. apply (Hz b); [left|done|done]. }
  rewrite bind_Ok. destruct (IH b1 Hnd ltac:(intros; apply Hb; by right) L1) as (out & E & L & B).
  { intros b' i Hb' Hbit Hi. rewrite B1.
    - rewrite bool_decide_false by (rewrite Hi; intros ->; done). cbn [andb]. apply (Hz b'); [by right|done|done].
    - destruct (Hb b' ltac:(by right)), (block_offset b' i Hi). unfold BLOCK_SIZE in *. lia. }
  exists out. split; [exact E|]. split; [done|]. intros i Hi. rewrite B by done.
  destruct (decide (i / BLOCK_SIZE = b)) as [Hib|Hib].
  - rewrite Hib, (bool_decide_false (b ∈ blocks)) by done. cbn [andb]. rewrite B1 by done.
    rewrite Hib, !bool_decide_true by (done || set_solver). done.
  - rewrite B1 by done. rewrite (bool_decide_false (i / BLOCK_SIZE = b)) by done. cbn [andb].
    by rewrite (bool_decide_ext (i / BLOCK_SIZE ∈ b :: blocks) (i / BLOCK_SIZE ∈ blocks)) by set_solver.
Qed.

End base.

Lemma any_unstaged_spec p n blocks :
  rp_bytes p / BLOCK_SIZE = n → n ≤ 64 * Z.of_nat (length (rp_covered p)) →
  (∀ b, b ∈ blocks → 0 ≤ b < n) →
  ∃ any, any_unstaged p blocks = Ok any ∧ (any = false → ∀ b, b ∈ blocks → bit_of (rp_covered p) b = true).
Proof.
  intros Hn Hcov. induction blocks as [|b blocks IH]; intros Hb; cbn [any_unstaged]; [exists false; set_solver|].
  rewrite staged_bit by (destruct (Hb b ltac:(left)); lia). rewrite bind_Ok.
  destruct (bit_of (rp_covered p) b) eqn:Hbit; [|by exists true].
  destruct (IH ltac:(intros; apply Hb; by right)) as (any & -> & Ha). exists any. split; [done|].
  intros ->. intros b' [->|Hb']%elem_of_cons; auto.
Qed.

(** ** Plans of a reachable state *)

Lemma window_entries `{Crc32} c lim w cur offset final :
  world_reachable c lim w → last (lg_segments (wd_log w)) = Some cur → offset < final →
  let es := Index_overlapping (lg_index (wd_log w)) offset final in
  wf es ∧ Forall (entry_ok offset final) es ∧
  (∀ x, offset ≤ x < final → view es x = view (ix_map (lg_index (wd_log w))) x) ∧
  (∀ e p k, e ∈ es → mp_source e.2 = Some (p, k) → intact c w cur p).
Proof.
  intros Hw Hc Hlt. destruct (world_reachable_inv _ _ _ Hw) as (cur' & file & W).
  destruct (wi_index _ _ _ _ _ W) as [Hwf _]. destruct (readable_reachable _ _ _ _ Hw Hc) as [R1 R2].
  rewrite Index_overlapping_spec by done. set (m := ix_map _) in *.
  assert (Hview : ∀ e x, e ∈ m → e.1 ≤ x < mp_end e.2 → view m x = Some (mp_sequence e.2, shift (x - e.1) (mp_source e.2))).
  { intros [k mp] x He Hx. apply view_Some; [done|]. exists k, mp. split; [|done].
    apply bt_get_elem; [apply Hwf|done]. }
  assert (Hne : ∀ e, e ∈ m → e.1 < mp_end e.2).
  { intros [k mp] He. apply (wf_nonempty _ Hwf). by apply bt_get_elem; [apply Hwf|]. }
  assert (Hsrc : ∀ e p k, e ∈ m → mp_source e.2 = Some (p, k) → intact c w cur p ∧ 0 ≤ k ∧
    k + (mp_end e.2 - e.1) ≤ pl_bytes p ∧ pl_sequence p = mp_sequence e.2).
  { intros e p k He Hs. pose proof (Hne e He) as Hn.
    pose proof (Hview e e.1 He ltac:(lia)) as V1. pose proof (Hview e (mp_end e.2 - 1) He ltac:(lia)) as V2.
    rewrite Hs in V1, V2. unfold shift in V1, V2. cbn in V1, V2.
    destruct (R1 _ _ _ _ V1) as (I1 & I2 & I3). destruct (R1 _ _ _ _ V2) as (_ & I4 & _). split_and!; (done || lia). }
  cbn zeta. split; [by apply wf_filter|]. split; [|split].
  - apply Forall_forall. intros e [He1 He2]%list_elem_of_filter.
    split; [by apply (proj1 (Forall_forall _ _) R2)|by apply Hne|done|]. intros p k Hs. by destruct (Hsrc e p k He2 Hs).
  - intros x Hx. apply view_filter. intros e He Hxe. lia.
  - intros e p k [_ He]%list_elem_of_filter Hs. by destruct (Hsrc e p k He Hs).
Qed.

Lemma read_plan_ok s pins base room offset bytes boundary pins' plan :
  Log_read_plan s pins base room offset bytes boundary = Ok (pins', plan) →
  bytes ≠ 0 ∧ offset mod BLOCK_SIZE = 0 ∧ bytes mod BLOCK_SIZE = 0 ∧
  offset + bytes ≤ cf_image_bytes (lg_config s) ∧ bytes ≤ MAX_REQUEST_BYTES ∧ boundary ≤ lg_published s ∧
  ∃ ranges covered,
    try_fold (plan_entry offset (offset + bytes)) (Index_overlapping (lg_index s) offset (offset + bytes))
      (pins, [], replicate 4 0) = Ok (pins', ranges, covered) ∧
    plan = {| rp_offset := offset; rp_bytes := bytes; rp_ranges := ranges; rp_covered := covered; rp_base := base |}.
Proof.
  unfold Log_read_plan. intros E. apply result_bind_ok in E as ([] & _ & E).
  destruct (checked_add 64 offset bytes) as [last|] eqn:Ea; [|done]. apply checked_add_Some in Ea as [-> _].
  cbn [ok_or] in E. rewrite bind_Ok in E. destruct (_ || _) eqn:Ec in E; [done|].
  rewrite !orb_false_iff, !negb_false_iff, !bool_decide_eq_false, !is_multiple_of_spec in Ec.
  destruct Ec as ((((C1 & C2) & C3) & C4) & C5). case_decide; [done|]. destruct room; [|done]. cbn [negb] in E.
  apply result_bind_ok in E as ([[p1 ranges] covered] & E1 & E). destruct (negb _) in E; [done|].
  injection E as <- <-. split_and!; try done; try lia. by eexists _, _.
Qed.

Lemma fresh_bits i : 0 ≤ i → bit_of (replicate 4 0) i = false.
Proof.
  intros Hi. unfold bit_of. destruct (replicate 4 0 !! _) as [word|] eqn:E; [|done].
  apply lookup_replicate_1 in E as [-> _]. apply Z.bits_0.
Qed.

Lemma resolve_payload disk disk' v :
  (∀ q p k, v = Some (q, Some (p, k)) → payload_data disk' p = payload_data disk p ∧ 0 ≤ pl_offset p ∧ 0 ≤ k < pl_bytes p) →
  resolve disk' v = resolve disk v.
Proof.
  destruct v as [[q [[p k]|]]|]; [|done..]. intros Hv. destruct (Hv q p k eq_refl) as (E & H1 & H2).
  unfold payload_data in E. cbn [resolve].
  destruct (disk' !! pl_segment p) as [f'|], (disk !! pl_segment p) as [f|]; cbn in E; try done.
  injection E as E. apply (f_equal (λ l : bytes, l !! Z.to_nat k)) in E. rewrite !lookup_slice in E by lia.
  by replace (Z.to_nat (pl_offset p + k)) with (Z.to_nat (pl_offset p) + Z.to_nat k)%nat by lia.
Qed.

(** Mappings cover whole blocks. *)
Lemma view_same_block m x y :
  wf m → Forall on_blocks m →
  (∃ b, b * BLOCK_SIZE ≤ x < b * BLOCK_SIZE + BLOCK_SIZE ∧ b * BLOCK_SIZE ≤ y < b * BLOCK_SIZE + BLOCK_SIZE) →
  is_Some (view m x) ↔ is_Some (view m y).
Proof.
  intros Hw Hb. assert (Hdir : ∀ x y, (∃ b, b * BLOCK_SIZE ≤ x < b * BLOCK_SIZE + BLOCK_SIZE ∧
    b * BLOCK_SIZE ≤ y < b * BLOCK_SIZE + BLOCK_SIZE) → is_Some (view m x) → is_Some (view m y)).
  { clear x y. intros x y (b & Hx & Hy) [v Hv]. apply view_Some in Hv as (k & mp & Hk & Hr & _); [|done].
    eexists. apply view_Some; [done|]. exists k, mp. split; [done|]. split; [|done].
    apply bt_get_elem in Hk; [|apply Hw]. destruct (proj1 (Forall_forall _ _) Hb _ Hk) as [B1 B2]. cbn in B1, B2.
    apply Z.mod_divide in B1 as [a ->], B2 as [t Ht]; [|done..]. rewrite Ht in *. unfold BLOCK_SIZE in *. lia. }
  intros (b & Hx & Hy). split; apply Hdir; by exists b.
Qed.

Lemma resolve_staged w cur v : settled w cur v → is_Some (resolve (wd_disk w) v) ↔ is_Some v.
Proof.
  destruct v as [[q [[p k]|]]|]; cbn [resolve settled]; [|by split..].
  intros (z & -> & Hz & _). split; [done|]. intros _. apply lookup_lt_is_Some_2. unfold blen in Hz. lia.
Qed.

Lemma aligned_block offset i : offset mod BLOCK_SIZE = 0 →
  (offset + i) / BLOCK_SIZE = offset / BLOCK_SIZE + i / BLOCK_SIZE ∧ (offset + i) mod BLOCK_SIZE = i mod BLOCK_SIZE.
Proof.
  intros [a ->]%Z.mod_divide; [|done]. rewrite Z.div_mul, Z.add_comm by done. rewrite Z.div_add, Z.mod_add by done. lia.
Qed.

(** What the ranges of a plan bring into the response. *)
Lemma ranges_read `{Crc32} c lim w w' cur offset bytes pins pins' ranges covered :
  world_reachable c lim w → rtc world_step w w' → last (lg_segments (wd_log w)) = Some cur →
  0 ≤ offset → 0 < bytes ≤ MAX_REQUEST_BYTES → offset mod BLOCK_SIZE = 0 → bytes mod BLOCK_SIZE = 0 →
  try_fold (plan_entry offset (offset + bytes))
    (Index_overlapping (lg_index (wd_log w)) offset (offset + bytes)) (pins, [], replicate 4 0)
  = Ok (pins', ranges, covered) →
  length covered = 4%nat ∧
  (∀ i, 0 ≤ i < bytes → bit_of covered (i / BLOCK_SIZE) = bool_decide (is_Some
     (AppendWorld.contents (take (Z.to_nat (lg_published (wd_log w))) (wd_issued w)) (offset + i)))) ∧
  ∃ out, try_fold (fill_range (wd_disk w')) ranges (zeros bytes) = Ok out ∧ blen out = bytes ∧
    ∀ i, 0 ≤ i < bytes → out !! Z.to_nat i =
      Some (default 0 (AppendWorld.contents (take (Z.to_nat (lg_published (wd_log w))) (wd_issued w)) (offset + i))).
Proof.
  intros Hw Hs Hc Ho Hb Ho' Hb' E. set (last := offset + bytes) in *.
  assert (Hlast : last mod BLOCK_SIZE = 0) by (unfold last; rewrite Z.add_mod, Ho', Hb'; done).
  destruct (window_entries c lim w cur offset last Hw Hc ltac:(lia)) as (Ewf & Eok & Eview & Esrc).
  set (es := Index_overlapping _ _ _) in *. set (idx := ix_map _) in *.
  assert (Hn : (last - offset) / BLOCK_SIZE ≤ 256).
  { change 256 with (MAX_REQUEST_BYTES / BLOCK_SIZE). apply Z.div_le_mono; [done|]. unfold last. lia. }
  destruct (plan_fold offset last ltac:(lia) Ho' Hlast es pins [] (replicate 4 0) Eok ltac:(cbn; lia))
    as (covered' & L & B & E'). rewrite E' in E.
  apply result_bind_ok in E as (p1 & _ & E). injection E as <- <- <-.
  destruct (world_reachable_inv _ _ _ Hw) as (cur' & file & W).
  assert (Hpay : ∀ p, intact c w cur p → served (wd_disk w') p ∧ payload_data (wd_disk w') p = payload_data (wd_disk w) p).
  { intros p Hp. destruct (intact_later c lim w w' cur p Hw Hs Hc Hp) as (cur2 & [[J1 _] _ _ (f & F1 & F2 & F3)] & J2).
    split; [|done]. by exists f. }
  split; [done|]. split.
  { intros i Hi. assert (Hx : 0 ≤ i / BLOCK_SIZE < (last - offset) / BLOCK_SIZE).
    { split; [apply Z.div_pos; unfold BLOCK_SIZE; lia|]. apply Z.div_lt_upper_bound; [done|].
      assert (BLOCK_SIZE * ((last - offset) / BLOCK_SIZE) = last - offset); [|unfold last in *; lia].
      symmetry. apply Z.div_exact; [done|]. unfold last. by replace (offset + bytes - offset) with bytes by lia. }
    rewrite B, fresh_bits by lia. cbn [orb]. rewrite Eview by (destruct (block_offset _ i eq_refl); unfold last, BLOCK_SIZE in *; lia).
    rewrite <- (wi_view _ _ _ _ _ W). apply bool_decide_ext. rewrite (resolve_staged _ _ _ (wi_settled _ _ _ _ _ W (offset + i))).
    apply (view_same_block idx); [apply (wi_index _ _ _ _ _ W)|apply (readable_reachable _ _ _ _ Hw Hc)|].
    destruct (block_offset _ i eq_refl) as [_ Hm]. exists (offset / BLOCK_SIZE + i / BLOCK_SIZE).
    apply Z.mod_divide in Ho' as [a ->]; [|done]. unfold BLOCK_SIZE in *. rewrite Z.div_mul by done. lia. }
  destruct (fill_entries offset last ltac:(lia) (wd_disk w') es (zeros bytes) Ewf Eok) as (out & Ef & Lf & Bf).
  { rewrite blen_zeros by lia. unfold last. lia. }
  { intros e p k He Hp. by apply Hpay, (Esrc e p k). }
  exists out. split; [exact Ef|]. split; [unfold last in Lf; lia|]. intros i Hi.
  rewrite Bf by (unfold last; lia). rewrite Eview by (unfold last; lia).
  rewrite <- (wi_view _ _ _ _ _ W). fold idx. pose proof (wi_settled _ _ _ _ _ W (offset + i)) as Hset. fold idx in Hset.
  assert (Hzero : zeros bytes !! Z.to_nat i = Some 0).
  { unfold zeros. rewrite lookup_replicate_2; [done|lia]. }
  destruct (view idx (offset + i)) as [[q [[p k]|]]|] eqn:Hv; [|by rewrite Hzero..].
  destruct (rd_payloads _ _ _ (readable_reachable _ _ _ _ Hw Hc) _ _ _ _ Hv) as (Hi1 & Hk & _).
  rewrite (resolve_payload (wd_disk w)).
  - cbn in Hset. destruct Hset as (z & Z1 & Z2 & _). cbn [resolve]. rewrite Z1.
    destruct (lookup_lt_is_Some_2 z (Z.to_nat (pl_offset p + k))) as [b ->]; [unfold blen in Z2; lia|]. done.
  - intros q' p' k' [= <- <- <-]. destruct (Hpay p Hi1) as [_ Hd]. destruct Hi1 as [[I1 _] _ _ _]. done.
Qed.

(** ** Pins *)

(** Adding [n] to the readers of a payload's batch. *)
Definition bump_pins (n : Z) (block : nat) (t : Pins) : Pins :=
  {| pn_batches := alter (Z.add n) block (pn_batches t); pn_readers := n + pn_readers t |}.

Definition bump (n : Z) (p : Payload) (pins : PinTable) : PinTable :=
  alter (bump_pins n (Z.to_nat (pl_batch_block p))) (pl_segment p) pins.

Lemma bump_pins_comm n m i j t : bump_pins n i (bump_pins m j t) = bump_pins m j (bump_pins n i t).
Proof.
  unfold bump_pins. cbn. f_equal; [|lia]. apply list_eq. intros k. rewrite !list_lookup_alter.
  repeat case_decide; subst; try done. destruct (pn_batches t !! _); cbn; [f_equal; lia|done].
Qed.

Lemma bump_comm n m p q pins : bump n p (bump m q pins) = bump m q (bump n p pins).
Proof.
  unfold bump. apply map_eq. intros i. rewrite !lookup_alter. repeat case_decide; subst; try congruence.
  replace (pl_segment q) with (pl_segment p) by congruence.
  destruct (pins !! pl_segment p) as [t|]; cbn; [|done]. f_equal. apply bump_pins_comm.
Qed.

Lemma bump_inverse p pins : bump (-1) p (bump 1 p pins) = pins.
Proof.
  unfold bump. apply map_eq. intros i. rewrite !lookup_alter. case_decide; [subst|done].
  rewrite decide_True by done. destruct (pins !! pl_segment p) as [[bs r]|]; cbn; [|done]. unfold bump_pins. cbn.
  f_equal. f_equal; [|lia]. apply list_eq. intros k. rewrite !list_lookup_alter. case_decide; [subst|done].
  rewrite decide_True by done. destruct (bs !! _); cbn; [f_equal; lia|done].
Qed.

(** The counters of a table for a payload's batch. *)
Definition counts (pins : PinTable) (p : Payload) (n r : Z) : Prop :=
  ∃ t, pins !! pl_segment p = Some t ∧ pn_batches t !! Z.to_nat (pl_batch_block p) = Some n ∧ pn_readers t = r.

Lemma alter_as_insert (f : Z → Z) (l : list Z) i x : l !! i = Some x → alter f i l = <[i := f x]> l.
Proof. intros Hx. rewrite list_insert_alter. apply list_alter_ext; [|done]. intros y Hy. congruence. Qed.

Lemma acquire_eval pins p n r :
  counts pins p n r → n < u32_max → r < u32_max → acquire pins p = Ok (bump 1 p pins).
Proof.
  intros (t & H1 & H2 & H3) Hn Hr. unfold acquire, Pins_acquire, Pins_at. rewrite H1. cbn [expect]. rewrite bind_Ok, H2.
  cbn [expect]. rewrite bind_Ok, H3, !bool_decide_true by done. cbn [negb]. rewrite bind_Ok. f_equal. unfold bump.
  apply map_eq. intros i. rewrite lookup_alter, lookup_insert. case_decide; [subst|done]. rewrite H1. cbn.
  unfold bump_pins. do 2 f_equal; [|lia]. rewrite (alter_as_insert _ _ _ n H2). f_equal. lia.
Qed.

Lemma release_eval pins p n r :
  counts pins p n r → n ≠ 0 → r ≠ 0 → release pins p = Ok (bump (-1) p pins).
Proof.
  intros (t & H1 & H2 & H3) Hn Hr. unfold release, Pins_release, Pins_at. rewrite H1. cbn [expect]. rewrite bind_Ok, H2.
  cbn [expect]. rewrite bind_Ok, H3, !bool_decide_true by done. cbn [negb]. rewrite bind_Ok. f_equal. unfold bump.
  apply map_eq. intros i. rewrite lookup_alter, lookup_insert. case_decide; [subst|done]. rewrite H1. cbn.
  unfold bump_pins. do 2 f_equal; [|lia]. rewrite (alter_as_insert _ _ _ n H2). f_equal. lia.
Qed.

(** Room for [slack] more readers of a payload. *)
Definition pinnable (slack : Z) (pins : PinTable) (p : Payload) : Prop :=
  ∃ n r, counts pins p n r ∧ 0 ≤ n ≤ u32_max - slack ∧ 0 ≤ r ≤ u32_max - slack.

Lemma bump_counts pins p q n r :
  counts pins p n r → ∃ n' r', counts (bump 1 q pins) p n' r' ∧ n ≤ n' ≤ n + 1 ∧ r ≤ r' ≤ r + 1.
Proof.
  intros (t & H1 & H2 & H3). unfold bump, counts. rewrite lookup_alter. case_decide as Hs.
  - rewrite Hs, H1. cbn. destruct (decide (Z.to_nat (pl_batch_block q) = Z.to_nat (pl_batch_block p))) as [Hb|Hb].
    + exists (1 + n), (1 + r). split; [|lia]. eexists. split; [done|]. cbn. rewrite list_lookup_alter, decide_True by done.
      rewrite Hb, H2. cbn. split; [done|lia].
    + exists n, (1 + r). split; [|lia]. eexists. split; [done|]. cbn. rewrite list_lookup_alter, decide_False by done.
      split; [done|lia].
  - exists n, r. split; [|lia]. by exists t.
Qed.

Lemma bump_self pins p n r : counts pins p n r → counts (bump 1 p pins) p (1 + n) (1 + r).
Proof.
  intros (t & H1 & H2 & H3). unfold bump, counts. rewrite lookup_alter, decide_True by done. rewrite H1. cbn.
  eexists. split; [done|]. cbn. rewrite list_lookup_alter, decide_True by done. rewrite H2. cbn. split; [done|lia].
Qed.

Lemma bump_pinnable slack pins p q : pinnable (slack + 1) pins p → pinnable slack (bump 1 q pins) p.
Proof.
  intros (n & r & Hc & Hn & Hr). destruct (bump_counts _ _ q _ _ Hc) as (n' & r' & Hc' & ? & ?).
  exists n', r'. split; [done|]. lia.
Qed.

Definition bumps (rs : list ReadRange) (pins : PinTable) : PinTable :=
  foldl (λ pins r, bump 1 (rr_payload r) pins) pins rs.

Lemma bumps_bump rs : ∀ p pins, bumps rs (bump 1 p pins) = bump 1 p (bumps rs pins).
Proof.
  induction rs as [|r rs IH]; intros p pins; [done|]. unfold bumps in *. cbn [foldl]. rewrite <- IH. f_equal. apply bump_comm.
Qed.

Lemma acquire_all_spec rs : ∀ pins,
  Forall (λ r, pinnable (Z.of_nat (length rs)) pins (rr_payload r)) rs →
  try_fold (λ r pins, acquire pins (rr_payload r)) rs pins = Ok (bumps rs pins).
Proof.
  induction rs as [|r rs IH]; intros pins Hr; [done|]. cbn [length] in Hr.
  assert (Hsucc : Z.of_nat (S (length rs)) = Z.of_nat (length rs) + 1) by lia. rewrite Hsucc in Hr.
  apply Forall_cons in Hr as [(n & m & Hc & Hn & Hm) Hr]. cbn [try_fold].
  rewrite (acquire_eval _ _ n m Hc) by lia. rewrite bind_Ok. apply IH. eapply Forall_impl; [exact Hr|].
  intros x Hx. by apply bump_pinnable.
Qed.

Lemma bumps_counts rs : ∀ pins p n r,
  counts pins p n r → 0 ≤ n → 0 ≤ r → ∃ n' r', counts (bumps rs pins) p n' r' ∧ 0 ≤ n' ∧ 0 ≤ r'.
Proof.
  induction rs as [|q rs IH]; intros pins p n r Hc Hn Hr; [by exists n, r|]. unfold bumps. cbn [foldl].
  destruct (bump_counts _ _ (rr_payload q) _ _ Hc) as (n' & r' & Hc' & ? & ?). apply (IH _ p n' r'); [done|lia|lia].
Qed.

Lemma release_all_spec rs pins :
  Forall (λ r, pinnable (Z.of_nat (length rs)) pins (rr_payload r)) rs →
  try_fold (λ r pins, release pins (rr_payload r)) rs (bumps rs pins) = Ok pins.
Proof.
  induction rs as [|r rs IH]; intros Hr; [done|]. cbn [length] in Hr.
  apply Forall_cons in Hr as [(n & m & Hc & Hn & Hm) Hr]. cbn [try_fold].
  change (bumps (r :: rs) pins) with (bumps rs (bump 1 (rr_payload r) pins)). rewrite bumps_bump.
  destruct (bumps_counts rs pins (rr_payload r) n m Hc) as (n' & m' & Hc' & ? & ?); [lia|lia|].
  rewrite (release_eval _ _ (1 + n') (1 + m')) by (lia || by apply bump_self). rewrite bind_Ok, bump_inverse.
  apply IH. eapply Forall_impl; [exact Hr|]. intros x (a & b & Hx & ? & ?). exists a, b. split; [done|]. lia.
Qed.

(** ** Properties *)

(** A pin table for the segments of a state, with room for another plan. *)
Definition pins_cover (c : Config) (w : World) (pins : PinTable) : Prop :=
  ∀ number file, wd_disk w !! number = Some file →
    ∃ t, pins !! number = Some t ∧ Z.of_nat (length (pn_batches t)) = cf_segment_bytes c / BLOCK_SIZE ∧
      Forall (λ n, 0 ≤ n ≤ u32_max - 256) (pn_batches t) ∧ 0 ≤ pn_readers t ≤ u32_max - 256.

Lemma intact_pinnable `{Crc32} c w cur pins p :
  pins_cover c w pins → intact c w cur p → pinnable 256 pins p.
Proof.
  intros Hp [_ Hb _ (file & Hf & _)]. destruct (Hp _ _ Hf) as (t & T1 & T2 & T3 & T4).
  rewrite <- T2 in Hb. destruct (lookup_lt_is_Some_2 (pn_batches t) (Z.to_nat (pl_batch_block p))) as [n Hn]; [lia|].
  exists n, (pn_readers t). split; [by exists t|]. split; [|done]. exact (Forall_lookup_1 _ _ _ _ T3 Hn).
Qed.

Lemma mjoin_length {A B} (f : A → list B) l :
  (∀ x, (length (f x) ≤ 1)%nat) → (length (mjoin (f <$> l)) ≤ length l)%nat.
Proof.
  intros Hf. induction l as [|x l IH]; [done|]. cbn [fmap list_fmap mjoin list_join length]. rewrite length_app.
  exact (Nat.add_le_mono _ 1 _ _ (Hf x) IH).
Qed.

(** C3: a read returns the published image of its capture.  Take a plan
    captured in any reachable state and run it in any later one, after any
    number of further appends, overwrites, publications, fences and rotations.
    It succeeds, with every checksum verified, and each byte of the response is
    the one the published mutations wrote at capture, or the base's where
    nothing was staged. *)
Theorem snapshot_read `{Crc32} c lim w w' pins pins' base room offset bytes boundary plan load data buffer :
  world_reachable c lim w → rtc world_step w w' → 0 ≤ offset → 0 ≤ bytes →
  Log_read_plan (wd_log w) pins base room offset bytes boundary = Ok (pins', plan) → blen buffer = bytes →
  match base with
  | None => ∀ block, data block = zeros BLOCK_SIZE
  | Some view => Tree_new (vw_commit view) (vw_end view) = Ok tt ∧
      base_serves load view (offset / BLOCK_SIZE) (bytes / BLOCK_SIZE) data
  end →
  ∃ out, ReadPlan_read_with (wd_disk w') load plan buffer = Ok out ∧ blen out = bytes ∧
    ∀ i, 0 ≤ i < bytes → out !! Z.to_nat i =
      match AppendWorld.contents (take (Z.to_nat (lg_published (wd_log w))) (wd_issued w)) (offset + i) with
      | Some b => Some b
      | None => data ((offset + i) / BLOCK_SIZE) !! Z.to_nat ((offset + i) mod BLOCK_SIZE)
      end.
Proof.
  intros Hw Hs Ho Hb E Hl Hbase. destruct (world_reachable_inv _ _ _ Hw) as (cur & file & W).
  destruct (read_plan_ok _ _ _ _ _ _ _ _ _ E) as (C1 & C2 & C3 & C4 & C5 & C6 & ranges & covered & Ef & ->).
  destruct (ranges_read c lim w w' cur offset bytes pins pins' ranges covered Hw Hs (wi_segments _ _ _ _ _ W) Ho
    ltac:(lia) C2 C3 Ef) as (L4 & Hcont & out & Eout & Lout & Bout).
  set (n := bytes / BLOCK_SIZE). assert (Hn : bytes = n * BLOCK_SIZE).
  { unfold n. rewrite Z.mul_comm. by apply Z.div_exact. }
  unfold ReadPlan_read_with. cbn [rp_bytes rp_ranges rp_base]. rewrite decide_False, Hl, Eout by auto. rewrite bind_Ok.
  assert (Hblk : ∀ i, 0 ≤ i < bytes → 0 ≤ i / BLOCK_SIZE < n).
  { intros i Hi. split; [apply Z.div_pos; unfold BLOCK_SIZE; lia|]. apply Z.div_lt_upper_bound; [done|]. lia. }
  destruct base as [view|].
  - destruct Hbase as [Hnew Hserve].
    set (plan := {| rp_offset := _ |}).
    assert (Hcov : n ≤ 64 * Z.of_nat (length (rp_covered plan))).
    { cbn. rewrite L4. change (64 * Z.of_nat 4) with (MAX_REQUEST_BYTES / BLOCK_SIZE). apply Z.div_le_mono; done. }
    destruct (any_unstaged_spec plan n (seqZ 0 n) eq_refl Hcov) as (any & Ea & Hany).
    { intros b Hb'%elem_of_seqZ. lia. }
    fold n. rewrite Ea, bind_Ok. destruct any; cycle 1.
    + exists out. split; [done|]. split; [done|]. intros i Hi. rewrite Bout by done.
      pose proof (Hany eq_refl (i / BLOCK_SIZE) ltac:(apply elem_of_seqZ; destruct (Hblk i Hi); lia)) as Hbit.
      cbn [rp_covered plan] in Hbit. rewrite Hcont, bool_decide_eq_true in Hbit by done. by destruct Hbit as [b ->].
    + rewrite Hnew, bind_Ok.
      destruct (fill_blocks load plan view data n eq_refl Hcov Hserve (seqZ 0 n) out) as (out' & -> & L' & B').
      { apply NoDup_seqZ. }
      { intros b Hb'%elem_of_seqZ. lia. }
      { lia. }
      { intros b i Hb'%elem_of_seqZ Hbit Hib. destruct (block_offset b i Hib) as [_ Hi]. cbn [rp_covered plan] in Hbit.
        assert (Hi' : 0 ≤ i < bytes) by (unfold BLOCK_SIZE in *; lia). rewrite Bout by done.
        rewrite <- Hib, Hcont, bool_decide_eq_false in Hbit by done. apply eq_None_not_Some in Hbit. by rewrite Hbit. }
      exists out'. split; [done|]. split; [lia|]. intros i Hi. rewrite B' by lia.
      rewrite bool_decide_true by (apply elem_of_seqZ; destruct (Hblk i Hi); lia). cbn [andb rp_covered rp_offset plan].
      rewrite Hcont by done. destruct (aligned_block offset i C2) as [Hdiv Hmod].
      rewrite Hdiv, Hmod. destruct (AppendWorld.contents _ _) as [b|] eqn:Eb.
      * rewrite bool_decide_true by done. cbn [negb]. rewrite Bout by done. by rewrite Eb.
      * by rewrite bool_decide_false by (by intros []).
  - exists out. split; [done|]. split; [done|]. intros i Hi. rewrite Bout by done.
    destruct (AppendWorld.contents _ _); [done|]. rewrite Hbase. unfold zeros. cbn [default from_option].
    rewrite lookup_replicate_2; [done|]. pose proof (Z.mod_pos_bound (offset + i) BLOCK_SIZE ltac:(done)). unfold BLOCK_SIZE in *. lia.
Qed.

(** A valid read is always planned, and gives its pins back.  In every
    reachable state of a log that has not failed, a block-aligned request
    inside the image, up to one request in size and waiting for nothing
    unpublished, gets its plan: no assertion trips, no counter overflows, and
    dropping the plan leaves the pin table exactly as it was. *)
Lemma read_plan_total `{Crc32} c lim w pins base offset bytes boundary :
  world_reachable c lim w → pins_cover c w pins → lg_failed (wd_log w) = false →
  0 ≤ offset → 0 < bytes ≤ MAX_REQUEST_BYTES → offset mod BLOCK_SIZE = 0 → bytes mod BLOCK_SIZE = 0 →
  offset + bytes ≤ cf_image_bytes c → boundary ≤ lg_published (wd_log w) →
  ∃ pins' plan, Log_read_plan (wd_log w) pins base true offset bytes boundary = Ok (pins', plan) ∧
    ReadPlan_drop pins' plan = Ok pins.
Proof.
  intros Hw Hp Hf Ho Hb Ho' Hb' Hi Hpub. destruct (layout_reachable c lim (λ _, 0) 0 w Hw)
    as (cur & file & cl & s0 & sd & s & lc & ld & l & W & L).
  destruct (ly_config _ _ _ _ _ _ _ _ _ _ _ _ _ _ L) as ((_ & _ & _ & _ & _ & _ & _ & [_ Himg] & _) & _). cbn in Himg.
  pose proof (wi_segments _ _ _ _ _ W) as Hc. set (last := offset + bytes).
  assert (Hlast : last mod BLOCK_SIZE = 0) by (unfold last; rewrite Z.add_mod, Ho', Hb'; done).
  destruct (window_entries c lim w cur offset last Hw Hc ltac:(lia)) as (Ewf & Eok & _ & Esrc).
  unfold Log_read_plan, Log_healthy. rewrite Hf, bind_Ok, checked_add_fits by (cbn in Himg; lia). cbn [ok_or]. rewrite bind_Ok. fold last.
  set (es := Index_overlapping _ _ _) in *.
  rewrite (proj1 (wi_config _ _ _ _ _ W)).
  rewrite (bool_decide_false (bytes = 0)), (bool_decide_false (_ < last)), (bool_decide_false (_ < bytes)) by lia.
  rewrite !(proj2 (is_multiple_of_spec _ _)) by done. cbn [negb orb]. rewrite decide_False by lia.
  assert (Hblocks : (last - offset) / BLOCK_SIZE = bytes / BLOCK_SIZE) by (f_equal; lia).
  assert (Hcount : bytes / BLOCK_SIZE ≤ 256).
  { change 256 with (MAX_REQUEST_BYTES / BLOCK_SIZE). apply Z.div_le_mono; [done|]. lia. }
  set (rs := mjoin (entry_range offset last <$> es)).
  assert (Hlen : Z.of_nat (length rs) ≤ bytes / BLOCK_SIZE).
  { pose proof (entries_bound offset last Hlast es offset Eok Ewf Ho') as Hes.
    pose proof (mjoin_length (entry_range offset last) es) as Hj. transitivity (Z.of_nat (length es)).
    - apply Nat2Z.inj_le, Hj. intros e. unfold entry_range. by destruct (mp_source e.2) as [[]|]; cbn; lia.
    - apply Z.div_le_lower_bound; [done|]. rewrite Z.mul_comm. replace bytes with (last - offset) by lia. apply Hes; [lia| |lia].
      intros e He. by apply (eo_window _ _ _ (proj1 (Forall_forall _ _) Eok e He)). }
  assert (Hpin : Forall (λ r, pinnable (Z.of_nat (length rs)) pins (rr_payload r)) rs).
  { apply Forall_forall. intros r Hr. apply list_elem_of_join in Hr as (x & Hr & Hx).
    apply list_elem_of_fmap in Hx as (e & -> & He). unfold entry_range in Hr.
    destruct (mp_source e.2) as [[p k]|] eqn:Hsrc; [|by apply elem_of_nil in Hr].
    apply list_elem_of_singleton in Hr as ->. cbn [rr_payload].
    destruct (intact_pinnable c w cur pins p Hp (Esrc e p k He Hsrc)) as (a & b & Hab & ? & ?).
    exists a, b. split; [done|]. lia. }
  destruct (plan_fold offset last ltac:(lia) Ho' Hlast es pins [] (replicate 4 0) Eok ltac:(cbn; lia))
    as (covered & _ & _ & ->). fold rs. rewrite (acquire_all_spec rs pins Hpin), !bind_Ok, app_nil_l.
  rewrite bool_decide_true by done. cbn [negb]. eexists _, _. split; [done|].
  unfold ReadPlan_drop. cbn [rp_ranges]. by apply release_all_spec.
Qed.

(** ** A concrete read *)

Definition sample_pins : PinTable := {[ 1 := {| pn_batches := replicate 260 0; pn_readers := 0 |} ]}.

Definition sample_plan : PinTable * ReadPlan :=
  unwrap_or (∅, {| rp_offset := 0; rp_bytes := 0; rp_ranges := []; rp_covered := []; rp_base := None |})
    (Log_read_plan (wd_log sample_world3) sample_pins None true 0 8192 1).

Lemma sample_plan_ok :
  Log_read_plan (wd_log sample_world3) sample_pins None true 0 8192 1 = Ok (sample_plan.1, sample_plan.2).
Proof. rewrite <- surjective_pairing. unfold sample_plan. apply is_ok_unwrap. vm_compute. reflexivity. Qed.

Lemma snapshot_read_witness :
  ∃ out, @ReadPlan_read_with crc_sum (wd_disk sample_world3) (λ _ _, other "no chunks") sample_plan.2 (zeros 8192)
    = Ok out ∧ out !! 5000%nat = Some 0.
Proof.
  destruct (@snapshot_read crc_sum sample_config sample_log_limits sample_world3 sample_world3 sample_pins sample_plan.1
    None true 0 8192 1 sample_plan.2 (λ _ _, other "no chunks") (λ _, zeros BLOCK_SIZE) (zeros 8192))
    as (out & E & _ & Hout).
  - exact sample_reachable3.
  - apply rtc_refl.
  - done.
  - done.
  - exact sample_plan_ok.
  - vm_compute. reflexivity.
  - done.
  - exists out. split; [exact E|]. change 5000%nat with (Z.to_nat 5000). rewrite Hout by lia. vm_compute. reflexivity.
Defined.

Lemma sample_pins_cover : pins_cover sample_config sample_world0 sample_pins.
Proof.
  intros number file Hf. unfold sample_world0 in Hf. cbn [wd_disk] in Hf. apply lookup_singleton_Some in Hf as [<- _].
  exists {| pn_batches := replicate 260 0; pn_readers := 0 |}. unfold sample_pins. rewrite lookup_singleton_eq.
  split; [done|]. split; [done|]. split; [|done]. apply Forall_replicate. done.
Qed.
