(* ===== verification/Window.v ===== *)
(** * The WAL admission window

    Models [crates/cas/daemon/src/local/window.rs]: before a guest write is
    admitted it reserves its physical frame in the current WAL segment, one
    fence block for every mutation that may still need its own fence, and one
    descriptor of the interval index.  The window tracks the log's position
    through appends, fences and rotations and refuses by asking for a rotation.
    The step relation drives it together with the log of [AppendWorld]; the
    theorems show that its bookkeeping never trips and that an admitted write
    always fits.  The capacity account's answer is an argument of [reserve], and
    notifications of the owner are left out. *)
From S2P Require Import Prelude Bytes AppendFormat AppendPacking IntervalIndex AppendLog AppendWorld AppendRecovery AppendDurable.

Inductive Reason : Type :=
  | HostAdmission | RequestCredits | ReadCredits | ReadOwnerAllocation | Staging | Physical
  | WalRotation | WalIndex | AppendCredits.

Inductive Decision (A : Type) : Type := Ready (a : A) | Waiting (reason : Reason).
Arguments Ready {A} _.
Arguments Waiting {A} _.

Record State : Type := {
  point : Position;
  reserved_bytes : Z;
  index_capacity : Z;
  unsubmitted : Z;
  rotation_wanted : bool;
  index_pressure : bool;
  failed : bool;
}.

Definition State_used (s : State) : option Z :=
  a ← checked_sub (ps_issued (point s)) (ps_fenced (point s));
  a ← checked_add 64 a (unsubmitted s);
  fences ← checked_add 64 a (Z.b2z (ps_initial_fence (point s)));
  b ← checked_add 64 (ps_end (point s)) (reserved_bytes s);
  c ← checked_mul 64 fences BLOCK_SIZE;
  checked_add 64 b c.

Definition set_failed (s : State) : State :=
  {| point := point s; reserved_bytes := reserved_bytes s; index_capacity := index_capacity s;
     unsubmitted := unsubmitted s; rotation_wanted := rotation_wanted s;
     index_pressure := index_pressure s; failed := true |}.

Definition State_require (s : State) (valid : bool) (message : string) : State * result unit :=
  if failed s || negb valid then (set_failed s, other message) else (s, Ok tt).

(** [self.point == log.position()], where a log always has a current segment. *)
Definition State_at (s : State) (log : Log) : State * result unit :=
  match Log_position log with
  | Ok p => State_require s (bool_decide (point s = p)) "WAL admission position differs"
  | Err e => (s, Err e)
  | Panic => (s, Panic)
  end.

Definition State_bounded (s : State) : State * result unit :=
  State_require s
    (is_some_and (State_used s) (λ used, bool_decide (used ≤ ps_capacity (point s)))
     && bool_decide (unsubmitted s ≤ index_capacity s))
    "WAL admission exceeded reserved capacity".

Definition Window_new (log : Log) : result State :=
  p ← Log_position log;
  if decide (ps_capacity p < MAX_REQUEST_BYTES + 4 * BLOCK_SIZE)
  then Err (Error InvalidInput "host WAL segment cannot reserve a maximum request and initial fence")
  else
    match State_bounded {| point := p; reserved_bytes := 0; index_capacity := Log_append_capacity log;
      unsubmitted := 0; rotation_wanted := false; index_pressure := false; failed := false |} with
    | (s, Ok _) => Ok s
    | (_, Err e) => Err e
    | (_, Panic) => Panic
    end.

(** A reserved frame: the window it belongs to and its bytes, the header block
    included; zero bytes mean that it was consumed. *)
Record Slot : Type := { sl_owner : Z; sl_bytes : Z }.

Definition Slot_matches (slot : Slot) (payload : Z) : bool :=
  bool_decide (checked_add 64 payload BLOCK_SIZE = Some (sl_bytes slot)).

Definition set_rotation_wanted (s : State) : State :=
  {| point := point s; reserved_bytes := reserved_bytes s; index_capacity := index_capacity s;
     unsubmitted := unsubmitted s; rotation_wanted := true; index_pressure := index_pressure s;
     failed := failed s |}.

(** [Window::reserve] of window [owner]; [check] is the answer of the capacity
    account, absent without one. *)
Definition Window_reserve (owner : Z) (s : State) (bytes : Z) (check : result (Decision unit))
    : State * result (Decision Slot) :=
  if bool_decide (MAX_REQUEST_BYTES < bytes) || negb (is_multiple_of bytes BLOCK_SIZE)
  then (s, Err (Error InvalidInput "invalid WAL write length"))
  else match check with
  | Err e => (s, Err e)
  | Panic => (s, Panic)
  | Ok (Waiting reason) => (s, Ok (Waiting reason))
  | Ok (Ready _) =>
      if failed s then (s, other "WAL admission failed")
      else if rotation_wanted s then (s, Ok (Waiting WalRotation))
      else if decide (index_capacity s ≤ unsubmitted s)
      then ({| point := point s; reserved_bytes := reserved_bytes s;
               index_capacity := index_capacity s; unsubmitted := unsubmitted s;
               rotation_wanted := rotation_wanted s; index_pressure := true; failed := failed s |},
            Ok (Waiting WalIndex))
      else
        let bytes := bytes + BLOCK_SIZE in
        match checked_add 64 (reserved_bytes s) bytes, checked_add 64 (unsubmitted s) 1 with
        | Some reserved, Some count =>
            let candidate := {| point := point s; reserved_bytes := reserved;
              index_capacity := index_capacity s; unsubmitted := count;
              rotation_wanted := rotation_wanted s; index_pressure := index_pressure s;
              failed := failed s |} in
            if is_none_or (State_used candidate)
                 (λ used, bool_decide (ps_capacity (point candidate) < used))
            then (set_rotation_wanted s, Ok (Waiting WalRotation))
            else (candidate, Ok (Ready {| sl_owner := owner; sl_bytes := bytes |}))
        | _, _ => (s, Panic)
        end
  end.

(** Giving a reservation back, consumed or not. *)
Definition release (s : State) (bytes : Z) : result State :=
  reserved ← expect (checked_sub (reserved_bytes s) bytes);
  count ← expect (checked_sub (unsubmitted s) 1);
  Ok {| point := point s; reserved_bytes := reserved; index_capacity := index_capacity s;
        unsubmitted := count; rotation_wanted := rotation_wanted s;
        index_pressure := index_pressure s; failed := failed s |}.

Definition Slot_drop (s : State) (slot : Slot) : result State :=
  if decide (sl_bytes slot = 0) then Ok s else release s (sl_bytes slot).

(** A packed write: its admission token and its payload bytes. *)
Record PackedWrite : Type := { wr_window : option Slot; wr_payload : Z }.

Definition admitted (owner : Z) (w : PackedWrite) : bool :=
  match wr_window w with
  | Some slot => bool_decide (sl_owner slot = owner) && Slot_matches slot (wr_payload w)
  | None => false
  end.

(** The loop that consumes the tokens of a batch. *)
Fixpoint consume (s : State) (writes : list PackedWrite) : result State :=
  match writes with
  | [] => Ok s
  | w :: writes =>
      slot ← expect (wr_window w);
      s ← release s (sl_bytes slot);
      consume s writes
  end.

Definition set_point (s : State) (p : Position) (capacity : Z) : State :=
  {| point := p; reserved_bytes := reserved_bytes s; index_capacity := capacity;
     unsubmitted := unsubmitted s; rotation_wanted := rotation_wanted s;
     index_pressure := index_pressure s; failed := failed s |}.

Definition Window_append `{Crc32} (owner : Z) (s : State) (log : Log) (builder : Builder)
    (writes : list PackedWrite) : State * Log * result Submission :=
  match State_at s log with
  | (s, Ok _) =>
      match State_require s
              (bool_decide (Z.of_nat (length writes) = bd_descriptors builder)
               && forallb (admitted owner) writes)
              "WAL batch lacks matching admission tokens" with
      | (s, Ok _) =>
          match Log_prepare_append log builder with
          | Ok (log, submission) =>
              match consume s writes, Log_position log with
              | Ok s, Ok p =>
                  match State_bounded (set_point s p (Log_append_capacity log)) with
                  | (s, Ok _) => (s, log, Ok submission)
                  | (s, Err e) => (s, log, Err e)
                  | (s, Panic) => (s, log, Panic)
                  end
              | _, _ => (s, log, Panic)
              end
          | Err e => (s, log, other (error_message e))
          | Panic => (s, log, Panic)
          end
      | (s, Err e) => (s, log, Err e)
      | (s, Panic) => (s, log, Panic)
      end
  | (s, Err e) => (s, log, Err e)
  | (s, Panic) => (s, log, Panic)
  end.

Definition Window_fence `{Crc32} (s : State) (log : Log) : State * Log * result Submission :=
  match State_at s log with
  | (s, Ok _) =>
      match Log_prepare_fence log with
      | Ok (log, submission) =>
          match Log_position log with
          | Ok p =>
              match State_bounded (set_point s p (index_capacity s)) with
              | (s, Ok _) => (s, log, Ok submission)
              | (s, Err e) => (s, log, Err e)
              | (s, Panic) => (s, log, Panic)
              end
          | _ => (s, log, Panic)
          end
      | Err e => (s, log, Err e)
      | Panic => (s, log, Panic)
      end
  | (s, Err e) => (s, log, Err e)
  | (s, Panic) => (s, log, Panic)
  end.

Definition Window_close (s : State) : State := set_rotation_wanted s.

Definition Window_refresh (s : State) (log : Log) : State * result bool :=
  match State_at s log with
  | (s, Ok _) =>
      match State_bounded (set_point s (point s) (Log_append_capacity log)) with
      | (s, Ok _) =>
          let reopened := index_pressure s && bool_decide (unsubmitted s < index_capacity s) in
          ({| point := point s; reserved_bytes := reserved_bytes s;
              index_capacity := index_capacity s; unsubmitted := unsubmitted s;
              rotation_wanted := rotation_wanted s;
              index_pressure := if reopened then false else index_pressure s;
              failed := failed s |}, Ok reopened)
      | (s, Err e) => (s, Err e)
      | (s, Panic) => (s, Panic)
      end
  | (s, Err e) => (s, Err e)
  | (s, Panic) => (s, Panic)
  end.

Definition Window_before_rotation (s : State) (log : Log) : State * result unit :=
  match State_at s log with
  | (s, Ok _) => State_require s (rotation_wanted s && bool_decide (unsubmitted s = 0))
                   "WAL rotation has unsubmitted admission tokens"
  | (s, r) => (s, r)
  end.

Definition Window_installed (s : State) (log : Log) : State * result bool :=
  match Log_position log with
  | Ok p =>
      if decide (ps_segment p = ps_segment (point s))
      then match State_at s log with
           | (s, Ok _) => (s, Ok false)
           | (s, Err e) => (s, Err e)
           | (s, Panic) => (s, Panic)
           end
      else
        let valid := rotation_wanted s && bool_decide (unsubmitted s = 0)
          && bool_decide (ps_segment (point s) < ps_segment p)
          && bool_decide (ps_capacity p = ps_capacity (point s))
          && bool_decide (ps_end p = BLOCK_SIZE) && bool_decide (ps_issued p = ps_issued (point s))
          && bool_decide (ps_fenced p = ps_issued p) && ps_initial_fence p in
        match State_require s valid "WAL successor differs from admission boundary" with
        | (s, Ok _) =>
            match State_bounded {| point := p; reserved_bytes := reserved_bytes s;
                index_capacity := Log_append_capacity log; unsubmitted := unsubmitted s;
                rotation_wanted := false; index_pressure := index_pressure s; failed := failed s |} with
            | (s, Ok _) => (s, Ok true)
            | (s, Err e) => (s, Err e)
            | (s, Panic) => (s, Panic)
            end
        | (s, Err e) => (s, Err e)
        | (s, Panic) => (s, Panic)
        end
  | Err e => (s, Err e)
  | Panic => (s, Panic)
  end.

(** ** The window with its log *)

Record WindowWorld : Type := {
  vw_world : World;
  vw_state : State;
  vw_slots : list Slot;
}.

Definition set_log (w : World) (log : Log) : World :=
  {| wd_log := log; wd_disk := wd_disk w; wd_flights := wd_flights w; wd_issued := wd_issued w;
     wd_rotation := wd_rotation w; wd_synced := wd_synced w |}.

(** The world after a submission was prepared. *)
Definition submitted (w : World) (log : Log) (sub : Submission) (l : list Mutation) : World :=
  {| wd_log := log; wd_disk := wd_disk w;
     wd_flights := wd_flights w ++ [{| fl_sub := sub; fl_mutations := l; fl_written := false |}];
     wd_issued := wd_issued w ++ numbered (lg_issued (wd_log w) + 1) l;
     wd_rotation := wd_rotation w; wd_synced := wd_synced w |}.

(** [writes] carries the tokens [taken] and the payload lengths of [l], each
    token having been reserved for its write. *)
Definition batch_of (writes : list PackedWrite) (taken : list Slot) (l : list Mutation) : Prop :=
  wr_window <$> writes = Some <$> taken ∧ wr_payload <$> writes = d_payload_length <$> l.*1 ∧
  sl_bytes <$> taken = (λ m, d_payload_length m.1 + BLOCK_SIZE) <$> l.

Inductive window_step `{Crc32} (owner : Z) : WindowWorld → WindowWorld → Prop :=
  | window_reserve v bytes check s slot :
      0 ≤ bytes → Window_reserve owner (vw_state v) bytes check = (s, Ok (Ready slot)) →
      window_step owner v {| vw_world := vw_world v; vw_state := s; vw_slots := vw_slots v ++ [slot] |}
  | window_refuse v bytes check s reason :
      0 ≤ bytes → Window_reserve owner (vw_state v) bytes check = (s, Ok (Waiting reason)) →
      window_step owner v {| vw_world := vw_world v; vw_state := s; vw_slots := vw_slots v |}
  | window_drop v pre slot post s :
      vw_slots v = pre ++ slot :: post → Slot_drop (vw_state v) slot = Ok s →
      window_step owner v {| vw_world := vw_world v; vw_state := s; vw_slots := pre ++ post |}
  | window_append v cap builder l writes taken rest s log sub :
      0 ≤ cap → bytes_ok (bd_buffer builder) →
      packed_by (cf_image_bytes (lg_config (wd_log (vw_world v)))) cap builder l →
      vw_slots v ≡ₚ taken ++ rest → batch_of writes taken l →
      Window_append owner (vw_state v) (wd_log (vw_world v)) builder writes = (s, log, Ok sub) →
      window_step owner v
        {| vw_world := submitted (vw_world v) log sub l; vw_state := s; vw_slots := rest |}
  | window_append_refused v cap builder l writes taken rest s log e :
      0 ≤ cap → packed_by (cf_image_bytes (lg_config (wd_log (vw_world v)))) cap builder l →
      vw_slots v ≡ₚ taken ++ rest → batch_of writes taken l →
      Window_append owner (vw_state v) (wd_log (vw_world v)) builder writes = (s, log, Err e) →
      window_step owner v
        {| vw_world := set_log (vw_world v) log; vw_state := s; vw_slots := vw_slots v |}
  | window_fence v boundary s log sub :
      (* a flush the log does not cover yet *)
      boundary ≤ lg_issued (wd_log (vw_world v)) → Log_covers_flush (wd_log (vw_world v)) boundary = false →
      Window_fence (vw_state v) (wd_log (vw_world v)) = (s, log, Ok sub) →
      window_step owner v {| vw_world := submitted (vw_world v) log sub []; vw_state := s;
        vw_slots := vw_slots v |}
  | window_fence_refused v boundary s log e :
      boundary ≤ lg_issued (wd_log (vw_world v)) → Log_covers_flush (wd_log (vw_world v)) boundary = false →
      Window_fence (vw_state v) (wd_log (vw_world v)) = (s, log, Err e) →
      window_step owner v
        {| vw_world := set_log (vw_world v) log; vw_state := s; vw_slots := vw_slots v |}
  | window_complete v w :
      (* completed writes, publications, syncs, cancelled rotations and failures *)
      world_step (vw_world v) w →
      lg_offset (wd_log w) = lg_offset (wd_log (vw_world v)) →
      lg_segments (wd_log w) = lg_segments (wd_log (vw_world v)) →
      (lg_rotating (wd_log w) = true → lg_rotating (wd_log (vw_world v)) = true) →
      window_step owner v {| vw_world := w; vw_state := vw_state v; vw_slots := vw_slots v |}
  | window_refresh v s r :
      Window_refresh (vw_state v) (wd_log (vw_world v)) = (s, r) →
      window_step owner v {| vw_world := vw_world v; vw_state := s; vw_slots := vw_slots v |}
  | window_close v :
      window_step owner v {| vw_world := vw_world v; vw_state := Window_close (vw_state v);
        vw_slots := vw_slots v |}
  | window_rotate v kind s log r :
      Window_before_rotation (vw_state v) (wd_log (vw_world v)) = (s, Ok tt) →
      Log_prepare_rotation (wd_log (vw_world v)) kind (Ok tt) = Ok (log, r) →
      window_step owner v {| vw_world := {|
          wd_log := log; wd_disk := wd_disk (vw_world v); wd_flights := wd_flights (vw_world v);
          wd_issued := wd_issued (vw_world v); wd_rotation := Some r; wd_synced := wd_synced (vw_world v) |};
        vw_state := s; vw_slots := vw_slots v |}
  | window_install v r number allocated file log s res :
      wd_rotation (vw_world v) = Some r → wd_disk (vw_world v) !! number = None →
      ro_highest r < number → fits 64 number → 0 ≤ allocated →
      SegmentHeader_encode (rd_segment (Rotation_create r number allocated)) = Ok file →
      Log_install_rotation (wd_log (vw_world v)) (Rotation_create r number allocated) = (log, Ok tt) →
      Window_installed (vw_state v) log = (s, res) →
      window_step owner v {| vw_world := {|
          wd_log := log; wd_disk := <[number := file]> (wd_disk (vw_world v));
          wd_flights := wd_flights (vw_world v); wd_issued := wd_issued (vw_world v);
          wd_rotation := None; wd_synced := BLOCK_SIZE |};
        vw_state := s; vw_slots := vw_slots v |}.

Inductive window_reachable `{Crc32} (owner : Z) (c : Config) (lim : Limits) : WindowWorld → Prop :=
  | window_new w s :
      world_reachable c lim w → lg_rotating (wd_log w) = false → Window_new (wd_log w) = Ok s →
      window_reachable owner c lim {| vw_world := w; vw_state := s; vw_slots := [] |}
  | window_next v v' :
      window_reachable owner c lim v → window_step owner v v' → window_reachable owner c lim v'.

(** ** Arithmetic of the window *)

Definition demand (s : State) : Z :=
  ps_end (point s) + reserved_bytes s +
  (ps_issued (point s) - ps_fenced (point s) + unsubmitted s + Z.b2z (ps_initial_fence (point s))) * BLOCK_SIZE.

Record nonnegative (s : State) : Prop := {
  nn_end : 0 ≤ ps_end (point s);
  nn_fenced : 0 ≤ ps_fenced (point s) ≤ ps_issued (point s);
  nn_issued : ps_issued (point s) < 2 ^ 64;
  nn_reserved : 0 ≤ reserved_bytes s;
  nn_unsubmitted : 0 ≤ unsubmitted s;
  nn_capacity : ps_capacity (point s) < 2 ^ 64;
}.

Lemma used_fits s :
  nonnegative s → demand s ≤ ps_capacity (point s) →
  ∃ used, State_used s = Some used ∧ used = demand s.
Proof.
  intros [N1 N2 N3 N4 N5 N6] Hd. unfold demand, BLOCK_SIZE in *. unfold State_used.
  set (p := point s) in *. assert (0 ≤ Z.b2z (ps_initial_fence p) ≤ 1) by (destruct (ps_initial_fence p); cbn; lia).
  rewrite checked_sub_fits by lia. cbn [mbind option_bind].
  rewrite checked_add_fits by lia. cbn [mbind option_bind]. rewrite checked_add_fits by lia. cbn [mbind option_bind].
  rewrite checked_add_fits by lia. cbn [mbind option_bind]. unfold checked_mul, BLOCK_SIZE.
  rewrite decide_True by lia. cbn [mbind option_bind]. rewrite checked_add_fits by lia. eexists. split; [done|]. lia.
Qed.

Lemma used_demand s used : State_used s = Some used → used = demand s ∧ ps_fenced (point s) ≤ ps_issued (point s).
Proof.
  unfold State_used, demand. set (p := point s). intros E.
  destruct (checked_sub _ _) as [a|] eqn:E1; cbn [mbind option_bind] in E; [|done]. apply checked_sub_Some in E1 as [-> ?].
  destruct (checked_add 64 _ (unsubmitted s)) as [a|] eqn:E2; cbn [mbind option_bind] in E; [|done]. apply checked_add_Some in E2 as [-> ?].
  destruct (checked_add 64 _ (Z.b2z _)) as [a|] eqn:E3; cbn [mbind option_bind] in E; [|done]. apply checked_add_Some in E3 as [-> ?].
  destruct (checked_add 64 _ (reserved_bytes s)) as [a|] eqn:E4; cbn [mbind option_bind] in E; [|done]. apply checked_add_Some in E4 as [-> ?].
  destruct (checked_mul 64 _ _) as [m|] eqn:E5; cbn [mbind option_bind] in E; [|done].
  unfold checked_mul in E5. case_decide; [|done]. injection E5 as <-.
  apply checked_add_Some in E as [-> ?]. split; [lia|lia].
Qed.

(** ** Facts of the log the window relies on *)

Lemma cohort_boundary `{Crc32} c lim w co :
  world_reachable c lim w → lg_cohort (wd_log w) = Some co → 0 ≤ co_boundary co ≤ lg_issued (wd_log w).
Proof.
  intros Hw. revert co. induction Hw as [number allocated file log H1 H2 H3 H4 H5|w w' Hw IH Hs]; intros co.
  { unfold Log_create in H5. apply result_bind_ok in H5 as ([] & _ & H5).
    apply result_bind_ok in H5 as (? & _ & H5). case_decide; [done|]. by injection H5 as <-. }
  destruct (world_reachable_inv _ _ _ Hw) as (cur & file & W). pose proof W as [W1 W2 W3 W4 W5 W6 W7 W8 W9 W10 W11 W12 W13 W14 W15 W16 W17].
  destruct Hs as [w cap b ms log sub Hcap Hbytes Hp E | w pre f post file0 Hf Hu Hd
    | w pre f post log Hf Hu E | w log sub E | w pre f post log durable Hf Hu E | w kind log r E
    | w r log Hr E | w r number allocated' new log res Hr Hn Hhi Hfit Ha Henc E | w]; cbn [wd_log].
  - destruct (prepare_append_ok _ _ _ _ _ E W3) as (batch & _ & Hck & _ & ->). cbn [lg_cohort].
    apply check_append_ok in Hck as (_ & -> & _). done.
  - apply IH.
  - destruct (publish_append_ok _ _ _ _ E W3) as (h & ix & _ & _ & _ & _ & _ & ->). cbn. apply IH.
  - destruct (prepare_fence_ok _ _ _ _ E W3) as (C1 & C2 & C3 & C4 & batch & Hf & -> & ->). cbn [lg_cohort lg_issued].
    intros [= <-]. unfold Cohort_from. cbn [co_boundary sb_batch].
    destruct (fence_decodes (sh_number cur) (lg_next_batch (wd_log w)) (lg_issued (wd_log w)) 0
      batch (proj1 W4) ltac:(unfold fits; lia) ltac:(unfold fits; lia) Hf) as (-> & _). cbn. lia.
  - apply complete_sync_ok in E as (_ & _ & _ & _ & _ & ->). done.
  - destruct (prepare_rotation_ok _ _ _ _ _ E W3) as (-> & _). apply IH.
  - unfold Log_cancel_rotation in E. apply result_bind_ok in E as ([] & _ & E).
    apply result_bind_ok in E as ([] & _ & E). injection E as <-. apply IH.
  - destruct res as [[]|e|].
    + apply install_ok in E as (_ & -> & _). cbn. apply IH.
    + destruct (install_failed _ _ _ _ E eq_refl) as [-> | ->]; apply IH.
    + destruct (install_failed _ _ _ _ E eq_refl) as [-> | ->]; apply IH.
  - apply IH.
Qed.

Definition fenced_prefix (log : Log) : Z :=
  match lg_cohort log with Some co => co_boundary co | None => lg_durable log end.

Definition position_of (cur : SegmentHeader) (log : Log) : Position :=
  {| ps_segment := sh_number cur; ps_capacity := cf_segment_bytes (lg_config log); ps_end := lg_offset log;
     ps_issued := lg_issued log; ps_fenced := fenced_prefix log;
     ps_initial_fence := negb (lg_fenced log) && bool_decide (lg_cohort log = None) |}.

Lemma Log_position_of log cur : last (lg_segments log) = Some cur → Log_position log = Ok (position_of cur log).
Proof. intros Hc. unfold Log_position, Log_current. by rewrite Hc. Qed.

Lemma fenced_prefix_bound `{Crc32} c lim w :
  world_reachable c lim w → 0 ≤ fenced_prefix (wd_log w) ≤ lg_issued (wd_log w).
Proof.
  intros Hw. unfold fenced_prefix. destruct (lg_cohort _) as [co|] eqn:Hc; [by eapply cohort_boundary|].
  destruct (world_reachable_inv _ _ _ Hw) as (cur & file & W). pose proof (wi_order _ _ _ _ _ W). lia.
Qed.

(** Releasing tokens. *)
Definition released (s : State) (bytes count : Z) : State :=
  {| point := point s; reserved_bytes := reserved_bytes s - bytes; index_capacity := index_capacity s;
     unsubmitted := unsubmitted s - count; rotation_wanted := rotation_wanted s;
     index_pressure := index_pressure s; failed := failed s |}.

Lemma release_ok s bytes :
  bytes ≤ reserved_bytes s → 1 ≤ unsubmitted s → release s bytes = Ok (released s bytes 1).
Proof. intros H1 H2. unfold release. by rewrite !checked_sub_fits by done. Qed.

Lemma consume_ok writes : ∀ s taken,
  wr_window <$> writes = Some <$> taken → Forall (λ t, 0 ≤ sl_bytes t) taken →
  sumZ (sl_bytes <$> taken) ≤ reserved_bytes s → Z.of_nat (length taken) ≤ unsubmitted s →
  consume s writes = Ok (released s (sumZ (sl_bytes <$> taken)) (Z.of_nat (length taken))).
Proof.
  induction writes as [|w writes IH]; intros s [|t taken] E Hn Hb Hl; cbn in E; try done.
  - cbn. destruct s. unfold released. cbn. f_equal. f_equal; lia.
  - injection E as Ew E. apply Forall_cons in Hn as [Hn0 Hn]. cbn [consume fmap list_fmap sumZ length] in *.
    assert (0 ≤ sumZ (sl_bytes <$> taken)) by (by apply sumZ_nonneg).
    rewrite Ew. cbn [expect]. rewrite bind_Ok, release_ok, bind_Ok by lia. rewrite (IH _ taken) by (done || (cbn; lia)).
    f_equal. unfold released. cbn. f_equal; lia.
Qed.

Lemma batch_bytes writes taken l :
  batch_of writes taken l →
  sumZ (sl_bytes <$> taken) = sumZ (d_payload_length <$> l.*1) + Z.of_nat (length l) * BLOCK_SIZE ∧
  length taken = length l ∧ length writes = length l.
Proof.
  intros (E1 & E2 & E3). apply (f_equal length) in E2 as L2. apply (f_equal length) in E3 as L3.
  rewrite !length_fmap in L2. rewrite !length_fmap in L3. split; [|done]. rewrite E3. clear.
  induction l as [|m l IH]; [done|]. cbn [fmap list_fmap sumZ length] in *. lia.
Qed.

Lemma batch_admitted owner writes : ∀ taken l,
  batch_of writes taken l → Forall (λ t, sl_owner t = owner ∧ sl_bytes t < 2 ^ 64) taken →
  forallb (admitted owner) writes = true.
Proof.
  induction writes as [|w writes IH]; intros [|t taken] [|m l] (E1 & E2 & E3) Ho; cbn in E1, E2, E3; try done.
  injection E1 as Ew E1. injection E2 as Ep E2. injection E3 as Eb E3. apply Forall_cons in Ho as [[Ho1 Ho2] Ho].
  cbn [forallb]. apply andb_true_iff. split; [|by apply (IH taken l)].
  unfold admitted. rewrite Ew, Ho1. rewrite bool_decide_true by done. cbn [andb]. unfold Slot_matches.
  apply bool_decide_eq_true. rewrite Ep, checked_add_fits by lia. by rewrite Eb.
Qed.

(** ** The invariant *)

Record window_inv `{Crc32} (owner : Z) (c : Config) (lim : Limits) (v : WindowWorld) (cur : SegmentHeader)
    : Prop := {
  vi_reachable : world_reachable c lim (vw_world v);
  vi_current : last (lg_segments (wd_log (vw_world v))) = Some cur;
  vi_failed : failed (vw_state v) = false;
  vi_point : point (vw_state v) = position_of cur (wd_log (vw_world v));
  vi_slots : Forall (λ t, sl_owner t = owner ∧ BLOCK_SIZE ≤ sl_bytes t) (vw_slots v);
  vi_reserved : reserved_bytes (vw_state v) = sumZ (sl_bytes <$> vw_slots v);
  vi_unsubmitted : unsubmitted (vw_state v) = Z.of_nat (length (vw_slots v));
  vi_demand : demand (vw_state v) ≤ ps_capacity (point (vw_state v));
  vi_index : unsubmitted (vw_state v) ≤ index_capacity (vw_state v) ≤ Log_append_capacity (wd_log (vw_world v));
  vi_rotating : lg_rotating (wd_log (vw_world v)) = true →
    rotation_wanted (vw_state v) = true ∧ unsubmitted (vw_state v) = 0;
}.

Lemma slots_nonneg owner (l : list Slot) :
  Forall (λ t, sl_owner t = owner ∧ BLOCK_SIZE ≤ sl_bytes t) l → Forall (λ t, 0 ≤ sl_bytes t) l.
Proof. intros Hl. eapply Forall_impl; [exact Hl|]. intros t [_ Ht]. unfold BLOCK_SIZE in Ht. cbn. lia. Qed.

(** The log's numbers, in range. *)
Lemma position_nonneg `{Crc32} c lim w cur s :
  world_reachable c lim w → last (lg_segments (wd_log w)) = Some cur → point s = position_of cur (wd_log w) →
  0 ≤ reserved_bytes s → 0 ≤ unsubmitted s → nonnegative s.
Proof.
  intros Hw Hc Hp Hr Hu. destruct (world_reachable_inv _ _ _ Hw) as (cur' & file & W).
  pose proof (fenced_prefix_bound _ _ _ Hw) as Hf. destruct W as [[W1 _] [W2 _] _ _ _ [_ W6] _ _ _ (_ & W10 & _) _ _ _ _ _ _ _].
  unfold BLOCK_SIZE in W10. split; rewrite ?Hp; cbn; try lia. rewrite W1. apply W2.
Qed.

Lemma window_nonneg `{Crc32} owner c lim v cur : window_inv owner c lim v cur → nonnegative (vw_state v).
Proof.
  intros [V1 V2 V3 V4 V5 V6 V7 V8 V9 V10]. eapply position_nonneg; [exact V1|exact V2|exact V4| |lia].
  rewrite V6. apply sumZ_nonneg. by eapply slots_nonneg.
Qed.

Lemma State_at_ok s log cur :
  failed s = false → last (lg_segments log) = Some cur → point s = position_of cur log → State_at s log = (s, Ok tt).
Proof.
  intros Hf Hc Hp. unfold State_at. rewrite (Log_position_of _ _ Hc). unfold State_require.
  by rewrite Hf, Hp, bool_decide_true.
Qed.

Lemma State_bounded_ok s :
  failed s = false → nonnegative s → demand s ≤ ps_capacity (point s) → unsubmitted s ≤ index_capacity s →
  State_bounded s = (s, Ok tt).
Proof.
  intros Hf Hn Hd Hi. destruct (used_fits s Hn Hd) as (used & E & ->). unfold State_bounded, State_require.
  rewrite E, Hf. cbn [is_some_and orb]. by rewrite !bool_decide_true by done.
Qed.

Lemma packed_payload `{Crc32} image cap b l :
  0 ≤ cap → packed_by image cap b l →
  bd_payload_bytes b = sumZ (d_payload_length <$> l.*1) ∧ bd_descriptors b = Z.of_nat (length l) ∧
  bd_image_bytes b = image.
Proof.
  intros Hc Hp. pose proof (packed_by_inv _ _ _ _ Hc Hp) as Hi.
  split; [|split; [apply Hi|apply Hi]]. rewrite (chain_total _ _ _ _ (bi_chain _ _ _ _ Hi)).
  unfold payload_before. by rewrite take_ge by done.
Qed.

(** Consumed tokens give the window the room the batch takes. *)
Lemma append_capacity_step s n k ix :
  0 ≤ lg_pending_descriptors s → Index_len ix = Index_len (lg_index s) → k ≤ Log_append_capacity s → 0 ≤ k →
  lm_intervals (lg_limits s) = n →
  saturating_sub (saturating_sub n (Index_len ix) / 2) (lg_pending_descriptors s + k) = Log_append_capacity s - k.
Proof.
  intros Hp Hi Hk Hk0 Hn. unfold Log_append_capacity, saturating_sub in *. rewrite Hi, Hn in *.
  set (a := Z.max (n - Index_len (lg_index s)) 0 / 2) in *. lia.
Qed.

(** The order of the tokens does not matter. *)
#[local] Instance sumZ_perm : Proper ((≡ₚ) ==> (=)) sumZ.
Proof. intros l k Hp. induction Hp; cbn; lia. Qed.

Section append.
Context `{Crc32} (owner : Z) (c : Config) (lim : Limits) (v : WindowWorld) (cur : SegmentHeader).
Context (Hv : window_inv owner c lim v cur) (cap : Z) (Hcap : 0 ≤ cap) (builder : Builder) (l : list Mutation).
Context (Hp : packed_by (cf_image_bytes (lg_config (wd_log (vw_world v)))) cap builder l).
Context (writes : list PackedWrite) (taken rest : list Slot).
Context (Hsplit : vw_slots v ≡ₚ taken ++ rest) (Hbatch : batch_of writes taken l).

Lemma batch_accounts :
  sumZ (sl_bytes <$> taken) = bd_payload_bytes builder + Z.of_nat (length l) * BLOCK_SIZE ∧
  reserved_bytes (vw_state v) = sumZ (sl_bytes <$> taken) + sumZ (sl_bytes <$> rest) ∧
  unsubmitted (vw_state v) = Z.of_nat (length l) + Z.of_nat (length rest) ∧
  Forall (λ t, sl_owner t = owner ∧ BLOCK_SIZE ≤ sl_bytes t) taken ∧
  Forall (λ t, sl_owner t = owner ∧ BLOCK_SIZE ≤ sl_bytes t) rest ∧
  0 ≤ sumZ (sl_bytes <$> taken) ∧ 0 ≤ sumZ (sl_bytes <$> rest) ∧ length taken = length l.
Proof.
  destruct Hv as [V1 V2 V3 V4 V5 V6 V7 V8 V9 V10]. destruct (batch_bytes _ _ _ Hbatch) as (B1 & B2 & B3).
  destruct (packed_payload _ _ _ _ Hcap Hp) as (P1 & P2 & P3).
  rewrite Hsplit in V5. apply Forall_app in V5 as [T1 T2].
  assert (Hsum : sumZ (sl_bytes <$> vw_slots v) = sumZ (sl_bytes <$> taken) + sumZ (sl_bytes <$> rest)).
  { rewrite <- sumZ_app, <- fmap_app. by rewrite Hsplit. }
  pose proof (Permutation_length Hsplit) as Hl. rewrite length_app in Hl.
  split_and!; try done; try lia; apply sumZ_nonneg; by eapply slots_nonneg.
Qed.

Lemma batch_tokens : forallb (admitted owner) writes = true.
Proof.
  destruct batch_accounts as (A1 & A2 & A3 & A4 & A5 & A6 & A7 & A8).
  destruct Hv as [V1 V2 V3 V4 V5 V6 V7 V8 V9 V10]. pose proof (window_nonneg _ _ _ _ _ Hv) as [N1 N2 N3 N4 N5 N6].
  apply (batch_admitted owner writes taken l Hbatch). apply Forall_forall. intros t Ht.
  destruct (proj1 (Forall_forall _ _) A4 t Ht) as [T1 T2]. split; [done|].
  assert (sl_bytes t ≤ sumZ (sl_bytes <$> taken)).
  { apply list_elem_of_lookup in Ht as [i Hi]. apply (sumZ_fmap_lookup sl_bytes taken i t); [|done].
    by eapply slots_nonneg. }
  unfold demand, BLOCK_SIZE in V8. destruct (ps_initial_fence _); cbn in V8; lia.
Qed.

(** The log has room for the batch: it is refused only for its own reasons. *)
Lemma batch_fits :
  lg_failed (wd_log (vw_world v)) = false → lg_cohort (wd_log (vw_world v)) = None →
  lg_rotating (wd_log (vw_world v)) = false → l ≠ [] →
  lg_issued (wd_log (vw_world v)) + Z.of_nat (length l) < 2 ^ 64 →
  lg_next_batch (wd_log (vw_world v)) + 1 < 2 ^ 64 →
  ∃ log sub, Log_prepare_append (wd_log (vw_world v)) builder = Ok (log, sub).
Proof.
  intros F1 F2 F3 Hne F5 F6. destruct batch_accounts as (A1 & A2 & A3 & A4 & A5 & A6 & A7 & A8).
  destruct Hv as [V1 V2 V3 V4 V5 V6 V7 V8 V9 V10]. pose proof (window_nonneg _ _ _ _ _ Hv) as [N1 N2 N3 N4 N5 N6].
  destruct (packed_payload _ _ _ _ Hcap Hp) as (P1 & P2 & P3).
  destruct (world_reachable_inv _ _ _ V1) as (cur' & file & W).
  pose proof W as [W1 W2 W3 W4 W5 W6 W7 W8 W9 W10 W11 W12 W13 W14 W15 W16 W17].
  assert (Hl : 0 < Z.of_nat (length l)) by (destruct l; [done|cbn; lia]).
  assert (Hck : Log_check_append (wd_log (vw_world v)) builder = Ok tt).
  { unfold Log_check_append, Log_healthy. rewrite F1, bind_Ok, F2, F3, P2, P3.
    rewrite (bool_decide_false (None ≠ None)) by auto. cbn [orb].
    rewrite (bool_decide_false (Z.of_nat _ = 0)), (bool_decide_false (_ ≠ _)) by (auto || lia). cbn [orb].
    rewrite decide_False by lia. rewrite !checked_add_fits by lia. cbn [ok_or]. rewrite !bind_Ok.
    rewrite decide_False; [done|]. unfold demand in V8. rewrite V4 in V8, N2. cbn in V8, N2. unfold BLOCK_SIZE in *.
    destruct (negb _ && _); cbn in V8; lia. }
  unfold Log_prepare_append. rewrite Hck, bind_Ok. unfold Log_current, Log_reserve, Log_current. rewrite V2.
  cbn [expect]. rewrite bind_Ok. rewrite V2 in W3. injection W3 as <-. unfold Builder_seal.
  rewrite P2. destruct W4 as [W4a W4b], W6 as [W6a W6b]. unfold AppendFormat.require.
  rewrite !(bool_decide_true (_ ≠ _)) by (auto || lia). cbn [andb]. rewrite bind_Ok, checked_add_fits by lia.
  cbn [ok_or]. rewrite !bind_Ok. eauto.
Qed.

Lemma append_outcome :
  match Log_prepare_append (wd_log (vw_world v)) builder with
  | Ok (log, sub) => ∃ s, Window_append owner (vw_state v) (wd_log (vw_world v)) builder writes = (s, log, Ok sub) ∧
      (bytes_ok (bd_buffer builder) → window_inv owner c lim {| vw_world := submitted (vw_world v) log sub l; vw_state := s; vw_slots := rest |} cur)
  | Err e => Window_append owner (vw_state v) (wd_log (vw_world v)) builder writes =
      (vw_state v, wd_log (vw_world v), other (error_message e))
  | Panic => Window_append owner (vw_state v) (wd_log (vw_world v)) builder writes =
      (vw_state v, wd_log (vw_world v), Panic)
  end.
Proof.
  destruct batch_accounts as (A1 & A2 & A3 & A4 & A5 & A6 & A7 & A8). pose proof batch_tokens as Ht.
  pose proof Hv as [V1 V2 V3 V4 V5 V6 V7 V8 V9 V10]. pose proof (window_nonneg _ _ _ _ _ Hv) as [N1 N2 N3 N4 N5 N6].
  destruct (packed_payload _ _ _ _ Hcap Hp) as (P1 & P2 & P3).
  destruct (batch_bytes _ _ _ Hbatch) as (_ & _ & B3).
  assert (Hreq : ∀ m, State_require (vw_state v) (bool_decide (Z.of_nat (length writes) = bd_descriptors builder)
    && forallb (admitted owner) writes) m = (vw_state v, Ok tt)).
  { intros m. unfold State_require. by rewrite V3, Ht, P2, B3, bool_decide_true. }
  unfold Window_append. rewrite (State_at_ok _ _ _ V3 V2 V4), Hreq.
  destruct (Log_prepare_append _ _) as [[log sub]|e|] eqn:E; [|done|done].
  destruct (world_reachable_inv _ _ _ V1) as (cur' & file & W).
  pose proof W as [W1 W2 W3 W4 W5 W6 W7 W8 W9 W10 W11 W12 W13 W14 W15 W16 W17].
  rewrite V2 in W3. injection W3 as <-.
  assert (Hw' : bytes_ok (bd_buffer builder) → world_reachable c lim (submitted (vw_world v) log sub l)).
  { intros Hb. eapply world_next; [exact V1|]. eapply world_append; [exact Hcap|exact Hb|exact Hp|exact E]. }
  destruct (prepare_append_ok _ _ _ _ _ E V2) as (batch & Hseal & Hck & Hsub & Hlog).
  apply check_append_ok in Hck as (C1 & C2 & C3 & C4 & C5 & C6 & C7 & C8 & C9).
  destruct (sealed_batch_ok _ cap builder l (sh_number cur) (lg_next_batch (wd_log (vw_world v)))
    (lg_issued (wd_log (vw_world v)) + 1) batch Hcap Hp (proj1 W4) ltac:(unfold fits; lia) ltac:(unfold fits; lia) Hseal) as [Hbo He].
  pose proof (bo_len _ _ _ Hbo) as Hlen. rewrite He in Hlen. cbn [env_payload_bytes] in Hlen.
  rewrite (consume_ok writes (vw_state v) taken (proj1 Hbatch)); [|by eapply slots_nonneg|lia|lia].
  assert (Hcur' : last (lg_segments log) = Some cur) by (by rewrite Hlog).
  rewrite (Log_position_of _ _ Hcur').
  assert (Hpos : position_of cur log = {| ps_segment := sh_number cur;
    ps_capacity := ps_capacity (point (vw_state v));
    ps_end := ps_end (point (vw_state v)) + (BLOCK_SIZE + bd_payload_bytes builder);
    ps_issued := ps_issued (point (vw_state v)) + Z.of_nat (length l);
    ps_fenced := ps_fenced (point (vw_state v)); ps_initial_fence := ps_initial_fence (point (vw_state v)) |}).
  { rewrite V4, Hlog. unfold position_of, fenced_prefix. cbn. rewrite Hlen, He. cbn. f_equal. lia. }
  assert (Hcapa : Log_append_capacity log = Log_append_capacity (wd_log (vw_world v)) - Z.of_nat (length l)).
  { rewrite Hlog. unfold Log_append_capacity at 1. cbn. rewrite P2. apply append_capacity_step; [lia|done|lia|lia|done]. }
  set (s' := set_point _ _ _).
  assert (Hd : demand s' ≤ ps_capacity (point s')).
  { unfold demand in *. change (point s') with (position_of cur log). rewrite Hpos.
    change (reserved_bytes s') with (reserved_bytes (vw_state v) - sumZ (sl_bytes <$> taken)).
    change (unsubmitted s') with (unsubmitted (vw_state v) - Z.of_nat (length taken)).
    cbn [ps_end ps_issued ps_fenced ps_initial_fence ps_capacity]. unfold BLOCK_SIZE in *. rewrite P2 in C4. lia. }
  assert (Hn' : nonnegative s').
  { unfold BLOCK_SIZE in *. split; change (point s') with (position_of cur log); rewrite ?Hpos;
      cbn [ps_end ps_issued ps_fenced ps_capacity s' set_point released reserved_bytes unsubmitted].
    all: assert (ps_issued (point (vw_state v)) = lg_issued (wd_log (vw_world v))) by (by rewrite V4).
    all: pose proof (bi_bound _ _ _ _ (packed_by_inv _ _ _ _ Hcap Hp)). 1-3: lia. 1-3: cbn; lia. }
  rewrite (State_bounded_ok s'); [|done|done|exact Hd|unfold s'; cbn; lia].
  exists s'. split; [done|]. intros Hb. split; cbn [vw_world vw_state vw_slots submitted wd_log]; try done.
  - by apply Hw'.
  - unfold s'. cbn. lia.
  - unfold s'. cbn. lia.
  - unfold s'. cbn. lia.
  - intros R. rewrite Hlog in R. cbn in R. congruence.
Qed.

End append.

Section fence.
Context `{Crc32} (owner : Z) (c : Config) (lim : Limits) (v : WindowWorld) (cur : SegmentHeader).
Context (Hv : window_inv owner c lim v cur) (boundary : Z).
Context (Hbound : boundary ≤ lg_issued (wd_log (vw_world v))).
Context (Hcovers : Log_covers_flush (wd_log (vw_world v)) boundary = false).

(** An uncovered flush still has its fence reserved. *)
Lemma fence_reserved :
  lg_cohort (wd_log (vw_world v)) = None →
  1 ≤ ps_issued (point (vw_state v)) - ps_fenced (point (vw_state v)) + Z.b2z (ps_initial_fence (point (vw_state v))).
Proof.
  intros Hc. pose proof (window_nonneg _ _ _ _ _ Hv) as [N1 N2 N3 N4 N5 N6].
  rewrite (vi_point _ _ _ _ _ Hv) in *. unfold position_of, fenced_prefix in *. cbn in *. rewrite Hc in *.
  rewrite (bool_decide_true (None = None)) in * by done. unfold Log_covers_flush in Hcovers.
  destruct (lg_fenced _); cbn in *; [|lia]. rewrite bool_decide_eq_false in Hcovers. lia.
Qed.

Lemma fence_fits :
  lg_failed (wd_log (vw_world v)) = false → lg_cohort (wd_log (vw_world v)) = None →
  lg_rotating (wd_log (vw_world v)) = false → lg_next_batch (wd_log (vw_world v)) + 1 < 2 ^ 64 →
  ∃ log sub, Log_prepare_fence (wd_log (vw_world v)) = Ok (log, sub).
Proof.
  intros F1 F2 F3 F4. pose proof (fence_reserved F2) as Hr.
  pose proof Hv as [V1 V2 V3 V4 V5 V6 V7 V8 V9 V10]. pose proof (window_nonneg _ _ _ _ _ Hv) as [N1 N2 N3 N4 N5 N6].
  destruct (world_reachable_inv _ _ _ V1) as (cur' & file & W).
  pose proof W as [W1 W2 W3 W4 W5 W6 W7 W8 W9 W10 W11 W12 W13 W14 W15 W16 W17].
  rewrite V2 in W3. injection W3 as <-.
  unfold Log_prepare_fence, Log_healthy. rewrite F1, bind_Ok, F2, F3.
  rewrite (bool_decide_false (None ≠ None)) by auto. cbn [orb]. unfold demand in V8. unfold BLOCK_SIZE in *.
  assert (Hend : ps_end (point (vw_state v)) = lg_offset (wd_log (vw_world v))) by (by rewrite V4).
  assert (Hcapa : ps_capacity (point (vw_state v)) = cf_segment_bytes (lg_config (wd_log (vw_world v)))) by (by rewrite V4).
  rewrite decide_False by lia. rewrite checked_add_fits by lia. cbn [ok_or]. rewrite bind_Ok.
  unfold Log_current, Log_reserve, Log_current. rewrite V2. cbn [expect]. rewrite bind_Ok. unfold Batch_fence, AppendFormat.require.
  destruct W4 as [W4a W4b]. rewrite !(bool_decide_true (_ ≠ _)) by (auto || lia). cbn [andb]. rewrite !bind_Ok. eauto.
Qed.

Lemma fence_outcome :
  match Log_prepare_fence (wd_log (vw_world v)) with
  | Ok (log, sub) => ∃ s, Window_fence (vw_state v) (wd_log (vw_world v)) = (s, log, Ok sub) ∧
      window_inv owner c lim {| vw_world := submitted (vw_world v) log sub []; vw_state := s; vw_slots := vw_slots v |} cur
  | Err e => Window_fence (vw_state v) (wd_log (vw_world v)) = (vw_state v, wd_log (vw_world v), Err e)
  | Panic => Window_fence (vw_state v) (wd_log (vw_world v)) = (vw_state v, wd_log (vw_world v), Panic)
  end.
Proof.
  pose proof Hv as [V1 V2 V3 V4 V5 V6 V7 V8 V9 V10]. pose proof (window_nonneg _ _ _ _ _ Hv) as [N1 N2 N3 N4 N5 N6].
  unfold Window_fence. rewrite (State_at_ok _ _ _ V3 V2 V4).
  destruct (Log_prepare_fence _) as [[log sub]|e|] eqn:E; [|done|done].
  destruct (world_reachable_inv _ _ _ V1) as (cur' & file & W).
  pose proof W as [W1 W2 W3 W4 W5 W6 W7 W8 W9 W10 W11 W12 W13 W14 W15 W16 W17].
  rewrite V2 in W3. injection W3 as <-.
  assert (Hw' : world_reachable c lim (submitted (vw_world v) log sub [])).
  { eapply world_next; [exact V1|]. unfold submitted. cbn [numbered]. change (numbered _ []) with ([] : list Mutation).
    rewrite app_nil_r. by apply world_fence. }
  destruct (prepare_fence_ok _ _ _ _ E V2) as (C1 & C2 & C3 & C4 & batch & Hf & Hsub & Hlog).
  destruct (fence_decodes (sh_number cur) (lg_next_batch (wd_log (vw_world v))) (lg_issued (wd_log (vw_world v))) 0
    batch (proj1 W4) ltac:(unfold fits; lia) ltac:(unfold fits; lia) Hf) as (He & _ & _ & Hlen & _).
  pose proof (fence_reserved C1) as Hr.
  assert (Hcur' : last (lg_segments log) = Some cur) by (by rewrite Hlog).
  rewrite (Log_position_of _ _ Hcur').
  assert (Hpos : position_of cur log = {| ps_segment := sh_number cur;
    ps_capacity := ps_capacity (point (vw_state v)); ps_end := ps_end (point (vw_state v)) + BLOCK_SIZE;
    ps_issued := ps_issued (point (vw_state v)); ps_fenced := ps_issued (point (vw_state v));
    ps_initial_fence := false |}).
  { rewrite V4, Hlog. unfold position_of, fenced_prefix. cbn. rewrite Hlen, Hsub. unfold Cohort_from. cbn. rewrite He. cbn.
    f_equal. apply andb_false_r. }
  assert (Hcapa : Log_append_capacity log = Log_append_capacity (wd_log (vw_world v))) by (by rewrite Hlog).
  set (s' := set_point _ _ _).
  assert (Hd : demand s' ≤ ps_capacity (point s')).
  { unfold demand in *. change (point s') with (position_of cur log). rewrite Hpos.
    change (reserved_bytes s') with (reserved_bytes (vw_state v)).
    change (unsubmitted s') with (unsubmitted (vw_state v)).
    cbn [ps_end ps_issued ps_fenced ps_initial_fence ps_capacity Z.b2z]. unfold BLOCK_SIZE in *. lia. }
  assert (Hn' : nonnegative s') by (eapply position_nonneg; [exact Hw'|exact Hcur'|done|done|done]).
  rewrite (State_bounded_ok s'); [|done|done|exact Hd|apply V9].
  exists s'. split; [done|]. split; cbn [vw_world vw_state vw_slots submitted wd_log]; try done.
  - unfold s'. cbn. lia.
  - intros R. rewrite Hlog in R. cbn in R. congruence.
Qed.
End fence.

(** ** The other steps *)

Lemma publish_capacity `{Crc32} c lim w cur file s' sub :
  world_inv c lim w cur file → Log_publish_append (wd_log w) sub = Ok s' →
  (∃ f, f ∈ wd_flights w ∧ fl_sub f = sub ∧ is_fence f = false) →
  Log_append_capacity (wd_log w) ≤ Log_append_capacity s'.
Proof.
  intros W E (f & Hf & Hsub & Hfe). pose proof W as [W1 W2 W3 W4 W5 W6 W7 W8 W9 W10 W11 W12 W13 W14 W15 W16 W17].
  destruct (publish_append_ok _ _ _ _ E W3) as (h & ix & D1 & D2 & D3 & D4 & D5 & ->).
  destruct (fo_append _ _ _ _ (proj1 (Forall_forall _ _) W11 f Hf) Hfe) as (Hb & _). rewrite Hsub in Hb.
  destruct (bo_decode _ _ _ Hb) as (h' & Hh' & B1 & B2 & _). rewrite D1 in Hh'. injection Hh' as <-.
  pose proof (bo_count _ _ _ Hb) as Hcnt. destruct W1 as [W1a W1b], W9 as (W9a & W9b & W9c), W8 as [W8a _]. rewrite B1 in *.
  destruct (publish_descriptors_spec (sb_segment sub) (sb_offset sub) (Header_descriptors h) (lg_index (wd_log w)) W9a)
    as (ix' & E' & _ & I2 & _).
  - rewrite B2. apply Forall_lookup. intros i d (d0 & Hd0 & ->)%number_lookup. cbn.
    rewrite list_lookup_fmap in Hd0. destruct (fl_mutations f !! i) as [m|] eqn:Hm; [|done].
    injection Hd0 as <-. apply (Forall_lookup_1 _ _ _ _ (bo_data _ _ _ Hb) Hm).
  - rewrite B2, number_length, length_fmap. lia.
  - lia.
  - rewrite D4 in E'. injection E' as <-. rewrite B2, number_length, length_fmap in I2.
    unfold Log_append_capacity, saturating_sub, Log_set_published. cbn. rewrite Hcnt, W1b.
    set (n := Z.of_nat (length (fl_mutations f))) in *. set (a := Index_len (lg_index (wd_log w))) in *.
    set (b := Index_len ix) in *. set (i := lm_intervals lim) in *.
    assert (Z.max (i - a) 0 / 2 - n ≤ Z.max (i - b) 0 / 2); [|lia].
    replace (Z.max (i - a) 0 / 2 - n) with ((i - a + (- n) * 2) / 2) by (rewrite Z.div_add by lia; rewrite Z.max_l by lia; lia).
    apply Z.div_le_mono; lia.
Qed.

Lemma complete_keeps `{Crc32} c lim w w' cur :
  world_reachable c lim w → last (lg_segments (wd_log w)) = Some cur → world_step w w' →
  lg_offset (wd_log w') = lg_offset (wd_log w) → lg_segments (wd_log w') = lg_segments (wd_log w) →
  position_of cur (wd_log w') = position_of cur (wd_log w) ∧
  Log_append_capacity (wd_log w) ≤ Log_append_capacity (wd_log w').
Proof.
  intros Hw Hc Hs Ho Hseg. destruct (world_reachable_inv _ _ _ Hw) as (cur' & file & W).
  pose proof W as [W1 W2 W3 W4 W5 W6 W7 W8 W9 W10 W11 W12 W13 W14 W15 W16 W17].
  rewrite Hc in W3. injection W3 as <-.
  destruct Hs as [w cap b ms log sub Hcap Hbytes Hp E | w pre f post file0 Hf Hu Hd
    | w pre f post log Hf Hu E | w log sub E | w pre f post log durable Hf Hu E | w kind log r E
    | w r log Hr E | w r number allocated' new log res Hr Hn Hhi Hfit Ha Henc E | w]; cbn [wd_log] in *.
  - exfalso. destruct (prepare_append_ok _ _ _ _ _ E Hc) as (batch & Hseal & Hck & _ & ->). cbn in Ho.
    apply check_append_ok in Hck as (C1 & C2 & C3 & C4 & C5 & C6 & C7 & C8 & C9).
    pose proof (bi_count _ _ _ _ (packed_by_inv _ _ _ _ Hcap Hp)) as Hn.
    destruct (sealed_batch_ok _ cap b ms (sh_number cur) (lg_next_batch (wd_log w)) (lg_issued (wd_log w) + 1)
      batch Hcap Hp (proj1 W4) ltac:(unfold fits; lia) ltac:(unfold fits; lia) Hseal) as [Hb He].
    pose proof (bo_len _ _ _ Hb). pose proof (bo_payload _ _ _ Hb). unfold BLOCK_SIZE in *. lia.
  - by split.
  - destruct (publish_append_ok _ _ _ _ E Hc) as (h & ix & D1 & D2 & D3 & D4 & D5 & Hlog).
    split; [by rewrite Hlog|]. eapply publish_capacity; [exact W|exact E|]. exists f.
    assert (Hin : f ∈ wd_flights w) by (rewrite Hf; set_solver). split; [done|]. split; [done|].
    destruct (is_fence f) eqn:Hfe; [|done]. exfalso.
    destruct (fo_fence _ _ _ _ (proj1 (Forall_forall _ _) W11 f Hin) Hfe) as (_ & _ & Hdec).
    destruct (Hdec (cf_image_bytes (lg_config (wd_log w)))) as (h' & Hh' & He').
    unfold fl_bytes in Hh'. rewrite D1 in Hh'. injection Hh' as <-. unfold is_fence in Hfe. congruence.
  - exfalso. destruct (prepare_fence_ok _ _ _ _ E Hc) as (C1 & C2 & C3 & C4 & batch & Hf & -> & ->). cbn in Ho.
    destruct (fence_decodes (sh_number cur) (lg_next_batch (wd_log w)) (lg_issued (wd_log w)) 0
      batch (proj1 W4) ltac:(unfold fits; lia) ltac:(unfold fits; lia) Hf) as (_ & _ & _ & Hlen & _).
    unfold BLOCK_SIZE in *. lia.
  - apply complete_sync_ok in E as (_ & S2 & _ & S4 & -> & ->). split; [|done].
    unfold position_of, fenced_prefix. cbn. rewrite S2. unfold Cohort_from. cbn. rewrite S4.
    by rewrite andb_false_r.
  - destruct (prepare_rotation_ok _ _ _ _ _ E Hc) as (-> & _). by split.
  - unfold Log_cancel_rotation in E. apply result_bind_ok in E as ([] & _ & E).
    apply result_bind_ok in E as ([] & _ & E). injection E as <-. by split.
  - destruct (is_ok res) eqn:Er; [|destruct (install_failed _ _ _ _ E Er) as [-> | ->]; by split].
    exfalso. destruct res as [[]|e|]; [|done..]. apply install_ok in E as (_ & -> & _). cbn in Hseg.
    apply (f_equal length) in Hseg. rewrite length_app in Hseg. cbn in Hseg. lia.
  - by split.
Qed.

Lemma append_capacity_nonneg log : 0 ≤ Log_append_capacity log.
Proof. unfold Log_append_capacity, saturating_sub. lia. Qed.

(** The window follows the log to its successor segment. *)
Lemma install_outcome `{Crc32} owner c lim v cur r number allocated file log :
  window_inv owner c lim v cur → wd_rotation (vw_world v) = Some r → wd_disk (vw_world v) !! number = None →
  ro_highest r < number → fits 64 number → 0 ≤ allocated →
  SegmentHeader_encode (rd_segment (Rotation_create r number allocated)) = Ok file →
  Log_install_rotation (wd_log (vw_world v)) (Rotation_create r number allocated) = (log, Ok tt) →
  ∃ s cur', Window_installed (vw_state v) log = (s, Ok true) ∧
    window_inv owner c lim {| vw_world := {|
        wd_log := log; wd_disk := <[number := file]> (wd_disk (vw_world v));
        wd_flights := wd_flights (vw_world v); wd_issued := wd_issued (vw_world v);
        wd_rotation := None; wd_synced := BLOCK_SIZE |}; vw_state := s; vw_slots := vw_slots v |} cur'.
Proof.
  intros Hv Hr Hn Hhi Hfit Ha Henc E. pose proof Hv as [V1 V2 V3 V4 V5 V6 V7 V8 V9 V10].
  pose proof (window_nonneg _ _ _ _ _ Hv) as [N1 N2 N3 N4 N5 N6].
  destruct (layout_reachable c lim (λ _, 0) 0 _ V1) as (cur' & file' & cl & s0 & sd & s1 & lc & ld & l & W & L).
  pose proof W as [W1 W2 W3 W4 W5 W6 W7 W8 W9 W10 W11 W12 W13 W14 W15 W16 W17]. rewrite V2 in W3. injection W3 as <-.
  destruct L as [(_ & _ & L1) _ _ _ _ _ _ _ _ _ _ _ _ _ L15 _ L17 L18]. destruct (L18 _ Hr) as (R1 & R2 & _).
  assert (Hreach := world_next c lim _ _ V1 (world_install _ _ _ _ _ _ _ Hr Hn Hhi Hfit Ha Henc E)). cbn [is_ok] in Hreach.
  apply install_ok in E as (Hrot & Hlog & _). specialize (W14 Hrot). specialize (L17 Hrot). destruct (V10 Hrot) as [Hwant Hun].
  assert (Hslots : vw_slots v = []) by (destruct (vw_slots v); [done|cbn in V7; lia]).
  assert (Hcoh : lg_cohort (wd_log (vw_world v)) = None).
  { rewrite W14 in W13. cbn in W13. by destruct (lg_cohort _). }
  assert (Hissued : lg_issued (wd_log (vw_world v)) = lg_durable (wd_log (vw_world v))).
  { destruct W8 as [W8a W8b]. rewrite W14 in W8b. cbn in W8b. lia. }
  set (new := rd_segment (Rotation_create r number allocated)) in *.
  assert (Hnum : sh_number new = number) by done.
  assert (Hcur' : last (lg_segments log) = Some new) by (rewrite Hlog; apply last_snoc).
  assert (Hpos : position_of new log = {| ps_segment := number; ps_capacity := ps_capacity (point (vw_state v));
    ps_end := BLOCK_SIZE; ps_issued := ps_issued (point (vw_state v));
    ps_fenced := ps_issued (point (vw_state v)); ps_initial_fence := true |}).
  { rewrite V4, Hlog. unfold position_of, fenced_prefix. cbn. rewrite Hcoh, Hissued. done. }
  unfold Window_installed. rewrite (Log_position_of _ _ Hcur'), Hpos. cbn [ps_segment ps_capacity ps_end ps_issued ps_fenced ps_initial_fence].
  assert (Hps : ps_segment (point (vw_state v)) = sh_number cur) by (by rewrite V4).
  rewrite decide_False by lia. rewrite Hwant, !bool_decide_true by (done || lia). cbn [andb].
  unfold State_require. rewrite V3. cbn [orb negb].
  set (s' := {| point := _ |}).
  assert (Hcapv : ps_capacity (point (vw_state v)) = cf_segment_bytes c) by (rewrite V4; cbn; by rewrite (proj1 W1)).
  assert (Hd : demand s' ≤ ps_capacity (point s')).
  { unfold demand, s'. cbn. rewrite V6, Hslots, Hun. cbn [fmap list_fmap sumZ].
    unfold MAX_BATCH_BYTES, MAX_REQUEST_BYTES, BLOCK_SIZE in *. lia. }
  assert (Hn' : nonnegative s').
  { eapply position_nonneg; [exact Hreach|exact Hcur'|symmetry; exact Hpos|done|done]. }
  pose proof (append_capacity_nonneg log) as Hac.
  rewrite (State_bounded_ok s'); [|done|done|exact Hd|unfold s'; cbn; lia].
  exists s', new. split; [done|]. split; cbn [vw_world vw_state vw_slots wd_log]; try done.
  - unfold s'. cbn. lia.
  - intros R. rewrite Hlog in R. done.
Qed.

Lemma window_reserve_inv `{Crc32} owner c lim v cur bytes check s d :
  window_inv owner c lim v cur → 0 ≤ bytes → Window_reserve owner (vw_state v) bytes check = (s, Ok d) →
  window_inv owner c lim {| vw_world := vw_world v; vw_state := s;
    vw_slots := match d with Ready slot => vw_slots v ++ [slot] | Waiting _ => vw_slots v end |} cur.
Proof.
  intros Hv Hb E. pose proof Hv as [V1 V2 V3 V4 V5 V6 V7 V8 V9 V10]. unfold Window_reserve in E.
  destruct (bool_decide (MAX_REQUEST_BYTES < bytes) || _) eqn:Elen; [done|]. destruct check as [[[]|reason]|e|]; [|injection E as <- <-; by destruct v|done..].
  rewrite V3 in E. destruct (rotation_wanted (vw_state v)) eqn:Ew; [injection E as <- <-; by destruct v|].
  destruct (decide (index_capacity _ ≤ _)) as [Hi|Hi].
  { injection E as <- <-. by split. }
  cbv zeta in E.
  destruct (checked_add 64 (reserved_bytes _) _) as [reserved|] eqn:E1; [|done].
  destruct (checked_add 64 (unsubmitted _) 1) as [count|] eqn:E2; [|done].
  apply checked_add_Some in E1 as [-> _], E2 as [-> _].
  destruct (is_none_or _ _) eqn:Eu.
  { injection E as <- <-. split; try done. intros R. by destruct (V10 R). }
  injection E as <- <-.
  destruct (State_used _) as [used|] eqn:Eused; [|done]. cbn [is_none_or] in Eu. rewrite bool_decide_eq_false in Eu.
  apply used_demand in Eused as [-> _].
  split; cbn [vw_world vw_state vw_slots point reserved_bytes index_capacity unsubmitted rotation_wanted failed]; try done.
  - apply Forall_app. split; [done|]. constructor; [|done]. cbn. split; [done|]. lia.
  - rewrite fmap_app, sumZ_app. cbn. lia.
  - rewrite length_app. cbn. lia.
  - unfold demand in *. cbn in *. lia.
  - lia.
  - intros R. destruct (V10 R). congruence.
Qed.

Lemma slot_drop_inv `{Crc32} owner c lim v cur pre slot post s :
  window_inv owner c lim v cur → vw_slots v = pre ++ slot :: post → Slot_drop (vw_state v) slot = Ok s →
  window_inv owner c lim {| vw_world := vw_world v; vw_state := s; vw_slots := pre ++ post |} cur.
Proof.
  intros Hv Hs E. pose proof Hv as [V1 V2 V3 V4 V5 V6 V7 V8 V9 V10]. rewrite Hs in *.
  apply Forall_app in V5 as [T1 [[T2 T3] T4]%Forall_cons]. rewrite fmap_app, fmap_cons, sumZ_app in V6. cbn [sumZ] in V6.
  rewrite length_app in V7. cbn [length] in V7. unfold Slot_drop in E. unfold BLOCK_SIZE in *.
  rewrite decide_False in E by lia.
  assert (0 ≤ sumZ (sl_bytes <$> pre)) by (by apply sumZ_nonneg, (slots_nonneg owner)).
  assert (0 ≤ sumZ (sl_bytes <$> post)) by (by apply sumZ_nonneg, (slots_nonneg owner)).
  rewrite release_ok in E by lia. injection E as <-.
  split; cbn [vw_world vw_state vw_slots released point reserved_bytes index_capacity unsubmitted rotation_wanted failed]; try done.
  - by apply Forall_app.
  - rewrite fmap_app, sumZ_app. lia.
  - rewrite length_app. lia.
  - unfold demand in *. cbn in *. unfold BLOCK_SIZE in *. lia.
  - lia.
  - intros R. destruct (V10 R). lia.
Qed.

Lemma window_refresh_inv `{Crc32} owner c lim v cur s r :
  window_inv owner c lim v cur → Window_refresh (vw_state v) (wd_log (vw_world v)) = (s, r) →
  is_ok r = true ∧ window_inv owner c lim {| vw_world := vw_world v; vw_state := s; vw_slots := vw_slots v |} cur.
Proof.
  intros Hv E. pose proof Hv as [V1 V2 V3 V4 V5 V6 V7 V8 V9 V10]. unfold Window_refresh in E.
  rewrite (State_at_ok _ _ _ V3 V2 V4) in E. set (s' := set_point _ _ _) in E.
  pose proof (window_nonneg _ _ _ _ _ Hv) as [N1 N2 N3 N4 N5 N6].
  rewrite (State_bounded_ok s') in E; [|done|by split|done|unfold s'; cbn; lia].
  injection E as <- <-. split; [done|].
  split; cbn [vw_world vw_state vw_slots point reserved_bytes index_capacity unsubmitted rotation_wanted failed s' set_point]; try done.
  lia.
Qed.

Lemma window_inv_new `{Crc32} owner c lim w s :
  world_reachable c lim w → lg_rotating (wd_log w) = false → Window_new (wd_log w) = Ok s →
  ∃ cur, window_inv owner c lim {| vw_world := w; vw_state := s; vw_slots := [] |} cur.
Proof.
  intros Hw Hr E. destruct (world_reachable_inv _ _ _ Hw) as (cur & file & W). pose proof (wi_segments _ _ _ _ _ W) as Hc.
  unfold Window_new in E. rewrite (Log_position_of _ _ Hc), bind_Ok in E. case_decide; [done|].
  set (s0 := {| point := _ |}) in E. unfold State_bounded, State_require in E. cbn [failed s0 orb] in E.
  destruct (is_some_and _ _ && _) eqn:Eb; cbn [negb] in E; [|done]. injection E as <-.
  apply andb_true_iff in Eb as [Eb _]. destruct (State_used s0) as [used|] eqn:Eu; [|done]. cbn [is_some_and] in Eb.
  rewrite bool_decide_eq_true in Eb. apply used_demand in Eu as [-> _].
  pose proof (append_capacity_nonneg (wd_log w)). exists cur.
  split; cbn [vw_world vw_state vw_slots]; try done.
  cbn in *. congruence.
Qed.

Lemma set_log_same w : set_log w (wd_log w) = w.
Proof. by destruct w. Qed.

Lemma window_inv_step `{Crc32} owner c lim v v' cur :
  window_inv owner c lim v cur → window_step owner v v' → ∃ cur', window_inv owner c lim v' cur'.
Proof.
  intros Hv Hs. pose proof Hv as [V1 V2 V3 V4 V5 V6 V7 V8 V9 V10].
  destruct Hs as [v bytes check s slot Hb E|v bytes check s reason Hb E|v pre slot post s Hl E
    |v cap builder l writes taken rest s log sub Hcap Hby Hp Hsp Hba E
    |v cap builder l writes taken rest s log e Hcap Hp Hsp Hba E
    |v boundary s log sub Hbo Hco E|v boundary s log e Hbo Hco E|v w Hst Ho Hseg Hrot|v s r E|v|v kind s log r E1 E2
    |v r number allocated file log s res Hr Hn Hhi Hfit Ha Henc E1 E2].
  - exists cur. exact (window_reserve_inv _ _ _ _ _ _ _ _ (Ready slot) Hv Hb E).
  - exists cur. exact (window_reserve_inv _ _ _ _ _ _ _ _ (Waiting reason) Hv Hb E).
  - exists cur. by eapply slot_drop_inv.
  - pose proof (append_outcome owner c lim v cur Hv cap Hcap builder l Hp writes taken rest Hsp Hba) as Ho.
    destruct (Log_prepare_append _ _) as [[log' sub']|e|] eqn:Ep.
    + destruct Ho as (s' & Hs' & Hi). rewrite E in Hs'. injection Hs' as -> -> ->. exists cur. by auto.
    + rewrite E in Ho. done.
    + rewrite E in Ho. done.
  - pose proof (append_outcome owner c lim v cur Hv cap Hcap builder l Hp writes taken rest Hsp Hba) as Ho.
    destruct (Log_prepare_append _ _) as [[log' sub']|e'|] eqn:Ep; [destruct Ho as (s' & Hs' & _); congruence| |congruence].
    rewrite E in Ho. injection Ho as -> ->. exists cur. rewrite set_log_same. by destruct v.
  - pose proof (fence_outcome owner c lim v cur Hv boundary Hbo Hco) as Ho.
    destruct (Log_prepare_fence _) as [[log' sub']|e|] eqn:Ep.
    + destruct Ho as (s' & Hs' & Hi). rewrite E in Hs'. injection Hs' as -> -> ->. by exists cur.
    + rewrite E in Ho. done.
    + rewrite E in Ho. done.
  - pose proof (fence_outcome owner c lim v cur Hv boundary Hbo Hco) as Ho.
    destruct (Log_prepare_fence _) as [[log' sub']|e'|] eqn:Ep; [destruct Ho as (s' & Hs' & _); congruence| |congruence].
    rewrite E in Ho. injection Ho as -> -> _. exists cur. rewrite set_log_same. by destruct v.
  - destruct (complete_keeps _ _ _ _ _ V1 V2 Hst Ho Hseg) as [Hp Hca]. exists cur.
    split; cbn [vw_world vw_state vw_slots]; try done.
    + by eapply world_next.
    + by rewrite Hseg.
    + by rewrite Hp.
    + lia.
    + auto.
  - exists cur. by eapply window_refresh_inv.
  - exists cur. split; try done. intros R. by destruct (V10 R).
  - exists cur. unfold Window_before_rotation in E1. rewrite (State_at_ok _ _ _ V3 V2 V4) in E1.
    unfold State_require in E1. rewrite V3 in E1. cbn [orb] in E1.
    destruct (rotation_wanted _ && _) eqn:Er; cbn [negb] in E1; [|done]. injection E1 as <-.
    rewrite andb_true_iff, bool_decide_eq_true in Er.
    assert (Hw' := world_next c lim _ _ V1 (world_rotate _ _ _ _ E2)).
    destruct (prepare_rotation_ok _ _ _ _ _ E2 V2) as (-> & _).
    split; cbn [vw_world vw_state vw_slots wd_log]; try done.
  - destruct (install_outcome _ _ _ _ _ _ _ _ _ _ Hv Hr Hn Hhi Hfit Ha Henc E1) as (s' & cur' & Hs' & Hi).
    rewrite E2 in Hs'. injection Hs' as -> ->. by exists cur'.
Qed.

Lemma window_reachable_inv `{Crc32} owner c lim v :
  window_reachable owner c lim v → ∃ cur, window_inv owner c lim v cur.
Proof.
  induction 1 as [w s Hw Hr E|v v' _ [cur Hv] Hs]; [by eapply window_inv_new|by eapply window_inv_step].
Qed.

(** ** Properties *)

(** C33: the window's account is exact.  In every reachable state the window has
    not failed, its position is the log's, its reserved bytes and its count are
    those of the tokens outstanding, everything they may still need in the
    segment fits behind the log's end (frames, one fence for every mutation not
    yet fenced and the segment's first fence), and the log's index has room for
    a descriptor of each token. *)
Theorem window_accounts `{Crc32} owner c lim v :
  window_reachable owner c lim v →
  failed (vw_state v) = false ∧ Log_position (wd_log (vw_world v)) = Ok (point (vw_state v)) ∧
  reserved_bytes (vw_state v) = sumZ (sl_bytes <$> vw_slots v) ∧
  unsubmitted (vw_state v) = Z.of_nat (length (vw_slots v)) ∧
  (∃ used, State_used (vw_state v) = Some used ∧ used ≤ ps_capacity (point (vw_state v))) ∧
  unsubmitted (vw_state v) ≤ index_capacity (vw_state v) ≤ Log_append_capacity (wd_log (vw_world v)).
Proof.
  intros [cur Hv]%window_reachable_inv. pose proof (window_nonneg _ _ _ _ _ Hv) as Hn.
  destruct Hv as [V1 V2 V3 V4 V5 V6 V7 V8 V9 V10]. rewrite V4 at 1. split_and!; try done; try lia.
  - by apply Log_position_of.
  - destruct (used_fits _ Hn V8) as (used & E & ->). eauto.
Qed.

(** C16: an admitted write fits.  In a reachable state whose log is healthy,
    waits for no fence, is not rotating and has numbers left, a batch packed
    from writes that hold their own tokens is accepted, and so is a fence for
    any flush the log does not cover yet: neither the segment nor the index
    can be found full at that point, and the tokens not submitted stay
    accounted for. *)
Theorem admitted_writes_fit `{Crc32} owner c lim v :
  window_reachable owner c lim v →
  let log := wd_log (vw_world v) in
  lg_failed log = false → lg_cohort log = None → lg_rotating log = false → lg_next_batch log + 1 < 2 ^ 64 →
  (∀ cap builder l writes taken rest,
    0 ≤ cap → packed_by (cf_image_bytes (lg_config log)) cap builder l → l ≠ [] →
    vw_slots v ≡ₚ taken ++ rest → batch_of writes taken l → lg_issued log + Z.of_nat (length l) < 2 ^ 64 →
    ∃ s log' sub, Window_append owner (vw_state v) log builder writes = (s, log', Ok sub) ∧
      (bytes_ok (bd_buffer builder) →
       reserved_bytes s = sumZ (sl_bytes <$> rest) ∧ unsubmitted s = Z.of_nat (length rest))) ∧
  (∀ boundary, boundary ≤ lg_issued log → Log_covers_flush log boundary = false →
    ∃ s log' sub, Window_fence (vw_state v) log = (s, log', Ok sub)).
Proof.
  intros [cur Hv]%window_reachable_inv log F1 F2 F3 F4. split.
  - intros cap builder l writes taken rest Hcap Hp Hne Hsplit Hb Hi.
    destruct (batch_fits owner c lim v cur Hv cap Hcap builder l Hp writes taken rest Hsplit Hb F1 F2 F3 Hne Hi F4)
      as (log' & sub & E).
    pose proof (append_outcome owner c lim v cur Hv cap Hcap builder l Hp writes taken rest Hsplit Hb) as Ho.
    rewrite E in Ho. destruct Ho as (s & Hs & Hinv). exists s, log', sub. split; [exact Hs|].
    intros Hby. destruct (Hinv Hby). done.
  - intros boundary Hle Hco. destruct (fence_fits owner c lim v cur Hv boundary Hle Hco F1 F2 F3 F4) as (log' & sub & E).
    pose proof (fence_outcome owner c lim v cur Hv boundary Hle Hco) as Ho. rewrite E in Ho.
    destruct Ho as (s & Hs & _). eauto.
Qed.

(** ** A concrete window *)

Definition sample_window0 : State :=
  unwrap_or {| point := {| ps_segment := 0; ps_capacity := 0; ps_end := 0; ps_issued := 0; ps_fenced := 0;
      ps_initial_fence := false |}; reserved_bytes := 0; index_capacity := 0; unsubmitted := 0;
    rotation_wanted := false; index_pressure := false; failed := true |} (Window_new sample_log0).

Definition sample_slot : Slot := {| sl_owner := 9; sl_bytes := BLOCK_SIZE |}.

(** A zeroing mutation of no payload is admitted. *)
Definition sample_window1 : WindowWorld := {|
  vw_world := sample_world0; vw_state := (Window_reserve 9 sample_window0 0 (Ok (Ready tt))).1;
  vw_slots := [sample_slot] |}.

Lemma sample_window_reachable : @window_reachable crc_sum 9 sample_config sample_log_limits sample_window1.
Proof.
  eapply window_next.
  - apply (@window_new crc_sum 9 sample_config sample_log_limits sample_world0 sample_window0);
      [apply sample_reachable0|reflexivity|apply is_ok_unwrap; vm_compute; reflexivity].
  - apply (@window_reserve crc_sum 9 {| vw_world := sample_world0; vw_state := sample_window0; vw_slots := [] |} 0
      (Ok (Ready tt)) _ sample_slot); [done|]. vm_compute. reflexivity.
Qed.

Lemma window_accounts_witness :
  failed (vw_state sample_window1) = false ∧ reserved_bytes (vw_state sample_window1) = 4096.
Proof.
  destruct (@window_accounts crc_sum 9 sample_config sample_log_limits sample_window1 sample_window_reachable)
    as (H1 & _ & H2 & _). split; [exact H1|]. rewrite H2. reflexivity.
Defined.

Definition sample_writes : list PackedWrite := [{| wr_window := Some sample_slot; wr_payload := 0 |}].

Lemma admitted_writes_fit_witness :
  ∃ s log sub, @Window_append crc_sum 9 (vw_state sample_window1) sample_log0 sample_zero_builder sample_writes =
    (s, log, Ok sub) ∧ reserved_bytes s = 0 ∧ unsubmitted s = 0.
Proof.
  destruct (@admitted_writes_fit crc_sum 9 sample_config sample_log_limits sample_window1 sample_window_reachable
    ltac:(done) ltac:(done) ltac:(done) ltac:(done)) as [Ha _].
  destruct (Ha 0 sample_zero_builder sample_mutations sample_writes [sample_slot] []) as (s & log & sub & E & Hs).
  - done.
  - exact sample_packed.
  - done.
  - done.
  - done.
  - done.
  - exists s, log, sub. split; [exact E|]. apply Hs. decide_now.
Defined.
