(* ===== verification/Inflight.v ===== *)
(** * The inflight carrier

    Models [crates/cas/daemon/src/inflight.rs], [inflight/layout.rs] and
    [inflight/recovery.rs]: the shared-memory region that keeps the ownership
    of guest requests across a replacement of the daemon.  The region is a
    memory of atomic words, one address per field of the layout structs; every
    operation yields the sequence of its stores, so that a crash is a prefix of
    that sequence (stores are taken in program order).  The guest's [used.idx],
    which [publish_used] advances, is one more address.  Memory budgets are
    granted. *)
From S2P Require Import Prelude Bytes.

Definition invalid {A} (message : string) : result A := invalid_data message.

(** ** Geometry *)

Definition PAGE : Z := 4096.
Definition MAGIC : Z := Eval vm_compute in le_decode (ascii_bytes "CASIFL03").
Definition VERSION : Z := 3.
Definition REJECTED : Z := 1.
Definition EMPTY : Z := 0.
Definition PREPARED : Z := 1.
Definition ACTIVE : Z := 2.
Definition DISCOVERED : Z := 3.

(** [size_of] of the layout structs. *)
Definition QUEUE_BYTES : Z := 16.
Definition DESCRIPTOR_BYTES : Z := 16.
Definition SLOT_BYTES : Z := 128.

Record Geometry : Type := { g_queues : Z; g_queue_size : Z }.

Definition is_power_of_two (n : Z) : bool :=
  bool_decide (n ≠ 0) && bool_decide (Z.land n (n - 1) = 0).

Definition next_multiple_of (n m : Z) : Z := (n + m - 1) / m * m.

Definition Geometry_new (queues queue_size : Z) : result Geometry :=
  if negb (bool_decide (1 ≤ queues ≤ 4)) || negb (is_power_of_two queue_size)
     || bool_decide (256 < queue_size)
  then invalid "unsupported inflight queue geometry"
  else Ok {| g_queues := queues; g_queue_size := queue_size |}.

Definition Geometry_stride (g : Geometry) : Z :=
  next_multiple_of (QUEUE_BYTES + g_queue_size g * DESCRIPTOR_BYTES) 64.

Definition Geometry_trailer (g : Geometry) : Z :=
  next_multiple_of (Geometry_stride g * g_queues g) PAGE.

Definition Geometry_bytes (g : Geometry) : Z :=
  next_multiple_of (Geometry_trailer g + PAGE + g_queues g * g_queue_size g * SLOT_BYTES) PAGE.

(** The message of the vhost-user protocol that carries the region. *)
Record VhostUserInflight : Type := {
  mmap_size : Z;
  mmap_offset : Z;
  num_queues : Z;
  queue_size : Z;
}.

Definition Geometry_message (g : Geometry) : VhostUserInflight :=
  {| mmap_size := Geometry_bytes g; mmap_offset := 0; num_queues := g_queues g; queue_size := g_queue_size g |}.

#[global] Instance Geometry_eq_dec : EqDecision Geometry.
Proof. solve_decision. Defined.

Definition Geometry_check (g : Geometry) (queue head : Z) : result unit :=
  if bool_decide (g_queues g ≤ queue) || bool_decide (g_queue_size g ≤ head)
  then invalid "inflight queue or head out of bounds" else Ok tt.

Record Identity : Type := {
  id_store : bytes;
  id_image : bytes;
  id_epoch : Z;
  id_attachment : Z;
}.

(** ** Requests *)

Inductive Kind : Type := Read | Write | Zero | Flush | Protocol | Discard | ZeroUnmap.

#[global] Instance Kind_eq_dec : EqDecision Kind.
Proof. solve_decision. Defined.

Definition Kind_code (k : Kind) : Z :=
  match k with Read => 1 | Write => 2 | Zero => 3 | Flush => 4 | Protocol => 5 | Discard => 6 | ZeroUnmap => 7 end.

Definition Kind_try_from (value : Z) : result Kind :=
  if bool_decide (value = 1) then Ok Read
  else if bool_decide (value = 2) then Ok Write
  else if bool_decide (value = 3) then Ok Zero
  else if bool_decide (value = 4) then Ok Flush
  else if bool_decide (value = 5) then Ok Protocol
  else if bool_decide (value = 6) then Ok Discard
  else if bool_decide (value = 7) then Ok ZeroUnmap
  else invalid "unknown inflight request kind".

Definition Kind_zero (k : Kind) : bool :=
  match k with Zero | Discard | ZeroUnmap => true | _ => false end.

Record Request : Type := {
  rq_kind : Kind;
  rq_queue : Z;
  rq_head : Z;
  rq_available : Z;
  rq_offset : Z;
  rq_length : Z;
}.

#[global] Instance Request_eq_dec : EqDecision Request.
Proof. solve_decision. Defined.

Definition Request_mutates (r : Request) : bool :=
  (bool_decide (rq_kind r = Write) || Kind_zero (rq_kind r)) && bool_decide (rq_length r ≠ 0).

Definition Request_validate (r : Request) (image_bytes : Z) : result unit :=
  match rq_kind r with
  | Flush | Protocol =>
      if bool_decide (rq_offset r = 0) && bool_decide (rq_length r = 0) then Ok tt
      else invalid "control request has a payload range"
  | _ =>
      if negb (is_multiple_of (rq_offset r) BLOCK_SIZE) || negb (is_multiple_of (rq_length r) BLOCK_SIZE)
         || is_none_or (checked_add 64 (rq_offset r) (rq_length r)) (λ last, bool_decide (image_bytes < last))
         || (negb (Kind_zero (rq_kind r))
             && (bool_decide (rq_length r = 0) || bool_decide (MAX_REQUEST_BYTES < rq_length r)))
      then invalid "invalid inflight logical range"
      else Ok tt
  end.

Record Entry : Type := {
  en_request : Request;
  en_serial : Z;
  en_mutation : Z;
  en_boundary : Z;
  en_attachment : Z;
  en_rejected : bool;
  en_discovery : Z;
}.

#[global] Instance Entry_eq_dec : EqDecision Entry.
Proof. solve_decision. Defined.

(** Panics on serial 0. *)
Definition Entry_request_id (e : Entry) : result Z := expect (checked_sub (en_serial e) 1).

Definition Entry_required_publication (e : Entry) : Z :=
  if en_rejected e then 0
  else match rq_kind (en_request e) with
       | Read | Flush => en_boundary e
       | _ => en_mutation e
       end.

(** ** The shared region *)

(** The fields of the layout structs; arrays of bytes that are only compared
    with zero are one word. *)
Inductive HeaderField : Type :=
  | HMagic | HVersion | HBytes | HStore (word : Z) | HImage (word : Z) | HEpoch | HAttachment
  | HQueues | HQueueSize | HSlotSize | HFailed | HSerial | HMutation | HPublished
  | HAvailable (queue : Z) | HDiscovery | HReserved.

Inductive QueueField : Type := QFeatures | QVersion | QDescriptors | QLastHead | QUsed.

Inductive DescriptorField : Type := DInflight | DReserved | DNext | DCounter.

Inductive SlotField : Type :=
  | SState | SKind | SQueue | SHead | SAvailable | SFlags | SSerial | SMutation | SBoundary
  | SOffset | SLength | SAttachment | SDiscovery | STail.

(** [GuestUsed] is the guest's [used.idx] of a ring, outside the region. *)
Inductive Address : Type :=
  | HeaderAt (f : HeaderField)
  | QueueAt (queue : Z) (f : QueueField)
  | DescriptorAt (queue head : Z) (f : DescriptorField)
  | SlotAt (queue head : Z) (f : SlotField)
  | GuestUsed (queue : Z).

#[global] Instance HeaderField_eq_dec : EqDecision HeaderField.
Proof. solve_decision. Defined.
#[global] Instance QueueField_eq_dec : EqDecision QueueField.
Proof. solve_decision. Defined.
#[global] Instance DescriptorField_eq_dec : EqDecision DescriptorField.
Proof. solve_decision. Defined.
#[global] Instance SlotField_eq_dec : EqDecision SlotField.
Proof. solve_decision. Defined.
#[global] Instance Address_eq_dec : EqDecision Address.
Proof. solve_decision. Defined.

Definition Memory : Type := Address → Z.

(** One atomic store. *)
Definition Store : Type := Address * Z.

Definition run_store (m : Memory) (s : Store) : Memory := λ a, if decide (a = s.1) then s.2 else m a.

Definition run (trace : list Store) (m : Memory) : Memory := foldl run_store m trace.

(** ** Operations *)

(** An operation on a memory: its stores in order, and its result. *)
Definition Op (A : Type) : Type := Memory → list Store * result A.

#[global] Instance op_ret : MRet Op := λ A a m, ([], Ok a).

#[global] Instance op_bind : MBind Op := λ A B f op m,
  let '(trace, r) := op m in
  match r with
  | Ok a => let '(trace', r') := f a (run trace m) in (trace ++ trace', r')
  | Err e => (trace, Err e)
  | Panic => (trace, Panic)
  end.

Definition load (a : Address) : Op Z := λ m, ([], Ok (m a)).
Definition store (a : Address) (v : Z) : Op unit := λ m, ([(a, v)], Ok tt).
Definition lift {A} (r : result A) : Op A := λ _, ([], r).

(** [if condition { return Err(invalid(message)) }]. *)
Definition reject_if (condition : bool) (message : string) : Op unit :=
  lift (if condition then invalid message else Ok tt).

(** [for x in l { s = f(x, s)?; }]. *)
Fixpoint op_fold {A S} (f : A → S → Op S) (l : list A) (s : S) : Op S :=
  match l with
  | [] => mret s
  | x :: l' => s' ← f x s; op_fold f l' s'
  end.

(** [0..n]. *)
Definition range (n : Z) : list Z := Z.of_nat <$> seq 0 (Z.to_nat n).

Inductive AdmissionPhase : Type := PhasePrepared | PhaseActive.

Record Replay : Type := {
  rp_entries : list Entry;
  rp_discovered : list (Z * Request);
  rp_highest_discovery : Z;
  rp_highest_serial : Z;
  rp_highest_mutation : Z;
  rp_published : Z;
}.

Record Saved : Type := { sv_state : Z; sv_entry : Entry; sv_inflight : bool }.

(** [sort_unstable_by_key]. *)
Fixpoint insert_by {A} (key : A → Z) (x : A) (l : list A) : list A :=
  match l with
  | [] => [x]
  | y :: l' => if bool_decide (key x ≤ key y) then x :: l else y :: insert_by key x l'
  end.

Definition sort_by {A} (key : A → Z) (l : list A) : list A := foldr (insert_by key) [] l.

(** [windows(2).any(p)]. *)
Fixpoint any_window {A} (p : A → A → bool) (l : list A) : bool :=
  match l with
  | x :: (y :: _) as l' => p x y || any_window p l'
  | _ => false
  end.

(** [max_by_key]: the last of the maximal elements. *)
Fixpoint max_by {A} (key : A → Z) (l : list A) : option A :=
  match l with
  | [] => None
  | x :: l' => match max_by key l' with
               | Some y => if bool_decide (key x ≤ key y) then Some y else Some x
               | None => Some x
               end
  end.

Section Carrier.
Context (g : Geometry) (identity : Identity) (image_bytes : Z).

Definition Carrier_check (queue head : Z) : Op unit := lift (Geometry_check g queue head).

Definition Carrier_healthy : Op unit :=
  failed ← load (HeaderAt HFailed);
  reject_if (bool_decide (failed ≠ 0)) "FAILED attachment requires explicit recovery or a fresh reset".

Definition Carrier_fail : Op unit := store (HeaderAt HFailed) 1.

(** The stores of [create] into a zeroed mapping. *)
Definition Carrier_create (prefix : Z) : Op unit :=
  store (HeaderAt HVersion) VERSION;;
  store (HeaderAt HBytes) PAGE;;
  op_fold (λ w _, store (HeaderAt (HStore w)) (le_decode (slice (w * 8) 8 (id_store identity)))) [0; 1] tt;;
  op_fold (λ w _, store (HeaderAt (HImage w)) (le_decode (slice (w * 8) 8 (id_image identity)))) [0; 1] tt;;
  store (HeaderAt HEpoch) (id_epoch identity);;
  store (HeaderAt HAttachment) (id_attachment identity);;
  store (HeaderAt HQueues) (g_queues g);;
  store (HeaderAt HQueueSize) (g_queue_size g);;
  store (HeaderAt HSlotSize) SLOT_BYTES;;
  store (HeaderAt HMutation) prefix;;
  store (HeaderAt HPublished) prefix;;
  store (HeaderAt HMagic) MAGIC.

Definition Carrier_published : Op Z := load (HeaderAt HPublished).

Definition Carrier_publish (prefix : Z) : Op unit :=
  Carrier_healthy;;
  published ← Carrier_published;
  mutation ← load (HeaderAt HMutation);
  reject_if (bool_decide (prefix < published) || bool_decide (mutation < prefix))
    "published prefix outside issued mutation range";;
  store (HeaderAt HPublished) prefix.

Definition Carrier_queue_initialized (queue : Z) : Op bool :=
  Carrier_check queue 0;;
  version ← load (QueueAt queue QVersion);
  mret (bool_decide (version = 1)).

Definition Carrier_initialize_queue (queue available used : Z) : Op unit :=
  Carrier_healthy;;
  Carrier_check queue 0;;
  version ← load (QueueAt queue QVersion);
  reject_if (bool_decide (version ≠ 0)) "inflight queue already initialized";;
  store (QueueAt queue QDescriptors) (g_queue_size g);;
  store (QueueAt queue QUsed) used;;
  store (HeaderAt (HAvailable queue)) available;;
  store (QueueAt queue QVersion) 1.

Definition Carrier_available (queue : Z) : Op Z :=
  Carrier_check queue 0;;
  cursor ← load (HeaderAt (HAvailable queue));
  reject_if (bool_decide (2 ^ 16 ≤ cursor)) "inflight available cursor exceeds u16";;
  mret cursor.

Definition Carrier_reset_queue (queue available used : Z) : Op unit :=
  Carrier_healthy;;
  Carrier_check queue 0;;
  version ← load (QueueAt queue QVersion);
  reject_if (bool_decide (version ≠ 1)) "cannot reset an uninitialized inflight queue";;
  op_fold (λ head _,
      Carrier_check queue head;;
      state ← load (SlotAt queue head SState);
      inflight ← load (DescriptorAt queue head DInflight);
      reject_if (bool_decide (state ≠ EMPTY) || bool_decide (inflight ≠ 0))
        "cannot reset a queue with outstanding ownership")
    (range (g_queue_size g)) tt;;
  store (QueueAt queue QUsed) used;;
  store (HeaderAt (HAvailable queue)) available.

(** ** Validation *)

Definition load_words (address : Z → Address) : Op (list Z) :=
  op_fold (λ w words, v ← load (address w); mret (words ++ [v])) [0; 1] [].

Definition identity_words (b : bytes) : list Z := (λ w, le_decode (slice (w * 8) 8 b)) <$> [0; 1].

Definition Carrier_validate_header : Op unit :=
  magic ← load (HeaderAt HMagic);
  version ← load (HeaderAt HVersion);
  bytes ← load (HeaderAt HBytes);
  queues ← load (HeaderAt HQueues);
  queue_size ← load (HeaderAt HQueueSize);
  slot_size ← load (HeaderAt HSlotSize);
  epoch ← load (HeaderAt HEpoch);
  attachment ← load (HeaderAt HAttachment);
  reserved ← load (HeaderAt HReserved);
  reject_if (bool_decide (magic ≠ MAGIC) || bool_decide (version ≠ VERSION) || bool_decide (bytes ≠ PAGE)
             || bool_decide (queues ≠ g_queues g) || bool_decide (queue_size ≠ g_queue_size g)
             || bool_decide (slot_size ≠ SLOT_BYTES) || bool_decide (epoch ≠ id_epoch identity)
             || bool_decide (attachment ≠ id_attachment identity) || bool_decide (reserved ≠ 0))
    "inflight header identity, geometry or version differs";;
  stores ← load_words (λ w, HeaderAt (HStore w));
  images ← load_words (λ w, HeaderAt (HImage w));
  reject_if (bool_decide (stores ≠ identity_words (id_store identity))
             || bool_decide (images ≠ identity_words (id_image identity)))
    "inflight store or image identity differs";;
  published ← Carrier_published;
  mutation ← load (HeaderAt HMutation);
  unused ← op_fold (λ queue any,
                cursor ← load (HeaderAt (HAvailable queue));
                mret (any || bool_decide (cursor ≠ 0)))
             (filter (λ queue, g_queues g ≤ queue) [0; 1; 2; 3]) false;
  reject_if (bool_decide (mutation < published) || unused) "invalid inflight counters";;
  Carrier_healthy.

Definition Carrier_read_slot (queue head : Z) : Op (option (Z * Entry)) :=
  Carrier_check queue head;;
  state ← load (SlotAt queue head SState);
  flags ← load (SlotAt queue head SFlags);
  tail ← load (SlotAt queue head STail);
  reject_if (bool_decide (Z.ldiff flags REJECTED ≠ 0) || bool_decide (tail ≠ 0))
    "nonzero reserved inflight slot bytes";;
  if bool_decide (state = EMPTY) then mret None
  else
    reject_if (bool_decide (state ≠ PREPARED) && bool_decide (state ≠ ACTIVE)
               && bool_decide (state ≠ DISCOVERED)) "unknown inflight slot state";;
    code ← load (SlotAt queue head SKind);
    kind ← lift (Kind_try_from code);
    rqueue ← load (SlotAt queue head SQueue);
    rhead ← load (SlotAt queue head SHead);
    available ← load (SlotAt queue head SAvailable);
    offset ← load (SlotAt queue head SOffset);
    length ← load (SlotAt queue head SLength);
    let request := {| rq_kind := kind; rq_queue := rqueue; rq_head := rhead; rq_available := available;
                      rq_offset := offset; rq_length := length |} in
    lift (Request_validate request image_bytes);;
    discovery ← load (SlotAt queue head SDiscovery);
    attachment ← load (SlotAt queue head SAttachment);
    if bool_decide (state = DISCOVERED) then
      reject_if (bool_decide (rqueue ≠ queue) || bool_decide (rhead ≠ head)
                 || bool_decide (attachment ≠ id_attachment identity) || bool_decide (discovery = 0))
        "discovered descriptor identity differs";;
      mret (Some (state, {| en_request := request; en_serial := 0; en_mutation := 0; en_boundary := 0;
                            en_attachment := id_attachment identity; en_rejected := false;
                            en_discovery := discovery |}))
    else
      serial ← load (SlotAt queue head SSerial);
      mutation ← load (SlotAt queue head SMutation);
      boundary ← load (SlotAt queue head SBoundary);
      let entry := {| en_request := request; en_serial := serial; en_mutation := mutation;
                      en_boundary := boundary; en_attachment := attachment;
                      en_rejected := bool_decide (Z.land flags REJECTED ≠ 0); en_discovery := discovery |} in
      let expected := if Request_mutates request && negb (en_rejected entry)
                      then checked_add 64 boundary 1 else Some 0 in
      reject_if (bool_decide (rqueue ≠ queue) || bool_decide (rhead ≠ head)
                 || bool_decide (attachment ≠ id_attachment identity) || bool_decide (serial = 0)
                 || bool_decide (discovery = 0) || bool_decide (Some mutation ≠ expected))
        "inflight slot identity or mutation differs";;
      mret (Some (state, entry)).

(** The loop body of [scan] over the heads of a queue. *)
Definition scan_head (queue version serial mutation head : Z) (saved : list Saved) : Op (list Saved) :=
  Carrier_check queue head;;
  inflight ← load (DescriptorAt queue head DInflight);
  reserved ← load (DescriptorAt queue head DReserved);
  reject_if (bool_decide (1 < inflight) || bool_decide (reserved ≠ 0))
    "invalid standard inflight descriptor";;
  slot ← Carrier_read_slot queue head;
  match slot with
  | None =>
      reject_if (bool_decide (inflight ≠ 0)) "standard inflight head has no private identity";;
      mret saved
  | Some (state, entry) =>
      discovery ← load (HeaderAt HDiscovery);
      published ← Carrier_published;
      counter ← load (DescriptorAt queue head DCounter);
      reject_if (bool_decide (version ≠ 1)
                 || bool_decide (saturating_add 64 discovery 1 < en_discovery entry)
                 || (bool_decide (state = DISCOVERED) && bool_decide (inflight ≠ 0))
                 || bool_decide (saturating_add 64 serial 1 < en_serial entry)
                 || bool_decide (saturating_add 64 mutation 1 < en_mutation entry)
                 || bool_decide (mutation < en_boundary entry)
                 || (bool_decide (state = ACTIVE) && bool_decide (inflight = 0)
                     && bool_decide (published < Entry_required_publication entry))
                 || ((bool_decide (state = ACTIVE) || bool_decide (inflight = 1))
                     && bool_decide (counter ≠ en_serial entry)))
        "inflight slot counters or queue state differ";;
      mret (saved ++ [{| sv_state := state; sv_entry := entry; sv_inflight := bool_decide (inflight = 1) |}])
  end.

(** The loop body of [scan] over the queues. *)
Definition scan_queue (serial mutation queue : Z) (saved : list Saved) : Op (list Saved) :=
  Carrier_check queue 0;;
  version ← load (QueueAt queue QVersion);
  descriptors ← load (QueueAt queue QDescriptors);
  features ← load (QueueAt queue QFeatures);
  last_head ← load (QueueAt queue QLastHead);
  reject_if (bool_decide (1 < version) || bool_decide (features ≠ 0)
             || (bool_decide (version = 1) && bool_decide (descriptors ≠ g_queue_size g))
             || (bool_decide (version = 0) && bool_decide (descriptors ≠ 0)
                 && bool_decide (descriptors ≠ g_queue_size g))
             || bool_decide (g_queue_size g ≤ last_head))
    "invalid standard inflight queue header";;
  Carrier_available queue;;
  op_fold (scan_head queue version serial mutation) (range (g_queue_size g)) saved.

Definition saved_serial (s : Saved) : Z := en_serial (sv_entry s).
Definition saved_discovery (s : Saved) : Z := en_discovery (sv_entry s).
Definition saved_mutation (s : Saved) : Z := en_mutation (sv_entry s).

Definition same_window (x y : Z) : bool := bool_decide (x = y).

Definition Carrier_scan : Op (list Saved) :=
  serial ← load (HeaderAt HSerial);
  mutation ← load (HeaderAt HMutation);
  saved ← op_fold (scan_queue serial mutation) (range (g_queues g)) [];
  let saved := sort_by saved_serial saved in
  reject_if (any_window (λ a b, bool_decide (saved_serial a ≠ 0)
                                && bool_decide (saved_serial a = saved_serial b)) saved)
    "duplicate inflight operation serial";;
  reject_if (any_window same_window
               (sort_by id (filter (λ d, d ≠ 0) (saved_discovery <$> saved))))
    "duplicate discovery identity";;
  reject_if (any_window same_window
               (sort_by id (filter (λ d, d ≠ 0) (saved_mutation <$> saved))))
    "duplicate inflight mutation sequence";;
  mret saved.

Definition Carrier_validate_returned (message : VhostUserInflight) : Op unit :=
  geometry ← lift (Geometry_new (num_queues message) (queue_size message));
  reject_if (bool_decide (geometry ≠ g) || bool_decide (mmap_offset message ≠ 0)
             || bool_decide (mmap_size message ≠ Geometry_bytes g))
    "returned inflight geometry differs";;
  Carrier_validate_header;;
  Carrier_scan;;
  mret tt.

Definition Carrier_oldest_live_mutation : Op (option Z) :=
  Carrier_healthy;;
  op_fold (λ queue oldest,
      op_fold (λ head oldest,
          slot ← Carrier_read_slot queue head;
          mret (match slot with
                | Some (_, entry) =>
                    if bool_decide (en_mutation entry ≠ 0)
                    then Some (match oldest with
                               | Some old => Z.min old (en_mutation entry)
                               | None => en_mutation entry
                               end)
                    else oldest
                | None => oldest
                end))
        (range (g_queue_size g)) oldest)
    (range (g_queues g)) None.

(** ** Discovery and admission *)

Definition Carrier_prepare_discovery (request : Request) : Op Z :=
  let queue := rq_queue request in
  let head := rq_head request in
  Carrier_healthy;;
  lift (Request_validate request image_bytes);;
  Carrier_check queue 0;;
  version ← load (QueueAt queue QVersion);
  reject_if (bool_decide (version ≠ 1)) "discovery does not match saved available cursor";;
  available ← Carrier_available queue;
  reject_if (bool_decide (available ≠ rq_available request)) "discovery does not match saved available cursor";;
  Carrier_check queue head;;
  state ← load (SlotAt queue head SState);
  inflight ← load (DescriptorAt queue head DInflight);
  reject_if (bool_decide (state ≠ EMPTY) || bool_decide (inflight ≠ 0)) "discovery reused an owned descriptor";;
  last ← load (HeaderAt HDiscovery);
  discovery ← lift (ok_or (Error InvalidData "discovery IDs exhausted") (checked_add 64 last 1));
  store (SlotAt queue head SKind) (Kind_code (rq_kind request));;
  store (SlotAt queue head SQueue) queue;;
  store (SlotAt queue head SHead) head;;
  store (SlotAt queue head SAvailable) (rq_available request);;
  store (SlotAt queue head SOffset) (rq_offset request);;
  store (SlotAt queue head SLength) (rq_length request);;
  store (SlotAt queue head SAttachment) (id_attachment identity);;
  store (SlotAt queue head SFlags) 0;;
  store (SlotAt queue head SDiscovery) discovery;;
  store (SlotAt queue head SState) DISCOVERED;;
  mret discovery.

Definition Carrier_finish_discovery (request : Request) (discovery : Z) : Op unit :=
  store (HeaderAt HDiscovery) discovery;;
  store (HeaderAt (HAvailable (rq_queue request))) (wrapping_add 16 (rq_available request) 1).

Definition Carrier_discover (request : Request) : Op Z :=
  discovery ← Carrier_prepare_discovery request;
  Carrier_finish_discovery request discovery;;
  mret discovery.

Definition Carrier_prepare (request : Request) (rejected : bool) : Op Entry :=
  let queue := rq_queue request in
  let head := rq_head request in
  Carrier_healthy;;
  lift (Request_validate request image_bytes);;
  issued ← load (HeaderAt HSerial);
  serial ← lift (ok_or (Error InvalidData "operation serial exhausted") (checked_add 64 issued 1));
  boundary ← load (HeaderAt HMutation);
  mutation ← lift (if Request_mutates request && negb rejected
                   then ok_or (Error InvalidData "mutation sequence exhausted") (checked_add 64 boundary 1)
                   else Ok 0);
  Carrier_check queue head;;
  empty ← load (SlotAt queue head SState);
  (if bool_decide (empty = EMPTY) then Carrier_discover request;; mret tt else mret tt);;
  Carrier_check queue head;;
  slot ← Carrier_read_slot queue head;
  found ← lift (ok_or (Error InvalidData "admission has no discovered descriptor") slot);
  let '(state, discovered) := found in
  inflight ← load (DescriptorAt queue head DInflight);
  reject_if (bool_decide (state ≠ DISCOVERED) || bool_decide (en_request discovered ≠ request)
             || bool_decide (inflight ≠ 0)) "admission differs from discovered request";;
  let entry := {| en_request := request; en_serial := serial; en_mutation := mutation;
                  en_boundary := boundary; en_attachment := id_attachment identity;
                  en_rejected := rejected; en_discovery := en_discovery discovered |} in
  store (SlotAt queue head SFlags) (if rejected then REJECTED else 0);;
  store (SlotAt queue head SSerial) serial;;
  store (SlotAt queue head SMutation) mutation;;
  store (SlotAt queue head SBoundary) boundary;;
  store (SlotAt queue head SState) PREPARED;;
  mret entry.

Definition Carrier_activate (entry : Entry) : Op unit :=
  let queue := rq_queue (en_request entry) in
  let head := rq_head (en_request entry) in
  Carrier_check queue head;;
  store (DescriptorAt queue head DCounter) (en_serial entry);;
  store (DescriptorAt queue head DInflight) 1;;
  Carrier_check queue head;;
  store (SlotAt queue head SState) ACTIVE.

Definition Carrier_finish_admission (entry : Entry) : Op unit :=
  store (HeaderAt HSerial) (en_serial entry);;
  store (HeaderAt HMutation) (Z.max (en_mutation entry) (en_boundary entry)).

Definition Carrier_admit_observed (request : Request) (rejected : bool)
    (observe : AdmissionPhase → result unit) : Op Entry :=
  entry ← Carrier_prepare request rejected;
  lift (observe PhasePrepared);;
  Carrier_activate entry;;
  lift (observe PhaseActive);;
  Carrier_finish_admission entry;;
  mret entry.

Definition Carrier_admit_outcome (request : Request) (rejected : bool) : Op Entry :=
  Carrier_admit_observed request rejected (λ _, Ok tt).

Definition Carrier_admit (request : Request) : Op Entry := Carrier_admit_outcome request false.
Definition Carrier_reject (request : Request) : Op Entry := Carrier_admit_outcome request true.

(** ** Completion *)

Definition Carrier_prepare_completion (entry : Entry) (used : Z) (failed : bool) : Op unit :=
  let queue := rq_queue (en_request entry) in
  let head := rq_head (en_request entry) in
  (if failed then
     v ← load (HeaderAt HFailed);
     reject_if (bool_decide (v ≠ 1)) "IOERR retirement requires a FAILED attachment"
   else Carrier_healthy);;
  slot ← Carrier_read_slot queue head;
  found ← lift (ok_or (Error InvalidData "completion has no active request") slot);
  let '(state, actual) := found in
  Carrier_check queue 0;;
  cursor ← load (QueueAt queue QUsed);
  reject_if (bool_decide (state ≠ ACTIVE) || bool_decide (actual ≠ entry) || bool_decide (cursor ≠ used))
    "completion identity or used cursor differs";;
  published ← Carrier_published;
  reject_if (negb failed && bool_decide (published < Entry_required_publication entry))
    "completion precedes its captured publication boundary";;
  Carrier_check queue head;;
  store (DescriptorAt queue head DNext) head;;
  Carrier_check queue 0;;
  store (QueueAt queue QLastHead) head.

Definition Carrier_begin_completion (entry : Entry) (used : Z) : Op unit :=
  Carrier_prepare_completion entry used false.

Definition Carrier_finish_completion (entry : Entry) (used : Z) : Op unit :=
  let queue := rq_queue (en_request entry) in
  let head := rq_head (en_request entry) in
  Carrier_check queue head;;
  store (DescriptorAt queue head DInflight) 0;;
  Carrier_check queue 0;;
  store (QueueAt queue QUsed) used;;
  Carrier_check queue head;;
  store (SlotAt queue head SState) EMPTY.

Definition Carrier_complete (entry : Entry) (used : Z) (publish_used : Op unit) : Op unit :=
  Carrier_begin_completion entry used;;
  (λ m, match publish_used m with
        | (trace, Err e) => let '(trace', _) := Carrier_fail (run trace m) in (trace ++ trace', Err e)
        | other => other
        end);;
  Carrier_finish_completion entry (wrapping_add 16 used 1).

Definition Carrier_complete_error (entry : Entry) (used : Z) (publish_used : Op unit) : Op unit :=
  Carrier_prepare_completion entry used true;;
  publish_used;;
  Carrier_finish_completion entry (wrapping_add 16 used 1).

(** ** Reconciliation *)

(** The loop body over the guest's queues: the completion it interrupted. *)
Definition reconcile_queue (saved : list Saved) (guest : Z * option Z) (completed : list (Entry * Z))
    : Op (list (Entry * Z)) :=
  let '(queue, used) := guest in
  Carrier_check queue 0;;
  version ← load (QueueAt queue QVersion);
  if bool_decide (version = 0) && bool_decide (used = None) then mret completed
  else
    used ← lift (ok_or (Error InvalidData "initialized queue has no guest used cursor") used);
    reject_if (bool_decide (version ≠ 1)) "guest queue has no initialized inflight region";;
    cursor ← load (QueueAt queue QUsed);
    let behind := wrapping_sub 16 used cursor in
    if bool_decide (behind = 0) then mret completed
    else if bool_decide (behind = 1) then
      head ← load (QueueAt queue QLastHead);
      interrupted ← lift (ok_or (Error InvalidData "used publication has no saved head")
        (find_first (λ s, bool_decide (rq_queue (en_request (sv_entry s)) = queue)
                          && bool_decide (rq_head (en_request (sv_entry s)) = head)) saved));
      published ← Carrier_published;
      reject_if (bool_decide (sv_state interrupted ≠ ACTIVE)
                 || bool_decide (published < Entry_required_publication (sv_entry interrupted)))
        "used publication precedes active request or published mutation";;
      mret (completed ++ [(sv_entry interrupted, used)])
    else lift (invalid "guest used cursor exceeds one completion transaction").

(** The loop body over the saved records: the repair of one of them. *)
Definition reconcile_record (completed : list (Entry * Z)) (record : Saved)
    (s : list Entry * list (Z * Request)) : Op (list Entry * list (Z * Request)) :=
  let '(entries, discovered) := s in
  if existsb (λ c, bool_decide (c.1 = sv_entry record)) completed then mret (entries, discovered)
  else if bool_decide (sv_state record = DISCOVERED)
  then mret (entries, discovered ++ [(en_discovery (sv_entry record), en_request (sv_entry record))])
  else if bool_decide (sv_state record = ACTIVE) && negb (sv_inflight record) then
    let request := en_request (sv_entry record) in
    Carrier_check (rq_queue request) (rq_head request);;
    store (SlotAt (rq_queue request) (rq_head request) SState) EMPTY;;
    mret (entries, discovered)
  else
    Carrier_activate (sv_entry record);;
    mret (entries ++ [sv_entry record], discovered).

Definition newest_of (saved : list Saved) (discovery : Z) : option Saved :=
  match max_by saved_discovery (filter (λ s, saved_discovery s ≠ 0) saved) with
  | Some s => if bool_decide (discovery ≤ saved_discovery s) then Some s else None
  | None => None
  end.

Definition Carrier_reconcile (guest_used : list (option Z)) : Op Replay :=
  Carrier_validate_header;;
  saved ← Carrier_scan;
  reject_if (bool_decide (Z.of_nat (length guest_used) ≠ g_queues g)) "missing guest queue cursors";;
  completed ← op_fold (reconcile_queue saved) (zip (range (g_queues g)) guest_used) [];
  issued_serial ← load (HeaderAt HSerial);
  discovery ← load (HeaderAt HDiscovery);
  let newest_discovery := newest_of saved discovery in
  let highest_discovery := match newest_discovery with Some s => saved_discovery s | None => discovery end in
  (match newest_discovery with
   | Some newest =>
       let request := en_request (sv_entry newest) in
       cursor ← Carrier_available (rq_queue request);
       reject_if (bool_decide (cursor ≠ rq_available request)
                  && bool_decide (cursor ≠ wrapping_add 16 (rq_available request) 1))
         "newest discovery cannot repair available cursor"
   | None => mret tt
   end);;
  let highest_serial := match last saved with
                        | Some s => Z.max issued_serial (saved_serial s)
                        | None => issued_serial
                        end in
  mutation ← load (HeaderAt HMutation);
  let highest_mutation := foldl (λ high s, Z.max high (saved_mutation s)) mutation saved in
  op_fold (λ (c : Entry * Z) _, Carrier_finish_completion c.1 c.2) completed tt;;
  kept ← op_fold (reconcile_record completed) saved ([], []);
  let '(entries, discovered) := kept in
  (match newest_discovery with
   | Some newest => Carrier_finish_discovery (en_request (sv_entry newest)) (saved_discovery newest)
   | None => mret tt
   end);;
  store (HeaderAt HSerial) highest_serial;;
  store (HeaderAt HMutation) highest_mutation;;
  published ← Carrier_published;
  mret {| rp_entries := entries; rp_discovered := sort_by fst discovered;
          rp_highest_discovery := highest_discovery; rp_highest_serial := highest_serial;
          rp_highest_mutation := highest_mutation; rp_published := published |}.

End Carrier.

(** [attach] on a mapping of the size the message names; the new carrier keeps
    the geometry. *)
Definition Carrier_attach (message : VhostUserInflight) (identity : Identity) (image_bytes : Z) : Op Geometry :=
  geometry ← lift (Geometry_new (num_queues message) (queue_size message));
  reject_if (bool_decide (mmap_offset message ≠ 0) || bool_decide (mmap_size message ≠ Geometry_bytes geometry))
    "inflight mapping geometry differs";;
  Carrier_validate_header geometry identity;;
  Carrier_scan geometry identity image_bytes;;
  mret geometry.
