(* ===== verification/InflightSound.v ===== *)
(** * The inflight carrier survives crashes

    A crash keeps a prefix of the stores of an operation.  [always P op m Q]
    says that every such prefix leads to a memory in [P], and the whole
    operation to [Q].  [sound] is the invariant of every reachable memory,
    [quiet] the one between operations; [owner] reads off who owns a guest
    descriptor.  The theorems: every operation is sound at every crash point
    and changes ownership at one store; recovery from any sound memory accepts
    it, returns exactly the owned requests, and may itself be interrupted. *)
From stdpp Require Import functions.
From S2P Require Import Prelude Bytes Inflight.

(** ** Traces *)

Section Always.
Context {A : Type}.

Definition always (P : Memory → Prop) (op : Op A) (m : Memory) (Q : result A → Memory → Prop) : Prop :=
  (∀ k, P (run (take k (op m).1) m)) ∧ Q (op m).2 (run (op m).1 m).

End Always.

Lemma run_app t t' m : run (t ++ t') m = run t' (run t m).
Proof. apply foldl_app. Qed.

Lemma always_mono {A} (P P' : Memory → Prop) (op : Op A) m (Q Q' : result A → Memory → Prop) :
  always P op m Q → (∀ m, P m → P' m) → (∀ r m, Q r m → Q' r m) → always P' op m Q'.
Proof. intros [H1 H2] HP HQ. split; [intros k; by apply HP | by apply HQ]. Qed.

Lemma always_here {A} P (op : Op A) m Q : always P op m Q → P m.
Proof. intros [H _]. exact (H 0%nat). Qed.

Lemma always_bind {A B} P (op : Op A) (f : A → Op B) m Q :
  always P op m (λ r m', match r with
    | Ok a => always P (f a) m' Q
    | Err e => Q (Err e) m'
    | Panic => Q Panic m'
    end) →
  always P (op ≫= f) m Q.
Proof.
  intros [H1 H2]. unfold always, mbind, op_bind in *. destruct (op m) as [t r]. cbn [fst snd] in *.
  destruct r as [a|e|]; cbn [fst snd]; [|done|done]. destruct (f a (run t m)) as [t' r'] eqn:E. cbn [fst snd] in *.
  destruct H2 as [H2 H3]. rewrite run_app. split; [|done]. intros k. rewrite take_app, run_app.
  destruct (decide (k ≤ length t)%nat) as [Hk|Hk].
  - replace (k - length t)%nat with 0%nat by lia. rewrite take_0. apply H1.
  - rewrite (take_ge t) by lia. apply H2.
Qed.

Lemma always_ret {A} (P : Memory → Prop) (a : A) m Q : P m → Q (Ok a) m → always P (mret a) m Q.
Proof. intros HP HQ. split; [|done]. intros k. unfold mret, op_ret. cbn [fst]. rewrite take_nil. done. Qed.

(** An operation that only reads. *)
Definition reads {A} (op : Op A) (m : Memory) (r : result A) : Prop := op m = ([], r).

Lemma bind_reads {A B} (op : Op A) (f : A → Op B) m a : reads op m (Ok a) → (op ≫= f) m = f a m.
Proof. intros H. unfold mbind, op_bind. rewrite H. cbn [run foldl]. by destruct (f a m). Qed.

Lemma reads_bind {A B} (op : Op A) (f : A → Op B) m a r :
  reads op m (Ok a) → reads (f a) m r → reads (op ≫= f) m r.
Proof. intros H1 H2. unfold reads. by rewrite (bind_reads _ _ _ _ H1). Qed.

Lemma always_reads {A B} P (op : Op A) (f : A → Op B) m a Q :
  reads op m (Ok a) → always P (f a) m Q → always P (op ≫= f) m Q.
Proof. intros H1 H2. unfold always. by rewrite (bind_reads _ _ _ _ H1). Qed.

Lemma always_reads_err {A B} (P : Memory → Prop) (op : Op A) (f : A → Op B) m e (Q : result B → Memory → Prop) :
  reads op m (Err e) → P m → Q (Err e) m → always P (op ≫= f) m Q.
Proof.
  intros H1 HP HQ. unfold always, mbind, op_bind. rewrite !H1. cbn [fst snd]. split; [|done].
  intros k. by rewrite take_nil.
Qed.

Lemma reads_load a m : reads (load a) m (Ok (m a)).
Proof. done. Qed.

Lemma reads_lift {A} (r : result A) m : reads (lift r) m r.
Proof. done. Qed.

Lemma reads_reject c message m : c = false → reads (reject_if c message) m (Ok tt).
Proof. by intros ->. Qed.

Lemma always_load {B} P a (f : Z → Op B) m Q : always P (f (m a)) m Q → always P (load a ≫= f) m Q.
Proof. by apply always_reads. Qed.

Lemma always_reject {B} (P : Memory → Prop) c message (f : unit → Op B) m (Q : result B → Memory → Prop) :
  P m → (c = true → Q (invalid message) m) → (c = false → always P (f tt) m Q) →
  always P (reject_if c message ≫= f) m Q.
Proof.
  intros HP H1 H2. destruct c; [eapply always_reads_err; [done | done | by apply H1] | by eapply always_reads, H2].
Qed.

Lemma always_lift {A B} (P : Memory → Prop) (r : result A) (f : A → Op B) m (Q : result B → Memory → Prop) :
  P m → (∀ a, r = Ok a → always P (f a) m Q) → (∀ e, r = Err e → Q (Err e) m) → (r = Panic → Q Panic m) →
  always P (lift r ≫= f) m Q.
Proof.
  intros HP H1 H2 H3. destruct r as [a|e|]; [by eapply always_reads, H1 | by eapply always_reads_err, H2|].
  unfold always, mbind, op_bind, lift. cbn [fst snd]. split; [|by apply H3]. intros k. by rewrite take_nil.
Qed.

Lemma always_store {B} (P : Memory → Prop) a v (f : unit → Op B) m Q :
  P m → always P (f tt) (run_store m (a, v)) Q → always P (store a v ≫= f) m Q.
Proof.
  intros HP [H1 H2]. unfold always, mbind, op_bind, store. cbn [fst snd run foldl].
  destruct (f tt (run_store m (a, v))) as [t r] eqn:E. cbn [fst snd] in *. split; [|done].
  intros [|k]; [done|]. apply H1.
Qed.

Lemma always_store_last (P : Memory → Prop) a v m (Q : result unit → Memory → Prop) :
  P m → P (run_store m (a, v)) → Q (Ok tt) (run_store m (a, v)) → always P (store a v) m Q.
Proof.
  intros HP HP' HQ. unfold always, store. cbn [fst snd]. split; [|done]. intros [|k]; [done|].
  cbn. by rewrite take_nil.
Qed.

Lemma run_store_eq m a v : run_store m (a, v) a = v.
Proof. unfold run_store. by rewrite decide_True. Qed.

Lemma run_store_ne m a v b : b ≠ a → run_store m (a, v) b = m b.
Proof. intros. unfold run_store. by rewrite decide_False. Qed.

(** Reads through a sequence of stores. *)
Ltac words_of := repeat first [rewrite run_store_eq | rewrite run_store_ne by congruence].

(** ** Slots *)

Abbreviation published_of m := (m (HeaderAt HPublished)).
Abbreviation mutation_of m := (m (HeaderAt HMutation)).
Abbreviation serial_of m := (m (HeaderAt HSerial)).
Abbreviation discovery_of m := (m (HeaderAt HDiscovery)).

Section Crash.
Context {g : Geometry} {identity : Identity} {image_bytes : Z}.

Abbreviation read_slot := (Carrier_read_slot g identity image_bytes).
Abbreviation attachment := (id_attachment identity).

(** The descriptors of the region, as pairs of a queue and a head. *)
Definition cell (k : Z * Z) : Prop := 0 ≤ k.1 < g_queues g ∧ 0 ≤ k.2 < g_queue_size g.

Lemma check_ok q h : q < g_queues g → h < g_queue_size g → Geometry_check g q h = Ok tt.
Proof. intros. unfold Geometry_check. by rewrite !bool_decide_eq_false_2 by lia. Qed.

Lemma reads_check q h m : q < g_queues g → h < g_queue_size g → reads (Carrier_check g q h) m (Ok tt).
Proof. intros. unfold Carrier_check. by rewrite check_ok. Qed.

(** What a slot holds. *)
Record request_at (m : Memory) (q h : Z) (r : Request) : Prop := {
  ra_kind : m (SlotAt q h SKind) = Kind_code (rq_kind r);
  ra_queue : m (SlotAt q h SQueue) = rq_queue r;
  ra_head : m (SlotAt q h SHead) = rq_head r;
  ra_available : m (SlotAt q h SAvailable) = rq_available r;
  ra_offset : m (SlotAt q h SOffset) = rq_offset r;
  ra_length : m (SlotAt q h SLength) = rq_length r;
  ra_cell : rq_queue r = q ∧ rq_head r = h;
  ra_valid : Request_validate r image_bytes = Ok tt;
  ra_attachment : m (SlotAt q h SAttachment) = attachment;
}.

Definition discovered_entry (r : Request) (discovery : Z) : Entry := {|
  en_request := r; en_serial := 0; en_mutation := 0; en_boundary := 0; en_attachment := attachment;
  en_rejected := false; en_discovery := discovery |}.

Definition expected_mutation (e : Entry) : option Z :=
  if Request_mutates (en_request e) && negb (en_rejected e) then checked_add 64 (en_boundary e) 1 else Some 0.

Definition slot_is (m : Memory) (q h : Z) (s : option (Z * Entry)) : Prop :=
  (m (SlotAt q h SFlags) = 0 ∨ m (SlotAt q h SFlags) = 1) ∧ m (SlotAt q h STail) = 0 ∧
  match s with
  | None => m (SlotAt q h SState) = EMPTY
  | Some (st, e) =>
      m (SlotAt q h SState) = st ∧ request_at m q h (en_request e) ∧ en_attachment e = attachment ∧
      m (SlotAt q h SDiscovery) = en_discovery e ∧ en_discovery e ≠ 0 ∧
      (st = DISCOVERED ∧ e = discovered_entry (en_request e) (en_discovery e) ∨
       (st = PREPARED ∨ st = ACTIVE) ∧ m (SlotAt q h SSerial) = en_serial e ∧ en_serial e ≠ 0 ∧
       m (SlotAt q h SMutation) = en_mutation e ∧ m (SlotAt q h SBoundary) = en_boundary e ∧
       en_rejected e = bool_decide (m (SlotAt q h SFlags) = 1) ∧ Some (en_mutation e) = expected_mutation e)
  end.

Lemma Kind_try_from_code k : Kind_try_from (Kind_code k) = Ok k.
Proof. by destruct k. Qed.

Lemma flags_bits f : f = 0 ∨ f = 1 →
  bool_decide (Z.ldiff f REJECTED ≠ 0) = false ∧ bool_decide (Z.land f REJECTED ≠ 0) = bool_decide (f = 1).
Proof. by intros [-> | ->]. Qed.

(** The code of [read_slot] reads what the slot holds. *)
Lemma read_slot_reads m q h s : cell (q, h) → slot_is m q h s → reads (read_slot q h) m (Ok s).
Proof.
  intros [Hq Hh] (Hf & Ht & Hs). cbn [fst snd] in *. destruct (flags_bits _ Hf) as [F1 F2].
  unfold Carrier_read_slot. eapply reads_bind; [apply reads_check; lia|].
  do 3 (eapply reads_bind; [apply reads_load|]). eapply reads_bind.
  { apply reads_reject. by rewrite F1, Ht, bool_decide_eq_false_2 by congruence. }
  destruct s as [[st e]|].
  2:{ rewrite Hs. by rewrite bool_decide_eq_true_2. }
  destruct Hs as (Hst & [R1 R2 R3 R4 R5 R6 [R7 R8] R9 R10] & Ha & Hd & Hd0 & Hcase).
  rewrite Hst. rewrite bool_decide_eq_false_2 by (destruct Hcase as [(-> & _)|([-> | ->] & _)]; done).
  eapply reads_bind.
  { apply reads_reject. destruct Hcase as [(-> & _)|([-> | ->] & _)]; done. }
  eapply reads_bind; [apply reads_load|]. rewrite R1, Kind_try_from_code. eapply reads_bind; [apply reads_lift|].
  do 5 (eapply reads_bind; [apply reads_load|]). rewrite R2, R3, R4, R5, R6.
  assert (Hr : {| rq_kind := rq_kind (en_request e); rq_queue := rq_queue (en_request e);
    rq_head := rq_head (en_request e); rq_available := rq_available (en_request e);
    rq_offset := rq_offset (en_request e); rq_length := rq_length (en_request e) |} = en_request e)
    by by destruct (en_request e).
  rewrite Hr, R9. eapply reads_bind; [apply reads_lift|].
  do 2 (eapply reads_bind; [apply reads_load|]). rewrite Hd, R10, R7, R8.
  destruct Hcase as [(-> & He)|(Hcase & S1 & S0 & S2 & S3 & S4 & S5)].
  - rewrite bool_decide_eq_true_2 by done. eapply reads_bind.
    { apply reads_reject. by rewrite !bool_decide_eq_false_2 by congruence. }
    unfold reads. cbn. by rewrite He at 3.
  - rewrite bool_decide_eq_false_2 by (by destruct Hcase as [-> | ->]).
    do 3 (eapply reads_bind; [apply reads_load|]). rewrite S1, S2, S3, F2, <- S4.
    assert (He : {| en_request := en_request e; en_serial := en_serial e; en_mutation := en_mutation e;
      en_boundary := en_boundary e; en_attachment := attachment; en_rejected := en_rejected e;
      en_discovery := en_discovery e |} = e) by (rewrite <- Ha; by destruct e).
    cbn [en_rejected]. eapply reads_bind.
    { apply reads_reject. fold (expected_mutation e). rewrite <- S5.
      by rewrite !bool_decide_eq_false_2 by congruence. }
    unfold reads. cbn. by rewrite He.
Qed.

Lemma slot_is_inj m q h s s' : cell (q, h) → slot_is m q h s → slot_is m q h s' → s = s'.
Proof.
  intros Hc H1%read_slot_reads H2%read_slot_reads; [|done..]. unfold reads in *. congruence.
Qed.

(** A slot depends on its own words only. *)
Lemma slot_is_ext m m' q h s :
  (∀ f, m' (SlotAt q h f) = m (SlotAt q h f)) → slot_is m q h s → slot_is m' q h s.
Proof.
  intros He (H1 & H2 & H3). unfold slot_is. rewrite !He. split_and!; [done | done|].
  destruct s as [[st e]|]; [|done]. destruct H3 as (? & [] & ?). split_and!; try naive_solver.
  split; rewrite ?He; done.
Qed.

(** ** Ownership *)

(** Who owns a guest descriptor: nobody, or the guest again; the daemon, which
    has found but not admitted the request; the daemon, under an admission. *)
Inductive Owner : Type := Free | Found (discovery : Z) (r : Request) | Owned (e : Entry).

(** The guest has seen a [used.idx] that the region has not recorded. *)
Definition behind (m : Memory) (q : Z) : bool := bool_decide (m (GuestUsed q) ≠ m (QueueAt q QUsed)).

(** An active request is given back once the guest can see its completion. *)
Definition released (m : Memory) (k : Z * Z) : bool :=
  bool_decide (m (DescriptorAt k.1 k.2 DInflight) = 0)
  || (behind m k.1 && bool_decide (m (QueueAt k.1 QLastHead) = k.2)).

Definition owner_of (m : Memory) (k : Z * Z) (s : option (Z * Entry)) : Owner :=
  match s with
  | None => Free
  | Some (st, e) =>
      if bool_decide (st = DISCOVERED) then Found (en_discovery e) (en_request e)
      else if bool_decide (st = ACTIVE) && released m k then Free else Owned e
  end.

Definition owner (m : Memory) (k : Z * Z) : Owner :=
  match (read_slot k.1 k.2 m).2 with Ok s => owner_of m k s | _ => Free end.

Lemma owner_slot m k s : cell k → slot_is m k.1 k.2 s → owner m k = owner_of m k s.
Proof. intros Hc H. destruct k as [q h]. unfold owner. by rewrite (read_slot_reads m q h s Hc H). Qed.

(** ** The invariant *)

(** The words that never change once the region is created. *)
Definition constant (a : Address) : option Z :=
  match a with
  | HeaderAt HMagic => Some MAGIC
  | HeaderAt HVersion => Some VERSION
  | HeaderAt HBytes => Some PAGE
  | HeaderAt (HStore w) => Some (le_decode (slice (w * 8) 8 (id_store identity)))
  | HeaderAt (HImage w) => Some (le_decode (slice (w * 8) 8 (id_image identity)))
  | HeaderAt HEpoch => Some (id_epoch identity)
  | HeaderAt HAttachment => Some attachment
  | HeaderAt HQueues => Some (g_queues g)
  | HeaderAt HQueueSize => Some (g_queue_size g)
  | HeaderAt HSlotSize => Some SLOT_BYTES
  | HeaderAt HReserved | HeaderAt HFailed => Some 0
  | HeaderAt (HAvailable q) => if bool_decide (q < g_queues g) then None else Some 0
  | QueueAt _ QFeatures | DescriptorAt _ _ DReserved => Some 0
  | _ => None
  end.

(** Addresses of words outside [0..2] of the identities do not exist. *)
Definition exists_at (a : Address) : Prop :=
  match a with HeaderAt (HStore w) | HeaderAt (HImage w) => 0 ≤ w < 2 | _ => True end.

(** A used slot agrees with the counters of the header and its descriptor. *)
Record live_ok (m : Memory) (k : Z * Z) (st : Z) (e : Entry) : Prop := {
  lv_version : m (QueueAt k.1 QVersion) = 1;
  lv_discovery : en_discovery e ≤ saturating_add 64 (discovery_of m) 1;
  lv_serial : en_serial e ≤ saturating_add 64 (serial_of m) 1;
  lv_mutation : en_mutation e ≤ saturating_add 64 (mutation_of m) 1;
  lv_boundary : en_boundary e ≤ mutation_of m;
  lv_inflight : m (DescriptorAt k.1 k.2 DInflight) = 0 ∨ m (DescriptorAt k.1 k.2 DInflight) = 1;
  lv_found : st = DISCOVERED → m (DescriptorAt k.1 k.2 DInflight) = 0;
  lv_required : st = ACTIVE → m (DescriptorAt k.1 k.2 DInflight) = 0 →
    Entry_required_publication e ≤ published_of m;
  lv_counter : st = ACTIVE ∨ m (DescriptorAt k.1 k.2 DInflight) = 1 →
    m (DescriptorAt k.1 k.2 DCounter) = en_serial e;
  lv_cursor : discovery_of m ≤ en_discovery e →
    m (HeaderAt (HAvailable k.1)) = wrapping_add 16 (rq_available (en_request e)) 1 ∨
    st = DISCOVERED ∧ m (HeaderAt (HAvailable k.1)) = rq_available (en_request e);
  lv_admitted : st ≠ DISCOVERED → en_discovery e ≤ discovery_of m;
}.

Definition cell_ok (m : Memory) (k : Z * Z) (s : option (Z * Entry)) : Prop :=
  match s with None => m (DescriptorAt k.1 k.2 DInflight) = 0 | Some (st, e) => live_ok m k st e end.

(** A queue's words; the guest is at most one completion ahead of them. *)
Record queue_ok (m : Memory) (c : Z * Z → option (Z * Entry)) (q : Z) : Prop := {
  qo_version : m (QueueAt q QVersion) = 0 ∨ m (QueueAt q QVersion) = 1;
  qo_descriptors : m (QueueAt q QDescriptors) = g_queue_size g ∨
    m (QueueAt q QVersion) = 0 ∧ m (QueueAt q QDescriptors) = 0;
  qo_head : 0 ≤ m (QueueAt q QLastHead) < g_queue_size g;
  qo_available : 0 ≤ m (HeaderAt (HAvailable q)) < 2 ^ 16;
  qo_guest : m (QueueAt q QVersion) = 1 → behind m q = true →
    m (GuestUsed q) = wrapping_add 16 (m (QueueAt q QUsed)) 1 ∧
    ∃ e, c (q, m (QueueAt q QLastHead)) = Some (ACTIVE, e) ∧ Entry_required_publication e ≤ published_of m;
}.

Definition distinct (e e' : Entry) : Prop :=
  en_discovery e ≠ en_discovery e' ∧ (en_serial e ≠ 0 → en_serial e ≠ en_serial e') ∧
  (en_mutation e ≠ 0 → en_mutation e ≠ en_mutation e').

(** The region [m] holds the slots [c], under the ownership [own]. *)
Record sound_with (m : Memory) (c : Z * Z → option (Z * Entry)) (own : Z * Z → Owner) : Prop := {
  so_constant : ∀ a v, exists_at a → constant a = Some v → m a = v;
  so_slot : ∀ k, cell k → slot_is m k.1 k.2 (c k);
  so_counters : 0 ≤ discovery_of m ∧ 0 ≤ serial_of m ∧ published_of m ≤ mutation_of m ∧ 0 ≤ mutation_of m;
  so_queue : ∀ q, 0 ≤ q < g_queues g → queue_ok m c q;
  so_cell : ∀ k, cell k → cell_ok m k (c k);
  so_owner : ∀ k, cell k → owner_of m k (c k) = own k;
  so_distinct : ∀ k k' st e st' e', cell k → cell k' → k ≠ k' →
    c k = Some (st, e) → c k' = Some (st', e') → distinct e e';
}.

(** Between operations: nothing is half done. *)
Definition settled (m : Memory) (k : Z * Z) (s : option (Z * Entry)) : Prop :=
  match s with
  | None => True
  | Some (st, e) =>
      st ≠ PREPARED ∧ (st = ACTIVE → m (DescriptorAt k.1 k.2 DInflight) = 1) ∧
      en_discovery e ≤ discovery_of m ∧ en_serial e ≤ serial_of m ∧ en_mutation e ≤ mutation_of m ∧
      (discovery_of m ≤ en_discovery e →
       m (HeaderAt (HAvailable k.1)) = wrapping_add 16 (rq_available (en_request e)) 1)
  end.

Record quiet_with (m : Memory) (c : Z * Z → option (Z * Entry)) (own : Z * Z → Owner) : Prop := {
  qu_sound : sound_with m c own;
  qu_settled : ∀ k, cell k → settled m k (c k);
  qu_guest : ∀ q, 0 ≤ q < g_queues g → m (QueueAt q QVersion) = 1 → behind m q = false;
}.

Definition sound (m : Memory) (own : Z * Z → Owner) : Prop := ∃ c, sound_with m c own.
Definition quiet (m : Memory) (own : Z * Z → Owner) : Prop := ∃ c, quiet_with m c own.

Lemma sound_owner m own k : sound m own → cell k → owner m k = own k.
Proof.
  intros [c H] Hk. rewrite (owner_slot _ _ _ Hk (so_slot _ _ _ H _ Hk)). by apply (so_owner _ _ _ H).
Qed.

(** ** Stores *)

Ltac frame := repeat (rewrite run_store_ne by congruence).

(** A store outside the slots keeps what the slots hold. *)
Lemma store_other m c own own' a v :
  sound_with m c own → (∀ q h f, a ≠ SlotAt q h f) → constant a = None →
  let m' := run_store m (a, v) in
  (0 ≤ discovery_of m' ∧ 0 ≤ serial_of m' ∧ published_of m' ≤ mutation_of m' ∧ 0 ≤ mutation_of m') →
  (∀ q, 0 ≤ q < g_queues g → queue_ok m c q → queue_ok m' c q) →
  (∀ k, cell k → cell_ok m k (c k) → cell_ok m' k (c k)) →
  (∀ k, cell k → owner_of m' k (c k) = own' k) →
  sound_with m' c own'.
Proof.
  intros [] Ha Hn m' Hp Hq Hc Ho. split; try done.
  - intros b w Hb Hw. unfold m'. rewrite run_store_ne by (intros ->; congruence). auto.
  - intros k Hk. eapply slot_is_ext, so_slot0; [|done]. intros f. unfold m'. by rewrite run_store_ne by done.
  - auto.
  - auto.
Qed.

(** A store into a slot changes what that slot holds. *)
Lemma store_slot m c own q h f v s :
  sound_with m c own → cell (q, h) →
  let m' := run_store m (SlotAt q h f, v) in
  slot_is m' q h s → cell_ok m (q, h) s →
  (∀ e, c (q, h) = Some (ACTIVE, e) → behind m q = true → m (QueueAt q QLastHead) = h → s = Some (ACTIVE, e)) →
  (∀ k st e st' e', cell k → k ≠ (q, h) → c k = Some (st, e) → s = Some (st', e') → distinct e e' ∧ distinct e' e) →
  sound_with m' (<[(q, h) := s]> c) (<[(q, h) := owner_of m (q, h) s]> own).
Proof.
  intros [] Hk m' Hs Hc Hg Hd.
  assert (Ef : ∀ b, (∀ f, b ≠ SlotAt q h f) → m' b = m b).
  { intros b Hb. unfold m'. by rewrite run_store_ne by done. }
  assert (Eo : ∀ k s, owner_of m' k s = owner_of m k s).
  { intros k [[]|]; [|done]. unfold owner_of, released, behind. by rewrite !Ef by done. }
  assert (Ec : ∀ k s, cell_ok m k s → cell_ok m' k s).
  { intros k [[st e]|]; unfold cell_ok; [|by rewrite Ef]. intros []. split; rewrite ?Ef by done; done. }
  split.
  - intros a w Ha Hw. rewrite Ef; [auto|]. by intros f' ->.
  - intros k Hk'. destruct (decide (k = (q, h))) as [->|Hne]; [by rewrite fn_lookup_insert|].
    rewrite fn_lookup_insert_ne by done. eapply slot_is_ext; [|by apply so_slot0]. intros f'.
    unfold m'. rewrite run_store_ne; [done|]. destruct k; cbn in *. congruence.
  - rewrite !Ef by done. done.
  - intros q' Hq'. destruct (so_queue0 q' Hq') as [V1 V2 V3 V4 V5]. split; rewrite ?Ef by done; try done.
    unfold behind. rewrite !Ef by done. intros Hv Hb. destruct (V5 Hv Hb) as (G1 & e & G2 & G3).
    split; [done|]. exists e. split; [|done].
    destruct (decide ((q', m (QueueAt q' QLastHead)) = (q, h))) as [E|E].
    + rewrite E, fn_lookup_insert. simplify_eq. by eapply Hg.
    + by rewrite fn_lookup_insert_ne by done.
  - intros k Hk'. destruct (decide (k = (q, h))) as [->|Hne];
      [rewrite fn_lookup_insert|rewrite fn_lookup_insert_ne by done]; auto.
  - intros k Hk'. rewrite Eo. destruct (decide (k = (q, h))) as [->|Hne];
      [by rewrite !fn_lookup_insert|rewrite !fn_lookup_insert_ne by done]; auto.
  - intros k k' st e st' e' H1 H2 Hne. destruct (decide (k = (q, h))) as [->|N1].
    + rewrite fn_lookup_insert, fn_lookup_insert_ne by done. intros E1 E2.
      exact (proj2 (Hd k' _ _ _ _ H2 (not_eq_sym Hne) E2 E1)).
    + rewrite (fn_lookup_insert_ne _ (q, h) k) by done. destruct (decide (k' = (q, h))) as [->|N2].
      * rewrite fn_lookup_insert. intros E1 E2. exact (proj1 (Hd k _ _ _ _ H1 N1 E1 E2)).
      * rewrite fn_lookup_insert_ne by done. eauto.
Qed.

(** Case analysis on which words a store changes. *)
Ltac stored :=
  frame; first [done | assumption |
    unfold run_store in *; cbn [fst snd] in *; repeat case_decide; simplify_eq/=; try done].

Ltac words H owned :=
  apply (store_other _ _ _ _ _ _ H); [done | done | | | |];
  [ pose proof (so_counters _ _ _ H); stored; try lia
  | intros qq Hqq []; split; unfold behind in *; stored
  | intros kk Hkk Hcell; unfold cell_ok in *; case_match; [case_match; destruct Hcell; split|]; stored
  | owned ].

Ltac word H := words H ltac:(intros kk Hkk; rewrite <- (so_owner _ _ _ H _ Hkk);
                             unfold owner_of, released, behind; stored).

Lemma wrapping_add_ne a : wrapping_add 16 a 1 ≠ a.
Proof. unfold wrapping_add. intros E. apply (f_equal (λ x, (x - a) mod 2 ^ 16)) in E. revert E.
  rewrite Zminus_mod_idemp_l. replace (a + 1 - a) with 1 by lia. by rewrite Z.sub_diag.
Qed.

Lemma saturating_mono a b : a ≤ b → saturating_add 64 a 1 ≤ saturating_add 64 b 1.
Proof. unfold saturating_add. lia. Qed.
#[local] Hint Resolve saturating_mono : core.

Lemma store_discovery m c own v :
  sound_with m c own → discovery_of m ≤ v → sound_with (run_store m (HeaderAt HDiscovery, v)) c own.
Proof.
  intros H Hv. word H.
  - etrans; [done | auto].
  - intros. apply lv_cursor0. lia.
  - intros. etrans; [|done]. auto.
Qed.

Lemma store_serial m c own v :
  sound_with m c own → serial_of m ≤ v → sound_with (run_store m (HeaderAt HSerial, v)) c own.
Proof. intros H Hv. word H. etrans; [done | auto]. Qed.

Lemma store_mutation m c own v :
  sound_with m c own → mutation_of m ≤ v → sound_with (run_store m (HeaderAt HMutation, v)) c own.
Proof. intros H Hv. word H; [etrans; [done | auto] | lia]. Qed.

Lemma store_published m c own v :
  sound_with m c own → published_of m ≤ v ≤ mutation_of m →
  sound_with (run_store m (HeaderAt HPublished, v)) c own.
Proof.
  intros H Hv. word H.
  - intros Hx Hy. destruct (qo_guest0 Hx Hy) as (? & e & ? & ?). split; [done|]. exists e. split; [done | lia].
  - intros Hx Hy. specialize (lv_required0 Hx Hy). lia.
Qed.

Lemma store_available m c own q v :
  sound_with m c own → 0 ≤ q < g_queues g → 0 ≤ v < 2 ^ 16 →
  (∀ h st e, cell (q, h) → c (q, h) = Some (st, e) → discovery_of m ≤ en_discovery e →
    v = wrapping_add 16 (rq_available (en_request e)) 1) →
  sound_with (run_store m (HeaderAt (HAvailable q), v)) c own.
Proof.
  intros H Hq Hv Hc. assert (constant (HeaderAt (HAvailable q)) = None).
  { cbn. by rewrite bool_decide_eq_true_2 by lia. }
  word H. destruct kk as [q' h']. cbn [fst snd] in *. intros Hd. left. by eapply Hc.
Qed.

Lemma store_counter m c own q h v :
  sound_with m c own → cell (q, h) →
  (∀ st e, c (q, h) = Some (st, e) → st = ACTIVE ∨ m (DescriptorAt q h DInflight) = 1 → v = en_serial e) →
  sound_with (run_store m (DescriptorAt q h DCounter, v)) c own.
Proof. intros H Hk Hc. word H. intros. destruct kk. by eapply Hc. Qed.

Lemma store_next m c own q h v :
  sound_with m c own → sound_with (run_store m (DescriptorAt q h DNext, v)) c own.
Proof. intros H. word H. Qed.

Lemma store_last_head m c own q h :
  sound_with m c own → cell (q, h) → behind m q = false →
  sound_with (run_store m (QueueAt q QLastHead, h)) c own.
Proof.
  intros H [Hq Hh] Hb. cbn [fst snd] in *. unfold behind in Hb. apply bool_decide_eq_false in Hb.
  word H.
Qed.

Lemma store_descriptors m c own q :
  sound_with m c own → sound_with (run_store m (QueueAt q QDescriptors, g_queue_size g)) c own.
Proof. intros H. word H. all: tauto. Qed.

(** The guest's cursor and the region's agree again. *)
Lemma store_used m c own q :
  sound_with m c own → 
  (m (QueueAt q QVersion) = 0 ∨ m (DescriptorAt q (m (QueueAt q QLastHead)) DInflight) = 0 ∨ behind m q = false) →
  sound_with (run_store m (QueueAt q QUsed, m (GuestUsed q))) c own.
Proof.
  intros H Hb. word H.
  destruct (c kk) as [[st e]|] eqn:E; [|done]. pose proof (so_cell _ _ _ H kk Hkk) as L. rewrite E in L.
  destruct L. unfold behind in Hb. destruct Hb as [Hb|[Hb|Hb]]; [congruence | congruence|].
  by apply bool_decide_eq_false in Hb.
Qed.

Lemma store_inflight m c own q h v st e :
  sound_with m c own → cell (q, h) → c (q, h) = Some (st, e) →
  v = 1 ∧ st ≠ DISCOVERED ∧ m (DescriptorAt q h DCounter) = en_serial e ∧
    (st = ACTIVE → m (DescriptorAt q h DInflight) = 1) ∨
  v = 0 ∧ st = ACTIVE ∧ released m (q, h) = true ∧ Entry_required_publication e ≤ published_of m →
  sound_with (run_store m (DescriptorAt q h DInflight, v)) c own.
Proof.
  intros H Hk Hs Hv. words H idtac.
  all: try (destruct kk as [q' h']; cbn [fst snd] in *; simplify_eq; destruct Hv as [Hv|Hv]; destruct_and! Hv;
    simplify_eq; tauto).
  { intros -> ->. rewrite <- surjective_pairing in Hs. simplify_eq. destruct Hv as [[? _]|(_ & _ & _ & ?)]; done. }
  intros kk Hkk. rewrite <- (so_owner _ _ _ H _ Hkk). destruct (decide (kk = (q, h))) as [->|Hne].
  - rewrite Hs. unfold owner_of. destruct Hv as [(-> & H1 & H2 & H3)|(-> & -> & H3 & H4)].
    + destruct (decide (st = ACTIVE)) as [->|Hst]; [|by rewrite (bool_decide_eq_false_2 (st = ACTIVE))].
      unfold released, behind. cbn [fst snd]. rewrite run_store_eq, (H3 eq_refl). by frame.
    + rewrite H3. unfold released. cbn [fst snd]. by rewrite run_store_eq.
  - destruct (c kk) as [[st' e']|]; [|done]. unfold owner_of.
    replace (released (run_store _ _) kk) with (released m kk); [done|].
    unfold released, behind. destruct kk as [q' h']. stored.
Qed.

Lemma store_guest m c own q e :
  sound_with m c own → behind m q = false → c (q, m (QueueAt q QLastHead)) = Some (ACTIVE, e) →
  Entry_required_publication e ≤ published_of m →
  sound_with (run_store m (GuestUsed q, wrapping_add 16 (m (QueueAt q QUsed)) 1)) c
    (<[(q, m (QueueAt q QLastHead)) := Free]> own).
Proof.
  intros H Hb Hs Hp. words H ltac:(idtac).
  { eauto. }
  intros kk Hkk. unfold behind in Hb. apply bool_decide_eq_false in Hb.
  destruct (decide (kk = (q, m (QueueAt q QLastHead)))) as [->|Hne].
  - rewrite fn_lookup_insert, Hs. unfold owner_of, released, behind. pose proof (wrapping_add_ne (m (QueueAt q QUsed))).
    stored.
  - rewrite fn_lookup_insert_ne by done. rewrite <- (so_owner _ _ _ H _ Hkk). destruct (c kk) as [[st e']|]; [|done].
    unfold owner_of. replace (released (run_store _ _) kk) with (released m kk); [done|].
    unfold released, behind. destruct kk as [q' h']. stored.
Qed.

Lemma store_version m c own q :
  sound_with m c own → m (QueueAt q QDescriptors) = g_queue_size g → behind m q = false →
  sound_with (run_store m (QueueAt q QVersion, 1)) c own.
Proof. intros H Hd Hb. unfold behind in Hb. apply bool_decide_eq_false in Hb. word H; auto. Qed.

Lemma queue_ok_ext m c c' q : (∀ k, c' k = c k) → queue_ok m c q → queue_ok m c' q.
Proof. intros E []. split; try done. intros H1 H2. rewrite E. auto. Qed.

Lemma sound_ext m c c' own own' :
  (∀ k, c' k = c k) → (∀ k, cell k → own' k = own k) → sound_with m c own → sound_with m c' own'.
Proof.
  intros E1 E2 []. split; try done; intros; rewrite ?E1, ?E2 in * by done; eauto using queue_ok_ext.
Qed.

Lemma fn_insert_same {B} (f : Z * Z → B) k k' : <[k := f k]> f k' = f k'.
Proof. destruct (decide (k' = k)) as [->|]; [by rewrite fn_lookup_insert | by rewrite fn_lookup_insert_ne]. Qed.

(** A store into a slot that leaves what it holds. *)
Lemma store_same m c own q h f v :
  sound_with m c own → cell (q, h) → slot_is (run_store m (SlotAt q h f, v)) q h (c (q, h)) →
  sound_with (run_store m (SlotAt q h f, v)) c own.
Proof.
  intros H Hk Hs. eapply sound_ext; [| |apply (store_slot m c own q h f v (c (q, h))); try done].
  - intros k. by rewrite fn_insert_same.
  - intros k Hk'. rewrite (so_owner _ _ _ H _ Hk). by rewrite fn_insert_same.
  - apply (so_cell _ _ _ H). done.
  - intros k st e st' e' Hk' Hne E1 E2. split; [eapply (so_distinct _ _ _ H k (q, h)) | eapply (so_distinct _ _ _ H (q, h) k)]; eauto.
Qed.

(** The fields of an empty slot are free; those that discovery has not set are
    free until admission publishes them. *)
Lemma store_empty m c own q h f v :
  sound_with m c own → cell (q, h) → c (q, h) = None → f ≠ SState → f ≠ STail →
  (f = SFlags → v = 0 ∨ v = 1) → sound_with (run_store m (SlotAt q h f, v)) c own.
Proof.
  intros H Hk Hs H1 H2 H3. apply store_same; [done | done|]. pose proof (so_slot _ _ _ H _ Hk) as S.
  cbn [fst snd] in S. rewrite Hs in *. destruct S as (S1 & S2 & S3). split_and!; stored. auto.
Qed.

Lemma store_found m c own q h f v e :
  sound_with m c own → cell (q, h) → c (q, h) = Some (DISCOVERED, e) →
  f = SFlags ∧ (v = 0 ∨ v = 1) ∨ f = SSerial ∨ f = SMutation ∨ f = SBoundary →
  sound_with (run_store m (SlotAt q h f, v)) c own.
Proof.
  intros H Hk Hs Hf. apply store_same; [done | done|]. pose proof (so_slot _ _ _ H _ Hk) as S.
  cbn [fst snd] in S. rewrite Hs in *. destruct S as (S1 & S2 & S3 & [] & S5 & S6 & S7 & S8).
  destruct S8 as [(S8 & S9)|([|] & _)]; [|done|done].
  assert (Hne : ∀ f', f' ≠ f → run_store m (SlotAt q h f, v) (SlotAt q h f') = m (SlotAt q h f')).
  { intros f' Hne. apply run_store_ne. congruence. }
  unfold slot_is. rewrite !(Hne STail), (Hne SState), (Hne SDiscovery) by (intros <-; naive_solver).
  split_and!; try done.
  - destruct Hf as [[-> ?]|Hf]; [by rewrite run_store_eq | by rewrite Hne by (intros <-; naive_solver)].
  - split; rewrite ?Hne by (intros <-; naive_solver); done.
  - by left.
Qed.

(** What operations read in a sound region. *)
Lemma reads_healthy m c own : sound_with m c own → reads Carrier_healthy m (Ok tt).
Proof.
  intros H. unfold Carrier_healthy. eapply reads_bind; [apply reads_load|]. apply reads_reject.
  by rewrite (so_constant _ _ _ H (HeaderAt HFailed) 0).
Qed.

Lemma reads_available m c own q :
  sound_with m c own → 0 ≤ q < g_queues g → 0 < g_queue_size g →
  reads (Carrier_available g q) m (Ok (m (HeaderAt (HAvailable q)))).
Proof.
  intros H Hq Hs. unfold Carrier_available. eapply reads_bind; [apply reads_check; lia|].
  eapply reads_bind; [apply reads_load|]. pose proof (qo_available _ _ _ (so_queue _ _ _ H q Hq)).
  eapply reads_bind; [|done]. apply reads_reject. apply bool_decide_eq_false. lia.
Qed.

Lemma reads_slot m c own q h :
  sound_with m c own → cell (q, h) → reads (read_slot q h) m (Ok (c (q, h))).
Proof. intros H Hk. by apply read_slot_reads, (so_slot _ _ _ H _ Hk). Qed.

Lemma slot_empty m c own q h :
  sound_with m c own → cell (q, h) → m (SlotAt q h SState) = EMPTY ↔ c (q, h) = None.
Proof.
  intros H Hk. destruct (so_slot _ _ _ H _ Hk) as (_ & _ & S). cbn [fst snd] in S.
  destruct (c (q, h)) as [[st e]|]; [|done]. destruct S as (-> & _ & _ & _ & _ & S).
  split; [|done]. by destruct S as [[-> _]|[[-> | ->] _]].
Qed.

(** ** Operations *)

Context (size_pos : 0 < g_queue_size g).

(** Only the owner of [k] changes, to one of the [allowed]. *)
Definition moves (own : Z * Z → Owner) (k : Z * Z) (allowed : Owner → Prop) (m : Memory) : Prop :=
  ∃ o, allowed o ∧ sound m (<[k := o]> own).

Lemma moves_here own k (allowed : Owner → Prop) m c :
  sound_with m c own → allowed (own k) → moves own k allowed m.
Proof.
  intros H Ha. exists (own k). split; [done|]. exists c. eapply sound_ext; [done | | exact H].
  intros. apply fn_insert_same.
Qed.

Lemma moves_to own k (allowed : Owner → Prop) m c o :
  sound_with m c (<[k := o]> own) → allowed o → moves own k allowed m.
Proof. intros H Ha. exists o. split; [done|]. by exists c. Qed.

Lemma check_err q h : (q < g_queues g ∧ h < g_queue_size g) ∨ ∃ e, Geometry_check g q h = Err e.
Proof.
  unfold Geometry_check. destruct (decide (g_queues g ≤ q)); [right; rewrite bool_decide_eq_true_2 by done; by eexists|].
  destruct (decide (g_queue_size g ≤ h)); [right | left; lia].
  rewrite orb_comm, bool_decide_eq_true_2 by done. by eexists.
Qed.

Lemma always_check {B} (P : Memory → Prop) q h (f : unit → Op B) m (Q : result B → Memory → Prop) :
  P m → (∀ e, Q (Err e) m) → (q < g_queues g → h < g_queue_size g → always P (f tt) m Q) →
  always P (Carrier_check g q h ≫= f) m Q.
Proof.
  intros HP HQ Hf. destruct (check_err q h) as [[H1 H2]|[e E]].
  - eapply always_reads; [by apply reads_check | auto].
  - eapply always_reads_err; [|done|auto]. unfold Carrier_check. by rewrite E.
Qed.

Lemma settled_frame m m' k s :
  (∀ a, a = HeaderAt HDiscovery ∨ a = HeaderAt HSerial ∨ a = HeaderAt HMutation ∨ a = HeaderAt (HAvailable k.1) ∨
    a = DescriptorAt k.1 k.2 DInflight → m' a = m a) → settled m k s → settled m' k s.
Proof. intros E. destruct s as [[st e]|]; [|done]. unfold settled. rewrite !E by tauto. done. Qed.

Lemma validate_no_panic r : Request_validate r image_bytes ≠ Panic.
Proof. unfold Request_validate. repeat case_match; done. Qed.

Lemma always_empty {B} (P : Memory → Prop) m c own q h f v (op : unit → Op B) Q :
  (∀ m, sound_with m c own → P m) → sound_with m c own → cell (q, h) → c (q, h) = None →
  f ≠ SState → f ≠ STail → (f = SFlags → v = 0 ∨ v = 1) →
  (sound_with (run_store m (SlotAt q h f, v)) c own → always P (op tt) (run_store m (SlotAt q h f, v)) Q) →
  always P (store (SlotAt q h f) v ≫= op) m Q.
Proof. intros. apply always_store; [auto|]. auto using store_empty. Qed.

Lemma owner_found m k r d : owner_of m k (Some (DISCOVERED, discovered_entry r d)) = Found d r.
Proof. done. Qed.

(** Words outside the slots. *)
Definition same_words (m m' : Memory) : Prop := ∀ a, (∀ q h f, a ≠ SlotAt q h f) → m' a = m a.

Lemma prepare_discovery_always m c own r :
  quiet_with m c own → 0 ≤ rq_queue r → 0 ≤ rq_head r →
  let k := (rq_queue r, rq_head r) in
  let d := discovery_of m + 1 in
  always (moves own k (λ o, o = own k ∨ own k = Free ∧ o = Found d r))
    (Carrier_prepare_discovery g identity image_bytes r) m
    (λ res m', match res with
     | Ok d' => d' = d ∧ d < 2 ^ 64 ∧ cell k ∧ own k = Free ∧ same_words m m' ∧
         m (HeaderAt (HAvailable k.1)) = rq_available r ∧
         sound_with m' (<[k := Some (DISCOVERED, discovered_entry r d)]> c) (<[k := Found d r]> own)
     | Err _ => m' = m
     | Panic => False
     end).
Proof.
  intros [H Hs Hg] Hq Hh k d. set (P := moves own k _).
  destruct (so_counters _ _ _ H) as (C1 & C2 & C3 & C4).
  assert (HP : ∀ m', sound_with m' c own → P m') by (intros; eapply moves_here; [done | by left]).
  unfold Carrier_prepare_discovery. eapply always_reads; [by eapply reads_healthy|].
  apply always_lift; [auto | | done |].
  2:{ intros E. by apply validate_no_panic in E. }
  intros [] Hval. apply always_check; [auto | done|]. intros Hq1 _. apply always_load.
  apply always_reject; [auto | done|]. intros Hv%bool_decide_eq_false%dec_stable. 
  eapply always_reads; [eapply reads_available; [done | lia | done]|].
  apply always_reject; [auto | done|]. intros Hav%bool_decide_eq_false%dec_stable.
  apply always_check; [auto | done|]. intros _ Hh1. assert (Hk : cell k) by by split.
  do 2 apply always_load. apply always_reject; [auto | done|].
  intros [He Hi]%orb_false_iff. apply bool_decide_eq_false, dec_stable in He, Hi.
  assert (Hc : c k = None) by (by apply (slot_empty m c own _ _ H Hk)).
  apply always_load. apply always_lift; [auto | | done | by unfold ok_or; case_match].
  intros d' Hd. assert (d' = d ∧ d < 2 ^ 64) as [-> Hd2].
  { unfold checked_add in Hd. case_decide; [|done]. simplify_eq/=. split; [done | lia]. }
  do 9 (eapply always_empty; [apply HP | eassumption | exact Hk | exact Hc | done | done | by auto |]; clear H; intros H).
  match type of H with sound_with ?M _ _ => set (m9 := M) in * end.
  set (e := discovered_entry r d).
  assert (F : slot_is (run_store m9 (SlotAt (rq_queue r) (rq_head r) SState, DISCOVERED)) k.1 k.2
    (Some (DISCOVERED, e))).
  { destruct (so_slot _ _ _ H _ Hk) as (_ & Ht & _). subst m9. 
    split_and!; try split; cbn [fst snd k en_request e discovered_entry en_discovery] in *; frame; rewrite ?run_store_eq; try done.
    - by left.
    - revert Ht. by frame.
    - unfold d. lia.
    - by left. }
  assert (E9 : ∀ a, (∀ q h f, a ≠ SlotAt q h f) → m9 a = m a).
  { intros a Ha. subst m9. by rewrite !run_store_ne by done. }
  clearbody m9. assert (Hf : own k = Free) by (rewrite <- (so_owner _ _ _ H k Hk), Hc; done).
  assert (H10 : sound_with (run_store m9 (SlotAt (rq_queue r) (rq_head r) SState, DISCOVERED))
    (<[k := Some (DISCOVERED, e)]> c) (<[k := Found d r]> own)).
  { apply (store_slot _ _ _ _ _ _ _ _ H Hk F).
    - split; cbn [e discovered_entry en_discovery en_serial en_mutation en_boundary en_request]; rewrite ?E9 by done;
        unfold saturating_add; try lia; try done.
      + tauto.
      + intros [|Hi']; [done|]. cbn [fst snd k] in *. congruence.
      + intros _. by right.
    - intros e' He'. unfold k in Hc. congruence.
    - intros k' st e' st' e'' Hk' Hne Hc' [= <- <-]. unfold distinct. 
      specialize (Hs k' Hk'). rewrite Hc' in Hs. destruct Hs as (_ & _ & Hs & _). cbn. split_and!; try done; try lia. }
  apply always_store; [by apply HP|]. apply always_ret; [eapply moves_to; [done | by right]|].
  split_and!; try done. intros a Ha. rewrite run_store_ne by done. by apply E9.
Qed.

Lemma discover_always m c own r :
  quiet_with m c own → 0 ≤ rq_queue r → 0 ≤ rq_head r →
  let k := (rq_queue r, rq_head r) in
  let d := discovery_of m + 1 in
  always (moves own k (λ o, o = own k ∨ own k = Free ∧ o = Found d r))
    (Carrier_discover g identity image_bytes r) m
    (λ res m', match res with
     | Ok d' => d' = d ∧ cell k ∧ own k = Free ∧ quiet m' (<[k := Found d r]> own) ∧
                serial_of m' = serial_of m ∧ mutation_of m' = mutation_of m
     | Err _ => m' = m
     | Panic => False
     end).
Proof.
  intros H Hq Hh k d. set (P := moves own k _). apply always_bind.
  eapply always_mono; [by apply prepare_discovery_always | done|].
  intros [d'|err|] m1; [|done|done]. intros (-> & Hd2 & Hk & Hf & E1 & Hav & H1). fold k in Hk, Hf, Hav, H1. fold d in H1, Hd2.
  destruct H as [H Hs Hg]. pose proof (so_counters _ _ _ H) as C. pose proof (proj1 Hk) as Hk1.
  set (c1 := <[k := _]> c) in H1.
  assert (HP : ∀ m', sound_with m' c1 (<[k := Found d r]> own) → P m') by
    (intros m' Hm'; eapply moves_to; [exact Hm' | by right]).
  assert (Ho : ∀ k' st e, cell k' → k' ≠ k → c1 k' = Some (st, e) → en_discovery e < d).
  { intros k' st e Hk' Hne. unfold c1. rewrite fn_lookup_insert_ne by done. intros Hc. specialize (Hs k' Hk').
    rewrite Hc in Hs. destruct Hs as (_ & _ & ? & _). unfold d. lia. }
  assert (H2 := store_discovery _ _ _ d H1 ltac:(rewrite E1 by done; unfold d; lia)). set (m2 := run_store m1 _) in *.
  assert (H3 : sound_with (run_store m2 (HeaderAt (HAvailable k.1), wrapping_add 16 (rq_available r) 1)) c1
    (<[k := Found d r]> own)).
  { apply store_available; [done | done | unfold wrapping_add; apply Z.mod_pos_bound; lia|].
    intros h st e Hk' Hc Hd. unfold m2 in Hd. rewrite run_store_eq in Hd.
    destruct (decide ((k.1, h) = k)) as [E|Hne]; [|specialize (Ho _ _ _ Hk' Hne Hc); lia].
    rewrite E in Hc. unfold c1 in Hc. rewrite fn_lookup_insert in Hc. by simplify_eq. }
  set (m3 := run_store m2 _) in *.
  assert (E3 : ∀ a, (∀ q h f, a ≠ SlotAt q h f) → a ≠ HeaderAt HDiscovery → a ≠ HeaderAt (HAvailable k.1) →
    m3 a = m a).
  { intros a ???. unfold m3, m2. rewrite !run_store_ne by done. auto. }
  assert (E4 : discovery_of m3 = d) by (unfold m3, m2; frame; apply run_store_eq).
  apply always_bind. apply always_store; [by apply HP|]. apply always_store_last; [by apply HP..|].
  apply always_ret; [by apply HP|]. split_and!; try done; [|by apply E3 ..].
  change (quiet m3 (<[k := Found d r]> own)). exists c1. split; [done| |].
  - intros k' Hk'. unfold settled. rewrite E4, !E3 by done. destruct (decide (k' = k)) as [->|Hne].
    + unfold c1. rewrite fn_lookup_insert. cbn. split_and!; try done; try lia. intros _. unfold m3. by rewrite run_store_eq.
    + specialize (Hs k' Hk'). specialize (Ho k'). unfold c1 in Ho |- *. rewrite fn_lookup_insert_ne in * by done.
      destruct (c k') as [[st e]|]; [|done]. specialize (Ho _ _ Hk' Hne eq_refl).
      destruct Hs as (? & ? & ? & ? & ? & ?). split_and!; try done; lia.
  - intros q Hq'. unfold behind. rewrite !E3 by done. by apply Hg.
Qed.

(** *** Admission *)

Lemma slot_live m q h st e :
  slot_is m q h (Some (st, e)) → st ≠ DISCOVERED →
  st = PREPARED ∨ st = ACTIVE.
Proof. intros (_ & _ & _ & _ & _ & _ & _ & [[-> _]|[? _]]) ?; done. Qed.

(** A slot that changes its state only. *)
Lemma slot_state m q h st st' e :
  slot_is m q h (Some (st, e)) → st ≠ DISCOVERED → st' = PREPARED ∨ st' = ACTIVE →
  slot_is (run_store m (SlotAt q h SState, st')) q h (Some (st', e)).
Proof.
  intros (H1 & H2 & H3 & [] & H5 & H6 & H7 & H8) Hne Hst. destruct H8 as [[-> _]|(_ & H8)]; [done|].
  unfold slot_is. split_and!; try split; frame; rewrite ?run_store_eq; try done. right. frame. done.
Qed.

Lemma slot_none m q h s : slot_is m q h s → slot_is (run_store m (SlotAt q h SState, EMPTY)) q h None.
Proof. intros (H1 & H2 & _). split_and!; frame; rewrite ?run_store_eq; done. Qed.

Definition activated (m m' : Memory) (k : Z * Z) : Prop :=
  m' (DescriptorAt k.1 k.2 DInflight) = 1 ∧
  ∀ a, (∀ f, a ≠ DescriptorAt k.1 k.2 f) → (∀ f, a ≠ SlotAt k.1 k.2 f) → m' a = m a.

Lemma activate_always m c own k st e :
  sound_with m c own → cell k → c k = Some (st, e) → own k = Owned e →
  always (λ m', sound m' own) (Carrier_activate g e) m
    (λ res m', res = Ok tt ∧ sound_with m' (<[k := Some (ACTIVE, e)]> c) own ∧ activated m m' k).
Proof.
  intros H Hk Hc Ho. destruct k as [q h]. pose proof (so_slot _ _ _ H _ Hk) as S. pose proof (so_cell _ _ _ H _ Hk) as L.
  pose proof (so_owner _ _ _ H _ Hk) as O. cbn [fst snd] in S. rewrite Hc in S, L, O. rewrite Ho in O.
  unfold owner_of in O. case_bool_decide as Hd; [done|].
  destruct (S) as (_ & _ & _ & [_ _ _ _ _ _ [Rq Rh] _ _] & _). unfold Carrier_activate. rewrite Rq, Rh.
  destruct (Hk) as [K1 K2]. cbn [fst snd] in K1, K2.
  assert (HP : ∀ m' c', sound_with m' c' own → sound m' own) by (intros m' c' ?; by exists c').
  eapply always_reads; [apply reads_check; lia|].
  assert (H1 : sound_with (run_store m (DescriptorAt q h DCounter, en_serial e)) c own).
  { apply store_counter; [done..|]. intros st' e' Hc' _. congruence. }
  apply always_store; [by eapply HP|].
  assert (Ha : st = ACTIVE → m (DescriptorAt q h DInflight) = 1).
  { intros ->. destruct L. destruct lv_inflight0 as [Hi|]; [|done]. cbn [fst snd] in Hi.
    unfold released in O. cbn [fst snd] in O. rewrite Hi in O. done. }
  set (m1 := run_store m _) in *.
  assert (H2 : sound_with (run_store m1 (DescriptorAt q h DInflight, 1)) c own).
  { eapply store_inflight; [done..|]. left. split_and!; [done | done | by apply run_store_eq|]. unfold m1. by frame. }
  apply always_store; [by eapply HP|]. eapply always_reads; [apply reads_check; lia|].
  set (m2 := run_store m1 _) in *.
  assert (Hn : (behind m2 q && bool_decide (m2 (QueueAt q QLastHead) = h)) = false).
  { unfold released in O. cbn [fst snd] in O. unfold behind, m2, m1 in *. frame.
    destruct (bool_decide (m (GuestUsed q) ≠ _)) eqn:B; [|done]. apply bool_decide_eq_false. intros E.
    destruct (qo_guest _ _ _ (so_queue _ _ _ H q K1) (lv_version _ _ _ _ L) B) as (_ & e' & E' & _).
    rewrite E, Hc in E'. assert (st = ACTIVE) as -> by congruence.
    rewrite (bool_decide_eq_true_2 _ E), andb_true_r, orb_true_r in O. done. }
  assert (Hi : m2 (DescriptorAt q h DInflight) = 1) by apply run_store_eq.
  assert (H3 : sound_with (run_store m2 (SlotAt q h SState, ACTIVE)) (<[(q, h) := Some (ACTIVE, e)]> c) own).
  { eapply sound_ext; [done| |apply (store_slot m2 c own q h SState ACTIVE (Some (ACTIVE, e)) H2 Hk)].
    - intros k Hk'. destruct (decide (k = (q, h))) as [->|]; [rewrite fn_lookup_insert | by rewrite fn_lookup_insert_ne].
      unfold owner_of, released. cbn [fst snd]. by rewrite Hi, Hn.
    - eapply slot_state; [|done | by right]. eapply slot_is_ext, S. intros f. unfold m2, m1. by frame.
    - pose proof (so_cell _ _ _ H2 _ Hk) as L2. rewrite Hc in L2. destruct L2. split; try done.
      + intros _ E. cbn [fst snd] in E. congruence.
      + intros _. unfold m2, m1. frame. apply run_store_eq.
      + intros Hx. destruct (lv_cursor0 Hx) as [|[? _]]; [by left | done].
      + auto.
    - intros e' He' _ _. congruence.
    - intros k st1 e1 st2 e2 Hk' Hne E1 [= <- <-].
      split; [eapply (so_distinct _ _ _ H k (q, h)) | eapply (so_distinct _ _ _ H (q, h) k)]; eauto. }
  apply always_store_last; [by eapply HP..|]. split_and!; [done | done | split].
  - cbn [fst snd]. by frame.
  - intros a Ha1 Ha2. cbn [fst snd] in *. unfold m2, m1. by rewrite !run_store_ne by auto.
Qed.

(** The entry that admission issues. *)
Definition admitted (m : Memory) (r : Request) (rejected : bool) (discovery : Z) : Entry := {|
  en_request := r; en_serial := serial_of m + 1;
  en_mutation := if Request_mutates r && negb rejected then mutation_of m + 1 else 0;
  en_boundary := mutation_of m; en_attachment := attachment; en_rejected := rejected;
  en_discovery := discovery |}.

(** What [k] may become while [r] is admitted. *)
Definition finding (m : Memory) (own : Z * Z → Owner) (k : Z * Z) (r : Request) (o : Owner) : Prop :=
  o = own k ∨ own k = Free ∧ o = Found (discovery_of m + 1) r.

Definition admitting (m : Memory) (own : Z * Z → Owner) (k : Z * Z) (r : Request) (rejected : bool) (o : Owner) : Prop :=
  finding m own k r o ∨ ∃ d, finding m own k r (Found d r) ∧ o = Owned (admitted m r rejected d).

Lemma insert_twice {B} (f : Z * Z → B) k a b k' : <[k := a]> (<[k := b]> f) k' = <[k := a]> f k'.
Proof.
  destruct (decide (k' = k)) as [->|]; [by rewrite !fn_lookup_insert | by rewrite !fn_lookup_insert_ne].
Qed.

(** The four stores that fill a discovered slot, and the one that admits it. *)
Lemma prepared_slot m q h r d rejected serial mutation boundary :
  slot_is m q h (Some (DISCOVERED, discovered_entry r d)) → serial ≠ 0 →
  let e := {| en_request := r; en_serial := serial; en_mutation := mutation; en_boundary := boundary;
              en_attachment := attachment; en_rejected := rejected; en_discovery := d |} in
  Some mutation = expected_mutation e →
  slot_is (run_store (run_store (run_store (run_store (run_store m
    (SlotAt q h SFlags, if rejected then REJECTED else 0)) (SlotAt q h SSerial, serial))
    (SlotAt q h SMutation, mutation)) (SlotAt q h SBoundary, boundary)) (SlotAt q h SState, PREPARED)) q h
    (Some (PREPARED, e)).
Proof.
  intros (H1 & H2 & H3 & [] & H5 & H6 & H7 & _) H0 e He. subst e.
  unfold slot_is. cbn [en_request en_discovery en_attachment en_serial en_mutation en_boundary en_rejected
    discovered_entry] in *.
  split_and!; try split; words_of; try done.
  - destruct rejected; auto.
  - right. words_of. split_and!; try done; [by left | by destruct rejected].
Qed.

Lemma expected_admitted m r rejected d :
  (Request_mutates r && negb rejected = true → mutation_of m + 1 < 2 ^ 64) →
  Some (en_mutation (admitted m r rejected d)) = expected_mutation (admitted m r rejected d).
Proof.
  intros Hb. unfold expected_mutation, admitted. cbn. destruct (Request_mutates r && negb rejected) eqn:E; [|done].
  unfold checked_add. rewrite decide_True by auto. done.
Qed.

Lemma always_allowed (own : Z * Z → Owner) k (allowed allowed' : Owner → Prop) {A} (op : Op A) m Q :
  (∀ o, allowed o → allowed' o) → always (moves own k allowed) op m Q → always (moves own k allowed') op m Q.
Proof. intros Ha H. eapply always_mono; [done | | done]. intros m' (o & ? & ?). exists o. auto. Qed.

Definition found_quiet (m : Memory) own k r (m' : Memory) : Prop :=
  ∃ o, finding m own k r o ∧ quiet m' (<[k := o]> own) ∧ serial_of m' = serial_of m ∧ mutation_of m' = mutation_of m.

Lemma quiet_ext m c own own' :
  (∀ k, cell k → own' k = own k) → quiet_with m c own → quiet_with m c own'.
Proof. intros E []. split; try done. by eapply sound_ext. Qed.

Lemma found_here m c own k r : quiet_with m c own → found_quiet m own k r m.
Proof.
  intros H. exists (own k). split; [by left|]. split; [|done]. exists c. eapply quiet_ext; [|done].
  intros. apply fn_insert_same.
Qed.

Lemma discover_if_always m c own r (empty : bool) :
  quiet_with m c own → 0 ≤ rq_queue r → 0 ≤ rq_head r →
  let k := (rq_queue r, rq_head r) in
  always (moves own k (finding m own k r))
    (if empty then Carrier_discover g identity image_bytes r;; mret tt else mret tt) m
    (λ res m', res ≠ Panic ∧ found_quiet m own k r m').
Proof.
  intros H Hq Hh k. destruct empty.
  - apply always_bind. eapply always_mono; [by eapply discover_always | done|]. intros [d|e|] m'; [|intros ->; split; [done | by eapply found_here] | done].
    intros (-> & Hk & Hf & [c' Hc'] & E1 & E2). assert (Hn : finding m own k r (Found (discovery_of m + 1) r)) by by right.
    apply always_ret; [eapply moves_to; [apply Hc' | done]|]. split; [done|]. exists (Found (discovery_of m + 1) r). split; [done|].
    split; [by exists c' | done].
  - apply always_ret; [|split; [done | by eapply found_here]]. eapply moves_here; [apply H | by left].
Qed.

(** The stores of [prepare]. *)

Lemma prepared_sound m c own r rejected d :
  let q := rq_queue r in let h := rq_head r in
  quiet_with m c own → cell (q, h) → c (q, h) = Some (DISCOVERED, discovered_entry r d) →
  serial_of m + 1 < 2 ^ 64 → (Request_mutates r && negb rejected = true → mutation_of m + 1 < 2 ^ 64) →
  let e := admitted m r rejected d in
  let m1 := run_store m (SlotAt q h SFlags, if rejected then REJECTED else 0) in
  let m2 := run_store m1 (SlotAt q h SSerial, en_serial e) in
  let m3 := run_store m2 (SlotAt q h SMutation, en_mutation e) in
  let m4 := run_store m3 (SlotAt q h SBoundary, en_boundary e) in
  sound_with m1 c own ∧ sound_with m2 c own ∧ sound_with m3 c own ∧ sound_with m4 c own ∧
  sound_with (run_store m4 (SlotAt q h SState, PREPARED)) (<[(q, h) := Some (PREPARED, e)]> c)
    (<[(q, h) := Owned e]> own).
Proof.
  intros q h [H Hs Hg] Hk Hc Bs Bm e m1 m2 m3 m4. pose proof (so_counters _ _ _ H) as C.
  assert (H1 : sound_with m1 c own).
  { eapply store_found; [done..|]. left. split; [done|]. destruct rejected; auto. }
  assert (H2 : sound_with m2 c own) by (eapply store_found; [done..|]; tauto).
  assert (H3 : sound_with m3 c own) by (eapply store_found; [done..|]; tauto).
  assert (H4 : sound_with m4 c own) by (eapply store_found; [done..|]; tauto).
  split_and!; try done.
  assert (Em : en_mutation e ≤ mutation_of m + 1 ∧ en_mutation e ≤ saturating_add 64 (mutation_of m) 1).
  { unfold e, admitted, saturating_add. cbn. destruct (_ && _); lia. }
  assert (E4 : ∀ a, (∀ f, a ≠ SlotAt q h f) → m4 a = m a) by (intros; unfold m4, m3, m2, m1; by rewrite !run_store_ne).
  pose proof (so_cell _ _ _ H _ Hk) as L. pose proof (Hs _ Hk) as Hd. rewrite Hc in L, Hd.
  destruct L. destruct Hd as (_ & _ & Hd & _ & _ & Hcur). cbn [fst snd en_discovery en_request discovered_entry] in *.
  apply (store_slot _ _ _ _ _ _ _ (Some (PREPARED, e)) H4 Hk).
  - apply prepared_slot; [|unfold e, admitted; cbn; lia | by apply expected_admitted].
    pose proof (so_slot _ _ _ H _ Hk) as S. by rewrite Hc in S.
  - split; rewrite ?E4 by done; cbn [fst snd e admitted en_discovery en_serial en_boundary en_request]; try done.
    + unfold saturating_add. lia.
    + tauto.
    + intros [|Hi]; [done|]. rewrite lv_found0 in Hi; done.
    + intros ?. left. auto.
  - intros e' He' _ _. assert (DISCOVERED = ACTIVE) by congruence. done.
  - intros k st' e' st'' e'' Hk' Hne Hc' [= <- <-]. unfold distinct.
    destruct (so_distinct _ _ _ H _ _ _ _ _ _ Hk Hk' (not_eq_sym Hne) Hc Hc') as (D1 & _).
    specialize (Hs _ Hk'). rewrite Hc' in Hs. destruct Hs as (_ & _ & _ & Hs1 & Hs2 & _).
    cbn [e admitted en_discovery en_serial en_mutation discovered_entry] in *.
    split_and!; try lia; destruct (_ && _); lia.
Qed.
(** The checks of [prepare] leave a discovered request. *)
Lemma prepare_always m c own r rejected :
  quiet_with m c own → 0 ≤ rq_queue r → 0 ≤ rq_head r →
  let k := (rq_queue r, rq_head r) in
  always (moves own k (admitting m own k r rejected)) (Carrier_prepare g identity image_bytes r rejected) m
    (λ res m', match res with
     | Ok e => ∃ m1 c1 o d, e = admitted m r rejected d ∧ cell k ∧ finding m own k r (Found d r) ∧
         quiet_with m1 c1 (<[k := o]> own) ∧ serial_of m1 = serial_of m ∧ mutation_of m1 = mutation_of m ∧
         same_words m1 m' ∧ sound_with m' (<[k := Some (PREPARED, e)]> c1) (<[k := Owned e]> own)
     | Err _ => found_quiet m own k r m'
     | Panic => False
     end).
Proof.
  intros H Hq Hh k. assert (HQ := found_here m c own k r H). pose proof (qu_sound _ _ _ H) as H0.
  assert (HP : moves own k (admitting m own k r rejected) m) by (eapply moves_here; [done | left; by left]).
  unfold Carrier_prepare. eapply always_reads; [by eapply reads_healthy|].
  apply always_lift; [done | | done |].
  2:{ intros E. by apply validate_no_panic in E. }
  intros [] _. apply always_load. apply always_lift; [done | | done | by unfold ok_or; case_match].
  intros serial Hserial. apply always_load. 
  apply always_lift; [done | | done | by unfold ok_or; repeat case_match].
  intros mutation Hmut. apply always_check; [done | done|]. intros Hq1 Hh1. apply always_load.
  apply always_bind. eapply (always_mono (moves own k (admitting m own k r rejected))); [eapply always_allowed, discover_if_always; [by intros; left | done..]| done|].
  intros res m1 [Hres (o & Ho & [c1 H1] & E1 & E2)]. 
  destruct res as [u|e|]; [|exists o; split_and!; try done; by exists c1|done].
  assert (HPo : ∀ m', sound_with m' c1 (<[k := o]> own) → moves own k (admitting m own k r rejected) m').
  { intros m' Hm'. eapply moves_to; [exact Hm' | by left]. }
  pose proof (qu_sound _ _ _ H1) as S1. assert (Hquiet : found_quiet m own k r m1) by (exists o; split_and!; try done; by exists c1).
  apply always_check; [auto | done|]. intros _ _. assert (Hk : cell k) by by split.
  eapply always_reads; [by eapply reads_slot|]. fold k.
  apply always_lift; [auto | | done | by destruct (c1 k)].
  intros [st e0] Hst. assert (Hc : c1 k = Some (st, e0)) by (destruct (c1 k); by simplify_eq/=).
  apply always_load. apply always_reject; [auto | done|].
  intros [[Hst1 Hr]%orb_false_iff _]%orb_false_iff. apply bool_decide_eq_false, dec_stable in Hst1, Hr. subst st.
  assert (He0 : e0 = discovered_entry r (en_discovery e0)).
  { pose proof (so_slot _ _ _ S1 _ Hk) as Hs. rewrite Hc in Hs. destruct Hs as (_ & _ & _ & _ & _ & _ & _ & [[_ Hs]|[[|] _]]); [|done..].
    by rewrite Hr in Hs. }
  set (d := en_discovery e0) in *. rewrite He0 in Hc. clearbody d.
  assert (Ho' : o = Found d r).
  { pose proof (so_owner _ _ _ S1 _ Hk) as Ho'. rewrite Hc, fn_lookup_insert in Ho'. done. }
  unfold checked_add in Hserial, Hmut. assert (Bs : serial = serial_of m + 1 ∧ serial_of m + 1 < 2 ^ 64).
  { clear Hmut. case_decide; [|done]. injection Hserial as <-. split; [done | lia]. }
  assert (Bm : mutation = (if Request_mutates r && negb rejected then mutation_of m + 1 else 0) ∧
    (Request_mutates r && negb rejected = true → mutation_of m + 1 < 2 ^ 64)).
  { clear Hserial. destruct (_ && _); [case_decide; [|done]|]; injection Hmut as <-; split; try done; lia. }
  destruct Bs as [-> Bs], Bm as [-> Bm].
  pose proof (prepared_sound m1 c1 _ r rejected d H1 Hk Hc ltac:(by rewrite E1) ltac:(by rewrite E2)) as Hsound.
  assert (Ea : admitted m1 r rejected d = admitted m r rejected d) by (unfold admitted; by rewrite E1, E2).
  rewrite Ea in Hsound. cbv zeta in Hsound. destruct Hsound as (P1 & P2 & P3 & P4 & P5).
  apply (sound_ext _ _ _ _ (<[k := Owned (admitted m r rejected d)]> own) (λ _, eq_refl)) in P5.
  2:{ intros. unfold k. by rewrite insert_twice. }
  rewrite Ho' in *. do 5 (apply always_store; [by auto|]). apply always_ret.
  - eapply moves_to; [exact P5|]. right. by exists d.
  - exists m1, c1, (Found d r), d. split_and!; try done. intros a Ha. by rewrite !run_store_ne.
Qed.

Lemma finish_admission_quiet m1 c1 own' own m k e :
  quiet_with m1 c1 own' → sound_with m (<[k := Some (ACTIVE, e)]> c1) own → cell k →
  m (DescriptorAt k.1 k.2 DInflight) = 1 →
  (∀ a, (∀ f, a ≠ DescriptorAt k.1 k.2 f) → (∀ q h f, a ≠ SlotAt q h f) → m a = m1 a) →
  serial_of m1 ≤ en_serial e → en_mutation e ≤ mutation_of m1 + 1 → en_boundary e = mutation_of m1 →
  let m2 := run_store m (HeaderAt HSerial, en_serial e) in
  let m3 := run_store m2 (HeaderAt HMutation, Z.max (en_mutation e) (en_boundary e)) in
  sound_with m2 (<[k := Some (ACTIVE, e)]> c1) own ∧ quiet_with m3 (<[k := Some (ACTIVE, e)]> c1) own.
Proof.
  intros [_ Hs Hg] H Hk Hi Ew E1 E2 E3 m2 m3.
  assert (H2 : sound_with m2 (<[k := Some (ACTIVE, e)]> c1) own) by (apply store_serial; [done | by rewrite Ew]).
  split; [done|]. assert (W3 : ∀ a, a ≠ HeaderAt HSerial → a ≠ HeaderAt HMutation → m3 a = m a).
  { intros. unfold m3, m2. by rewrite !run_store_ne. }
  assert (S3 : serial_of m3 = en_serial e) by (unfold m3, m2; words_of; done).
  assert (M3 : mutation_of m3 = Z.max (en_mutation e) (en_boundary e)) by (unfold m3; words_of; done).
  split.
  - apply store_mutation; [done|]. unfold m2. rewrite run_store_ne by done. rewrite Ew by done. lia.
  - intros k' Hk'. unfold settled. rewrite S3, M3, !W3 by done. destruct (decide (k' = k)) as [->|Hne].
    + pose proof (so_cell _ _ _ H _ Hk) as L. rewrite fn_lookup_insert in *. destruct L.
      split_and!; try done; try lia.
    + specialize (Hs _ Hk'). rewrite fn_lookup_insert_ne by done. destruct (c1 k') as [[st e']|]; [|done].
      destruct Hs as (? & Hs & ? & ? & ? & ?). rewrite !Ew by (done || (intros f Hx; destruct k, k'; by simplify_eq/=)).
      split_and!; try done; lia.
  - intros q Hq. unfold behind. rewrite !W3, !Ew by done. by apply Hg.
Qed.

Lemma admit_always m c own r rejected :
  quiet_with m c own → 0 ≤ rq_queue r → 0 ≤ rq_head r →
  let k := (rq_queue r, rq_head r) in
  always (moves own k (admitting m own k r rejected)) (Carrier_admit_outcome g identity image_bytes r rejected) m
    (λ res m', match res with
     | Ok e => ∃ d, e = admitted m r rejected d ∧ finding m own k r (Found d r) ∧ cell k ∧
         quiet m' (<[k := Owned e]> own)
     | Err _ => found_quiet m own k r m'
     | Panic => False
     end).
Proof.
  intros H Hq Hh k. unfold Carrier_admit_outcome, Carrier_admit_observed. apply always_bind.
  eapply always_mono; [by eapply prepare_always | done|]. intros [e|err|] m2; [|done|done].
  intros (m1 & c1 & o & d & -> & Hk & Hf & H1 & E1 & E2 & Ew & H2). set (e := admitted m r rejected d) in *.
  fold k in Hk, Hf, H1, H2.
  assert (HP : ∀ m', sound m' (<[k := Owned e]> own) → moves own k (admitting m own k r rejected) m').
  { intros m' Hm'. exists (Owned e). split; [|done]. right. by exists d. }
  assert (HP2 : ∀ m' c', sound_with m' c' (<[k := Owned e]> own) → moves own k (admitting m own k r rejected) m').
  { intros m' c' Hm'. apply HP. by exists c'. }
  apply always_lift; [by eapply HP2 | | done | done]. intros _ _. apply always_bind.
  eapply always_mono; [eapply (activate_always _ _ _ k PREPARED e H2 Hk); by rewrite fn_lookup_insert | exact HP|].
  intros res m3 (-> & H3 & Hi & Ea).
  apply (sound_ext _ _ (<[k := Some (ACTIVE, e)]> c1) _ _ (λ k', eq_sym (insert_twice _ _ _ _ k')) (λ _ _, eq_refl)) in H3.
  apply always_lift; [by eapply HP2 | | done | done]. intros _ _.
  destruct (finish_admission_quiet m1 c1 _ _ m3 k e H1 H3 Hk Hi) as [H4 H5].
  { intros a Ha1 Ha2. rewrite Ea; auto. }
  { rewrite E1. unfold e, admitted. cbn. lia. }
  { rewrite E2. pose proof (so_counters _ _ _ (qu_sound _ _ _ H)). unfold e, admitted. cbn. destruct (_ && _); lia. }
  { by rewrite E2. }
  pose proof (qu_sound _ _ _ H5) as H6.
  apply always_bind. apply always_store; [by eapply HP2|]. apply always_store_last; [by eapply HP2..|].
  apply always_ret; [by eapply HP2|]. exists d. split_and!; try done. by exists (<[k := Some (ACTIVE, e)]> c1).
Qed.

(** *** Completion *)

Lemma empty_sound m c own k e :
  sound_with m c own → cell k → c k = Some (ACTIVE, e) → m (DescriptorAt k.1 k.2 DInflight) = 0 →
  behind m k.1 = false →
  sound_with (run_store m (SlotAt k.1 k.2 SState, EMPTY)) (<[k := None]> c) own.
Proof.
  intros H Hk Hc Hi Hb. destruct k as [q h]. cbn [fst snd] in *.
  eapply sound_ext; [done| |apply (store_slot m c own q h SState EMPTY None H Hk)]; [|by eapply slot_none, (so_slot _ _ _ H _ Hk)|done|congruence|done].
  intros k' Hk'. destruct (decide (k' = (q, h))) as [->|]; [rewrite fn_lookup_insert | by rewrite fn_lookup_insert_ne].
  rewrite <- (so_owner _ _ _ H _ Hk), Hc. cbn. unfold released. cbn [fst snd]. by rewrite Hi.
Qed.

Definition completed (m m' : Memory) (k : Z * Z) : Prop :=
  m' (DescriptorAt k.1 k.2 DInflight) = 0 ∧ m' (QueueAt k.1 QUsed) = m (GuestUsed k.1) ∧
  ∀ a, a ≠ DescriptorAt k.1 k.2 DInflight → a ≠ QueueAt k.1 QUsed → (∀ q h f, a ≠ SlotAt q h f) → m' a = m a.

Lemma finish_completion_always m c own k e :
  sound_with m c own → cell k → c k = Some (ACTIVE, e) → behind m k.1 = true → m (QueueAt k.1 QLastHead) = k.2 →
  always (λ m', sound m' own) (Carrier_finish_completion g e (m (GuestUsed k.1))) m
    (λ res m', res = Ok tt ∧ sound_with m' (<[k := None]> c) own ∧ completed m m' k).
Proof.
  intros H Hk Hc Hb Hl. destruct k as [q h]. cbn [fst snd] in *. destruct (Hk) as [K1 K2]. cbn [fst snd] in K1, K2.
  pose proof (so_slot _ _ _ H _ Hk) as S. pose proof (so_cell _ _ _ H _ Hk) as L. rewrite Hc in S, L.
  destruct S as (_ & _ & _ & [_ _ _ _ _ _ [Rq Rh] _ _] & _). cbn [fst snd] in Rq, Rh.
  unfold Carrier_finish_completion. rewrite Rq, Rh.
  destruct (qo_guest _ _ _ (so_queue _ _ _ H q K1) (lv_version _ _ _ _ L) Hb) as (_ & e' & E' & Hp).
  rewrite Hl, Hc in E'. injection E' as <-.
  assert (HP : ∀ m' c', sound_with m' c' own → sound m' own) by (intros m' c' ?; by exists c').
  eapply always_reads; [apply reads_check; lia|].
  assert (H1 : sound_with (run_store m (DescriptorAt q h DInflight, 0)) c own).
  { eapply store_inflight; [done..|]. right. split_and!; try done. unfold released. cbn [fst snd].
    by rewrite Hb, (bool_decide_eq_true_2 _ Hl), orb_true_r. }
  apply always_store; [by eapply HP|]. eapply always_reads; [apply reads_check; lia|].
  set (m1 := run_store m _) in *.
  assert (H2 : sound_with (run_store m1 (QueueAt q QUsed, m (GuestUsed q))) c own).
  { assert (El : m1 (QueueAt q QLastHead) = h) by (unfold m1; by words_of).
    assert (H2 := store_used m1 c own q H1 ltac:(right; left; rewrite El; unfold m1; by words_of)).
    replace (m (GuestUsed q)) with (m1 (GuestUsed q)); [done|]. unfold m1. by words_of. }
  apply always_store; [by eapply HP|]. eapply always_reads; [apply reads_check; lia|].
  set (m2 := run_store m1 _) in *.
  assert (H3 := empty_sound m2 c own (q, h) e H2 Hk Hc ltac:(unfold m2, m1; by words_of)
    ltac:(unfold behind, m2, m1; cbn [fst]; words_of; by apply bool_decide_eq_false_2; intros [])).
  apply always_store_last; [by eapply HP..|]. split; [done|]. split; [done|]. split; [|split].
  - cbn [fst snd]. unfold m2, m1. by words_of.
  - cbn [fst snd]. unfold m2, m1. by words_of.
  - intros a Ha1 Ha2 Ha3. cbn [fst snd] in *. unfold m2, m1. by rewrite !run_store_ne by auto.
Qed.

(** The guest's side of a completion: status, used element and [used.idx]. *)
Definition publish_used (q used : Z) : Op unit := store (GuestUsed q) (wrapping_add 16 used 1).

Definition completing (m : Memory) (own : Z * Z → Owner) (k : Z * Z) (e : Entry) (o : Owner) : Prop :=
  o = own k ∨ own k = Owned e ∧ Entry_required_publication e ≤ published_of m ∧ o = Free.

Lemma begin_completion_always m c own e used :
  quiet_with m c own → 0 ≤ rq_queue (en_request e) → 0 ≤ rq_head (en_request e) →
  let k := (rq_queue (en_request e), rq_head (en_request e)) in
  always (λ m', sound m' own) (Carrier_begin_completion g identity image_bytes e used) m
    (λ res m', match res with
     | Ok _ => cell k ∧ c k = Some (ACTIVE, e) ∧ m (QueueAt k.1 QUsed) = used ∧
         Entry_required_publication e ≤ published_of m ∧ sound_with m' c own ∧
         m' (QueueAt k.1 QLastHead) = k.2 ∧
         ∀ a, a ≠ DescriptorAt k.1 k.2 DNext → a ≠ QueueAt k.1 QLastHead → m' a = m a
     | Err _ => m' = m
     | Panic => False
     end).
Proof.
  intros [H Hs Hg] Hq Hh k. assert (HP : ∀ m', sound_with m' c own → sound m' own) by (intros m' ?; by exists c).
  unfold Carrier_begin_completion, Carrier_prepare_completion.
  eapply always_reads; [by eapply reads_healthy|].
  destruct (check_err (rq_queue (en_request e)) (rq_head (en_request e))) as [[K1 K2]|[err E]].
  2:{ eapply always_reads_err; [| by apply HP | done]. unfold Carrier_read_slot, reads, mbind, op_bind, Carrier_check, lift.
      by rewrite E. }
  assert (Hk : cell k) by by split. eapply always_reads; [by eapply reads_slot|]. fold k.
  apply always_lift; [auto | | done | by destruct (c k)].
  intros [st e0] Hst. assert (Hc : c k = Some (st, e0)) by (destruct (c k); by simplify_eq/=).
  apply always_check; [auto | done|]. intros _ _. apply always_load. apply always_reject; [auto | done|].
  intros [[Hst1 He]%orb_false_iff Hu]%orb_false_iff. apply bool_decide_eq_false, dec_stable in Hst1, He, Hu. subst st e0.
  apply always_load. apply always_reject; [auto | done|]. intros Hp. cbn in Hp. apply bool_decide_eq_false in Hp.
  apply always_check; [auto | done|]. intros _ _. apply always_store; [auto|].
  assert (H1 := store_next m c own (rq_queue (en_request e)) (rq_head (en_request e)) (rq_head (en_request e)) H).
  eapply always_reads; [by apply reads_check|]. set (m1 := run_store m _) in *.
  pose proof (so_cell _ _ _ H _ Hk) as L. rewrite Hc in L.
  assert (H2 : sound_with (run_store m1 (QueueAt k.1 QLastHead, k.2)) c own).
  { apply store_last_head; [done | done|]. pose proof (Hg _ (proj1 Hk) (lv_version _ _ _ _ L)) as Hb.
    unfold behind, m1 in *. by words_of. }
  apply always_store_last; [by apply HP..|]. split_and!; try done; try lia; [apply run_store_eq|].
  intros a Ha1 Ha2. unfold m1. by rewrite !run_store_ne.
Qed.

Lemma complete_always m c own e used :
  quiet_with m c own → 0 ≤ rq_queue (en_request e) → 0 ≤ rq_head (en_request e) →
  let k := (rq_queue (en_request e), rq_head (en_request e)) in
  always (moves own k (completing m own k e))
    (Carrier_complete g identity image_bytes e used (publish_used (rq_queue (en_request e)) used)) m
    (λ res m', match res with
     | Ok _ => cell k ∧ own k = Owned e ∧ m (QueueAt k.1 QUsed) = used ∧
         Entry_required_publication e ≤ published_of m ∧ quiet m' (<[k := Free]> own) ∧
         m' (GuestUsed k.1) = wrapping_add 16 used 1
     | Err _ => m' = m
     | Panic => False
     end).
Proof.
  intros H Hq Hh k. destruct (H) as [H0 Hs Hg]. unfold Carrier_complete. apply always_bind.
  eapply always_mono; [by apply begin_completion_always| |].
  { intros m' [c' Hm']. eapply moves_here; [done | by left]. }
  intros [u|err|] m1; [|done|done]. intros (Hk & Hc & Hu & Hp & H1 & Hl & E1). fold k in Hk, Hc, Hu, Hl, E1. clear u.
  pose proof (so_cell _ _ _ H0 _ Hk) as L. specialize (Hs _ Hk) as Hd. rewrite Hc in L, Hd.
  destruct Hd as (_ & Hi & _). specialize (Hi eq_refl). pose proof (lv_version _ _ _ _ L) as V.
  pose proof (Hg _ (proj1 Hk) V) as Hb.
  assert (Ho : own k = Owned e).
  { rewrite <- (so_owner _ _ _ H0 _ Hk), Hc. cbn. unfold released. by rewrite Hi, Hb. }
  assert (HP : ∀ m', sound m' (<[k := Free]> own) → moves own k (completing m own k e) m').
  { intros m' Hm'. exists Free. split; [by right | done]. }
  assert (H2 : sound_with (run_store m1 (GuestUsed k.1, wrapping_add 16 used 1)) c (<[k := Free]> own)).
  { replace k with (k.1, m1 (QueueAt k.1 QLastHead)) by (rewrite Hl; by destruct k).
    rewrite <- Hu, <- (E1 (QueueAt k.1 QUsed)) by done. cbn [fst].
    apply (store_guest _ _ _ _ e H1); [unfold behind in *; by rewrite !E1 | by rewrite Hl; destruct k | by rewrite E1]. }
  set (m2 := run_store m1 _) in *. apply always_bind.
  apply (always_store_last _ (GuestUsed k.1) (wrapping_add 16 used 1)).
  { eapply moves_here; [done | by left]. }
  { apply HP. by exists c. }
  change (run_store m1 _) with m2. assert (Eg : m2 (GuestUsed k.1) = wrapping_add 16 used 1) by apply run_store_eq.
  assert (E2 : ∀ a, a ≠ DescriptorAt k.1 k.2 DNext → a ≠ QueueAt k.1 QLastHead → a ≠ GuestUsed k.1 → m2 a = m a).
  { intros a ???. unfold m2. rewrite run_store_ne by done. auto. }
  rewrite <- Eg at 1. eapply always_mono.
  { apply (finish_completion_always m2 c _ k e H2 Hk Hc).
    - unfold behind. rewrite Eg, E2, Hu by done. apply bool_decide_eq_true_2, wrapping_add_ne.
    - unfold m2. by rewrite run_store_ne. }
  { exact HP. }
  intros res m3 (-> & H3 & Hi3 & Hu3 & E3). split_and!; try done; [|by rewrite E3].
  exists (<[k := None]> c). split; [done| |].
  - intros k' Hk'. destruct (decide (k' = k)) as [->|Hne]; [by rewrite fn_lookup_insert|].
    rewrite fn_lookup_insert_ne by done. eapply settled_frame, Hs, Hk'. intros a Ha.
    rewrite E3, E2; try done; intros; destruct k, k'; cbn [fst snd] in *; destruct_or? Ha; subst; congruence.
  - intros q Hq' Hv. unfold behind. destruct (decide (q = k.1)) as [->|Hne].
    + rewrite Hu3, E3 by done. by apply bool_decide_eq_false_2; intros [].
    + specialize (Hg q Hq'). unfold behind in Hg. rewrite !E3, !E2 in * by (done || congruence). auto.
Qed.

(** *** Publication and new queues *)

Lemma publish_always m c own prefix :
  quiet_with m c own →
  always (λ m', sound m' own) (Carrier_publish prefix) m
    (λ res m', match res with
     | Ok _ => published_of m ≤ prefix ≤ mutation_of m ∧ published_of m' = prefix ∧ quiet m' own
     | Err _ => m' = m
     | Panic => False
     end).
Proof.
  intros [H Hs Hg]. assert (HP : ∀ m', sound_with m' c own → sound m' own) by (intros m' ?; by exists c).
  unfold Carrier_publish. eapply always_reads; [by eapply reads_healthy|]. unfold Carrier_published.
  do 2 apply always_load. apply always_reject; [auto | done|].
  intros [H1 H2]%orb_false_iff. apply bool_decide_eq_false in H1, H2.
  assert (H3 := store_published m c own prefix H ltac:(lia)).
  apply always_store_last; [by apply HP..|]. split_and!; [lia | lia | apply run_store_eq|].
  exists c. split; [done| |].
  - intros k Hk. eapply settled_frame, Hs, Hk. intros a Ha. rewrite run_store_ne; [done|].
    intros ->. by destruct_or? Ha.
  - intros q Hq. unfold behind. rewrite !run_store_ne by done. by apply Hg.
Qed.

Lemma initialize_queue_always m c own q available :
  quiet_with m c own → 0 ≤ q → 0 ≤ available < 2 ^ 16 →
  always (λ m', sound m' own) (Carrier_initialize_queue g q available (m (GuestUsed q))) m
    (λ res m', match res with
     | Ok _ => q < g_queues g ∧ m (QueueAt q QVersion) = 0 ∧ m' (QueueAt q QVersion) = 1 ∧
         m' (HeaderAt (HAvailable q)) = available ∧ quiet m' own
     | Err _ => m' = m
     | Panic => False
     end).
Proof.
  intros [H Hs Hg] Hq Hv. assert (HP : ∀ m', sound_with m' c own → sound m' own) by (intros m' ?; by exists c).
  unfold Carrier_initialize_queue. eapply always_reads; [by eapply reads_healthy|].
  apply always_check; [auto | done|]. intros Hq1 _. apply always_load. apply always_reject; [auto | done|].
  intros Hv0%bool_decide_eq_false%dec_stable.
  assert (Hn : ∀ h, cell (q, h) → c (q, h) = None).
  { intros h Hk. pose proof (so_cell _ _ _ H _ Hk) as L. destruct (c (q, h)) as [[st e]|]; [|done].
    destruct L. cbn [fst] in *. congruence. }
  assert (H1 := store_descriptors m c own q H). set (m1 := run_store m _) in *.
  assert (H2 : sound_with (run_store m1 (QueueAt q QUsed, m (GuestUsed q))) c own).
  { replace (m (GuestUsed q)) with (m1 (GuestUsed q)) by (unfold m1; by words_of).
    apply store_used; [done|]. left. unfold m1. by words_of. }
  set (m2 := run_store m1 _) in *.
  assert (H3 : sound_with (run_store m2 (HeaderAt (HAvailable q), available)) c own).
  { apply store_available; [done | lia | done|]. intros h st e Hk. by rewrite Hn. }
  set (m3 := run_store m2 _) in *.
  assert (H4 : sound_with (run_store m3 (QueueAt q QVersion, 1)) c own).
  { apply store_version; [done | unfold m3, m2, m1; by words_of|]. unfold behind, m3, m2, m1. words_of.
    by apply bool_decide_eq_false_2; intros []. }
  do 3 (apply always_store; [by apply HP|]). apply always_store_last; [by apply HP..|].
  change (run_store m3 _) with (run_store m3 (QueueAt q QVersion, 1)). set (m4 := run_store m3 _) in *.
  split_and!; try done; [apply run_store_eq | unfold m4, m3; by words_of|]. exists c. split; [done| |].
  - intros k Hk. destruct (decide (k.1 = q)) as [<-|Hne].
    { destruct k as [q' h]. cbn [fst] in *. by rewrite Hn. }
    eapply settled_frame, Hs, Hk. intros a Ha. unfold m4, m3, m2, m1.
    rewrite !run_store_ne; try done; intros ->; destruct_or? Ha; congruence.
  - intros q' Hq' Hv'. unfold behind. destruct (decide (q' = q)) as [->|Hne].
    + unfold m4, m3, m2, m1. words_of. by apply bool_decide_eq_false_2; intros [].
    + specialize (Hg q' Hq'). unfold behind, m4, m3, m2, m1 in *. words_of. revert Hv'. words_of. auto.
Qed.

(** *** Creation *)

Definition create_stores (prefix : Z) : list Store :=
  let word f b w := (HeaderAt (f w), le_decode (slice (w * 8) 8 b)) in
  [(HeaderAt HVersion, VERSION); (HeaderAt HBytes, PAGE);
   word HStore (id_store identity) 0; word HStore (id_store identity) 1;
   word HImage (id_image identity) 0; word HImage (id_image identity) 1;
   (HeaderAt HEpoch, id_epoch identity); (HeaderAt HAttachment, id_attachment identity);
   (HeaderAt HQueues, g_queues g); (HeaderAt HQueueSize, g_queue_size g); (HeaderAt HSlotSize, SLOT_BYTES);
   (HeaderAt HMutation, prefix); (HeaderAt HPublished, prefix); (HeaderAt HMagic, MAGIC)].

Lemma create_run m prefix : Carrier_create g identity prefix m = (create_stores prefix, Ok tt).
Proof. reflexivity. Qed.

(** A new mapping is zeroed; only the guest's cursors are not. *)
Definition zeroed (m : Memory) : Prop := ∀ a, (∀ q, a ≠ GuestUsed q) → m a = 0.

Lemma create_quiet m prefix :
  zeroed m → 0 ≤ prefix → quiet (run (Carrier_create g identity prefix m).1 m) (λ _, Free).
Proof.
  intros Hz Hp. rewrite create_run. exists (λ _, None). cbn [fst create_stores run foldl].
  set (m' := run_store _ (HeaderAt HMagic, MAGIC)).
  assert (E : ∀ a, (∀ f, a ≠ HeaderAt f) → m' a = m a) by (intros; unfold m'; by rewrite !run_store_ne).
  assert (E0 : ∀ a, (∀ f, a ≠ HeaderAt f) → (∀ q, a ≠ GuestUsed q) → m' a = 0) by (intros; rewrite E; auto).
  assert (Ea : ∀ q, m' (HeaderAt (HAvailable q)) = 0) by (intros; unfold m'; words_of; by apply Hz).
  split; [split| |].
  - intros a v Ha Hv. destruct a as [[]| | | |]; simplify_eq/=; try case_bool_decide; simplify_eq/=;
      try (unfold m'; words_of; by (reflexivity || apply Hz)); try (by apply E0).
    + assert (word = 0 ∨ word = 1) as [-> | ->] by lia; unfold m'; words_of; done.
    + assert (word = 0 ∨ word = 1) as [-> | ->] by lia; unfold m'; words_of; done.
    + destruct f; simplify_eq/=. by apply E0.
    + destruct f; simplify_eq/=. by apply E0.
  - intros k _. split_and!; [left|..]; by apply E0.
  - unfold m'. words_of. rewrite !Hz by done. lia.
  - intros q Hq. split; rewrite ?Ea, ?(E0 (QueueAt q _)) by done; auto; lia.
  - intros k _. by apply E0.
  - done.
  - done.
  - done.
  - intros q _. by rewrite (E0 (QueueAt q QVersion)).
Qed.

End Crash.
