(* ===== verification/InflightRecover.v ===== *)
(** * Recovery of the inflight carrier

    Proofs about [daemon/src/inflight/recovery.rs]: on every sound region the
    header and the slots validate, and reconciliation accepts it, finishes the
    interrupted steps and returns the owned and the discovered requests; any
    prefix of its own stores is again sound, under the same ownership. *)
From stdpp Require Import functions sorting.
From S2P Require Import Prelude Bytes Inflight InflightSound.

(** ** Sorted lists and windows *)

Lemma insert_by_perm {A} (key : A → Z) x l : insert_by key x l ≡ₚ x :: l.
Proof.
  induction l as [|y l IH]; [done|]. cbn. case_bool_decide; [done|]. rewrite IH. apply perm_swap.
Qed.

Lemma sort_by_perm {A} (key : A → Z) l : sort_by key l ≡ₚ l.
Proof. induction l as [|x l IH]; [done|]. cbn. rewrite insert_by_perm. by f_equiv. Qed.

Definition ordered {A} (key : A → Z) : list A → Prop := StronglySorted (λ x y, key x ≤ key y).

Lemma insert_by_ordered {A} (key : A → Z) x l : ordered key l → ordered key (insert_by key x l).
Proof.
  induction 1 as [|y l Hl IH Hy]; cbn; [repeat constructor|]. case_bool_decide as Hxy.
  - constructor; [by constructor|]. constructor; [done|]. eapply Forall_impl; [done|]. cbn. lia.
  - constructor; [done|]. rewrite insert_by_perm. constructor; [lia | done].
Qed.

Lemma sort_by_ordered {A} (key : A → Z) l : ordered key (sort_by key l).
Proof. induction l; cbn; [constructor | by apply insert_by_ordered]. Qed.

(** No two neighbours agree when the keys that count are distinct. *)
Lemma any_window_distinct {A} (p : A → A → bool) (key : A → Z) l :
  (∀ x y, x ∈ l → p x y = true → key x ≠ 0 ∧ key x = key y) → NoDup (filter (λ d, d ≠ 0) (key <$> l)) →
  any_window p l = false.
Proof.
  induction l as [|x [|y l] IH]; [done | done|]. intros Hp Hn. cbn [any_window]. apply orb_false_iff. split.
  - apply not_true_is_false. intros [H1 H2]%Hp; [|left]. rewrite !fmap_cons, filter_cons_True in Hn by done.
    apply NoDup_cons in Hn as [Hn _]. apply Hn. rewrite <- H2, filter_cons_True by done. left.
  - apply IH; [intros; apply Hp; [by right | done]|]. rewrite fmap_cons, filter_cons in Hn.
    case_decide; [|done]. by apply NoDup_cons in Hn as [_ Hn].
Qed.

Lemma same_window_distinct l :
  NoDup (filter (λ d, d ≠ 0) l) → any_window same_window (sort_by id (filter (λ d, d ≠ 0) l)) = false.
Proof.
  intros Hn. apply (any_window_distinct _ id).
  - intros x y Hx H%bool_decide_eq_true. rewrite sort_by_perm in Hx. by apply list_elem_of_filter in Hx as [Hx _].
  - rewrite list_fmap_id, sort_by_perm, list_filter_filter. 
    erewrite list_filter_iff; [exact Hn|]. intros x. cbn. tauto.
Qed.

Lemma max_by_spec {A} (key : A → Z) l :
  match max_by key l with
  | Some x => x ∈ l ∧ ∀ y, y ∈ l → key y ≤ key x
  | None => l = []
  end.
Proof.
  induction l as [|x l IH]; [done|]. cbn. destruct (max_by key l) as [z|].
  - destruct IH as [IH1 IH2]. case_bool_decide.
    + split; [by right|]. intros y [->|Hy]%elem_of_cons; auto.
    + split; [left|]. intros y [->|Hy%IH2]%elem_of_cons; lia.
  - subst. split; [left|]. by intros y ->%list_elem_of_singleton.
Qed.

(** The last of an ordered list bounds it. *)
Lemma ordered_last {A} (key : A → Z) l x y : ordered key l → last l = Some x → y ∈ l → key y ≤ key x.
Proof.
  induction 1 as [|z l Hl IH Hz]; [done|]. destruct l as [|z' l].
  - intros [= ->] ->%list_elem_of_singleton. lia.
  - intros Hx. change (last (z :: z' :: l)) with (last (z' :: l)) in Hx.
    intros [->|Hy]%elem_of_cons; [|auto]. rewrite Forall_forall in Hz. apply Hz. by apply last_Some_elem_of.
Qed.

(** ** Reading folds *)

Lemma reads_fold {A S} (f : A → S → Op S) (F : A → S → S) l s m :
  (∀ x s, x ∈ l → reads (f x s) m (Ok (F x s))) → reads (op_fold f l s) m (Ok (foldl (λ s x, F x s) s l)).
Proof.
  revert s. induction l as [|x l IH]; intros s Hf; [done|]. cbn [op_fold foldl].
  eapply reads_bind; [apply Hf; left|]. apply IH. intros. apply Hf. by right.
Qed.

Lemma foldl_append {A B} (f : A → list B) l s : foldl (λ s x, s ++ f x) s l = s ++ (l ≫= f).
Proof.
  revert s. induction l as [|x l IH]; intros s; cbn; [by rewrite app_nil_r|]. by rewrite IH, <- app_assoc.
Qed.

Lemma elem_of_range n x : x ∈ range n ↔ 0 ≤ x < n.
Proof.
  unfold range. rewrite list_elem_of_fmap. setoid_rewrite elem_of_seq. split.
  - intros (y & -> & ?). lia.
  - intros ?. exists (Z.to_nat x). lia.
Qed.

Lemma NoDup_range n : NoDup (range n).
Proof. apply NoDup_fmap_2; [intros ??; lia | apply NoDup_seq]. Qed.

Section Recover.
Context {g : Geometry} {identity : Identity} {image_bytes : Z}.
Context (geometry_ok : 1 ≤ g_queues g ≤ 4 ∧ 0 < g_queue_size g).

Abbreviation attachment := (id_attachment identity).
Abbreviation read_slot := (Carrier_read_slot g identity image_bytes).
Abbreviation cell := (@cell g).
Abbreviation owner := (@owner g identity image_bytes).
Abbreviation sound_with := (@sound_with g identity image_bytes).
Abbreviation quiet_with := (@quiet_with g identity image_bytes).
Abbreviation sound := (@sound g identity image_bytes).
Abbreviation quiet := (@quiet g identity image_bytes).
Abbreviation slot_is := (@slot_is identity image_bytes).

(** ** Validation *)

(** The header of a sound region passes every check but the last, that it is not
    FAILED. *)
Lemma validate_header_healthy m m0 c own :
  sound_with m0 c own → (∀ f, f ≠ HFailed → m (HeaderAt f) = m0 (HeaderAt f)) →
  Carrier_validate_header g identity m = Carrier_healthy m.
Proof.
  intros H E. assert (C : ∀ f v, f ≠ HFailed → exists_at (HeaderAt f) → @constant g identity (HeaderAt f) = Some v → m (HeaderAt f) = v).
  { intros f v Hf He Hv. rewrite E by done. by apply H. }
  unfold Carrier_validate_header. do 9 (etransitivity; [apply bind_reads, reads_load|cbn beta]).
  rewrite (C HMagic _ ltac:(done) I eq_refl), (C HVersion _ ltac:(done) I eq_refl), (C HBytes _ ltac:(done) I eq_refl),
    (C HQueues _ ltac:(done) I eq_refl), (C HQueueSize _ ltac:(done) I eq_refl), (C HSlotSize _ ltac:(done) I eq_refl),
    (C HEpoch _ ltac:(done) I eq_refl), (C HAttachment _ ltac:(done) I eq_refl), (C HReserved _ ltac:(done) I eq_refl).
  etransitivity; [apply bind_reads, reads_reject; by rewrite !bool_decide_eq_false_2 by (by intros [])|cbn beta].
  do 2 (etransitivity; [apply bind_reads; by unfold reads|cbn beta]).
  etransitivity; [apply bind_reads, reads_reject|cbn beta].
  { unfold identity_words. cbn [fmap list_fmap app].
    rewrite !(C (HStore _) _) by (done || cbn; lia). rewrite !(C (HImage _) _) by (done || cbn; lia).
    by rewrite !bool_decide_eq_false_2 by (by intros []). }
  do 2 (etransitivity; [apply bind_reads, reads_load|cbn beta]).
  etransitivity; [apply bind_reads|cbn beta].
  { apply (reads_fold _ (λ q any, any || bool_decide (m (HeaderAt (HAvailable q)) ≠ 0))). done. }
  etransitivity; [apply bind_reads, reads_reject|done]. apply orb_false_iff. split.
  { apply bool_decide_eq_false. rewrite !E by done. pose proof (so_counters _ _ _ H). lia. }
  assert (Hz : ∀ q, q ∈ filter (λ queue, g_queues g ≤ queue) [0; 1; 2; 3] → m (HeaderAt (HAvailable q)) = 0).
  { intros q [Hq _]%list_elem_of_filter. apply C; [done..|]. cbn. by rewrite bool_decide_eq_false_2 by lia. }
  revert Hz. generalize (filter (λ queue, g_queues g ≤ queue) [0; 1; 2; 3]). intros l. induction l as [|q l IH]; [done|].
  intros Hz. cbn [foldl]. rewrite bool_decide_eq_false_2 by (rewrite (Hz q) by left; by intros []).
  apply IH. intros. apply Hz. by right.
Qed.

Lemma reads_validate_header m c own : sound_with m c own → reads (Carrier_validate_header g identity) m (Ok tt).
Proof. intros H. unfold reads. rewrite (validate_header_healthy m m c own H) by done. by eapply reads_healthy. Qed.

(** ** The scan *)

Definition cells : list (Z * Z) := range (g_queues g) ≫= λ q, pair q <$> range (g_queue_size g).

Lemma elem_of_cells k : k ∈ cells ↔ cell k.
Proof.
  unfold cells. rewrite list_elem_of_bind. setoid_rewrite elem_of_range. setoid_rewrite list_elem_of_fmap.
  setoid_rewrite elem_of_range. destruct k as [q h]. split.
  - intros (q' & (h' & [= -> ->] & ?) & ?). by split.
  - intros [H1 H2]. exists q. split; [|done]. by exists h.
Qed.

Lemma NoDup_cells : NoDup cells.
Proof.
  unfold cells. apply NoDup_bind; [| |apply NoDup_range].
  - intros q q' k _ _ (? & -> & _)%list_elem_of_fmap (? & [= ->] & _)%list_elem_of_fmap. done.
  - intros q _. apply NoDup_fmap_2; [by intros ?? [= ->] | apply NoDup_range].
Qed.

(** What the scan records of a descriptor. *)
Definition record_of (m : Memory) (c : Z * Z → option (Z * Entry)) (k : Z * Z) : option Saved :=
  '(st, e) ← c k;
  Some {| sv_state := st; sv_entry := e; sv_inflight := bool_decide (m (DescriptorAt k.1 k.2 DInflight) = 1) |}.

Lemma scan_head_reads m c own q h l :
  sound_with m c own → cell (q, h) →
  reads (scan_head g identity image_bytes q (m (QueueAt q QVersion)) (m (HeaderAt HSerial)) (m (HeaderAt HMutation)) h l) m
    (Ok (l ++ option_list (record_of m c (q, h)))).
Proof.
  intros H Hk. destruct (Hk) as [K1 K2]. cbn [fst snd] in K1, K2. pose proof (so_cell _ _ _ H _ Hk) as L.
  unfold scan_head. eapply reads_bind; [apply reads_check; lia|]. do 2 (eapply reads_bind; [apply reads_load|]).
  assert (Hi : m (DescriptorAt q h DInflight) = 0 ∨ m (DescriptorAt q h DInflight) = 1).
  { destruct (c (q, h)) as [[st e]|]; [apply L | by left]. }
  eapply reads_bind.
  { apply reads_reject. rewrite (so_constant _ _ _ H (DescriptorAt q h DReserved) 0) by done.
    apply orb_false_iff. split; apply bool_decide_eq_false; [lia | by intros []]. }
  eapply reads_bind; [by eapply reads_slot|]. unfold record_of. destruct (c (q, h)) as [[st e]|]; cbn [mbind option_bind option_list].
  - destruct L. cbn [fst snd] in *. do 3 (eapply reads_bind; [by unfold reads|]).
    eapply reads_bind; [|done]. apply reads_reject. rewrite !orb_false_iff, !andb_false_iff, orb_false_iff, !bool_decide_eq_false.
    destruct Hi as [Hi|Hi]; rewrite Hi in *; intuition lia.
  - cbn in L. eapply reads_bind; [apply reads_reject, bool_decide_eq_false; by intros []|]. by rewrite app_nil_r.
Qed.

Definition scanned (m : Memory) (c : Z * Z → option (Z * Entry)) : list Saved :=
  cells ≫= λ k, option_list (record_of m c k).

Lemma scan_queue_reads m c own q l :
  sound_with m c own → 0 ≤ q < g_queues g →
  reads (scan_queue g identity image_bytes (m (HeaderAt HSerial)) (m (HeaderAt HMutation)) q l) m
    (Ok (l ++ ((pair q <$> range (g_queue_size g)) ≫= λ k, option_list (record_of m c k)))).
Proof.
  intros H Hq. destruct (so_queue _ _ _ H q Hq) as [V1 V2 V3 V4 _]. unfold scan_queue.
  eapply reads_bind; [apply reads_check; lia|]. do 4 (eapply reads_bind; [apply reads_load|]).
  eapply reads_bind.
  { apply reads_reject. rewrite (so_constant _ _ _ H (QueueAt q QFeatures) 0) by done.
    rewrite !orb_false_iff, !andb_false_iff, !bool_decide_eq_false. intuition lia. }
  eapply reads_bind; [eapply reads_available; [exact H | done | lia]|].
  replace (_ ≫= _) with (range (g_queue_size g) ≫= λ h, option_list (record_of m c (q, h))).
  - rewrite <- foldl_append. apply reads_fold. intros h l' Hh%elem_of_range. eapply scan_head_reads; [exact H | by split].
  - induction (range (g_queue_size g)) as [|h l' IH]; [done|]. cbn. by f_equal.
Qed.

Lemma scanned_queues m c :
  scanned m c = range (g_queues g) ≫= λ q, (pair q <$> range (g_queue_size g)) ≫= λ k, option_list (record_of m c k).
Proof.
  unfold scanned, cells. induction (range (g_queues g)) as [|q l IH]; [done|]. cbn. by rewrite bind_app, IH.
Qed.

Lemma elem_of_scanned m c r : r ∈ scanned m c ↔ ∃ k, cell k ∧ record_of m c k = Some r.
Proof.
  unfold scanned. rewrite list_elem_of_bind. setoid_rewrite elem_of_cells. split.
  - intros (k & Hr & Hk). exists k. split; [done|]. destruct (record_of m c k); cbn in Hr; [|by apply elem_of_nil in Hr].
    apply list_elem_of_singleton in Hr. by subst.
  - intros (k & Hk & E). exists k. rewrite E. split; [left | done].
Qed.

(** Identifiers that differ between descriptors do not repeat in a scan. *)
Lemma scanned_distinct m c own (key : Entry → Z) :
  sound_with m c own → (∀ e e', distinct e e' → key e ≠ 0 → key e ≠ key e') →
  NoDup (filter (λ d, d ≠ 0) ((λ s, key (sv_entry s)) <$> scanned m c)).
Proof.
  intros H Hd. unfold scanned. assert (Hc : ∀ k, k ∈ cells → cell k) by (intros; by apply elem_of_cells).
  revert Hc. generalize NoDup_cells. induction cells as [|k l IH]; [constructor|].
  intros [Hk Hl]%NoDup_cons Hc. cbn. rewrite fmap_app, filter_app. apply NoDup_app.
  split_and!; [| |apply IH; [done | intros; apply Hc; by right]].
  - unfold record_of. destruct (c k) as [[st e]|]; cbn; [|constructor].
    case_decide; [apply NoDup_singleton | constructor].
  - intros x (Hx & (r & -> & Hr)%list_elem_of_fmap)%list_elem_of_filter (_ & (r' & E & Hr')%list_elem_of_fmap)%list_elem_of_filter.
    apply list_elem_of_bind in Hr' as (k' & Hr' & Hk'). unfold record_of in Hr, Hr'.
    destruct (c k) as [[st e]|] eqn:E1; [|by apply elem_of_nil in Hr].
    destruct (c k') as [[st' e']|] eqn:E2; [|by apply elem_of_nil in Hr'].
    apply list_elem_of_singleton in Hr, Hr'. subst r r'. cbn [sv_entry] in *.
    apply (Hd e e'); [|done|done]. eapply (so_distinct _ _ _ H k k'); try done.
    + apply Hc. left.
    + apply Hc. by right.
    + intros ->. done.
Qed.

Definition records (m : Memory) (c : Z * Z → option (Z * Entry)) : list Saved := sort_by saved_serial (scanned m c).

Lemma scan_reads m c own : sound_with m c own → reads (Carrier_scan g identity image_bytes) m (Ok (records m c)).
Proof.
  intros H. unfold Carrier_scan. do 2 (eapply reads_bind; [apply reads_load|]).
  eapply reads_bind.
  { eapply (reads_fold _ (λ q l, l ++ ((pair q <$> range (g_queue_size g)) ≫= λ k, option_list (record_of m c k)))).
    intros q l Hq%elem_of_range. by eapply scan_queue_reads. }
  cbv beta. rewrite foldl_append, app_nil_l, <- scanned_queues. fold (records m c).
  assert (Hp : records m c ≡ₚ scanned m c) by apply sort_by_perm.
  assert (Hn : ∀ key, (∀ e e', distinct e e' → key e ≠ 0 → key e ≠ key e') →
    NoDup (filter (λ d, d ≠ 0) ((λ s, key (sv_entry s)) <$> records m c))).
  { intros key Hk. rewrite Hp. by eapply scanned_distinct. }
  eapply reads_bind; [apply reads_reject; eapply (any_window_distinct _ saved_serial)|].
  { intros x y _ [H1 H2]%andb_true_iff. apply bool_decide_eq_true in H1, H2. done. }
  { apply (Hn en_serial). intros e e' D. apply D. }
  eapply reads_bind; [apply reads_reject, same_window_distinct, (Hn en_discovery); intros e e' D _; apply D|].
  eapply reads_bind; [apply reads_reject, same_window_distinct, (Hn en_mutation); intros e e' D; apply D|].
  done.
Qed.

(** A record names its descriptor. *)
Definition cell_of (r : Saved) : Z * Z := (rq_queue (en_request (sv_entry r)), rq_head (en_request (sv_entry r))).

Lemma record_cell m c own k r : sound_with m c own → cell k → record_of m c k = Some r → cell_of r = k.
Proof.
  intros H Hk E. pose proof (so_slot _ _ _ H _ Hk) as S. unfold record_of in E.
  destruct (c k) as [[st e]|]; simplify_eq/=. destruct S as (_ & _ & _ & [_ _ _ _ _ _ [Rq Rh] _ _] & _).
  unfold cell_of. cbn. rewrite Rq, Rh. by destruct k.
Qed.

Lemma elem_of_records m c own r :
  sound_with m c own → r ∈ records m c ↔ cell (cell_of r) ∧ record_of m c (cell_of r) = Some r.
Proof.
  intros H. unfold records. rewrite sort_by_perm, elem_of_scanned. split.
  - intros (k & Hk & E). by rewrite (record_cell _ _ _ _ _ H Hk E).
  - intros [H1 H2]. eauto.
Qed.

Lemma NoDup_cell_of m c own : sound_with m c own → NoDup (cell_of <$> records m c).
Proof.
  intros H. unfold records. rewrite sort_by_perm. unfold scanned.
  assert (Hc : ∀ k, k ∈ cells → cell k) by (intros; by apply elem_of_cells).
  revert Hc. generalize NoDup_cells. induction cells as [|k l IH]; [constructor|].
  intros [Hk Hl]%NoDup_cons Hc. cbn. rewrite fmap_app. apply NoDup_app.
  assert (Hone : ∀ k' x, cell k' → x ∈ cell_of <$> option_list (record_of m c k') → x = k').
  { intros k' x Hk' (r & -> & Hr)%list_elem_of_fmap. destruct (record_of m c k') eqn:E; [|by apply elem_of_nil in Hr].
    apply list_elem_of_singleton in Hr. subst. by eapply record_cell. }
  split_and!; [| |apply IH; [done | intros; apply Hc; by right]].
  - destruct (record_of m c k); cbn; [apply NoDup_singleton | constructor].
  - intros x Hx (r & -> & (k' & Hr & Hk')%list_elem_of_bind)%list_elem_of_fmap.
    apply Hone in Hx; [|apply Hc; left]. assert (cell_of r = k') as E; [|congruence].
    apply Hone; [apply Hc; by right | by apply list_elem_of_fmap_2].
Qed.

(** ** Interrupted completions *)

(** The cursors the guest reports for the initialized queues. *)
Definition guest_cursor (m : Memory) (q : Z) : option Z :=
  if bool_decide (m (QueueAt q QVersion) = 0) then None else Some (m (GuestUsed q)).

Definition guest_cursors (m : Memory) : list (option Z) := guest_cursor m <$> range (g_queues g).

(** The descriptor whose completion the guest has seen and the region not. *)
Definition interrupted (m : Memory) (q : Z) : bool := bool_decide (m (QueueAt q QVersion) = 1) && behind m q.

Definition completion_of (m : Memory) (c : Z * Z → option (Z * Entry)) (q : Z) : list (Entry * Z) :=
  if interrupted m q then
    match c (q, m (QueueAt q QLastHead)) with Some (_, e) => [(e, m (GuestUsed q))] | None => [] end
  else [].

Lemma interrupted_cell m c own q :
  sound_with m c own → 0 ≤ q < g_queues g → interrupted m q = true →
  ∃ e, cell (q, m (QueueAt q QLastHead)) ∧ c (q, m (QueueAt q QLastHead)) = Some (ACTIVE, e) ∧
    m (GuestUsed q) = wrapping_add 16 (m (QueueAt q QUsed)) 1 ∧ Entry_required_publication e ≤ published_of m.
Proof.
  intros H Hq [Hv%bool_decide_eq_true Hb]%andb_true_iff. destruct (so_queue _ _ _ H q Hq) as [_ _ Hh _ Hg].
  destruct (Hg Hv Hb) as (E & e & Hc & Hp). exists e. split_and!; try done; by split.
Qed.

Lemma find_first_unique {A} (p : A → bool) l x :
  x ∈ l → p x = true → (∀ y, y ∈ l → p y = true → y = x) → find_first p l = Some x.
Proof.
  intros Hx Hp Hu. induction l as [|y l IH]; [by apply elem_of_nil in Hx|]. cbn. destruct (p y) eqn:E.
  - f_equal. apply Hu; [left | done].
  - apply elem_of_cons in Hx as [->|Hx]; [congruence|]. apply IH; [done|]. intros z Hz. apply Hu. by right.
Qed.

Lemma reconcile_queue_reads m c own q l :
  sound_with m c own → 0 ≤ q < g_queues g →
  reads (reconcile_queue g (records m c) (q, guest_cursor m q) l) m (Ok (l ++ completion_of m c q)).
Proof.
  intros H Hq. pose proof (so_queue _ _ _ H q Hq) as Q. unfold reconcile_queue.
  eapply reads_bind; [apply reads_check; lia|]. eapply reads_bind; [apply reads_load|].
  unfold completion_of, interrupted, guest_cursor.
  destruct (qo_version _ _ _ Q) as [V|V]; rewrite V; cbn [andb bool_decide].
  { by rewrite app_nil_r. }
  eapply reads_bind; [done|]. eapply reads_bind; [by apply reads_reject|]. eapply reads_bind; [apply reads_load|].
  destruct (behind m q) eqn:B.
  2:{ unfold behind in B. apply bool_decide_eq_false, dec_stable in B. rewrite B. unfold wrapping_sub. rewrite Z.sub_diag.
      by rewrite app_nil_r. }
  destruct (interrupted_cell m c own q H Hq) as (e & Hk & Hc & Hg & Hp).
  { unfold interrupted. by rewrite V, B. }
  rewrite Hg. replace (wrapping_sub 16 _ _) with 1.
  2:{ unfold wrapping_sub, wrapping_add. rewrite Zminus_mod_idemp_l. by replace (m (QueueAt q QUsed) + 1 - m (QueueAt q QUsed)) with 1 by lia. }
  cbn [bool_decide]. eapply reads_bind; [apply reads_load|].
  set (r := {| sv_state := ACTIVE; sv_entry := e;
    sv_inflight := bool_decide (m (DescriptorAt q (m (QueueAt q QLastHead)) DInflight) = 1) |}).
  assert (Er : record_of m c (q, m (QueueAt q QLastHead)) = Some r) by (unfold record_of; by rewrite Hc).
  pose proof (record_cell _ _ _ _ _ H Hk Er) as Ec. injection Ec as Ec1 Ec2.
  rewrite (find_first_unique _ _ r).
  - eapply reads_bind; [done|]. eapply reads_bind; [apply reads_load|].
    eapply reads_bind; [apply reads_reject; cbn; apply bool_decide_eq_false; lia|]. cbn. by rewrite Hc.
  - apply (elem_of_records _ _ _ _ H). unfold cell_of. cbn. by rewrite Ec1, Ec2.
  - cbn. by rewrite !bool_decide_eq_true_2.
  - intros r' Hr' [E1%bool_decide_eq_true E2%bool_decide_eq_true]%andb_true_iff.
    apply (elem_of_records _ _ _ _ H) in Hr' as [_ Hr']. unfold cell_of in Hr'. rewrite E1, E2 in Hr'. congruence.
Qed.

Lemma completions_read m c own :
  sound_with m c own →
  reads (op_fold (reconcile_queue g (records m c)) (zip (range (g_queues g)) (guest_cursors m)) []) m
    (Ok (range (g_queues g) ≫= completion_of m c)).
Proof.
  intros H. replace (zip _ _) with ((λ q, (q, guest_cursor m q)) <$> range (g_queues g)).
  2:{ unfold guest_cursors. induction (range (g_queues g)) as [|q l IH]; [done|]. cbn. by f_equal. }
  replace (range (g_queues g) ≫= completion_of m c) with
    (foldl (λ s (x : Z * option Z), s ++ completion_of m c x.1) [] ((λ q, (q, guest_cursor m q)) <$> range (g_queues g))).
  - apply (reads_fold _ (λ x s, s ++ completion_of m c x.1)). intros [q gu] s (q' & [= -> ->] & Hq%elem_of_range)%list_elem_of_fmap.
    by eapply reconcile_queue_reads.
  - rewrite (foldl_append (λ x : Z * option Z, completion_of m c x.1)). cbn [app].
    induction (range (g_queues g)) as [|q l IH]; [done|]. cbn. by f_equal.
Qed.

(** The completed descriptors among the queues [qs]. *)
Definition hit (m : Memory) (qs : list Z) (k : Z * Z) : Prop :=
  k.1 ∈ qs ∧ interrupted m k.1 = true ∧ m (QueueAt k.1 QLastHead) = k.2.

Record finished (qs : list Z) (m m' : Memory) (c c' : Z * Z → option (Z * Entry)) : Prop := {
  fi_done : ∀ q, q ∈ qs → interrupted m' q = false;
  fi_hit : ∀ k, hit m qs k → c' k = None;
  fi_slot : ∀ k, ¬ hit m qs k → c' k = c k;
  fi_inflight : ∀ k, ¬ hit m qs k → m' (DescriptorAt k.1 k.2 DInflight) = m (DescriptorAt k.1 k.2 DInflight);
  fi_used : ∀ q, q ∉ qs → m' (QueueAt q QUsed) = m (QueueAt q QUsed);
  fi_words : ∀ a, (∀ q h f, a ≠ SlotAt q h f) → (∀ q h, a ≠ DescriptorAt q h DInflight) →
    (∀ q, a ≠ QueueAt q QUsed) → m' a = m a;
}.

Lemma interrupted_same m m' q :
  m' (QueueAt q QVersion) = m (QueueAt q QVersion) → m' (GuestUsed q) = m (GuestUsed q) →
  m' (QueueAt q QUsed) = m (QueueAt q QUsed) → interrupted m' q = interrupted m q.
Proof. intros E1 E2 E3. unfold interrupted, behind. by rewrite E1, E2, E3. Qed.

Lemma finished_skip q qs m m' c c' :
  interrupted m q = false → q ∉ qs → finished qs m m' c c' → finished (q :: qs) m m' c c'.
Proof.
  intros Ei Hnq [F1 F2 F3 F4 F5 F6]. assert (Hh : ∀ k, hit m (q :: qs) k ↔ hit m qs k).
  { intros k. unfold hit. rewrite elem_of_cons. split; [|tauto]. intros ([Hk|?] & ? & ?); [congruence | done]. }
  split; try done.
  - intros q' [->|Hq']%elem_of_cons; [|auto]. rewrite (interrupted_same m); [done| | |]; [by apply F6 .. | by apply F5].
  - intros k. rewrite Hh. auto.
  - intros k. rewrite Hh. auto.
  - intros k. rewrite Hh. auto.
  - intros q' [_ Hq']%not_elem_of_cons. auto.
Qed.

Lemma finished_cons q qs m m1 m' c c' :
  let k := (q, m (QueueAt q QLastHead)) in
  interrupted m q = true → q ∉ qs → completed m m1 k → finished qs m1 m' (<[k := None]> c) c' →
  finished (q :: qs) m m' c c'.
Proof.
  intros k Ei Hnq (C1 & C2 & C3) [F1 F2 F3 F4 F5 F6].
  assert (Hsame : ∀ q', q' ≠ q → interrupted m1 q' = interrupted m q').
  { intros q' Hne. apply interrupted_same; apply C3; try done; cbn; congruence. }
  assert (Hlh : ∀ q', m1 (QueueAt q' QLastHead) = m (QueueAt q' QLastHead)) by (intros; by apply C3).
  assert (Hh : ∀ k', hit m (q :: qs) k' ↔ k' = k ∨ hit m1 qs k').
  { intros [q' h']. unfold hit, k. cbn [fst snd]. rewrite elem_of_cons, Hlh. split.
    - intros ([-> |Hq'] & H2 & <-); [by left | right]. rewrite Hsame by (by intros ->). done.
    - intros [[= -> ->]|(Hq' & H2 & <-)]; [by auto|]. rewrite Hsame in H2 by (by intros ->). auto. }
  assert (Hk : ¬ hit m1 qs k) by (by intros [? _]).
  split.
  - intros q' [->|Hq']%elem_of_cons; [|auto]. rewrite (interrupted_same m1); [|by apply F6 .. |by apply F5].
    unfold interrupted, behind. change k.1 with q in C2. rewrite C2, (C3 (GuestUsed q)) by done.
    by rewrite (bool_decide_eq_false_2 (m (GuestUsed q) ≠ _)), andb_false_r by (by intros []).
  - intros k' [->|Hk']%Hh; [|auto]. rewrite (F3 _ Hk). by apply fn_lookup_insert.
  - intros k' Hk'. rewrite Hh in Hk'. rewrite F3 by tauto. apply fn_lookup_insert_ne. intros <-. tauto.
  - intros k' Hk'. rewrite Hh in Hk'. rewrite F4 by tauto. apply C3; try done. intros E. apply Hk'. left.
    destruct k, k'. by simplify_eq/=.
  - intros q' [Hne Hq']%not_elem_of_cons. rewrite F5 by done. apply C3; try done. cbn. congruence.
  - intros a H1 H2 H3. rewrite F6 by done. by apply C3.
Qed.

Definition finish_all (l : list (Entry * Z)) : Op unit :=
  op_fold (λ (x : Entry * Z) _, Carrier_finish_completion g x.1 x.2) l tt.

Lemma finish_all_always qs m c own :
  sound_with m c own → NoDup qs → (∀ q, q ∈ qs → 0 ≤ q < g_queues g) →
  always (λ m', sound m' own) (finish_all (qs ≫= completion_of m c)) m
    (λ res m', res = Ok tt ∧ ∃ c', sound_with m' c' own ∧ finished qs m m' c c').
Proof.
  revert m c. induction qs as [|q qs IH]; intros m c H Hn Hq.
  { apply always_ret; [by exists c|]. split; [done|]. exists c. split; [done|].
    split; try done; try (by intros ? (?%elem_of_nil & _)); by intros ? ?%elem_of_nil. }
  apply NoDup_cons in Hn as [Hnq Hn]. cbn [mbind list_bind]. unfold completion_of at 1.
  destruct (interrupted m q) eqn:Ei.
  2:{ cbn [app]. eapply always_mono; [apply (IH _ _ H Hn); intros; apply Hq; by right | done|].
      intros res m' [-> (c' & H' & F)]. split; [done|]. exists c'. split; [done|]. by apply finished_skip. }
  destruct (interrupted_cell m c own q H (Hq q ltac:(left)) Ei) as (e & Hk & Hc & _). rewrite Hc.
  set (k := (q, m (QueueAt q QLastHead))) in *. cbn [app op_fold finish_all]. apply always_bind.
  eapply always_mono; [apply (finish_completion_always (proj2 geometry_ok) m c own k e H Hk Hc); [|done]| done|].
  { by apply andb_true_iff in Ei as [_ ?]. }
  intros res m1 (-> & H1 & C). set (c1 := <[k := None]> c) in *.
  destruct (C) as (_ & _ & C3).
  assert (Hsame : ∀ q', q' ≠ q → interrupted m1 q' = interrupted m q').
  { intros q' Hne. apply interrupted_same; apply C3; try done; cbn; congruence. }
  assert (Hlh : ∀ q', m1 (QueueAt q' QLastHead) = m (QueueAt q' QLastHead)) by (intros; by apply C3).
  assert (Hc1 : ∀ k', k' ≠ k → c1 k' = c k') by (intros; unfold c1; by rewrite fn_lookup_insert_ne).
  assert (E : ∀ qs', (∀ q', q' ∈ qs' → q' ≠ q) → qs' ≫= completion_of m c = qs' ≫= completion_of m1 c1).
  { induction qs' as [|q' l IHl]; [done|]. intros Hl. cbn. rewrite IHl by (intros; apply Hl; by right). f_equal.
    assert (Hne : q' ≠ q) by (apply Hl; left). unfold completion_of. rewrite Hsame, Hlh by done.
    rewrite Hc1 by (unfold k; congruence). by rewrite (C3 (GuestUsed q')). }
  assert (Hne : ∀ q', q' ∈ qs → q' ≠ q) by (by intros q' Hq' ->). rewrite (E qs Hne).
  eapply always_mono; [apply (IH _ _ H1 Hn); intros; apply Hq; by right | done|].
  intros res m' [-> (c' & H' & F)]. split; [done|]. exists c'. split; [done|]. by eapply finished_cons.
Qed.

(** ** The saved records *)

Definition all_queues : list Z := range (g_queues g).

Definition completions (m : Memory) (c : Z * Z → option (Z * Entry)) : list (Entry * Z) :=
  all_queues ≫= completion_of m c.

Lemma record_at m c own r :
  sound_with m c own → r ∈ records m c →
  cell (cell_of r) ∧ c (cell_of r) = Some (sv_state r, sv_entry r) ∧
  sv_inflight r = bool_decide (m (DescriptorAt (cell_of r).1 (cell_of r).2 DInflight) = 1).
Proof.
  intros H [Hk E]%(elem_of_records _ _ _ _ H). split; [done|]. unfold record_of in E.
  clear Hk. generalize dependent (cell_of r). intros k E. destruct (c k) as [[st e]|]; by simplify_eq/=.
Qed.

Lemma entry_cell m c own k st e : sound_with m c own → cell k → c k = Some (st, e) →
  (rq_queue (en_request e), rq_head (en_request e)) = k.
Proof.
  intros H Hk Hc. pose proof (so_slot _ _ _ H _ Hk) as S. rewrite Hc in S.
  destruct S as (_ & _ & _ & [_ _ _ _ _ _ [Rq Rh] _ _] & _). rewrite Rq, Rh. by destruct k.
Qed.

Lemma completions_hit m c own r :
  sound_with m c own → r ∈ records m c →
  existsb (λ x, bool_decide (x.1 = sv_entry r)) (completions m c) = true ↔ hit m all_queues (cell_of r).
Proof.
  intros H Hr. destruct (record_at _ _ _ _ H Hr) as (Hk & Hc & _). rewrite existsb_exists. split.
  - intros ([e u] & Hin & E%bool_decide_eq_true). cbn in E. subst e. apply list_elem_of_In, list_elem_of_bind in Hin as (q & Hin & Hq).
    pose proof Hq as Hq'. apply elem_of_range in Hq'.
    unfold completion_of in Hin. destruct (interrupted m q) eqn:Ei; [|by apply elem_of_nil in Hin].
    destruct (interrupted_cell m c own q H Hq' Ei) as (e & Hk' & Hc' & _). rewrite Hc' in Hin.
    apply list_elem_of_singleton in Hin. injection Hin as Hin _. subst e.
    pose proof (entry_cell _ _ _ _ _ _ H Hk' Hc') as E. unfold hit, cell_of. injection E as E1 E2. rewrite E1, E2. done.
  - intros (Hq & Ei & Hl). exists (sv_entry r, m (GuestUsed (cell_of r).1)). split; [|by apply bool_decide_eq_true].
    apply list_elem_of_In, list_elem_of_bind. exists (cell_of r).1. split; [|done]. unfold completion_of. rewrite Ei, Hl.
    rewrite <- surjective_pairing, Hc. left.
Qed.

(** What a record says of the owner. *)
Lemma record_owner m c own r :
  sound_with m c own → r ∈ records m c →
  (hit m all_queues (cell_of r) → own (cell_of r) = Free) ∧
  (¬ hit m all_queues (cell_of r) → own (cell_of r) =
    if bool_decide (sv_state r = DISCOVERED) then Found (en_discovery (sv_entry r)) (en_request (sv_entry r))
    else if bool_decide (sv_state r = ACTIVE) && negb (sv_inflight r) then Free else Owned (sv_entry r)).
Proof.
  intros H Hr. destruct (record_at _ _ _ _ H Hr) as (Hk & Hc & Hi). pose proof (so_cell _ _ _ H _ Hk) as L.
  rewrite <- (so_owner _ _ _ H _ Hk), Hc in *. unfold owner_of. split.
  - intros (_ & Ei & Hl). destruct (interrupted_cell m c own _ H (proj1 Hk) Ei) as (e & _ & Hc' & _).
    rewrite Hl, <- surjective_pairing, Hc in Hc'. assert (sv_state r = ACTIVE) as -> by congruence.
    assert (R : released m (cell_of r) = true); [|by rewrite R]. unfold released.
    apply andb_true_iff in Ei as [_ ->]. by rewrite (bool_decide_eq_true_2 _ Hl), orb_true_r.
  - intros Hn. destruct (bool_decide (sv_state r = DISCOVERED)); [done|]. destruct (bool_decide (sv_state r = ACTIVE)); [|done]. cbn [andb].
    replace (released m (cell_of r)) with (negb (sv_inflight r)); [done|]. rewrite Hi. unfold released.
    destruct L. replace (behind m _ && _) with false.
    + rewrite orb_false_r. destruct lv_inflight as [-> | ->]; done.
    + symmetry. apply not_true_is_false. intros [Hb Hl%bool_decide_eq_true]%andb_true_iff. apply Hn.
      split; [by apply elem_of_range, Hk|]. split; [|done]. unfold interrupted. by rewrite lv_version, Hb.
Qed.

Definition kept (own : Z * Z → Owner) (r : Saved) : list Entry :=
  match own (cell_of r) with Owned e => [e] | _ => [] end.

Definition found (own : Z * Z → Owner) (r : Saved) : list (Z * Request) :=
  match own (cell_of r) with Found d q => [(d, q)] | _ => [] end.

Definition at_rest (m : Memory) (k : Z * Z) (s : option (Z * Entry)) : Prop :=
  match s with
  | None => True
  | Some (st, _) => st ≠ PREPARED ∧ (st = ACTIVE → m (DescriptorAt k.1 k.2 DInflight) = 1)
  end.

Record pending (m : Memory) (m' : Memory) (c' : Z * Z → option (Z * Entry)) (r : Saved) : Prop := {
  pe_hit : hit m all_queues (cell_of r) → c' (cell_of r) = None;
  pe_slot : ¬ hit m all_queues (cell_of r) → c' (cell_of r) = Some (sv_state r, sv_entry r) ∧
    sv_inflight r = bool_decide (m' (DescriptorAt (cell_of r).1 (cell_of r).2 DInflight) = 1);
}.

(** The repair of one record touches its descriptor only. *)
Record resolved (m' m'' : Memory) (c' c'' : Z * Z → option (Z * Entry)) (r : Saved) : Prop := {
  re_slot : ∀ k, k ≠ cell_of r → c'' k = c' k;
  re_words : ∀ a, (∀ f, a ≠ DescriptorAt (cell_of r).1 (cell_of r).2 f) →
    (∀ f, a ≠ SlotAt (cell_of r).1 (cell_of r).2 f) → m'' a = m' a;
  re_rest : at_rest m'' (cell_of r) (c'' (cell_of r));
  re_entry : ∀ st e, c'' (cell_of r) = Some (st, e) → e = sv_entry r;
}.

Lemma reconcile_record_always m c own m' c' r es ds :
  sound_with m c own → r ∈ records m c → sound_with m' c' own → interrupted m' (cell_of r).1 = false →
  pending m m' c' r →
  always (λ m, sound m own) (reconcile_record g (completions m c) r (es, ds)) m'
    (λ res m'', res = Ok (es ++ kept own r, ds ++ found own r) ∧
       ∃ c'', sound_with m'' c'' own ∧ resolved m' m'' c' c'' r).
Proof.
  intros H Hr H' Hi [P1 P2]. pose proof (completions_hit m c own r H Hr) as Hh.
  destruct (record_owner m c own r H Hr) as [O1 O2]. destruct (record_at m c own r H Hr) as (Hk & _).
  assert (HP : ∀ m c, sound_with m c own → sound m own) by (intros m0 c0 ?; by exists c0).
  unfold reconcile_record, kept, found. destruct (existsb _ _).
  { rewrite O1 by by apply Hh. rewrite !app_nil_r. apply always_ret; [by eapply HP|]. split; [done|]. exists c'.
    split; [done|]. split; try done; by rewrite P1 by by apply Hh. }
  assert (Hn : ¬ hit m all_queues (cell_of r)) by (intros [=]%Hh). rewrite O2 by done. destruct (P2 Hn) as [Hc' Hf]. clear P1 P2 O1 Hh.
  pose proof (so_cell _ _ _ H' _ Hk) as L. rewrite Hc' in L.
  destruct (bool_decide_reflect (sv_state r = DISCOVERED)) as [Hd|Hd].
  { rewrite app_nil_r. apply always_ret; [by eapply HP|]. split; [done|]. exists c'. split; [done|].
    split; try done; rewrite Hc'; [|by intros ? ? [= _ <-]]. cbn. rewrite Hd. done. }
  destruct (bool_decide (sv_state r = ACTIVE) && negb (sv_inflight r)) eqn:Ea.
  - apply andb_true_iff in Ea as [Ea%bool_decide_eq_true Eb%negb_true_iff]. rewrite Ea in *. rewrite !app_nil_r.
    assert (H1 := empty_sound m' c' own (cell_of r) (sv_entry r) H' Hk Hc'
      ltac:(destruct L; rewrite Eb in Hf; symmetry in Hf; apply bool_decide_eq_false in Hf; tauto)
      ltac:(unfold interrupted in Hi; by rewrite (lv_version _ _ _ _ L) in Hi)).
    destruct (Hk) as [K1 K2]. cbn [cell_of fst snd] in K1, K2.
    eapply always_reads; [apply reads_check; lia|]. apply always_store; [by eapply HP|]. apply always_ret; [by eapply HP|].
    split; [done|]. exists (<[cell_of r := None]> c'). split; [done|]. split.
    + intros k Hne. by apply fn_lookup_insert_ne.
    + intros a _ Ha. apply run_store_ne, Ha.
    + by rewrite fn_lookup_insert.
    + intros st e. by rewrite fn_lookup_insert.
  - rewrite app_nil_r. apply always_bind.
    eapply always_mono; [eapply (activate_always m' c' own (cell_of r)); [done | done | exact Hc'|]| done|].
    { by apply O2. }
    intros res m'' (-> & H2 & A1 & A2). apply always_ret; [by eapply HP|]. split; [done|].
    exists (<[cell_of r := Some (ACTIVE, sv_entry r)]> c'). split; [done|]. split.
    + intros k Hne. by apply fn_lookup_insert_ne.
    + done.
    + by rewrite fn_lookup_insert.
    + intros st e. rewrite fn_lookup_insert. by intros [= _ <-].
Qed.

Definition reconcile_records (m : Memory) (c : Z * Z → option (Z * Entry)) (rs : list Saved)
    (s : list Entry * list (Z * Request)) : Op (list Entry * list (Z * Request)) :=
  op_fold (reconcile_record g (completions m c)) rs s.

Record all_resolved (rs : list Saved) (m' m'' : Memory) (c' c'' : Z * Z → option (Z * Entry)) : Prop := {
  ar_slot : ∀ k, k ∉ cell_of <$> rs → c'' k = c' k;
  ar_words : ∀ a, (∀ q h f, a ≠ DescriptorAt q h f) → (∀ q h f, a ≠ SlotAt q h f) → m'' a = m' a;
  ar_inflight : ∀ k, k ∉ cell_of <$> rs → m'' (DescriptorAt k.1 k.2 DInflight) = m' (DescriptorAt k.1 k.2 DInflight);
  ar_rest : ∀ r, r ∈ rs → at_rest m'' (cell_of r) (c'' (cell_of r));
  ar_entry : ∀ r st e, r ∈ rs → c'' (cell_of r) = Some (st, e) → e = sv_entry r;
}.

Lemma resolved_cons r rs m0 m1 m2 c0 c1 c2 :
  cell_of r ∉ cell_of <$> rs → resolved m0 m1 c0 c1 r → all_resolved rs m1 m2 c1 c2 →
  all_resolved (r :: rs) m0 m2 c0 c2.
Proof.
  intros Hn [R1 R2 R3 R4] [A1 A2 A3 A4 A5]. split.
  - intros k. rewrite fmap_cons. intros [Hk1 Hk2]%not_elem_of_cons. rewrite A1, R1 by done. done.
  - intros a H1 H2. rewrite A2, R2 by auto. done.
  - intros k. rewrite fmap_cons. intros [Hk1 Hk2]%not_elem_of_cons. rewrite A3 by done. apply R2; [|done].
    intros f E. apply Hk1. destruct k. unfold cell_of in E |- *. cbn in *. congruence.
  - intros r' [->|Hr']%elem_of_cons; [|auto]. rewrite A1 by done. unfold at_rest in *.
    destruct (c1 (cell_of r)) as [[st e]|]; [|done]. by rewrite A3.
  - intros r' st e [->|Hr']%elem_of_cons; [|eauto]. rewrite A1 by done. apply R4.
Qed.

Lemma reconcile_records_always m c own rs m' c' es ds :
  sound_with m c own → NoDup (cell_of <$> rs) → (∀ r, r ∈ rs → r ∈ records m c) → sound_with m' c' own →
  (∀ q, q ∈ all_queues → interrupted m' q = false) → (∀ r, r ∈ rs → pending m m' c' r) →
  always (λ m, sound m own) (reconcile_records m c rs (es, ds)) m'
    (λ res m'', res = Ok (es ++ (rs ≫= kept own), ds ++ (rs ≫= found own)) ∧
       ∃ c'', sound_with m'' c'' own ∧ all_resolved rs m' m'' c' c'').
Proof.
  intros H. revert m' c' es ds. induction rs as [|r rs IH]; intros m' c' es ds Hn Hr H' Hi Hp.
  { apply always_ret; [by exists c'|]. rewrite !app_nil_r. split; [done|]. exists c'. split; [done|].
    split; try done; by intros ? * ?%elem_of_nil. }
  rewrite fmap_cons in Hn. apply NoDup_cons in Hn as [Hnr Hn]. cbn [reconcile_records op_fold]. apply always_bind.
  destruct (record_at m c own r H (Hr r ltac:(left))) as (Hk & _).
  eapply always_mono; [apply (reconcile_record_always m c own m' c' r es ds H (Hr r ltac:(left)) H')| done|].
  { apply Hi, elem_of_range, Hk. }
  { apply Hp. left. }
  intros res m1 (-> & c1 & H1 & R). destruct (R) as [R1 R2 R3 R4].
  eapply always_mono; [apply (IH m1 c1 _ _ Hn); [intros; apply Hr; by right | done | |]| done|].
  - intros q Hq. rewrite (interrupted_same m'); [by apply Hi | by apply R2 ..].
  - intros r' Hr'. assert (Hne : cell_of r' ≠ cell_of r).
    { intros E. apply Hnr. rewrite <- E. by apply list_elem_of_fmap_2. }
    destruct (Hp r' ltac:(by right)) as [P1 P2]. split; rewrite R1 by done; [done|]. intros Hh.
    rewrite R2; [by apply P2 | | done]. intros f E. apply Hne. unfold cell_of in *. cbn in *. congruence.
  - intros res m2 (-> & c2 & H2 & A). split.
    { cbn [mbind list_bind]. by rewrite !app_assoc. }
    exists c2. split; [done|]. by eapply resolved_cons.
Qed.

(** ** The counters *)

Definition newest (m : Memory) (c : Z * Z → option (Z * Entry)) : option Saved := newest_of (records m c) (discovery_of m).

Lemma live_discovery m c own k st e : sound_with m c own → cell k → c k = Some (st, e) → en_discovery e ≠ 0.
Proof.
  intros H Hk Hc. pose proof (so_slot _ _ _ H _ Hk) as S. rewrite Hc in S. destruct S as (_ & _ & _ & _ & _ & _ & S & _). done.
Qed.

Lemma records_filter_all {A} (P : A → Prop) `{∀ x, Decision (P x)} (l : list A) : (∀ x, x ∈ l → P x) → filter P l = l.
Proof.
  induction l as [|x l IH]; intros Hp; [done|]. rewrite filter_cons_True by (apply Hp; left). f_equal.
  apply IH. intros. apply Hp. by right.
Qed.

Lemma newest_spec m c own :
  sound_with m c own →
  match newest m c with
  | Some r => r ∈ records m c ∧ discovery_of m ≤ saved_discovery r ∧
      ∀ r', r' ∈ records m c → saved_discovery r' ≤ saved_discovery r
  | None => ∀ r, r ∈ records m c → saved_discovery r < discovery_of m
  end.
Proof.
  intros H. unfold newest, newest_of.
  assert (Hf : filter (λ s, saved_discovery s ≠ 0) (records m c) = records m c).
  { apply records_filter_all. intros r Hr. destruct (record_at m c own r H Hr) as (Hk & Hc & _). by eapply live_discovery. }
  rewrite Hf. pose proof (max_by_spec saved_discovery (records m c)) as Hm. destruct (max_by _ _) as [r|].
  - destruct Hm as [H1 H2]. case_bool_decide; [done|]. intros r' Hr'. specialize (H2 r' Hr'). lia.
  - rewrite Hm. by intros r ?%elem_of_nil.
Qed.

Definition highest_serial (m : Memory) (c : Z * Z → option (Z * Entry)) : Z :=
  match last (records m c) with Some s => Z.max (serial_of m) (saved_serial s) | None => serial_of m end.

Definition highest_mutation (m : Memory) (c : Z * Z → option (Z * Entry)) : Z :=
  foldl (λ high s, Z.max high (saved_mutation s)) (mutation_of m) (records m c).

Definition highest_discovery (m : Memory) (c : Z * Z → option (Z * Entry)) : Z :=
  match newest m c with Some s => saved_discovery s | None => discovery_of m end.

Lemma foldl_max {A} (key : A → Z) l z :
  z ≤ foldl (λ high s, Z.max high (key s)) z l ∧ ∀ x, x ∈ l → key x ≤ foldl (λ high s, Z.max high (key s)) z l.
Proof.
  revert z. induction l as [|y l IH]; intros z; cbn; [split; [lia | by intros ? ?%elem_of_nil]|].
  destruct (IH (Z.max z (key y))) as [IH1 IH2]. split; [lia|]. intros x [->|Hx]%elem_of_cons; [lia | auto].
Qed.

Lemma highest_bounds m c own r :
  sound_with m c own → r ∈ records m c →
  saved_serial r ≤ highest_serial m c ∧ saved_mutation r ≤ highest_mutation m c ∧
  saved_discovery r ≤ highest_discovery m c.
Proof.
  intros H Hr. split_and!.
  - unfold highest_serial. destruct (last (records m c)) as [x|] eqn:E.
    + pose proof (ordered_last saved_serial _ x r (sort_by_ordered _ _) E Hr). lia.
    + apply last_None in E. rewrite E in Hr. by apply elem_of_nil in Hr.
  - by apply (foldl_max saved_mutation).
  - unfold highest_discovery. pose proof (newest_spec m c own H) as N. destruct (newest m c); [by apply N|].
    specialize (N r Hr). lia.
Qed.

Lemma highest_counters m c own :
  sound_with m c own →
  serial_of m ≤ highest_serial m c ∧ mutation_of m ≤ highest_mutation m c ∧ discovery_of m ≤ highest_discovery m c.
Proof.
  intros H. split_and!.
  - unfold highest_serial. case_match; lia.
  - apply (foldl_max saved_mutation).
  - unfold highest_discovery. pose proof (newest_spec m c own H) as N. destruct (newest m c); [apply N | lia].
Qed.

(** ** The last stores *)

(** The loops are done: what is left is to advance the counters. *)
Record repaired (m m' : Memory) (c c' : Z * Z → option (Z * Entry)) : Prop := {
  rp_words : ∀ a, (∀ q h f, a ≠ SlotAt q h f) → (∀ q h f, a ≠ DescriptorAt q h f) → (∀ q, a ≠ QueueAt q QUsed) → m' a = m a;
  rp_rest : ∀ k, cell k → at_rest m' k (c' k);
  rp_entry : ∀ k st e, cell k → c' k = Some (st, e) → ∃ r, r ∈ records m c ∧ cell_of r = k ∧ sv_entry r = e;
  rp_guest : ∀ q, q ∈ all_queues → interrupted m' q = false;
}.

Lemma newest_unique m c own n r :
  sound_with m c own → newest m c = Some n → r ∈ records m c → saved_discovery n ≤ saved_discovery r → r = n.
Proof.
  intros H E Hr Hd. pose proof (newest_spec m c own H) as N. rewrite E in N. destruct N as (Hn & _ & Hmax).
  specialize (Hmax r Hr). destruct (record_at m c own r H Hr) as (K1 & C1 & I1).
  destruct (record_at m c own n H Hn) as (K2 & C2 & I2). destruct (decide (cell_of r = cell_of n)) as [Ec|Hne].
  - rewrite Ec in C1, I1. destruct r, n. cbn in *. congruence.
  - destruct (so_distinct _ _ _ H _ _ _ _ _ _ K1 K2 Hne C1 C2) as [D _]. unfold saved_discovery in *. lia.
Qed.

Definition advance_discovery (m : Memory) (c : Z * Z → option (Z * Entry)) : Op unit :=
  match newest m c with
  | Some n => Carrier_finish_discovery (en_request (sv_entry n)) (saved_discovery n)
  | None => mret tt
  end.

(** Discovery owns the available cursor. *)
Lemma advance_discovery_always m c own m' c' :
  sound_with m c own → sound_with m' c' own → repaired m m' c c' →
  always (λ m, sound m own) (advance_discovery m c) m'
    (λ res m'', res = Ok tt ∧ sound_with m'' c' own ∧ discovery_of m'' = highest_discovery m c ∧
       (∀ k st e, cell k → c' k = Some (st, e) → discovery_of m'' ≤ en_discovery e →
          m'' (HeaderAt (HAvailable k.1)) = wrapping_add 16 (rq_available (en_request e)) 1) ∧
       ∀ a, a ≠ HeaderAt HDiscovery → (∀ q, a ≠ HeaderAt (HAvailable q)) → m'' a = m' a).
Proof.
  intros H H' [W Hr He Hg]. pose proof (newest_spec m c own H) as N.
  assert (HP : ∀ m, sound_with m c' own → sound m own) by (intros m0 ?; by exists c').
  assert (Hu : ∀ n k st e, newest m c = Some n → cell k → c' k = Some (st, e) → saved_discovery n ≤ en_discovery e →
    cell_of n = k ∧ sv_entry n = e).
  { intros n k st e E Hk Hc Hd. destruct (He k st e Hk Hc) as (r & Hr' & <- & <-). by rewrite (newest_unique m c own n r H E Hr' Hd). }
  unfold advance_discovery, highest_discovery. destruct (newest m c) as [n|] eqn:E.
  - destruct N as (Hn & Hd & _). destruct (record_at m c own n H Hn) as (Hk & _). cbn [cell_of] in Hk.
    set (q := rq_queue (en_request (sv_entry n))) in *. set (v := wrapping_add 16 (rq_available (en_request (sv_entry n))) 1).
    assert (H1 := store_discovery m' c' own (saved_discovery n) H' ltac:(by rewrite W)). set (m1 := run_store m' _) in *.
    assert (H2 : sound_with (run_store m1 (HeaderAt (HAvailable q), v)) c' own).
    { apply store_available; [done | apply Hk | unfold v, wrapping_add; apply Z.mod_pos_bound; lia|].
      intros h st e Hk' Hc' Hd'. unfold m1 in Hd'. rewrite run_store_eq in Hd'.
      by destruct (Hu n _ _ _ eq_refl Hk' Hc' Hd') as [_ <-]. }
    unfold Carrier_finish_discovery. fold q v. apply always_store; [by apply HP|]. apply always_store_last; [by apply HP..|].
    split_and!; try done.
    + intros k st e Hk' Hc' Hd'. rewrite run_store_ne, run_store_eq in Hd' by done.
      destruct (Hu n _ _ _ eq_refl Hk' Hc' Hd') as [<- <-]. cbn [cell_of fst]. fold q v. by rewrite run_store_eq.
    + intros a Ha1 Ha2. unfold m1. by rewrite !run_store_ne.
  - apply always_ret; [by apply HP|]. split_and!; try done; [by apply W|]. intros k st e Hk Hc Hd.
    destruct (He k st e Hk Hc) as (r & Hr' & <- & <-). specialize (N r Hr'). rewrite W in Hd by done. unfold saved_discovery in N. lia.
Qed.

Definition advance_counters {A} (m : Memory) (c : Z * Z → option (Z * Entry)) (f : Z → A) : Op A :=
  store (HeaderAt HSerial) (highest_serial m c);;
  store (HeaderAt HMutation) (highest_mutation m c);;
  published ← Carrier_published;
  mret (f published).

Lemma advance_counters_always {A} m c own m' c' m'' (f : Z → A) :
  sound_with m c own → sound_with m'' c' own → repaired m m' c c' →
  discovery_of m'' = highest_discovery m c →
  (∀ k st e, cell k → c' k = Some (st, e) → discovery_of m'' ≤ en_discovery e →
    m'' (HeaderAt (HAvailable k.1)) = wrapping_add 16 (rq_available (en_request e)) 1) →
  (∀ a, a ≠ HeaderAt HDiscovery → (∀ q, a ≠ HeaderAt (HAvailable q)) → m'' a = m' a) →
  always (λ m, sound m own) (advance_counters m c f) m''
    (λ res m4, res = Ok (f (published_of m)) ∧ quiet m4 own ∧ serial_of m4 = highest_serial m c ∧
       mutation_of m4 = highest_mutation m c ∧ discovery_of m4 = highest_discovery m c ∧
       published_of m4 = published_of m).
Proof.
  intros H H' [W Hr He Hg] Ed Hcur W'. assert (HP : ∀ m, sound_with m c' own → sound m own) by (intros m0 ?; by exists c').
  destruct (highest_counters m c own H) as (B1 & B2 & B3).
  assert (H1 := store_serial m'' c' own (highest_serial m c) H' ltac:(by rewrite W', W)). set (m1 := run_store m'' _) in *.
  assert (H2 : sound_with (run_store m1 (HeaderAt HMutation, highest_mutation m c)) c' own).
  { apply store_mutation; [done|]. unfold m1. words_of. by rewrite W', W. }
  set (m2 := run_store m1 _) in *.
  assert (Ep : published_of m2 = published_of m) by (unfold m2, m1; words_of; by rewrite W', W).
  unfold advance_counters. apply always_store; [by apply HP|]. apply always_store; [by apply HP|].
  change (run_store (run_store m'' _) (HeaderAt HMutation, highest_mutation m c)) with m2.
  unfold Carrier_published. apply always_load. rewrite Ep. apply always_ret; [by apply HP|].
  assert (E1 : serial_of m2 = highest_serial m c) by (unfold m2, m1; by words_of).
  assert (E2 : mutation_of m2 = highest_mutation m c) by (unfold m2; by words_of).
  assert (E3 : discovery_of m2 = highest_discovery m c) by (unfold m2, m1; by words_of).
  assert (E4 : ∀ q, m2 (HeaderAt (HAvailable q)) = m'' (HeaderAt (HAvailable q))) by (intros; unfold m2, m1; by words_of).
  assert (W2 : ∀ a, (∀ f, a ≠ HeaderAt f) → m2 a = m' a).
  { intros a Ha. unfold m2, m1. rewrite !run_store_ne by done. by apply W'. }
  split_and!; try done. exists c'. split; [done| |].
  - intros k Hk. specialize (Hr k Hk). unfold settled. destruct (c' k) as [[st e]|] eqn:Hc; [|done].
    destruct (He k st e Hk Hc) as (r & Hr' & _ & <-). destruct (highest_bounds m c own r H Hr') as (L1 & L2 & L3).
    destruct Hr as [R1 R2]. rewrite E1, E2, E3, E4, W2 by done. split_and!; try done. intros Hd. eapply Hcur; [done | done|]. by rewrite Ed.
  - intros q Hq Hv. specialize (Hg q (proj2 (elem_of_range _ _) Hq)). rewrite <- (interrupted_same m' m2) in Hg by (by apply W2).
    unfold interrupted in Hg. by rewrite Hv in Hg.
Qed.

Lemma finished_pending m c own m1 c1 r :
  sound_with m c own → r ∈ records m c → finished all_queues m m1 c c1 → pending m m1 c1 r.
Proof.
  intros H Hr [F1 F2 F3 F4 F5 F6]. destruct (record_at m c own r H Hr) as (Hk & Hc & Hi). split; [auto|].
  intros Hn. by rewrite F3, F4.
Qed.

Lemma loops_repaired m c own m1 c1 m2 c2 :
  sound_with m c own → finished all_queues m m1 c c1 → all_resolved (records m c) m1 m2 c1 c2 → repaired m m2 c c2.
Proof.
  intros H [F1 F2 F3 F4 F5 F6] [A1 A2 A3 A4 A5].
  assert (Hrec : ∀ k, cell k → k ∉ cell_of <$> records m c → c2 k = None).
  { intros k Hk Hn. rewrite A1 by done. destruct (c k) as [[st e]|] eqn:Hc.
    - exfalso. apply Hn. assert (Er : record_of m c k = Some {| sv_state := st; sv_entry := e;
        sv_inflight := bool_decide (m (DescriptorAt k.1 k.2 DInflight) = 1) |}) by (unfold record_of; by rewrite Hc).
      rewrite <- (record_cell _ _ _ _ _ H Hk Er). apply list_elem_of_fmap_2. apply (elem_of_records _ _ _ _ H).
      by rewrite (record_cell _ _ _ _ _ H Hk Er).
    - destruct (decide (k.1 ∈ all_queues ∧ interrupted m k.1 = true ∧ m (QueueAt k.1 QLastHead) = k.2)) as [Hh|Hh];
        [by apply F2 | by rewrite F3]. }
  split.
  - intros a H1 H2 H3. by rewrite A2, F6.
  - intros k Hk. destruct (decide (k ∈ cell_of <$> records m c)) as [(r & -> & Hr)%list_elem_of_fmap|Hn]; [by apply A4|].
    by rewrite Hrec.
  - intros k st e Hk Hc. destruct (decide (k ∈ cell_of <$> records m c)) as [(r & -> & Hr)%list_elem_of_fmap|Hn].
    + exists r. split_and!; try done. symmetry. by eapply A5.
    + by rewrite Hrec in Hc.
  - intros q Hq. rewrite (interrupted_same m1); [by apply F1 | by apply A2 ..].
Qed.

Lemma newest_cursor m c own (B : Type) :
  sound_with m c own →
  reads (match newest m c with
    | Some n =>
        let request := en_request (sv_entry n) in
        cursor ← Carrier_available g (rq_queue request);
        reject_if (bool_decide (cursor ≠ rq_available request)
                   && bool_decide (cursor ≠ wrapping_add 16 (rq_available request) 1))
          "newest discovery cannot repair available cursor"
    | None => mret tt
    end) m (Ok tt).
Proof.
  intros H. pose proof (newest_spec m c own H) as N. destruct (newest m c) as [n|]; [|done].
  destruct N as (Hn & Hd & _). destruct (record_at m c own n H Hn) as (Hk & Hc & _).
  pose proof (so_cell _ _ _ H _ Hk) as L. rewrite Hc in L. cbv zeta.
  eapply reads_bind; [eapply reads_available; [exact H | apply Hk | lia]|]. apply reads_reject.
  destruct L. destruct (lv_cursor Hd) as [E|[_ E]]; cbn [cell_of fst] in E; rewrite E.
  - rewrite (bool_decide_eq_false_2 (wrapping_add _ _ _ ≠ wrapping_add _ _ _)) by (by intros []). apply andb_false_r.
  - by rewrite bool_decide_eq_false_2 by (by intros []).
Qed.

Definition replay_of (m : Memory) (c : Z * Z → option (Z * Entry)) (own : Z * Z → Owner) : Replay := {|
  rp_entries := records m c ≫= kept own;
  rp_discovered := sort_by fst (records m c ≫= found own);
  rp_highest_discovery := highest_discovery m c;
  rp_highest_serial := highest_serial m c;
  rp_highest_mutation := highest_mutation m c;
  rp_published := published_of m |}.

(** Reconciliation of any sound region. *)
Lemma reconcile_always m c own :
  sound_with m c own →
  always (λ m, sound m own) (Carrier_reconcile g identity image_bytes (guest_cursors m)) m
    (λ res m', res = Ok (replay_of m c own) ∧ quiet m' own ∧ serial_of m' = highest_serial m c ∧
       mutation_of m' = highest_mutation m c ∧ discovery_of m' = highest_discovery m c ∧
       published_of m' = published_of m).
Proof.
  intros H. assert (HP : ∀ m c, sound_with m c own → sound m own) by (intros m0 c0 ?; by exists c0).
  unfold Carrier_reconcile. eapply always_reads; [by eapply reads_validate_header|].
  eapply always_reads; [by eapply scan_reads|]. eapply always_reads.
  { apply reads_reject, bool_decide_eq_false. unfold guest_cursors, range. rewrite !length_fmap, length_seq. lia. }
  eapply always_reads; [by eapply completions_read|]. do 2 apply always_load. cbv zeta. fold (newest m c).
  eapply always_reads; [by eapply (newest_cursor m c own unit)|]. apply always_load.
  fold (highest_mutation m c) (highest_serial m c) (highest_discovery m c). fold all_queues. fold (completions m c).
  apply always_bind. eapply always_mono; [apply (finish_all_always all_queues m c own H)| done|].
  { apply NoDup_range. }
  { intros q. apply elem_of_range. }
  intros res m1 (-> & c1 & H1 & F). apply always_bind.
  eapply always_mono; [apply (reconcile_records_always m c own (records m c) m1 c1 [] [] H)| done|].
  { by eapply NoDup_cell_of. }
  { done. }
  { done. }
  { apply F. }
  { intros r Hr. by eapply finished_pending. }
  intros res m2 (-> & c2 & H2 & A). cbn [app]. assert (R := loops_repaired m c own m1 c1 m2 c2 H F A).
  apply always_bind. eapply always_mono; [apply (advance_discovery_always m c own m2 c2 H H2 R)| done|].
  intros res m3 (-> & H3 & E3 & Hcur & W3).
  apply (advance_counters_always m c own m2 c2 m3 (λ p, {|
    rp_entries := records m c ≫= kept own; rp_discovered := sort_by fst (records m c ≫= found own);
    rp_highest_discovery := highest_discovery m c; rp_highest_serial := highest_serial m c;
    rp_highest_mutation := highest_mutation m c; rp_published := p |})); done.
Qed.

(** ** The replay *)

Lemma record_exists m c own k st e :
  sound_with m c own → cell k → c k = Some (st, e) → ∃ r, r ∈ records m c ∧ cell_of r = k ∧ sv_entry r = e ∧ sv_state r = st.
Proof.
  intros H Hk Hc. assert (Er : record_of m c k = Some {| sv_state := st; sv_entry := e;
    sv_inflight := bool_decide (m (DescriptorAt k.1 k.2 DInflight) = 1) |}) by (unfold record_of; by rewrite Hc).
  eexists. split; [apply (elem_of_records _ _ _ _ H); by rewrite (record_cell _ _ _ _ _ H Hk Er)|].
  split_and!; [by eapply record_cell | done..].
Qed.

(** Owners other than [Free] come from a record. *)
Lemma owned_record m c own k :
  sound_with m c own → cell k → own k ≠ Free → ∃ r, r ∈ records m c ∧ cell_of r = k.
Proof.
  intros H Hk Ho. rewrite <- (so_owner _ _ _ H _ Hk) in Ho. destruct (c k) as [[st e]|] eqn:Hc; [|done].
  destruct (record_exists m c own k st e H Hk Hc) as (r & ? & ? & _). by exists r.
Qed.

Lemma owner_entry m c own r :
  sound_with m c own → r ∈ records m c →
  (∀ e, own (cell_of r) = Owned e → e = sv_entry r ∧ en_serial e ≠ 0) ∧
  (∀ d q, own (cell_of r) = Found d q → d = en_discovery (sv_entry r) ∧ q = en_request (sv_entry r)).
Proof.
  intros H Hr. destruct (record_at m c own r H Hr) as (Hk & Hc & _). pose proof (so_slot _ _ _ H _ Hk) as S.
  rewrite <- (so_owner _ _ _ H _ Hk), Hc in *. destruct S as (_ & _ & _ & _ & _ & _ & _ & S). unfold owner_of.
  destruct (bool_decide_reflect (sv_state r = DISCOVERED)) as [Hd|Hd].
  - split; [done|]. by intros d q [= <- <-].
  - split; intros *; destruct (_ && _); try done. intros [= <-]. split; [done|].
    destruct S as [[? _]|(_ & _ & ? & _)]; done.
Qed.

Lemma kept_spec m c own e :
  sound_with m c own → e ∈ records m c ≫= kept own ↔ ∃ k, cell k ∧ own k = Owned e.
Proof.
  intros H. rewrite list_elem_of_bind. split.
  - intros (r & He & Hr). exists (cell_of r). split; [by destruct (record_at m c own r H Hr)|].
    unfold kept in He. destruct (own (cell_of r)); try by apply elem_of_nil in He. apply list_elem_of_singleton in He. by subst.
  - intros (k & Hk & Ho). destruct (owned_record m c own k H Hk) as (r & Hr & <-); [by rewrite Ho|].
    exists r. split; [|done]. unfold kept. rewrite Ho. left.
Qed.

Lemma found_spec m c own d q :
  sound_with m c own → (d, q) ∈ sort_by fst (records m c ≫= found own) ↔ ∃ k, cell k ∧ own k = Found d q.
Proof.
  intros H. rewrite sort_by_perm, list_elem_of_bind. split.
  - intros (r & He & Hr). exists (cell_of r). split; [by destruct (record_at m c own r H Hr)|].
    unfold found in He. destruct (own (cell_of r)); try by apply elem_of_nil in He.
    apply list_elem_of_singleton in He. by injection He as -> ->.
  - intros (k & Hk & Ho). destruct (owned_record m c own k H Hk) as (r & Hr & <-); [by rewrite Ho|].
    exists r. split; [|done]. unfold found. rewrite Ho. left.
Qed.

Lemma records_differ m c own r r' :
  sound_with m c own → r ∈ records m c → r' ∈ records m c → cell_of r ≠ cell_of r' → distinct (sv_entry r) (sv_entry r').
Proof.
  intros H Hr Hr' Hne. destruct (record_at m c own r H Hr) as (K1 & C1 & _). destruct (record_at m c own r' H Hr') as (K2 & C2 & _).
  exact (so_distinct _ _ _ H _ _ _ _ _ _ K1 K2 Hne C1 C2).
Qed.

(** Admission order. *)
Lemma kept_sorted m c own :
  sound_with m c own → StronglySorted (λ a b, en_serial a < en_serial b) (records m c ≫= kept own).
Proof.
  intros H. cut (∀ rs, NoDup (cell_of <$> rs) → ordered saved_serial rs → (∀ r, r ∈ rs → r ∈ records m c) →
    StronglySorted (λ a b, en_serial a < en_serial b) (rs ≫= kept own)).
  { intros G. apply G; [by eapply NoDup_cell_of | apply sort_by_ordered | done]. }
  induction rs as [|r rs IH]; [constructor|]. rewrite fmap_cons. intros [Hn1 Hn2]%NoDup_cons [Hs1 Hs2]%StronglySorted_inv Hin.
  assert (Htl : StronglySorted (λ a b, en_serial a < en_serial b) (rs ≫= kept own)).
  { apply IH; [done | done|]. intros. apply Hin. by right. }
  cbn [mbind list_bind]. unfold kept at 1. destruct (own (cell_of r)) as [| |e] eqn:Ho; try done.
  constructor; [done|]. apply Forall_forall. intros e' (r' & He & Hr')%list_elem_of_bind.
  assert (I1 : r ∈ records m c) by (apply Hin; left). assert (I2 : r' ∈ records m c) by (apply Hin; by right).
  unfold kept in He. destruct (own (cell_of r')) as [| |e''] eqn:Ho'; try by apply elem_of_nil in He.
  apply list_elem_of_singleton in He. subst e''. destruct (proj1 (owner_entry m c own r H I1) e Ho) as [-> N1].
  destruct (proj1 (owner_entry m c own r' H I2) e' Ho') as [-> N2].
  rewrite Forall_forall in Hs2. specialize (Hs2 r' Hr'). unfold saved_serial in Hs2.
  assert (Hne : cell_of r ≠ cell_of r') by (intros E; apply Hn1; rewrite E; by apply list_elem_of_fmap_2).
  destruct (records_differ m c own r r' H I1 I2 Hne) as (_ & D & _). specialize (D N1). lia.
Qed.

Lemma ordered_strict {A} (key : A → Z) l : ordered key l → NoDup (key <$> l) → StronglySorted (λ x y, key x < key y) l.
Proof.
  induction 1 as [|x l Hl IH Hx]; [constructor|]. intros [Hn1 Hn2]%NoDup_cons. constructor; [auto|].
  rewrite Forall_forall in *. intros y Hy. specialize (Hx y Hy). cbn in Hx.
  assert (key x ≠ key y); [|lia]. intros E. apply Hn1. rewrite E. by apply list_elem_of_fmap_2.
Qed.

(** Discovery order. *)
Lemma found_sorted m c own :
  sound_with m c own → StronglySorted (λ a b : Z * Request, a.1 < b.1) (sort_by fst (records m c ≫= found own)).
Proof.
  intros H. apply (ordered_strict fst); [apply sort_by_ordered|]. rewrite sort_by_perm.
  cut (∀ rs, NoDup (cell_of <$> rs) → (∀ r, r ∈ rs → r ∈ records m c) → NoDup (fst <$> (rs ≫= found own))).
  { intros G. apply G; [by eapply NoDup_cell_of | done]. }
  induction rs as [|r rs IH]; [constructor|]. rewrite fmap_cons. intros [Hn1 Hn2]%NoDup_cons Hin.
  assert (Htl : NoDup (fst <$> (rs ≫= found own))) by (apply IH; [done|]; intros; apply Hin; by right).
  cbn [mbind list_bind]. unfold found at 1. destruct (own (cell_of r)) as [|d q|] eqn:Ho; try done.
  cbn. constructor; [|done]. intros ([d' q'] & E & (r' & He & Hr')%list_elem_of_bind)%list_elem_of_fmap. cbn in E. subst d'.
  assert (I1 : r ∈ records m c) by (apply Hin; left). assert (I2 : r' ∈ records m c) by (apply Hin; by right).
  unfold found in He. destruct (own (cell_of r')) as [|d'' q''|] eqn:Ho'; try by apply elem_of_nil in He.
  apply list_elem_of_singleton in He. injection He as -> ->.
  destruct (proj2 (owner_entry m c own r H I1) _ _ Ho) as [E1 _]. destruct (proj2 (owner_entry m c own r' H I2) _ _ Ho') as [E2 _].
  assert (Hne : cell_of r ≠ cell_of r') by (intros E; apply Hn1; rewrite E; by apply list_elem_of_fmap_2).
  destruct (records_differ m c own r r' H I1 I2 Hne) as (D & _). congruence.
Qed.

End Recover.
