(* ===== verification/InflightFail.v ===== *)
(** * A FAILED region

    What happens to the inflight region when the backend fails: a publication
    that the guest's memory refuses, or [ImageState::fail], marks the region
    FAILED.  A marked region refuses every call but the retirement of a request
    with IOERR ([complete_error]) and is refused by [attach] and [reconcile].
    Also here: the restart of a ring by the guest, and [rebase_queue] of
    [crates/cas/daemon/src/backend/lifecycle.rs] that follows it. *)
From stdpp Require Import functions.
From S2P Require Import Prelude Bytes Inflight InflightSound InflightRecover.

(** The outcome of the guest's side of a completion: done, or refused before
    or after its [used.idx] moved (the signal to the guest comes last). *)
Inductive Publication : Type := Published | Refused (advanced : bool) (e : error).

Definition publication (p : Publication) (q used : Z) : Op unit :=
  match p with
  | Published => publish_used q used
  | Refused true e => publish_used q used;; lift (Err e)
  | Refused false e => lift (Err e)
  end.

(** [if let Err(error) = ... { self.fail(...) }]. *)
Definition or_fail (op : Op unit) : Op unit := λ m,
  match op m with
  | (trace, Err e) => let '(trace', _) := Carrier_fail (run trace m) in (trace ++ trace', Err e)
  | other => other
  end.

(** The guest starts the ring of a queue again, of [size] entries, from the
    cursor [used]; then [rebase_queue], under the caller that fails the backend. *)
Definition rebase_queue (g : Geometry) (queue size available used : Z) : Op unit :=
  lift (if bool_decide (size ≠ g_queue_size g) then other "resized queue needs a fresh carrier" else Ok tt);;
  initialized ← Carrier_queue_initialized g queue;
  if initialized : bool then Carrier_reset_queue g queue available used else mret tt.

Definition restart (g : Geometry) (queue size available used : Z) : Op unit :=
  store (GuestUsed queue) used;; or_fail (rebase_queue g queue size available used).

(** ** Where an operation stores *)

Lemma op_bind_ok {A B} (op : Op A) (f : A → Op B) m t b :
  (op ≫= f) m = (t, Ok b) → ∃ t1 a t2, op m = (t1, Ok a) ∧ f a (run t1 m) = (t2, Ok b) ∧ t = t1 ++ t2.
Proof.
  unfold mbind, op_bind. destruct (op m) as [t1 [a|e|]]; [|done..]. destruct (f a (run t1 m)) as [t2 r] eqn:E.
  intros [= <- ->]. by exists t1, a, t2.
Qed.

Section Confined.
Context (S : Address → Prop).

(** It stores to [S] only, and does not panic. *)
Definition confined {A} (op : Op A) : Prop := ∀ m, (op m).2 ≠ Panic ∧ Forall (λ s, S s.1) (op m).1.

Lemma confined_ret {A} (a : A) : confined (mret a).
Proof. by split. Qed.

Lemma confined_bind {A B} (op : Op A) (f : A → Op B) : confined op → (∀ a, confined (f a)) → confined (op ≫= f).
Proof.
  intros H1 H2 m. unfold mbind, op_bind. destruct (H1 m) as [P1 T1]. destruct (op m) as [t [a|e|]]; cbn [fst snd] in *; [|done..].
  destruct (H2 a (run t m)) as [P2 T2]. destruct (f a (run t m)) as [t' r']. split; [done|]. by apply Forall_app.
Qed.

Lemma confined_load a : confined (load a).
Proof. by split. Qed.

Lemma confined_store a v : S a → confined (store a v).
Proof. intros Ha m. split; [done|]. by repeat constructor. Qed.

Lemma confined_lift {A} (r : result A) : r ≠ Panic → confined (lift r).
Proof. intros Hr m. by split. Qed.

Lemma confined_reject c message : confined (reject_if c message).
Proof. apply confined_lift. by destruct c. Qed.

Lemma confined_check g q h : confined (Carrier_check g q h).
Proof. apply confined_lift. unfold Geometry_check. by destruct (_ || _). Qed.

Lemma confined_frame {A} (op : Op A) m n a : confined op → ¬ S a → run (take n (op m).1) m a = m a.
Proof.
  intros Ho Ha. destruct (Ho m) as [_ T]. apply (Forall_take _ n) in T.
  assert (F : ∀ t m', Forall (λ s, S s.1) t → run t m' a = m' a); [|by apply F].
  clear T. intros t m' T. revert m'. induction T as [|[b v] t Hb T IH]; intros m'; [done|].
  change (run _ m') with (run t (run_store m' (b, v))). rewrite IH. apply run_store_ne. by intros ->.
Qed.
End Confined.

#[local] Hint Resolve confined_ret confined_load confined_reject confined_check : core.

Ltac confined_steps :=
  repeat first [ solve [auto] | apply confined_bind; intros | apply confined_store; solve [auto]
               | match goal with |- confined _ (match ?x with _ => _ end) => destruct x
                               | |- confined _ (let '(_, _) := ?x in _) => destruct x end ].

(** ** Operations that stop at a check *)

Lemma bind_stops {A B} (op : Op A) (f : A → Op B) m e : reads op m (Err e) → reads (op ≫= f) m (Err e).
Proof. unfold reads, mbind, op_bind. by intros ->. Qed.

Lemma reads_check_err g q h m e : Geometry_check g q h = Err e → reads (Carrier_check g q h) m (Err e).
Proof. unfold reads, Carrier_check, lift. by intros ->. Qed.

Lemma reads_reject_err message m : ∃ e, reads (reject_if true message) m (Err e).
Proof. by eexists. Qed.

Lemma healthy_cases m :
  (reads Carrier_healthy m (Ok tt) ∧ m (HeaderAt HFailed) = 0) ∨ ∃ e, reads Carrier_healthy m (Err e).
Proof.
  unfold reads, Carrier_healthy, mbind, op_bind, load, reject_if, lift. cbn [run foldl].
  destruct (bool_decide_reflect (m (HeaderAt HFailed) ≠ 0)) as [|H]; [right; by eexists | left]. apply dec_stable in H. done.
Qed.

Definition failed_error : error := Error InvalidData "FAILED attachment requires explicit recovery or a fresh reset".

Definition refuses {A} (op : Op A) (m : Memory) : Prop := op m = ([], Err failed_error).

Lemma refuses_bind {A B} (op : Op A) (f : A → Op B) m : refuses op m → refuses (op ≫= f) m.
Proof. unfold refuses, mbind, op_bind. by intros ->. Qed.

Lemma refuses_reads {A B} (op : Op A) (f : A → Op B) m a : reads op m (Ok a) → refuses (f a) m → refuses (op ≫= f) m.
Proof. intros H1 H2. unfold refuses. by rewrite (bind_reads _ _ _ _ H1). Qed.

Section Fail.
Context {g : Geometry} {identity : Identity} {image_bytes : Z}.

Abbreviation cell := (@cell g).
Abbreviation owner := (@owner g identity image_bytes).
Abbreviation sound_with := (@sound_with g identity image_bytes).
Abbreviation quiet_with := (@quiet_with g identity image_bytes).
Abbreviation sound := (@sound g identity image_bytes).
Abbreviation quiet := (@quiet g identity image_bytes).
Abbreviation moves := (@moves g identity image_bytes).

(** [m] is a sound region but for the mark (and the guest's cursors, which are
    not its words). *)
Definition marked (m : Memory) (own : Z * Z → Owner) : Prop :=
  m (HeaderAt HFailed) = 1 ∧
  ∃ m0, sound m0 own ∧ ∀ a, a ≠ HeaderAt HFailed → (∀ q, a ≠ GuestUsed q) → m a = m0 a.

(** The header of a region that is marked. *)
Definition condemned (m : Memory) : Prop :=
  m (HeaderAt HFailed) = 1 ∧ ∃ m0 own, sound m0 own ∧ ∀ f, f ≠ HFailed → m (HeaderAt f) = m0 (HeaderAt f).

Lemma marked_condemned m own : marked m own → condemned m.
Proof. intros [Hf (m0 & Hs & E)]. split; [done|]. exists m0, own. split; [done|]. intros f Hne. apply E; congruence. Qed.

(** The mark after some stores to the guest's words. *)
Definition mark (m : Memory) : Memory := run_store m (HeaderAt HFailed, 1).

Lemma mark_marked m own : sound m own → marked (mark m) own.
Proof.
  intros H. split; [apply run_store_eq|]. exists m. split; [done|]. intros a Ha _. by apply run_store_ne.
Qed.

(** The mark changes no owner. *)
Lemma owner_mark m own k : sound m own → cell k → owner (mark m) k = owner m k.
Proof.
  intros [c H] Hk. pose proof (so_slot _ _ _ H k Hk) as Hs. rewrite (owner_slot m k (c k) Hk Hs).
  rewrite (owner_slot (mark m) k (c k) Hk).
  2:{ eapply slot_is_ext; [|exact Hs]. intros f. by apply run_store_ne. }
  unfold owner_of, released, behind, mark. by rewrite !run_store_ne by done.
Qed.

Lemma condemned_frame m m' :
  condemned m → (∀ f, m' (HeaderAt f) = m (HeaderAt f)) → condemned m'.
Proof.
  intros [Hf (m0 & own & Hs & E)] F. split; [by rewrite F|]. exists m0, own. split; [done|]. intros f Hne. rewrite F. auto.
Qed.

Lemma condemned_mark m : condemned m → condemned (mark m).
Proof.
  intros [Hf (m0 & own & Hs & E)]. split; [apply run_store_eq|]. exists m0, own. split; [done|]. intros f Hne.
  unfold mark. rewrite run_store_ne by congruence. auto.
Qed.

(** ** A FAILED region is refused *)

Lemma condemned_healthy m : condemned m → refuses Carrier_healthy m.
Proof. intros [Hf _]. unfold refuses, Carrier_healthy, mbind, op_bind, load, reject_if, lift. cbn [run foldl]. by rewrite Hf. Qed.

Lemma condemned_header m : condemned m → refuses (Carrier_validate_header g identity) m.
Proof.
  intros Hm. pose proof (condemned_healthy m Hm) as Hh. destruct Hm as [_ (m0 & own & [c Hs] & E)]. unfold refuses.
  by rewrite (validate_header_healthy m m0 c own Hs E).
Qed.

Lemma condemned_reconcile m guest_used : condemned m → refuses (Carrier_reconcile g identity image_bytes guest_used) m.
Proof. intros Hm. by apply refuses_bind, condemned_header. Qed.

Lemma condemned_attach m :
  Geometry_new (g_queues g) (g_queue_size g) = Ok g → condemned m →
  refuses (Carrier_attach (Geometry_message g) identity image_bytes) m.
Proof.
  intros Hg Hm. unfold Carrier_attach. cbn [Geometry_message num_queues queue_size mmap_offset mmap_size]. rewrite Hg.
  eapply refuses_reads; [apply reads_lift|].
  eapply refuses_reads; [apply reads_reject; by rewrite !bool_decide_eq_false_2 by (by intros [])|].
  by apply refuses_bind, condemned_header.
Qed.

(** ** A publication that is refused *)

Context (size_pos : 0 < g_queue_size g).

(** As [moves], in a region that is then marked. *)
Definition moves_marked (own : Z * Z → Owner) (k : Z * Z) (allowed : Owner → Prop) (m : Memory) : Prop :=
  ∃ m0, moves own k allowed m0 ∧ m = mark m0.

Lemma moves_owner own k allowed m : moves own k allowed m ∨ moves_marked own k allowed m →
  ∃ o, allowed o ∧ ∀ k', cell k' → owner m k' = <[k := o]> own k'.
Proof.
  intros [(o & Ho & Hm)|(m0 & (o & Ho & Hm) & ->)]; exists o; (split; [done|]); intros k' Hk'.
  - by apply sound_owner.
  - rewrite (owner_mark m0 _ k' Hm Hk'). by apply sound_owner.
Qed.

Lemma publication_moves m c own e advanced err k :
  sound_with m c own → cell k → own k = Owned e → c k = Some (ACTIVE, e) → behind m k.1 = false → m (QueueAt k.1 QLastHead) = k.2 →
  Entry_required_publication e ≤ published_of m →
  always (λ m', moves own k (completing m own k e) m' ∨ moves_marked own k (completing m own k e) m')
    (or_fail (publication (Refused advanced err) k.1 (m (QueueAt k.1 QUsed)))) m
    (λ res m', res = Err err ∧ moves_marked own k (completing m own k e) m').
Proof.
  intros H Hk Ho Hc Hb Hl Hp. assert (M0 : moves own k (completing m own k e) m) by (eapply moves_here; [done|by left]).
  assert (M1 : moves own k (completing m own k e) (run_store m (GuestUsed k.1, wrapping_add 16 (m (QueueAt k.1 QUsed)) 1))).
  { eapply (moves_to _ _ _ _ c Free); [|by right]. pose proof (store_guest m c own k.1 e H Hb) as G.
    rewrite Hl, <- surjective_pairing in G. by apply G. }
  destruct advanced; (split; [intros n|split; [done|]]); cbn; [|by eexists| |by exists m].
  - destruct n as [|[|[|n]]]; cbn; [by left|by left|right; by eexists..].
  - destruct n as [|[|n]]; cbn; [by left|right; by exists m..].
Qed.

Lemma complete_refused m c own e used advanced err :
  quiet_with m c own → 0 ≤ rq_queue (en_request e) → 0 ≤ rq_head (en_request e) →
  let k := (rq_queue (en_request e), rq_head (en_request e)) in
  always (λ m', moves own k (completing m own k e) m' ∨ moves_marked own k (completing m own k e) m')
    (Carrier_complete g identity image_bytes e used (publication (Refused advanced err) k.1 used)) m
    (λ res m', ∃ err', res = Err err' ∧ (m' = m ∨ moves_marked own k (completing m own k e) m')).
Proof.
  intros H Hq Hh k. pose proof H as [H0 Hs Hg]. unfold Carrier_complete. apply always_bind.
  eapply always_mono; [by apply (begin_completion_always size_pos m c own e used)| |].
  { intros m' [c' Hm']. left. eapply moves_here; [done | by left]. }
  intros [u|err'|] m1; [|intros ->; exists err'; split; [done | by left]|done].
  intros (Hk & Hc & Hu & Hp & H1 & Hl & E1). fold k in Hk, Hc, Hu, Hl, E1.
  pose proof (so_cell _ _ _ H0 _ Hk) as L. specialize (Hs _ Hk) as Hd. rewrite Hc in L, Hd.
  destruct Hd as (_ & Hi & _). specialize (Hi eq_refl). pose proof (Hg _ (proj1 Hk) (lv_version _ _ _ _ L)) as Hb.
  assert (Ho : own k = Owned e).
  { rewrite <- (so_owner _ _ _ H0 _ Hk), Hc. cbn. unfold released. by rewrite Hi, Hb. }
  assert (Hb1 : behind m1 k.1 = false) by (unfold behind in *; by rewrite !E1).
  assert (Ep : published_of m1 = published_of m) by by rewrite E1.
  assert (Eu : m1 (QueueAt k.1 QUsed) = used) by by rewrite E1.
  apply always_bind. pose proof (publication_moves m1 c own e advanced err k H1 Hk Ho Hc Hb1 Hl ltac:(lia)) as A.
  unfold completing in A |- *. rewrite Ep, Eu in A. eapply always_mono; [exact A|done|].
  intros r m2 [-> Hm2]. exists err. split; [done | by right].
Qed.

(** ** A ring that starts again *)

(** No descriptor of [q] is owned, and the guest's cursor is the region's. *)
Lemma restart_sound m m' c own q :
  sound_with m c own → (∀ k, cell k → k.1 = q → c k = None) →
  (∀ a, a ≠ GuestUsed q → a ≠ QueueAt q QUsed → m' a = m a) →
  (m (QueueAt q QVersion) = 1 → behind m' q = false) → sound_with m' c own.
Proof.
  intros [] Hn E Hb. split.
  - intros a v Ha Hv. rewrite E; [auto| |]; by intros ->.
  - intros k Hk. eapply slot_is_ext, so_slot; [|done]. intros f. by rewrite E.
  - rewrite !E by done. done.
  - intros q' Hq'. destruct (so_queue q' Hq'). destruct (decide (q' = q)) as [->|Hne].
    + split; rewrite ?E by done; try done. intros Hv Hb'. rewrite Hb in Hb' by done. done.
    + split; rewrite ?E by congruence; try done. unfold behind. rewrite !E by congruence. done.
  - intros k Hk. specialize (so_cell k Hk). unfold cell_ok in *. destruct (c k) as [[st e]|]; [|by rewrite E].
    destruct so_cell. split; rewrite ?E by done; done.
  - intros k Hk. rewrite <- so_owner by done. destruct (c k) as [[st e]|] eqn:Hc; [|done].
    assert (k.1 ≠ q) by (intros Hq; by rewrite Hn in Hc). unfold owner_of, released, behind. by rewrite !E by congruence.
  - done.
Qed.

Lemma restart_quiet m m' c own q :
  quiet_with m c own → (∀ k, cell k → k.1 = q → c k = None) →
  (∀ a, a ≠ GuestUsed q → a ≠ QueueAt q QUsed → m' a = m a) →
  (m (QueueAt q QVersion) = 1 → behind m' q = false) → quiet_with m' c own.
Proof.
  intros [H Hs Hg] Hn E Hb. split; [by eapply restart_sound|..].
  - intros k Hk. eapply settled_frame, Hs, Hk. intros a Ha. apply E; intros ->; by destruct_or? Ha.
  - intros q' Hq' Hv. rewrite E in Hv by done. destruct (decide (q' = q)) as [->|Hne]; [auto|].
    unfold behind. rewrite !E by congruence. by apply Hg.
Qed.

(** A loop that only reads. *)
Lemma fold_checks {A} (f : A → unit → Op unit) (ok : A → Prop) l m :
  (∀ x, (reads (f x tt) m (Ok tt) ∧ ok x) ∨ ∃ e, reads (f x tt) m (Err e)) →
  (reads (op_fold f l tt) m (Ok tt) ∧ ∀ x, x ∈ l → ok x) ∨ ∃ e, reads (op_fold f l tt) m (Err e).
Proof.
  intros Hf. induction l as [|x l IH]; cbn [op_fold]; [left; split; [done|]; intros x Hx; by apply elem_of_nil in Hx|].
  destruct (Hf x) as [[E Hx]|[e E]].
  - destruct IH as [[El Hl]|[e El]].
    + left. split; [by eapply reads_bind|]. intros y [->|Hy]%elem_of_cons; auto.
    + right. exists e. by eapply reads_bind.
  - right. exists e. unfold reads, mbind, op_bind. by rewrite E.
Qed.

(** [reset_queue] refuses, or finds no descriptor of the queue in use. *)
Lemma reset_cases q available used m : 0 ≤ q →
  (∃ e, reads (Carrier_reset_queue g q available used) m (Err e)) ∨
  (m (HeaderAt HFailed) = 0 ∧ q < g_queues g ∧ (∀ h, 0 ≤ h < g_queue_size g → m (SlotAt q h SState) = EMPTY) ∧
   Carrier_reset_queue g q available used m = ([(QueueAt q QUsed, used); (HeaderAt (HAvailable q), available)], Ok tt)).
Proof.
  intros Hq. unfold Carrier_reset_queue, reads at 1.
  destruct (healthy_cases m) as [[E Hf]|[e E]]; [|left; exists e; by apply bind_stops].
  rewrite (bind_reads _ _ _ _ E). destruct (check_err (g := g) q 0) as [[K1 K2]|[e E1]].
  2:{ left. exists e. by apply bind_stops, reads_check_err. }
  rewrite (bind_reads _ _ _ _ (reads_check q 0 m K1 K2)), (bind_reads _ _ _ _ (reads_load _ m)). clear E.
  destruct (bool_decide (m (QueueAt q QVersion) ≠ 1)) eqn:Hv; [left; by eexists|].
  rewrite (bind_reads _ _ _ _ (reads_reject _ _ m eq_refl)).
  destruct (fold_checks (λ head _, Carrier_check g q head;; state ← load (SlotAt q head SState);
    inflight ← load (DescriptorAt q head DInflight);
    reject_if (bool_decide (state ≠ EMPTY) || bool_decide (inflight ≠ 0)) "cannot reset a queue with outstanding ownership")
    (λ h, m (SlotAt q h SState) = EMPTY) (range (g_queue_size g)) m) as [[E Hl]|[e E]].
  - intros h. destruct (check_err (g := g) q h) as [[_ K3]|[e E]].
    2:{ right. exists e. by apply bind_stops, reads_check_err. }
    unfold reads. rewrite (bind_reads _ _ _ _ (reads_check q h m K1 K3)), !(bind_reads _ _ _ _ (reads_load _ m)).
    destruct (bool_decide (m (SlotAt q h SState) ≠ EMPTY)) eqn:Hs; [right; by eexists|].
    apply bool_decide_eq_false, dec_stable in Hs.
    destruct (bool_decide (m (DescriptorAt q h DInflight) ≠ 0)); [right; by eexists | by left].
  - right. split; [done|]. split; [done|]. split; [|by rewrite (bind_reads _ _ _ _ E)]. intros h Hh. apply Hl. by apply elem_of_range.
  - left. exists e. by apply bind_stops.
Qed.

Definition reset_stores (q available used : Z) : list Store :=
  [(QueueAt q QUsed, used); (HeaderAt (HAvailable q), available)].

Lemma rebase_cases q size available used m : 0 ≤ q →
  (∃ e, reads (rebase_queue g q size available used) m (Err e)) ∨
  (reads (rebase_queue g q size available used) m (Ok tt) ∧ m (QueueAt q QVersion) ≠ 1) ∨
  (m (HeaderAt HFailed) = 0 ∧ q < g_queues g ∧ (∀ h, 0 ≤ h < g_queue_size g → m (SlotAt q h SState) = EMPTY) ∧
   rebase_queue g q size available used m = (reset_stores q available used, Ok tt)).
Proof.
  intros Hq. unfold rebase_queue.
  destruct (bool_decide (size ≠ g_queue_size g)); [left; eexists; by apply bind_stops|].
  unfold reads. rewrite (bind_reads _ _ _ _ (reads_lift (Ok tt) m)). unfold Carrier_queue_initialized.
  destruct (check_err (g := g) q 0) as [[K1 K2]|[e E]].
  2:{ left. exists e. by apply bind_stops, bind_stops, reads_check_err. }
  rewrite (bind_reads _ _ m (bool_decide (m (QueueAt q QVersion) = 1))).
  2:{ unfold reads. by rewrite (bind_reads _ _ _ _ (reads_check q 0 m K1 K2)), (bind_reads _ _ _ _ (reads_load _ m)). }
  destruct (bool_decide_reflect (m (QueueAt q QVersion) = 1)); [|right; by left].
  destruct (reset_cases q available used m Hq) as [?|(? & ? & ? & ?)]; [by left | right; by right].
Qed.

(** A restart records the ring's cursors and leaves every owner, or marks the
    region.  Between the guest's cursor and its record, recovery would differ. *)
Lemma restart_outcome m c own q size available used :
  quiet_with m c own → 0 ≤ q → 0 ≤ available < 2 ^ 16 →
  let '(t, r) := restart g q size available used m in
  (r = Ok tt ∧ (∀ n, n ≠ 1%nat → sound (run (take n t) m) own) ∧ quiet (run t m) own) ∨
  (∃ e, r = Err e ∧ t = [(GuestUsed q, used); (HeaderAt HFailed, 1)]).
Proof.
  intros H Hq Ha. pose proof (qu_sound _ _ _ H) as H0. set (m1 := run_store m (GuestUsed q, used)).
  assert (R : restart g q size available used m =
    let '(t, r) := or_fail (rebase_queue g q size available used) m1 in ((GuestUsed q, used) :: t, r)) by done.
  rewrite R. clear R. unfold or_fail.
  destruct (rebase_cases q size available used m1 Hq) as [[e E]|[[E V]|(_ & K & Hn & E)]]; rewrite E; cbn [fst snd].
  - right. exists e. done.
  - left. assert (Hq1 : quiet_with m1 c own).
    { apply (restart_quiet m m1 c own q H); [|intros; by apply run_store_ne|intros Hv; exfalso; apply V; unfold m1; by words_of].
      intros k Hk <-. pose proof (so_cell _ _ _ H0 _ Hk) as L. destruct (c k) as [[st e]|]; [|done]. destruct L.
      exfalso. apply V. unfold m1. by words_of. }
    split; [done|]. split; [|by exists c]. intros [|[|n]] Hn1; [by exists c|done|]. exists c. apply Hq1.
  - left. assert (Hcell : ∀ k, cell k → k.1 = q → c k = None).
    { intros [q' h] Hk E1. cbn in E1. subst q'. apply (slot_empty m c own q h H0 Hk). rewrite <- (Hn h) by apply Hk.
      unfold m1. by words_of. }
    set (m2 := run_store m1 (QueueAt q QUsed, used)).
    assert (H2 : quiet_with m2 c own).
    { apply (restart_quiet m m2 c own q H Hcell).
      - intros a ??. unfold m2, m1. by rewrite !run_store_ne.
      - intros _. unfold behind, m2, m1. words_of. by apply bool_decide_eq_false_2; intros []. }
    assert (Hav : ∀ h st e, cell (q, h) → c (q, h) = Some (st, e) → discovery_of m2 ≤ en_discovery e →
      available = wrapping_add 16 (rq_available (en_request e)) 1) by (intros h st e Hk Hc; by rewrite Hcell in Hc).
    assert (H3 : quiet_with (run_store m2 (HeaderAt (HAvailable q), available)) c own).
    { split; [by apply store_available; [apply H2|..]| |].
      - intros k Hk. destruct (decide (k.1 = q)) as [Hk1|Hk1]; [by rewrite Hcell|].
        eapply settled_frame, H2, Hk. intros a Hx. apply run_store_ne. intros ->. destruct_or? Hx; congruence.
      - intros q' Hq' Hv. unfold behind. rewrite !run_store_ne by done. by apply H2. }
    split; [done|]. split; [|by exists c]. intros [|[|[|n]]] Hn1; [by exists c|done|..].
    + exists c. apply H2.
    + exists c. destruct n; apply H3.
Qed.

(** ** Retirement with IOERR *)

(** The words of the completion of the request at [k]. *)
Definition completion_words (k : Z * Z) (a : Address) : Prop :=
  a = DescriptorAt k.1 k.2 DNext ∨ a = DescriptorAt k.1 k.2 DInflight ∨ a = QueueAt k.1 QLastHead ∨
  a = QueueAt k.1 QUsed ∨ a = SlotAt k.1 k.2 SState ∨ a = GuestUsed k.1.

Lemma confined_read_slot S q h : confined S (Carrier_read_slot g identity image_bytes q h).
Proof.
  assert (Hk : ∀ code, Kind_try_from code ≠ Panic) by (intros; unfold Kind_try_from; repeat case_match; done).
  pose proof (@validate_no_panic image_bytes) as Hv. unfold Carrier_read_slot, Carrier_check.
  confined_steps; try by apply confined_lift. all: apply confined_lift; unfold Geometry_check; by destruct (_ || _).
Qed.
#[local] Hint Resolve confined_read_slot : core.

Lemma confined_publication p k used : confined (completion_words k) (publication p k.1 used).
Proof.
  assert (completion_words k (GuestUsed k.1)) by (unfold completion_words; tauto).
  destruct p as [|[] e]; cbn; unfold publish_used; [by apply confined_store|apply confined_bind; [by apply confined_store|]|];
    intros; by apply confined_lift.
Qed.

Lemma complete_error_confined e used p :
  let k := (rq_queue (en_request e), rq_head (en_request e)) in
  confined (completion_words k) (Carrier_complete_error g identity image_bytes e used (publication p k.1 used)).
Proof.
  intros k. assert (W : completion_words k (DescriptorAt k.1 k.2 DNext) ∧ completion_words k (DescriptorAt k.1 k.2 DInflight) ∧
    completion_words k (QueueAt k.1 QLastHead) ∧ completion_words k (QueueAt k.1 QUsed) ∧ completion_words k (SlotAt k.1 k.2 SState))
    by (unfold completion_words; tauto). destruct W as (W1 & W2 & W3 & W4 & W5).
  pose proof (confined_publication p k used) as Wp.
  unfold Carrier_complete_error, Carrier_prepare_completion, Carrier_finish_completion, Carrier_published, ok_or.
  apply confined_bind; [|intros _; apply confined_bind; [exact Wp|intros _]].
  - cbv iota. confined_steps. apply confined_lift. by case_match.
  - cbn [k fst snd] in *. confined_steps.
Qed.

(** On a region that is not FAILED it is refused. *)
Lemma complete_error_healthy m e used publish :
  m (HeaderAt HFailed) = 0 →
  Carrier_complete_error g identity image_bytes e used publish m =
    ([], invalid "IOERR retirement requires a FAILED attachment").
Proof.
  intros Hf. unfold Carrier_complete_error. apply bind_stops. unfold Carrier_prepare_completion. cbv iota zeta.
  apply bind_stops. unfold reads. rewrite (bind_reads _ _ _ _ (reads_load _ m)), Hf. done.
Qed.

(** A retirement that succeeds frees the request's descriptor, and records the
    used cursor that the guest sees. *)
Lemma complete_error_retires m e used p t :
  let k := (rq_queue (en_request e), rq_head (en_request e)) in
  Carrier_complete_error g identity image_bytes e used (publication p k.1 used) m = (t, Ok tt) →
  run t m (SlotAt k.1 k.2 SState) = EMPTY ∧ run t m (DescriptorAt k.1 k.2 DInflight) = 0 ∧
  run t m (QueueAt k.1 QUsed) = wrapping_add 16 used 1 ∧ run t m (GuestUsed k.1) = wrapping_add 16 used 1.
Proof.
  intros k (t1 & [] & t2 & _ & (t3 & [] & t4 & Ep & Ef & ->)%op_bind_ok & ->)%op_bind_ok. rewrite !run_app.
  assert (Et3 : t3 = [(GuestUsed k.1, wrapping_add 16 used 1)]) by (by destruct p as [|[] ?]; cbn in Ep; inversion Ep).
  assert (Et4 : t4 = [(DescriptorAt k.1 k.2 DInflight, 0); (QueueAt k.1 QUsed, wrapping_add 16 used 1); (SlotAt k.1 k.2 SState, EMPTY)]).
  { unfold Carrier_finish_completion, mbind, op_bind, Carrier_check, lift, store in Ef.
    destruct (Geometry_check g _ (rq_head _)) as [[]|?|]; [|done..]. destruct (Geometry_check g _ 0) as [[]|?|]; [|done..].
    by injection Ef as <-. }
  rewrite Et3, Et4. cbn [run foldl]. words_of. done.
Qed.

(** ** A FAILED region stays FAILED *)

Lemma restart_condemned q size available used m n : 0 ≤ q → condemned m →
  (restart g q size available used m).2 ≠ Panic ∧ condemned (run (take n (restart g q size available used m).1) m).
Proof.
  intros Hq Hm. set (m1 := run_store m (GuestUsed q, used)).
  assert (R : restart g q size available used m =
    let '(t, r) := or_fail (rebase_queue g q size available used) m1 in ((GuestUsed q, used) :: t, r)) by done.
  assert (H1 : condemned m1) by (apply (condemned_frame m); [done|intros; by apply run_store_ne]).
  rewrite R. clear R. unfold or_fail.
  destruct (rebase_cases q size available used m1 Hq) as [[e E]|[[E V]|(Hf & _)]].
  - rewrite E. cbn [fst snd]. split; [done|]. destruct n as [|[|n]]; [done|done|]. cbn. destruct n; apply (condemned_mark m1 H1).
  - rewrite E. cbn [fst snd]. split; [done|]. destruct n as [|n]; [done|]. cbn. destruct n; exact H1.
  - destruct H1 as [H1 _]. congruence.
Qed.

Lemma complete_error_condemned e used p m n :
  let k := (rq_queue (en_request e), rq_head (en_request e)) in
  condemned m → condemned (run (take n (Carrier_complete_error g identity image_bytes e used (publication p k.1 used) m).1) m).
Proof.
  intros k Hm. apply (condemned_frame m); [done|]. intros f. apply (confined_frame (completion_words k)); [apply complete_error_confined|].
  unfold completion_words. intros Hx. by destruct_or? Hx.
Qed.

End Fail.
