(* ===== verification/InflightLife.v ===== *)
(** * The life of an inflight region

    The daemon's operations and crashes as steps of a transition system: a
    region is created, served, marked FAILED when the backend fails, left
    behind by a crash at any store, reconciled (and perhaps left behind again),
    and served on.  The theorems: every operation keeps the region well formed
    or marks it; admission and completion hand over one descriptor at one store;
    every region a crash can leave is either unmarked, and then accepted, with a
    replay of exactly the requests the daemon owns and no owner changed, or
    marked, and then refused without a store. *)
From stdpp Require Import functions sorting.
From S2P Require Import Prelude Bytes Inflight InflightSound InflightRecover InflightFail.

(** The calls the backend makes on its carrier.  [Initialize] takes the used
    cursor from the guest's ring; [Restart] begins with the guest's own restart
    of the ring; [Fail] is [ImageState::fail]. *)
Inductive Step : Type :=
  | Discover (r : Request)
  | Admit (r : Request) (rejected : bool)
  | Complete (e : Entry) (used : Z) (p : Publication)
  | CompleteError (e : Entry) (used : Z) (p : Publication)
  | Publish (prefix : Z)
  | Initialize (queue available : Z)
  | Restart (queue size available used : Z)
  | Fail.

(** The arguments are [u16]. *)
Definition step_typed (s : Step) : Prop :=
  match s with
  | Discover r | Admit r _ => 0 ≤ rq_queue r ∧ 0 ≤ rq_head r
  | Complete e _ _ | CompleteError e _ _ => 0 ≤ rq_queue (en_request e) ∧ 0 ≤ rq_head (en_request e)
  | Publish _ | Fail => True
  | Initialize q available | Restart q _ available _ => 0 ≤ q ∧ 0 ≤ available < 2 ^ 16
  end.

(** A restart of a ring is one moment: the guest's new cursor and its record in
    the region are not separated by a crash. *)
Definition kept (s : Step) (n : nat) : Prop := match s with Restart _ _ _ _ => n ≠ 1%nat | _ => True end.

(** The calls that mark the region: [Fail], a completion whose publication is
    refused, and a restart that is refused. *)
Definition fails (s : Step) (r : result unit) : Prop :=
  match s, r with
  | Fail, _ | Complete _ _ (Refused _ _), Err _ | Restart _ _ _ _, Err _ => True
  | _, _ => False
  end.

(** The calls that begin with [healthy]. *)
Definition guarded (s : Step) : Prop :=
  match s with CompleteError _ _ _ | Restart _ _ _ _ | Fail => False | _ => True end.

Section Life.
Context (g : Geometry) (identity : Identity) (image_bytes : Z).

Definition perform (s : Step) : Op unit :=
  match s with
  | Discover r => Carrier_discover g identity image_bytes r;; mret tt
  | Admit r rejected => Carrier_admit_outcome g identity image_bytes r rejected;; mret tt
  | Complete e used p =>
      Carrier_complete g identity image_bytes e used (publication p (rq_queue (en_request e)) used)
  | CompleteError e used p =>
      Carrier_complete_error g identity image_bytes e used (publication p (rq_queue (en_request e)) used)
  | Publish prefix => Carrier_publish prefix
  | Initialize q available => λ m, Carrier_initialize_queue g q available (m (GuestUsed q)) m
  | Restart q size available used => restart g q size available used
  | Fail => Carrier_fail
  end.

Definition reconcile (m : Memory) : list Store * result Replay :=
  Carrier_reconcile g identity image_bytes (@guest_cursors g m) m.

(** A crash keeps the first [n] stores. *)
Definition crash (n : nat) (op : Op unit) (m : Memory) : Memory := run (take n (op m).1) m.

(** [life true m]: the daemon serves; [life false m]: it has died.  It serves
    again once recovery succeeds. *)
Inductive life : bool → Memory → Prop :=
  | life_create m prefix : zeroed m → 0 ≤ prefix → life true (run (Carrier_create g identity prefix m).1 m)
  | life_step s m : step_typed s → life true m → life true (run (perform s m).1 m)
  | life_crash s n m : step_typed s → kept s n → life true m → life false (crash n (perform s) m)
  | life_reconcile m : life false m → life (is_ok (reconcile m).2) (run (reconcile m).1 m)
  | life_reconcile_crash n m : life false m → life false (run (take n (reconcile m).1) m).

(** The geometry is one that [Geometry::new] accepts ([u16] arguments). *)
Context (geometry_valid : 0 ≤ g_queue_size g ∧ Geometry_new (g_queues g) (g_queue_size g) = Ok g).

Lemma geometry_ok : 1 ≤ g_queues g ≤ 4 ∧ 0 < g_queue_size g.
Proof.
  destruct geometry_valid as [H0 H]. unfold Geometry_new, is_power_of_two in H.
  destruct (bool_decide_reflect (1 ≤ g_queues g ≤ 4)); [|done]. destruct (bool_decide_reflect (g_queue_size g ≠ 0)); [lia | done].
Qed.

Abbreviation cell := (@cell g).
Abbreviation owner := (@owner g identity image_bytes).
Abbreviation sound := (@sound g identity image_bytes).
Abbreviation quiet := (@quiet g identity image_bytes).

Abbreviation marked := (@marked g identity image_bytes).
Abbreviation condemned := (@condemned g identity image_bytes).

(** A call on a region between operations, stopped after any store. *)
Definition outcome (s : Step) (m : Memory) : Prop :=
  (∀ n, kept s n → (∃ own, sound (crash n (perform s) m) own) ∨ (∃ own, marked (crash n (perform s) m) own)) ∧
  (perform s m).2 ≠ Panic ∧
  ((∃ own, quiet (run (perform s m).1 m) own) ∨ fails s (perform s m).2 ∧ ∃ own, marked (run (perform s m).1 m) own).

Lemma always_outcome s m :
  always (λ m', ∃ own, sound m' own) (perform s) m (λ res m', res ≠ Panic ∧ ∃ own, quiet m' own) → outcome s m.
Proof. intros [Hn [Hp Hq]]. split_and!; [intros n _; left; apply Hn | done | by left]. Qed.

Lemma complete_outcome e used p m own :
  step_typed (Complete e used p) → quiet m own → outcome (Complete e used p) m.
Proof.
  intros Hs [c H]. destruct p as [|advanced err].
  - apply always_outcome. eapply always_mono; [apply (complete_always (proj2 geometry_ok) m c own e used H); apply Hs|..].
    { intros m' (o & _ & Hm). by eexists. }
    intros [u|err|] m' Hm; [|rewrite Hm; split; [done|by exists own, c]|done]. destruct Hm as (_ & _ & _ & _ & Hm & _). split; [done | by eexists].
  - destruct (complete_refused (proj2 geometry_ok) m c own e used advanced err H (proj1 Hs) (proj2 Hs)) as [Hn (err' & Hr & Hm)].
    cbn [fst] in Hn, Hr, Hm. split_and!.
    + intros n _. unfold crash. cbn [perform].
      destruct (Hn n) as [(o & _ & Hm')|(m0 & (o & _ & Hm') & ->)]; [left; by eexists | right; eexists; by apply mark_marked].
    + cbn [perform]. by rewrite Hr.
    + cbn [perform]. rewrite Hr. destruct Hm as [->|(m0 & (o & _ & Hm) & ->)]; [left; by exists own, c | right; split; [done|eexists; by apply mark_marked]].
Qed.

Lemma restart_outcomes q size available used m own :
  step_typed (Restart q size available used) → quiet m own → outcome (Restart q size available used) m.
Proof.
  intros [Hq Ha] [c H]. pose proof (restart_outcome m c own q size available used H Hq Ha) as R.
  unfold outcome, crash. cbn [perform fails]. destruct (restart g q size available used m) as [t r]. cbn [fst snd].
  assert (Hm : sound m own) by (exists c; apply H).
  assert (M : marked (mark (run_store m (GuestUsed q, used))) own).
  { split; [apply run_store_eq|]. exists m. split; [done|]. intros a Ha1 Ha2. unfold mark. by rewrite !run_store_ne. }
  destruct R as [(-> & Hn & Hq')|(e & -> & ->)].
  - split_and!; [intros n Hk; left; exists own; by apply Hn | done | left; by exists own].
  - split_and!; [|done|right; split; [done|by exists own]]. intros [|[|[|n]]] Hk; [left; by exists own | done|right; by exists own..].
Qed.

Lemma fail_outcome m own : quiet m own → outcome Fail m.
Proof.
  intros [c H]. assert (Hm : sound m own) by (exists c; apply H). pose proof (mark_marked m own Hm) as M.
  split_and!; [|done|right; split; [done|by exists own]].
  intros [|[|n]] _; [left; by exists own | right; by exists own..].
Qed.

(** Every call on a region between operations: sound at every crash, or marked. *)
Lemma perform_outcome s m own : step_typed s → quiet m own → outcome s m.
Proof.
  intros Hs Hq. pose proof Hq as [c H]. destruct s as [r|r rejected|e used p|e used p|prefix|q a|q size a used|].
  - apply always_outcome. cbn in *.
    apply always_bind. eapply always_mono; [apply (discover_always (proj2 geometry_ok) m c own r H); apply Hs|..].
    { intros m' (o & _ & Hm). by eexists. }
    intros [d|err|] m' Hm; [|rewrite Hm; split; [done|by eexists]|done]. destruct Hm as (_ & _ & _ & Hm & _).
    apply always_ret; [|split; [done | by eexists]]. destruct Hm as [c' Hm]. exists (<[(rq_queue r, rq_head r) := Found (discovery_of m + 1) r]> own), c'. apply Hm.
  - apply always_outcome. cbn in *.
    apply always_bind. eapply always_mono; [apply (admit_always (proj2 geometry_ok) m c own r rejected H); apply Hs|..].
    { intros m' (o & _ & Hm). by eexists. }
    intros [e|err|] m' Hm; [|by destruct Hm as (o & _ & Hm & _); split; [done | by eexists]|done].
    destruct Hm as (d & _ & _ & _ & c' & Hm). apply always_ret; [eexists _, c'; apply Hm|]. split; [done|]. by eexists _, c'.
  - by eapply complete_outcome.
  - assert (Hf : m (HeaderAt HFailed) = 0) by by apply (so_constant _ _ _ (qu_sound _ _ _ H)).
    apply always_outcome. split.
    + intros n. cbn [perform]. rewrite complete_error_healthy by done. cbn. rewrite take_nil. exists own, c. apply H.
    + cbn [perform]. rewrite complete_error_healthy by done. split; [done|]. by exists own.
  - apply always_outcome. eapply always_mono; [apply (publish_always m c own prefix H)|..].
    { intros m' Hm. by exists own. }
    intros [u|err|] m' Hm; [|rewrite Hm; split; [done|by eexists]|done]. split; [done|]. exists own. apply Hm.
  - apply always_outcome. eapply always_mono; [apply (initialize_queue_always m c own q a H); apply Hs|..].
    { intros m' Hm. by exists own. }
    intros [u|err|] m' Hm; [|rewrite Hm; split; [done|by eexists]|done]. split; [done|]. exists own. apply Hm.
  - by eapply restart_outcomes.
  - by eapply fail_outcome.
Qed.

Lemma guarded_refuses s m : guarded s → condemned m → refuses (perform s) m.
Proof.
  intros Hg Hm%condemned_healthy. destruct s; try done; cbn [perform]; repeat (done || apply refuses_bind). 
Qed.

(** Every call on a marked region: it stays marked. *)
Lemma perform_condemned s m n : step_typed s → condemned m → (perform s m).2 ≠ Panic ∧ condemned (crash n (perform s) m).
Proof.
  intros Hs Hm. destruct s as [r|r rejected|e used p|e used p|prefix|q a|q size a used|]; unfold crash.
  1,2,3,5,6: match goal with |- context [perform ?s] => rewrite (guarded_refuses s m I Hm) end;
    cbn [fst snd]; by rewrite take_nil.
  - split; [apply (complete_error_confined e used p)|by apply complete_error_condemned].
  - apply restart_condemned; [apply Hs|done].
  - split; [done|]. destruct n as [|[|n]]; [done|by apply condemned_mark..].
Qed.

Lemma attach_reads m c own :
  @sound_with g identity image_bytes m c own →
  reads (Carrier_attach (Geometry_message g) identity image_bytes) m (Ok g).
Proof.
  intros H. unfold Carrier_attach. cbn [Geometry_message num_queues queue_size mmap_offset mmap_size].
  rewrite (proj2 geometry_valid). eapply reads_bind; [apply reads_lift|].
  eapply reads_bind; [apply reads_reject; by rewrite !bool_decide_eq_false_2 by (by intros [])|]. eapply reads_bind; [by eapply reads_validate_header|].
  eapply reads_bind; [by eapply (scan_reads geometry_ok) | done].
Qed.

Lemma life_invariant b m :
  life b m → (if b then ∃ own, quiet m own else ∃ own, sound m own) ∨ condemned m.
Proof.
  induction 1 as [m prefix Hz Hp|s m Hs _ [[own Hq]|Hm]|s n m Hs Hk _ [[own Hq]|Hm]|m _ [[own [c H]]|Hm]|n m _ [[own [c H]]|Hm]].
  - left. exists (λ _, Free). by apply (create_quiet (proj2 geometry_ok)).
  - destruct (perform_outcome s m own Hs Hq) as (_ & _ & [?|[_ [own' Hm]]]); [by left | right; by eapply marked_condemned].
  - right. rewrite <- (take_ge (perform s m).1 _ (Nat.le_refl _)). by apply perform_condemned.
  - destruct (perform_outcome s m own Hs Hq) as (Hn & _). destruct (Hn n Hk) as [?|[own' Hm]]; [by left | right; by eapply marked_condemned].
  - right. by apply perform_condemned.
  - left. unfold reconcile. destruct (reconcile_always geometry_ok m c own H) as [_ (Hr & Hq & _)]. rewrite Hr. by exists own.
  - right. unfold reconcile. by rewrite (condemned_reconcile m _ Hm).
  - left. destruct (reconcile_always geometry_ok m c own H) as [Hn _]. exists own. apply Hn.
  - right. unfold reconcile. rewrite (condemned_reconcile m _ Hm). cbn. by rewrite take_nil.
Qed.

Lemma quiet_sound m own : quiet m own → sound m own.
Proof. intros [c H]. exists c. apply H. Qed.

Lemma life_cases b m : life b m → (∃ c own, @sound_with g identity image_bytes m c own) ∨ condemned m.
Proof.
  intros [H|H]%life_invariant; [left | by right].
  destruct b, H as [own [c H]]; exists c, own; [apply H | done].
Qed.

(** A region whose recovery succeeds was sound. *)
Lemma recovered_sound b m t replay :
  life b m → reconcile m = (t, Ok replay) → ∃ c own, @sound_with g identity image_bytes m c own.
Proof.
  intros [H|Hm]%life_cases E; [done|]. unfold reconcile in E. rewrite (condemned_reconcile m _ Hm) in E. discriminate E.
Qed.

Lemma sound_healthy m own : sound m own → m (HeaderAt HFailed) = 0.
Proof. intros [c H]. by apply (so_constant _ _ _ H). Qed.

(** C20: No call panics.  On a region between operations, a call leaves it well
    formed, or fails and marks it FAILED, its other words those of a well-formed
    region; retirement with IOERR is refused there.  On a FAILED region the
    guarded calls are refused without a store; a retirement stores to the words
    of its own completion only and, if it succeeds, frees the descriptor and
    records the cursor the guest sees; and the region stays FAILED. *)
Theorem operations_preserve s m t r :
  step_typed s → perform s m = (t, r) →
  (∀ own, quiet m own → r ≠ Panic ∧
     ((∃ own', quiet (run t m) own') ∨ fails s r ∧ ∃ own', marked (run t m) own') ∧
     (∀ e used p, s = CompleteError e used p → t = [] ∧ ∃ err, r = Err err)) ∧
  (condemned m → r ≠ Panic ∧ condemned (run t m) ∧ (guarded s → t = [] ∧ r = Err failed_error) ∧
     (∀ e used p, s = CompleteError e used p → 
        let k := (rq_queue (en_request e), rq_head (en_request e)) in
        (∀ a, ¬ completion_words k a → run t m a = m a) ∧
        (r = Ok tt → run t m (SlotAt k.1 k.2 SState) = EMPTY ∧ run t m (DescriptorAt k.1 k.2 DInflight) = 0 ∧
           run t m (QueueAt k.1 QUsed) = wrapping_add 16 used 1 ∧ run t m (GuestUsed k.1) = wrapping_add 16 used 1))).
Proof.
  intros Hs E. split.
  - intros own Hq. destruct (perform_outcome s m own Hs Hq) as (_ & Hp & Hm). rewrite E in Hp, Hm. split_and!; [done|done|].
    intros e used p ->. cbn [perform] in E. apply quiet_sound, sound_healthy in Hq.
    rewrite complete_error_healthy in E by done. injection E as <- <-. split; [done|by eexists].
  - intros Hm. destruct (perform_condemned s m (length t) Hs Hm) as [Hp Hc]. unfold crash in Hc. rewrite E in Hp, Hc.
    cbn [fst] in Hc. rewrite take_ge in Hc by done. split_and!; [done|done| |].
    + intros Hg. pose proof (guarded_refuses s m Hg Hm) as R. unfold refuses in R. rewrite R in E. by injection E as <- <-.
    + intros e used p -> k. cbn [perform] in E. split.
      * intros a Ha. pose proof (confined_frame _ _ m (length t) a
          (complete_error_confined (g := g) (identity := identity) (image_bytes := image_bytes) e used p) Ha) as F.
        cbn [fst k] in F. rewrite E in F. cbn [fst] in F. by rewrite take_ge in F by done.
      * intros ->. by eapply complete_error_retires.
Qed.

(** Recovery changes no owner, whenever it is itself interrupted. *)
Lemma recovery_keeps_owners m c own n k :
  @sound_with g identity image_bytes m c own → cell k → owner (run (take n (reconcile m).1) m) k = owner m k.
Proof.
  intros H Hk. destruct (reconcile_always geometry_ok m c own H) as [Hn _].
  rewrite (sound_owner m own k ltac:(by exists c) Hk). apply (sound_owner _ _ _ (Hn n) Hk).
Qed.

(** C5: Recovery of every region the daemon can leave behind.  An unmarked one is
    accepted, and its replay is exactly the requests the daemon owns, those
    admitted in the order of their serials and those found in the order of their
    discovery; no owner changes, however often recovery is itself interrupted.
    One marked FAILED is refused, by [attach] and by [reconcile], without a
    store.  (A restart of a ring by the guest and its record are one moment.) *)
Theorem region_recovers b m :
  life b m →
  (m (HeaderAt HFailed) = 0 ∧ ∃ replay,
    Carrier_attach (Geometry_message g) identity image_bytes m = ([], Ok g) ∧ (reconcile m).2 = Ok replay ∧
    (∀ n k, cell k → owner (run (take n (reconcile m).1) m) k = owner m k) ∧
    (∀ e, e ∈ rp_entries replay ↔ ∃ k, cell k ∧ owner m k = Owned e) ∧
    StronglySorted (λ x y, en_serial x < en_serial y) (rp_entries replay) ∧
    (∀ d r, (d, r) ∈ rp_discovered replay ↔ ∃ k, cell k ∧ owner m k = Found d r) ∧
    StronglySorted (λ x y : Z * Request, x.1 < y.1) (rp_discovered replay) ∧
    rp_published replay = m (HeaderAt HPublished)) ∨
  (m (HeaderAt HFailed) = 1 ∧ Carrier_attach (Geometry_message g) identity image_bytes m = ([], Err failed_error) ∧
    reconcile m = ([], Err failed_error)).
Proof.
  intros [(c & own & H)|Hm]%life_cases.
  2:{ right. split; [apply Hm|]. split; [exact (condemned_attach m (proj2 geometry_valid) Hm) | exact (condemned_reconcile m _ Hm)]. }
  left. split; [eapply sound_healthy; by exists c|]. exists (@replay_of g m c own).
  destruct (reconcile_always geometry_ok m c own H) as [_ (Hr & _)].
  assert (Ho : ∀ k o, cell k → owner m k = o ↔ own k = o).
  { intros k o Hk. by rewrite (sound_owner m own k ltac:(by exists c) Hk). }
  split_and!; [by eapply attach_reads | exact Hr | by intros; eapply recovery_keeps_owners | | by eapply kept_sorted | | by eapply found_sorted | done].
  - intros e. rewrite (kept_spec _ _ _ _ H). split; intros (k & Hk & E); exists k; split; try done; by apply Ho.
  - intros d r. rewrite (found_spec _ _ _ _ _ H). split; intros (k & Hk & E); exists k; split; try done; by apply Ho.
Qed.

Lemma quiet_owner m own k : quiet m own → cell k → owner m k = own k.
Proof. intros Hq%quiet_sound. by apply sound_owner. Qed.

Lemma refuses_crash s m n : refuses (perform s) m → crash n (perform s) m = m.
Proof. intros R. unfold crash. rewrite R. cbn. by rewrite take_nil. Qed.

(** C6: A crash during an admission leaves the request with its owner, found, or
    admitted with the next serial; no other descriptor changes hands. *)
Theorem admission_handover m r rejected n k :
  life true m → step_typed (Admit r rejected) → cell k →
  let k0 := (rq_queue r, rq_head r) in
  let m' := crash n (perform (Admit r rejected)) m in
  (k ≠ k0 → owner m' k = owner m k) ∧ (k = k0 → @admitting identity m (owner m) k0 r rejected (owner m' k)).
Proof.
  intros [[own [c H]]|Hm]%life_invariant Hs Hk k0 m'.
  2:{ unfold m'. rewrite refuses_crash by by apply guarded_refuses. split; [done|]. intros ->. left. by left. }
  assert (A : always (@moves g identity image_bytes own k0 (@admitting identity m own k0 r rejected)) (perform (Admit r rejected)) m (λ _ _, True)).
  { cbn. apply always_bind. eapply always_mono; [apply (admit_always (proj2 geometry_ok) m c own r rejected H); apply Hs | done|].
    intros [e|err|] m1 Hm; [|done..]. apply always_ret; [|done]. destruct Hm as (d & -> & Hf & _ & Hq & Hm).
    exists (Owned (@admitted identity m r rejected d)). split; [right; by exists d|]. exists Hq. apply Hm. }
  destruct (moves_owner _ _ _ _ (or_introl (proj1 A n))) as (o & Ho & Hm). fold (crash n (perform (Admit r rejected)) m) in Hm. fold m' in Hm.
  rewrite (Hm k Hk). assert (Hown : ∀ k', cell k' → owner m k' = own k') by (intros k'; apply quiet_owner; by exists c).
  split; intros Hne.
  - by rewrite fn_lookup_insert_ne, Hown.
  - subst k. rewrite fn_lookup_insert. unfold admitting, finding in *. by rewrite (Hown k0 Hk).
Qed.

(** C7: A completion gives back its own descriptor only, not before the publication
    that the request requires, whether the guest's memory takes the completion
    or refuses it. *)
Theorem completion_handover m e used p n k :
  life true m → step_typed (Complete e used p) → cell k →
  let k0 := (rq_queue (en_request e), rq_head (en_request e)) in
  let m' := crash n (perform (Complete e used p)) m in
  (k ≠ k0 → owner m' k = owner m k) ∧
  (k = k0 → owner m' k = owner m k ∨
     owner m k = Owned e ∧ Entry_required_publication e ≤ m (HeaderAt HPublished) ∧ owner m' k = Free).
Proof.
  intros [[own [c H]]|Hm]%life_invariant Hs Hk k0 m'.
  2:{ unfold m'. rewrite refuses_crash by by apply guarded_refuses. split; [done|]. by left. }
  assert (A : @moves g identity image_bytes own k0 (@completing m own k0 e) m' ∨
              @moves_marked g identity image_bytes own k0 (@completing m own k0 e) m').
  { destruct p as [|advanced err].
    - left. apply (complete_always (proj2 geometry_ok) m c own e used H (proj1 Hs) (proj2 Hs)).
    - apply (complete_refused (proj2 geometry_ok) m c own e used advanced err H (proj1 Hs) (proj2 Hs)). }
  destruct (moves_owner _ _ _ _ A) as (o & Ho & Hm).
  rewrite (Hm k Hk). assert (Hown : ∀ k', cell k' → owner m k' = own k') by (intros k'; apply quiet_owner; by exists c).
  split; intros Hne.
  - by rewrite fn_lookup_insert_ne, Hown.
  - subst k. rewrite fn_lookup_insert, (Hown k0 Hk). destruct Ho as [->|(? & ? & ->)]; [by left | by right].
Qed.

(** ** Success *)

Definition succeeds {A} (op : Op A) (m : Memory) (a : A) : Prop := (op m).2 = Ok a.

Lemma succeeds_bind {A B} (op : Op A) (f : A → Op B) m a b :
  succeeds op m a → succeeds (f a) (run (op m).1 m) b → succeeds (op ≫= f) m b.
Proof.
  unfold succeeds, mbind, op_bind. destruct (op m) as [t r]. cbn [fst snd]. intros -> H. by destruct (f a (run t m)).
Qed.

Lemma succeeds_reads {A B} (op : Op A) (f : A → Op B) m a b :
  reads op m (Ok a) → succeeds (f a) m b → succeeds (op ≫= f) m b.
Proof. intros E H. unfold succeeds. by rewrite (bind_reads _ _ _ _ E). Qed.

Lemma succeeds_store {B} a v (f : unit → Op B) m b : succeeds (f tt) (run_store m (a, v)) b → succeeds (store a v ≫= f) m b.
Proof. by apply (succeeds_bind (store a v)). Qed.

(** In a quiet region the slot of an owner is in its state. *)
Lemma quiet_slot m c own k :
  @quiet_with g identity image_bytes m c own → cell k →
  match own k with
  | Free => c k = None
  | Found d r => c k = Some (DISCOVERED, @discovered_entry identity r d)
  | Owned e => c k = Some (ACTIVE, e)
  end.
Proof.
  intros [H Hs Hg] Hk. rewrite <- (so_owner _ _ _ H _ Hk). specialize (Hs k Hk). pose proof (so_cell _ _ _ H _ Hk) as L.
  pose proof (so_slot _ _ _ H _ Hk) as S. destruct (c k) as [[st e]|] eqn:Hc; [|done]. unfold owner_of.
  destruct S as (_ & _ & _ & _ & _ & _ & _ & S). destruct Hs as (Hs1 & Hs2 & _).
  destruct S as [[-> ->]|([-> | ->] & _)]; [done|done|]. unfold released.
  rewrite (Hg _ (proj1 Hk) (lv_version _ _ _ _ L)), (Hs2 eq_refl). done.
Qed.

Lemma complete_succeeds m c own e used :
  let k := (rq_queue (en_request e), rq_head (en_request e)) in
  @quiet_with g identity image_bytes m c own → cell k → own k = Owned e →
  m (QueueAt k.1 QUsed) = used → Entry_required_publication e ≤ published_of m →
  succeeds (perform (Complete e used Published)) m tt.
Proof.
  intros k Hq Hk Ho Hu Hp. pose proof (quiet_slot m c own k Hq Hk) as Hc. rewrite Ho in Hc. destruct Hq as [H Hs Hg].
  destruct (Hk) as [K1 K2]. cbn [k fst snd] in K1, K2. cbn [perform]. unfold Carrier_complete.
  eapply (succeeds_bind _ _ _ tt).
  - unfold Carrier_begin_completion, Carrier_prepare_completion.
    eapply succeeds_reads; [by eapply reads_healthy|]. eapply succeeds_reads; [by eapply reads_slot|]. fold k. rewrite Hc.
    eapply succeeds_reads; [by apply reads_lift|]. cbn iota beta.
    eapply succeeds_reads; [apply reads_check; lia|]. eapply succeeds_reads; [apply reads_load|].
    eapply succeeds_reads; [apply reads_reject|].
    { cbn [k fst] in Hu. rewrite Hu. by rewrite !bool_decide_eq_false_2 by (by intros []). }
    eapply succeeds_reads; [apply reads_load|].
    eapply succeeds_reads; [apply reads_reject; cbn; apply bool_decide_eq_false_2; lia|].
    eapply succeeds_reads; [apply reads_check; lia|]. apply succeeds_store.
    eapply succeeds_reads; [apply reads_check; lia|]. done.
  - eapply (succeeds_bind _ _ _ tt); [done|]. unfold Carrier_finish_completion.
    eapply succeeds_reads; [apply reads_check; lia|]. apply succeeds_store.
    eapply succeeds_reads; [apply reads_check; lia|]. apply succeeds_store.
    eapply succeeds_reads; [apply reads_check; lia|]. done.
Qed.

Lemma discover_succeeds m c own r :
  let k := (rq_queue r, rq_head r) in
  @quiet_with g identity image_bytes m c own → cell k → own k = Free → Request_validate r image_bytes = Ok tt →
  m (QueueAt k.1 QVersion) = 1 → m (HeaderAt (HAvailable k.1)) = rq_available r → discovery_of m + 1 < 2 ^ 64 →
  succeeds (Carrier_discover g identity image_bytes r) m (discovery_of m + 1).
Proof.
  intros k Hq Hk Ho Hv V Ha Hd. pose proof (quiet_slot m c own k Hq Hk) as Hc. rewrite Ho in Hc. destruct Hq as [H Hs Hg].
  destruct (Hk) as [K1 K2]. cbn [k fst snd] in K1, K2, V, Ha. 
  pose proof (so_cell _ _ _ H _ Hk) as L. rewrite Hc in L. cbn in L.
  pose proof (proj2 (slot_empty m c own _ _ H Hk) Hc) as E.
  unfold Carrier_discover. eapply (succeeds_bind _ _ _ (discovery_of m + 1)).
  - unfold Carrier_prepare_discovery. eapply succeeds_reads; [by eapply reads_healthy|].
    eapply succeeds_reads; [by rewrite Hv|]. eapply succeeds_reads; [apply reads_check; lia|].
    eapply succeeds_reads; [apply reads_load|]. rewrite V. eapply succeeds_reads; [by apply reads_reject|].
    eapply succeeds_reads; [eapply reads_available; [exact H | done | lia]|]. rewrite Ha.
    eapply succeeds_reads; [apply reads_reject; by rewrite bool_decide_eq_false_2 by (by intros [])|].
    eapply succeeds_reads; [apply reads_check; lia|]. do 2 (eapply succeeds_reads; [apply reads_load|]).
    eapply succeeds_reads; [apply reads_reject; by rewrite E, L|]. eapply succeeds_reads; [apply reads_load|].
    eapply succeeds_reads; [unfold checked_add; by rewrite decide_True by done|].
    do 10 apply succeeds_store. done.
  - unfold Carrier_finish_discovery. eapply (succeeds_bind _ _ _ tt); [by apply succeeds_store|]. done.
Qed.

(** What admission needs of the header and of the request's descriptor. *)
Record admissible (m : Memory) (own : Z * Z → Owner) (r : Request) (rejected : bool) (d : Z) : Prop := {
  ad_cell : cell (rq_queue r, rq_head r);
  ad_valid : Request_validate r image_bytes = Ok tt;
  ad_serial : serial_of m + 1 < 2 ^ 64;
  ad_mutation : Request_mutates r && negb rejected = true → mutation_of m + 1 < 2 ^ 64;
  ad_owner : own (rq_queue r, rq_head r) = Found d r ∨
    own (rq_queue r, rq_head r) = Free ∧ d = discovery_of m + 1 ∧ d < 2 ^ 64 ∧
    m (QueueAt (rq_queue r) QVersion) = 1 ∧ m (HeaderAt (HAvailable (rq_queue r))) = rq_available r;
}.

(** Admission discovers the request first, unless that is done. *)
Lemma first_succeeds m c own r rejected d :
  let k := (rq_queue r, rq_head r) in
  let first := if bool_decide (m (SlotAt (rq_queue r) (rq_head r) SState) = EMPTY)
               then Carrier_discover g identity image_bytes r;; mret tt else mret tt in
  @quiet_with g identity image_bytes m c own → admissible m own r rejected d →
  succeeds first m tt ∧
  ∃ c1 o, @quiet_with g identity image_bytes (run (first m).1 m) c1 (<[k := o]> own) ∧ o = Found d r.
Proof.
  intros k first Hq [Hk Hv Bs Bm Ho]. fold k in Hk, Ho. pose proof (quiet_slot m c own k Hq Hk) as Hc.
  pose proof (slot_empty m c own _ _ (qu_sound _ _ _ Hq) Hk) as Hz. fold k in Hz. subst first.
  destruct Ho as [Ho|(Ho & -> & Hd & V & Ha)]; rewrite Ho in Hc.
  - rewrite bool_decide_eq_false_2 by (rewrite Hz, Hc; done). split; [done|]. exists c, (own k). split; [|done].
    eapply quiet_ext; [|exact Hq]. intros k' _. apply fn_insert_same.
  - rewrite bool_decide_eq_true_2 by (by rewrite Hz).
    assert (D := discover_succeeds m c own r Hq Hk Ho Hv V Ha Hd).
    destruct (discover_always (proj2 geometry_ok) m c own r Hq (proj1 (proj1 Hk)) (proj1 (proj2 Hk))) as [_ Q].
    unfold succeeds in D. rewrite D in Q. destruct Q as (_ & _ & _ & (c1 & Q) & _).
    split; [eapply succeeds_bind; [exact D | done]|]. exists c1, (Found (discovery_of m + 1) r). split; [|done].
    unfold mbind, op_bind. destruct (Carrier_discover _ _ _ r m) as [t res]. cbn [fst snd] in *. subst res. cbn [fst mret op_ret].
    by rewrite app_nil_r.
Qed.

Lemma admit_succeeds m c own r rejected d :
  @quiet_with g identity image_bytes m c own → admissible m own r rejected d →
  succeeds (Carrier_admit_outcome g identity image_bytes r rejected) m (@admitted identity m r rejected d).
Proof.
  intros Hq Had. pose proof (first_succeeds m c own r rejected d Hq Had) as Hfirst.
  destruct Had as [Hk Hv Bs Bm Ho]. set (k := (rq_queue r, rq_head r)) in *. pose proof (qu_sound _ _ _ Hq) as H.
  destruct (Hk) as [K1 K2]. cbn [k fst snd] in K1, K2. unfold Carrier_admit_outcome, Carrier_admit_observed.
  eapply (succeeds_bind _ _ _ (@admitted identity m r rejected d)).
  - unfold Carrier_prepare. eapply succeeds_reads; [by eapply reads_healthy|].
    eapply succeeds_reads; [by rewrite Hv|]. eapply succeeds_reads; [apply reads_load|].
    eapply succeeds_reads; [unfold checked_add; by rewrite decide_True by done|]. eapply succeeds_reads; [apply reads_load|].
    eapply (succeeds_reads _ _ _ (en_mutation (@admitted identity m r rejected d))).
    { unfold admitted, checked_add. cbn [en_mutation]. destruct (_ && _); [by rewrite decide_True by auto | done]. }
    eapply succeeds_reads; [apply reads_check; lia|]. eapply succeeds_reads; [apply reads_load|].
    set (first := if bool_decide _ then _ else _).
    assert (F : succeeds first m tt ∧ ∃ c1 o, @quiet_with g identity image_bytes (run (first m).1 m) c1 (<[k := o]> own) ∧ o = Found d r).
    { exact Hfirst. }
    destruct F as [F (c1 & o & H1 & ->)]. eapply succeeds_bind; [exact F|]. set (m1 := run _ m) in *.
    pose proof (quiet_slot m1 c1 _ k H1 Hk) as Hc. rewrite fn_lookup_insert in Hc. pose proof (qu_sound _ _ _ H1) as S1.
    pose proof (so_cell _ _ _ S1 _ Hk) as L. rewrite Hc in L.
    eapply succeeds_reads; [apply reads_check; lia|]. eapply succeeds_reads; [by eapply reads_slot|]. fold k. rewrite Hc.
    eapply succeeds_reads; [by apply reads_lift|]. cbn iota beta. eapply succeeds_reads; [apply reads_load|].
    eapply succeeds_reads; [apply reads_reject|].
    { destruct L. cbn [k fst snd] in lv_found. rewrite lv_found by done. cbn [en_request discovered_entry].
      by rewrite !bool_decide_eq_false_2 by (by intros []). }
    do 5 apply succeeds_store. done.
  - eapply succeeds_reads; [done|]. eapply (succeeds_bind _ _ _ tt).
    { unfold Carrier_activate. eapply succeeds_reads; [apply reads_check; cbn; lia|]. do 2 apply succeeds_store.
      eapply succeeds_reads; [apply reads_check; cbn; lia|]. done. }
    eapply succeeds_reads; [done|]. eapply (succeeds_bind _ _ _ tt); [by apply succeeds_store|]. done.
Qed.

(** C21: A valid request on a descriptor that is free, at the cursor of its queue,
    or found, is admitted under the next serial and mutation. *)
Theorem admission_succeeds m own r rejected d :
  quiet m own → admissible m own r rejected d →
  let '(stores, result) := Carrier_admit_outcome g identity image_bytes r rejected m in
  result = Ok (@admitted identity m r rejected d) ∧
  quiet (run stores m) (<[(rq_queue r, rq_head r) := Owned (@admitted identity m r rejected d)]> own).
Proof.
  intros [c Hq] Ha. pose proof (admit_succeeds m c own r rejected d Hq Ha) as S. pose proof (proj1 (ad_cell _ _ _ _ _ Ha)) as K1.
  pose proof (proj2 (ad_cell _ _ _ _ _ Ha)) as K2.
  destruct (admit_always (proj2 geometry_ok) m c own r rejected Hq (proj1 K1) (proj1 K2)) as [_ Q].
  unfold succeeds in S. destruct (Carrier_admit_outcome _ _ _ _ _ m) as [t res]. cbn [fst snd] in *. subst res.
  split; [done|]. destruct Q as (d' & E & _ & _ & Q). assert (d' = d) as -> by (unfold admitted in E; congruence). done.
Qed.

(** An owned request whose publication is reached completes: the guest's cursor
    advances by one and the descriptor is free. *)
Lemma completion_succeeds m own e used :
  let k := (rq_queue (en_request e), rq_head (en_request e)) in
  quiet m own → cell k → own k = Owned e → m (QueueAt k.1 QUsed) = used →
  Entry_required_publication e ≤ m (HeaderAt HPublished) →
  let '(stores, result) := perform (Complete e used Published) m in
  result = Ok tt ∧ quiet (run stores m) (<[k := Free]> own) ∧ run stores m (GuestUsed k.1) = wrapping_add 16 used 1.
Proof.
  intros k [c Hq] Hk Ho Hu Hp. pose proof (complete_succeeds m c own e used Hq Hk Ho Hu Hp) as S.
  destruct (complete_always (proj2 geometry_ok) m c own e used Hq (proj1 (proj1 Hk)) (proj1 (proj2 Hk))) as [_ Q].
  unfold succeeds in S. cbn [perform] in *. destruct (Carrier_complete _ _ _ _ _ _ m) as [t res]. cbn [fst snd] in *. subst res.
  destruct Q as (_ & _ & _ & _ & Q & E). done.
Qed.

End Life.

(** ** A region of one queue *)

Definition demo_geometry : Geometry := {| g_queues := 1; g_queue_size := 2 |}.
Definition demo_identity : Identity := {| id_store := []; id_image := []; id_epoch := 1; id_attachment := 7 |}.
Definition demo_request : Request :=
  {| rq_kind := Read; rq_queue := 0; rq_head := 1; rq_available := 0; rq_offset := 0; rq_length := BLOCK_SIZE |}.

Abbreviation demo_perform := (perform demo_geometry demo_identity (4 * BLOCK_SIZE)).

(** Created with one mutation published, then given its queue. *)
Definition demo_created : Memory := run (Carrier_create demo_geometry demo_identity 1 (λ _, 0)).1 (λ _, 0).
Definition demo_ready : Memory := run (demo_perform (Initialize 0 0) demo_created).1 demo_created.
Definition demo_admitted : Memory := run (demo_perform (Admit demo_request false) demo_ready).1 demo_ready.
Definition demo_entry : Entry := @admitted demo_identity demo_ready demo_request false 1.

Lemma demo_geometry_ok :
  0 ≤ g_queue_size demo_geometry ∧ Geometry_new (g_queues demo_geometry) (g_queue_size demo_geometry) = Ok demo_geometry.
Proof. by vm_compute. Qed.

Lemma demo_life : life demo_geometry demo_identity (4 * BLOCK_SIZE) true demo_ready.
Proof. apply life_step; [by vm_compute|]. by apply life_create. Qed.

Lemma demo_admitted_life : life demo_geometry demo_identity (4 * BLOCK_SIZE) true demo_admitted.
Proof. apply life_step; [by vm_compute | apply demo_life]. Qed.

Lemma demo_quiet : @quiet demo_geometry demo_identity (4 * BLOCK_SIZE) demo_ready (λ _, Free).
Proof.
  destruct (@create_quiet demo_geometry demo_identity (4 * BLOCK_SIZE) (proj2 (geometry_ok _ demo_geometry_ok)) (λ _, 0) 1) as [c H]; [done..|].
  destruct (initialize_queue_always demo_created c (λ _, Free) 0 0 H) as [_ Q]; [done..|].
  assert (E : (Carrier_initialize_queue demo_geometry 0 0 (demo_created (GuestUsed 0)) demo_created).2 = Ok tt) by (vm_compute; reflexivity).
  rewrite E in Q. apply Q.
Qed.

Lemma demo_admissible : admissible demo_geometry (4 * BLOCK_SIZE) demo_ready (λ _, Free) demo_request false 1.
Proof. split; try (by vm_compute). right. split_and!; by vm_compute. Qed.

Lemma demo_admitted_quiet :
  @quiet demo_geometry demo_identity (4 * BLOCK_SIZE) demo_admitted (<[(0, 1) := Owned demo_entry]> (λ _, Free)).
Proof.
  destruct demo_quiet as [c H].
  pose proof (admit_succeeds _ _ _ demo_geometry_ok demo_ready c _ _ _ _ H demo_admissible) as S.
  destruct (admit_always (proj2 (geometry_ok _ demo_geometry_ok)) demo_ready c (λ _, Free) demo_request false H) as [_ Q]; [done..|].
  unfold succeeds in S. unfold demo_admitted. cbn [perform]. unfold mbind, op_bind.
  destruct (Carrier_admit_outcome _ _ _ _ _ demo_ready) as [t res]. cbn [fst snd] in *. subst res.
  destruct Q as (d & E & _ & _ & Q). cbn [mret op_ret fst]. rewrite app_nil_r. exact Q.
Qed.

(** The guest's memory refuses the completion. *)
Definition demo_refused : Step := Complete demo_entry 0 (Refused false (Error Other "guest memory write failed")).
Definition demo_failed : Memory := run (demo_perform demo_refused demo_admitted).1 demo_admitted.

Lemma demo_failed_mark : demo_failed (HeaderAt HFailed) = 1.
Proof. by vm_compute. Qed.

Lemma demo_failed_condemned : @condemned demo_geometry demo_identity (4 * BLOCK_SIZE) demo_failed.
Proof.
  destruct (perform_outcome _ _ _ demo_geometry_ok demo_refused demo_admitted _ ltac:(by vm_compute) demo_admitted_quiet)
    as (_ & _ & [[own Hq]|[_ [own Hm]]]); [|by eapply marked_condemned].
  apply quiet_sound, sound_healthy in Hq. fold demo_failed in Hq. by rewrite demo_failed_mark in Hq.
Qed.

Lemma demo_admit_typed : step_typed (Admit demo_request false).
Proof. by vm_compute. Qed.

Lemma demo_retire_typed : step_typed (CompleteError demo_entry 0 Published).
Proof. by vm_compute. Qed.

(** An admission; the same on the FAILED region; and the retirement there of the
    request whose completion was refused. *)
Example operations_preserve_witness :
  (demo_perform (Admit demo_request false) demo_ready).2 ≠ Panic ∧
  demo_perform (Admit demo_request false) demo_failed = ([], Err failed_error) ∧
  (demo_perform (CompleteError demo_entry 0 Published) demo_failed).2 = Ok tt ∧
  run (demo_perform (CompleteError demo_entry 0 Published) demo_failed).1 demo_failed (DescriptorAt 0 1 DInflight) = 0.
Proof.
  assert (E3 : (demo_perform (CompleteError demo_entry 0 Published) demo_failed).2 = Ok tt) by (vm_compute; reflexivity).
  destruct (demo_perform _ demo_ready) as [t1 r1] eqn:E1.
  destruct (demo_perform (Admit _ _) demo_failed) as [t2 r2] eqn:E2.
  destruct (demo_perform (CompleteError _ _ _) demo_failed) as [t3 r3] eqn:E4. cbn [fst snd] in *.
  destruct (operations_preserve demo_geometry demo_identity (4 * BLOCK_SIZE) demo_geometry_ok
    (Admit demo_request false) demo_ready t1 r1 demo_admit_typed E1) as [H1 _].
  destruct (operations_preserve demo_geometry demo_identity (4 * BLOCK_SIZE) demo_geometry_ok
    (Admit demo_request false) demo_failed t2 r2 demo_admit_typed E2) as [_ H2].
  destruct (operations_preserve demo_geometry demo_identity (4 * BLOCK_SIZE) demo_geometry_ok
    (CompleteError demo_entry 0 Published) demo_failed t3 r3 demo_retire_typed E4) as [_ H3].
  split; [apply (H1 _ demo_quiet)|].
  destruct (H2 demo_failed_condemned) as (_ & _ & G & _). destruct (G I) as [-> ->]. split; [done|]. split; [done|].
  destruct (H3 demo_failed_condemned) as (_ & _ & _ & G3). by apply (G3 demo_entry 0 Published eq_refl).
Defined.

(** The daemon dies after the fourteenth store of an admission; another fails. *)
Example region_recovers_witness :
  (∃ replay, (reconcile demo_geometry demo_identity (4 * BLOCK_SIZE) (crash 14 (demo_perform (Admit demo_request false)) demo_ready)).2 = Ok replay) ∧
  reconcile demo_geometry demo_identity (4 * BLOCK_SIZE) demo_failed = ([], Err failed_error).
Proof.
  split.
  - destruct (region_recovers demo_geometry demo_identity (4 * BLOCK_SIZE) demo_geometry_ok false
      (crash 14 (demo_perform (Admit demo_request false)) demo_ready)) as [(_ & replay & _ & H & _)|[H _]].
    + apply life_crash; [by vm_compute | done | apply demo_life].
    + by exists replay.
    + exfalso. assert (E : crash 14 (demo_perform (Admit demo_request false)) demo_ready (HeaderAt HFailed) = 0) by by vm_compute.
      by rewrite E in H.
  - destruct (region_recovers demo_geometry demo_identity (4 * BLOCK_SIZE) demo_geometry_ok true demo_failed) as [[H _]|(_ & _ & H)].
    + apply life_step; [by vm_compute | apply demo_admitted_life].
    + by rewrite demo_failed_mark in H.
    + exact H.
Defined.

Example admission_handover_witness :
  @owner demo_geometry demo_identity (4 * BLOCK_SIZE) (crash 15 (demo_perform (Admit demo_request false)) demo_ready) (0, 0) =
  @owner demo_geometry demo_identity (4 * BLOCK_SIZE) demo_ready (0, 0).
Proof.
  apply (admission_handover demo_geometry demo_identity (4 * BLOCK_SIZE) demo_geometry_ok demo_ready demo_request false 15 (0, 0));
    [apply demo_life | by vm_compute | by vm_compute | done].
Defined.

Example completion_handover_witness :
  @owner demo_geometry demo_identity (4 * BLOCK_SIZE) (crash 4 (demo_perform (Complete demo_entry 0 Published)) demo_admitted) (0, 0) =
  @owner demo_geometry demo_identity (4 * BLOCK_SIZE) demo_admitted (0, 0).
Proof.
  apply (completion_handover demo_geometry demo_identity (4 * BLOCK_SIZE) demo_geometry_ok demo_admitted demo_entry 0 Published 4 (0, 0));
    [apply demo_admitted_life | by vm_compute | by vm_compute | done].
Defined.

Example admission_succeeds_witness :
  (Carrier_admit_outcome demo_geometry demo_identity (4 * BLOCK_SIZE) demo_request false demo_ready).2 = Ok demo_entry.
Proof.
  pose proof (admission_succeeds demo_geometry demo_identity (4 * BLOCK_SIZE) demo_geometry_ok demo_ready (λ _, Free)
    demo_request false 1 demo_quiet demo_admissible) as H.
  destruct (Carrier_admit_outcome _ _ _ _ _ demo_ready) as [t res]. apply H.
Defined.
