(* ===== verification/GuestRequest.v ===== *)
(** * Guest requests

    Models [crates/cas/daemon/src/request.rs] and [decode_chain] of
    [crates/cas/daemon/src/backend.rs]: the decoder of virtio-blk requests.  A
    descriptor chain is a list of address ranges of guest memory; framing is in
    bytes, not descriptor boundaries.  The decoder's reference is [frame], which
    reads the request off the chain's bytes one by one. *)
From S2P Require Import Prelude Bytes Inflight.

(** ** Interfaces *)

(** The constants of [virtio_bindings]. *)
Class VirtioBlk := {
  VIRTIO_BLK_T_IN : Z;
  VIRTIO_BLK_T_OUT : Z;
  VIRTIO_BLK_T_FLUSH : Z;
  VIRTIO_BLK_T_GET_ID : Z;
  VIRTIO_BLK_T_DISCARD : Z;
  VIRTIO_BLK_T_WRITE_ZEROES : Z;
  VIRTIO_BLK_F_DISCARD : Z;
  VIRTIO_BLK_F_WRITE_ZEROES : Z;
}.

(** [vm_memory::GuestMemory]: [check_range] for read or write permission, and
    [read_slice], which fails or fills the slice. *)
Class GuestMemory (M : Type) := {
  check_range : M → Z → Z → bool → bool;
  read_slice : M → Z → Z → option bytes;
}.

(** Documented behaviour: a range is accessible when each of its bytes is,
    a readable range can be read, and what is read are bytes. *)
Class GuestMemoryLaws (M : Type) `{GuestMemory M} := {
  accessible : M → bool → Z → bool;
  byte_at : M → Z → Z;
  byte_at_u8 m a : fits 8 (byte_at m a);
  accessible_u64 m w a : accessible m w a = true → 0 ≤ a < 2 ^ 64;
  check_range_bytes m a n w : 0 < n → check_range m a n w = forallb (accessible m w) (seqZ a n);
  read_slice_bytes m a n : 0 < n → check_range m a n false = true → read_slice m a n = Some (byte_at m <$> seqZ a n);
}.

(** ** Data *)

Definition SECTOR_BYTES : Z := 512.
Definition CONCURRENT_QUEUE_SIZE : nat := 256.
Definition DEVICE_ID : bytes := Eval vm_compute in ascii_bytes "cas-experiment" ++ [0; 0; 0; 0; 0; 0].

Record Segment : Type := { addr : Z; len : Z; writable : bool }.

Record Completion : Type := { head : Z; status : Z }.

Record DataRequest : Type := {
  data_completion : Completion;
  data_offset : Z;
  segments : list Segment;
  data_len : Z;
}.

Record ZeroRequest : Type := {
  zero_completion : Completion;
  zero_offset : Z;
  zero_len : Z;
  zero_kind : Inflight.Kind;
}.

Inductive Request : Type :=
  | Read (data : DataRequest)
  | Write (data : DataRequest)
  | Zero (range : ZeroRequest)
  | Flush (completion : Completion)
  | GetId (completion : Completion) (id_segments : list Segment)
  | Unsupported (completion : Completion)
  | Invalid (completion : Completion).

#[global] Instance Segment_eq_dec : EqDecision Segment.
Proof. solve_decision. Defined.
#[global] Instance Completion_eq_dec : EqDecision Completion.
Proof. solve_decision. Defined.
#[global] Instance DataRequest_eq_dec : EqDecision DataRequest.
Proof. solve_decision. Defined.
#[global] Instance ZeroRequest_eq_dec : EqDecision ZeroRequest.
Proof. solve_decision. Defined.
#[global] Instance Request_eq_dec : EqDecision Request.
Proof. solve_decision. Defined.

(** [local::Kind], what an admission is for. *)
Module Local.
Inductive Kind : Type := Read (bytes : Z) | Write (bytes : Z) | Control.
End Local.

Definition nonempty (s : Segment) : bool := bool_decide (len s ≠ 0).

Definition Request_completion (r : Request) : Completion :=
  match r with
  | Read data | Write data => data_completion data
  | Zero range => zero_completion range
  | Flush completion | Unsupported completion | Invalid completion | GetId completion _ => completion
  end.

Definition Request_admission_kind (r : Request) : Local.Kind :=
  match r with
  | Read data => Local.Read (data_len data)
  | Write data => Local.Write (data_len data)
  | Zero range => if bool_decide (zero_len range ≠ 0) then Local.Write 0 else Local.Control
  | _ => Local.Control
  end.

Definition Request_inflight (r : Request) (queue available : Z) : Inflight.Request :=
  let '(kind, offset, length) :=
    match r with
    | Read data => (Inflight.Read, data_offset data, data_len data)
    | Write data => (Inflight.Write, data_offset data, data_len data)
    | Zero range => (zero_kind range, zero_offset range, zero_len range)
    | Flush _ => (Inflight.Flush, 0, 0)
    | _ => (Inflight.Protocol, 0, 0)
    end in
  {| rq_kind := kind; rq_queue := queue; rq_head := head (Request_completion r); rq_available := available;
     rq_offset := offset; rq_length := length |}.

(** ** The decoder *)

Section Decoder.
Context `{VirtioBlk} {M : Type} `{GuestMemory M}.

Definition Completion_from_descriptors (mem : M) (h : Z) (descriptors : list Segment) : option Completion :=
  l ← last (filter (λ s, nonempty s) descriptors);
  below ← checked_sub (len l) 1;
  st ← checked_add 64 (addr l) below;
  if writable l && check_range mem st 1 true then Some {| head := h; status := st |} else None.

Definition Request_negotiated (r : Request) (features : Z) : Request :=
  match r with
  | Zero range =>
      let feature := if bool_decide (zero_kind range = Inflight.Discard) then VIRTIO_BLK_F_DISCARD
                     else VIRTIO_BLK_F_WRITE_ZEROES in
      if Z.testbit features feature then r else Unsupported (zero_completion range)
  | _ => r
  end.

(** The loop that checks direction and bounds and sums the lengths. *)
Fixpoint check_segments (mem : M) (descriptors : list Segment) (writable_seen : bool) (total : Z) : result Z :=
  match descriptors with
  | [] => Ok total
  | s :: l =>
      if writable_seen && negb (writable s) then invalid "readable descriptor after writable descriptor"
      else if negb (check_range mem (addr s) (len s) (writable s)) then invalid "descriptor outside guest memory"
      else
        total' ← ok_or (Error InvalidData "length overflow") (checked_add 64 total (len s));
        check_segments mem l (writable_seen || writable s) total'
  end.

(** The loop that takes the header's 16 bytes off the front. *)
Fixpoint take_header (mem : M) (descriptors : list Segment) (copied : bytes) : result (bytes * list Segment) :=
  match descriptors with
  | [] => Ok (copied, [])
  | s :: l =>
      if bool_decide (Z.of_nat (length copied) = 16) then Ok (copied, descriptors)
      else if writable s then invalid "request header is not entirely readable"
      else
        let count := Z.min (len s) (16 - Z.of_nat (length copied)) in
        part ← ok_or (Error Other "read") (read_slice mem (addr s) count);
        let rest := len s - count in
        first ← (if bool_decide (rest ≠ 0)
                 then ok_or (Error InvalidData "address overflow") (checked_add 64 (addr s) count)
                 else Ok (addr s));
        '(header, l') ← take_header mem l (copied ++ part);
        Ok (header, {| addr := first; len := rest; writable := false |} :: l')
  end.

(** [descriptors.last_mut().unwrap().len -= 1]. *)
Fixpoint shorten_last (descriptors : list Segment) : result (list Segment) :=
  match descriptors with
  | [] => Panic
  | [s] => n ← expect (checked_sub (len s) 1); Ok [{| addr := addr s; len := n; writable := writable s |}]
  | s :: l => l' ← shorten_last l; Ok (s :: l')
  end.

(** The loop that copies the range of a zero request; the slice of [range]
    panics past its end. *)
Fixpoint read_range (mem : M) (descriptors : list Segment) (copied : bytes) : result bytes :=
  match descriptors with
  | [] => Ok copied
  | s :: l =>
      if bool_decide (16 < Z.of_nat (length copied) + len s) then Panic
      else part ← ok_or (Error Other "read") (read_slice mem (addr s) (len s)); read_range mem l (copied ++ part)
  end.

Definition zero (mem : M) (completion : Completion) (descriptors : list Segment) (kind n capacity : Z) : result Request :=
  if negb (bool_decide (n = 0) || bool_decide (n = 16)) || existsb writable descriptors
  then invalid "zero/discard requires at most one readable range"
  else
    copied ← read_range mem descriptors [];
    let range := copied ++ replicate (16 - length copied) 0 in
    let sector := le_decode (slice 0 8 range) in
    let sectors := le_decode (slice 8 4 range) in
    let flags := le_decode (slice 12 4 range) in
    if bool_decide (Z.ldiff flags 1 ≠ 0) || (bool_decide (kind = VIRTIO_BLK_T_DISCARD) && bool_decide (flags ≠ 0))
    then Ok (Unsupported completion)
    else
      offset ← ok_or (Error InvalidData "range sector overflow") (checked_mul 64 sector SECTOR_BYTES);
      let count := sectors * SECTOR_BYTES in
      if bool_decide (MAX_REQUEST_BYTES < count) || negb (is_multiple_of offset BLOCK_SIZE)
         || negb (is_multiple_of count BLOCK_SIZE)
         || is_none_or (checked_add 64 offset count) (λ last, bool_decide (capacity < last))
      then invalid "invalid zero/discard range, size or alignment"
      else Ok (Zero {| zero_completion := completion; zero_offset := offset; zero_len := count;
                       zero_kind := if bool_decide (kind = VIRTIO_BLK_T_DISCARD) then Inflight.Discard
                                    else if bool_decide (flags = 1) then Inflight.ZeroUnmap else Inflight.Zero |}).

(** The request of a decoded header and its payload. *)
Definition dispatch (mem : M) (completion : Completion) (header : bytes) (descriptors : list Segment)
    (n capacity : Z) : result Request :=
  let kind := le_decode (slice 0 4 header) in
  let sector := le_decode (slice 8 8 header) in
  if bool_decide (kind = VIRTIO_BLK_T_DISCARD) || bool_decide (kind = VIRTIO_BLK_T_WRITE_ZEROES)
  then zero mem completion descriptors kind n capacity
  else if bool_decide (kind = VIRTIO_BLK_T_IN) || bool_decide (kind = VIRTIO_BLK_T_OUT)
  then
    offset ← ok_or (Error InvalidData "sector overflow") (checked_mul 64 sector SECTOR_BYTES);
    if bool_decide (n = 0) || negb (is_multiple_of n BLOCK_SIZE) || negb (is_multiple_of offset BLOCK_SIZE)
       || is_none_or (checked_add 64 offset n) (λ last, bool_decide (capacity < last))
       || existsb (λ s, negb (Bool.eqb (writable s) (bool_decide (kind = VIRTIO_BLK_T_IN)))) descriptors
    then invalid "invalid data range, alignment, or direction"
    else
      let data := {| data_completion := completion; data_offset := offset; segments := descriptors; data_len := n |} in
      Ok (if bool_decide (kind = VIRTIO_BLK_T_IN) then Read data else Write data)
  else if bool_decide (kind = VIRTIO_BLK_T_FLUSH)
  then if bool_decide (n = 0) then Ok (Flush completion) else invalid "FLUSH has data descriptors"
  else if bool_decide (kind = VIRTIO_BLK_T_GET_ID)
  then if bool_decide (n = Z.of_nat (length DEVICE_ID)) && forallb writable descriptors
       then Ok (GetId completion descriptors) else invalid "invalid GET_ID buffer"
  else Ok (Unsupported completion).

Definition parse (mem : M) (h : Z) (descriptors : list Segment) (capacity : Z) : result Request :=
  let descriptors := filter (λ s, nonempty s) descriptors in
  completion ← ok_or (Error InvalidData "missing writable status byte") (Completion_from_descriptors mem h descriptors);
  total ← check_segments mem descriptors false 0;
  n ← ok_or (Error InvalidData "missing request header") (checked_sub total (16 + 1));
  if bool_decide (MAX_REQUEST_BYTES < n) then invalid "request exceeds size limit"
  else
    '(header, descriptors) ← take_header mem descriptors [];
    if bool_decide (Z.of_nat (length header) ≠ 16) then invalid "missing request header"
    else
      descriptors ← shorten_last descriptors;
      dispatch mem completion header (filter (λ s, nonempty s) descriptors) n capacity.

(** A descriptor of a chain, and whether the chain goes on after it.  The chain
    is what the ring's iterator yields. *)
Record Descriptor : Type := { descriptor_segment : Segment; descriptor_has_next : bool }.

Record Chain : Type := { chain_head : Z; chain_descriptors : list Descriptor }.

(** The loop that collects the descriptors. *)
Definition chain_segments (chain : Chain) : list Segment :=
  descriptor_segment <$> take CONCURRENT_QUEUE_SIZE (chain_descriptors chain).

Definition chain_has_next (chain : Chain) : bool :=
  foldl (λ _ d, descriptor_has_next d) false (take CONCURRENT_QUEUE_SIZE (chain_descriptors chain)).

(** [reservation] is the outcome of reserving the vector from the metadata budget. *)
Definition decode_chain (mem : M) (chain : Chain) (capacity : Z) (reservation : result unit) : result Request :=
  reservation;;
  if chain_has_next chain then other "unterminated or oversized descriptor chain"
  else
    let completion := Completion_from_descriptors mem (chain_head chain) (chain_segments chain) in
    match parse mem (chain_head chain) (chain_segments chain) capacity with
    | Ok request => Ok request
    | Err _ => ok_or (Error Other "malformed request without writable status") (Invalid <$> completion)
    | Panic => Panic
    end.

(** ** Every request completes on its chain *)

#[local] Ltac destruct_if := match goal with |- context [if ?c then _ else _] => destruct c eqn:? end.

Lemma zero_completion_of mem completion l kind n capacity r :
  zero mem completion l kind n capacity = Ok r → Request_completion r = completion.
Proof.
  unfold zero. destruct_if; [done|]. destruct (read_range _ _ _); cbn [mbind result_mbind result_bind]; [|done..].
  destruct_if; [by intros [= <-]|]. destruct (checked_mul _ _ _); cbn [ok_or mbind result_mbind result_bind]; [|done].
  destruct_if; [done|]. by intros [= <-].
Qed.

Lemma dispatch_completion mem completion hd l n capacity r :
  dispatch mem completion hd l n capacity = Ok r → Request_completion r = completion.
Proof.
  unfold dispatch. destruct_if; [apply zero_completion_of|]. destruct_if.
  - destruct (checked_mul _ _ _); cbn [ok_or mbind result_mbind result_bind]; [|done]. destruct_if; [done|].
    intros [= <-]. by destruct_if.
  - destruct_if; [destruct_if; [by intros [= <-]|done]|]. destruct_if; [|by intros [= <-]].
    destruct_if; [by intros [= <-]|done].
Qed.

Lemma completion_head mem h l c : Completion_from_descriptors mem h l = Some c → head c = h.
Proof.
  unfold Completion_from_descriptors. destruct (last _) as [s|]; cbn [mbind option_bind]; [|done].
  destruct (checked_sub _ _); cbn [mbind option_bind]; [|done]. destruct (checked_add _ _ _); cbn [mbind option_bind]; [|done].
  destruct_if; [by intros [= <-]|done].
Qed.

Lemma parse_head mem h l capacity r : parse mem h l capacity = Ok r → head (Request_completion r) = h.
Proof.
  unfold parse. destruct (Completion_from_descriptors _ _ _) as [c|] eqn:Ec; cbn [ok_or mbind result_mbind result_bind]; [|done].
  destruct (check_segments _ _ _ _); cbn [mbind result_mbind result_bind]; [|done..].
  destruct (checked_sub _ _); cbn [ok_or mbind result_mbind result_bind]; [|done]. destruct_if; [done|].
  destruct (take_header _ _ _) as [[hd rest]| |]; cbn [mbind result_mbind result_bind]; [|done..]. destruct_if; [done|].
  destruct (shorten_last _); cbn [mbind result_mbind result_bind]; [|done..].
  intros E%dispatch_completion. rewrite E. by apply completion_head in Ec.
Qed.

Lemma negotiated_completion r features : Request_completion (Request_negotiated r features) = Request_completion r.
Proof. destruct r; try done. cbn. by destruct_if. Qed.

Lemma decode_chain_head mem chain capacity reservation r :
  decode_chain mem chain capacity reservation = Ok r → head (Request_completion r) = chain_head chain.
Proof.
  unfold decode_chain. destruct reservation; cbn [mbind result_mbind result_bind]; [|done..]. destruct_if; [done|].
  destruct (parse _ _ _ _) as [r'|e|] eqn:Ep; [intros [= <-]; by apply parse_head in Ep| |done].
  destruct (Completion_from_descriptors _ _ _) as [c|] eqn:Ec; [|done]. intros [= <-]. by apply completion_head in Ec.
Qed.

End Decoder.

(** ** The reference *)

(** One segment per byte. *)
Definition byte_segment (w : bool) (a : Z) : Segment := {| addr := a; len := 1; writable := w |}.

Definition bytewise (descriptors : list Segment) : list Segment :=
  descriptors ≫= λ s, byte_segment (writable s) <$> seqZ (addr s) (len s).

Definition Request_bytewise (r : Request) : Request :=
  let data d := {| data_completion := data_completion d; data_offset := data_offset d;
                   segments := bytewise (segments d); data_len := data_len d |} in
  match r with
  | Read d => Read (data d)
  | Write d => Write (data d)
  | GetId completion l => GetId completion (bytewise l)
  | _ => r
  end.

(** No readable byte follows a writable one. *)
Fixpoint directed (writable_seen : bool) (bs : list Segment) : bool :=
  match bs with
  | [] => true
  | b :: bs' => (negb writable_seen || writable b) && directed (writable_seen || writable b) bs'
  end.

Section Frame.
Context `{VirtioBlk} {M : Type} `{GuestMemoryLaws M}.

Definition accessible_byte (mem : M) (b : Segment) : bool := accessible mem (writable b) (addr b).

Definition read_bytes (mem : M) (bs : list Segment) : bytes := byte_at mem ∘ addr <$> bs.

(** A request is 16 readable bytes, a payload, and a writable status byte, all
    of them accessible. *)
Definition frame (mem : M) (h : Z) (bs : list Segment) (capacity : Z) : option Request :=
  st ← last bs;
  let n := Z.of_nat (length bs) - 17 in
  if writable st && directed false bs && forallb (accessible_byte mem) bs
     && bool_decide (0 ≤ n ≤ MAX_REQUEST_BYTES) && negb (existsb writable (take 16 bs))
  then match dispatch mem {| head := h; status := addr st |} (read_bytes mem (take 16 bs))
               (drop 16 (removelast bs)) n capacity with
       | Ok r => Some r
       | _ => None
       end
  else None.

(** ** Byte lists *)

Definition sized (l : list Segment) : Prop := Forall (λ s, 0 ≤ len s) l.

Lemma bytewise_cons s l : bytewise (s :: l) = (byte_segment (writable s) <$> seqZ (addr s) (len s)) ++ bytewise l.
Proof. done. Qed.

Lemma bytewise_app l l' : bytewise (l ++ l') = bytewise l ++ bytewise l'.
Proof. apply bind_app. Qed.

Lemma bytewise_nonempty l : sized l → bytewise (filter (λ s, nonempty s) l) = bytewise l.
Proof.
  induction 1 as [|s l Hs _ IH]; [done|]. rewrite filter_cons. unfold nonempty at 1. case_decide as Hn.
  - by rewrite !bytewise_cons, IH.
  - rewrite IH, bytewise_cons, seqZ_nil; [done|]. destruct (bool_decide_reflect (len s ≠ 0)) as [|E]; [by destruct Hn|]. lia.
Qed.

Lemma bytewise_bytewise l : bytewise (bytewise l) = bytewise l.
Proof.
  assert (E : ∀ w bs, bytewise (byte_segment w <$> bs) = byte_segment w <$> bs).
  { intros w bs. induction bs as [|a bs IH]; [done|]. cbn [fmap list_fmap]. rewrite bytewise_cons. cbn [byte_segment writable addr len].
    rewrite seqZ_cons, seqZ_nil by lia. cbn. f_equal. exact IH. }
  induction l as [|s l IH]; [done|]. by rewrite bytewise_cons, bytewise_app, E, IH.
Qed.

Lemma length_bytewise_cons s l : 0 ≤ len s → Z.of_nat (length (bytewise (s :: l))) = len s + Z.of_nat (length (bytewise l)).
Proof. intros. rewrite bytewise_cons, length_app, length_fmap, length_seqZ. lia. Qed.

Lemma seqZ_last a n : 0 < n → seqZ a n = seqZ a (n - 1) ++ [a + n - 1].
Proof.
  intros. replace n with (Z.of_nat (S (Z.to_nat (n - 1)))) at 1 by lia. rewrite seqZ_S. f_equal; [f_equal; lia | f_equal; lia].
Qed.

Lemma removelast_last {A} (l : list A) x : removelast (l ++ [x]) = l.
Proof. apply removelast_last. Qed.

(** The status byte. *)
Lemma last_bytewise l s : sized l → last l = Some s → 0 < len s →
  last (bytewise l) = Some (byte_segment (writable s) (addr s + len s - 1)).
Proof.
  intros _ Hs Hl. apply last_Some in Hs as [l' ->]. rewrite bytewise_app, bytewise_cons, (seqZ_last _ (len s)) by done.
  rewrite fmap_app. cbn [bytewise mbind list_bind]. rewrite app_nil_r, app_assoc. apply last_snoc.
Qed.

Lemma completion_bytewise mem h l :
  sized l → Completion_from_descriptors mem h l =
    (st ← last (bytewise l); if writable st && accessible mem true (addr st) then Some {| head := h; status := addr st |} else None).
Proof.
  intros Hl. rewrite <- bytewise_nonempty by done. unfold Completion_from_descriptors.
  assert (Hf : sized (filter (λ s, nonempty s) l)) by (apply Forall_forall; intros s [_ Hs]%list_elem_of_filter; by apply (proj1 (Forall_forall _ _) Hl)).
  destruct (last (filter (λ s, nonempty s) l)) as [s|] eqn:E.
  - assert (Hn : 0 < len s).
    { apply last_Some_elem_of in E. apply list_elem_of_filter in E as [Hn Hs]. unfold nonempty in Hn.
      apply bool_decide_unpack in Hn. apply (proj1 (Forall_forall _ _) Hl) in Hs. lia. }
    rewrite (last_bytewise _ s Hf E Hn). cbn [mbind option_bind byte_segment writable addr].
    unfold checked_sub. rewrite decide_True by lia. cbn [mbind option_bind].
    replace (addr s + len s - 1) with (addr s + (len s - 1)) by lia. unfold checked_add. case_decide as Ho; cbn [mbind option_bind].
    + rewrite check_range_bytes by lia. rewrite seqZ_cons, seqZ_nil by lia. cbn [forallb]. by rewrite andb_true_r.
    + destruct (accessible mem true _) eqn:Ea; [|by rewrite andb_false_r]. apply accessible_u64 in Ea. lia.
  - apply last_None in E. by rewrite E.
Qed.

(** ** The loops *)

Lemma check_range_accessible mem s : 0 < len s →
  check_range mem (addr s) (len s) (writable s) = forallb (accessible_byte mem) (byte_segment (writable s) <$> seqZ (addr s) (len s)).
Proof.
  intros Hs. rewrite check_range_bytes by done. induction (seqZ (addr s) (len s)) as [|a l IH]; [done|]. cbn. by rewrite IH.
Qed.

Lemma directed_app seen bs bs' :
  directed seen (bs ++ bs') = directed seen bs && directed (seen || existsb writable bs) bs'.
Proof.
  revert seen. induction bs as [|b bs IH]; intros seen; cbn [app directed existsb]; [by rewrite orb_false_r|].
  by rewrite IH, andb_assoc, orb_assoc.
Qed.

Lemma directed_segment seen w n a : 0 < n →
  directed seen (byte_segment w <$> seqZ a n) = (negb seen || w) ∧ existsb writable (byte_segment w <$> seqZ a n) = w.
Proof.
  intros Hn. rewrite seqZ_cons by done. generalize (seqZ (Z.succ a) (Z.pred n)). intros l.
  cbn [fmap list_fmap directed existsb byte_segment writable]. destruct w; cbn [orb andb].
  - rewrite !orb_true_r. split; [|done]. cbn [andb]. induction l as [|x l IH]; [done|]. cbn. exact IH.
  - rewrite !orb_false_r. destruct seen; cbn [negb andb].
    + split; [done|]. induction l as [|x l IH]; [done|]. exact IH.
    + induction l as [|x l IH]; [done|]. exact IH.
Qed.

Lemma check_segments_spec mem l seen total :
  Forall (λ s, 0 < len s) l → 0 ≤ total < 2 ^ 64 →
  match check_segments mem l seen total with
  | Ok t => directed seen (bytewise l) = true ∧ forallb (accessible_byte mem) (bytewise l) = true ∧
      t = total + Z.of_nat (length (bytewise l))
  | Err _ => directed seen (bytewise l) = false ∨ forallb (accessible_byte mem) (bytewise l) = false ∨
      2 ^ 64 ≤ total + Z.of_nat (length (bytewise l))
  | Panic => False
  end.
Proof.
  intros Hl. revert seen total. induction Hl as [|s l Hs Hl IH]; intros seen total Ht.
  { cbn. rewrite Z.add_0_r. done. }
  rewrite bytewise_cons, directed_app, forallb_app, length_app, length_fmap, length_seqZ.
  destruct (directed_segment seen (writable s) (len s) (addr s) Hs) as [-> ->]. rewrite <- check_range_accessible by done.
  cbn [check_segments]. destruct (seen && negb (writable s)) eqn:E1.
  { unfold invalid. left. apply andb_true_iff in E1 as [-> E1]. apply negb_true_iff in E1. by rewrite E1. }
  replace (negb seen || writable s) with true by (symmetry; by destruct seen, (writable s)). cbn [andb].
  destruct (check_range mem (addr s) (len s) (writable s)); cbn [negb andb]; [|right; left; done].
  unfold checked_add. case_decide as Ho; cbn [ok_or mbind result_mbind result_bind]; [|right; right; lia].
  specialize (IH (seen || writable s) (total + len s) ltac:(lia)).
  destruct (check_segments mem l _ _) as [t|e|]; try done.
  2: { destruct IH as [?|[?|?]]; [by left|by right; left|right; right; lia]. }
  destruct IH as (? & ? & ->). split_and!; [done..|lia].
Qed.

Lemma take_header_last mem l copied hd rest s :
  take_header mem l copied = Ok (hd, rest) → last l = Some s → writable s = true → last rest = Some s.
Proof.
  revert copied hd rest. induction l as [|x l IH]; intros copied hd rest E Hl Hw; [done|]. cbn [take_header] in E.
  case_bool_decide; [by injection E as _ <-|]. destruct (writable x) eqn:Ex; [done|].
  destruct l as [|y l]; [injection Hl as ->; congruence|]. change (last (x :: y :: l)) with (last (y :: l)) in Hl.
  destruct (read_slice _ _ _); cbn [ok_or mbind result_mbind result_bind] in E; [|done].
  destruct (if bool_decide _ then _ else _); cbn [mbind result_mbind result_bind] in E; try done.
  destruct (take_header mem (y :: l) _) as [[hd' rest']| |] eqn:Et; cbn [mbind result_mbind result_bind] in E; try done.
  injection E as <- <-. specialize (IH _ _ _ Et Hl Hw). destruct rest'; [done|]. exact IH.
Qed.

Lemma seqZ_split a n k : 0 ≤ k ≤ n → seqZ a n = seqZ a k ++ seqZ (a + k) (n - k).
Proof. intros. replace n with (k + (n - k)) at 1 by lia. by rewrite seqZ_app by lia. Qed.

Lemma read_bytes_app mem bs bs' : read_bytes mem (bs ++ bs') = read_bytes mem bs ++ read_bytes mem bs'.
Proof. apply fmap_app. Qed.

Lemma read_bytes_segment mem w a n : read_bytes mem (byte_segment w <$> seqZ a n) = byte_at mem <$> seqZ a n.
Proof. unfold read_bytes. rewrite <- list_fmap_compose. done. Qed.

Lemma take_header_spec mem l copied :
  Forall (λ s, 0 < len s) l → (length copied ≤ 16)%nat → forallb (accessible_byte mem) (bytewise l) = true →
  let k := (16 - length copied)%nat in
  match take_header mem l copied with
  | Ok (hd, rest) => existsb writable (take k (bytewise l)) = false ∧ sized rest ∧
      hd = copied ++ read_bytes mem (take k (bytewise l)) ∧ bytewise rest = drop k (bytewise l)
  | Err _ => existsb writable (take k (bytewise l)) = true
  | Panic => False
  end.
Proof.
  intros Hl. revert copied. induction Hl as [|s l Hs Hl IH]; intros copied Hc Ha k.
  { cbn [take_header bytewise mbind list_bind]. rewrite take_nil, drop_nil. cbn. rewrite app_nil_r. split_and!; try done. constructor. }
  rewrite bytewise_cons, forallb_app in Ha. apply andb_true_iff in Ha as [Ha1 Ha2]. cbn [take_header].
  case_bool_decide as Hk.
  { assert (k = 0%nat) as -> by lia. rewrite take_0, drop_0. cbn. rewrite app_nil_r. split_and!; try done.
    constructor; [lia|]. eapply Forall_impl; [done|]. cbn. lia. }
  rewrite bytewise_cons. destruct (writable s) eqn:Ew.
  { rewrite (seqZ_cons (addr s)) by done. destruct k eqn:Ek; [lia|]. done. }
  set (n := Z.min (len s) (16 - Z.of_nat (length copied))). assert (Hn : 0 < n ≤ len s) by lia.
  rewrite (seqZ_split _ _ n) in Ha1 |- * by lia. rewrite fmap_app, forallb_app in *. apply andb_true_iff in Ha1 as [Ha1 Ha1'].
  assert (Hr : check_range mem (addr s) n false = true).
  { rewrite <- Ha1. apply (check_range_accessible mem {| addr := addr s; len := n; writable := false |}). cbn. lia. }
  rewrite (read_slice_bytes mem (addr s) n) by (done || lia). cbn [ok_or mbind result_mbind result_bind].
  assert (Hf : ∃ f, (if bool_decide (len s - n ≠ 0) then ok_or (Error InvalidData "address overflow") (checked_add 64 (addr s) n)
                     else Ok (addr s)) = Ok f ∧ seqZ f (len s - n) = seqZ (addr s + n) (len s - n)).
  { case_bool_decide as Hz; [|by exists (addr s); split; [|rewrite !seqZ_nil by lia]].
    exists (addr s + n). split; [|done]. unfold checked_add. rewrite decide_True; [done|].
    rewrite seqZ_cons in Ha1' by lia. cbn in Ha1'. apply andb_true_iff in Ha1' as [Hx%accessible_u64 _]. cbn [byte_segment addr] in Hx. lia. }
  destruct Hf as (f & -> & Hf). cbn [mbind result_mbind result_bind].
  set (A := byte_segment false <$> seqZ (addr s) n). set (B := byte_segment false <$> seqZ (addr s + n) (len s - n)).
  assert (HA : length A = Z.to_nat n) by (unfold A; by rewrite length_fmap, length_seqZ).
  assert (HAw : existsb writable A = false) by (apply (directed_segment false false); lia).
  specialize (IH (copied ++ (byte_at mem <$> seqZ (addr s) n))).
  rewrite length_app, length_fmap, length_seqZ in IH. specialize (IH ltac:(lia) Ha2). cbv zeta in IH.
  replace (16 - (length copied + Z.to_nat n))%nat with (k - length A)%nat in IH by lia.
  assert (HB : take (k - length A) (B ++ bytewise l) = take (k - length A) (bytewise l) ∧
    drop (k - length A) (B ++ bytewise l) = B ++ drop (k - length A) (bytewise l)).
  { destruct (decide (n = len s)) as [E|E].
    - assert (B = []) as -> by (unfold B; by rewrite seqZ_nil by lia). done.
    - replace (k - length A)%nat with 0%nat by lia. by rewrite !take_0, !drop_0. }
  rewrite <- app_assoc, take_app, drop_app. assert (HAk : (length A ≤ k)%nat) by (unfold k; lia).
  rewrite (take_ge A k), (drop_ge A k), existsb_app, HAw by done. destruct HB as [-> ->].
  destruct (take_header mem l _) as [[hd rest]|e|]; cbn [mbind result_mbind result_bind orb]; [|exact IH|done].
  destruct IH as (Hw & Hrest & -> & Hb). split_and!; [exact Hw|by constructor; [cbn; lia|]| |].
  - unfold A. by rewrite read_bytes_app, read_bytes_segment, app_assoc.
  - rewrite bytewise_cons, Hb. cbn [addr len writable]. by rewrite Hf.
Qed.

Definition positive (l : list Segment) : Prop := Forall (λ s, 0 < len s) l.

Lemma positive_sized l : positive l → sized l.
Proof. intros Hl. eapply Forall_impl; [exact Hl|]. cbn. lia. Qed.

Lemma nonempty_positive l : sized l → positive (filter (λ s, nonempty s) l).
Proof.
  intros Hl. apply Forall_forall. intros s [Hn Hs]%list_elem_of_filter. apply bool_decide_unpack in Hn.
  apply (proj1 (Forall_forall _ _) Hl) in Hs. lia.
Qed.

Lemma last_positive l s : positive l → last l = Some s → 0 < len s.
Proof. intros Hl Hs. by apply (proj1 (Forall_forall _ _) Hl), last_Some_elem_of. Qed.

Lemma shorten_last_spec l s :
  sized l → last l = Some s → 0 < len s →
  ∃ l', shorten_last l = Ok l' ∧ sized l' ∧ bytewise l' = removelast (bytewise l).
Proof.
  intros Hl. induction Hl as [|x l Hx Hl IH]; intros Hs Hn; [done|]. destruct l as [|y l].
  - injection Hs as ->. exists [{| addr := addr s; len := len s - 1; writable := writable s |}].
    split_and!; [|by repeat constructor; cbn; lia|].
    + cbn [shorten_last]. unfold checked_sub. by rewrite decide_True by lia.
    + rewrite !bytewise_cons. cbn [bytewise mbind list_bind addr len writable]. rewrite !app_nil_r, (seqZ_last _ (len s)) by lia.
      rewrite fmap_app. symmetry. apply removelast_last.
  - destruct (IH Hs Hn) as (l' & E & Hl' & Hb). exists (x :: l'). split_and!; [|by constructor|].
    + change (shorten_last (x :: y :: l)) with (l' ← shorten_last (y :: l); Ok (x :: l')). by rewrite E.
    + rewrite (bytewise_cons x l'), (bytewise_cons x (y :: l)), Hb, removelast_app; [done|].
      pose proof (last_bytewise (y :: l) s Hl Hs Hn) as Hlast. by intros Heq; rewrite Heq in Hlast.
Qed.

(** A condition on the direction alone holds of some segment if it does of some byte. *)
Lemma existsb_bytewise P l : positive l → existsb (λ s, P (writable s)) (bytewise l) = existsb (λ s, P (writable s)) l.
Proof.
  induction 1 as [|s l Hs _ IH]; [done|]. rewrite bytewise_cons, existsb_app, IH. cbn [existsb]. f_equal.
  rewrite seqZ_cons by done. cbn. induction (seqZ (Z.succ (addr s)) _) as [|a bs IHb]; [by rewrite orb_false_r|]. cbn.
  by destruct (P (writable s)).
Qed.

Lemma forallb_existsb {A} (P : A → bool) l : forallb P l = negb (existsb (λ x, negb (P x)) l).
Proof. induction l as [|x l IH]; [done|]. cbn. rewrite IH. by destruct (P x), (existsb _ l). Qed.

Lemma forallb_bytewise P l : positive l → forallb (λ s, P (writable s)) (bytewise l) = forallb (λ s, P (writable s)) l.
Proof. intros. by rewrite !forallb_existsb, (existsb_bytewise (λ w, negb (P w))). Qed.

Lemma bytewise_positive l : positive l → positive (bytewise l).
Proof.
  intros Hl. apply Forall_forall. intros b [s [Hb _]]%list_elem_of_bind. by apply list_elem_of_fmap in Hb as (a & -> & _).
Qed.

Lemma read_range_spec mem l copied :
  positive l → existsb writable l = false → forallb (accessible_byte mem) (bytewise l) = true →
  (length copied + length (bytewise l) ≤ 16)%nat →
  read_range mem l copied = Ok (copied ++ read_bytes mem (bytewise l)).
Proof.
  intros Hl. revert copied. induction Hl as [|s l Hs Hl IH]; intros copied Hw Ha Hc; [by cbn; rewrite app_nil_r|].
  cbn [existsb] in Hw. apply orb_false_iff in Hw as [Ew Hw]. rewrite bytewise_cons, forallb_app in Ha.
  apply andb_true_iff in Ha as [Ha1 Ha2]. rewrite <- check_range_accessible, Ew in Ha1 by done.
  rewrite bytewise_cons, length_app, length_fmap, length_seqZ in Hc. cbn [read_range]. rewrite bool_decide_eq_false_2 by lia.
  rewrite read_slice_bytes by done. cbn [ok_or mbind result_mbind result_bind].
  rewrite IH; [|done..|by rewrite length_app, length_fmap, length_seqZ; lia].
  by rewrite bytewise_cons, read_bytes_app, read_bytes_segment, app_assoc.
Qed.

#[local] Ltac destruct_if := match goal with |- context [if ?c then _ else _] => destruct c eqn:? end.

(** The request depends on the payload's bytes alone, not on its segments. *)
Lemma dispatch_bytewise mem completion header l n capacity :
  positive l → forallb (accessible_byte mem) (bytewise l) = true → Z.of_nat (length (bytewise l)) = n →
  dispatch mem completion header (bytewise l) n capacity =
    (r ← dispatch mem completion header l n capacity; Ok (Request_bytewise r)) ∧
  dispatch mem completion header l n capacity ≠ Panic.
Proof.
  intros Hl Ha Hn. unfold dispatch. destruct_if.
  - unfold zero. rewrite (existsb_bytewise (λ w, w)) by done.
    destruct (negb _ || existsb _ l) eqn:E; [done|]. apply orb_false_iff in E as [E1 E2].
    apply negb_false_iff, orb_true_iff in E1.
    assert (Hlen : (length ([] : bytes) + length (bytewise l) ≤ 16)%nat).
    { cbn. destruct E1 as [?%bool_decide_eq_true|?%bool_decide_eq_true]; lia. }
    rewrite (read_range_spec mem l) by done.
    rewrite (read_range_spec mem (bytewise l)); rewrite ?bytewise_bytewise, ?(existsb_bytewise (λ w, w)) by done;
      [|by apply bytewise_positive|done..].
    cbn [mbind result_mbind result_bind]. destruct_if; [done|].
    destruct (checked_mul _ _ _); cbn [ok_or mbind result_mbind result_bind]; [|done]. by destruct_if.
  - destruct_if; [destruct (checked_mul _ _ _); cbn [ok_or mbind result_mbind result_bind]; [|done]|].
    + rewrite (existsb_bytewise (λ w, negb (Bool.eqb w _))) by done. destruct_if; [done|]. by destruct_if.
    + destruct_if; [by destruct_if|]. destruct_if; [|done]. rewrite (forallb_bytewise (λ w, w)) by done. by destruct_if.
Qed.

Lemma removelast_split {A} (l : list A) x : last l = Some x → l = removelast l ++ [x].
Proof. intros [l' ->]%last_Some. by rewrite removelast_last. Qed.

Lemma drop_removelast {A} (l : list A) x k : last l = Some x → (k < length l)%nat → removelast (drop k l) = drop k (removelast l).
Proof.
  intros Hx Hk. rewrite (removelast_split l x Hx) at 1. rewrite (removelast_split l x Hx), length_app in Hk. cbn in Hk.
  rewrite drop_app_le by lia. apply removelast_last.
Qed.

(** The decoder past the direction and bounds checks. *)
Lemma take_payload mem l s :
  positive l → last l = Some s → writable s = true → forallb (accessible_byte mem) (bytewise l) = true →
  (17 ≤ length (bytewise l))%nat →
  match take_header mem l [] with
  | Ok (hd, rest) => existsb writable (take 16 (bytewise l)) = false ∧ hd = read_bytes mem (take 16 (bytewise l)) ∧
      length hd = 16%nat ∧ ∃ payload, shorten_last rest = Ok payload ∧ sized payload ∧
        bytewise payload = drop 16 (removelast (bytewise l))
  | Err _ => existsb writable (take 16 (bytewise l)) = true
  | Panic => False
  end.
Proof.
  intros Hl Hs Hw Ha Hn. pose proof (take_header_spec mem l [] Hl ltac:(cbn; lia) Ha) as Ht. cbv zeta in Ht.
  destruct (take_header mem l []) as [[hd rest]|e|] eqn:E; [|done..]. destruct Ht as (Hh & Hr & -> & Hb).
  cbn [length Nat.sub app] in *. split_and!; [done..| |].
  { unfold read_bytes. rewrite length_fmap, length_take. lia. }
  pose proof (last_positive _ _ Hl Hs) as Hpos.
  destruct (shorten_last_spec rest s Hr (take_header_last _ _ _ _ _ _ E Hs Hw) Hpos) as (p & Ep & Hp & Hpb).
  exists p. split_and!; [done..|]. rewrite Hpb, Hb. eapply drop_removelast; [|lia].
  apply last_bytewise; [by apply positive_sized|done..].
Qed.

Lemma payload_accessible mem bs k :
  forallb (accessible_byte mem) bs = true → forallb (accessible_byte mem) (drop k (removelast bs)) = true.
Proof.
  intros Ha. destruct (last bs) as [x|] eqn:Ex; [|by apply last_None in Ex as ->; destruct k].
  rewrite (removelast_split _ _ Ex), forallb_app in Ha. apply andb_true_iff in Ha as [Ha _].
  rewrite <- (take_drop k (removelast bs)), forallb_app in Ha. by apply andb_true_iff in Ha as [_ Ha].
Qed.

Lemma frame_bounds mem bs :
  directed false bs = false ∨ forallb (accessible_byte mem) bs = false ∨ 2 ^ 64 ≤ 0 + Z.of_nat (length bs) →
  directed false bs && forallb (accessible_byte mem) bs && bool_decide (0 ≤ Z.of_nat (length bs) - 17 ≤ MAX_REQUEST_BYTES) = false.
Proof.
  intros [->|[->|Hn]]; [done|by rewrite andb_false_r|]. rewrite bool_decide_eq_false_2; [by rewrite andb_false_r|].
  unfold MAX_REQUEST_BYTES. lia.
Qed.

Lemma parse_is_frame mem h descriptors capacity :
  sized descriptors →
  match parse mem h descriptors capacity with
  | Ok r => frame mem h (bytewise descriptors) capacity = Some (Request_bytewise r)
  | Err _ => frame mem h (bytewise descriptors) capacity = None
  | Panic => False
  end.
Proof.
  intros Hds. unfold parse. pose proof (nonempty_positive _ Hds) as Hl. rewrite <- (bytewise_nonempty _ Hds).
  set (l := filter (λ s, nonempty s) descriptors) in *. rewrite completion_bytewise by by apply positive_sized.
  unfold frame. destruct (last l) as [s|] eqn:Es; [|by apply last_None in Es as ->].
  pose proof (last_positive _ _ Hl Es) as Hpos. 
  rewrite (last_bytewise _ _ (positive_sized _ Hl) Es Hpos). cbn [mbind option_bind byte_segment writable addr].
  set (st := addr s + len s - 1).
  assert (Hlast : last (bytewise l) = Some (byte_segment (writable s) st)) by (apply last_bytewise; [by apply positive_sized|done..]).
  destruct (writable s) eqn:Ew; cbn [andb]; [|done].
  destruct (accessible mem true st) eqn:Est; cbn [ok_or mbind result_mbind result_bind].
  2: { rewrite (removelast_split _ _ Hlast), forallb_app. cbn [forallb]. unfold accessible_byte at 2. cbn [byte_segment writable addr].
       by rewrite Est, !andb_false_r. }
  pose proof (check_segments_spec mem l false 0 Hl ltac:(lia)) as Hc.
  destruct (check_segments mem l false 0) as [total|e|]; cbn [mbind result_mbind result_bind]; [|by rewrite frame_bounds|done].
  destruct Hc as (-> & Ha & ->). rewrite Ha. cbn [andb]. rewrite Z.add_0_l. set (n := Z.of_nat (length (bytewise l))).
  unfold checked_sub. case_decide as Hn; cbn [ok_or mbind result_mbind result_bind]; [|by rewrite bool_decide_eq_false_2 by lia].
  case_bool_decide as Hmax; [by rewrite bool_decide_eq_false_2 by lia|]. rewrite bool_decide_eq_true_2 by lia. cbn [andb].
  pose proof (take_payload mem l s Hl Es Ew Ha ltac:(lia)) as Ht.
  destruct (take_header mem l []) as [[hd rest]|e|]; cbn [mbind result_mbind result_bind]; [|by rewrite Ht|done].
  destruct Ht as (-> & -> & Hlen & p & -> & Hp & Hpb). rewrite bool_decide_eq_false_2 by lia.
  cbn [negb mbind result_mbind result_bind]. rewrite <- Hpb, <- (bytewise_nonempty _ Hp).
  destruct (dispatch_bytewise mem {| head := h; status := st |} (read_bytes mem (take 16 (bytewise l)))
    (filter (λ s, nonempty s) p) (n - (16 + 1)) capacity (nonempty_positive _ Hp)) as [E Hpanic].
  { rewrite bytewise_nonempty, Hpb by done. by apply payload_accessible. }
  { pose proof (removelast_split _ _ Hlast) as Hsplit. apply (f_equal length) in Hsplit. rewrite length_app in Hsplit. cbn in Hsplit.
    rewrite bytewise_nonempty, Hpb, length_drop by done. lia. }
  replace (n - 17) with (n - (16 + 1)) by lia. rewrite E. clear E. by destruct (dispatch _ _ _ _ _ _).
Qed.

(** The status byte of a chain, from its last byte. *)
Definition status_byte (mem : M) (h : Z) (bs : list Segment) : option Completion :=
  st ← last bs; if writable st && accessible mem true (addr st) then Some {| head := h; status := addr st |} else None.

Lemma frame_status mem h bs capacity r : frame mem h bs capacity = Some r → is_Some (status_byte mem h bs).
Proof.
  unfold frame, status_byte. destruct (last bs) as [b|] eqn:Eb; cbn [mbind option_bind]; [|done].
  destruct (writable b) eqn:Ew; cbn [andb]; [|done]. destruct (forallb _ bs) eqn:Ea; [|by rewrite andb_false_r].
  rewrite (removelast_split _ _ Eb), forallb_app in Ea. apply andb_true_iff in Ea as [_ Ea].
  cbn [forallb] in Ea. unfold accessible_byte in Ea. rewrite Ew, andb_true_r in Ea. by rewrite Ea.
Qed.

(** C13: Decoding a chain depends on its bytes alone, wherever the descriptor
    boundaries are: the result is the reference's frame of the bytes, a chain
    that does not frame is the invalid request of its status byte, and only a
    chain without a writable status byte, or one longer than the queue, is an
    error. *)
Theorem decode_chain_is_frame mem chain capacity :
  sized (chain_segments chain) →
  let bs := bytewise (chain_segments chain) in
  (r ← decode_chain mem chain capacity (Ok tt); Ok (Request_bytewise r)) =
    if chain_has_next chain then other "unterminated or oversized descriptor chain"
    else match status_byte mem (chain_head chain) bs with
         | Some completion => Ok (default (Invalid completion) (frame mem (chain_head chain) bs capacity))
         | None => other "malformed request without writable status"
         end.
Proof.
  intros Hds bs. unfold decode_chain. cbn [mbind result_mbind result_bind]. destruct (chain_has_next chain); [done|]. rewrite completion_bytewise by done.
  fold (status_byte mem (chain_head chain) (bytewise (chain_segments chain))). fold bs.
  pose proof (parse_is_frame mem (chain_head chain) _ capacity Hds) as Hp. fold bs in Hp.
  destruct (parse _ _ _ _) as [r|e|]; [|rewrite Hp; by destruct (status_byte _ _ _)|done]. rewrite Hp.
  by destruct (frame_status _ _ _ _ _ Hp) as [c ->].
Qed.

(** ** What a decoded request satisfies *)

(** The payload of a request: as many accessible bytes as its length, in its
    direction. *)
Definition payload_ok (mem : M) (w : bool) (l : list Segment) (n : Z) : Prop :=
  Z.of_nat (length (bytewise l)) = n ∧ forallb (accessible_byte mem) (bytewise l) = true ∧
  Forall (λ b, writable b = w) (bytewise l).

Definition request_ok (mem : M) (capacity : Z) (r : Request) : Prop :=
  (∀ queue available, Inflight.Request_validate (Request_inflight r queue available) capacity = Ok tt) ∧
  match r with
  | Read d => payload_ok mem true (segments d) (data_len d)
  | Write d => payload_ok mem false (segments d) (data_len d)
  | GetId _ l => payload_ok mem true l (Z.of_nat (length DEVICE_ID))
  | Zero range => 0 ≤ zero_len range ≤ MAX_REQUEST_BYTES ∧ Kind_zero (zero_kind range) = true
  | _ => True
  end.

Lemma existsb_false_Forall {A} (P : A → bool) l : existsb P l = false → Forall (λ x, P x = false) l.
Proof. induction l as [|x l IH]; [by constructor|]. cbn. intros [? ?]%orb_false_iff. constructor; auto. Qed.

Lemma existsb_directed w l : existsb (λ s, negb (Bool.eqb (writable s) w)) l = false → Forall (λ s, writable s = w) l.
Proof.
  intros Hl%existsb_false_Forall. eapply Forall_impl; [exact Hl|]. cbn. intros s Hs%negb_false_iff. by apply Bool.eqb_prop.
Qed.

Lemma Forall_bytewise w l : Forall (λ s, writable s = w) l → Forall (λ b, writable b = w) (bytewise l).
Proof.
  intros Hl. apply Forall_forall. intros b (s & Hb & Hs)%list_elem_of_bind. apply list_elem_of_fmap in Hb as (a & -> & _).
  by apply (proj1 (Forall_forall _ _) Hl) in Hs.
Qed.

Lemma guest_bytes_ok mem bs : bytes_ok (read_bytes mem bs).
Proof. apply Forall_forall. intros x (b & -> & _)%list_elem_of_fmap. apply byte_at_u8. Qed.

Lemma zero_sound mem completion l kind n capacity r :
  positive l → Z.of_nat (length (bytewise l)) = n → forallb (accessible_byte mem) (bytewise l) = true →
  zero mem completion l kind n capacity = Ok r → request_ok mem capacity r ∧ Request_completion r = completion.
Proof.
  intros Hl Hn Ha. unfold zero. destruct_if; [done|].
  apply orb_false_iff in Heqb as [E1%negb_false_iff E2]. apply orb_true_iff in E1.
  assert (Hlen : (length ([] : bytes) + length (bytewise l) ≤ 16)%nat).
  { cbn. destruct E1 as [?%bool_decide_eq_true|?%bool_decide_eq_true]; lia. }
  rewrite read_range_spec by done. cbn [mbind result_mbind result_bind app].
  set (range := read_bytes mem (bytewise l) ++ _).
  assert (Hr : 0 ≤ le_decode (slice 8 4 range)).
  { apply le_decode_range, bytes_ok_slice, bytes_ok_app. split; [apply guest_bytes_ok|by apply Forall_replicate]. }
  destruct_if; [by intros [= <-]|]. destruct (checked_mul _ _ _) as [offset|]; cbn [ok_or mbind result_mbind result_bind]; [|done].
  destruct_if; [done|]. intros [= <-]. apply orb_false_iff in Heqb0 as [[[C1 C2]%orb_false_iff C3]%orb_false_iff C4].
  apply bool_decide_eq_false in C1. split; [split|done].
  - intros queue available. unfold Request_validate, Request_inflight. cbn [rq_kind rq_offset rq_length zero_kind zero_offset zero_len].
    rewrite C2, C3, C4. by repeat case_bool_decide.
  - cbn [zero_len zero_kind]. split; [unfold SECTOR_BYTES in *; lia|by repeat case_bool_decide].
Qed.

Lemma dispatch_sound mem completion header l n capacity r :
  positive l → Z.of_nat (length (bytewise l)) = n → n ≤ MAX_REQUEST_BYTES → forallb (accessible_byte mem) (bytewise l) = true →
  dispatch mem completion header l n capacity = Ok r → request_ok mem capacity r ∧ Request_completion r = completion.
Proof.
  intros Hl Hn Hmax Ha. unfold dispatch. destruct_if; [by apply zero_sound|]. destruct_if.
  - destruct (checked_mul _ _ _) as [offset|]; cbn [ok_or mbind result_mbind result_bind]; [|done]. destruct_if; [done|].
    apply orb_false_iff in Heqb1 as [[[[C1 C2]%orb_false_iff C3]%orb_false_iff C4]%orb_false_iff C5%existsb_directed%Forall_bytewise].
    intros [= <-]. apply bool_decide_eq_false in C1.
    split; [|by destruct_if]. split; [|by case_bool_decide].
    intros queue available. unfold Request_validate, Request_inflight.
    destruct_if; cbn [rq_kind rq_offset rq_length data_offset data_len Kind_zero negb andb];
      rewrite C2, C3, C4, !bool_decide_eq_false_2 by lia; done.
  - destruct_if; [destruct_if; [by intros [= <-]|done]|]. destruct_if; [|by intros [= <-]]. destruct_if; [|done].
    intros [= <-]. apply andb_true_iff in Heqb3 as [C1%bool_decide_eq_true C2]. split; [split|done]; [done|].
    split_and!; [by rewrite Hn, C1|done|]. apply Forall_bytewise, Forall_forall. intros s Hs%list_elem_of_In. by apply (proj1 (forallb_forall _ _) C2).
Qed.

Lemma request_ok_bytewise mem capacity r : request_ok mem capacity (Request_bytewise r) ↔ request_ok mem capacity r.
Proof. destruct r; unfold request_ok, payload_ok; cbn [Request_bytewise segments data_len]; by rewrite ?bytewise_bytewise. Qed.

Lemma Request_completion_bytewise r : Request_completion (Request_bytewise r) = Request_completion r.
Proof. by destruct r. Qed.

(** A list of one-byte segments. *)
Definition units (bs : list Segment) : Prop := Forall (λ b, len b = 1) bs.

Lemma bytewise_units bs : units bs → bytewise bs = bs.
Proof.
  induction 1 as [|[a n w] bs Hb _ IH]; [done|]. cbn in Hb. subst n. rewrite bytewise_cons, IH. cbn [addr len writable].
  by rewrite seqZ_cons, seqZ_nil by lia.
Qed.

Lemma units_bytewise l : units (bytewise l).
Proof. apply Forall_forall. intros b (s & Hb & _)%list_elem_of_bind. by apply list_elem_of_fmap in Hb as (a & -> & _). Qed.

Lemma units_payload bs k : units bs → units (drop k (removelast bs)).
Proof.
  intros Hbs. apply Forall_drop. destruct (last bs) as [b|] eqn:Eb; [|by apply last_None in Eb as ->].
  unfold units in *. rewrite (removelast_split _ _ Eb), Forall_app in Hbs. by destruct Hbs.
Qed.

Lemma frame_sound mem h bs capacity r :
  units bs → frame mem h bs capacity = Some r →
  request_ok mem capacity r ∧ status_byte mem h bs = Some (Request_completion r).
Proof.
  intros Hp E. pose proof (frame_status _ _ _ _ _ E) as [c Hc]. unfold frame in E. unfold status_byte in *.
  destruct (last bs) as [b|] eqn:Eb; cbn [mbind option_bind] in *; [|done]. rewrite Hc.
  destruct (_ && _) eqn:G in E; [|done]. apply andb_true_iff in G as [[[[Gw Gd]%andb_true_iff Ga]%andb_true_iff Gn%bool_decide_eq_true]%andb_true_iff _].
  destruct (dispatch _ _ _ _ _ _) as [r'|e|] eqn:D in E; [|done..]. injection E as ->.
  pose proof (units_payload bs 16 Hp) as Hu. pose proof (bytewise_units _ Hu) as Hd.
  apply dispatch_sound in D as [D1 D2].
  - split; [done|]. rewrite D2. destruct (_ && _); [by injection Hc as <-|done].
  - eapply Forall_impl; [exact Hu|]. cbn. lia.
  - rewrite Hd, length_drop. pose proof (f_equal length (removelast_split _ _ Eb)) as Hs. rewrite length_app in Hs. cbn in Hs. lia.
  - lia.
  - rewrite Hd. by apply payload_accessible.
Qed.

Lemma parse_sound mem h descriptors capacity r :
  sized descriptors → parse mem h descriptors capacity = Ok r →
  request_ok mem capacity r ∧ status_byte mem h (bytewise descriptors) = Some (Request_completion r).
Proof.
  intros Hds E. pose proof (parse_is_frame mem h descriptors capacity Hds) as Hf. rewrite E in Hf.
  destruct (frame_sound _ _ _ _ _ (units_bytewise _) Hf) as [Hr Hc].
  by rewrite request_ok_bytewise in Hr; rewrite Request_completion_bytewise in Hc.
Qed.

Lemma negotiated_ok mem capacity r features :
  request_ok mem capacity r →
  request_ok mem capacity (Request_negotiated r features) ∧
    Request_completion (Request_negotiated r features) = Request_completion r.
Proof. intros Hr. destruct r; try done. cbn [Request_negotiated]. by destruct_if. Qed.

(** C14: A request that decodes, whether or not its operation was negotiated, is
    one the inflight region admits: its range passes the region's validation
    for the image, its payload is as many accessible bytes as its length, each
    in the request's direction, a zeroed range is bounded, and it completes on
    the chain it came with, through the chain's writable status byte. *)
Theorem decoded_request_admissible mem chain capacity features r queue available :
  sized (chain_segments chain) → decode_chain mem chain capacity (Ok tt) = Ok r →
  let r' := Request_negotiated r features in
  let entry := Request_inflight r' queue available in
  Inflight.Request_validate entry capacity = Ok tt ∧ rq_head entry = chain_head chain ∧
  request_ok mem capacity r' ∧
  status_byte mem (chain_head chain) (bytewise (chain_segments chain)) = Some (Request_completion r').
Proof.
  intros Hds E r' entry.
  assert (Hr : request_ok mem capacity r ∧
    status_byte mem (chain_head chain) (bytewise (chain_segments chain)) = Some (Request_completion r)).
  { unfold decode_chain in E. cbn [mbind result_mbind result_bind] in E. destruct (chain_has_next chain); [done|]. rewrite completion_bytewise in E by done.
    fold (status_byte mem (chain_head chain) (bytewise (chain_segments chain))) in E.
    destruct (parse _ _ _ _) as [r0|e|] eqn:Ep; [injection E as <-; by eapply parse_sound| |done].
    destruct (status_byte _ _ _) as [c|]; [by injection E as <-|done]. }
  destruct Hr as [Hr Hs]. destruct (negotiated_ok mem capacity r features Hr) as [Hr' Hc].
  fold r' in Hr', Hc. rewrite Hc. split_and!; [apply Hr'| |done..].
  transitivity (head (Request_completion r')); [by unfold entry, Request_inflight; destruct r'|]. rewrite Hc.
  unfold status_byte in Hs. destruct (last _); cbn [mbind option_bind] in Hs; [|done]. destruct (_ && _); [|done].
  by injection Hs as <-.
Qed.

End Frame.

(** ** A machine for the witnesses *)

#[local] Instance virtio_blk : VirtioBlk := {|
  VIRTIO_BLK_T_IN := 0; VIRTIO_BLK_T_OUT := 1; VIRTIO_BLK_T_FLUSH := 4; VIRTIO_BLK_T_GET_ID := 8;
  VIRTIO_BLK_T_DISCARD := 11; VIRTIO_BLK_T_WRITE_ZEROES := 13; VIRTIO_BLK_F_DISCARD := 13; VIRTIO_BLK_F_WRITE_ZEROES := 14;
|}.

(** Guest memory in one region that starts at address zero. *)
Record Region : Type := { region_bytes : bytes }.

Definition region_end (m : Region) : Z := Z.min (Z.of_nat (length (region_bytes m))) (2 ^ 64).
Definition region_byte (m : Region) (a : Z) : Z := nth (Z.to_nat a) (region_bytes m) 0 mod 256.

#[local] Instance region_memory : GuestMemory Region := {|
  check_range m a n _ := bool_decide (0 ≤ a) && bool_decide (a + n ≤ region_end m);
  read_slice m a n := if bool_decide (0 ≤ a) && bool_decide (a + n ≤ region_end m) then Some (region_byte m <$> seqZ a n) else None;
|}.

#[local] Program Instance region_laws : GuestMemoryLaws Region := {|
  accessible m _ a := bool_decide (0 ≤ a) && bool_decide (a < region_end m);
  byte_at := region_byte;
|}.
Next Obligation. intros m a. unfold fits, region_byte. apply Z.mod_pos_bound. done. Qed.
Next Obligation.
  cbn. intros m _ a [?%bool_decide_eq_true Hl%bool_decide_eq_true]%andb_true_iff. unfold region_end in Hl. lia.
Qed.
Next Obligation.
  intros m a n w Hn. cbn [check_range region_memory]. apply eq_true_iff_eq.
  rewrite andb_true_iff, !bool_decide_eq_true, forallb_forall. split.
  - intros Ha b Hb%list_elem_of_In%elem_of_seqZ. rewrite andb_true_iff, !bool_decide_eq_true. lia.
  - intros Hall.
    pose proof (Hall a) as H1. pose proof (Hall (a + n - 1)) as H2.
    rewrite <- list_elem_of_In, elem_of_seqZ, andb_true_iff, !bool_decide_eq_true in H1, H2. lia.
Qed.
Next Obligation. intros m a n Hn Hc. cbn [read_slice region_memory]. cbn [check_range region_memory] in Hc. by rewrite Hc. Qed.

(** A request of 16 header bytes, [payload] and a status byte, at address zero. *)
Definition region_request (kind sector : Z) (payload : bytes) : Region :=
  {| region_bytes := le_encode 4 kind ++ le_encode 4 0 ++ le_encode 8 sector ++ payload ++ [255] |}.

Fixpoint terminated (l : list Segment) : list Descriptor :=
  match l with
  | [] => []
  | s :: l' => {| descriptor_segment := s; descriptor_has_next := negb (bool_decide (l' = [])) |} :: terminated l'
  end.

(** A discard whose header and range are split across descriptors. *)
Definition discard_region : Region := region_request 11 0 (le_encode 8 8 ++ le_encode 4 8 ++ le_encode 4 0).
Definition discard_chain : Chain := {|
  chain_head := 3;
  chain_descriptors := terminated [{| addr := 0; len := 10; writable := false |}; {| addr := 10; len := 0; writable := false |};
    {| addr := 10; len := 9; writable := false |}; {| addr := 19; len := 13; writable := false |};
    {| addr := 32; len := 1; writable := true |}; {| addr := 99; len := 0; writable := false |}] |}.

Definition discard_request : Request :=
  Zero {| zero_completion := {| head := 3; status := 32 |}; zero_offset := 4096; zero_len := 4096; zero_kind := Inflight.Discard |}.

Lemma decode_chain_is_frame_witness :
  sized (chain_segments discard_chain) ∧
  decode_chain discard_region discard_chain 65536 (Ok tt) = Ok discard_request ∧
  frame discard_region 3 (bytewise (chain_segments discard_chain)) 65536 = Some discard_request ∧
  (r ← decode_chain discard_region discard_chain 65536 (Ok tt); Ok (Request_bytewise r)) =
    Ok (default (Invalid {| head := 3; status := 32 |})
      (frame discard_region 3 (bytewise (chain_segments discard_chain)) 65536)).
Proof.
  assert (Hs : sized (chain_segments discard_chain)) by (repeat constructor; cbn; lia).
  split_and!; [exact Hs|by vm_compute..|].
  rewrite (decode_chain_is_frame discard_region discard_chain 65536 Hs). by vm_compute.
Defined.

(** A read of one block through two descriptors. *)
Definition read_region : Region := region_request 0 8 (replicate 4096 7).
Definition read_chain : Chain := {|
  chain_head := 5;
  chain_descriptors := terminated [{| addr := 0; len := 16; writable := false |}; {| addr := 16; len := 1000; writable := true |};
    {| addr := 1016; len := 3097; writable := true |}] |}.

Definition read_request : Request :=
  Read {| data_completion := {| head := 5; status := 4112 |}; data_offset := 4096; data_len := 4096;
          segments := [{| addr := 16; len := 1000; writable := true |}; {| addr := 1016; len := 3096; writable := true |}] |}.

Lemma decoded_request_admissible_witness :
  sized (chain_segments read_chain) ∧ decode_chain read_region read_chain 65536 (Ok tt) = Ok read_request ∧
  Inflight.Request_validate (Request_inflight (Request_negotiated read_request 0) 1 9) 65536 = Ok tt.
Proof.
  assert (Hs : sized (chain_segments read_chain)) by (repeat constructor; cbn; lia).
  assert (Hd : decode_chain read_region read_chain 65536 (Ok tt) = Ok read_request) by by vm_compute.
  split_and!; [exact Hs|exact Hd|].
  exact (proj1 (decoded_request_admissible read_region read_chain 65536 0 read_request 1 9 Hs Hd)).
Defined.
