(* ===== verification/Action.v ===== *)
(** * Actions

    Operations of a component that changes its state and may fail: the code's
    [&mut self] methods that return [io::Result].  A failure keeps the state
    reached, as an early return does.  [wp] is the weakest precondition of an
    action, for the invariants of the components written with them. *)
From S2P Require Import Prelude.

Definition Act (St A : Type) : Type := St → St * result A.

#[global] Instance act_ret St : MRet (Act St) := λ A a s, (s, Ok a).

#[global] Instance act_bind St : MBind (Act St) := λ A B f c s,
  let '(s', r) := c s in
  match r with
  | Ok a => f a s'
  | Err e => (s', Err e)
  | Panic => (s', Panic)
  end.

Section Actions.
Context {St : Type}.

Definition gets {A} (f : St → A) : Act St A := λ s, (s, Ok (f s)).
Definition modify (f : St → St) : Act St unit := λ s, (f s, Ok tt).
Definition liftr {A} (r : result A) : Act St A := λ s, (s, r).
Definition when (condition : bool) (c : Act St unit) : Act St unit := if condition then c else mret tt.

(** Run a cleanup when the action fails: the guards the early return drops. *)
Definition on_error {A} (c : Act St A) (cleanup : Act St unit) : Act St A := λ s,
  let '(s', r) := c s in
  match r with
  | Ok a => (s', Ok a)
  | Err e => ((cleanup s').1, Err e)
  | Panic => (s', Panic)
  end.
End Actions.

(** An action on a part of the state. *)
Definition zoom {St Part A} (get : St → Part) (set : Part → St → St) (c : Act Part A) : Act St A := λ s,
  let '(part, r) := c (get s) in (set part s, r).

(** ** Weakest preconditions *)

Definition wp {St A} (c : Act St A) (Q : St → result A → Prop) (s : St) : Prop :=
  let '(s', r) := c s in Q s' r.

Section Rules.
Context {St : Type}.

Lemma wp_mono {A} (c : Act St A) (Q Q' : St → result A → Prop) s :
  wp c Q s → (∀ s' r, Q s' r → Q' s' r) → wp c Q' s.
Proof. unfold wp. destruct (c s). auto. Qed.

Lemma wp_and {A} (c : Act St A) (Q Q' : St → result A → Prop) s : wp c Q s → wp c Q' s → wp c (λ s' r, Q s' r ∧ Q' s' r) s.
Proof. unfold wp. by destruct (c s). Qed.

Lemma wp_elim {A} (c : Act St A) Q s s' r : wp c Q s → c s = (s', r) → Q s' r.
Proof. unfold wp. by intros H E; rewrite E in H. Qed.

Lemma wp_ret {A} (a : A) Q (s : St) : Q s (Ok a) → wp (mret a) Q s.
Proof. done. Qed.

Lemma wp_bind {A B} (c : Act St A) (f : A → Act St B) Q s :
  wp c (λ s' r, match r with Ok a => wp (f a) Q s' | Err e => Q s' (Err e) | Panic => Q s' Panic end) s →
  wp (c ≫= f) Q s.
Proof. unfold wp, mbind, act_bind. destruct (c s) as [s' [a|e|]]; auto. Qed.

Lemma wp_gets {A} (f : St → A) Q s : Q s (Ok (f s)) → wp (gets f) Q s.
Proof. done. Qed.

Lemma wp_modify f Q (s : St) : Q (f s) (Ok tt) → wp (modify f) Q s.
Proof. done. Qed.

Lemma wp_liftr {A} (r : result A) Q (s : St) : Q s r → wp (liftr r) Q s.
Proof. done. Qed.

Lemma wp_when b (c : Act St unit) Q s : (b = true → wp c Q s) → (b = false → Q s (Ok tt)) → wp (when b c) Q s.
Proof. destruct b; cbn; auto. Qed.

Lemma wp_zoom {Part A} (get : St → Part) set (c : Act Part A) Q s :
  wp c (λ part r, Q (set part s) r) (get s) → wp (zoom get set c) Q s.
Proof. unfold wp, zoom. by destruct (c (get s)). Qed.

Lemma wp_on_error {A} (c : Act St A) (cleanup : Act St unit) Q s :
  wp c (λ s' r, match r with Err e => wp cleanup (λ s'' _, Q s'' (Err e)) s' | _ => Q s' r end) s →
  wp (on_error c cleanup) Q s.
Proof. unfold wp, on_error. destruct (c s) as [s' [a|e|]]; auto. by destruct (cleanup s'). Qed.
End Rules.

(** ** What an action leaves alone *)

Section Keeps.
Context {St X : Type} (p : St → X).

Definition keeps {A} (c : Act St A) : Prop := ∀ s, wp c (λ s' _, p s' = p s) s.

Lemma keeps_bind {A B} (c : Act St A) (f : A → Act St B) : keeps c → (∀ a, keeps (f a)) → keeps (c ≫= f).
Proof.
  intros Hc Hf s. apply wp_bind. eapply wp_mono; [apply Hc|]. intros s' [a|e|] E; [|done..].
  eapply wp_mono; [apply Hf|]. cbn. by intros s'' _ ->.
Qed.

Lemma keeps_ret {A} (a : A) : keeps (mret a).
Proof. done. Qed.

Lemma keeps_gets {A} (f : St → A) : keeps (gets f).
Proof. done. Qed.

Lemma keeps_liftr {A} (r : result A) : keeps (liftr r).
Proof. done. Qed.

Lemma keeps_modify f : (∀ s, p (f s) = p s) → keeps (modify f).
Proof. done. Qed.

Lemma keeps_when b (c : Act St unit) : keeps c → keeps (when b c).
Proof. by destruct b. Qed.

Lemma keeps_zoom {Part A} (get : St → Part) set (c : Act Part A) :
  (∀ s part, p (set part s) = p s) → keeps (zoom get set c).
Proof. intros Hp s. apply wp_zoom. unfold wp. by destruct (c (get s)). Qed.

Lemma keeps_on_error {A} (c : Act St A) cleanup : keeps c → keeps cleanup → keeps (on_error c cleanup).
Proof.
  intros Hc Hd s. apply wp_on_error. eapply wp_mono; [apply Hc|]. intros s' [a|e|] E; [done| |done].
  eapply wp_mono; [apply Hd|]. cbn. by intros s'' _ ->.
Qed.

Lemma keeps_run {A} (c : Act St A) s s' r : keeps c → c s = (s', r) → p s' = p s.
Proof. intros Hc E. exact (wp_elim _ _ _ _ _ (Hc s) E). Qed.
End Keeps.

Create HintDb keeps discriminated.
#[export] Hint Resolve keeps_ret keeps_gets keeps_liftr : keeps.

(** Step through the binds and cases of an action. *)
Ltac keeps_steps :=
  repeat first
    [ solve [eauto 2 with keeps]
    | apply keeps_bind; intros
    | apply keeps_when
    | apply keeps_on_error
    | match goal with
      | |- keeps _ (match ?x with _ => _ end) => destruct x
      | |- keeps _ (let '(_, _) := ?x in _) => destruct x
      end ].

(** ** Successful runs *)

Lemma bind_run {St A B} (c : Act St A) (f : A → Act St B) s s' a : c s = (s', Ok a) → (c ≫= f) s = f a s'.
Proof. unfold mbind, act_bind. by intros ->. Qed.

Lemma bind_inv {St A B} (c : Act St A) (f : A → Act St B) s s' x :
  (c ≫= f) s = (s', Ok x) → ∃ s1 a, c s = (s1, Ok a) ∧ f a s1 = (s', Ok x).
Proof. unfold mbind, act_bind. destruct (c s) as [s1 [a|e|]]; [|done..]. intros E. by exists s1, a. Qed.
