(* ===== verification/Admission.v ===== *)
(** * Waiting at the head of a queue

    Models [QueueAdmission] of [crates/cas/daemon/src/backend/admission.rs] and
    the refusal reasons of [crates/cas/daemon/src/local/pressure.rs]: each guest
    queue has at most one request that was observed and refused; it keeps its
    ticket of the fair scheduler until it is admitted or withdrawn.  The storage
    behind it is an interface, with the tickets it has given out. *)
From S2P Require Import Prelude Bytes GuestRequest Action.

(** ** Interface *)

(** [pressure::Reason]. *)
Module Pressure.
Inductive Reason : Type :=
  | HostAdmission | RequestCredits | ReadCredits | ReadOwnerAllocation | Staging
  | Physical | WalRotation | WalIndex | AppendCredits.

(** [as usize]. *)
Definition Reason_index (r : Reason) : Z :=
  match r with
  | HostAdmission => 0 | RequestCredits => 1 | ReadCredits => 2 | ReadOwnerAllocation => 3 | Staging => 4
  | Physical => 5 | WalRotation => 6 | WalIndex => 7 | AppendCredits => 8
  end.

Definition ALL : list Reason :=
  [HostAdmission; RequestCredits; ReadCredits; ReadOwnerAllocation; Staging; Physical; WalRotation; WalIndex; AppendCredits].

Inductive Decision (A : Type) : Type := Ready (a : A) | Waiting (reason : Reason).
Arguments Ready {_}.
Arguments Waiting {_}.
End Pressure.

(** A permit of the local storage, with the release of its turn, or of a
    reference backend. *)
Inductive Permit (C R : Type) : Type :=
  | Permit_Local (credits : C) (fair_release : option R)
  | Permit_Reference.
Arguments Permit_Local {_ _}.
Arguments Permit_Reference {_ _}.

(** [Storage] as admission uses it, with the clock.  [T] are tickets, [C]
    credits and [R] releases; a ticket's turn is one of a time. *)
Class Storage (Sto T C R : Type) := {
  now : Sto → Z;
  admission_ticket : Local.Kind → Act Sto (option T);
  Ticket_turn : T → Act Sto bool;
  Turn_commit : T → Sto → Sto * R;
  Turn_drop : T → Sto → Sto;
  Ticket_drop : T → Sto → Sto;
  prepare : Local.Kind → Act Sto (Pressure.Decision (Permit C R));
}.

(** The tickets that are alive: made by [admission_ticket], ended by
    [Ticket_drop]. *)
Class StorageLaws (Sto T C R : Type) `{Storage Sto T C R} := {
  tickets : Sto → list T;
  admission_ticket_tickets kind s :
    let '(s', r) := admission_ticket kind s in
    tickets s' ≡ₚ (match r with Ok (Some t) => [t] | _ => [] end) ++ tickets s;
  Ticket_turn_tickets t s : tickets (Ticket_turn t s).1 ≡ₚ tickets s;
  Turn_commit_tickets t s : tickets (Turn_commit t s).1 ≡ₚ tickets s;
  Turn_drop_tickets t s : tickets (Turn_drop t s) ≡ₚ tickets s;
  Ticket_drop_tickets t s rest : tickets s ≡ₚ t :: rest → tickets (Ticket_drop t s) ≡ₚ rest;
  prepare_tickets kind s : tickets (prepare kind s).1 ≡ₚ tickets s;
}.

(** ** Data *)

Inductive Reason : Type := Fairness | Pending | Storage_reason (reason : Pressure.Reason).

Record Waiting (T : Type) : Type := {
  w_head : Z;
  w_available : Z;
  w_started : Z;
  w_reason : option Reason;
  w_attempts : Z;
  w_ticket : option T;
}.
Arguments w_head {_}.
Arguments w_available {_}.
Arguments w_started {_}.
Arguments w_reason {_}.
Arguments w_attempts {_}.
Arguments w_ticket {_}.

Inductive Admission (C R : Type) : Type := Admission_Waiting | Accepted (permit : Permit C R).
Arguments Admission_Waiting {_ _}.
Arguments Accepted {_ _}.

Record Statistics : Type := {
  started : Z;
  resumed : Z;
  canceled : Z;
  finished_wait_ns : Z;
  max_finished_wait_ns : Z;
}.

Record QueueAdmission (T : Type) : Type := { heads : list (option (Waiting T)); statistics : Statistics }.
Arguments heads {_}.
Arguments statistics {_}.

Definition CONCURRENT_QUEUES : nat := 4.
Definition SCHEDULER_REASONS : Z := 2.

Definition QueueAdmission_default (T : Type) : QueueAdmission T := {|
  heads := replicate CONCURRENT_QUEUES None;
  statistics := {| started := 0; resumed := 0; canceled := 0; finished_wait_ns := 0; max_finished_wait_ns := 0 |};
|}.

(** [vhost_user_backend::StateChange]. *)
Inductive StateChange : Type :=
  | Change_Attachment
  | Change_Memory
  | Change_Features
  | Change_QueueConfiguration (index : Z)
  | Change_QueueNotification (index : Z)
  | Change_QueueEnable (index : Z) (enabled : bool)
  | Change_QueueStop (index : Z)
  | Change_Reset.

(** ** Operations *)

Section Operations.
Context {Sto T C R : Type} `{Storage Sto T C R}.

(** [&mut self] and [&mut storage]. *)
Abbreviation State := (QueueAdmission T * Sto)%type.

Definition set_heads (f : list (option (Waiting T)) → list (option (Waiting T))) : Act State unit :=
  modify (λ '(q, s), ({| heads := f (heads q); statistics := statistics q |}, s)).

Definition set_statistics (f : Statistics → Statistics) : Act State unit :=
  modify (λ '(q, s), ({| heads := heads q; statistics := f (statistics q) |}, s)).

(** [self.heads[usize::from(queue)]]. *)
Definition slot (queue : Z) : Act State (option (Waiting T)) := λ st,
  (st, expect (heads st.1 !! Z.to_nat queue)).

Definition set_slot (queue : Z) (w : option (Waiting T)) : Act State unit := set_heads <[Z.to_nat queue := w]>.

Definition storage_op {A} (c : Act Sto A) : Act State A := zoom snd (λ s st, (st.1, s)) c.
Definition storage_do (f : Sto → Sto) : Act State unit := storage_op (modify f).
Definition clock : Act State Z := gets (λ st, now st.2).

Definition add_finished (wait : Z) (was_resumed : bool) (st : Statistics) : Statistics := {|
  started := started st;
  resumed := resumed st + (if was_resumed then 1 else 0);
  canceled := canceled st + (if was_resumed then 0 else 1);
  finished_wait_ns := finished_wait_ns st + wait;
  max_finished_wait_ns := Z.max (max_finished_wait_ns st) wait;
|}.

Definition add_started (st : Statistics) : Statistics := {|
  started := started st + 1; resumed := resumed st; canceled := canceled st;
  finished_wait_ns := finished_wait_ns st; max_finished_wait_ns := max_finished_wait_ns st |}.

Definition drop_ticket (ticket : option T) : Act State unit :=
  match ticket with Some t => storage_do (Ticket_drop t) | None => mret tt end.

(** The waiting request is dropped at the end, and its ticket with it. *)
Definition finish_wait (queue : Z) (was_resumed : bool) : Act State unit :=
  taken ← slot queue;
  set_slot queue None;;
  match taken with
  | None => mret tt
  | Some waiting =>
      when (bool_decide (is_Some (w_reason waiting)))
        (t ← clock;
         set_statistics (add_finished (Z.min (t - w_started waiting) u64_max) was_resumed));;
      drop_ticket (w_ticket waiting)
  end.

Definition cancel_matching (queue available head : Z) : Act State unit :=
  old ← slot queue;
  when (is_some_and old (λ w, bool_decide (w_available w = available) && bool_decide (w_head w = head)))
    (finish_wait queue false).

Definition reason_index (queue : Z) : Act State Z :=
  waiting ← slot queue;
  match waiting ≫= w_reason with
  | Some Fairness => mret 0
  | Some Pending => mret 1
  | Some (Storage_reason reason) => mret (SCHEDULER_REASONS + Pressure.Reason_index reason)
  | None => liftr Panic
  end.

Definition record_wait (queue : Z) (reason : Reason) (t : Z) : Act State unit :=
  waiting ← slot queue;
  match waiting with
  | None => mret tt
  | Some w =>
      let first := negb (bool_decide (is_Some (w_reason w))) in
      when first (set_statistics add_started);;
      set_slot queue (Some {| w_head := w_head w; w_available := w_available w;
        w_started := if first then t else w_started w;
        w_reason := Some reason; w_attempts := w_attempts w; w_ticket := w_ticket w |})
  end.

(** The first part of [prepare_admission]: another head than the one that waited
    withdraws it, *)
Definition withdraw_other (queue head available : Z) : Act State unit :=
  old ← slot queue;
  when (is_some_and old (λ w, bool_decide (w_head w ≠ head) || bool_decide (w_available w ≠ available)))
    (finish_wait queue false).

(** a head that is seen for the first time gets its ticket, *)
Definition enter_head (queue head available : Z) (kind : Local.Kind) (concurrent : bool) (t : Z) : Act State unit :=
  waiting ← slot queue;
  when (concurrent && negb (bool_decide (is_Some waiting)))
    (ticket ← storage_op (admission_ticket kind);
     set_slot queue (Some {| w_head := head; w_available := available; w_started := t; w_reason := None;
                             w_attempts := 0; w_ticket := ticket |})).

(** and the attempt is counted. *)
Definition count_attempt (queue : Z) : Act State unit :=
  waiting ← slot queue;
  match waiting with
  | None => mret tt
  | Some w => set_slot queue (Some {| w_head := w_head w; w_available := w_available w; w_started := w_started w;
                w_reason := w_reason w; w_attempts := w_attempts w + 1; w_ticket := w_ticket w |})
  end.

(** [turn.commit()] is stored in the credits of the permit. *)
Definition commit_turn (turn : option T) (permit : Permit C R) : Act State (Permit C R) :=
  match turn with
  | None => mret permit
  | Some t =>
      match permit with
      | Permit_Local credits _ =>
          release ← storage_op (λ s, let '(s', r) := Turn_commit t s in (s', Ok r));
          mret (Permit_Local credits (Some release))
      | Permit_Reference => liftr Panic
      end
  end.

Definition drop_turn (turn : option T) : Act State unit :=
  match turn with Some t => storage_do (Turn_drop t) | None => mret tt end.

(** With the turn, or without a scheduler. *)
Definition admit_turn (queue : Z) (request : Request) (turn : option T) (pending_full : bool) (t : Z) : Act State (Admission C R) :=
  if pending_full then
    drop_turn turn;; record_wait queue Pending t;; mret Admission_Waiting
  else
    decision ← on_error (storage_op (prepare (Request_admission_kind request))) (drop_turn turn);
    match decision with
    | Pressure.Ready permit => permit ← commit_turn turn permit; mret (Accepted permit)
    | Pressure.Waiting reason => drop_turn turn;; record_wait queue (Storage_reason reason) t;; mret Admission_Waiting
    end.

Definition prepare_admission (queue available : Z) (request : Request) (concurrent pending_full : bool) :
    Act State (Admission C R) :=
  t ← clock;
  let head := head (Request_completion request) in
  withdraw_other queue head available;;
  enter_head queue head available (Request_admission_kind request) concurrent t;;
  count_attempt queue;;
  waiting ← slot queue;
  match waiting ≫= w_ticket with
  | Some ticket =>
      granted ← storage_op (Ticket_turn ticket);
      if (granted : bool) then admit_turn queue request (Some ticket) pending_full t
      else record_wait queue Fairness t;; mret Admission_Waiting
  | None => admit_turn queue request None pending_full t
  end.

(** 100 ms. *)
Definition RETRY_INTERVAL : Z := 100000000.

Definition retry_at : Act State (option Z) := gets (λ '(q, s),
  if existsb (λ h, is_some_and h (λ w, bool_decide (is_Some (w_reason w)))) (heads q)
  then Some (now s + RETRY_INTERVAL) else None).

(** [for queue in 0..n { self.finish_wait(queue, false) }]. *)
Fixpoint finish_all (n : nat) : Act State unit :=
  match n with
  | O => mret tt
  | S m => finish_all m;; finish_wait (Z.of_nat m) false
  end.

Definition cancel_all : Act State unit := n ← gets (λ st, length (heads st.1)); finish_all n.

Definition changed (change : StateChange) : Act State unit :=
  match change with
  | Change_Memory | Change_Reset | Change_Attachment => cancel_all
  | Change_QueueConfiguration index | Change_QueueStop index | Change_QueueEnable index false => finish_wait (index mod 2 ^ 16) false
  | _ => mret tt
  end.

End Operations.

(** ** The heads stay as many *)

Section Size.
Context {Sto T C R : Type} `{Storage Sto T C R}.

Abbreviation State := (QueueAdmission T * Sto)%type.
Abbreviation size := (λ st : State, length (heads st.1)).

Lemma size_slot queue : keeps size (slot queue).
Proof. done. Qed.

Lemma size_set_slot queue w : keeps size (set_slot queue w).
Proof. intros [q s]. cbn. by rewrite length_insert. Qed.

Lemma size_set_statistics f : keeps size (set_statistics f).
Proof. by intros [q s]. Qed.

Lemma size_storage_op {A} (c : Act Sto A) : keeps size (storage_op c).
Proof. by apply keeps_zoom. Qed.

#[local] Hint Resolve size_slot size_set_slot size_set_statistics size_storage_op : keeps.

Lemma size_finish_wait queue r : keeps size (finish_wait queue r).
Proof. unfold finish_wait, drop_ticket, storage_do, clock. keeps_steps. Qed.

#[local] Hint Resolve size_finish_wait : keeps.

Lemma size_prepare_admission queue available request concurrent full :
  keeps size (prepare_admission queue available request concurrent full).
Proof.
  unfold prepare_admission, withdraw_other, enter_head, count_attempt, admit_turn, commit_turn, drop_turn, record_wait,
    storage_do, clock.
  keeps_steps.
Qed.

(** Ending a wait fails on no queue the device has. *)
Lemma finish_wait_run queue r (st : State) :
  (Z.to_nat queue < length (heads st.1))%nat → ∃ st', finish_wait queue r st = (st', Ok tt).
Proof.
  intros [h Hh]%lookup_lt_is_Some. unfold finish_wait. unfold mbind, act_bind, slot. rewrite Hh. cbn. destruct st as [q s]. cbn.
  destruct h as [w|]; [|by eexists]. cbn. destruct (bool_decide _); destruct (w_ticket w); by eexists.
Qed.

End Size.

(** ** The account *)

Section Account.
Context {Sto T C R : Type} `{StorageLaws Sto T C R}.

Abbreviation State := (QueueAdmission T * Sto)%type.

Definition waits (h : option (Waiting T)) : bool := is_some_and h (λ w, bool_decide (is_Some (w_reason w))).
Definition ticket_of (h : option (Waiting T)) : list T := option_list (h ≫= w_ticket).

Definition waiting_heads (l : list (option (Waiting T))) : Z := Z.of_nat (length (filter (λ h, waits h) l)).
Definition held (l : list (option (Waiting T))) : list T := l ≫= ticket_of.

(** Every wait that started was resumed, was canceled, or goes on; and the live
    tickets are those of the waiting heads and the [others]. *)
Record accounted (others : list T) (st : State) : Prop := {
  ac_length : length (heads st.1) = CONCURRENT_QUEUES;
  ac_waits : started (statistics st.1) =
    resumed (statistics st.1) + canceled (statistics st.1) + waiting_heads (heads st.1);
  ac_tickets : tickets st.2 ≡ₚ held (heads st.1) ++ others;
}.

#[local] Instance waiting_heads_proper : Proper ((≡ₚ) ==> eq) waiting_heads.
Proof. intros l l' E. unfold waiting_heads. by rewrite E. Qed.

#[local] Instance held_proper : Proper ((≡ₚ) ==> (≡ₚ)) held.
Proof. intros l l' E. unfold held. by rewrite E. Qed.

Lemma insert_split {A} (l : list A) i x :
  l !! i = Some x → ∃ rest, l ≡ₚ x :: rest ∧ ∀ y, <[i := y]> l ≡ₚ y :: rest.
Proof.
  intros Hx. exists (take i l ++ drop (S i) l). split.
  - transitivity (take i l ++ x :: drop (S i) l); [by rewrite take_drop_middle|by rewrite Permutation_middle].
  - intros y. rewrite insert_take_drop by by eapply lookup_lt_Some. by rewrite Permutation_middle.
Qed.

Lemma waiting_heads_cons h l : waiting_heads (h :: l) = (if waits h then 1 else 0) + waiting_heads l.
Proof. unfold waiting_heads. rewrite filter_cons. destruct (waits h); case_decide; cbn [length]; try done; lia. Qed.

(** Replacing a head moves the account by the difference. *)
Lemma replace_head l i old new :
  l !! i = Some old →
  waiting_heads (<[i := new]> l) = waiting_heads l - (if waits old then 1 else 0) + (if waits new then 1 else 0) ∧
  (∀ others, held l ++ others ≡ₚ ticket_of old ++ (held (<[i := None]> l) ++ others)) ∧
  (∀ others, held (<[i := new]> l) ++ others ≡ₚ ticket_of new ++ (held (<[i := None]> l) ++ others)).
Proof.
  intros (rest & El & Ey)%insert_split.
  assert (Hc : ∀ h, held (h :: rest) = ticket_of h ++ held rest) by done. split_and!.
  - rewrite (Ey new), El, !waiting_heads_cons. lia.
  - intros others. rewrite (Ey None), El, !Hc. by rewrite <- app_assoc.
  - intros others. rewrite (Ey None), (Ey new), !Hc. by rewrite <- app_assoc.
Qed.

Lemma drop_ticket_wp ticket others st Q :
  tickets st.2 ≡ₚ option_list ticket ++ others →
  (∀ s', tickets s' ≡ₚ others → Q (st.1, s') (Ok tt)) → wp (drop_ticket ticket) Q st.
Proof.
  destruct ticket as [t|]; cbn; intros Ht HQ.
  - apply HQ. by apply Ticket_drop_tickets.
  - destruct st. by apply HQ.
Qed.

Lemma slot_wp queue Q (st : State) :
  (∀ h, heads st.1 !! Z.to_nat queue = Some h → Q st (Ok h)) →
  (heads st.1 !! Z.to_nat queue = None → Q st Panic) → wp (slot queue) Q st.
Proof. unfold wp, slot. destruct (heads st.1 !! _); cbn; auto. Qed.

(** The actions here fail only where the storage does, or on a queue the
    device does not have. *)
Definition in_range (queue : Z) : Prop := (Z.to_nat queue < CONCURRENT_QUEUES)%nat.

Lemma finish_wait_ok queue b others st :
  accounted others st → wp (finish_wait queue b) (λ st' r, accounted others st' ∧
    match r with
    | Ok _ => heads st'.1 = <[Z.to_nat queue := None]> (heads st.1)
    | Err _ => False
    | Panic => ¬ in_range queue
    end) st.
Proof.
  intros [Hl Hw Ht]. apply wp_bind, slot_wp; cbn iota beta.
  2: { intros Hn%lookup_ge_None. split; [done|]. unfold in_range. lia. }
  intros h Hh. destruct (replace_head _ _ h None Hh) as (E1 & E2 & E3). specialize (E2 others).
  destruct st as [q s]. cbn [fst snd] in *. apply wp_bind, wp_modify. cbn iota beta.
  destruct h as [w|]; cbn iota beta.
  - apply wp_bind, wp_when.
    + intros Hr. apply wp_bind, wp_gets. cbn iota beta. apply wp_modify. cbn iota beta.
      eapply drop_ticket_wp; [cbn; rewrite Ht, E2; done|]. intros s' Hs'. cbn. split; [|done]. split; cbn.
      * by rewrite length_insert.
      * rewrite E1. cbn. rewrite Hr, Hw. destruct b; lia.
      * done.
    + intros Hr. eapply drop_ticket_wp; [cbn; rewrite Ht, E2; done|]. intros s' Hs'. cbn. split; [|done]. split; cbn.
      * by rewrite length_insert.
      * rewrite E1. cbn. rewrite Hr, Hw. lia.
      * done.
  - apply wp_ret. cbn. split; [|done]. split; cbn; [by rewrite length_insert|rewrite E1, Hw; cbn; lia|]. by rewrite Ht, E2.
Qed.

Lemma accounted_lookup others st queue :
  accounted others st → in_range queue → ∃ h, heads st.1 !! Z.to_nat queue = Some h.
Proof. intros Ha Hq. apply lookup_lt_is_Some. by rewrite (ac_length _ _ Ha). Qed.

(** Replacing a head by one that waits as much, and has the new ticket if there
    is one more. *)
Lemma set_slot_ok queue old new extra others st :
  accounted (extra ++ others) st → heads st.1 !! Z.to_nat queue = Some old →
  waits new = waits old → ticket_of new ≡ₚ extra ++ ticket_of old →
  wp (set_slot queue new) (λ st' r, r = Ok tt ∧ accounted others st' ∧
    heads st'.1 = <[Z.to_nat queue := new]> (heads st.1) ∧ st'.2 = st.2) st.
Proof.
  intros [Hl Hw Ht] Ho En Et. destruct st as [q s]. apply wp_modify. split; [done|]. cbn [fst snd] in *.
  destruct (replace_head _ _ _ new Ho) as (E1 & E2 & E3). split; [|done]. split; cbn.
  - by rewrite length_insert.
  - rewrite E1, Hw, En. lia.
  - rewrite Ht, E2, E3, Et. by solve_Permutation.
Qed.

(** The request at the head of [queue] waits for [reason]. *)
Definition waiting_for (queue : Z) (st : State) (head available : Z) (reason : option Reason) : Prop :=
  ∃ w, heads st.1 !! Z.to_nat queue = Some (Some w) ∧ w_head w = head ∧ w_available w = available ∧
    match reason with Some r => w_reason w = Some r | None => True end.

Lemma lookup_set queue new (old st : State) :
  in_range queue → length (heads old.1) = CONCURRENT_QUEUES → heads st.1 = <[Z.to_nat queue := new]> (heads old.1) →
  heads st.1 !! Z.to_nat queue = Some new.
Proof. intros Hq Hl ->. apply list_lookup_insert_eq. by rewrite Hl. Qed.

Lemma record_wait_ok queue reason t others st :
  accounted others st → in_range queue →
  wp (record_wait queue reason t) (λ st' r, r = Ok tt ∧ accounted others st' ∧
    ∀ head available, waiting_for queue st head available None → waiting_for queue st' head available (Some reason)) st.
Proof.
  intros Ha Hq. destruct (accounted_lookup _ _ _ Ha Hq) as [h Hh]. apply wp_bind, slot_wp; [|congruence].
  intros h' Hh'. assert (h' = h) as -> by congruence. destruct h as [w|].
  2: { apply wp_ret. split_and!; [done..|]. intros head available (w & E & _). congruence. }
  apply wp_bind.
  set (w' := {| w_head := w_head w; w_available := w_available w; w_started := _; w_reason := _; w_attempts := _; w_ticket := _ |}).
  assert (Hs : ∀ st' : State, heads st'.1 = <[Z.to_nat queue := Some w']> (heads st.1) →
    ∀ head available, waiting_for queue st head available None → waiting_for queue st' head available (Some reason)).
  { intros st' E head available (w0 & E0 & E1 & E2 & _). exists w'. split_and!; [eapply lookup_set; [done|apply Ha|done]|..]; try done.
    - by assert (w0 = w) as <- by congruence.
    - by assert (w0 = w) as <- by congruence. }
  apply wp_when; intros Hf.
  - destruct st as [q s]. apply wp_modify. cbn iota beta. apply wp_modify. split; [done|].
    split; [|by apply Hs]. destruct Ha as [Hl Hw Ht]. cbn [fst snd] in *. destruct (replace_head _ _ _ (Some w') Hh) as (E1 & E2 & E3).
    apply negb_true_iff in Hf. split; cbn.
    + by rewrite length_insert.
    + rewrite E1. cbn. rewrite Hf, Hw. cbn. lia.
    + by rewrite Ht, E2, E3.
  - apply negb_false_iff in Hf. eapply wp_mono; [apply (set_slot_ok queue (Some w) (Some w') [] others); try done; cbn; by rewrite Hf|].
    cbn. intros st' r (-> & Hst' & E & _). split_and!; [done..|]. by apply Hs.
Qed.

Lemma storage_op_ok {A} (c : Act Sto A) extra others st :
  accounted others st → tickets (c st.2).1 ≡ₚ extra ++ tickets st.2 →
  wp (storage_op c) (λ st' r, accounted (extra ++ others) st' ∧ st'.1 = st.1 ∧ r = (c st.2).2) st.
Proof.
  intros [Hl Hw Ht] Hc. apply wp_zoom. unfold wp. destruct (c st.2) as [s' r] eqn:E. cbn [fst snd] in *.
  split_and!; [|done..]. split; cbn; [done..|]. rewrite Hc, Ht. by solve_Permutation.
Qed.

Lemma drop_turn_ok turn others st :
  accounted others st → wp (drop_turn turn) (λ st' r, r = Ok tt ∧ accounted others st' ∧ st'.1 = st.1) st.
Proof.
  intros Ha. destruct turn as [t|]; [|by apply wp_ret].
  eapply wp_mono; [apply (storage_op_ok _ [] others); [done|apply Turn_drop_tickets]|]. by intros st' r (? & ? & ->).
Qed.

Lemma commit_turn_ok turn permit others st :
  accounted others st → wp (commit_turn turn permit) (λ st' r, accounted others st' ∧ st'.1 = st.1 ∧
    (turn = None → r = Ok permit)) st.
Proof.
  intros Ha. destruct turn as [t|]; [|by apply wp_ret]. destruct permit as [credits fr|]; [|by apply wp_liftr].
  apply wp_bind. eapply wp_mono; [apply (storage_op_ok _ [] others); [done|]|].
  - destruct (Turn_commit t st.2) as [s' r] eqn:E. cbn. pose proof (Turn_commit_tickets t st.2) as Ht. by rewrite E in Ht.
  - intros st' r (Ha' & E & ->). destruct (Turn_commit t st.2). done.
Qed.

Lemma waiting_for_st queue (st st' : State) head available reason :
  st'.1 = st.1 → waiting_for queue st head available reason → waiting_for queue st' head available reason.
Proof. unfold waiting_for. by intros ->. Qed.

(** What an admission leaves: a refused head waits for a reason. *)
Definition admission_post (queue head available : Z) (others : list T) (concurrent : bool) (st' : State) (r : result (Admission C R)) : Prop :=
  accounted others st' ∧
  (concurrent = true →
    match r with
    | Ok Admission_Waiting => ∃ reason, waiting_for queue st' head available (Some reason)
    | Ok (Accepted _) => waiting_for queue st' head available None
    | _ => True
    end).

Lemma refused_ok queue head available concurrent turn reason t others st :
  accounted others st → in_range queue → (concurrent = true → waiting_for queue st head available None) →
  wp (drop_turn turn;; record_wait queue reason t;; mret Admission_Waiting)
    (admission_post queue head available others concurrent) st.
Proof.
  intros Ha Hq Hw. apply wp_bind. eapply wp_mono; [by apply drop_turn_ok|]. cbn iota beta. intros st1 r1 (-> & Ha1 & E1).
  apply wp_bind. eapply wp_mono; [by apply record_wait_ok|]. cbn iota beta. intros st2 r2 (-> & Ha2 & Hw2).
  apply wp_ret. split; [done|]. intros Hc. exists reason. apply Hw2, (waiting_for_st _ st); [done|by apply Hw].
Qed.

Lemma admit_turn_ok queue available request turn pending_full t concurrent others st :
  accounted others st → in_range queue →
  let h := head (Request_completion request) in
  (concurrent = true → waiting_for queue st h available None) →
  wp (admit_turn queue request turn pending_full t) (admission_post queue h available others concurrent) st.
Proof.
  intros Ha Hq h Hw. unfold admit_turn. destruct pending_full; [by apply refused_ok|].
  apply wp_bind, wp_on_error. eapply wp_mono; [apply (storage_op_ok _ [] others); [done|apply prepare_tickets]|]. cbn iota beta.
  intros st1 r1 (Ha1 & E1 & Hr1). assert (Hw1 : concurrent = true → waiting_for queue st1 h available None).
  { intros Hc. apply (waiting_for_st _ st); [done|by apply Hw]. }
  destruct r1 as [[permit|reason]|e|].
  - apply wp_bind. eapply wp_mono; [by apply (commit_turn_ok _ _ others)|]. cbn iota beta. intros st2 r2 (Ha2 & E2 & _).
    destruct r2 as [p|e|]; [apply wp_ret|by split..]. split; [done|]. intros Hc. apply (waiting_for_st _ st1); [done|by apply Hw1].
  - by apply refused_ok.
  - eapply wp_mono; [by apply (drop_turn_ok _ others)|]. cbn iota beta. intros st2 r2 (-> & Ha2 & E2). by split.
  - by split.
Qed.

(** Nothing waits on the queue but perhaps this head. *)
Definition only_head (queue head available : Z) (st : State) : Prop :=
  ∃ h, heads st.1 !! Z.to_nat queue = Some h ∧ ∀ w, h = Some w → w_head w = head ∧ w_available w = available.

Lemma withdraw_other_ok queue head available others st :
  accounted others st → in_range queue →
  wp (withdraw_other queue head available) (λ st' r, r = Ok tt ∧ accounted others st' ∧ only_head queue head available st') st.
Proof.
  intros Ha Hq. destruct (accounted_lookup _ _ _ Ha Hq) as [h Hh]. apply wp_bind, slot_wp; [|congruence].
  intros h' Hh'. assert (h' = h) as -> by congruence. apply wp_when; intros Hb.
  - eapply wp_mono; [by apply finish_wait_ok|]. cbn iota beta. intros st' r (Ha' & Hr). destruct r as [[]|e|]; [|done|by destruct Hr].
    split_and!; [done..|]. exists None. split; [by eapply lookup_set; [|apply Ha|]|done].
  - split_and!; [done..|]. exists h. split; [done|]. intros w ->. cbn in Hb.
    apply orb_false_iff in Hb as [Hb1%bool_decide_eq_false Hb2%bool_decide_eq_false].
    by split; apply dec_stable.
Qed.

Lemma enter_head_ok queue head available kind concurrent t others st :
  accounted others st → in_range queue → only_head queue head available st →
  wp (enter_head queue head available kind concurrent t) (λ st' r, accounted others st' ∧
    (r = Ok tt → concurrent = true → waiting_for queue st' head available None)) st.
Proof.
  intros Ha Hq (h & Hh & Honly). apply wp_bind, slot_wp; [|congruence].
  intros h' Hh'. assert (h' = h) as -> by congruence. apply wp_when; intros Hb.
  - apply andb_true_iff in Hb as [-> Hb]. apply negb_true_iff, bool_decide_eq_false in Hb. destruct h as [w|]; [by destruct Hb|].
    apply wp_bind. pose proof (admission_ticket_tickets kind st.2) as Ht.
    eapply wp_mono; [apply (storage_op_ok _ (match (admission_ticket kind st.2).2 with Ok (Some t) => [t] | _ => [] end) others); [done|]|].
    { by destruct (admission_ticket kind st.2). }
    cbn iota beta. intros st1 r1 (Ha1 & E1 & Hr1). rewrite <- Hr1 in Ha1. destruct r1 as [ticket|e|]; [|by split|].
    + eapply wp_mono; [apply (set_slot_ok queue None _ (match ticket with Some t => [t] | None => [] end) others)|].
      * by destruct ticket.
      * by rewrite E1.
      * done.
      * by destruct ticket.
      * cbn iota beta. intros st2 r2 (-> & Ha2 & E2 & _). split_and!; [done..|]. intros _ _. eexists.
        split_and!; [eapply (lookup_set _ _ st1); [done|apply Ha1|done]|done..].
    + by split.
  - split; [done|]. intros _ ->. cbn [andb] in Hb. apply negb_false_iff, bool_decide_eq_true in Hb as [w ->].
    destruct (Honly w eq_refl) as [E1 E2]. by exists w.
Qed.

Lemma count_attempt_ok queue others st :
  accounted others st → in_range queue →
  wp (count_attempt queue) (λ st' r, r = Ok tt ∧ accounted others st' ∧
    ∀ head available, waiting_for queue st head available None → waiting_for queue st' head available None) st.
Proof.
  intros Ha Hq. destruct (accounted_lookup _ _ _ Ha Hq) as [h Hh]. apply wp_bind, slot_wp; [|congruence].
  intros h' Hh'. assert (h' = h) as -> by congruence. destruct h as [w|]; [|by apply wp_ret].
  eapply wp_mono; [by apply (set_slot_ok queue (Some w) _ [] others)|]. cbn iota beta. intros st' r (-> & Ha' & E & _).
  split_and!; [done..|]. intros head available (w0 & E0 & E1 & E2 & _). assert (w0 = w) as -> by congruence.
  eexists. split_and!; [eapply lookup_set; [done|apply Ha|done]|done..].
Qed.

(** Admission at the head of a queue keeps the account, whatever the storage
    answers; a refused head waits for a reason. *)
Lemma prepare_admission_ok queue available request concurrent pending_full others st :
  accounted others st → in_range queue →
  wp (prepare_admission queue available request concurrent pending_full)
    (admission_post queue (head (Request_completion request)) available others concurrent) st.
Proof.
  intros Ha Hq. unfold prepare_admission. set (h := head (Request_completion request)).
  apply wp_bind, wp_gets. cbn iota beta. generalize (now st.2). intros t.
  apply wp_bind. eapply wp_mono; [by apply withdraw_other_ok|]. cbn iota beta. intros st1 r1 (-> & Ha1 & Ho1).
  apply wp_bind. eapply wp_mono; [by apply enter_head_ok|]. cbn iota beta. intros st2 r2 (Ha2 & Hw2).
  destruct r2 as [[]|e|]; [|by split..]. specialize (Hw2 eq_refl).
  apply wp_bind. eapply wp_mono; [by apply count_attempt_ok|]. cbn iota beta. intros st3 r3 (-> & Ha3 & Hw3).
  assert (Hw : concurrent = true → waiting_for queue st3 h available None) by (intros; by apply Hw3, Hw2).
  apply wp_bind, slot_wp; [intros w _|intros Hn%lookup_ge_None; rewrite (ac_length _ _ Ha3) in Hn; unfold in_range in Hq; lia].
  destruct (w ≫= w_ticket) as [ticket|]; [|by apply admit_turn_ok].
  apply wp_bind. eapply wp_mono; [apply (storage_op_ok _ [] others); [done|apply Ticket_turn_tickets]|]. cbn iota beta.
  intros st4 r4 (Ha4 & E4 & _).
  assert (Hw4 : concurrent = true → waiting_for queue st4 h available None).
  { intros Hc. apply (waiting_for_st _ st3); [done|by apply Hw]. }
  destruct r4 as [[]|e|]; [by apply admit_turn_ok| |by split..].
  by apply (refused_ok _ _ _ _ None).
Qed.

Lemma finish_all_ok n others st :
  accounted others st → (n ≤ CONCURRENT_QUEUES)%nat →
  wp (finish_all n) (λ st' r, r = Ok tt ∧ accounted others st' ∧
    ∀ i, (i < n)%nat → heads st'.1 !! i = Some None) st.
Proof.
  revert st. induction n as [|n IH]; intros st Ha Hn; [apply wp_ret; split_and!; [done..|lia]|]. apply wp_bind.
  eapply wp_mono; [apply IH; [done|lia]|]. cbn iota beta. intros st1 r1 (-> & Ha1 & Hi).
  eapply wp_mono; [by apply finish_wait_ok|]. cbn iota beta. intros st2 r2 (Ha2 & Hr).
  assert (Hq : in_range (Z.of_nat n)) by (unfold in_range; lia).
  destruct r2 as [[]|e|]; [|done|by destruct Hr]. split_and!; [done..|]. intros i Hin. rewrite Hr, Nat2Z.id.
  destruct (decide (i = n)) as [->|]; [apply list_lookup_insert_eq; rewrite (ac_length _ _ Ha1); lia|].
  rewrite list_lookup_insert_ne by done. apply Hi. lia.
Qed.

Lemma heads_none l : (∀ i, (i < length l)%nat → l !! i = Some None) → held l = [] ∧ waiting_heads l = 0.
Proof.
  induction l as [|h l IH]; intros Hl; [done|]. assert (h = None) as -> by (specialize (Hl 0%nat); cbn in Hl; injection Hl; [done|lia]).
  destruct IH as [E1 E2]; [intros i Hi; apply (Hl (S i)); cbn; lia|]. by rewrite waiting_heads_cons, E2.
Qed.

(** The backend gives back every ticket it waits with. *)
Lemma cancel_all_ok others st :
  accounted others st → wp cancel_all (λ st' r, r = Ok tt ∧ accounted others st' ∧
    tickets st'.2 ≡ₚ others ∧ started (statistics st'.1) = resumed (statistics st'.1) + canceled (statistics st'.1)) st.
Proof.
  intros Ha. apply wp_bind, wp_gets. cbn iota beta. rewrite (ac_length _ _ Ha).
  eapply wp_mono; [by apply finish_all_ok|]. cbn iota beta. intros st' r (-> & Ha' & Hi).
  destruct (heads_none (heads st'.1)) as [E1 E2]; [by rewrite (ac_length _ _ Ha')|].
  split_and!; [done..| |].
  - by rewrite (ac_tickets _ _ Ha'), E1.
  - rewrite (ac_waits _ _ Ha'), E2. lia.
Qed.

(** ** The life of an admission *)

Inductive Call : Type :=
  | Prepare (queue available : Z) (request : Request) (concurrent pending_full : bool)
  | Finish (queue : Z) (was_resumed : bool)
  | CancelMatching (queue available head : Z)
  | Changed (change : StateChange).

Definition perform (c : Call) : Act State unit :=
  match c with
  | Prepare queue available request concurrent pending_full =>
      prepare_admission queue available request concurrent pending_full;; mret tt
  | Finish queue was_resumed => finish_wait queue was_resumed
  | CancelMatching queue available head => cancel_matching queue available head
  | Changed change => changed change
  end.

(** The queue of a call exists; a state change names any. *)
Definition call_typed (c : Call) : Prop :=
  match c with
  | Prepare queue _ _ _ _ | Finish queue _ | CancelMatching queue _ _ => in_range queue
  | Changed _ => True
  end.

(** The states an admission goes through, whatever its calls return, while the
    storage is also used by others. *)
Inductive lives : list T → State → Prop :=
  | lives_new others s : tickets s ≡ₚ others → lives others (QueueAdmission_default T, s)
  | lives_call others st c : lives others st → call_typed c → lives others (perform c st).1
  | lives_others others others' q s s' own :
      lives others (q, s) → tickets s ≡ₚ own ++ others → tickets s' ≡ₚ own ++ others' → lives others' (q, s').

Lemma changed_ok change others st :
  accounted others st → wp (changed change) (λ st' _, accounted others st') st.
Proof.
  intros Ha. assert (Hc : wp cancel_all (λ st' _, accounted others st') st).
  { eapply wp_mono; [by apply cancel_all_ok|]. by intros st' r (_ & ? & _). }
  assert (Hf : ∀ index, wp (finish_wait index false) (λ st' _, accounted others st') st).
  { intros index. eapply wp_mono; [by apply finish_wait_ok|]. by intros st' r (? & _). }
  destruct change as [| | |index|index|index [|]|index|]; first [exact Hc | apply Hf | by apply wp_ret].
Qed.

Lemma perform_ok c others st : accounted others st → call_typed c → wp (perform c) (λ st' _, accounted others st') st.
Proof.
  intros Ha Hc. destruct c as [queue available request concurrent full|queue b|queue available head|change]; cbn [perform call_typed] in *.
  - apply wp_bind. eapply wp_mono; [by apply prepare_admission_ok|]. cbn iota beta. intros st' r [Ha' _]. by destruct r; [apply wp_ret|..].
  - eapply wp_mono; [by apply finish_wait_ok|]. by intros st' r (? & _).
  - apply wp_bind, slot_wp; [intros h _|done]. apply wp_when; [intros _|done]. eapply wp_mono; [by apply finish_wait_ok|]. by intros st' r (? & _).
  - by apply changed_ok.
Qed.

Lemma lives_accounted others st : lives others st → accounted others st.
Proof.
  induction 1 as [others s Hs|others st c _ IH Hc|others others' q s s' own _ IH Hs Hs'].
  - by split.
  - pose proof (perform_ok c others st IH Hc) as H1. unfold wp in H1. by destruct (perform c st).
  - destruct IH as [Hl Hw Ht]. split; [done..|]. cbn [fst snd] in *. rewrite Hs', (Permutation_app_comm own), (Permutation_app_comm (held _)).
    apply Permutation_app; [done|]. apply (Permutation_app_inv_r others). by rewrite <- Hs, Ht.
Qed.

(** C15: In every state a queue admission goes through, whatever the storage
    answers: each wait that started was resumed, was canceled, or still goes
    on; the live tickets are those of its waiting heads and those of others; a
    request that is refused waits at the head of its queue for a reason that
    can be reported; and canceling gives back every ticket. *)
Theorem admission_accounts others st :
  lives others st → accounted others st ∧
  (∀ queue available request pending_full st',
    in_range queue → prepare_admission queue available request true pending_full st = (st', Ok Admission_Waiting) →
    lives others st' ∧ ∃ reason i,
      waiting_for queue st' (head (Request_completion request)) available (Some reason) ∧ reason_index queue st' = (st', Ok i)) ∧
  let '(st', r) := cancel_all st in r = Ok tt ∧ tickets st'.2 ≡ₚ others.
Proof.
  intros Hl. pose proof (lives_accounted _ _ Hl) as Ha. split_and!; [done| |].
  - intros queue available request full st' Hq E. split.
    + replace st' with (perform (Prepare queue available request true full) st).1; [by apply lives_call|].
      cbn [perform]. unfold mbind, act_bind. by rewrite E.
    + pose proof (wp_elim _ _ _ _ _ (prepare_admission_ok queue available request true full others st Ha Hq) E) as [_ Hw].
      destruct (Hw eq_refl) as [reason (w & Ew & E1 & E2 & E3)]. exists reason.
      assert (Hi : ∃ i, reason_index queue st' = (st', Ok i)).
      { unfold reason_index, mbind, act_bind, slot. rewrite Ew. cbn. rewrite E3. destruct reason; by eexists. }
      destruct Hi as [i Hi]. exists i. split; [by exists w|done].
  - pose proof (cancel_all_ok others st Ha) as Hc. unfold wp in Hc. destruct (cancel_all st) as [st' r]. destruct Hc as (? & _ & ? & _). done.
Qed.

End Account.

(** ** A storage for the witnesses *)

(** Tickets are served in order; a permit is a unit of [demo_free]. *)
Record DemoStorage : Type := { demo_tickets : list Z; demo_next : Z; demo_free : Z }.

Fixpoint demo_remove (t : Z) (l : list Z) : list Z :=
  match l with
  | [] => []
  | x :: l' => if bool_decide (x = t) then l' else x :: demo_remove t l'
  end.

Definition demo_set (s : DemoStorage) (l : list Z) : DemoStorage :=
  {| demo_tickets := l; demo_next := demo_next s; demo_free := demo_free s |}.

#[local] Instance demo_storage : Storage DemoStorage Z Z Z := {|
  now s := demo_next s;
  admission_ticket kind s :=
    ({| demo_tickets := demo_tickets s ++ [demo_next s]; demo_next := demo_next s + 1; demo_free := demo_free s |}, Ok (Some (demo_next s)));
  Ticket_turn t s := (s, Ok (bool_decide (hd_error (demo_tickets s) = Some t)));
  Turn_commit t s := (s, t);
  Turn_drop t s := s;
  Ticket_drop t s := demo_set s (demo_remove t (demo_tickets s));
  prepare kind s :=
    if bool_decide (demo_free s = 0) then (s, Ok (Pressure.Waiting Pressure.RequestCredits))
    else ({| demo_tickets := demo_tickets s; demo_next := demo_next s; demo_free := demo_free s - 1 |},
          Ok (Pressure.Ready (Permit_Local (demo_free s) None)));
|}.

Lemma demo_remove_Permutation t l rest : l ≡ₚ t :: rest → demo_remove t l ≡ₚ rest.
Proof.
  intros E. assert (Ht : t ∈ l) by (rewrite E; by left). enough (H : l ≡ₚ t :: demo_remove t l).
  { apply (Permutation_cons_inv (a := t)). by rewrite <- H. }
  clear E. induction l as [|x l IH]; [by apply elem_of_nil in Ht|]. cbn. case_bool_decide as Hx; [by subst|].
  apply elem_of_cons in Ht as [->|Ht]; [done|]. rewrite (IH Ht) at 1. apply Permutation_swap.
Qed.

#[local] Instance demo_laws : StorageLaws DemoStorage Z Z Z.
Proof.
  refine {| tickets := demo_tickets |}; cbn.
  - intros _ s. by rewrite Permutation_app_comm.
  - done.
  - done.
  - done.
  - intros t s rest. apply demo_remove_Permutation.
  - intros _ s. by case_bool_decide.
Defined.

Definition demo_request (h : Z) : Request := Flush {| GuestRequest.head := h; status := 0 |}.

(** A head is refused, for want of credits, and another takes its place. *)
Definition demo_refused : QueueAdmission Z * DemoStorage :=
  (perform (Prepare 1 0 (demo_request 5) true false)
    (QueueAdmission_default Z, {| demo_tickets := []; demo_next := 1; demo_free := 0 |})).1.

Lemma demo_lives : lives [] demo_refused.
Proof. apply lives_call; [by apply lives_new|]. unfold call_typed, in_range. vm_compute. lia. Qed.

Lemma admission_accounts_witness :
  accounted [] demo_refused ∧ tickets demo_refused.2 = [1] ∧
  ∃ reason i, waiting_for 1 (prepare_admission 1 1 (demo_request 6) true true demo_refused).1 6 1 (Some reason) ∧
    reason_index 1 (prepare_admission 1 1 (demo_request 6) true true demo_refused).1 =
      ((prepare_admission 1 1 (demo_request 6) true true demo_refused).1, Ok i).
Proof.
  destruct (admission_accounts [] demo_refused demo_lives) as (Ha & Hp & _).
  split_and!; [exact Ha|by vm_compute|].
  apply (Hp 1 1 (demo_request 6) true (prepare_admission 1 1 (demo_request 6) true true demo_refused).1).
  - unfold in_range. vm_compute. lia.
  - by vm_compute.
Defined.
