(* ===== verification/Frontier.v ===== *)
(** * The frontier of discovered requests

    Models [crates/cas/daemon/src/backend/frontier.rs] and [accept] of
    [crates/cas/daemon/src/backend.rs]: the requests that were taken from the
    guest's rings and not yet admitted, in the order of their discovery.  A
    request is admitted once no older request conflicts with it, and only reads
    pass the head of their queue.  The rest of the backend (the rings, the gate,
    the execution of requests) is an interface. *)
From S2P Require Import Prelude Bytes Inflight GuestRequest Action Admission.

(** ** Data *)

Record Discovered : Type := { ds_request : GuestRequest.Request; ds_available : Z; ds_order : Z }.

#[global] Instance Discovered_eq_dec : EqDecision Discovered.
Proof. solve_decision. Defined.

Record Frontier (T : Type) : Type := {
  queues : list (list Discovered);
  next_order : Z;
  reads : QueueAdmission T;
  bypassed : Z;
}.
Arguments queues {_}.
Arguments next_order {_}.
Arguments reads {_}.
Arguments bypassed {_}.

Record NextChain : Type := { nc_chain : Chain; nc_next_avail : Z }.

Record AdmittedRequest (C R : Type) : Type := {
  ad_queue : Z;
  ad_id : Z;
  ad_request : GuestRequest.Request;
  ad_permit : Permit C R;
  ad_inflight : option Entry;
}.

(** What the frontier uses of the backend's other parts: the rings, the
    completion gate, the fault points and the execution of requests. *)
Class Host (Sto T C R : Type) := {
  queue_ready : Sto → Z → bool;
  queue_length : Sto → Z → nat;
  negotiated_features : Sto → Z;
  device_features : Sto → Z;
  peek : Z → Act Sto (option NextChain);
  set_next_avail : Z → Z → Sto → Sto;
  reserve_spans : Sto → Sto * result unit;
  lock_checked : Act Sto unit;
  pending_full : Sto → bool;
  fault_hit : Sto → AdmissionPhase → result unit;
  enqueue : AdmittedRequest C R → Act Sto unit;
  completion_event : Act Sto unit;
}.

(** What happened to the requests; not part of the code's state. *)
Inductive Event : Type :=
  | Found_event (queue : Z) (d : Discovered)
  | Admitted_event (queue : Z) (d : Discovered).

#[global] Instance Event_eq_dec : EqDecision Event.
Proof. solve_decision. Defined.

Record Backend (Sto T : Type) : Type := {
  storage : Sto;
  frontier : Frontier T;
  admission : QueueAdmission T;
  carrier : option Memory;
  next_id : Z;
  blocked_queues : list bool;
  queue_requests : list Z;
  history : list Event;
}.
Arguments storage {_ _}.
Arguments frontier {_ _}.
Arguments admission {_ _}.
Arguments carrier {_ _}.
Arguments next_id {_ _}.
Arguments blocked_queues {_ _}.
Arguments queue_requests {_ _}.
Arguments history {_ _}.

(** ** The frontier *)

Definition Frontier_new (T : Type) : Frontier T := {|
  queues := replicate CONCURRENT_QUEUES []; next_order := 0; reads := QueueAdmission_default T; bypassed := 0 |}.

Definition Frontier_is_empty {T} (f : Frontier T) : bool := forallb (λ q, bool_decide (length q = 0%nat)) (queues f).

Definition set_queues {T} (f : Frontier T) (qs : list (list Discovered)) (order : Z) : Frontier T :=
  {| queues := qs; next_order := order; reads := reads f; bypassed := bypassed f |}.

Definition Frontier_restore {T} (f : Frontier T) (order : Z) (identity : Inflight.Request) (request : GuestRequest.Request) :
    result (Frontier T) :=
  q ← expect (queues f !! Z.to_nat (rq_queue identity));
  if bool_decide (length q = CONCURRENT_QUEUE_SIZE) then other "discovered queue exceeds capacity"
  else
    let d := {| ds_request := request; ds_available := rq_available identity; ds_order := order |} in
    Ok (set_queues f (<[Z.to_nat (rq_queue identity) := q ++ [d]]> (queues f)) (Z.max (next_order f) order)).

(** The ranges are within the image, so their ends fit. *)
Definition conflicts (older later : Inflight.Request) : bool :=
  let control r := bool_decide (rq_kind r = Inflight.Flush) || bool_decide (rq_kind r = Inflight.Protocol) in
  if control older || control later then true
  else if bool_decide (rq_length older = 0) || bool_decide (rq_length later = 0)
          || (bool_decide (rq_kind older = Inflight.Read) && bool_decide (rq_kind later = Inflight.Read))
  then false
  else bool_decide (rq_offset older < rq_offset later + rq_length later)
       && bool_decide (rq_offset later < rq_offset older + rq_length older).

Definition is_read (r : GuestRequest.Request) : bool := match r with GuestRequest.Read _ => true | _ => false end.

Definition Frontier_eligible {T} (f : Frontier T) (queue index : nat) : result bool :=
  q ← expect (queues f !! queue);
  candidate ← expect (q !! index);
  if bool_decide (index ≠ 0%nat) && negb (is_read (ds_request candidate)) then Ok false
  else
    let identity := Request_inflight (ds_request candidate) (Z.of_nat queue) (ds_available candidate) in
    Ok (forallb (λ older, negb (conflicts (Request_inflight (ds_request older) 0 0) identity))
          (filter (λ older, ds_order older < ds_order candidate) (concat (queues f)))).

(** ** The backend's part *)

Section Progress.
Context {Sto T C R : Type} `{Storage Sto T C R} `{Host Sto T C R}.
Context `{VirtioBlk} {M : Type} `{GuestMemory M} (mem : M) (capacity_bytes : Z).
Context (g : Geometry) (identity : Identity).

Abbreviation State := (Backend Sto T).

Definition set_storage (s : Sto) (b : State) : State :=
  {| storage := s; frontier := frontier b; admission := admission b; carrier := carrier b; next_id := next_id b;
     blocked_queues := blocked_queues b; queue_requests := queue_requests b; history := history b |}.
Definition set_frontier (f : Frontier T) (b : State) : State :=
  {| storage := storage b; frontier := f; admission := admission b; carrier := carrier b; next_id := next_id b;
     blocked_queues := blocked_queues b; queue_requests := queue_requests b; history := history b |}.
Definition set_admission (a : QueueAdmission T) (b : State) : State :=
  {| storage := storage b; frontier := frontier b; admission := a; carrier := carrier b; next_id := next_id b;
     blocked_queues := blocked_queues b; queue_requests := queue_requests b; history := history b |}.
Definition set_carrier (m : option Memory) (b : State) : State :=
  {| storage := storage b; frontier := frontier b; admission := admission b; carrier := m; next_id := next_id b;
     blocked_queues := blocked_queues b; queue_requests := queue_requests b; history := history b |}.
Definition set_counters (id : Z) (requests : list Z) (b : State) : State :=
  {| storage := storage b; frontier := frontier b; admission := admission b; carrier := carrier b; next_id := id;
     blocked_queues := blocked_queues b; queue_requests := requests; history := history b |}.
Definition record_event (e : Event) (b : State) : State :=
  {| storage := storage b; frontier := frontier b; admission := admission b; carrier := carrier b; next_id := next_id b;
     blocked_queues := blocked_queues b; queue_requests := queue_requests b; history := history b ++ [e] |}.
Definition set_reads (q : QueueAdmission T) (f : Frontier T) : Frontier T :=
  {| queues := queues f; next_order := next_order f; reads := q; bypassed := bypassed f |}.

Definition host_op {A} (c : Act Sto A) : Act State A := zoom storage set_storage c.
Definition host_do (f : Sto → Sto) : Act State unit := host_op (modify f).

(** The admission of queue heads, or of the reads that pass them, with the
    storage. *)
Definition head_op {A} (c : Act (QueueAdmission T * Sto) A) : Act State A :=
  zoom (λ b, (admission b, storage b)) (λ '(q, s) b, set_admission q (set_storage s b)) c.
Definition reads_op {A} (c : Act (QueueAdmission T * Sto) A) : Act State A :=
  zoom (λ b, (reads (frontier b), storage b)) (λ '(q, s) b, set_frontier (set_reads q (frontier b)) (set_storage s b)) c.
Definition waits_op {A} (head : bool) (c : Act (QueueAdmission T * Sto) A) : Act State A :=
  if head then head_op c else reads_op c.

(** An operation of the carrier, when the image has one. *)
Definition carrier_op {A} (op : Op A) : Act State (option A) := λ b,
  match carrier b with
  | None => (b, Ok None)
  | Some m => let '(trace, r) := op m in (set_carrier (Some (run trace m)) b, a ← r; Ok (Some a))
  end.

Definition waiting (queue : Z) : Act State (list Discovered) := λ b,
  (b, expect (queues (frontier b) !! Z.to_nat queue)).

(** ** Discovery *)

(** [frontier.restore(...)?], and the event. *)
Definition restore (order : Z) (found : Inflight.Request) (request : GuestRequest.Request) : Act State unit :=
  f ← gets frontier;
  f' ← liftr (Frontier_restore f order found request);
  modify (set_frontier f');;
  modify (record_event (Found_event (rq_queue found)
    {| ds_request := request; ds_available := rq_available found; ds_order := order |})).

(** One iteration of the discovery loop, and whether it goes on. *)
Definition discover_one (queue : Z) (size : nat) : Act State bool :=
  q ← waiting queue;
  if bool_decide (length q = size) then mret false
  else
    next ← host_op (peek queue);
    match next with
    | None => mret false
    | Some {| nc_chain := chain; nc_next_avail := next_avail |} =>
        reservation ← host_op (λ s, let '(s', r) := reserve_spans s in (s', Ok r));
        request ← liftr (decode_chain mem chain capacity_bytes reservation);
        features ← gets (λ b, Z.land (negotiated_features (storage b)) (device_features (storage b)));
        let request := Request_negotiated request features in
        let found := Request_inflight request queue (wrapping_sub 16 next_avail 1) in
        last ← gets (λ b, next_order (frontier b));
        order ← liftr (ok_or (Error Other "discovery IDs exhausted") (checked_add 64 last 1));
        host_op lock_checked;;
        carried ← carrier_op (Carrier_discover g identity capacity_bytes found);
        liftr (if is_some_and carried (λ d, bool_decide (d ≠ order))
               then other "discovery order differs from carrier" else Ok tt);;
        restore order found request;;
        host_do (set_next_avail queue next_avail);;
        mret true
    end.

Fixpoint discover_loop (n : nat) (queue : Z) (size : nat) : Act State unit :=
  match n with
  | O => mret tt
  | S n' => again ← discover_one queue size; when again (discover_loop n' queue size)
  end.

(** ** Admission *)

Definition add_request (queue : Z) (requests : list Z) : result (list Z) :=
  n ← expect (requests !! Z.to_nat queue);
  Ok (<[Z.to_nat queue := n + 1]> requests).

Definition counted (r : GuestRequest.Request) : bool :=
  match r with GuestRequest.Read _ | GuestRequest.Write _ | GuestRequest.Flush _ => true | _ => false end.

(** [accept] of a concurrent backend; [request_id] panics on a serial of 0. *)
Definition accept (queue available : Z) (request : GuestRequest.Request) (permit : Permit C R) : Act State unit :=
  id ← gets next_id;
  next ← liftr (ok_or (Error Other "request IDs exhausted") (checked_add 64 id 1));
  s ← gets storage;
  inflight ← carrier_op (Carrier_admit_observed g identity capacity_bytes (Request_inflight request queue available) false
                           (fault_hit s));
  entry_id ← liftr (match inflight with Some entry => i ← Entry_request_id entry; Ok (Some i) | None => Ok None end);
  liftr (if is_some_and entry_id (λ i, bool_decide (i ≠ id))
         then other "admission serial differs from retained carrier" else Ok tt);;
  requests ← gets queue_requests;
  requests' ← liftr (if counted request then add_request queue requests else Ok requests);
  modify (set_counters next requests');;
  host_op (enqueue {| ad_queue := queue; ad_id := id; ad_request := request; ad_permit := permit; ad_inflight := inflight |}).

(** The loop over the candidates of a queue. *)
Fixpoint select (queue : Z) (candidates : list nat) : Act State (option (nat * Permit C R)) :=
  match candidates with
  | [] => mret None
  | candidate :: rest =>
      f ← gets frontier;
      eligible ← liftr (Frontier_eligible f (Z.to_nat queue) candidate);
      if negb eligible then select queue rest
      else
        q ← waiting queue;
        d ← liftr (expect (q !! candidate));
        let is_head := bool_decide (candidate = 0%nat) in
        when is_head (reads_op (cancel_matching queue (ds_available d) (head (Request_completion (ds_request d)))));;
        full ← gets (λ b, pending_full (storage b));
        outcome ← waits_op is_head (prepare_admission queue (ds_available d) (ds_request d) true full);
        match outcome with
        | Accepted permit => waits_op is_head (finish_wait queue true);; mret (Some (candidate, permit))
        | Admission_Waiting => if is_read (ds_request d) then mret None else select queue rest
        end
  end.

(** [queues[index].remove(candidate)] and the count of the requests that passed
    a head. *)
Definition take_candidate (queue : Z) (candidate : nat) : Act State Discovered :=
  q ← waiting queue;
  d ← liftr (expect (q !! candidate));
  modify (λ b, set_frontier {|
    queues := <[Z.to_nat queue := vec_remove candidate q]> (queues (frontier b));
    next_order := next_order (frontier b); reads := reads (frontier b);
    bypassed := bypassed (frontier b) + (if bool_decide (candidate = 0%nat) then 0 else 1) |} b);;
  modify (record_event (Admitted_event queue d));;
  mret d.

(** One iteration of the admission loop. *)
Definition admit_one (queue : Z) : Act State bool :=
  q ← waiting queue;
  if bool_decide (length q = 0%nat) then mret false
  else
    host_op lock_checked;;
    selected ← select queue (seq 0 (length q));
    match selected with
    | None => mret false
    | Some (candidate, permit) =>
        d ← take_candidate queue candidate;
        accept queue (ds_available d) (ds_request d) permit;;
        mret true
    end.

Fixpoint admit_loop (n : nat) (queue : Z) : Act State nat :=
  match n with
  | O => mret 0%nat
  | S n' =>
      again ← admit_one queue;
      if negb again then mret 0%nat else k ← admit_loop n' queue; mret (S k)
  end.

Definition progress_queue (queue : Z) (discover : bool) : Act State unit :=
  blocked ← λ b, (b, expect (blocked_queues b !! Z.to_nat queue));
  ready ← gets (λ b, queue_ready (storage b) queue);
  if blocked || negb ready then mret tt
  else
    size ← gets (λ b, queue_length (storage b) queue);
    when discover (discover_loop size queue size);;
    admitted ← admit_loop size queue;
    when (bool_decide (admitted ≠ 0%nat)) (host_op completion_event).

(** ** Recovery *)

(** The part of the replay that gives the frontier back; [chain_at] is the
    descriptor chain at a head of a queue. *)
Definition resume_one (chain_at : Z → Z → Chain) (saved : Z * Inflight.Request) : Act State unit :=
  let '(order, found) := saved in
  reservation ← host_op (λ s, let '(s', r) := reserve_spans s in (s', Ok r));
  request ← liftr (decode_chain mem (chain_at (rq_queue found) (rq_head found)) capacity_bytes reservation);
  features ← gets (λ b, negotiated_features (storage b));
  let request := Request_negotiated request features in
  liftr (if bool_decide (Request_inflight request (rq_queue found) (rq_available found) = found) then Ok tt
         else other "discovered guest descriptor identity or range differs");;
  restore order found request.

Fixpoint resume_loop (chain_at : Z → Z → Chain) (saved : list (Z * Inflight.Request)) : Act State unit :=
  match saved with
  | [] => mret tt
  | x :: l => resume_one chain_at x;; resume_loop chain_at l
  end.

Definition resume (chain_at : Z → Z → Chain) (replay : Replay) : Act State unit :=
  modify (λ b, set_frontier (set_queues (frontier b) (queues (frontier b)) (rp_highest_discovery replay)) b);;
  resume_loop chain_at (rp_discovered replay).

(** [self.next_id = replay.highest_serial], once the storage is recovered. *)
Definition resume_serial (replay : Replay) : Act State unit :=
  modify (λ b, set_counters (rp_highest_serial replay) (queue_requests b) b).

End Progress.
