(* ===== verification/FrontierOrder.v ===== *)
(** * The order of the frontier

    The abstract machine behind [Frontier]: requests wait in their queues, a new
    one is younger than all before it, and one is admitted when no older request
    that waits conflicts with it, and it is a read or the head of its queue.  A
    visit of the backend is a run of that machine, and in its runs conflicting
    requests are admitted in the order of their discovery. *)
From stdpp Require Import sorting.
From S2P Require Import Prelude Bytes Inflight InflightLife GuestRequest Action Admission Frontier.

(** ** The abstract machine *)

(** Requests whose order must be kept: one is a control request, or their
    ranges overlap and one of them changes it. *)
Definition conflict (older : Discovered) (queue : Z) (later : Discovered) : Prop :=
  conflicts (Request_inflight (ds_request older) 0 0)
    (Request_inflight (ds_request later) queue (ds_available later)) = true.

Record View : Type := { v_queues : list (list Discovered); v_order : Z; v_history : list Event }.

Inductive vstep : View → View → Prop :=
  | vstep_found (q : nat) l d qs o h :
      qs !! q = Some l →
      (∀ q' d', Found_event q' d' ∈ h → ds_order d' < ds_order d) →
      vstep {| v_queues := qs; v_order := o; v_history := h |}
            {| v_queues := <[q := l ++ [d]]> qs; v_order := Z.max o (ds_order d);
               v_history := h ++ [Found_event (Z.of_nat q) d] |}
  | vstep_admit (q i : nat) l d qs o h :
      qs !! q = Some l → l !! i = Some d →
      (∀ d', d' ∈ concat qs → ds_order d' < ds_order d → ¬ conflict d' (Z.of_nat q) d) →
      (i = 0%nat ∨ is_read (ds_request d) = true) →
      vstep {| v_queues := qs; v_order := o; v_history := h |}
            {| v_queues := <[q := vec_remove i l]> qs; v_order := o;
               v_history := h ++ [Admitted_event (Z.of_nat q) d] |}.

(** ** Its invariant *)

Definition found_of (e : Event) : option Discovered := match e with Found_event _ d => Some d | _ => None end.

(** Conflicting requests, and all but the reads of one queue, leave in order. *)
Definition ordered (h : list Event) : Prop :=
  ∀ h1 h2 q1 q2 d1 d2, h = h1 ++ Admitted_event q2 d2 :: h2 → Found_event q1 d1 ∈ h → ds_order d1 < ds_order d2 →
    conflict d1 q2 d2 ∨ (q1 = q2 ∧ is_read (ds_request d2) = false) → Admitted_event q1 d1 ∈ h1.

Record view_ok (v : View) : Prop := {
  vo_length : length (v_queues v) = CONCURRENT_QUEUES;
  vo_found : StronglySorted (λ x y, ds_order x < ds_order y) (omap found_of (v_history v));
  vo_bound q d : Found_event q d ∈ v_history v → ds_order d ≤ v_order v;
  vo_waiting (q : nat) l d : v_queues v !! q = Some l →
    (d ∈ l ↔ Found_event (Z.of_nat q) d ∈ v_history v ∧ Admitted_event (Z.of_nat q) d ∉ v_history v);
  vo_sorted (q : nat) l : v_queues v !! q = Some l → StronglySorted (λ x y, ds_order x < ds_order y) l;
  vo_range q d : Found_event q d ∈ v_history v → ∃ n : nat, q = Z.of_nat n ∧ (n < CONCURRENT_QUEUES)%nat;
  vo_admitted q d : Admitted_event q d ∈ v_history v → Found_event q d ∈ v_history v;
  vo_once h1 h2 q d : v_history v = h1 ++ Admitted_event q d :: h2 → Admitted_event q d ∉ h1;
  vo_ordered : ordered (v_history v);
}.

(** A request is found once: its order identifies it. *)
Lemma found_unique h q d q' d' :
  StronglySorted (λ x y, ds_order x < ds_order y) (omap found_of h) →
  Found_event q d ∈ h → Found_event q' d' ∈ h → ds_order d = ds_order d' → q = q' ∧ d = d'.
Proof.
  induction h as [|e h IH]; intros Hs Hd Hd' E; [by apply elem_of_nil in Hd|].
  assert (Hin : ∀ q0 d0, Found_event q0 d0 ∈ h → d0 ∈ omap found_of h).
  { intros q0 d0 H0. apply list_elem_of_omap. by exists (Found_event q0 d0). }
  destruct e as [q0 d0|q0 d0]; cbn in Hs.
  - inversion_clear Hs as [|? ? Hs' Hall]. rewrite Forall_forall in Hall.
    apply elem_of_cons in Hd, Hd'. destruct Hd as [[= -> ->]|Hd], Hd' as [[= -> ->]|Hd'].
    + done.
    + apply Hin, Hall in Hd'. lia.
    + apply Hin, Hall in Hd. lia.
    + by apply IH.
  - apply elem_of_cons in Hd, Hd'. destruct Hd as [|Hd], Hd' as [|Hd']; try done. by apply IH.
Qed.

Lemma snoc_split {A} (h h1 h2 : list A) x y :
  h ++ [x] = h1 ++ y :: h2 →
  (h2 = [] ∧ h1 = h ∧ y = x) ∨ ∃ h2', h2 = h2' ++ [x] ∧ h = h1 ++ y :: h2'.
Proof.
  destruct h2 as [|z h2 _] using rev_ind; intros E.
  - left. by apply app_inj_tail in E as [-> ->].
  - right. exists h2. rewrite app_comm_cons, app_assoc in E. by apply app_inj_tail in E as [-> ->].
Qed.

Abbreviation earlier := (λ x y, ds_order x < ds_order y).

Lemma sorted_snoc l d : StronglySorted earlier l → (∀ x, x ∈ l → ds_order x < ds_order d) → StronglySorted earlier (l ++ [d]).
Proof.
  intros Hs Hd. induction Hs as [|x l Hs IH Hx]; cbn; [by repeat constructor|]. constructor.
  - apply IH. intros y Hy. apply Hd. by right.
  - apply Forall_app. split; [done|]. constructor; [|done]. apply Hd. by left.
Qed.

Lemma vec_remove_sorted l i d :
  StronglySorted earlier l → l !! i = Some d →
  StronglySorted earlier (vec_remove i l) ∧ ∀ x, x ∈ vec_remove i l ↔ x ∈ l ∧ x ≠ d.
Proof.
  unfold vec_remove. intros Hs. revert i. induction Hs as [|x l Hs IH Hx]; intros [|i] Hi; cbn in *; try done.
  - injection Hi as ->. rewrite drop_0. split; [done|]. intros y. rewrite elem_of_cons. split.
    + intros Hy. split; [by right|]. intros ->. rewrite Forall_forall in Hx. apply Hx in Hy. lia.
    + by intros [[->|Hy] Hn].
  - destruct (IH i Hi) as [Hr He]. assert (Hd : d ∈ l) by by eapply list_elem_of_lookup_2. rewrite Forall_forall in Hx. split.
    + constructor; [done|]. apply Forall_forall. intros y [Hy _]%He. by apply Hx.
    + intros y. rewrite !elem_of_cons, He. split; [|tauto]. intros [->|[]]; [|tauto]. split; [by left|]. intros ->. apply Hx in Hd. lia.
Qed.

Lemma omap_found_snoc (h : list Event) e : omap found_of (h ++ [e]) = omap found_of h ++ match found_of e with Some d => [d] | None => [] end.
Proof. rewrite omap_app. cbn. by destruct (found_of e). Qed.

Lemma elem_found (h : list Event) d : d ∈ omap found_of h ↔ ∃ q, Found_event q d ∈ h.
Proof.
  rewrite list_elem_of_omap. split.
  - intros ([q d'|q d'] & He & E); [|done]. injection E as ->. by exists q.
  - intros [q Hq]. by exists (Found_event q d).
Qed.

Lemma view_ok_found (q : nat) l d qs o h :
  qs !! q = Some l → (∀ q' d', Found_event q' d' ∈ h → ds_order d' < ds_order d) →
  view_ok {| v_queues := qs; v_order := o; v_history := h |} →
  view_ok {| v_queues := <[q := l ++ [d]]> qs; v_order := Z.max o (ds_order d); v_history := h ++ [Found_event (Z.of_nat q) d] |}.
Proof.
  intros Hl Hd [L F B W S R A N O]. cbn [v_queues v_order v_history] in *.
  assert (Hnew : ∀ q', Admitted_event q' d ∉ h) by (intros q' Ha%A%Hd; lia).
  split; cbn [v_queues v_order v_history].
  - by rewrite length_insert.
  - rewrite omap_found_snoc. apply sorted_snoc; [done|]. intros x [q' Hx]%elem_found. by eapply Hd.
  - intros q' d' [Hf%B|Hf]%elem_of_app; [lia|]. apply list_elem_of_singleton in Hf as [= -> ->]. lia.
  - intros q' l' d' Hl'. rewrite !elem_of_app, !list_elem_of_singleton. destruct (decide (q' = q)) as [->|Hq].
    + rewrite list_lookup_insert_eq in Hl' by by eapply lookup_lt_Some. injection Hl' as <-.
      rewrite elem_of_app, list_elem_of_singleton, (W _ _ d' Hl). naive_solver.
    + rewrite list_lookup_insert_ne in Hl' by done. rewrite (W _ _ d' Hl'). naive_solver lia.
  - intros q' l' Hl'. destruct (decide (q' = q)) as [->|Hq]; [|rewrite list_lookup_insert_ne in Hl' by done; by eapply S].
    rewrite list_lookup_insert_eq in Hl' by by eapply lookup_lt_Some. injection Hl' as <-.
    apply sorted_snoc; [by eapply S|]. intros x Hx. apply (W _ _ x Hl) in Hx as [Hx _]. by eapply Hd.
  - intros q' d' [Hf|Hf]%elem_of_app; [by eapply R|]. apply list_elem_of_singleton in Hf as [= -> ->]. exists q. split; [done|].
    rewrite <- L. by eapply lookup_lt_Some.
  - intros q' d' [Ha|Ha]%elem_of_app; [by apply elem_of_app; left; apply A|]. by apply list_elem_of_singleton in Ha.
  - intros h1 h2 q' d' [(_ & _ & E)|(h2' & _ & ->)]%snoc_split; [done|by eapply N].
  - intros h1 h2 q1 q2 d1 d2 [(_ & _ & E)|(h2' & _ & ->)]%snoc_split; [done|]. intros [Hf|Hf]%elem_of_app Hlt; [by eapply O|].
    apply list_elem_of_singleton in Hf as [= -> ->]. exfalso.
    assert (Ha : ds_order d2 < ds_order d); [|lia]. apply (Hd q2), A, elem_of_app. right. by left.
Qed.

Lemma view_ok_admit (q i : nat) l d qs o h :
  qs !! q = Some l → l !! i = Some d →
  (∀ d', d' ∈ concat qs → ds_order d' < ds_order d → ¬ conflict d' (Z.of_nat q) d) →
  (i = 0%nat ∨ is_read (ds_request d) = true) →
  view_ok {| v_queues := qs; v_order := o; v_history := h |} →
  view_ok {| v_queues := <[q := vec_remove i l]> qs; v_order := o; v_history := h ++ [Admitted_event (Z.of_nat q) d] |}.
Proof.
  intros Hl Hi Hc Hr [L F B W S R A N O]. cbn [v_queues v_order v_history] in *.
  destruct (vec_remove_sorted l i d (S _ _ Hl) Hi) as [Hs He].
  assert (Hd : d ∈ l) by by eapply list_elem_of_lookup_2. pose proof (proj1 (W _ _ d Hl) Hd) as [Hf Hn].
  split; cbn [v_queues v_order v_history].
  - by rewrite length_insert.
  - by rewrite omap_found_snoc, app_nil_r.
  - intros q' d' [Hx%B|Hx]%elem_of_app; [lia|]. by apply list_elem_of_singleton in Hx.
  - intros q' l' d' Hl'. rewrite !elem_of_app, !list_elem_of_singleton. destruct (decide (q' = q)) as [->|Hq].
    + rewrite list_lookup_insert_eq in Hl' by by eapply lookup_lt_Some. injection Hl' as <-.
      rewrite He, (W _ _ d' Hl). naive_solver.
    + rewrite list_lookup_insert_ne in Hl' by done. rewrite (W _ _ d' Hl'). naive_solver lia.
  - intros q' l' Hl'. destruct (decide (q' = q)) as [->|Hq]; [|rewrite list_lookup_insert_ne in Hl' by done; by eapply S].
    rewrite list_lookup_insert_eq in Hl' by by eapply lookup_lt_Some. by injection Hl' as <-.
  - intros q' d' [Hx|Hx]%elem_of_app; [by eapply R|]. by apply list_elem_of_singleton in Hx.
  - intros q' d' [Ha|Ha]%elem_of_app; apply elem_of_app; left; [by apply A|]. by apply list_elem_of_singleton in Ha as [= -> ->].
  - intros h1 h2 q' d' [(-> & -> & [= -> ->])|(h2' & _ & ->)]%snoc_split; [done|by eapply N].
  - intros h1 h2 q1 q2 d1 d2 Hh [Hx|Hx]%elem_of_app Hlt Hor; [|by apply list_elem_of_singleton in Hx].
    apply snoc_split in Hh as [(-> & -> & [= -> ->])|(h2' & _ & ->)]; [|by eapply O].
    apply dec_stable. intros Ha. destruct (R _ _ Hx) as (n & -> & Hlen). rewrite <- L in Hlen.
    apply lookup_lt_is_Some in Hlen as [l1 Hl1]. assert (Hd1 : d1 ∈ l1) by by apply (W _ _ d1 Hl1).
    destruct Hor as [Hor|[En Hor]].
    + apply (Hc d1); [|done..]. apply list_elem_of_In, in_concat. exists l1. rewrite <- !list_elem_of_In. split; [|done].
      by eapply list_elem_of_lookup_2.
    + assert (n = q) as -> by lia. assert (l1 = l) as -> by congruence. destruct Hr as [->|]; [|congruence].
      destruct l as [|x l]; [done|]. injection Hi as ->. specialize (S _ _ Hl). inversion_clear S as [|? ? _ Hall].
      rewrite Forall_forall in Hall. apply elem_of_cons in Hd1 as [->|Hd1]; [lia|]. apply Hall in Hd1. lia.
Qed.

Lemma vstep_ok v v' : vstep v v' → view_ok v → view_ok v'.
Proof. intros [q l d qs o h Hl Hd|q i l d qs o h Hl Hi Hc Hr]; [by apply view_ok_found|by apply view_ok_admit]. Qed.

Lemma vsteps_ok v v' : rtc vstep v v' → view_ok v → view_ok v'.
Proof. induction 1; [done|]. intros. eauto using vstep_ok. Qed.

(** ** The backend is a run of the machine *)

Section Refinement.
Context {Sto T C R : Type} `{Storage Sto T C R} `{Host Sto T C R}.
Context `{VirtioBlk} {M : Type} `{GuestMemory M} (mem : M) (capacity_bytes : Z).
Context (g : Geometry) (identity : Identity).

Abbreviation State := (Backend Sto T).

Definition view (b : State) : View :=
  {| v_queues := queues (frontier b); v_order := next_order (frontier b); v_history := history b |}.

(** An action that leaves the requests where they are. *)
Abbreviation silent := (keeps view).

Lemma silent_host {A} (c : Act Sto A) : silent (host_op c).
Proof. by apply keeps_zoom. Qed.

Lemma silent_waits {A} head (c : Act (QueueAdmission T * Sto) A) : silent (waits_op head c).
Proof. destruct head; apply keeps_zoom; by intros s []. Qed.

Lemma silent_reads {A} (c : Act (QueueAdmission T * Sto) A) : silent (reads_op c).
Proof. apply (silent_waits false). Qed.

Lemma silent_carrier {A} (op : Op A) : silent (carrier_op op).
Proof. intros b. unfold wp, carrier_op. destruct (carrier b) as [m|]; [|done]. by destruct (op m). Qed.

Lemma silent_waiting queue : silent (waiting queue).
Proof. done. Qed.

Lemma silent_counters id requests : silent (modify (set_counters id requests)).
Proof. done. Qed.

#[local] Hint Resolve silent_host silent_waits silent_reads silent_carrier silent_waiting silent_counters : keeps.

Lemma silent_accept queue available request permit : silent (accept capacity_bytes g identity queue available request permit).
Proof. unfold accept. keeps_steps. Qed.

Lemma view_queues (b b' : State) : view b' = view b → queues (frontier b') = queues (frontier b).
Proof. by intros [= -> _ _]. Qed.

(** The selected candidate is eligible. *)
Lemma select_eligible queue candidates (b : State) :
  wp (select queue candidates) (λ b' r, view b' = view b ∧
    ∀ c permit, r = Ok (Some (c, permit)) → Frontier_eligible (frontier b) (Z.to_nat queue) c = Ok true) b.
Proof.
  revert b. induction candidates as [|c rest IH]; intros b; cbn [select]; [by apply wp_ret|].
  apply wp_bind, wp_gets. cbn iota beta. apply wp_bind, wp_liftr.
  destruct (Frontier_eligible (frontier b) (Z.to_nat queue) c) as [[]|e|] eqn:Ee; cbn [negb]; [|apply IH|done..].
  apply wp_bind. eapply wp_mono; [apply silent_waiting|]. cbn iota beta. intros b1 [q|e|] V1; [|done..].
  apply wp_bind, wp_liftr. destruct (expect (q !! c)) as [d|e|]; [|done..].
  apply wp_bind. eapply wp_mono; [apply (keeps_when view), silent_reads|]. cbn iota beta. intros b2 [[]|e|] V2; [|split; [congruence|done]..].
  apply wp_bind, wp_gets. cbn iota beta.
  apply wp_bind. eapply wp_mono; [apply silent_waits|]. cbn iota beta. intros b3 [[|permit]|e|] V3; [| |split; [congruence|done]..].
  - destruct (is_read (ds_request d)); [apply wp_ret; split; [congruence|done]|].
    eapply wp_mono; [apply IH|]. cbn. intros b4 r [V4 Hs]. split; [congruence|]. intros c' p E.
    rewrite <- (Hs c' p E). unfold Frontier_eligible. by rewrite (view_queues b b3) by congruence.
  - apply wp_bind. eapply wp_mono; [apply silent_waits|]. cbn iota beta. intros b4 [[]|e|] V4; [|split; [congruence|done]..].
    apply wp_ret. split; [congruence|]. by intros c' p [= -> _].
Qed.

(** Every action of the backend only moves along the machine. *)
Definition advances {A} (c : Act State A) : Prop :=
  ∀ v b, view_ok v → rtc vstep v (view b) → wp c (λ b' _, rtc vstep v (view b')) b.

Lemma silent_advances {A} (c : Act State A) : silent c → advances c.
Proof. intros Hc v b _ Hv. eapply wp_mono; [apply Hc|]. by intros b' r ->. Qed.

Lemma advances_bind {A B} (c : Act State A) (f : A → Act State B) : advances c → (∀ a, advances (f a)) → advances (c ≫= f).
Proof.
  intros Hc Hf v b Hok Hv. apply wp_bind. eapply wp_mono; [by apply Hc|]. intros b' [a|e|] Hv'; [|done..]. by apply Hf.
Qed.

Lemma eligible_spec (f : Frontier T) queue i :
  Frontier_eligible f queue i = Ok true → ∃ l d, queues f !! queue = Some l ∧ l !! i = Some d ∧
    (i = 0%nat ∨ is_read (ds_request d) = true) ∧
    ∀ d', d' ∈ concat (queues f) → ds_order d' < ds_order d → ¬ conflict d' (Z.of_nat queue) d.
Proof.
  unfold Frontier_eligible. destruct (queues f !! queue) as [l|]; cbn [expect mbind result_mbind result_bind]; [|done].
  destruct (l !! i) as [d|] eqn:Ei; cbn [expect mbind result_mbind result_bind]; [|done].
  destruct (_ && _) eqn:Eb; [done|]. intros [= Hall]. exists l, d. split_and!; [done..| |].
  - apply andb_false_iff in Eb as [Eb%bool_decide_eq_false|Eb]; [left; by apply dec_stable|right]. by apply negb_false_iff in Eb.
  - intros d' Hd' Hlt. apply (proj1 (forallb_forall _ _)) with (x := d') in Hall.
    + unfold conflict. by destruct (conflicts _ _).
    + apply list_elem_of_In. by apply list_elem_of_filter.
Qed.

Lemma take_candidate_advances queue candidate v b :
  0 ≤ queue → rtc vstep v (view b) → Frontier_eligible (frontier b) (Z.to_nat queue) candidate = Ok true →
  wp (take_candidate queue candidate) (λ b' _, rtc vstep v (view b')) b.
Proof.
  intros Hq Hv (l & d & Hl & Hd & Hr & Hc)%eligible_spec. unfold take_candidate.
  apply wp_bind. unfold waiting. unfold wp at 1. rewrite Hl. cbn [expect]. apply wp_bind, wp_liftr. rewrite Hd. cbn [expect].
  apply wp_bind, wp_modify. cbn iota beta. apply wp_bind, wp_modify. cbn iota beta. apply wp_ret.
  eapply rtc_r; [exact Hv|].
  replace (Admitted_event queue d) with (Admitted_event (Z.of_nat (Z.to_nat queue)) d) by by rewrite Z2Nat.id. by eapply vstep_admit.
Qed.

Lemma admit_one_advances queue : 0 ≤ queue → advances (admit_one capacity_bytes g identity queue).
Proof.
  intros Hq v b Hok Hv. unfold admit_one. apply wp_bind. eapply wp_mono; [apply silent_waiting|]. cbn iota beta.
  intros b1 [q|e|] V1; [|by rewrite V1..]. case_bool_decide; [apply wp_ret; by rewrite V1|].
  apply wp_bind. eapply wp_mono; [apply silent_host|]. cbn iota beta. intros b2 [[]|e|] V2; [|by rewrite V2, V1..].
  apply wp_bind. eapply wp_mono; [apply select_eligible|]. cbn iota beta. intros b3 [[[c permit]|]|e|] [V3 He];
    [| |by rewrite V3, V2, V1..]; [|apply wp_ret; by rewrite V3, V2, V1].
  apply wp_bind. eapply wp_mono; [apply (take_candidate_advances queue c v)|].
  - done.
  - by rewrite V3, V2, V1.
  - rewrite <- (He c permit eq_refl). unfold Frontier_eligible. by rewrite (view_queues b2 b3).
  - cbn iota beta. intros b4 [d|e|] Hv4; [|done..]. apply (advances_bind _ _ (silent_advances _ (silent_accept _ _ _ _))); [|done..].
    intros _. by apply silent_advances.
Qed.

Lemma admit_loop_advances n queue : 0 ≤ queue → advances (admit_loop capacity_bytes g identity n queue).
Proof.
  intros Hq. induction n as [|n IH]; cbn [admit_loop]; [by apply silent_advances|].
  apply advances_bind; [by apply admit_one_advances|]. intros []; cbn [negb]; [|by apply silent_advances].
  apply advances_bind; [done|]. intros k. by apply silent_advances.
Qed.

Lemma restore_spec order found request b :
  let d := {| ds_request := request; ds_available := rq_available found; ds_order := order |} in
  wp (restore order found request) (λ b' r,
    match r with
    | Ok _ => carrier b' = carrier b ∧ next_id b' = next_id b ∧ ∃ l, queues (frontier b) !! Z.to_nat (rq_queue found) = Some l ∧
        view b' = {| v_queues := <[Z.to_nat (rq_queue found) := l ++ [d]]> (queues (frontier b));
                     v_order := Z.max (next_order (frontier b)) order; v_history := history b ++ [Found_event (rq_queue found) d] |}
    | _ => b' = b
    end) b.
Proof.
  intros d. apply wp_bind, wp_gets. cbn iota beta. apply wp_bind, wp_liftr. unfold Frontier_restore.
  destruct (queues (frontier b) !! Z.to_nat (rq_queue found)) as [l|] eqn:El; cbn [expect mbind result_mbind result_bind]; [|done].
  case_bool_decide; [done|]. apply wp_bind, wp_modify. cbn iota beta. apply wp_modify. split_and!; [done..|]. by exists l.
Qed.

Lemma restore_advances order found request v b :
  0 ≤ rq_queue found → rtc vstep v (view b) → (∀ q d, Found_event q d ∈ history b → ds_order d < order) →
  wp (restore order found request) (λ b' r, rtc vstep v (view b') ∧
    (r = Ok tt → ∀ q d, Found_event q d ∈ history b' → ds_order d ≤ order)) b.
Proof.
  intros Hq Hv Ho. eapply wp_mono; [apply restore_spec|]. cbn iota beta zeta. intros b' [[]|e|]; [|by intros ->..].
  set (d := {| ds_request := request; ds_available := _; ds_order := _ |}). intros (_ & _ & l & Hl & E). split.
  - rewrite E. eapply rtc_r; [exact Hv|].
    replace (Found_event (rq_queue found) d) with (Found_event (Z.of_nat (Z.to_nat (rq_queue found))) d) by by rewrite Z2Nat.id.
    by apply (vstep_found _ l d).
  - intros _ q' d' Hd'. assert (Eh : history b' = history b ++ [Found_event (rq_queue found) d]) by by injection E.
    rewrite Eh in Hd'. apply elem_of_app in Hd' as [Hd'%Ho|Hd'%list_elem_of_singleton]; [lia|]. by injection Hd' as -> ->.
Qed.

Lemma discover_one_advances queue size : 0 ≤ queue → advances (discover_one mem capacity_bytes g identity queue size).
Proof.
  intros Hq v b Hok Hv. pose proof (vsteps_ok _ _ Hv Hok) as Hb. unfold discover_one.
  apply wp_bind. eapply wp_mono; [apply silent_waiting|]. cbn iota beta. intros b1 [q|e|] V1; [|by rewrite V1..].
  case_bool_decide; [apply wp_ret; by rewrite V1|].
  apply wp_bind. eapply wp_mono; [apply silent_host|]. cbn iota beta. intros b2 [[[chain next]|]|e|] V2;
    [|apply wp_ret; by rewrite V2, V1|by rewrite V2, V1..].
  apply wp_bind. eapply wp_mono; [apply silent_host|]. cbn iota beta. intros b3 [reservation|e|] V3; [|by rewrite V3, V2, V1..].
  apply wp_bind, wp_liftr. assert (V : view b3 = view b) by congruence. clear V1 V2 V3.
  destruct (decode_chain _ _ _ _) as [request|e|]; [|by rewrite V..]. apply wp_bind, wp_gets. cbn iota beta zeta.
  set (r := Request_negotiated request _). set (found := Request_inflight r queue _).
  apply wp_bind, wp_gets. cbn iota beta. apply wp_bind, wp_liftr. unfold checked_add. case_decide; cbn [ok_or]; [|by rewrite V].
  apply wp_bind. eapply wp_mono; [apply silent_host|]. cbn iota beta. intros b4 [[]|e|] V4; [|by rewrite V4, V..].
  apply wp_bind. eapply wp_mono; [apply silent_carrier|]. cbn iota beta. intros b5 [carried|e|] V5; [|by rewrite V5, V4, V..].
  apply wp_bind, wp_liftr. assert (V' : view b5 = view b) by congruence. clear V4 V5.
  destruct (is_some_and carried _); [by rewrite V'|]. apply wp_bind.
  assert (Hf : rq_queue found = queue) by by unfold found, Request_inflight; destruct r.
  eapply wp_mono; [apply (restore_advances _ found r v)|].
  - by rewrite Hf.
  - by rewrite V'.
  - intros q' d' Hd'. assert (E : history b5 = history b) by by injection V'. rewrite E in Hd'.
    apply (vo_bound _ Hb) in Hd'. cbn in Hd'. assert (E' : next_order (frontier b3) = next_order (frontier b)) by by injection V. lia.
  - cbn iota beta. intros b6 [[]|e|] [Hv6 _]; [|done..].
    apply (advances_bind _ _ (silent_advances _ (silent_host _))); [|done..]. intros _. by apply silent_advances.
Qed.

Lemma discover_loop_advances n queue size : 0 ≤ queue → advances (discover_loop mem capacity_bytes g identity n queue size).
Proof.
  intros Hq. induction n as [|n IH]; cbn [discover_loop]; [by apply silent_advances|].
  apply advances_bind; [by apply discover_one_advances|]. intros []; [exact IH|by apply silent_advances].
Qed.

(** A visit of a queue is a run of the machine. *)
Lemma progress_advances queue discover : 0 ≤ queue → advances (progress_queue mem capacity_bytes g identity queue discover).
Proof.
  intros Hq. unfold progress_queue. apply advances_bind; [by apply silent_advances|]. intros blocked.
  apply advances_bind; [by apply silent_advances|]. intros ready. destruct (_ || _); [by apply silent_advances|].
  apply advances_bind; [by apply silent_advances|]. intros size.
  apply advances_bind; [by destruct discover; [apply discover_loop_advances|apply silent_advances]|]. intros [].
  apply advances_bind; [by apply admit_loop_advances|]. intros k. by apply silent_advances, keeps_when, silent_host.
Qed.

(** ** Recovery *)

(** The discoveries of a replay: in order, up to its highest. *)
Record replay_sorted (replay : Replay) : Prop := {
  rs_sorted : StronglySorted (λ x y : Z * Inflight.Request, x.1 < y.1) (rp_discovered replay);
  rs_queue order found : (order, found) ∈ rp_discovered replay → 0 ≤ rq_queue found;
}.

Lemma resume_one_advances chain_at order found v b :
  0 ≤ rq_queue found → rtc vstep v (view b) → (∀ q d, Found_event q d ∈ history b → ds_order d < order) →
  wp (resume_one mem capacity_bytes chain_at (order, found)) (λ b' r, rtc vstep v (view b') ∧
    (r = Ok tt → ∀ q d, Found_event q d ∈ history b' → ds_order d ≤ order)) b.
Proof.
  intros Hq Hv Ho. unfold resume_one.
  apply wp_bind. eapply wp_mono; [apply silent_host|]. cbn iota beta. intros b1 [reservation|e|] V1; [|by rewrite V1..].
  apply wp_bind, wp_liftr. destruct (decode_chain _ _ _ _) as [request|e|]; [|by rewrite V1..]. apply wp_bind, wp_gets. cbn iota beta zeta.
  apply wp_bind, wp_liftr. case_bool_decide; [|by rewrite V1]. apply restore_advances; [done|by rewrite V1|].
  assert (Eh : history b1 = history b) by by injection V1. by rewrite Eh.
Qed.

Lemma resume_loop_advances chain_at saved v b :
  StronglySorted (λ x y : Z * Inflight.Request, x.1 < y.1) saved → (∀ order found, (order, found) ∈ saved → 0 ≤ rq_queue found) →
  rtc vstep v (view b) → (∀ x q d, x ∈ saved → Found_event q d ∈ history b → ds_order d < x.1) →
  wp (resume_loop mem capacity_bytes chain_at saved) (λ b' _, rtc vstep v (view b')) b.
Proof.
  intros Hs. revert b. induction Hs as [|[order found] saved Hs IH Hall]; intros b Hq Hv Ho; cbn [resume_loop]; [done|].
  rewrite Forall_forall in Hall. apply wp_bind. eapply wp_mono; [apply resume_one_advances; [|exact Hv|]|].
  - eapply Hq. by left.
  - intros q d Hd. apply (Ho (order, found) q d); [by left|done].
  - cbn iota beta. intros b' [[]|e|] [Hv' Ho']; [|done..]. apply IH; [|done|].
    + intros order' found' Hin. eapply Hq. by right.
    + intros x q d Hx Hd. apply (Ho' eq_refl) in Hd. apply Hall in Hx. cbn in Hx. lia.
Qed.

(** A frontier that was just made. *)
Definition fresh (b : State) : Prop := frontier b = Frontier_new T ∧ history b = [].

Lemma new_view_ok o : view_ok {| v_queues := replicate CONCURRENT_QUEUES []; v_order := o; v_history := [] |}.
Proof.
  split; cbn [v_queues v_order v_history]; try (by intros; exfalso; eapply elem_of_nil); try done.
  - constructor.
  - intros q l d [-> _]%lookup_replicate. split; [intros Hd|intros [Hd _]]; by apply elem_of_nil in Hd.
  - intros q l [-> _]%lookup_replicate. constructor.
  - intros h1 h2 q d E. by destruct h1.
  - intros h1 h2 q1 q2 d1 d2 E. by destruct h1.
Qed.

Lemma resume_ok chain_at replay b :
  fresh b → replay_sorted replay → wp (resume mem capacity_bytes chain_at replay) (λ b' _, view_ok (view b')) b.
Proof.
  intros [Hf Hh] [Hs Hq]. unfold resume. apply wp_bind, wp_modify. cbn iota beta.
  pose proof (new_view_ok (rp_highest_discovery replay)) as Hok.
  eapply wp_mono; [apply resume_loop_advances; [done|done|apply rtc_refl|]|].
  - intros x q d _ Hd. cbn in Hd. rewrite Hh in Hd. by apply elem_of_nil in Hd.
  - cbn iota beta. intros b' _ Hv. eapply vsteps_ok; [exact Hv|]. unfold view. cbn. rewrite Hf, Hh. exact Hok.
Qed.

(** ** The life of a frontier *)

(** A frontier is made, perhaps filled from a replay, and then visited; what the
    other parts of the backend do between visits leaves its requests alone. *)
Inductive reachable : State → Prop :=
  | reachable_new b : fresh b → reachable b
  | reachable_resume b chain_at replay :
      fresh b → replay_sorted replay → reachable (resume mem capacity_bytes chain_at replay b).1
  | reachable_visit b queue discover :
      reachable b → 0 ≤ queue → reachable (progress_queue mem capacity_bytes g identity queue discover b).1
  | reachable_others b b' : reachable b → view b' = view b → reachable b'.

Lemma reachable_ok b : reachable b → view_ok (view b).
Proof.
  induction 1 as [b [Hf Hh]|b chain_at replay Hf Hr|b queue discover _ IH Hq|b b' _ IH E].
  - unfold view. rewrite Hf, Hh. apply new_view_ok.
  - pose proof (resume_ok chain_at replay b Hf Hr) as Hw. unfold wp in Hw. by destruct (resume _ _ _ _ b).
  - pose proof (progress_advances queue discover Hq _ b IH (rtc_refl _ _)) as Hw. unfold wp in Hw.
    destruct (progress_queue _ _ _ _ _ _ b). by eapply vsteps_ok.
  - by rewrite E.
Qed.

(** Two requests whose order a guest can observe: one of them is a control
    request, or they share a byte of the image that one of them changes. *)
Definition control (r : Inflight.Request) : Prop := rq_kind r = Inflight.Flush ∨ rq_kind r = Inflight.Protocol.

Definition touches (r : Inflight.Request) (x : Z) : Prop := rq_offset r ≤ x < rq_offset r + rq_length r.

Definition interferes (r1 r2 : Inflight.Request) : Prop :=
  control r1 ∨ control r2 ∨
  (¬ (rq_kind r1 = Inflight.Read ∧ rq_kind r2 = Inflight.Read) ∧ ∃ x, touches r1 x ∧ touches r2 x).

Definition range_of (d : Discovered) : Inflight.Request := Request_inflight (ds_request d) 0 0.

Lemma interferes_conflict d1 q d2 : interferes (range_of d1) (range_of d2) → conflict d1 q d2.
Proof.
  unfold conflict. set (r2 := Request_inflight (ds_request d2) q (ds_available d2)).
  assert (E : rq_kind r2 = rq_kind (range_of d2) ∧ rq_offset r2 = rq_offset (range_of d2) ∧ rq_length r2 = rq_length (range_of d2)).
  { unfold r2, range_of, Request_inflight. by destruct (ds_request d2). }
  destruct E as (E1 & E2 & E3). fold (range_of d1). unfold interferes, control, touches, conflicts. rewrite E1, E2, E3.
  destruct (range_of d1) as [k1 ? ? ? o1 l1], (range_of d2) as [k2 ? ? ? o2 l2]. cbn. clear.
  intros [Hc|[Hc|[Hn (x & Hx1 & Hx2)]]].
  - by destruct Hc as [E|E]; rewrite E.
  - destruct Hc as [E|E]; rewrite E; cbn; by rewrite ?orb_true_r.
  - destruct (_ || _) eqn:Ec; [done|]. rewrite (bool_decide_eq_false_2 (l1 = 0)), (bool_decide_eq_false_2 (l2 = 0)) by lia.
    rewrite !(bool_decide_eq_true_2 (_ < _)) by lia. destruct (bool_decide_reflect (k1 = Inflight.Read)), (bool_decide_reflect (k2 = Inflight.Read)); tauto.
Qed.

(** C10: In every history of a frontier, a request is admitted at most once and
    only after it was found, and those found and not admitted are waiting.  Two
    requests whose order can be observed, or that share a queue where the later
    one is no read, are admitted in the order of their discovery. *)
Theorem frontier_in_order b h1 h2 q2 d2 :
  reachable b → history b = h1 ++ Admitted_event q2 d2 :: h2 →
  Found_event q2 d2 ∈ history b ∧ (Admitted_event q2 d2 ∉ h1) ∧
  (∀ q1 d1, Found_event q1 d1 ∈ history b → ds_order d1 < ds_order d2 →
    interferes (range_of d1) (range_of d2) ∨ (q1 = q2 ∧ is_read (ds_request d2) = false) → Admitted_event q1 d1 ∈ h1) ∧
  (∀ (q : nat) l d, queues (frontier b) !! q = Some l →
    (d ∈ l ↔ Found_event (Z.of_nat q) d ∈ history b ∧ Admitted_event (Z.of_nat q) d ∉ history b)).
Proof.
  intros [VL VF VB W VS VR A N O]%reachable_ok E. cbn [view v_queues v_order v_history] in *. split_and!.
  - apply A. rewrite E. apply elem_of_app. right. by left.
  - by eapply N.
  - intros q1 d1 Hf Hlt [Hi%(interferes_conflict _ q2)|Hq]; eapply O; eauto.
  - exact W.
Qed.

(** C12: Whatever the rings, the storage and the carrier answer, a visit of a
    queue is a run of the abstract machine, also when it fails halfway. *)
Theorem visit_refines_machine b queue discover :
  reachable b → 0 ≤ queue →
  rtc vstep (view b) (view (progress_queue mem capacity_bytes g identity queue discover b).1).
Proof.
  intros Hok%reachable_ok Hq. pose proof (progress_advances queue discover Hq _ b Hok (rtc_refl _ _)) as Hw.
  unfold wp in Hw. by destruct (progress_queue _ _ _ _ _ _ b).
Qed.

(** ** Progress *)

Lemma oldest_exists (ds : list Discovered) : ds ≠ [] → ∃ d, d ∈ ds ∧ ∀ d', d' ∈ ds → ds_order d ≤ ds_order d'.
Proof.
  induction ds as [|x ds IH]; [done|]. intros _. destruct (decide (ds = [])) as [->|Hn].
  - exists x. split; [by left|]. by intros d' ->%list_elem_of_singleton.
  - destruct (IH Hn) as (d & Hd & Hmin). destruct (decide (ds_order x ≤ ds_order d)) as [Hle|Hle].
    + exists x. split; [by left|]. intros d' [->|Hd'%Hmin]%elem_of_cons; lia.
    + exists d. split; [by right|]. intros d' [->|Hd'%Hmin]%elem_of_cons; lia.
Qed.

Lemma eligible_oldest (f : Frontier T) q d l :
  queues f !! q = Some (d :: l) → (∀ d', d' ∈ concat (queues f) → ds_order d ≤ ds_order d') → Frontier_eligible f q 0 = Ok true.
Proof.
  intros Hq Hmin. unfold Frontier_eligible. rewrite Hq. cbn. f_equal. apply forallb_forall. intros x Hx%list_elem_of_In.
  apply list_elem_of_filter in Hx as [Hlt Hx%Hmin]. lia.
Qed.

(** What the admission loop asks of the storage for the head of a queue. *)
Definition attempt (queue : Z) (d : Discovered) : Act State (Admission C R) :=
  host_op lock_checked;;
  reads_op (cancel_matching queue (ds_available d) (head (Request_completion (ds_request d))));;
  full ← gets (λ b, pending_full (storage b));
  head_op (prepare_admission queue (ds_available d) (ds_request d) true full).

Lemma head_op_size {A} (c : Act (QueueAdmission T * Sto) A) b b' r :
  keeps (λ st, length (heads st.1)) c → head_op c b = (b', r) → length (heads (admission b')) = length (heads (admission b)).
Proof.
  intros Hc. unfold head_op, zoom. specialize (Hc (admission b, storage b)). unfold wp in Hc.
  destruct (c (admission b, storage b)) as [[q s] r']. by intros [= <- <-].
Qed.

Lemma head_finish_run queue (b : State) :
  (Z.to_nat queue < length (heads (admission b)))%nat → ∃ b' : State, head_op (finish_wait queue true) b = (b', Ok tt).
Proof.
  intros Hl. destruct (finish_wait_run queue true (admission b, storage b) Hl) as [[q s] E].
  unfold head_op, zoom. rewrite E. by eexists.
Qed.

Lemma take_candidate_run queue candidate d l (b : State) :
  queues (frontier b) !! Z.to_nat queue = Some l → l !! candidate = Some d →
  ∃ b' : State, take_candidate queue candidate b = (b', Ok d) ∧ history b' = history b ++ [Admitted_event queue d].
Proof.
  intros Hl Hd. unfold take_candidate, waiting, mbind, act_bind. rewrite Hl. cbn. rewrite Hd. cbn. by eexists.
Qed.

(** The head is tried first, and admitted if the storage accepts it. *)
Lemma attempt_admits queue d l b b' permit :
  (Z.to_nat queue < length (heads (admission b)))%nat →
  queues (frontier b) !! Z.to_nat queue = Some (d :: l) → Frontier_eligible (frontier b) (Z.to_nat queue) 0 = Ok true →
  attempt queue d b = (b', Ok (Accepted permit)) →
  history (admit_one capacity_bytes g identity queue b).1 = history b ++ [Admitted_event queue d].
Proof.
  intros Hlen Hl He Ha. unfold attempt in Ha.
  apply bind_inv in Ha as (b1 & [] & E1 & Ha). apply bind_inv in Ha as (b2 & [] & E2 & Ha). apply bind_inv in Ha as (b2' & full & [= <- <-] & E3).
  pose proof (keeps_run view _ _ _ _ (silent_host _) E1) as V1. pose proof (keeps_run view _ _ _ _ (silent_reads _) E2) as V2.
  pose proof (keeps_run view _ _ _ _ (silent_waits true _) E3) as V3.
  assert (V : view b' = view b) by congruence. assert (Va : admission b2 = admission b).
  { transitivity (admission b1).
    - refine (keeps_run admission _ _ _ _ _ E2). apply keeps_zoom. by intros s [].
    - refine (keeps_run admission _ _ _ _ _ E1). by apply keeps_zoom. }
  assert (Hlen' : (Z.to_nat queue < length (heads (admission b')))%nat).
  { by rewrite (head_op_size _ _ _ _ (size_prepare_admission _ _ _ _ _) E3), Va. }
  destruct (head_finish_run queue b' Hlen') as [b3 E4]. pose proof (keeps_run view _ _ _ _ (silent_waits true _) E4) as V4.
  assert (Hq : ∀ x : State, view x = view b → waiting queue x = (x, Ok (d :: l))).
  { intros x Hx. unfold waiting. by rewrite (view_queues b x Hx), Hl. }
  assert (Hs : select queue (seq 0 (length (d :: l))) b1 = (b3, Ok (Some (0%nat, permit)))).
  { cbn [length seq select]. rewrite (bind_run _ _ _ b1 (frontier b1)) by done.
    rewrite (bind_run _ _ _ b1 true) by by unfold liftr, Frontier_eligible in *; rewrite (view_queues b b1 V1), He. cbn [negb].
    rewrite (bind_run _ _ _ b1 (d :: l)) by by apply Hq. rewrite (bind_run _ _ _ b1 d) by done. cbn zeta.
    rewrite (bind_run _ _ _ b2 tt) by done. rewrite (bind_run _ _ _ b2 (pending_full (storage b2))) by done.
    rewrite (bind_run _ _ _ b' (Accepted permit)) by done. by rewrite (bind_run _ _ _ b3 tt). }
  unfold admit_one. rewrite (bind_run _ _ _ b (d :: l)) by by apply Hq. cbn [length].
  rewrite bool_decide_eq_false_2 by done. rewrite (bind_run _ _ _ b1 tt) by done. rewrite (bind_run _ _ _ _ _ Hs).
  destruct (take_candidate_run queue 0 d (d :: l) b3) as (b4 & E5 & Eh); [by rewrite (view_queues b b3) by congruence|done|].
  rewrite (bind_run _ _ _ _ _ E5). assert (Eb : history b3 = history b) by (assert (Vb : view b3 = view b) by congruence; by injection Vb).
  destruct (accept capacity_bytes g identity queue (ds_available d) (ds_request d) permit b4) as [b5 r] eqn:E6.
  pose proof (keeps_run view _ _ _ _ (silent_accept _ _ _ _) E6) as V6. assert (E7 : history b5 = history b4) by by injection V6.
  unfold mbind, act_bind. rewrite E6. rewrite <- Eb, <- Eh, <- E7. by destruct r.
Qed.

(** C11: Whenever requests wait, the oldest of them is at the head of its queue
    and eligible, so no two requests ever wait for each other: a visit of that
    queue tries it first, and admits it if the storage accepts it. *)
Theorem oldest_request_progresses b :
  reachable b → Frontier_is_empty (frontier b) = false →
  ∃ (q : nat) d l, queues (frontier b) !! q = Some (d :: l) ∧
    (∀ d', d' ∈ concat (queues (frontier b)) → ds_order d ≤ ds_order d') ∧
    Frontier_eligible (frontier b) q 0 = Ok true ∧
    ∀ b' permit, (q < length (heads (admission b)))%nat → attempt (Z.of_nat q) d b = (b', Ok (Accepted permit)) →
      history (admit_one capacity_bytes g identity (Z.of_nat q) b).1 = history b ++ [Admitted_event (Z.of_nat q) d].
Proof.
  intros Hok%reachable_ok He. assert (Hn : concat (queues (frontier b)) ≠ []).
  { intros Hc. unfold Frontier_is_empty in He. apply not_true_iff_false in He. destruct He. apply forallb_forall. intros l Hl.
    apply bool_decide_eq_true. destruct l as [|d l]; [done|]. assert (Hd : d ∈ concat (queues (frontier b))); [|by rewrite Hc in Hd; apply elem_of_nil in Hd].
    apply list_elem_of_In, in_concat. exists (d :: l). split; [done|by left]. }
  destruct (oldest_exists _ Hn) as (d & Hd & Hmin).
  pose proof Hd as Hd'. apply list_elem_of_In, in_concat in Hd' as (l & Hl & Hin). apply list_elem_of_In in Hl, Hin.
  apply list_elem_of_lookup_1 in Hl as [q Hl]. pose proof (vo_sorted _ Hok _ _ Hl) as Hs. destruct l as [|x l]; [by apply elem_of_nil in Hin|].
  assert (x = d) as ->.
  { apply elem_of_cons in Hin as [->|Hin]; [done|]. inversion_clear Hs as [|? ? _ Hall]. rewrite Forall_forall in Hall. apply Hall in Hin.
    assert (Hx : ds_order d ≤ ds_order x); [|lia]. apply Hmin, list_elem_of_In, in_concat. exists (x :: l). rewrite <- !list_elem_of_In.
    split; [by eapply list_elem_of_lookup_2|by left]. }
  assert (Hel : Frontier_eligible (frontier b) q 0 = Ok true) by by eapply eligible_oldest.
  exists q, d, l. split_and!; [done..|]. intros b' permit Hlen Ha.
  eapply attempt_admits; rewrite ?Nat2Z.id; [done|exact Hl|done|exact Ha].
Qed.

Lemma view_set_storage s (b : State) : view (set_storage s b) = view b.
Proof. done. Qed.

End Refinement.

(** ** A backend for the witnesses *)

Module Demo.

(** Rings to take from, and writes the storage still accepts. *)
Record Host : Type := { rings : list (list NextChain); writes : Z }.

(** The heads are [u16]. *)
Definition u16_chain (c : NextChain) : NextChain := {|
  nc_chain := {| chain_head := chain_head (nc_chain c) mod 2 ^ 16; chain_descriptors := chain_descriptors (nc_chain c) |};
  nc_next_avail := nc_next_avail c |}.

Definition pop (queue : Z) (s : Host) : Host :=
  {| rings := alter tl (Z.to_nat queue) (rings s); writes := writes s |}.

#[local] Instance host_storage : Storage Host unit unit unit := {|
  now _ := 0;
  admission_ticket _ s := (s, Ok None);
  Ticket_turn _ s := (s, Ok true);
  Turn_commit _ s := (s, tt);
  Turn_drop _ s := s;
  Ticket_drop _ s := s;
  prepare kind s :=
    match kind with
    | Local.Write _ =>
        if bool_decide (writes s = 0) then (s, Ok (Pressure.Waiting Pressure.Staging))
        else ({| rings := rings s; writes := writes s - 1 |}, Ok (Pressure.Ready (Permit_Local tt None)))
    | _ => (s, Ok (Pressure.Ready (Permit_Local tt None)))
    end;
|}.

#[local] Instance host : Frontier.Host Host unit unit unit := {|
  queue_ready _ _ := true;
  queue_length _ _ := 4%nat;
  negotiated_features _ := 0;
  device_features _ := 0;
  peek queue s := (s, Ok (u16_chain <$> (rings s !! Z.to_nat queue ≫= hd_error)));
  set_next_avail queue _ s := pop queue s;
  reserve_spans s := (s, Ok tt);
  lock_checked := mret tt;
  pending_full _ := false;
  fault_hit _ _ := Ok tt;
  enqueue _ := mret tt;
  completion_event := mret tt;
|}.

#[local] Existing Instance GuestRequest.virtio_blk.
#[local] Existing Instance GuestRequest.region_memory.

(** Three request headers, a block of payload and a status byte. *)
Definition header (kind sector : Z) : bytes := le_encode 4 kind ++ le_encode 4 0 ++ le_encode 8 sector.
Definition memory : Region :=
  {| region_bytes := header 1 8 ++ header 0 16 ++ header 0 8 ++ replicate 4097 0 |}.

Definition chain (h at_ : Z) (w : bool) : Chain := {|
  chain_head := h;
  chain_descriptors := terminated [{| addr := at_; len := 16; writable := false |}; {| addr := 48; len := 4096; writable := w |};
    {| addr := 4144; len := 1; writable := true |}] |}.

(** One queue: a write of the second block, reads of the third and the second. *)
Definition ring : list NextChain :=
  [{| nc_chain := chain 0 0 false; nc_next_avail := 1 |}; {| nc_chain := chain 1 16 true; nc_next_avail := 2 |};
   {| nc_chain := chain 2 32 true; nc_next_avail := 3 |}].

Definition start : Backend Host unit := {|
  storage := {| rings := [ring; []; []; []]; writes := 0 |};
  frontier := Frontier_new unit; admission := QueueAdmission_default unit; carrier := None; next_id := 0;
  blocked_queues := replicate 4 false; queue_requests := replicate 4 0; history := [] |}.

Abbreviation visit := (progress_queue memory 65536 InflightLife.demo_geometry InflightLife.demo_identity 0 true).
Abbreviation reaches := (reachable memory 65536 InflightLife.demo_geometry InflightLife.demo_identity).

(** The write is refused, a read passes it, and the other read waits for it. *)
Definition blocked : Backend Host unit := (visit start).1.

(** The storage accepts the write, and the read behind it follows. *)
Definition accepting : Backend Host unit := set_storage {| rings := rings (storage blocked); writes := 1 |} blocked.
Definition served : Backend Host unit := (visit accepting).1.

Lemma blocked_reachable : reaches blocked.
Proof. apply reachable_visit; [by apply reachable_new|done]. Qed.

Lemma accepting_reachable : reaches accepting.
Proof. apply (reachable_others _ _ _ _ blocked); [apply blocked_reachable|]. exact (view_set_storage _ blocked). Qed.

Lemma served_reachable : reaches served.
Proof. apply reachable_visit; [exact accepting_reachable|done]. Qed.

(** What was found, in order. *)
Definition data (h offset : Z) (w : bool) : DataRequest := {|
  data_completion := {| GuestRequest.head := h; status := 4144 |}; data_offset := offset;
  segments := [{| addr := 48; len := 4096; writable := w |}]; data_len := 4096 |}.
Definition found_write : Discovered := {| ds_request := Write (data 0 4096 false); ds_available := 0; ds_order := 1 |}.
Definition found_other : Discovered := {| ds_request := Read (data 1 8192 true); ds_available := 1; ds_order := 2 |}.
Definition found_read : Discovered := {| ds_request := Read (data 2 4096 true); ds_available := 2; ds_order := 3 |}.
Definition before : list Event := [Found_event 0 found_write; Found_event 0 found_other; Found_event 0 found_read;
  Admitted_event 0 found_other; Admitted_event 0 found_write].

Lemma served_history : history served = before ++ [Admitted_event 0 found_read].
Proof. by vm_compute. Qed.

Definition orders (h : list Event) : list (bool * Z) :=
  (λ e, match e with Found_event _ d => (false, ds_order d) | Admitted_event _ d => (true, ds_order d) end) <$> h.

End Demo.

Lemma visit_refines_machine_witness :
  Demo.orders (history Demo.served) = [(false, 1); (false, 2); (false, 3); (true, 2); (true, 1); (true, 3)] ∧
  rtc vstep (view Demo.accepting) (view Demo.served).
Proof.
  split; [by vm_compute|].
  apply (visit_refines_machine Demo.memory 65536 InflightLife.demo_geometry InflightLife.demo_identity
    Demo.accepting 0 true Demo.accepting_reachable). done.
Defined.

(** The write leaves before the read of its block that was found after it. *)
Lemma frontier_in_order_witness :
  history Demo.served = Demo.before ++ [Admitted_event 0 Demo.found_read] ∧
  interferes (range_of Demo.found_write) (range_of Demo.found_read) ∧ Admitted_event 0 Demo.found_write ∈ Demo.before.
Proof.
  assert (Hc : interferes (range_of Demo.found_write) (range_of Demo.found_read)).
  { right. right. split; [by intros [E _]|]. exists 4096. by vm_compute. }
  split_and!; [exact Demo.served_history|exact Hc|].
  destruct (frontier_in_order Demo.memory 65536 InflightLife.demo_geometry InflightLife.demo_identity
    Demo.served Demo.before [] 0 Demo.found_read Demo.served_reachable Demo.served_history) as (_ & _ & Hord & _).
  apply (Hord 0 Demo.found_write); [|done|left; exact Hc]. rewrite Demo.served_history. by left.
Defined.

(** The refused write is the oldest request that waits. *)
Lemma oldest_request_progresses_witness :
  ∃ (q : nat) d l, queues (frontier Demo.blocked) !! q = Some (d :: l) ∧ Frontier_eligible (frontier Demo.blocked) q 0 = Ok true.
Proof.
  destruct (oldest_request_progresses Demo.memory 65536 InflightLife.demo_geometry InflightLife.demo_identity
    Demo.blocked Demo.blocked_reachable ltac:(by vm_compute)) as (q & d & l & Hq & _ & He & _).
  exists q, d, l. exact (conj Hq He).
Defined.
