(* ===== verification/FrontierCarrier.v ===== *)
(** * The frontier and the inflight region agree

    The backend keeps each request it has not completed twice: in memory, and in
    the inflight region that survives it.  While the backend serves, the
    requests that wait in the frontier are exactly those the region holds as
    found, in the same order; the next discovery and the next serial are the
    region's, so the checks for a difference never fail; and a frontier that is
    rebuilt from the replay of a region agrees with it again. *)
From stdpp Require Import functions sorting.
From S2P Require Import Prelude Bytes Inflight InflightSound InflightRecover InflightFail InflightLife GuestRequest Action Admission Frontier FrontierOrder.

(** ** What an operation does not store *)

Definition avoids {A} (a : Address) (op : Op A) (m : Memory) : Prop := Forall (λ s, s.1 ≠ a) (op m).1.

(** An operation that stores nothing. *)
Definition pure_trace {A} (op : Op A) : Prop := ∀ m, (op m).1 = [].

Lemma avoids_run {A} a (op : Op A) m : avoids a op m → run (op m).1 m a = m a.
Proof.
  unfold avoids, run. generalize (op m).1. intros t Ht. revert m. induction Ht as [|[b v] t Hb Ht IH]; intros m; [done|].
  cbn [foldl]. rewrite IH. by apply run_store_ne.
Qed.

Section Avoids.
Context (a : Address).

Lemma avoids_bind {A B} (op : Op A) (f : A → Op B) m :
  avoids a op m → (∀ x, (op m).2 = Ok x → avoids a (f x) (run (op m).1 m)) → avoids a (op ≫= f) m.
Proof.
  unfold avoids, mbind, op_bind. destruct (op m) as [t [x|e|]]; cbn [fst snd]; intros H1 H2; [|done..].
  specialize (H2 x eq_refl). destruct (f x (run t m)). by apply Forall_app.
Qed.

Lemma avoids_pure {A B} (op : Op A) (f : A → Op B) m :
  pure_trace op → (∀ x, (op m).2 = Ok x → avoids a (f x) m) → avoids a (op ≫= f) m.
Proof. intros Hp Hf. apply avoids_bind; rewrite ?Hp; [unfold avoids; by rewrite Hp|exact Hf]. Qed.

Lemma avoids_none {A} (op : Op A) m : pure_trace op → avoids a op m.
Proof. intros Hp. unfold avoids. by rewrite Hp. Qed.

Lemma avoids_store b v m : b ≠ a → avoids a (store b v) m.
Proof. intros. unfold avoids. cbn. by repeat constructor. Qed.

Lemma avoids_store_bind {B} b v (f : unit → Op B) m : b ≠ a → (∀ m', avoids a (f tt) m') → avoids a (store b v ≫= f) m.
Proof. intros Hb Hf. apply avoids_bind; [by apply avoids_store|]. intros []. auto. Qed.
End Avoids.

Lemma pure_bind {A B} (op : Op A) (f : A → Op B) : pure_trace op → (∀ x, pure_trace (f x)) → pure_trace (op ≫= f).
Proof.
  intros Hp Hf m. unfold mbind, op_bind. specialize (Hp m). destruct (op m) as [t [x|e|]]; cbn in Hp; subst; [|done..].
  specialize (Hf x m). cbn. destruct (f x m). cbn in *. by subst.
Qed.

Lemma pure_load a : pure_trace (load a).
Proof. done. Qed.
Lemma pure_lift {A} (r : result A) : pure_trace (lift r).
Proof. done. Qed.
Lemma pure_ret {A} (x : A) : pure_trace (mret x).
Proof. done. Qed.

Create HintDb traces discriminated.
#[export] Hint Resolve pure_load pure_lift pure_ret avoids_none : traces.

(** Step through an operation. *)
Ltac pure_steps :=
  repeat first [ solve [eauto 2 with traces] | apply pure_bind; intros
               | match goal with |- pure_trace (match ?x with _ => _ end) => destruct x
                               | |- pure_trace (let '(_, _) := ?x in _) => destruct x end ].

Ltac avoid_steps :=
  repeat first [ solve [eauto 2 with traces] | apply avoids_store_bind; [solve [congruence|auto]|intros]
               | apply avoids_store; solve [congruence|auto] | apply avoids_pure; [solve [pure_steps]|intros]
               | match goal with |- avoids _ (match ?x with _ => _ end) _ => destruct x
                               | |- avoids _ (let '(_, _) := ?x in _) _ => destruct x end
               | apply avoids_bind; [|intros] ].

Section Carrier.
Context (g : Geometry) (identity : Identity) (image_bytes : Z).

Lemma pure_check q h : pure_trace (Carrier_check g q h).
Proof. done. Qed.
Lemma pure_reject c message : pure_trace (reject_if c message).
Proof. done. Qed.
#[local] Hint Resolve pure_check pure_reject : traces.

Lemma pure_healthy : pure_trace Carrier_healthy.
Proof. unfold Carrier_healthy. pure_steps. Qed.
Lemma pure_available q : pure_trace (Carrier_available g q).
Proof. unfold Carrier_available. pure_steps. Qed.
Lemma pure_read_slot q h : pure_trace (Carrier_read_slot g identity image_bytes q h).
Proof. unfold Carrier_read_slot. pure_steps. Qed.
#[local] Hint Resolve pure_healthy pure_available pure_read_slot : traces.

(** The region's counters of discoveries and of serials. *)
Lemma discover_counter r m t d :
  Carrier_discover g identity image_bytes r m = (t, Ok d) → run t m (HeaderAt HDiscovery) = d.
Proof.
  intros (t1 & d' & t2 & _ & (t3 & [] & t4 & E & [= <- <-] & ->)%op_bind_ok & ->)%op_bind_ok. cbn in E. injection E as <-.
  by rewrite app_nil_r, run_app.
Qed.

Lemma admit_counter r rejected m t e :
  Carrier_admit_outcome g identity image_bytes r rejected m = (t, Ok e) → run t m (HeaderAt HSerial) = en_serial e.
Proof.
  intros (t1 & e' & t2 & _ & (t3 & [] & t4 & _ & (t5 & [] & t6 & _ & (t7 & [] & t8 & _ &
    (t9 & [] & t10 & E & [= <- <-] & ->)%op_bind_ok & ->)%op_bind_ok & ->)%op_bind_ok & ->)%op_bind_ok & ->)%op_bind_ok.
  cbn in E. injection E as <-. by rewrite app_nil_r, !run_app.
Qed.

(** Admission of a found request discovers nothing. *)
Lemma admit_found_avoids r rejected m :
  m (SlotAt (rq_queue r) (rq_head r) SState) ≠ EMPTY →
  avoids (HeaderAt HDiscovery) (Carrier_admit_outcome g identity image_bytes r rejected) m.
Proof.
  intros Hs. unfold Carrier_admit_outcome, Carrier_admit_observed. apply avoids_bind.
  - unfold Carrier_prepare. do 7 (apply avoids_pure; [pure_steps|intros]). apply avoids_pure; [done|]. intros empty [= <-].
    rewrite bool_decide_eq_false_2 by done. avoid_steps.
  - intros e _. unfold Carrier_activate, Carrier_finish_admission. avoid_steps.
Qed.

(** The calls between visits: completion, publication, a queue's first use, the
    restart of a ring. *)
Definition settles (s : Step) : Prop :=
  match s with Complete _ _ _ | Publish _ | Initialize _ _ | Restart _ _ _ _ => True | _ => False end.

Lemma settles_avoids s m a :
  settles s → a = HeaderAt HDiscovery ∨ a = HeaderAt HSerial → avoids a (InflightLife.perform g identity image_bytes s) m.
Proof.
  intros Hs Ha. assert (Hg : ∀ q, GuestUsed q ≠ a) by (intros q; destruct Ha; congruence).
  assert (H1 : ∀ q h f, SlotAt q h f ≠ a) by (intros; destruct Ha; congruence).
  assert (H2 : ∀ q h f, DescriptorAt q h f ≠ a) by (intros; destruct Ha; congruence).
  assert (H3 : ∀ q f, QueueAt q f ≠ a) by (intros; destruct Ha; congruence).
  assert (H4 : ∀ f, f ≠ HDiscovery → f ≠ HSerial → HeaderAt f ≠ a) by (intros; destruct Ha; congruence).
  assert (Hfail : ∀ op m, avoids a op m → avoids a (or_fail op) m).
  { intros op m' Ho. unfold avoids, or_fail in *. destruct (op m') as [t [|e|]]; cbn in *; [done| |done]. apply Forall_app. split; [done|].
    repeat constructor. cbn. auto. }
  destruct s as [r|r rejected|e used p|e used p|prefix|q available|q size available used|]; try done; cbn [InflightLife.perform].
  - unfold Carrier_complete, Carrier_begin_completion, Carrier_prepare_completion, Carrier_finish_completion.
    apply avoids_bind; [avoid_steps|]. intros _ _. apply avoids_bind; [|intros _ _; avoid_steps].
    apply (Hfail (publication p _ _)). destruct p as [|[] err]; unfold avoids; cbn; repeat constructor; cbn; auto.
  - unfold Carrier_publish, Carrier_published. avoid_steps.
  - change (avoids a (Carrier_initialize_queue g q available (m (GuestUsed q))) m).
    unfold Carrier_initialize_queue. avoid_steps.
  - unfold restart. apply avoids_store_bind; [auto|]. intros m'. apply Hfail. unfold rebase_queue, Carrier_queue_initialized.
    apply avoids_pure; [pure_steps|]. intros _ _. apply avoids_pure; [pure_steps|]. intros [] _; [|avoid_steps].
    unfold Carrier_reset_queue. do 4 (apply avoids_pure; [pure_steps|intros]).
    apply avoids_pure; [|intros; avoid_steps]. generalize (range (g_queue_size g)). intros l. 
    induction l as [|h l IH]; cbn [op_fold]; [done|]. apply pure_bind; [pure_steps|]. by intros [].
Qed.
End Carrier.

(** ** Agreement *)

Section Agreement.
Context {Sto T C R : Type} `{Storage Sto T C R} `{Host Sto T C R}.
Context `{VirtioBlk} {M : Type} `{GuestMemory M} (mem : M) (capacity_bytes : Z).
Context (g : Geometry) (identity : Identity).
Context (geometry_valid : 0 ≤ g_queue_size g ∧ Geometry_new (g_queues g) (g_queue_size g) = Ok g).

Abbreviation State := (Backend Sto T).
Abbreviation cell := (@cell g).
Abbreviation quiet := (@quiet g identity capacity_bytes).

(** How a waiting request is known to the region. *)
Definition known (queue : Z) (d : Discovered) : Inflight.Request :=
  Request_inflight (ds_request d) queue (ds_available d).
Definition key (queue : Z) (d : Discovered) : Z * Z := (queue, rq_head (known queue d)).

(** The region holds what waits, and nothing else, as found. *)
Definition same_found (qs : list (list Discovered)) (own : Z * Z → Owner) : Prop :=
  (∀ (q : nat) l d, qs !! q = Some l → d ∈ l →
     cell (key (Z.of_nat q) d) ∧ own (key (Z.of_nat q) d) = Found (ds_order d) (known (Z.of_nat q) d)) ∧
  (∀ k o r, cell k → own k = Found o r → ∃ (q : nat) l d, qs !! q = Some l ∧ d ∈ l ∧
     k = key (Z.of_nat q) d ∧ o = ds_order d ∧ r = known (Z.of_nat q) d).

(** The backend agrees with its carrier [m], whose owners are [own]. *)
Record agrees_with (b : State) (m : Memory) (own : Z * Z → Owner) : Prop := {
  ag_carrier : carrier b = Some m;
  ag_quiet : quiet m own;
  ag_order : next_order (frontier b) = m (HeaderAt HDiscovery);
  ag_serial : next_id b = m (HeaderAt HSerial);
  ag_found : same_found (queues (frontier b)) own;
}.
Definition agrees (b : State) : Prop := ∃ m own, agrees_with b m own.

Lemma key_found (q : nat) d : rq_queue (known (Z.of_nat q) d) = Z.of_nat q.
Proof. unfold known, Request_inflight. by destruct (ds_request d). Qed.

Lemma known_key queue d : (rq_queue (known queue d), rq_head (known queue d)) = key queue d.
Proof. unfold key, known, Request_inflight. by destruct (ds_request d). Qed.

(** A request found on a free descriptor. *)
Lemma same_found_discover qs own (q : nat) l d :
  same_found qs own → qs !! q = Some l → cell (key (Z.of_nat q) d) → own (key (Z.of_nat q) d) = Free →
  same_found (<[q := l ++ [d]]> qs) (<[key (Z.of_nat q) d := Found (ds_order d) (known (Z.of_nat q) d)]> own).
Proof.
  intros [A B] Hl Hc Hf. assert (Hlt : (q < length qs)%nat) by by eapply lookup_lt_Some. split.
  - intros q' l' d' Hl' Hd'. assert (Hold : ∀ l0, qs !! q' = Some l0 → d' ∈ l0 →
      cell (key (Z.of_nat q') d') ∧ <[key (Z.of_nat q) d := Found (ds_order d) (known (Z.of_nat q) d)]> own (key (Z.of_nat q') d') =
        Found (ds_order d') (known (Z.of_nat q') d')).
    { intros l0 Hl0 Hin. destruct (A _ _ _ Hl0 Hin) as [Hc' Ho]. split; [done|]. rewrite fn_lookup_insert_ne; [done|]. intros E. congruence. }
    destruct (decide (q' = q)) as [->|Hq]; [|rewrite list_lookup_insert_ne in Hl' by done; by eapply Hold].
    rewrite list_lookup_insert_eq in Hl' by done. injection Hl' as <-.
    apply elem_of_app in Hd' as [Hd'|Hd'%list_elem_of_singleton]; [by eapply Hold|]. subst d'. split; [done|]. by rewrite fn_lookup_insert.
  - intros k o r Hk Ho. destruct (decide (k = key (Z.of_nat q) d)) as [->|Hne].
    + rewrite fn_lookup_insert in Ho. injection Ho as <- <-. exists q, (l ++ [d]), d. rewrite list_lookup_insert_eq by done.
      split_and!; try done. apply elem_of_app. right. by left.
    + rewrite fn_lookup_insert_ne in Ho by done. destruct (B k o r Hk Ho) as (q' & l' & d' & Hl' & Hd' & E1 & E2 & E3).
      destruct (decide (q' = q)) as [->|Hq].
      * assert (l' = l) as -> by congruence. exists q, (l ++ [d]), d'. rewrite list_lookup_insert_eq by done. split_and!; try done.
        apply elem_of_app. by left.
      * exists q', l', d'. by rewrite list_lookup_insert_ne.
Qed.

(** A waiting request that is admitted. *)
Lemma same_found_admit qs own (q i : nat) l d e :
  same_found qs own → qs !! q = Some l → l !! i = Some d →
  (∀ x, x ∈ vec_remove i l ↔ x ∈ l ∧ x ≠ d) →
  (∀ (q' : nat) l' d', qs !! q' = Some l' → d' ∈ l' → ds_order d' = ds_order d → q' = q ∧ d' = d) →
  same_found (<[q := vec_remove i l]> qs) (<[key (Z.of_nat q) d := Owned e]> own).
Proof.
  intros [A B] Hl Hi He Hu. assert (Hlt : (q < length qs)%nat) by by eapply lookup_lt_Some.
  assert (Hd : d ∈ l) by by eapply list_elem_of_lookup_2. destruct (A _ _ _ Hl Hd) as [_ Hd0].
  assert (Hold : ∀ (q' : nat) l0 d', qs !! q' = Some l0 → d' ∈ l0 → ¬ (q' = q ∧ d' = d) →
    cell (key (Z.of_nat q') d') ∧ <[key (Z.of_nat q) d := Owned e]> own (key (Z.of_nat q') d') =
      Found (ds_order d') (known (Z.of_nat q') d')).
  { intros q' l0 d' Hl0 Hin Hn. destruct (A _ _ _ Hl0 Hin) as [Hc' Ho]. split; [done|]. rewrite fn_lookup_insert_ne; [done|].
    intros E. apply Hn. eapply Hu; [done..|]. rewrite <- E in Ho. congruence. }
  split.
  - intros q' l' d' Hl' Hd'. destruct (decide (q' = q)) as [->|Hq].
    + rewrite list_lookup_insert_eq in Hl' by done. injection Hl' as <-. apply He in Hd' as [Hd' Hn]. eapply Hold; [done..|]. by intros [_ ->].
    + rewrite list_lookup_insert_ne in Hl' by done. eapply Hold; [done..|]. by intros [-> _].
  - intros k o r Hk Ho. destruct (decide (k = key (Z.of_nat q) d)) as [->|Hne]; [by rewrite fn_lookup_insert in Ho|].
    rewrite fn_lookup_insert_ne in Ho by done. destruct (B k o r Hk Ho) as (q' & l' & d' & Hl' & Hd' & -> & E2 & E3).
    destruct (decide (q' = q)) as [->|Hq].
    + assert (l' = l) as -> by congruence. exists q, (vec_remove i l), d'. rewrite list_lookup_insert_eq by done. split_and!; try done.
      apply He. split; [done|]. by intros ->.
    + exists q', l', d'. by rewrite list_lookup_insert_ne.
Qed.

(** What agreement looks at. *)
Definition core (b : State) : option Memory * list (list Discovered) * Z * Z :=
  (carrier b, queues (frontier b), next_order (frontier b), next_id b).

Lemma agrees_core (b b' : State) : core b' = core b → agrees b → agrees b'.
Proof. intros [= E1 E2 E3 E4] (m & own & [A1 A2 A3 A4 A5]). exists m, own. split; congruence. Qed.

Lemma core_host {A} (c : Act Sto A) : keeps core (host_op c).
Proof. by apply keeps_zoom. Qed.

Lemma core_waits {A} head (c : Act (QueueAdmission T * Sto) A) : keeps core (waits_op head c).
Proof. destruct head; apply keeps_zoom; by intros s []. Qed.

Lemma core_reads {A} (c : Act (QueueAdmission T * Sto) A) : keeps core (reads_op c).
Proof. apply (core_waits false). Qed.

Lemma core_waiting queue : keeps core (waiting queue).
Proof. done. Qed.

#[local] Hint Resolve core_host core_waits core_reads core_waiting : keeps.

Lemma core_select queue candidates : keeps core (select queue candidates).
Proof.
  induction candidates as [|c rest IH]; cbn [select]; [by apply keeps_ret|].
  apply keeps_bind; [apply keeps_gets|intros f]. apply keeps_bind; [apply keeps_liftr|intros []]; cbn [negb]; [|exact IH]. keeps_steps.
Qed.

(** Admission with fault points that let it through. *)
Lemma observed_outcome r rejected observe m t e :
  Carrier_admit_observed g identity capacity_bytes r rejected observe m = (t, Ok e) →
  Carrier_admit_outcome g identity capacity_bytes r rejected m = (t, Ok e).
Proof.
  unfold Carrier_admit_outcome, Carrier_admit_observed. unfold mbind, op_bind, lift.
  destruct (Carrier_prepare _ _ _ _ _ m) as [t1 [e1|err|]]; [|done..].
  destruct (observe PhasePrepared) as [[]|err|]; [|done..].
  destruct (Carrier_activate g e1 _) as [t2 [[]|err|]]; [|done..].
  by destruct (observe PhaseActive) as [[]|err|].
Qed.

Lemma size_positive : 0 < g_queue_size g.
Proof. exact (proj2 (geometry_ok g geometry_valid)). Qed.

(** A discovery that succeeds is the next one, of a free descriptor. *)
Lemma discover_agrees b m own r t d :
  agrees_with b m own → 0 ≤ rq_queue r → 0 ≤ rq_head r →
  Carrier_discover g identity capacity_bytes r m = (t, Ok d) →
  d = next_order (frontier b) + 1 ∧ cell (rq_queue r, rq_head r) ∧ own (rq_queue r, rq_head r) = Free ∧
  quiet (run t m) (<[(rq_queue r, rq_head r) := Found d r]> own) ∧
  run t m (HeaderAt HDiscovery) = d ∧ run t m (HeaderAt HSerial) = m (HeaderAt HSerial).
Proof.
  intros [_ [c Hq] Ho Hs _] Hr Hh E. destruct (discover_always size_positive m c own r Hq Hr Hh) as [_ Q].
  pose proof (discover_counter g identity capacity_bytes r m t d E) as Hc. rewrite E in Q. cbn [fst snd] in Q.
  destruct Q as (-> & Hk & Hf & Hq' & Hs' & _). rewrite Ho. done.
Qed.

(** An admission that succeeds of a found request takes the next serial. *)
Lemma admit_agrees b m own r d t e :
  agrees_with b m own → cell (rq_queue r, rq_head r) → own (rq_queue r, rq_head r) = Found d r →
  Carrier_admit_outcome g identity capacity_bytes r false m = (t, Ok e) →
  Entry_request_id e = Ok (next_id b) ∧ quiet (run t m) (<[(rq_queue r, rq_head r) := Owned e]> own) ∧
  run t m (HeaderAt HDiscovery) = m (HeaderAt HDiscovery) ∧ run t m (HeaderAt HSerial) = next_id b + 1.
Proof.
  intros [_ [c Hq] Ho Hs _] Hk Hf E.
  destruct (admit_always size_positive m c own r false Hq (proj1 (proj1 Hk)) (proj1 (proj2 Hk))) as [_ Q].
  pose proof (admit_counter g identity capacity_bytes r false m t e E) as Hc.
  assert (Hslot : m (SlotAt (rq_queue r) (rq_head r) SState) ≠ EMPTY).
  { pose proof (quiet_slot _ _ _ m c own _ Hq Hk) as Hs'. rewrite Hf in Hs'.
    intros E0. apply (slot_empty m c own _ _ (qu_sound _ _ _ Hq) Hk) in E0. congruence. }
  pose proof (avoids_run _ _ _ (admit_found_avoids g identity capacity_bytes r false m Hslot)) as Hd.
  rewrite E in Q, Hd. cbn [fst snd] in Q, Hd. destruct Q as (d' & He & _ & _ & Hq').
  assert (Hser : en_serial e = next_id b + 1) by (rewrite He; cbn; lia).
  assert (Hid : 0 ≤ next_id b) by (rewrite Hs; apply (so_counters _ _ _ (qu_sound _ _ _ Hq))).
  split_and!; [|done|done|by rewrite Hc]. unfold Entry_request_id, checked_sub. rewrite decide_True by lia. cbn. f_equal. lia.
Qed.

(** The heads of chains are [u16]. *)
Context (peek_head : ∀ queue s chain, (peek queue s).2 = Ok (Some chain) → 0 ≤ chain_head (nc_chain chain)).

Lemma restored_agrees b b' m own found request t order l :
  agrees_with b m own → 0 ≤ rq_queue found → known (rq_queue found) {| ds_request := request; ds_available := rq_available found; ds_order := order |} = found →
  cell (rq_queue found, rq_head found) → own (rq_queue found, rq_head found) = Free →
  quiet (run t m) (<[(rq_queue found, rq_head found) := Found order found]> own) →
  run t m (HeaderAt HDiscovery) = order → run t m (HeaderAt HSerial) = m (HeaderAt HSerial) → order = next_order (frontier b) + 1 →
  carrier b' = Some (run t m) → next_id b' = next_id b →
  queues (frontier b) !! Z.to_nat (rq_queue found) = Some l →
  queues (frontier b') = <[Z.to_nat (rq_queue found) := l ++ [{| ds_request := request; ds_available := rq_available found; ds_order := order |}]]> (queues (frontier b)) →
  next_order (frontier b') = Z.max (next_order (frontier b)) order →
  agrees b'.
Proof.
  intros [A1 A2 A3 A4 A5] Hq Hk Hc Hf Hqt Hd Hs Ho B1 B2 Hl B3 B4. set (d := {| ds_request := _; ds_available := _; ds_order := _ |}) in *.
  exists (run t m), (<[(rq_queue found, rq_head found) := Found order found]> own). split; [done|done| | |].
  - lia.
  - congruence.
  - rewrite B3. assert (Eq : rq_queue found = Z.of_nat (Z.to_nat (rq_queue found))) by lia.
    assert (Ek : (rq_queue found, rq_head found) = key (Z.of_nat (Z.to_nat (rq_queue found))) d) by (unfold key; rewrite <- Eq, Hk; done).
    rewrite Ek. replace (Found order found) with (Found (ds_order d) (known (Z.of_nat (Z.to_nat (rq_queue found))) d)) by by rewrite <- Eq, Hk.
    apply same_found_discover; [done|done|by rewrite <- Ek|by rewrite <- Ek].
Qed.

Lemma discover_one_agrees queue size b :
  0 ≤ queue → agrees b →
  wp (discover_one mem capacity_bytes g identity queue size) (λ b' r, ∀ x, r = Ok x → agrees b') b.
Proof.
  intros Hq Ha. unfold discover_one.
  apply wp_bind. eapply wp_mono; [apply core_waiting|]. cbn iota beta. intros b1 [q|e|] V1; [|done..].
  case_bool_decide; [apply wp_ret; intros; by eapply agrees_core|].
  apply wp_bind. unfold host_op at 1. apply wp_zoom. unfold wp at 1.
  destruct (peek queue (storage b1)) as [s2 [[[chain next]|]|e|]] eqn:Ep; cbn iota beta; [|apply wp_ret; intros; by eapply (agrees_core b)|done..].
  pose proof (peek_head queue (storage b1) {| nc_chain := chain; nc_next_avail := next |} ltac:(by rewrite Ep)) as Hh. cbn [nc_chain] in Hh.
  set (b2 := set_storage s2 b1). assert (V2 : core b2 = core b) by done. clearbody b2. clear V1.
  apply wp_bind. eapply wp_mono; [apply core_host|]. cbn iota beta. intros b3 [reservation|e|] V3; [|done..].
  apply wp_bind, wp_liftr. destruct (decode_chain _ _ _ _) as [request|e|] eqn:Ed; [|done..]. apply wp_bind, wp_gets. cbn iota beta zeta.
  set (r := Request_negotiated request _). set (found := Request_inflight r queue _).
  assert (Hhead : rq_head found = chain_head chain).
  { transitivity (head (Request_completion r)); [by unfold found, Request_inflight; destruct r|].
    unfold r. rewrite negotiated_completion. by eapply decode_chain_head. }
  assert (Hqueue : rq_queue found = queue) by by unfold found, Request_inflight; destruct r.
  apply wp_bind, wp_gets. cbn iota beta. apply wp_bind, wp_liftr. unfold checked_add. case_decide; cbn [ok_or]; [|done].
  apply wp_bind. eapply wp_mono; [apply core_host|]. cbn iota beta. intros b4 [[]|e|] V4; [|done..].
  assert (V : core b4 = core b) by congruence. assert (Eo : next_order (frontier b3) = next_order (frontier b4)) by by injection V4.
  rewrite Eo. clear V3 V4 Eo. apply (agrees_core b b4 V) in Ha as (m & own & Ha).
  apply wp_bind. unfold wp at 1, carrier_op. rewrite (ag_carrier _ _ _ Ha).
  destruct (Carrier_discover g identity capacity_bytes found m) as [t [d|e|]] eqn:Ec; cbn [mbind result_mbind result_bind]; [|done..].
  destruct (discover_agrees b4 m own found t d Ha ltac:(lia) ltac:(lia) Ec) as (Ed' & Hc & Hf & Hqt & H5 & H6).
  apply wp_bind, wp_liftr. cbn [is_some_and]. rewrite bool_decide_eq_false_2 by lia. rewrite <- Ed'.
  set (b5 := set_carrier (Some (run t m)) b4).
  apply wp_bind. eapply wp_mono; [apply (restore_spec d found r b5)|]. cbn iota beta zeta. intros b6 [[]|e|]; [|done..].
  intros (C1 & C2 & l & Hl & Ev). assert (Ha6 : agrees b6).
  { injection Ev as E1 E2 _. eapply (restored_agrees b4 b6 m own found r t d l); try done; [lia|].
    unfold known. cbn [ds_request ds_available]. rewrite Hqueue. unfold found, Request_inflight. by destruct r. }
  apply wp_bind. eapply wp_mono; [apply core_host|]. cbn iota beta. intros b7 [[]|e|] V7; [|done..].
  apply wp_ret. intros. by eapply agrees_core.
Qed.

Lemma take_candidate_core queue candidate (b : State) l d :
  queues (frontier b) !! Z.to_nat queue = Some l → l !! candidate = Some d →
  ∃ b', take_candidate queue candidate b = (b', Ok d) ∧
    core b' = (carrier b, <[Z.to_nat queue := vec_remove candidate l]> (queues (frontier b)), next_order (frontier b), next_id b).
Proof.
  intros Hl Hd. unfold take_candidate, waiting, mbind, act_bind. rewrite Hl. cbn. rewrite Hd. cbn. by eexists.
Qed.

(** [accept] of the request that was just taken from its queue. *)
Lemma accept_agrees (b b4 : State) m own (q i : nat) l d permit :
  agrees_with b m own → view_ok (view b) → queues (frontier b) !! q = Some l → l !! i = Some d →
  core b4 = (carrier b, <[q := vec_remove i l]> (queues (frontier b)), next_order (frontier b), next_id b) →
  wp (accept capacity_bytes g identity (Z.of_nat q) (ds_available d) (ds_request d) permit) (λ b' r, r = Ok tt → agrees b') b4.
Proof.
  intros Ha Hok Hl Hi [= E1 E2 E3 E4]. unfold accept. apply wp_bind, wp_gets. cbn iota beta. rewrite E4.
  apply wp_bind, wp_liftr. unfold checked_add. case_decide; cbn [ok_or]; [|done]. apply wp_bind, wp_gets. cbn iota beta.
  assert (Hin : d ∈ l) by by eapply list_elem_of_lookup_2. destruct (ag_found _ _ _ Ha) as [A B].
  destruct (A _ _ _ Hl Hin) as [Hc Hf].
  apply wp_bind. unfold wp at 1, carrier_op. rewrite E1, (ag_carrier _ _ _ Ha).
  destruct (Carrier_admit_observed _ _ _ _ _ _ _) as [t [e|err|]] eqn:Ec; cbn [mbind result_mbind result_bind]; [|done..].
  apply observed_outcome in Ec. fold (known (Z.of_nat q) d) in Ec.
  pose proof (known_key (Z.of_nat q) d) as Ek. destruct (admit_agrees b m own (known (Z.of_nat q) d) (ds_order d) t e Ha) as (Hid & Hqt & Hd & Hs).
  { by rewrite Ek. } { by rewrite Ek. } { done. }
  rewrite Hid. cbn [mbind result_mbind result_bind]. apply wp_bind, wp_liftr. cbn iota beta. apply wp_bind, wp_liftr.
  cbn [is_some_and]. rewrite bool_decide_eq_false_2 by (by intros []). apply wp_bind, wp_gets. cbn iota beta.
  apply wp_bind, wp_liftr. destruct (if counted _ then _ else _) as [requests|err|]; [|done..].
  apply wp_bind, wp_modify. cbn iota beta. eapply wp_mono; [apply core_host|]. cbn iota beta. intros b6 r V6 _.
  eapply agrees_core; [exact V6|]. exists (run t m), (<[key (Z.of_nat q) d := Owned e]> own).
  destruct (vec_remove_sorted l i d (vo_sorted _ Hok _ _ Hl) Hi) as [_ He].
  split; cbn.
  - done.
  - by rewrite <- Ek.
  - by rewrite E3, Hd, (ag_order _ _ _ Ha).
  - done.
  - rewrite E2. apply (same_found_admit _ _ q i l d e). all: try done.
    intros q' l' d' Hl' Hd' Eo. pose proof (proj1 (vo_waiting _ Hok _ _ d Hl) Hin) as [F1 _].
    pose proof (proj1 (vo_waiting _ Hok _ _ d' Hl') Hd') as [F2 _].
    destruct (found_unique _ _ _ _ _ (vo_found _ Hok) F2 F1 Eo) as [Eq ->]. split; [lia|done].
Qed.

Lemma admit_one_agrees queue b :
  0 ≤ queue → view_ok (view b) → agrees b →
  wp (admit_one capacity_bytes g identity queue) (λ b' r, ∀ x, r = Ok x → agrees b') b.
Proof.
  intros Hq Hok (m & own & Ha). assert (Hag : agrees b) by by exists m, own. unfold admit_one.
  apply wp_bind. eapply wp_mono; [apply (wp_and _ _ _ _ (core_waiting _ _) (silent_waiting _ _))|]. cbn iota beta.
  intros b1 [l0|e|] [C1 V1]; [|done..]. case_bool_decide; [apply wp_ret; intros; by eapply (agrees_core b)|].
  apply wp_bind. eapply wp_mono; [apply (wp_and _ _ _ _ (core_host _ _) (silent_host _ _))|]. cbn iota beta.
  intros b2 [[]|e|] [C2 V2]; [|done..].
  apply wp_bind. eapply wp_mono; [apply (wp_and _ _ _ _ (core_select _ _ _) (select_eligible _ _ _))|]. cbn iota beta.
  intros b3 [[[i permit]|]|e|] (C3 & V3 & He); [| |done..]; [|apply wp_ret; intros; by eapply (agrees_core b); [congruence|]].
  destruct (eligible_spec _ _ _ (He i permit eq_refl)) as (l & d & Hl & Hi & _ & _).
  assert (C23 : core b3 = core b) by congruence. assert (V23 : view b3 = view b) by congruence.
  rewrite (view_queues b b2) in Hl by congruence.
  destruct (take_candidate_core queue i b3 l d) as (b4 & E4 & C4); [by rewrite (view_queues b b3)|done|].
  apply wp_bind. unfold wp at 1. rewrite E4. cbn iota beta. apply wp_bind.
  eapply wp_mono; [rewrite <- (Z2Nat.id queue) by done; apply (accept_agrees b b4 m own (Z.to_nat queue) i l d permit); try done|].
  - injection C23 as D1 D2 D3 D4. rewrite C4. congruence.
  - cbn iota beta. intros b5 [[]|e|] H5; [|done..]. apply wp_ret. intros _ _. by apply H5.
Qed.

Lemma discover_loop_agrees n queue size b :
  0 ≤ queue → view_ok (view b) → agrees b →
  wp (discover_loop mem capacity_bytes g identity n queue size) (λ b' r, r = Ok tt → view_ok (view b') ∧ agrees b') b.
Proof.
  intros Hq. revert b. induction n as [|n IH]; intros b0 Hok0 Ha0; cbn [discover_loop]; [by apply wp_ret|]. apply wp_bind.
    eapply wp_mono; [apply (wp_and _ _ _ _ (discover_one_agrees queue size b0 Hq Ha0)
      (discover_one_advances mem capacity_bytes g identity queue size Hq _ b0 Hok0 (rtc_refl _ _)))|].
    cbn iota beta. intros b1 [again|e|] [A1 V1]; [|done..]. apply vsteps_ok in V1; [|done]. specialize (A1 again eq_refl).
    destruct again; [by apply IH|by apply wp_ret].
Qed.

(** A visit that succeeds keeps the agreement. *)
Lemma progress_agrees queue discover b :
  0 ≤ queue → view_ok (view b) → agrees b →
  wp (progress_queue mem capacity_bytes g identity queue discover) (λ b' r, r = Ok tt → agrees b') b.
Proof.
  intros Hq Hok Ha.
  assert (Hl : ∀ n b, view_ok (view b) → agrees b →
    wp (admit_loop capacity_bytes g identity n queue) (λ b' r, ∀ k, r = Ok k → agrees b') b).
  { intros n. induction n as [|n IH]; intros b0 Hok0 Ha0; cbn [admit_loop]; [by apply wp_ret|]. apply wp_bind.
    eapply wp_mono; [apply (wp_and _ _ _ _ (admit_one_agrees queue b0 Hq Hok0 Ha0)
      (admit_one_advances capacity_bytes g identity queue Hq _ b0 Hok0 (rtc_refl _ _)))|].
    cbn iota beta. intros b1 [again|e|] [A1 V1]; [|done..]. apply vsteps_ok in V1; [|done]. specialize (A1 again eq_refl).
    destruct again; cbn [negb]; [|by apply wp_ret]. apply wp_bind. eapply wp_mono; [by apply IH|]. cbn iota beta.
    intros b2 [k|e|] A2; [|done..]. apply wp_ret. intros _ _. by eapply A2. }
  unfold progress_queue. apply wp_bind. unfold wp at 1. cbn iota beta. destruct (expect _) as [blocked|e|]; [|done..].
  apply wp_bind, wp_gets. cbn iota beta. destruct (_ || _); [by apply wp_ret|]. apply wp_bind, wp_gets. cbn iota beta.
  generalize (queue_length (storage b) queue). intros size. apply wp_bind.
  eapply (wp_mono _ (λ b' r, r = Ok tt → view_ok (view b') ∧ agrees b')).
  { destruct discover; [by apply discover_loop_agrees|by apply wp_ret]. }
  intros b1 [[]|e|] H1'; [|done..]. destruct (H1' eq_refl) as [Hok1 Ha1]. apply wp_bind.
  eapply wp_mono; [by apply Hl|]. cbn iota beta. intros b2 [k|e|] A2; [|done..]. specialize (A2 k eq_refl).
  eapply wp_mono; [apply (keeps_when core), core_host|]. cbn iota beta. intros b3 r C3 _. by eapply agrees_core.
Qed.

(** ** The other calls *)

Lemma settle_agrees b b' m own s t :
  agrees_with b m own → step_typed s → settles s → InflightLife.perform g identity capacity_bytes s m = (t, Ok tt) →
  carrier b' = Some (run t m) → view b' = view b → next_id b' = next_id b → agrees b'.
Proof.
  intros [A1 [c A2] A3 A4 A5] Ht Hs E B1 B2 B3.
  pose proof (avoids_run _ _ _ (settles_avoids g identity capacity_bytes s m _ Hs (or_introl eq_refl))) as Hd.
  pose proof (avoids_run _ _ _ (settles_avoids g identity capacity_bytes s m _ Hs (or_intror eq_refl))) as Hn.
  rewrite E in Hd, Hn. cbn [fst] in Hd, Hn.
  assert (Ho : ∃ own', quiet (run t m) own' ∧ ∀ k o r, own' k = Found o r ↔ own k = Found o r).
  { destruct s as [r|r rejected|e used [|advanced err]|e used p|prefix|q available|q size available used|]; try done;
      cbn [InflightLife.perform step_typed] in *.
    - destruct (complete_always size_positive m c own e used A2 (proj1 Ht) (proj2 Ht)) as [_ Q]. cbn [publication] in E. rewrite E in Q. cbn [fst snd] in Q.
      destruct Q as (_ & Hk & _ & _ & Hq & _). eexists. split; [exact Hq|]. intros k o r.
      destruct (decide (k = (rq_queue (en_request e), rq_head (en_request e)))) as [->|Hne]; [|by rewrite fn_lookup_insert_ne].
      rewrite fn_lookup_insert, Hk. by split.
    - destruct (complete_refused size_positive m c own e used advanced err A2 (proj1 Ht) (proj2 Ht)) as [_ (err' & Q & _)].
      cbn [fst] in Q. by rewrite E in Q.
    - destruct (publish_always m c own prefix A2) as [_ Q]. rewrite E in Q. cbn [fst snd] in Q. exists own. split; [apply Q|done].
    - destruct (initialize_queue_always m c own q available A2 (proj1 Ht) (proj2 Ht)) as [_ Q]. rewrite E in Q. cbn [fst snd] in Q.
      exists own. split; [apply Q|done].
    - pose proof (restart_outcome m c own q size available used A2 (proj1 Ht) (proj2 Ht)) as Q. rewrite E in Q.
      destruct Q as [(_ & _ & Q)|(err & [=] & _)]. by exists own. }
  destruct Ho as (own' & Hq & Ho). injection B2 as E1 E2 _. exists (run t m), own'. split; [done|done|congruence|congruence|].
  rewrite E1. destruct A5 as [A B]. split.
  - intros q l d Hl Hin. destruct (A _ _ _ Hl Hin) as [Hc Hf]. split; [done|]. by apply Ho.
  - intros k o r Hk Hf. apply B; [done|]. by apply Ho.
Qed.

(** ** Recovery *)

(** The frontier [qs] holds the saved discoveries [saved], and nothing else. *)
Definition collected (qs : list (list Discovered)) (saved : list (Z * Inflight.Request)) : Prop :=
  (∀ (q : nat) l d, qs !! q = Some l → d ∈ l → (ds_order d, known (Z.of_nat q) d) ∈ saved) ∧
  (∀ o r, (o, r) ∈ saved → ∃ (q : nat) l d, qs !! q = Some l ∧ d ∈ l ∧
     rq_queue r = Z.of_nat q ∧ o = ds_order d ∧ r = known (Z.of_nat q) d).

Lemma resume_one_collects chain_at x saved b :
  0 ≤ rq_queue x.2 → collected (queues (frontier b)) saved →
  wp (resume_one mem capacity_bytes chain_at x) (λ b' r, r = Ok tt →
    collected (queues (frontier b')) (saved ++ [x]) ∧ carrier b' = carrier b ∧
    next_order (frontier b') = Z.max (next_order (frontier b)) x.1) b.
Proof.
  destruct x as [o found]. cbn [fst snd]. intros Hq [A B]. unfold resume_one.
  apply wp_bind. eapply wp_mono; [apply core_host|]. cbn iota beta. intros b1 [reservation|e|] V1; [|done..].
  apply wp_bind, wp_liftr. destruct (decode_chain _ _ _ _) as [request|e|]; [|done..]. apply wp_bind, wp_gets. cbn iota beta zeta.
  apply wp_bind, wp_liftr. case_bool_decide as Hf; [|done]. set (r := Request_negotiated request _) in *.
  eapply wp_mono; [apply restore_spec|]. cbn iota beta zeta. intros b2 [[]|e|] H3 E; [|done..].
  destruct H3 as (C1 & _ & l & Hl & [= E1 E2 _]). injection V1 as D1 D2 D3 D4. rewrite D2 in *.
  set (d := {| ds_request := r; ds_available := _; ds_order := _ |}) in *.
  assert (Eq : rq_queue found = Z.of_nat (Z.to_nat (rq_queue found))) by lia.
  assert (Ek : known (Z.of_nat (Z.to_nat (rq_queue found))) d = found) by (rewrite <- Eq; exact Hf).
  assert (Hlt : (Z.to_nat (rq_queue found) < length (queues (frontier b)))%nat) by by eapply lookup_lt_Some.
  split_and!; [|congruence|congruence]. rewrite E1. split.
  - intros q' l' d' Hl' Hd'. apply elem_of_app. destruct (decide (q' = Z.to_nat (rq_queue found))) as [->|Hn].
    + rewrite list_lookup_insert_eq in Hl' by done. injection Hl' as <-.
      apply elem_of_app in Hd' as [Hd'|Hd'%list_elem_of_singleton]; [left; by eapply A|]. subst d'. right. rewrite Ek. by left.
    + rewrite list_lookup_insert_ne in Hl' by done. left. by eapply A.
  - intros o' r' [Hin|Hin%list_elem_of_singleton]%elem_of_app.
    + destruct (B _ _ Hin) as (q' & l' & d' & Hl' & Hd' & H5 & H6 & H7). destruct (decide (q' = Z.to_nat (rq_queue found))) as [->|Hn].
      * assert (l' = l) as -> by congruence. exists (Z.to_nat (rq_queue found)), (l ++ [d]), d'.
        rewrite list_lookup_insert_eq by done. split_and!; try done. apply elem_of_app. by left.
      * exists q', l', d'. by rewrite list_lookup_insert_ne.
    + injection Hin as -> ->. exists (Z.to_nat (rq_queue found)), (l ++ [d]), d. rewrite list_lookup_insert_eq by done.
      split_and!; try done. apply elem_of_app. right. by left.
Qed.

Lemma resume_loop_collects chain_at todo saved b :
  (∀ x, x ∈ todo → 0 ≤ rq_queue x.2 ∧ x.1 ≤ next_order (frontier b)) → collected (queues (frontier b)) saved →
  wp (resume_loop mem capacity_bytes chain_at todo) (λ b' r, r = Ok tt →
    collected (queues (frontier b')) (saved ++ todo) ∧ carrier b' = carrier b ∧ next_order (frontier b') = next_order (frontier b)) b.
Proof.
  revert saved b. induction todo as [|x todo IH]; intros saved b Hq Hc; cbn [resume_loop]; [apply wp_ret; by rewrite app_nil_r|].
  apply wp_bind. eapply wp_mono; [apply (resume_one_collects _ x saved); [apply Hq; by left|done]|]. cbn iota beta.
  intros b1 [[]|e|] H3; [|done..]. destruct (H3 eq_refl) as (Hc1 & C1 & O1). destruct (Hq x ltac:(by left)) as [_ Hx].
  eapply wp_mono; [apply (IH (saved ++ [x])); [|done]|].
  - intros y Hy. rewrite O1. destruct (Hq y ltac:(by right)). lia.
  - cbn iota beta. intros b2 r Hr E. destruct (Hr E) as (Hc2 & C2 & O2). rewrite <- app_assoc in Hc2. split_and!; [done|congruence|lia].
Qed.

Lemma found_key m own k o r : quiet m own → cell k → own k = Found o r → k = (rq_queue r, rq_head r) ∧ o ≤ m (HeaderAt HDiscovery).
Proof.
  intros [c Hq] Hk Ho. pose proof (quiet_slot _ _ _ m c own k Hq Hk) as Hc. rewrite Ho in Hc.
  pose proof (so_slot _ _ _ (qu_sound _ _ _ Hq) _ Hk) as Hs. pose proof (qu_settled _ _ _ Hq _ Hk) as Ht. rewrite Hc in Hs, Ht.
  unfold slot_is in Hs. cbn in Hs, Ht. destruct k as [q h]. cbn in Hs.
  destruct Hs as (_ & _ & _ & Hr & _). destruct (ra_cell _ _ _ _ Hr) as [-> ->]. by destruct Ht as (_ & _ & Ht & _).
Qed.

(** A frontier rebuilt from a region agrees with it. *)
Lemma resume_agrees m own c t replay b chain_at :
  @sound_with g identity capacity_bytes m c own → InflightLife.reconcile g identity capacity_bytes m = (t, Ok replay) →
  fresh b → carrier b = Some (run t m) →
  wp (resume mem capacity_bytes chain_at replay;; resume_serial replay) (λ b' r, r = Ok tt → agrees_with b' (run t m) own) b.
Proof.
  intros Hs E [Hf Hh] Hc. destruct (reconcile_always (geometry_ok g geometry_valid) m c own Hs) as [_ Q].
  unfold InflightLife.reconcile in E. rewrite E in Q. cbn [fst snd] in Q. destruct Q as ([= Er] & Hq & Hser & _ & Hdis & _).
  assert (Hin : ∀ o r, (o, r) ∈ rp_discovered replay ↔ ∃ k, cell k ∧ own k = Found o r).
  { intros o r. rewrite Er. apply (found_spec _ _ _ _ _ Hs). }
  unfold resume. apply wp_bind, wp_bind, wp_modify. cbn iota beta.
  eapply wp_mono; [apply (resume_loop_collects _ _ [])|].
  - intros [o r] Hx. cbn [fst snd]. apply Hin in Hx as (k & Hk & Ho). destruct (found_key _ _ _ _ _ Hq Hk Ho) as [-> Hle].
    split; [apply (proj1 Hk)|]. cbn. rewrite Er. cbn. by rewrite <- Hdis.
  - cbn. rewrite Hf. split; [|intros o r Hx; by apply elem_of_nil in Hx]. intros q l d [-> _]%lookup_replicate Hd. by apply elem_of_nil in Hd.
  - cbn iota beta. intros b1 [[]|e|] Hr; [|done..]. destruct (Hr eq_refl) as ([A B] & C1 & O1). apply wp_modify. intros _.
    cbn in C1, O1. split; cbn.
    + congruence.
    + done.
    + rewrite O1, Er. cbn. by rewrite <- Hdis.
    + rewrite Er. cbn. by rewrite <- Hser.
    + split.
      * intros q l d Hl Hd. apply (A _ _ _ Hl), Hin in Hd as (k & Hk & Ho). destruct (found_key _ _ _ _ _ Hq Hk Ho) as [-> _].
        rewrite known_key in Hk, Ho. by split.
      * intros k o r Hk Ho. destruct (B o r) as (q & l & d & Hl & Hd & E1 & E2 & E3); [apply Hin; by exists k|].
        exists q, l, d. split_and!; try done. destruct (found_key _ _ _ _ _ Hq Hk Ho) as [-> _]. rewrite E3. apply known_key.
Qed.

(** ** A backend that serves *)

(** A backend starts with a created region, or from a region that was left
    behind; it goes on while its calls succeed. *)
Inductive serving : State → Prop :=
  | serving_new b m prefix :
      fresh b → next_id b = 0 → zeroed m → 0 ≤ prefix → carrier b = Some (run (Carrier_create g identity prefix m).1 m) → serving b
  | serving_resume b b' m t replay chain_at :
      life g identity capacity_bytes false m → InflightLife.reconcile g identity capacity_bytes m = (t, Ok replay) →
      fresh b → carrier b = Some (run t m) →
      (resume mem capacity_bytes chain_at replay;; resume_serial replay) b = (b', Ok tt) → serving b'
  | serving_visit b b' queue discover :
      serving b → 0 ≤ queue → progress_queue mem capacity_bytes g identity queue discover b = (b', Ok tt) → serving b'
  | serving_call b b' m s t :
      serving b → carrier b = Some m → step_typed s → settles s →
      InflightLife.perform g identity capacity_bytes s m = (t, Ok tt) →
      carrier b' = Some (run t m) → view b' = view b → next_id b' = next_id b → serving b'
  | serving_others b b' : serving b → core b' = core b → view b' = view b → serving b'.

Lemma replay_ok m own c t replay :
  @sound_with g identity capacity_bytes m c own → InflightLife.reconcile g identity capacity_bytes m = (t, Ok replay) → replay_sorted replay.
Proof.
  intros Hs E. destruct (reconcile_always (geometry_ok g geometry_valid) m c own Hs) as [_ Q].
  unfold InflightLife.reconcile in E. rewrite E in Q. cbn [fst snd] in Q. destruct Q as ([= ->] & Hq & _).
  split; [by eapply found_sorted|]. intros o r Hx. cbn in Hx. apply (found_spec _ _ _ _ _ Hs) in Hx as (k & Hk & Ho).
  destruct (found_key _ _ _ _ _ Hq Hk Ho) as [-> _]. apply (proj1 Hk).
Qed.

Lemma new_agrees b m prefix :
  fresh b → next_id b = 0 → zeroed m → 0 ≤ prefix → carrier b = Some (run (Carrier_create g identity prefix m).1 m) → agrees b.
Proof.
  intros [Hf Hh] Hid Hz Hp Hc. destruct (@create_quiet g identity capacity_bytes size_positive m prefix Hz Hp) as [c Hq].
  eexists _, (λ _, Free). split; [exact Hc|by exists c| | |].
  - rewrite Hf, create_run. cbn [fst create_stores run foldl]. rewrite !run_store_ne by congruence. by rewrite Hz.
  - rewrite Hid, create_run. cbn [fst create_stores run foldl]. rewrite !run_store_ne by congruence. by rewrite Hz.
  - rewrite Hf. split; [|done]. intros q l d [-> _]%lookup_replicate Hd. by apply elem_of_nil in Hd.
Qed.

Lemma serving_ok b : serving b → view_ok (view b) ∧ agrees b.
Proof.
  induction 1 as [b m prefix Hf Hid Hz Hp Hc|b b' m t replay chain_at Hl E Hf Hc Hr|b b' queue discover _ [IV IA] Hq E|
    b b' m s t _ [IV IA] Hc Ht Hs E B1 B2 B3|b b' _ [IV IA] Ec V].
  - split; [|by eapply new_agrees]. destruct Hf as [Hf Hh]. unfold view. rewrite Hf, Hh. apply new_view_ok.
  - destruct (recovered_sound g identity capacity_bytes geometry_valid _ _ _ _ Hl E) as (c & own & Hs).
    pose proof (replay_ok _ _ _ _ _ Hs E) as Hsort. split.
    + apply bind_inv in Hr as (b1 & [] & E1 & E2). pose proof (wp_elim _ _ _ _ _ (resume_ok mem capacity_bytes chain_at replay b Hf Hsort) E1) as Hv.
      injection E2 as <-. exact Hv.
    + eexists _, _. exact (wp_elim _ _ _ _ _ (resume_agrees m own c t replay b chain_at Hs E Hf Hc) Hr eq_refl).
  - split.
    + eapply vsteps_ok; [|exact IV]. exact (wp_elim _ _ _ _ _ (progress_advances mem capacity_bytes g identity queue discover Hq _ b IV (rtc_refl _ _)) E).
    + exact (wp_elim _ _ _ _ _ (progress_agrees queue discover b Hq IV IA) E eq_refl).
  - split; [by rewrite B2|]. destruct IA as (m' & own & IA). assert (m' = m) as -> by (pose proof (ag_carrier _ _ _ IA); congruence).
    by eapply settle_agrees.
  - split; [by rewrite V|by eapply agrees_core].
Qed.

(** C9: While the backend serves, the region holds as found exactly the requests
    that wait in the frontier, under the order of their discovery; and the next
    discovery and the next admission of the region are the backend's own, so
    neither check for a difference can fail. *)
Theorem carrier_agrees b :
  serving b → ∃ m, carrier b = Some m ∧
    (∀ (q : nat) l d, queues (frontier b) !! q = Some l → d ∈ l →
       @owner g identity capacity_bytes m (key (Z.of_nat q) d) = Found (ds_order d) (known (Z.of_nat q) d)) ∧
    (∀ k o r, cell k → @owner g identity capacity_bytes m k = Found o r → ∃ (q : nat) l d,
       queues (frontier b) !! q = Some l ∧ d ∈ l ∧ k = key (Z.of_nat q) d ∧ o = ds_order d) ∧
    (∀ r t o, 0 ≤ rq_queue r → 0 ≤ rq_head r → Carrier_discover g identity capacity_bytes r m = (t, Ok o) →
       o = next_order (frontier b) + 1) ∧
    (∀ (q : nat) l d t e, queues (frontier b) !! q = Some l → d ∈ l →
       Carrier_admit_outcome g identity capacity_bytes (known (Z.of_nat q) d) false m = (t, Ok e) →
       Entry_request_id e = Ok (next_id b)).
Proof.
  intros [_ (m & own & Ha)]%serving_ok. exists m. split; [apply Ha|]. destruct (ag_found _ _ _ Ha) as [A B].
  assert (Ho : ∀ k, cell k → @owner g identity capacity_bytes m k = own k).
  { intros k Hk. apply sound_owner; [|done]. destruct (ag_quiet _ _ _ Ha) as [c Hq]. exists c. apply Hq. }
  split_and!.
  - intros q l d Hl Hd. destruct (A _ _ _ Hl Hd) as [Hc Hf]. by rewrite Ho.
  - intros k o r Hk Hf. rewrite Ho in Hf by done. destruct (B _ _ _ Hk Hf) as (q & l & d & ? & ? & ? & ? & _). by exists q, l, d.
  - intros r t o Hq Hh E. by destruct (discover_agrees b m own r t o Ha Hq Hh E).
  - intros q l d t e Hl Hd E. destruct (A _ _ _ Hl Hd) as [Hc Hf].
    by destruct (admit_agrees b m own (known (Z.of_nat q) d) (ds_order d) t e Ha ltac:(by rewrite known_key) ltac:(by rewrite known_key) E).
Qed.

(** ** A restart *)

(** What the region keeps of a queue of the frontier. *)
Definition saved_queue (q : nat) (l : list Discovered) : list (Z * Inflight.Request) :=
  (λ d, (ds_order d, known (Z.of_nat q) d)) <$> l.

Lemma sorted_same (l k : list (Z * Inflight.Request)) :
  StronglySorted (λ x y, x.1 < y.1) l → StronglySorted (λ x y, x.1 < y.1) k → (∀ x, x ∈ l ↔ x ∈ k) → l = k.
Proof.
  intros Hl Hk He.
  assert (HD : ∀ l : list (Z * Inflight.Request), StronglySorted (λ x y, x.1 < y.1) l → NoDup l).
  { induction 1 as [|x l' _ IH Hx]; constructor; [|done]. intros Hin. rewrite Forall_forall in Hx. apply Hx in Hin. lia. }
  assert (AntiSymm (=) (λ x y : Z * Inflight.Request, x.1 < y.1)) by (intros x y; lia).
  eapply StronglySorted_unique; [done|exact Hl|exact Hk|]. apply NoDup_Permutation; auto.
Qed.

Lemma saved_queue_sorted (q : nat) l :
  StronglySorted (λ x y, ds_order x < ds_order y) l → StronglySorted (λ x y : Z * Inflight.Request, x.1 < y.1) (saved_queue q l).
Proof.
  induction 1 as [|d l _ IH Hd]; cbn; constructor; [done|]. apply Forall_fmap. eapply Forall_impl; [exact Hd|]. done.
Qed.

Lemma same_found_saved qs qs' own (q : nat) l l' :
  same_found qs own → same_found qs' own → qs !! q = Some l → qs' !! q = Some l' → ∀ x, x ∈ saved_queue q l → x ∈ saved_queue q l'.
Proof.
  intros [A _] [_ B] Hl Hl' x (d & -> & Hd)%list_elem_of_fmap. destruct (A _ _ _ Hl Hd) as [Hc Hf].
  destruct (B _ _ _ Hc Hf) as (q' & l0 & d' & Hl0 & Hd' & Ek & Eo & Er). assert (q' = q) as -> by (unfold key in Ek; injection Ek; lia).
  assert (l0 = l') as -> by congruence. apply list_elem_of_fmap. exists d'. split; [congruence|done].
Qed.

(** ** A rebuilt frontier *)

(** Each queue holds its own of the [saved] discoveries, in their order. *)
Definition filed (qs : list (list Discovered)) (saved : list (Z * Inflight.Request)) : Prop :=
  length qs = CONCURRENT_QUEUES ∧
  ∀ (q : nat) l, qs !! q = Some l → saved_queue q l = filter (λ x, rq_queue x.2 = Z.of_nat q) saved.

Definition saved_key (x : Z * Inflight.Request) : Z * Z := (rq_queue x.2, rq_head x.2).

Lemma geometry_bounds : g_queues g ≤ 4 ∧ g_queue_size g ≤ 256.
Proof.
  destruct geometry_valid as [_ Hg]. unfold Geometry_new in Hg.
  destruct (bool_decide_reflect (1 ≤ g_queues g ≤ 4)); [|done]. cbn [negb orb] in Hg.
  destruct (bool_decide_reflect (256 < g_queue_size g)); [by rewrite orb_true_r in Hg|lia].
Qed.

(** A queue with a free descriptor is not full. *)
Lemma filed_room saved x (q : nat) :
  cell (saved_key x) → (∀ y, y ∈ saved → cell (saved_key y)) → NoDup (saved_key <$> (saved ++ [x])) → rq_queue x.2 = Z.of_nat q →
  (length (filter (λ y, rq_queue y.2 = Z.of_nat q) saved) < CONCURRENT_QUEUE_SIZE)%nat.
Proof.
  intros Hx Hs Hn Hq. set (l := filter (λ y : Z * Inflight.Request, rq_queue y.2 = Z.of_nat q) saved ++ [x]).
  assert (Hl : ∀ y, y ∈ l → y ∈ saved ++ [x] ∧ rq_queue y.2 = Z.of_nat q).
  { intros y [[Hy Hin]%list_elem_of_filter| ->%list_elem_of_singleton]%elem_of_app; (split; [|done]); apply elem_of_app; [by left|right; by left]. }
  assert (Hk : NoDup (saved_key <$> l)).
  { unfold l. rewrite !fmap_app in *. apply NoDup_app in Hn as (N1 & N2 & N3). apply NoDup_app. split_and!; [| |done].
    - eapply sublist_NoDup; [exact N1|]. apply fmap_sublist, sublist_filter.
    - intros k Hk. apply N2. apply list_elem_of_fmap in Hk as (y & -> & [_ Hy]%list_elem_of_filter). by apply list_elem_of_fmap_2. }
  assert (Hh : NoDup ((λ y : Z * Inflight.Request, rq_head y.2) <$> l)).
  { apply NoDup_fmap_2_strong; [|by eapply NoDup_fmap_1]. intros y z Hy Hz E.
    assert (Ek : saved_key y = saved_key z) by (unfold saved_key; rewrite E, (proj2 (Hl y Hy)), (proj2 (Hl z Hz)); done).
    apply list_elem_of_lookup in Hy as [i Hy], Hz as [j Hz].
    assert (i = j) as ->; [|congruence]. eapply NoDup_lookup; [exact Hk|by rewrite list_lookup_fmap, Hy|rewrite list_lookup_fmap, Hz; cbn; congruence]. }
  assert (Hlen : (length ((λ y : Z * Inflight.Request, rq_head y.2) <$> l) ≤ length (range (g_queue_size g)))%nat).
  { apply submseteq_length, NoDup_submseteq; [done|]. intros h (y & -> & Hy)%list_elem_of_fmap. apply elem_of_range.
    apply Hl in Hy as [[Hy| ->%list_elem_of_singleton]%elem_of_app _]; [by apply (Hs y Hy)|apply Hx]. }
  unfold l, range in Hlen. rewrite !length_fmap, length_seq, length_app in Hlen. cbn [length] in Hlen.
  pose proof (proj2 geometry_bounds). unfold CONCURRENT_QUEUE_SIZE. lia.
Qed.

(** The storage grants the reservation of [n] descriptor vectors. *)
Fixpoint grants (n : nat) (s : Sto) : Prop :=
  match n with
  | O => True
  | S n' => (reserve_spans s).2 = Ok tt ∧ negotiated_features (reserve_spans s).1 = negotiated_features s ∧ grants n' (reserve_spans s).1
  end.

(** The guest's chain at a saved discovery still decodes to its request. *)
Definition redecodes (chain_at : Z → Z → Chain) (features : Z) (x : Z * Inflight.Request) : Prop :=
  ∃ request, decode_chain mem (chain_at (rq_queue x.2) (rq_head x.2)) capacity_bytes (Ok tt) = Ok request ∧
    Request_inflight (Request_negotiated request features) (rq_queue x.2) (rq_available x.2) = x.2.

Lemma resume_one_succeeds chain_at x saved b :
  filed (queues (frontier b)) saved → cell (saved_key x) → (∀ y, y ∈ saved → cell (saved_key y)) →
  NoDup (saved_key <$> (saved ++ [x])) → (reserve_spans (storage b)).2 = Ok tt →
  redecodes chain_at (negotiated_features (reserve_spans (storage b)).1) x →
  wp (resume_one mem capacity_bytes chain_at x) (λ b' r, r = Ok tt ∧ filed (queues (frontier b')) (saved ++ [x]) ∧
    storage b' = (reserve_spans (storage b)).1) b.
Proof.
  destruct x as [o found]. intros [Hlen Hf] Hc Hs Hn Hr (request & Ed & Ei). cbn [fst snd] in Ed, Ei.
  destruct (lookup_lt_is_Some_2 (queues (frontier b)) (Z.to_nat (rq_queue found))) as [l Hl].
  { rewrite Hlen. unfold CONCURRENT_QUEUES. pose proof (proj1 geometry_bounds). destruct Hc as [Hc _]. cbn in Hc. lia. }
  assert (Hq : rq_queue found = Z.of_nat (Z.to_nat (rq_queue found))) by (destruct Hc as [Hc _]; cbn in Hc; lia).
  assert (Hroom : (length l < CONCURRENT_QUEUE_SIZE)%nat).
  { replace (length l) with (length (saved_queue (Z.to_nat (rq_queue found)) l)) by apply length_fmap.
    rewrite (Hf _ _ Hl). by apply (filed_room saved (o, found)). }
  unfold resume_one. apply wp_bind. unfold host_op. apply wp_zoom. unfold wp at 1. destruct (reserve_spans (storage b)) as [s' r].
  cbn [fst snd] in *. subst r. apply wp_bind, wp_liftr. rewrite Ed. apply wp_bind, wp_gets. cbn iota beta zeta.
  cbn [storage set_storage]. apply wp_bind, wp_liftr. rewrite bool_decide_eq_true_2 by done.
  apply wp_bind, wp_gets. cbn iota beta. apply wp_bind, wp_liftr. unfold Frontier_restore. cbn [frontier set_storage].
  rewrite Hl. cbn [expect mbind result_mbind result_bind]. rewrite bool_decide_eq_false_2 by lia.
  apply wp_bind, wp_modify. apply wp_modify. cbn. split; [done|]. split; [|done]. split; [by rewrite length_insert|].
  intros q l' Hl'. rewrite filter_app. destruct (decide (q = Z.to_nat (rq_queue found))) as [->|Hne].
  - rewrite list_lookup_insert_eq in Hl' by by eapply lookup_lt_Some. injection Hl' as <-. unfold saved_queue. rewrite fmap_app.
    fold (saved_queue (Z.to_nat (rq_queue found)) l). rewrite (Hf _ _ Hl). f_equal. rewrite filter_cons_True by exact Hq. cbn.
    unfold known. cbn. by rewrite <- Hq, Ei.
  - rewrite list_lookup_insert_ne in Hl' by done. rewrite (Hf _ _ Hl'), filter_cons_False by (cbn; lia). by rewrite filter_nil, app_nil_r.
Qed.

Lemma resume_loop_succeeds chain_at todo saved b :
  filed (queues (frontier b)) saved → (∀ y, y ∈ saved ++ todo → cell (saved_key y)) → NoDup (saved_key <$> (saved ++ todo)) →
  grants (length todo) (storage b) → Forall (redecodes chain_at (negotiated_features (storage b))) todo →
  wp (resume_loop mem capacity_bytes chain_at todo) (λ b' r, r = Ok tt ∧ filed (queues (frontier b')) (saved ++ todo)) b.
Proof.
  revert saved b. induction todo as [|x todo IH]; intros saved b Hf Hc Hn Hg Hd; cbn [resume_loop]; [apply wp_ret; by rewrite app_nil_r|].
  cbn [length grants] in Hg. destruct Hg as (G1 & G2 & G3). apply Forall_cons in Hd as [D1 D2].
  rewrite (cons_middle x saved todo), app_assoc in Hc, Hn.
  apply wp_bind. eapply wp_mono; [apply (resume_one_succeeds chain_at x saved)|]; try done.
  - apply Hc. rewrite !elem_of_app. left. right. by left.
  - intros y Hy. apply Hc. rewrite !elem_of_app. by left; left.
  - rewrite fmap_app in Hn. by apply NoDup_app in Hn as (Hn & _).
  - by rewrite G2.
  - cbn iota beta. intros b1 r (-> & Hf1 & Es). rewrite (cons_middle x saved todo), app_assoc.
    apply IH; try done; rewrite Es; [done|]. by rewrite G2.
Qed.

Lemma resume_succeeds m own c t replay b chain_at :
  @sound_with g identity capacity_bytes m c own → InflightLife.reconcile g identity capacity_bytes m = (t, Ok replay) → fresh b →
  grants (length (rp_discovered replay)) (storage b) → Forall (redecodes chain_at (negotiated_features (storage b))) (rp_discovered replay) →
  wp (resume mem capacity_bytes chain_at replay;; resume_serial replay) (λ b' r, r = Ok tt ∧ length (queues (frontier b')) = CONCURRENT_QUEUES) b.
Proof.
  intros Hs E [Hf Hh] Hg Hd. pose proof (replay_ok _ _ _ _ _ Hs E) as [Hsort _].
  destruct (reconcile_always (geometry_ok g geometry_valid) m c own Hs) as [_ Q].
  unfold InflightLife.reconcile in E. rewrite E in Q. cbn [fst snd] in Q. destruct Q as ([= Er] & Hq & _).
  assert (Hin : ∀ x, x ∈ rp_discovered replay → cell (saved_key x) ∧ own (saved_key x) = Found x.1 x.2).
  { intros [o r] Hx. rewrite Er in Hx. apply (found_spec _ _ _ _ _ Hs) in Hx as (k & Hk & Ho).
    by destruct (found_key _ _ _ _ _ Hq Hk Ho) as [-> _]. }
  unfold resume. apply wp_bind, wp_bind, wp_modify. cbn iota beta.
  eapply wp_mono; [apply (resume_loop_succeeds chain_at (rp_discovered replay) [])|].
  - cbn. rewrite Hf. split; [apply length_replicate|]. by intros q l [-> _]%lookup_replicate.
  - intros x Hx. by apply Hin.
  - cbn [app]. apply NoDup_fmap_2_strong.
    + intros x y Hx Hy Ek. apply Hin in Hx as [_ Hx], Hy as [_ Hy]. rewrite Ek in Hx. destruct x, y. cbn in *. congruence.
    + clear -Hsort. induction Hsort as [|x l _ IH Hx]; constructor; [|done]. intros Hin. rewrite Forall_forall in Hx. specialize (Hx _ Hin). lia.
  - exact Hg.
  - exact Hd.
  - cbn iota beta. intros b1 r [-> [Hl _]]. by apply wp_modify.
Qed.

(** ** A backend that fails *)

Abbreviation sound := (@sound g identity capacity_bytes).
Abbreviation marked := (@marked g identity capacity_bytes).
Abbreviation condemned := (@condemned g identity capacity_bytes).

Definition region_quiet (b : State) : Prop := ∃ m own, carrier b = Some m ∧ quiet m own.
Definition region_sound (b : State) : Prop := ∃ m own, carrier b = Some m ∧ sound m own.

Lemma region_quiet_sound b : region_quiet b → region_sound b.
Proof. intros (m & own & Hc & Hq). exists m, own. split; [done|by eapply quiet_sound]. Qed.

Lemma agrees_quiet b : agrees b → region_quiet b.
Proof. intros (m & own & []). by exists m, own. Qed.

Lemma region_frame {A} (c : Act State A) (P : option Memory → Prop) b : keeps carrier c → P (carrier b) → wp c (λ b' _, P (carrier b')) b.
Proof. intros Hk HP. eapply wp_mono; [apply Hk|]. cbn. by intros b' _ ->. Qed.

Lemma carrier_core {A} (c : Act State A) : keeps core c → keeps carrier c.
Proof. intros Hc b. eapply wp_mono; [apply Hc|]. cbn. by intros b' _ [= ->]. Qed.

Lemma carrier_host {A} (c : Act Sto A) : keeps (@carrier Sto T) (host_op c).
Proof. apply carrier_core, core_host. Qed.

Lemma carrier_restore order found request : keeps (@carrier Sto T) (restore order found request).
Proof. unfold restore. keeps_steps; by apply keeps_modify. Qed.
#[local] Hint Resolve carrier_host carrier_restore : keeps.

Lemma discover_one_region queue size b : 0 ≤ queue → region_quiet b →
  wp (discover_one mem capacity_bytes g identity queue size) (λ b' _, region_quiet b') b.
Proof.
  intros Hq Hb. unfold discover_one. apply wp_bind. eapply wp_mono; [apply core_waiting|]. cbn iota beta.
  assert (F : ∀ b', core b' = core b → region_quiet b') by (intros b' [= E _ _ _]; unfold region_quiet; by rewrite E).
  intros b1 [q|e|] V1; [|by apply F..]. case_bool_decide; [apply wp_ret; by apply F|].
  apply wp_bind. unfold host_op at 1. apply wp_zoom. unfold wp at 1.
  destruct (peek queue (storage b1)) as [s2 [[[chain next]|]|e|]] eqn:Ep; cbn iota beta; [|by apply F..].
  pose proof (peek_head queue (storage b1) {| nc_chain := chain; nc_next_avail := next |} ltac:(by rewrite Ep)) as Hh. cbn [nc_chain] in Hh.
  set (b2 := set_storage s2 b1). assert (V2 : core b2 = core b) by done. clearbody b2. clear V1.
  apply wp_bind. eapply wp_mono; [apply core_host|]. cbn iota beta. intros b3 [reservation|e|] V3; [|by apply F; congruence..].
  apply wp_bind, wp_liftr. destruct (decode_chain _ _ _ _) as [request|e|] eqn:Ed; [|by apply F; congruence..]. apply wp_bind, wp_gets. cbn iota beta zeta.
  set (r := Request_negotiated request _). set (found := Request_inflight r queue _).
  assert (Hhead : rq_head found = chain_head chain).
  { transitivity (head (Request_completion r)); [by unfold found, Request_inflight; destruct r|].
    unfold r. rewrite negotiated_completion. by eapply decode_chain_head. }
  assert (Hqueue : rq_queue found = queue) by by unfold found, Request_inflight; destruct r.
  apply wp_bind, wp_gets. cbn iota beta. apply wp_bind, wp_liftr. unfold checked_add. case_decide; cbn [ok_or]; [|by apply F; congruence].
  apply wp_bind. eapply wp_mono; [apply core_host|]. cbn iota beta. intros b4 u V4.
  assert (Hb4 : region_quiet b4) by (apply F; congruence). destruct u as [[]|e|]; [|done..]. clear F.
  destruct Hb4 as (m & own & Hc & [c Hm]). destruct (discover_always size_positive m c own found Hm) as [_ Q]; [lia..|].
  apply wp_bind. unfold wp at 1, carrier_op. rewrite Hc.
  destruct (Carrier_discover g identity capacity_bytes found m) as [t res]. cbn [fst snd] in Q.
  set (b5 := set_carrier (Some (run t m)) b4).
  assert (Hb5 : region_quiet b5).
  { exists (run t m). destruct res as [d|e|]; [eexists; split; [done|apply Q]|exists own; split; [done|rewrite Q; by exists c]|done]. }
  destruct res as [d|e|]; cbn [mbind result_mbind result_bind]; [|done..].
  apply (region_frame _ (λ o, ∃ m own, o = Some m ∧ quiet m own)); [keeps_steps|done].
Qed.

(** Admission stopped at a fault point keeps a prefix of its stores. *)
Lemma observed_prefix r rejected observe m :
  (Carrier_admit_observed g identity capacity_bytes r rejected observe m).1 `prefix_of`
  (Carrier_admit_outcome g identity capacity_bytes r rejected m).1.
Proof.
  unfold Carrier_admit_outcome, Carrier_admit_observed, mbind, op_bind, lift.
  destruct (Carrier_prepare _ _ _ _ _ m) as [t1 [e1|err|]]; [|done..].
  destruct (Carrier_activate g e1 _) as [t2 [[]|err|]];
    (destruct (observe PhasePrepared) as [[]|err1|]; [|apply prefix_app, prefix_nil..]); [|done..].
  destruct (observe PhaseActive) as [[]|err1|]; [done|..]; apply prefix_app; cbn; apply prefix_app, prefix_nil.
Qed.

(** A failed [accept] leaves a sound region. *)
Lemma observed_sound m own r rejected observe :
  quiet m own → 0 ≤ rq_queue r → 0 ≤ rq_head r →
  ∃ own', sound (run (Carrier_admit_observed g identity capacity_bytes r rejected observe m).1 m) own'.
Proof.
  intros [c Hm] Hq Hh. destruct (admit_always size_positive m c own r rejected Hm Hq Hh) as [Hn _].
  destruct (observed_prefix r rejected observe m) as [t' Ht]. specialize (Hn (length (Carrier_admit_observed g identity capacity_bytes r rejected observe m).1)).
  rewrite Ht, take_app_length in Hn. destruct Hn as (o & _ & H'). by eexists.
Qed.

Lemma accept_region (b b4 : State) (q i : nat) l d permit :
  agrees b → queues (frontier b) !! q = Some l → l !! i = Some d → carrier b4 = carrier b →
  wp (accept capacity_bytes g identity (Z.of_nat q) (ds_available d) (ds_request d) permit) (λ b' _, region_sound b') b4.
Proof.
  intros (m & own & Ha) Hl Hi E1.
  assert (Hb : region_sound b4) by (unfold region_sound; rewrite E1; by apply region_quiet_sound, agrees_quiet; exists m, own).
  assert (Hin : d ∈ l) by by eapply list_elem_of_lookup_2. destruct (proj1 (ag_found _ _ _ Ha) _ _ _ Hl Hin) as [Hc _].
  rewrite <- known_key in Hc. destruct Hc as [[Hq _] [Hh _]]. cbn [fst snd] in Hq, Hh.
  unfold accept. apply wp_bind, wp_gets. cbn iota beta. apply wp_bind, wp_liftr. unfold checked_add. case_decide; cbn [ok_or]; [|done].
  apply wp_bind, wp_gets. cbn iota beta. apply wp_bind. unfold wp at 1, carrier_op. rewrite E1, (ag_carrier _ _ _ Ha).
  fold (known (Z.of_nat q) d). destruct (observed_sound m own (known (Z.of_nat q) d) false (fault_hit (storage b4)) (ag_quiet _ _ _ Ha) Hq Hh) as [own' Hs].
  destruct (Carrier_admit_observed _ _ _ _ _ _ _) as [t res]. cbn [fst] in Hs. set (b5 := set_carrier (Some (run t m)) b4).
  assert (Hb5 : region_sound b5) by (by exists (run t m), own'). destruct res as [e|e|]; cbn [mbind result_mbind result_bind]; [|done..].
  apply (region_frame _ (λ o, ∃ m own, o = Some m ∧ sound m own)); [keeps_steps; by apply keeps_modify|done].
Qed.

Lemma admit_one_region queue b :
  0 ≤ queue → view_ok (view b) → agrees b →
  wp (admit_one capacity_bytes g identity queue) (λ b' _, region_sound b') b.
Proof.
  intros Hq Hok Ha. pose proof (region_quiet_sound _ (agrees_quiet _ Ha)) as Hb.
  assert (F : ∀ b', core b' = core b → region_sound b') by (intros b' [= E _ _ _]; unfold region_sound; by rewrite E).
  unfold admit_one.
  apply wp_bind. eapply wp_mono; [apply (wp_and _ _ _ _ (core_waiting _ _) (silent_waiting _ _))|]. cbn iota beta.
  intros b1 [l0|e|] [C1 V1]; [|by apply F..]. case_bool_decide; [apply wp_ret; by apply F|].
  apply wp_bind. eapply wp_mono; [apply (wp_and _ _ _ _ (core_host _ _) (silent_host _ _))|]. cbn iota beta.
  intros b2 [[]|e|] [C2 V2]; [|by apply F; congruence..].
  apply wp_bind. eapply wp_mono; [apply (wp_and _ _ _ _ (core_select _ _ _) (select_eligible _ _ _))|]. cbn iota beta.
  intros b3 [[[i permit]|]|e|] (C3 & V3 & He); [|by apply F; congruence..].
  destruct (eligible_spec _ _ _ (He i permit eq_refl)) as (l & d & Hl & Hi & _ & _).
  assert (C23 : core b3 = core b) by congruence. assert (V23 : view b3 = view b) by congruence.
  rewrite (view_queues b b2) in Hl by congruence.
  destruct (take_candidate_core queue i b3 l d) as (b4 & E4 & C4); [by rewrite (view_queues b b3)|done|].
  apply wp_bind. unfold wp at 1. rewrite E4. cbn iota beta. apply wp_bind.
  eapply wp_mono; [rewrite <- (Z2Nat.id queue) by done; apply (accept_region b b4 (Z.to_nat queue) i l d permit); try done|].
  - injection C23 as D1 D2 D3 D4. injection C4 as -> _ _ _. done.
  - cbn iota beta. intros b5 [[]|e|] H5; [by apply wp_ret|done..].
Qed.

(** A visit, whatever its outcome, leaves a sound region. *)
Lemma progress_region queue discover b :
  0 ≤ queue → view_ok (view b) → agrees b →
  wp (progress_queue mem capacity_bytes g identity queue discover) (λ b' _, region_sound b') b.
Proof.
  intros Hq Hok Ha. pose proof (agrees_quiet _ Ha) as Hb.
  assert (Hd : ∀ n size b, region_quiet b →
    wp (discover_loop mem capacity_bytes g identity n queue size) (λ b' _, region_sound b') b).
  { intros n size. induction n as [|n IH]; intros b0 Hb0; cbn [discover_loop]; [by apply wp_ret, region_quiet_sound|]. apply wp_bind.
    eapply wp_mono; [by apply discover_one_region|]. cbn iota beta. intros b1 [again|e|] Hb1; [|by apply region_quiet_sound..].
    destruct again; [by apply IH|by apply wp_ret, region_quiet_sound]. }
  assert (Hl : ∀ n b, view_ok (view b) → agrees b →
    wp (admit_loop capacity_bytes g identity n queue) (λ b' _, region_sound b') b).
  { intros n. induction n as [|n IH]; intros b0 Hok0 Ha0; cbn [admit_loop]; [by apply wp_ret, region_quiet_sound, agrees_quiet|]. apply wp_bind.
    eapply wp_mono; [apply (wp_and _ _ _ _ (admit_one_region queue b0 Hq Hok0 Ha0) (wp_and _ _ _ _ (admit_one_agrees queue b0 Hq Hok0 Ha0)
      (admit_one_advances capacity_bytes g identity queue Hq _ b0 Hok0 (rtc_refl _ _))))|].
    cbn iota beta. intros b1 [again|e|] (R1 & A1 & V1); [|done..]. apply vsteps_ok in V1; [|done]. specialize (A1 again eq_refl).
    destruct again; cbn [negb]; [|by apply wp_ret]. apply wp_bind. eapply wp_mono; [by apply IH|]. cbn iota beta.
    intros b2 [k|e|] R2; [by apply wp_ret|done..]. }
  unfold progress_queue. pose proof (region_quiet_sound _ Hb) as Hs. apply wp_bind. unfold wp at 1. cbn iota beta. destruct (expect _) as [blocked|e|]; [|done..].
  apply wp_bind, wp_gets. cbn iota beta. destruct (_ || _); [by apply wp_ret|]. apply wp_bind, wp_gets. cbn iota beta.
  generalize (queue_length (storage b) queue). intros size. apply wp_bind.
  eapply (wp_mono _ (λ b' r, region_sound b' ∧ (r = Ok tt → view_ok (view b') ∧ agrees b'))).
  { destruct discover; [|by apply wp_ret]. apply wp_and; [by apply Hd|by apply discover_loop_agrees]. }
  intros b1 [[]|e|] [R1 H1']; [|done..]. destruct (H1' eq_refl) as [Hok1 Ha1]. apply wp_bind.
  eapply wp_mono; [by apply Hl|]. cbn iota beta. intros b2 [k|e|] R2; [|done..].
  apply (region_frame _ (λ o, ∃ m own, o = Some m ∧ sound m own)); [apply (keeps_when carrier), carrier_host|done].
Qed.

Lemma carrier_resume chain_at replay : keeps (@carrier Sto T) (resume mem capacity_bytes chain_at replay;; resume_serial replay).
Proof.
  assert (Hl : ∀ todo, keeps (@carrier Sto T) (resume_loop mem capacity_bytes chain_at todo)).
  { induction todo as [|[o found] todo IH]; cbn [resume_loop]; [apply keeps_ret|]. apply keeps_bind; [|done]. unfold resume_one. keeps_steps. }
  apply keeps_bind; [|intros; by apply keeps_modify]. apply keeps_bind; [by apply keeps_modify|done].
Qed.

(** The regions of a backend that no longer serves: a visit, a call or a recovery
    did not succeed, and it may then fail the image and go on with its calls. *)
Inductive stopped : Memory → Prop :=
  | stopped_visit b b' m queue discover r :
      serving b → 0 ≤ queue → progress_queue mem capacity_bytes g identity queue discover b = (b', r) → r ≠ Ok tt →
      carrier b' = Some m → stopped m
  | stopped_call b m s t r :
      serving b → carrier b = Some m → step_typed s → InflightLife.perform g identity capacity_bytes s m = (t, r) →
      r ≠ Ok tt ∨ s = Fail → stopped (run t m)
  | stopped_resume b b' m m' t replay chain_at r :
      life g identity capacity_bytes false m → InflightLife.reconcile g identity capacity_bytes m = (t, Ok replay) →
      fresh b → carrier b = Some (run t m) → (resume mem capacity_bytes chain_at replay;; resume_serial replay) b = (b', r) →
      r ≠ Ok tt → carrier b' = Some m' → stopped m'
  | stopped_then m s :
      stopped m → step_typed s → s = Fail ∨ m (HeaderAt HFailed) = 1 → stopped (run (InflightLife.perform g identity capacity_bytes s m).1 m).

Lemma stopped_region m : stopped m → (∃ own, sound m own) ∨ condemned m.
Proof.
  induction 1 as [b b' m queue discover r Hs Hq E _ Hc|b m s t r Hs Hc Ht E _|b b' m m' t replay chain_at r Hl E Hf Hc Hr _ Hc'|
    m s _ IH Ht Hfail].
  - left. apply serving_ok in Hs as [Hok Ha]. pose proof (wp_elim _ _ _ _ _ (progress_region queue discover b Hq Hok Ha) E) as (m' & own & Hc' & H').
    exists own. by rewrite Hc in Hc'; injection Hc' as ->.
  - apply serving_ok in Hs as [_ (m' & own & Ha)]. assert (m' = m) as -> by (pose proof (ag_carrier _ _ _ Ha); congruence).
    destruct (perform_outcome g identity capacity_bytes geometry_valid s m own Ht (ag_quiet _ _ _ Ha)) as (_ & _ & Q). rewrite E in Q. cbn [fst snd] in Q.
    destruct Q as [[own' Q]|[_ [own' Q]]]; [left; exists own'; by eapply quiet_sound|right; by eapply marked_condemned].
  - left. destruct (recovered_sound g identity capacity_bytes geometry_valid _ _ _ _ Hl E) as (c & own & Hs).
    destruct (reconcile_always (geometry_ok g geometry_valid) m c own Hs) as [_ Q]. unfold InflightLife.reconcile in E. rewrite E in Q.
    cbn [fst snd] in Q. destruct Q as (_ & Hq & _). pose proof (keeps_run _ _ _ _ _ (carrier_resume chain_at replay) Hr) as Ec.
    exists own. eapply quiet_sound. rewrite Hc' , Hc in Ec. by injection Ec as ->.
  - destruct IH as [[own Hs]|Hm].
    + pose proof (sound_healthy g identity capacity_bytes m own Hs) as H0'. destruct Hfail as [->|Hf]; [|congruence].
      right. eapply marked_condemned, mark_marked, Hs.
    + right. rewrite <- (take_ge (InflightLife.perform g identity capacity_bytes s m).1 _ (Nat.le_refl _)).
      by apply perform_condemned.
Qed.

(** A frontier that agrees with the region of [b] has its queues. *)
Lemma rebuilt_queue b b' m own c t replay b0 chain_at (q : nat) l l' :
  serving b → agrees_with b m own → @sound_with g identity capacity_bytes m c own →
  InflightLife.reconcile g identity capacity_bytes m = (t, Ok replay) → fresh b0 → carrier b0 = Some (run t m) →
  (resume mem capacity_bytes chain_at replay;; resume_serial replay) b0 = (b', Ok tt) →
  queues (frontier b) !! q = Some l → queues (frontier b') !! q = Some l' → saved_queue q l' = saved_queue q l.
Proof.
  intros Hb Ha Hs E Hf Hc0 Hr Hl Hl'. destruct (serving_ok b Hb) as [Hok _].
  pose proof (wp_elim _ _ _ _ _ (resume_agrees m own c t _ b0 chain_at Hs E Hf Hc0) Hr eq_refl) as Ha'.
  assert (Hok' : view_ok (view b')).
  { pose proof (replay_ok _ _ _ _ _ Hs E) as Hsort. apply bind_inv in Hr as (b1 & [] & E1 & E2). injection E2 as <-.
    exact (wp_elim _ _ _ _ _ (resume_ok mem capacity_bytes chain_at _ b0 Hf Hsort) E1). }
  apply sorted_same; [apply saved_queue_sorted; by eapply (vo_sorted _ Hok')|apply saved_queue_sorted; by eapply (vo_sorted _ Hok)|].
  intros x. split; eapply same_found_saved; try done; [apply (ag_found _ _ _ Ha')|apply (ag_found _ _ _ Ha)|
    apply (ag_found _ _ _ Ha)|apply (ag_found _ _ _ Ha')].
Qed.

(** C8: A restart.  The region of a backend that serves is accepted, and the
    frontier is rebuilt from it: if the guest's chains still decode to the saved
    discoveries and their reservations are granted, [resume] succeeds and each
    queue holds the same requests in the same order.  A backend that stopped (a
    call, a visit or a recovery did not succeed) leaves a region that is accepted
    until the image is failed, and refused without a store from then on. *)
Theorem restart_rebuilds_frontier :
  (∀ b m, serving b → carrier b = Some m →
    ∃ t replay, InflightLife.reconcile g identity capacity_bytes m = (t, Ok replay) ∧
      ∀ b0 chain_at, fresh b0 → carrier b0 = Some (run t m) →
        grants (length (rp_discovered replay)) (storage b0) →
        Forall (redecodes chain_at (negotiated_features (storage b0))) (rp_discovered replay) →
        ∃ b', (resume mem capacity_bytes chain_at replay;; resume_serial replay) b0 = (b', Ok tt) ∧
          ∀ (q : nat) l, queues (frontier b) !! q = Some l →
            ∃ l', queues (frontier b') !! q = Some l' ∧ saved_queue q l' = saved_queue q l) ∧
  (∀ m, stopped m →
    (m (HeaderAt HFailed) = 0 ∧ ∃ t replay, InflightLife.reconcile g identity capacity_bytes m = (t, Ok replay)) ∨
    (m (HeaderAt HFailed) = 1 ∧ InflightLife.reconcile g identity capacity_bytes m = ([], Err failed_error))).
Proof.
  split.
  - intros b m Hb Hc. pose proof (serving_ok b Hb) as [Hok (m' & own & Ha)].
    assert (m' = m) as -> by (pose proof (ag_carrier _ _ _ Ha); congruence).
    destruct (ag_quiet _ _ _ Ha) as [c Hq]. pose proof (qu_sound _ _ _ Hq) as Hs.
    destruct (reconcile_always (geometry_ok g geometry_valid) m c own Hs) as [_ Q].
    destruct (InflightLife.reconcile g identity capacity_bytes m) as [t r] eqn:E. pose proof E as E'. unfold InflightLife.reconcile in E.
    rewrite E in Q. cbn [fst snd] in Q. destruct Q as (-> & _). eexists t, _. split; [done|].
    intros b0 chain_at Hf Hc0 Hg Hd. pose proof (resume_succeeds m own c t _ b0 chain_at Hs E' Hf Hg Hd) as Hr. unfold wp in Hr.
    destruct ((resume _ _ _ _;; _) b0) as [b' res] eqn:Er. destruct Hr as [-> Hlen]. exists b'. split; [done|].
    intros q l Hl. destruct (lookup_lt_is_Some_2 (queues (frontier b')) q) as [l' Hl'].
    { rewrite Hlen, <- (vo_length _ Hok). by eapply lookup_lt_Some. }
    exists l'. split; [done|]. by eapply rebuilt_queue.
  - intros m [[own Hs]|Hm]%stopped_region; [left|right].
    + split; [by eapply sound_healthy|]. destruct Hs as [c Hs].
      destruct (reconcile_always (geometry_ok g geometry_valid) m c own Hs) as [_ Q].
      destruct (InflightLife.reconcile g identity capacity_bytes m) as [t r] eqn:E. unfold InflightLife.reconcile in E.
      rewrite E in Q. cbn [fst snd] in Q. destruct Q as (-> & _). by eexists t, _.
    + split; [apply Hm|exact (condemned_reconcile m _ Hm)].
Qed.

End Agreement.

(** ** A backend with a region *)

Module Served.

#[local] Existing Instance Demo.host_storage.
#[local] Existing Instance Demo.host.
#[local] Existing Instance GuestRequest.virtio_blk.
#[local] Existing Instance GuestRequest.region_memory.

Definition geometry : Geometry := {| g_queues := 1; g_queue_size := 4 |}.
Abbreviation identity := InflightLife.demo_identity.

Lemma served_geometry_ok : 0 ≤ g_queue_size geometry ∧ Geometry_new (g_queues geometry) (g_queue_size geometry) = Ok geometry.
Proof. by vm_compute. Qed.

Lemma peek_head queue (s : Demo.Host) chain : (peek queue s).2 = Ok (Some chain) → 0 ≤ chain_head (nc_chain chain).
Proof.
  cbn. destruct (Demo.rings s !! Z.to_nat queue ≫= hd_error) as [c|]; [|done]. intros [= <-]. cbn. by apply Z.mod_pos_bound.
Qed.

(** A new region, whose queue is then used for the first time. *)
Definition created : Memory := run (Carrier_create geometry identity 0 (λ _, 0)).1 (λ _, 0).
Definition initialized : Memory := run (InflightLife.perform geometry identity 65536 (Initialize 0 0) created).1 created.

Definition begun : Backend Demo.Host unit := set_carrier (Some created) Demo.start.
Definition ready : Backend Demo.Host unit := set_carrier (Some initialized) Demo.start.

Abbreviation visit := (progress_queue Demo.memory 65536 geometry identity 0 true).
Abbreviation serves := (serving Demo.memory 65536 geometry identity).

Lemma ready_serves : serves ready.
Proof.
  apply (serving_call _ _ _ _ begun ready created (Initialize 0 0)
    (InflightLife.perform geometry identity 65536 (Initialize 0 0) created).1).
  - by apply (serving_new _ _ _ _ begun (λ _, 0) 0).
  - done.
  - by vm_compute.
  - done.
  - apply (f_equal2 pair eq_refl). by vm_compute.
  - done.
  - done.
  - done.
Qed.

(** The write waits, one read has passed it, and one waits behind it. *)
Definition waiting_backend : Backend Demo.Host unit := (visit ready).1.

Lemma visit_ok : (visit ready).2 = Ok tt.
Proof. by vm_compute. Qed.

Lemma waiting_serves : serves waiting_backend.
Proof.
  apply (serving_visit _ _ _ _ ready waiting_backend 0 true ready_serves); [done|]. unfold waiting_backend.
  pose proof visit_ok as E. destruct (visit ready) as [b r]. cbn in E. by subst.
Qed.

Definition region : Memory := default created (carrier waiting_backend).

Lemma waiting_region : carrier waiting_backend = Some region.
Proof.
  assert (E : is_Some (carrier waiting_backend)) by (apply (bool_decide_unpack _); by vm_compute). unfold region. by destruct E as [m ->].
Qed.

(** The daemon dies, and a new one decodes the chains again. *)
Definition chain_at (queue h : Z) : Chain := Demo.chain h (16 * h) (negb (bool_decide (h = 0))).
Definition reborn : Backend Demo.Host unit :=
  set_carrier (Some (run (InflightLife.reconcile geometry identity 65536 region).1 region)) Demo.start.
Lemma reborn_fresh : fresh reborn.
Proof. by split. Qed.

Lemma reborn_carrier : carrier reborn = Some (run (InflightLife.reconcile geometry identity 65536 region).1 region).
Proof. reflexivity. Qed.

Definition replay : result Replay := (InflightLife.reconcile geometry identity 65536 region).2.
Definition rebuilt (r : Replay) : Backend Demo.Host unit * result unit :=
  (resume Demo.memory 65536 chain_at r;; resume_serial r) reborn.

(** What the region saved: the two requests that wait. *)
Definition saved : list (Z * Inflight.Request) := match replay with Ok r => rp_discovered r | _ => [] end.

Lemma saved_requests : saved = saved_queue 0 [Demo.found_write; Demo.found_read].
Proof. by vm_compute. Qed.

Lemma saved_redecodes : Forall (redecodes Demo.memory 65536 chain_at 0) saved.
Proof.
  rewrite saved_requests. repeat constructor.
  - exists (ds_request Demo.found_write). by vm_compute.
  - exists (ds_request Demo.found_read). by vm_compute.
Qed.

(** The image fails while the two wait. *)
Definition failed_region : Memory := run (Carrier_fail region).1 region.

Lemma failed_stopped : stopped Demo.memory 65536 geometry identity failed_region.
Proof. apply (stopped_call _ _ _ _ waiting_backend region Fail _ (Ok tt) waiting_serves waiting_region); [done..|by right]. Qed.

End Served.

Lemma carrier_agrees_witness :
  ∃ m, carrier Served.waiting_backend = Some m ∧
    @owner Served.geometry InflightLife.demo_identity 65536 m (key 0 Demo.found_write) = Found 1 (known 0 Demo.found_write).
Proof.
  destruct (carrier_agrees Demo.memory 65536 Served.geometry InflightLife.demo_identity Served.served_geometry_ok Served.peek_head
    Served.waiting_backend Served.waiting_serves) as (m & Hm & Hf & _).
  exists m. split; [exact Hm|]. apply (Hf 0%nat [Demo.found_write; Demo.found_read]); [by vm_compute|by left].
Defined.

#[local] Existing Instance Demo.host_storage.
#[local] Existing Instance Demo.host.
#[local] Existing Instance GuestRequest.virtio_blk.
#[local] Existing Instance GuestRequest.region_memory.

Lemma restart_rebuilds_frontier_witness :
  (∃ r, Served.replay = Ok r ∧ (Served.rebuilt r).2 = Ok tt ∧
    ∃ l, queues (frontier (Served.rebuilt r).1) !! 0%nat = Some l ∧
      saved_queue 0 l = saved_queue 0 [Demo.found_write; Demo.found_read]) ∧
  InflightLife.reconcile Served.geometry InflightLife.demo_identity 65536 Served.failed_region = ([], Err failed_error).
Proof.
  destruct (restart_rebuilds_frontier Demo.memory 65536 Served.geometry InflightLife.demo_identity Served.served_geometry_ok Served.peek_head)
    as [H1 H2]. split.
  - destruct (H1 Served.waiting_backend Served.region Served.waiting_serves Served.waiting_region) as (t & r & E & Hr).
    assert (Er : Served.replay = Ok r) by (unfold Served.replay; by rewrite E).
    assert (Es : rp_discovered r = Served.saved) by (unfold Served.saved; by rewrite Er).
    assert (Hc : carrier Served.reborn = Some (run t Served.region)).
    { transitivity (Some (run (InflightLife.reconcile Served.geometry InflightLife.demo_identity 65536 Served.region).1 Served.region)).
      - exact Served.reborn_carrier.
      - by rewrite E. }
    destruct (Hr Served.reborn Served.chain_at Served.reborn_fresh Hc) as (b' & Eb & Hq).
    + rewrite Es, Served.saved_requests. by repeat split.
    + rewrite Es. exact Served.saved_redecodes.
    + exists r. split; [exact Er|]. unfold Served.rebuilt. rewrite Eb. split; [reflexivity|].
      exact (Hq 0%nat [Demo.found_write; Demo.found_read] ltac:(by vm_compute)).
  - destruct (H2 Served.failed_region Served.failed_stopped) as [[H _]|[_ H]]; [|exact H].
    exfalso. assert (E : Served.failed_region (HeaderAt HFailed) = 1) by reflexivity. by rewrite E in H.
Defined.
